(* ===== verification/_CoqProject ===== *)
-Q . S2P
Prelude.v
BTree.v
Ecf.v
Cbor.v
ContentHash.v
Paths.v
Entity.v
Walker.v
Wire.v
Frame.v
Identity.v
Capability.v
CapabilityCodec.v
Verify.v
Store.v
Trie.v
Index.v
Ingest.v
Handler.v
Durability.v
Response.v
Connect.v
Handshake.v
TrieSpec.v
RootTracker.v
Tree.v
TreeOps.v
TreeWrites.v
TreeTransfer.v
Content.v
ContentSpec.v
ContentClosure.v
ContentHandler.v
ContentServe.v
ContentIngest.v
TypeConstraint.v
Narrowing.v
TypeCheck.v
TypeSpec.v
RevisionDag.v
RevisionMerge.v
Attestation.v
AttestationGraph.v
AttestationHandler.v
Quorum.v
QuorumHandler.v
RevisionConfig.v
AutoVersion.v
RevisionOps.v
CommitSpec.v
RevisionHandler.v
SnapshotSpec.v
Writers.v
