(* ===== verification/Prelude.v ===== *)
(** * A verification of the Entity Core protocol implementation

    The repository is a Rust workspace for a peer-to-peer protocol over content-addressed
    entities: a value is encoded canonically, an entity is a type with encoded data and is named
    by its hash, peers are named by their keys, a tree binds paths to hashes, every request
    carries a capability chain that the receiving peer verifies, and the history of a subtree is
    kept as a graph of versions.  This library translates the core of it into executable Rocq
    definitions, file by file, and proves what makes each part correct.  Definitions keep the
    code's names; the doc comment of a property of the manifest starts with its number there.

    ** The parts, bottom up

    - Prelude.v: results and their monad, byte strings, [lit], options and lists.
    - BTree.v: ordered association lists for Rust's [BTreeMap], the order class [Ord], and
      stable sorting for [slice::sort_by].
    - Ecf.v (core/ecf): the value type and the canonical CBOR encoder.  Cbor.v: the external
      reader crate ([ciborium]) as the interface [Ciborium] with the law [CiboriumDecodes], and
      a reference RFC 8949 decoder that satisfies it.
    - ContentHash.v (core/hash): the hash type, its 64-byte buffer representation, and its
      binary, CBOR and display codecs; SHA-2 is the interface [Sha2].
    - Paths.v (core/entity, URIs and paths; the admission gate of core/peer/connection.rs).
      Entity.v (core/entity): entities, envelopes, signature lookup.
    - Walker.v, Wire.v, Frame.v (core/wire): the byte-range walker over CBOR, the entity and
      envelope codecs that preserve raw bytes, and length-prefixed framing over an abstract
      stream.
    - Identity.v (core/crypto, core/types): key types, peer ids, peer and signature payloads.
      Base58 and the signature schemes are the interfaces [Base58] and [SignatureSchemes].
    - Capability.v, CapabilityCodec.v (core/capability): patterns and scopes, permission checks,
      attenuation, caveats; then the tokens' wire form and the re-attenuation mint.
    - Verify.v (core/protocol/verify.rs): the chain walk, chain verification, requests, bundles
      and revocation.
    - Response.v (core/protocol/response.rs), Connect.v (core/protocol/connect.rs): responses and
      errors, and the handshake as a state machine; Handshake.v (core/peer/connection.rs,
      remote.rs): what the responder answers to each of its frames, and the initiator.
      Ingest.v (core/peer/ingest.rs): the signatures that come with an envelope, stored and bound
      before a handler runs ([ingest_envelope_ok]).
    - Durability.v (extensions/durability): what a request may ask of durability and the verdict
      that answers it ([reconcile_honest]).
    - Store.v (core/store): the in-memory content store and location index, and the emit pathway
      that runs synchronous hooks on every change.
    - Trie.v, TrieSpec.v (core/tree/trie.rs): the content-addressed trie over the interface
      [ContentStore] of Store.v, then its canonical form and what follows from it.
    - Index.v (core/store): the location index as its clients see it, the interface
      [LocationIndex] with its laws, and the monad [Code] of runs over both stores.
    - RootTracker.v (core/tree/root_tracker.rs): the hook that keeps the root of the trie of the
      live bindings below each tracked prefix.
    - RevisionDag.v, RevisionMerge.v, RevisionConfig.v (extensions/revision: dag.rs, merge.rs,
      the configurations of engine.rs): versions and the walks over them, three-way merges, what
      a configuration allows and matches.
    - AutoVersion.v (extensions/revision/engine.rs): the hook that versions every change.
    - RevisionOps.v, RevisionHandler.v (extensions/revision/lib.rs): snapshots, commits, and the
      handlers of commit, checkout, merge, resolve, cherry-pick and revert.  CommitSpec.v states
      what versions are made, by a commit and by the emit path alike; SnapshotSpec.v what a
      checkout and a fast-forward do to the tree.
    - Handler.v (core/handler): a handler's context, result and errors, the subject of a request,
      and the resolution of a path to its handler.
    - Tree.v (core/tree/lib.rs): the tree handler, all of its operations over both stores.
      TreeOps.v: what its reads show; TreeWrites.v: put, merge and diff; TreeTransfer.v: what one
      peer extracts and another merges.
    - Content.v (extensions/content: fastcdc.rs, chunker.rs, verify.rs, closure.rs): the two
      chunkers, over a buffer and over a reader, verification and reassembly of a blob, and the
      sequencer that fetches what is missing of one.  ContentSpec.v: what chunking keeps;
      ContentClosure.v: what a closure completes; ContentHandler.v (handler.rs): get, within its
      frame budget, and ingest, with ContentServe.v and ContentIngest.v for what each does.
    - TypeConstraint.v, Narrowing.v, TypeCheck.v (extensions/type-system: constraint.rs, format.rs,
      type_pattern.rs; narrowing.rs; validate.rs, compare.rs): the constraint kinds and named
      formats, the walk over the types that a type extends, and validation and comparison.
      TypeSpec.v: what a verdict of theirs means.
    - Attestation.v (extensions/attestation: data.rs, index.rs, hook.rs): the attestation and its
      index by hash, author, subject, kind and predecessor.  AttestationGraph.v (helpers.rs):
      liveness, heads and chains.  AttestationHandler.v (handler.rs): create, supersede, revoke,
      verify.
    - Quorum.v, QuorumHandler.v (extensions/quorum): signer sets and their cache, resolvers, K of
      N, and the handler that makes, updates, publishes and verifies.
    - Writers.v: any number of threads whose cascades run the root tracker and the automatic
      versioning of one prefix at once, as a step relation.

    ** What the groups of theorems show

    Encoding: equal ECF bytes are equal values up to tags, NaN payloads and map order
    ([ecf_canonical]), bytes are read back by an independent decoder
    ([ecf_reference_round_trip]), hashes, tokens, entities and envelopes survive their wire
    forms ([hash_round_trips], [token_round_trip], [entity_wire_round_trip]), and what is
    accepted is well formed ([decode_envelope_ok]).  The walker accepts exactly the well-formed
    items of an inductive grammar ([item_end_spec]).

    Authority: the pattern matcher decides a denotation ([matches_pattern_decides]); an
    attenuated grant allows no more than its parent ([attenuation_sound]); so an accepted chain
    authorizes nothing its root does not, rooted at this peer ([verify_capability_chain_sound],
    [accepted_authority_is_local]); an accepted request is authentic and its capability live
    ([verify_request_sound]); the consumers of chains fail closed
    ([chain_consumers_fail_closed]).

    Handshake: an established connection has proved its key over this connection's nonce
    ([established_proves_key]), two honest peers always get there ([honest_handshake_completes]),
    and a refusal is that of the frame's row of a table, with two exceptions that the comments
    contradict ([handshake_refusals]).

    State: the location index refines a finite map ([location_index_refines]), cascades of hooks
    terminate ([cascade_terminates]), a trie's root hash is a function of its bindings
    ([trie_history_independent]), which lookups give back ([trie_reads_and_put_exact]), and the
    tracked root follows the tree ([tracked_root_follows]).

    Tree handler: get, snapshot and extract show nothing of a path the caller may not get, and a
    listing only that something is bound below a child ([reads_show_only_allowed]); a snapshot
    shows exactly the rest ([snapshot_exact]); a put is a compare-and-set of one binding, by a table
    that knows the paths the index does not take ([put_exact]), a merge writes what its strategy says or nothing
    ([merge_exact]); an extract merged on another peer arrives ([extract_merge_round_trip]).

    History: the walk to a common ancestor ends and finds one ([find_common_ancestor_exact]); a
    merge does at every path what a table of verdicts says ([merge_refines_verdict]) and converges
    between two peers ([merge_converges]); a commit and the automatic versioning make the same
    version where nothing was unbound, and leave the head and the active branch at it
    ([commit_and_auto_version_agree]); a checkout, where nothing versions its writes, and a
    fast-forward leave the tree at their version and everything else as it was
    ([checkout_restores], [merge_fast_forwards]).

    Content: a blob is put together to the bytes it was made of ([content_round_trip]); streaming
    makes the blob that buffering makes ([stream_is_buffered]); chunks keep their bounds, and
    boundaries their place when bytes are added ([cdc_chunks_bounded]); a closure that succeeds is
    complete ([ensure_closure_complete]) and succeeds against a peer that has the blob and can
    answer a batch in one frame ([closure_from_server]); get and ingest do what
    they report ([content_get_exact], [ingest_exact]).

    Types: validation is exact for the standard constraints ([validate_exact]); narrowing is
    sound for well-formed constraints of every kind ([narrowing_sound]), cycles among types or not
    ([narrowing_ends]).

    Attestations and quorums: the index answers as the entries it has, whatever was done to it
    ([attestation_index_exact]); liveness is decided ([liveness_exact]), and with it the head and
    the authorizing attestation ([default_find_authorizing_exact]); the handler writes exactly the
    attestation asked for, and verifies what is signed and live ([attestation_handler_exact]); K of N counts distinct valid signers
    ([verify_k_of_n_exact]), and an update counts from the next verify ([update_takes_effect]).
    Examples after them show what these checks do not see.

    Concurrency: however the cascades of concurrent writers interleave, no write is lost from
    the tracked root or from the versions ([writers_lose_nothing]), and up to 64 of them finish
    ([writers_finish]); examples show what writers of one path can still lose.

    ** Conventions

    Bytes and strings are [list Z]; machine integers are [Z] with their casts ([as_i64],
    [as_u32], [saturating_sub]) written out.  Fallible code returns [result]; a panic is [None]
    where a definition can panic.  Maps are ordered association lists where the code has a
    [BTreeMap] and [gmap] where it has a [HashMap].  Error texts are dropped, error variants
    kept.  Parameters stand for code outside the repository (cryptography, the CBOR reader, regular
    expressions, a [Read], the clock, the order of a [HashMap]) and for what a part is given to
    call (the dispatcher of a request, a substitute or quorum resolver); each law that is assumed
    of one has an instance on which the witnesses run.

    ** Fuel and bounds

    A string's or buffer's length bounds the recursion of [clean_path], [matches_pattern] and the
    walker; 64 links and the leaf bound the chain walk, as in the code ([MAX_CHAIN_DEPTH]); 32
    levels bound nested dispatch ([CASCADE_DEPTH_LIMIT]), and [cascade_terminates] proves that
    this fuel is never exhausted; 53 levels bound the trie, whose updates panic beyond level 51
    as the code does; three turns plus two for each parent link in the store bound the walks over
    versions ([dag_fuel]), and their theorems prove that this is enough; 64 attempts bound the
    compare-and-set loops, as in the code; the number of resolvable type names and one bound the
    walk over types; a closure ends within the ten turns the code allows; the number of entries of
    the attestation index, and two for the start and the end, bound its walks, which is enough
    where references point back as hashes do ([grounded]); a loop over chunks has their bytes'
    length.  The reader crate refuses items nested more than 256
    deep, which the law of [Ciborium] and its users mention.

    ** Not modelled

    Locks inside a store (a run of the sequential definitions is one thread's), tracing, error
    texts, and the parts the manifest lists as not modelled: networking and the asynchronous
    runtime, disk and browser storage, the language bindings, the revision operations that talk
    to other peers, the tables of core types, and the remaining extensions (compute, clock,
    history and query, subscriptions, continuations and inboxes, identity, roles, registry,
    encryption, files), which are developments of their own. *)
From stdpp Require Export gmap strings list list_numbers sorting.
From Stdlib Require Export Lia ZArith.

Open Scope Z_scope.

(** * Results: Rust's [Result<A, E>] *)

Inductive result (E A : Type) : Type :=
  | Ok (a : A)
  | Err (e : E).
Arguments Ok {E A} a.
Arguments Err {E A} e.

#[export] Instance result_ret E : MRet (result E) := λ A a, Ok a.
#[export] Instance result_bind E : MBind (result E) :=
  λ A B f r, match r with Ok a => f a | Err e => Err e end.

(** [.ok()] and [.ok_or(e)]. *)
Definition ok {E A} (r : result E A) : option A :=
  match r with Ok a => Some a | Err _ => None end.

Definition ok_or {E A} (e : E) (o : option A) : result E A :=
  match o with Some a => Ok a | None => Err e end.

Definition map_err {E F A} (f : E → F) (r : result E A) : result F A :=
  match r with Ok a => Ok a | Err e => Err (f e) end.

Definition is_ok {E A} (r : result E A) : bool :=
  match r with Ok _ => true | Err _ => false end.

(** [for x in l { acc = f(acc, x)?; }] *)
Fixpoint foldM {E A B} (f : B → A → result E B) (acc : B) (l : list A) : result E B :=
  match l with
  | [] => Ok acc
  | x :: l' => acc' ← f acc x; foldM f acc' l'
  end.

(** [iter.map(f).collect::<Result<Vec<_>, _>>()] *)
Fixpoint mapR {E A B} (f : A → result E B) (l : list A) : result E (list B) :=
  match l with
  | [] => Ok []
  | x :: l' => y ← f x; ys ← mapR f l'; Ok (y :: ys)
  end.

Lemma bind_Ok {E A B} (r : result E A) (f : A → result E B) b :
  r ≫= f = Ok b ↔ ∃ a, r = Ok a ∧ f a = Ok b.
Proof.
  destruct r as [a|e]; simpl; unfold mbind; simpl; split.
  - eauto.
  - intros (a' & [= ->] & H). exact H.
  - discriminate.
  - intros (a' & ? & _). discriminate.
Qed.

Lemma mapR_Ok {E A B} (f : A → result E B) l ys :
  mapR f l = Ok ys ↔ Forall2 (λ x y, f x = Ok y) l ys.
Proof.
  revert ys. induction l as [|x l IH]; intros ys; simpl.
  - split; [intros [= <-]; constructor | intros H; inversion H; reflexivity].
  - rewrite bind_Ok. split.
    + intros (y & Hy & H). apply bind_Ok in H as (ys' & Hys & [= <-]).
      constructor; [exact Hy | by apply IH].
    + intros H. inversion H as [|? y ? ys' Hy Hys]; subst.
      exists y. split; [exact Hy |]. apply bind_Ok. exists ys'.
      split; [by apply IH | reflexivity].
Qed.

Lemma ok_or_Ok {E A} (e : E) (o : option A) a : ok_or e o = Ok a ↔ o = Some a.
Proof. destruct o; simpl; split; congruence. Qed.

(** The errors of a computation, as a postcondition. *)
Definition errs {E A} (P : E → Prop) (r : result E A) : Prop := match r with Ok _ => True | Err e => P e end.

Lemma errs_bind {E A B} (P : E → Prop) (r : result E A) (f : A → result E B) :
  errs P r → (∀ a, errs P (f a)) → errs P (r ≫= f).
Proof. destruct r; [|done]. intros _ Hf. apply Hf. Qed.

Lemma errs_ok_or {E A} (P : E → Prop) e (o : option A) : P e → errs P (ok_or e o).
Proof. by destruct o. Qed.

Lemma errs_map_err {E F A} (P : F → Prop) (f : E → F) (r : result E A) : (∀ e, P (f e)) → errs P (map_err f r).
Proof. destruct r; [done|]. intros Hf. apply Hf. Qed.

Lemma errs_mono {E A} (P Q : E → Prop) (r : result E A) : (∀ e, P e → Q e) → errs P r → errs Q r.
Proof. destruct r; cbn; auto. Qed.

(** Walk through the binds, tests and conversions of a computation. *)
Ltac errs_run :=
  repeat first [ progress intros | apply errs_bind | apply errs_ok_or | apply errs_map_err | case_match | exact I ].

(** Inversion of a chain of [?]: turns [m ≫= k = Ok b] into its steps. *)
Ltac inv_ok :=
  repeat match goal with
  | H : (_ ≫= _) = Ok _ |- _ =>
      let a := fresh "r" in let Ha := fresh "Hr" in
      apply bind_Ok in H as (a & Ha & H)
  | H : Ok _ = Ok _ |- _ => injection H as H; try subst
  | H : Err _ = Ok _ |- _ => discriminate H
  | H : ok_or _ _ = Ok _ |- _ => apply ok_or_Ok in H
  end.

(** * Byte strings

    Rust's [&str]/[String] and [&[u8]]/[Vec<u8>] are both lists of bytes here;
    a byte is a [Z] in [0, 256).  [lit] embeds an ASCII literal. *)

Definition lit (s : string) : list Z :=
  map (λ c, Z.of_nat (Ascii.nat_of_ascii c)) (String.list_ascii_of_string s).
Arguments lit s%_string : simpl never.

Definition byte_ok (b : Z) : Prop := 0 ≤ b < 256.
Definition bytes_ok (l : list Z) : Prop := Forall byte_ok l.

#[export] Instance byte_ok_dec b : Decision (byte_ok b).
Proof. unfold byte_ok. apply _. Defined.
#[export] Instance bytes_ok_dec l : Decision (bytes_ok l).
Proof. unfold bytes_ok. apply _. Defined.

(** ASCII codes the path code compares with. *)
Definition ch_slash : Z := 47.
Definition ch_star : Z := 42.
Definition ch_colon : Z := 58.

(** [s.strip_prefix(p)] *)
Fixpoint strip_prefix (p s : list Z) : option (list Z) :=
  match p, s with
  | [], _ => Some s
  | a :: p', b :: s' => if decide (a = b) then strip_prefix p' s' else None
  | _ :: _, [] => None
  end.

(** [s.starts_with(p)] *)
Definition starts_with (s p : list Z) : bool :=
  match strip_prefix p s with Some _ => true | None => false end.

(** [s.strip_suffix(p)] *)
Definition strip_suffix (p s : list Z) : option (list Z) :=
  reverse <$> strip_prefix (reverse p) (reverse s).

(** [s.find(c)] for an ASCII character: the byte index of its first occurrence. *)
Fixpoint find_byte (c : Z) (s : list Z) : option nat :=
  match s with
  | [] => None
  | b :: s' => if decide (b = c) then Some 0%nat else S <$> find_byte c s'
  end.

(** [s.contains(p)] *)
Fixpoint contains_sub (p s : list Z) : bool :=
  starts_with s p || match s with [] => false | _ :: s' => contains_sub p s' end.

(** [s.contains(c)] for a single ASCII character. *)
Definition contains_byte (c : Z) (s : list Z) : bool :=
  match find_byte c s with Some _ => true | None => false end.

(** [s.split(c)] *)
Fixpoint split_on (c : Z) (s : list Z) : list (list Z) :=
  match s with
  | [] => [[]]
  | b :: s' =>
      if decide (b = c) then [] :: split_on c s'
      else match split_on c s' with
           | [] => [[b]]
           | w :: ws => (b :: w) :: ws
           end
  end.

Lemma strip_prefix_Some p s r : strip_prefix p s = Some r ↔ s = p ++ r.
Proof.
  revert s. induction p as [|a p IH]; intros [|b s]; simpl.
  - naive_solver.
  - naive_solver.
  - naive_solver.
  - case_decide as Hd; [subst; rewrite IH; naive_solver | naive_solver].
Qed.

Lemma strip_prefix_app p r : strip_prefix p (p ++ r) = Some r.
Proof. by apply strip_prefix_Some. Qed.

Lemma strip_prefix_None p s : strip_prefix p s = None ↔ ¬ p `prefix_of` s.
Proof.
  split.
  - intros H [r Hr]. apply strip_prefix_Some in Hr. congruence.
  - intros H. destruct (strip_prefix p s) as [r|] eqn:E; [|done].
    apply strip_prefix_Some in E. destruct H. by exists r.
Qed.

Lemma starts_with_true s p : starts_with s p = true ↔ p `prefix_of` s.
Proof.
  unfold starts_with. destruct (strip_prefix p s) as [r|] eqn:E.
  - apply strip_prefix_Some in E. split; [intros _; by exists r | done].
  - apply strip_prefix_None in E. naive_solver.
Qed.

Lemma starts_with_false s p : starts_with s p = false ↔ ¬ p `prefix_of` s.
Proof. rewrite <-starts_with_true. by destruct (starts_with s p). Qed.

Lemma starts_with_refl s : starts_with s s = true.
Proof. by apply starts_with_true. Qed.

Lemma starts_with_app s p r : starts_with s p = true → starts_with (s ++ r) p = true.
Proof. rewrite !starts_with_true. apply prefix_app_r. Qed.

Lemma strip_suffix_Some p s r : strip_suffix p s = Some r ↔ s = r ++ p.
Proof.
  unfold strip_suffix. rewrite fmap_Some. split.
  - intros (x & Hx & ->). apply strip_prefix_Some in Hx.
    rewrite <-(reverse_involutive s), Hx, reverse_app, reverse_involutive. done.
  - intros ->. exists (reverse r). rewrite reverse_involutive. split; [|done].
    rewrite reverse_app. apply strip_prefix_app.
Qed.

Lemma find_byte_Some c s i :
  find_byte c s = Some i →
  s = take i s ++ c :: drop (S i) s ∧ c ∉ take i s ∧ (i < length s)%nat.
Proof.
  revert i. induction s as [|b s IH]; intros i; simpl; [done|].
  case_decide as Hd.
  - intros [= <-]. subst. simpl. rewrite drop_0. split; [done|]. split; [set_solver|lia].
  - intros H. apply fmap_Some in H as (j & Hj & ->).
    destruct (IH j Hj) as (H1 & H2 & H3). simpl. split; [by rewrite <-H1|].
    split; [set_solver | lia].
Qed.

Lemma find_byte_None c s : find_byte c s = None ↔ c ∉ s.
Proof.
  induction s as [|b s IH]; simpl; [set_solver|].
  case_decide as Hd; [set_solver|]. rewrite fmap_None, IH. set_solver.
Qed.

Lemma find_byte_app c s r : c ∉ s → find_byte c (s ++ c :: r) = Some (length s).
Proof.
  induction s as [|b s IH]; intros H; simpl.
  - by case_decide.
  - case_decide as Hd; [set_solver|]. rewrite IH by set_solver. done.
Qed.

Lemma contains_byte_true c s : contains_byte c s = true ↔ c ∈ s.
Proof.
  unfold contains_byte. destruct (find_byte c s) as [i|] eqn:E.
  - destruct (find_byte_Some _ _ _ E) as (H & _). split; [|done]. intros _.
    rewrite H. set_solver.
  - apply find_byte_None in E. split; [done|]. intros ?. contradiction.
Qed.

Lemma contains_byte_false c s : contains_byte c s = false ↔ c ∉ s.
Proof. rewrite <-contains_byte_true. by destruct (contains_byte c s). Qed.

Lemma contains_sub_true p s :
  contains_sub p s = true ↔ ∃ l r, s = l ++ p ++ r.
Proof.
  induction s as [|b s IH]; simpl.
  - rewrite orb_false_r, starts_with_true. split.
    + intros [r Hr]. by exists [], r.
    + intros (l & r & H). symmetry in H. apply app_nil in H as [-> H].
      exists r. by rewrite H.
  - rewrite orb_true_iff, starts_with_true, IH. split.
    + intros [[r ->]|(l & r & ->)]; [by exists [], r | by exists (b :: l), r].
    + intros ([|b' l] & r & H); simpl in *.
      * left. by exists r.
      * injection H as -> ->. right. by exists l, r.
Qed.

Lemma contains_sub_false p s : contains_sub p s = false ↔ ¬ ∃ l r, s = l ++ p ++ r.
Proof. rewrite <-contains_sub_true. by destruct (contains_sub p s). Qed.

Lemma contains_sub_mono p s s' :
  contains_sub p s' = false → s `suffix_of` s' → contains_sub p s = false.
Proof.
  rewrite !contains_sub_false. intros H [k ->] (l & r & ->). apply H.
  exists (k ++ l), r. by rewrite <-app_assoc.
Qed.

Lemma bytes_ok_app l1 l2 : bytes_ok (l1 ++ l2) ↔ bytes_ok l1 ∧ bytes_ok l2.
Proof. apply Forall_app. Qed.

Lemma prefix_comparable {A} (p q s : list A) :
  p `prefix_of` s → q `prefix_of` s → p `prefix_of` q ∨ q `prefix_of` p.
Proof. intros Hp Hq. destruct (prefix_weak_total p q s Hp Hq); eauto. Qed.

Create HintDb entity.
#[export] Hint Rewrite @bind_Ok @ok_or_Ok @mapR_Ok strip_prefix_app : entity.
#[export] Hint Resolve strip_prefix_app starts_with_refl : entity.

(** [lia] for goals with division by constants. *)
Ltac dlia := Z.to_euclidean_division_equations; lia.

(** * Machine integers *)

Definition u8_max : Z := 255.
Definition u16_max : Z := 65535.
Definition u32_max : Z := 4294967295.
Definition u64_max : Z := 18446744073709551615.
Definition i64_max : Z := 9223372036854775807.

(** [x as u64], [x as u8], [x as u16], [x as u32]: truncation. *)
Definition as_u8 (z : Z) : Z := z mod 2 ^ 8.
Definition as_u16 (z : Z) : Z := z mod 2 ^ 16.
Definition as_u32 (z : Z) : Z := z mod 2 ^ 32.
Definition as_u64 (z : Z) : Z := z mod 2 ^ 64.
(** [x as i64]: truncation to the two's complement representative. *)
Definition as_i64 (z : Z) : Z :=
  let w := z mod 2 ^ 64 in if w <? 2 ^ 63 then w else w - 2 ^ 64.

(** [u64::try_from(x)] / [i64::try_from(x)] on a wider integer. *)
Definition try_u64 (z : Z) : option Z :=
  if (0 <=? z) && (z <=? u64_max) then Some z else None.
Definition try_i64 (z : Z) : option Z :=
  if (- 2 ^ 63 <=? z) && (z <=? i64_max) then Some z else None.

(** [u64::saturating_sub] *)
Definition saturating_sub (a b : Z) : Z := if a <? b then 0 else a - b.

Lemma try_u64_Some z w : try_u64 z = Some w ↔ w = z ∧ 0 ≤ z ≤ u64_max.
Proof. unfold try_u64. destruct (_ && _) eqn:E; lia || naive_solver lia. Qed.

Lemma as_u64_id z : 0 ≤ z ≤ u64_max → as_u64 z = z.
Proof. intros H. apply Z.mod_small. unfold u64_max in H. lia. Qed.

(** [x.to_be_bytes()] for an [8*n]-bit integer and [uN::from_be_bytes]. *)
Fixpoint be_bytes (n : nat) (z : Z) : list Z :=
  match n with
  | O => []
  | S n' => (z / 256 ^ Z.of_nat n') mod 256 :: be_bytes n' z
  end.

Fixpoint be_value_acc (acc : Z) (l : list Z) : Z :=
  match l with [] => acc | b :: l' => be_value_acc (acc * 256 + b) l' end.
Definition be_value (l : list Z) : Z := be_value_acc 0 l.

Lemma length_be_bytes n z : length (be_bytes n z) = n.
Proof. induction n; simpl; auto. Qed.

Lemma be_bytes_ok n z : bytes_ok (be_bytes n z).
Proof.
  induction n; simpl; constructor; [|done]. apply Z.mod_pos_bound. lia.
Qed.

Lemma be_value_acc_bytes n z acc :
  be_value_acc acc (be_bytes n z) = acc * 256 ^ Z.of_nat n + z mod 256 ^ Z.of_nat n.
Proof.
  revert acc. induction n as [|n IH]; intros acc.
  - change (Z.of_nat 0) with 0. rewrite Z.pow_0_r, Z.mod_1_r. simpl. lia.
  - cbn [be_bytes be_value_acc]. rewrite IH, Nat2Z.inj_succ, Z.pow_succ_r by lia.
    set (p := 256 ^ Z.of_nat n). assert (0 < p) by (apply Z.pow_pos_nonneg; lia).
    rewrite (Z.mul_comm 256 p), (Z.rem_mul_r z p 256) by lia. lia.
Qed.

Lemma be_value_bytes n z :
  0 ≤ z < 256 ^ Z.of_nat n → be_value (be_bytes n z) = z.
Proof.
  intros H. unfold be_value. rewrite be_value_acc_bytes, Z.mod_small; lia.
Qed.

Lemma be_value_acc_bound l acc :
  bytes_ok l → 0 ≤ acc →
  acc * 256 ^ Z.of_nat (length l) ≤ be_value_acc acc l
    < (acc + 1) * 256 ^ Z.of_nat (length l).
Proof.
  revert acc. induction l as [|b l IH]; intros acc Hl Hacc; simpl.
  - change (Z.of_nat 0) with 0. lia.
  - apply Forall_cons in Hl as [Hb Hl]. unfold byte_ok in Hb.
    specialize (IH (acc * 256 + b) Hl ltac:(lia)).
    change (Z.of_nat (S (length l))) with (Z.of_nat (1 + length l)).
    rewrite Nat2Z.inj_add, Z.pow_add_r by lia. change (256 ^ Z.of_nat 1) with 256.
    assert (0 < 256 ^ Z.of_nat (length l)) by (apply Z.pow_pos_nonneg; lia). nia.
Qed.

Lemma be_value_bound l :
  bytes_ok l → 0 ≤ be_value l < 256 ^ Z.of_nat (length l).
Proof. intros H. pose proof (be_value_acc_bound l 0 H). unfold be_value. lia. Qed.

(** * UTF-8: the validity test of [std::str::from_utf8] *)

Definition utf8_cont (b : Z) : bool := (128 <=? b) && (b <=? 191).

Fixpoint utf8_valid (l : list Z) : bool :=
  match l with
  | [] => true
  | b0 :: l0 =>
      if (0 <=? b0) && (b0 <=? 127) then utf8_valid l0
      else
        match l0 with
        | [] => false
        | b1 :: l1 =>
            if (194 <=? b0) && (b0 <=? 223) then utf8_cont b1 && utf8_valid l1
            else
              match l1 with
              | [] => false
              | b2 :: l2 =>
                  if (224 <=? b0) && (b0 <=? 239) then
                    (if b0 =? 224 then (160 <=? b1) && (b1 <=? 191)
                     else if b0 =? 237 then (128 <=? b1) && (b1 <=? 159)
                     else utf8_cont b1) && utf8_cont b2 && utf8_valid l2
                  else
                    match l2 with
                    | [] => false
                    | b3 :: l3 =>
                        (240 <=? b0) && (b0 <=? 244)
                        && (if b0 =? 240 then (144 <=? b1) && (b1 <=? 191)
                            else if b0 =? 244 then (128 <=? b1) && (b1 <=? 143)
                            else utf8_cont b1)
                        && utf8_cont b2 && utf8_cont b3 && utf8_valid l3
                    end
              end
        end
  end.

Definition ascii_ok (l : list Z) : Prop := Forall (λ b, 0 ≤ b ≤ 127) l.

Lemma utf8_valid_ascii l : ascii_ok l → utf8_valid l = true.
Proof.
  induction 1 as [|b l Hb _ IH]; simpl; [done|].
  rewrite (proj2 (Z.leb_le 0 b)), (proj2 (Z.leb_le b 127)) by lia. done.
Qed.

Ltac leb_hyps :=
  repeat match goal with
  | E : _ && _ = true |- _ => apply andb_true_iff in E as [? ?]
  | E : (_ <=? _) = true |- _ => apply Z.leb_le in E
  | E : (_ <=? _) = false |- _ => apply Z.leb_gt in E
  | E : (_ <? _) = true |- _ => apply Z.ltb_lt in E
  | E : (_ <? _) = false |- _ => apply Z.ltb_ge in E
  | E : (_ =? _) = true |- _ => apply Z.eqb_eq in E
  | E : (_ =? _) = false |- _ => apply Z.eqb_neq in E
  end.

Lemma utf8_valid_bytes l : utf8_valid l = true → bytes_ok l.
Proof.
  unfold bytes_ok, utf8_cont. revert l.
  fix IH 1. intros [|b0 l0]; [constructor|]. cbn [utf8_valid].
  destruct ((0 <=? b0) && (b0 <=? 127)) eqn:E0.
  { intros H. constructor; [unfold byte_ok; leb_hyps; lia | by apply IH]. }
  destruct l0 as [|b1 l1]; [done|].
  destruct ((194 <=? b0) && (b0 <=? 223)) eqn:E1.
  { intros [H1 H]%andb_true_iff. unfold utf8_cont in H1. specialize (IH _ H). leb_hyps.
    repeat constructor; unfold byte_ok; try lia; done. }
  destruct l1 as [|b2 l2]; [done|].
  destruct ((224 <=? b0) && (b0 <=? 239)) eqn:E2.
  { intros [[H1 H2]%andb_true_iff H]%andb_true_iff. specialize (IH _ H).
    unfold utf8_cont in *. assert (128 <= b1 <= 191) by (destruct (b0 =? 224), (b0 =? 237); leb_hyps; lia).
    leb_hyps. repeat constructor; unfold byte_ok; try lia; done. }
  destruct l2 as [|b3 l3]; [done|].
  intros [[[[H0 H1]%andb_true_iff H2]%andb_true_iff H3]%andb_true_iff H]%andb_true_iff.
  specialize (IH _ H). unfold utf8_cont in *.
  assert (128 <= b1 <= 191) by (destruct (b0 =? 240), (b0 =? 244); leb_hyps; lia).
  leb_hyps. repeat constructor; unfold byte_ok; try lia; done.
Qed.

Lemma forallb_elem {A} (f : A → bool) l : forallb f l = true ↔ ∀ x, x ∈ l → f x = true.
Proof. rewrite forallb_forall. by setoid_rewrite list_elem_of_In. Qed.
