(* ===== verification/BTree.v ===== *)
(** Ordered maps: Rust's [BTreeMap<K, V>].

    [Ord] is the interface an ordered key type offers (Rust's [Ord]); a
    [btree K V] is the association list a [BTreeMap] iterates over, strictly
    ascending in its keys.  The operations keep that order, so the theorems
    about iteration order ([find_signature_for]'s "first match", the encoded
    order of [included], [range(prefix..)]) are about the order the code
    really iterates in. *)
From S2P Require Import Prelude.

(** * Total orders *)

Class Ord (K : Type) := {
  cmp : K → K → comparison;
  cmp_eq : ∀ x y, cmp x y = Eq ↔ x = y;
  cmp_antisym : ∀ x y, cmp y x = CompOpp (cmp x y);
  cmp_lt_trans : ∀ x y z, cmp x y = Lt → cmp y z = Lt → cmp x z = Lt;
}.

Lemma cmp_refl `{Ord K} x : cmp x x = Eq.
Proof. by apply cmp_eq. Qed.

Lemma cmp_gt_lt `{Ord K} x y : cmp x y = Gt ↔ cmp y x = Lt.
Proof. rewrite (cmp_antisym x y). destruct (cmp x y); simpl; split; congruence. Qed.

Lemma cmp_lt_ne `{Ord K} x y : cmp x y = Lt → x ≠ y.
Proof. intros H1 ->. by rewrite cmp_refl in H1. Qed.

(** [cmp] as a total preorder that is antisymmetric: what sorting asks for. *)
Lemma cmp_flip `{Ord K} x y : cmp x y = Gt → cmp y x ≠ Gt.
Proof. rewrite (cmp_antisym x y). by intros ->. Qed.

Lemma cmp_le_trans `{Ord K} x y z : cmp x y ≠ Gt → cmp y z ≠ Gt → cmp x z ≠ Gt.
Proof.
  intros Hxy Hyz. destruct (cmp x y) eqn:E1; [by apply cmp_eq in E1 as ->| |done].
  destruct (cmp y z) eqn:E2; [apply cmp_eq in E2 as <-; congruence| |done].
  by rewrite (cmp_lt_trans _ _ _ E1 E2).
Qed.

Lemma cmp_le_antisym `{Ord K} x y : cmp x y ≠ Gt → cmp y x ≠ Gt → x = y.
Proof.
  rewrite (cmp_antisym x y). destruct (cmp x y) eqn:E; [by intros; apply cmp_eq|done|done].
Qed.

(** A total order decides equality. *)
Lemma ord_eq_dec `{Ord K} : EqDecision K.
Proof.
  intros x y. destruct (cmp x y) eqn:E.
  - left. by apply cmp_eq.
  - right. by apply cmp_lt_ne.
  - right. intros ->. by rewrite cmp_refl in E.
Defined.

#[export] Program Instance Z_ord : Ord Z := {| cmp := Z.compare |}.
Next Obligation. intros. apply Z.compare_eq_iff. Qed.
Next Obligation. intros. apply Z.compare_antisym. Qed.
Next Obligation. intros x y z. rewrite !Z.compare_lt_iff. lia. Qed.

(** Lexicographic order of slices ([Ord for [T]], and of [str] by bytes). *)
Fixpoint list_cmp `{Ord A} (l k : list A) : comparison :=
  match l, k with
  | [], [] => Eq
  | [], _ :: _ => Lt
  | _ :: _, [] => Gt
  | x :: l', y :: k' =>
      match cmp x y with Eq => list_cmp l' k' | c => c end
  end.

#[export] Program Instance list_ord `{Ord A} : Ord (list A) := {| cmp := list_cmp |}.
Next Obligation.
  intros A ? l. induction l as [|x l IH]; intros [|y k]; simpl; try naive_solver.
  destruct (cmp x y) eqn:E.
  - apply cmp_eq in E as ->. rewrite IH. naive_solver.
  - apply cmp_lt_ne in E. naive_solver.
  - apply cmp_gt_lt, cmp_lt_ne in E. naive_solver.
Qed.
Next Obligation.
  intros A ? l. induction l as [|x l IH]; intros [|y k]; simpl; try done.
  rewrite (cmp_antisym x y). destruct (cmp x y); simpl; auto.
Qed.
Next Obligation.
  intros A ? l. induction l as [|x l IH]; intros [|y k] [|z m]; simpl; try done.
  destruct (cmp x y) eqn:E1; try done.
  - apply cmp_eq in E1 as ->. destruct (cmp y z) eqn:E2; try done. apply IH.
  - intros _. destruct (cmp y z) eqn:E2; try done.
    + apply cmp_eq in E2 as ->. by rewrite E1.
    + by rewrite (cmp_lt_trans _ _ _ E1 E2).
Qed.

(** [cmp(a.0, b.0).then_with(|| cmp(a.1, b.1))] *)
Definition then_with (c : comparison) (d : comparison) : comparison :=
  match c with Eq => d | _ => c end.

Definition pair_cmp `{Ord A, Ord B} (p q : A * B) : comparison :=
  then_with (cmp p.1 q.1) (cmp p.2 q.2).

#[export] Program Instance pair_ord `{Ord A, Ord B} : Ord (A * B) := {| cmp := pair_cmp |}.
Next Obligation.
  intros A ? B ? [a b] [a' b']. unfold pair_cmp; simpl.
  destruct (cmp a a') eqn:E; simpl.
  - apply cmp_eq in E as ->. rewrite cmp_eq. naive_solver.
  - apply cmp_lt_ne in E. naive_solver.
  - apply cmp_gt_lt, cmp_lt_ne in E. naive_solver.
Qed.
Next Obligation.
  intros A ? B ? [a b] [a' b']. unfold pair_cmp; simpl.
  rewrite (cmp_antisym a a'), (cmp_antisym b b'). by destruct (cmp a a').
Qed.
Next Obligation.
  intros A ? B ? [a b] [a' b'] [a'' b'']. unfold pair_cmp; simpl.
  destruct (cmp a a') eqn:E1; simpl; try done.
  - apply cmp_eq in E1 as ->. destruct (cmp a' a'') eqn:E2; simpl; try done.
    apply cmp_lt_trans.
  - intros _. destruct (cmp a' a'') eqn:E2; simpl; try done.
    + apply cmp_eq in E2 as <-. by rewrite E1.
    + by rewrite (cmp_lt_trans _ _ _ E1 E2).
Qed.

(** * The map *)

Section btree.
Context `{Ord K} {V : Type}.
Implicit Types (m : list (K * V)) (k : K) (v : V).

(** [m.get(&k)] *)
Fixpoint bt_get k m : option V :=
  match m with
  | [] => None
  | (k', v') :: m' =>
      match cmp k k' with Eq => Some v' | Lt => None | Gt => bt_get k m' end
  end.

(** [m.insert(k, v)] *)
Fixpoint bt_insert k v m : list (K * V) :=
  match m with
  | [] => [(k, v)]
  | (k', v') :: m' =>
      match cmp k k' with
      | Eq => (k, v) :: m'
      | Lt => (k, v) :: m
      | Gt => (k', v') :: bt_insert k v m'
      end
  end.

(** [m.remove(&k)] (the map that is left) *)
Fixpoint bt_remove k m : list (K * V) :=
  match m with
  | [] => []
  | (k', v') :: m' =>
      match cmp k k' with
      | Eq => m'
      | Lt => m
      | Gt => (k', v') :: bt_remove k m'
      end
  end.

Definition key_lt (p q : K * V) : Prop := cmp p.1 q.1 = Lt.
Definition bt_ok m : Prop := StronglySorted key_lt m.

Lemma bt_ok_cons k v m : bt_ok ((k, v) :: m) ↔ Forall (λ p, cmp k p.1 = Lt) m ∧ bt_ok m.
Proof. unfold bt_ok. split; [inversion 1; auto | intros []; by constructor]. Qed.

#[export] Instance bt_ok_dec m : Decision (bt_ok m).
Proof.
  induction m as [|[k v] m IH]; [left; constructor|].
  destruct (decide (Forall (λ p, cmp k p.1 = Lt) m)) as [Hf|Hf].
  - destruct IH as [Hm|Hm]; [left; by apply bt_ok_cons|right; by intros [_ ?]%bt_ok_cons].
  - right. by intros [? _]%bt_ok_cons.
Defined.

Lemma bt_get_below k m : Forall (λ p, cmp k p.1 = Lt) m → bt_get k m = None.
Proof. destruct 1 as [|[k' v'] m Hlt]; simpl in *; [done|]. by rewrite Hlt. Qed.

Lemma bt_get_cons k k' v' m : bt_ok ((k', v') :: m) →
  bt_get k ((k', v') :: m) = match cmp k k' with Eq => Some v' | _ => bt_get k m end.
Proof.
  intros Hm. simpl. destruct (cmp k k') eqn:E; try done.
  apply bt_ok_cons in Hm as [Hall _]. symmetry. apply bt_get_below.
  eapply Forall_impl; [exact Hall|]. intros p Hp. by apply (cmp_lt_trans _ k').
Qed.

Lemma bt_get_elem m : bt_ok m → ∀ k v, bt_get k m = Some v ↔ (k, v) ∈ m.
Proof.
  induction m as [|[k' v'] m IH]; intros Hm k v.
  - simpl. split; [done | set_solver].
  - rewrite bt_get_cons by done. apply bt_ok_cons in Hm as [Hall Hm].
    rewrite elem_of_cons, <-(IH Hm). destruct (cmp k k') eqn:E.
    + apply cmp_eq in E as ->. rewrite (bt_get_below k' m Hall). naive_solver.
    + apply cmp_lt_ne in E. naive_solver.
    + apply cmp_gt_lt, cmp_lt_ne in E. naive_solver.
Qed.

Lemma bt_insert_bound k0 k v m :
  cmp k0 k = Lt → Forall (λ p, cmp k0 p.1 = Lt) m →
  Forall (λ p, cmp k0 p.1 = Lt) (bt_insert k v m).
Proof.
  intros Hk. induction 1 as [|[k' v'] m Hk' Hm IH]; simpl; [by repeat constructor|].
  destruct (cmp k k'); repeat constructor; auto.
Qed.

Lemma bt_insert_ok k v m : bt_ok m → bt_ok (bt_insert k v m).
Proof.
  induction m as [|[k' v'] m IH]; intros Hm; simpl; [by repeat constructor|].
  pose proof Hm as [Hall Hok]%bt_ok_cons. destruct (cmp k k') eqn:E.
  - apply cmp_eq in E as ->. by apply bt_ok_cons.
  - apply bt_ok_cons. split; [|done]. constructor; [done|].
    eapply Forall_impl; [exact Hall|]. intros p. by apply cmp_lt_trans.
  - apply bt_ok_cons. split; [|auto]. apply bt_insert_bound; [by apply cmp_gt_lt | done].
Qed.

Lemma bt_get_insert m : bt_ok m → ∀ k k' v,
  bt_get k' (bt_insert k v m) = match cmp k' k with Eq => Some v | _ => bt_get k' m end.
Proof.
  induction m as [|[k0 v0] m IH]; intros Hm k k' v; simpl.
  - by destruct (cmp k' k).
  - pose proof Hm as [Hall Hok]%bt_ok_cons. destruct (cmp k k0) eqn:E; simpl.
    + apply cmp_eq in E as ->. by destruct (cmp k' k0) eqn:E'.
    + destruct (cmp k' k) eqn:E'; try done.
      by rewrite (cmp_lt_trans _ _ _ E' E).
    + rewrite IH by done. destruct (cmp k' k0) eqn:E'; try done.
      * apply cmp_eq in E' as ->. by rewrite (cmp_antisym k), E.
      * apply cmp_gt_lt in E. by rewrite (cmp_lt_trans _ _ _ E' E).
Qed.

Lemma bt_get_insert_eq m k v : bt_ok m → bt_get k (bt_insert k v m) = Some v.
Proof. intros Hm. by rewrite bt_get_insert, cmp_refl. Qed.

Lemma bt_get_insert_ne m k k' v :
  bt_ok m → k ≠ k' → bt_get k' (bt_insert k v m) = bt_get k' m.
Proof.
  intros Hm Hne. rewrite bt_get_insert by done. destruct (cmp k' k) eqn:E; try done.
  apply cmp_eq in E. congruence.
Qed.

Lemma bt_remove_ok k m : bt_ok m → bt_ok (bt_remove k m).
Proof.
  induction m as [|[k' v'] m IH]; intros Hm; simpl; [done|].
  pose proof Hm as [Hall Hok]%bt_ok_cons. destruct (cmp k k') eqn:E; try done.
  apply bt_ok_cons. split; [|auto]. clear -Hall.
  induction Hall as [|[k0 v0] m H0 Hm IH]; simpl; [constructor|].
  destruct (cmp k k0); try done; by constructor.
Qed.

Lemma bt_get_remove m : bt_ok m → ∀ k k',
  bt_get k' (bt_remove k m) = match cmp k' k with Eq => None | _ => bt_get k' m end.
Proof.
  induction m as [|[k0 v0] m IH]; intros Hm k k'; simpl.
  - by destruct (cmp k' k).
  - pose proof Hm as [Hall Hok]%bt_ok_cons. destruct (cmp k k0) eqn:E; simpl.
    + apply cmp_eq in E as ->. destruct (cmp k' k0) eqn:E'; try done.
      * apply cmp_eq in E' as ->. by apply bt_get_below.
      * apply bt_get_below. eapply Forall_impl; [exact Hall|].
        intros p Hp. by apply (cmp_lt_trans _ k0).
    + destruct (cmp k' k) eqn:E'; try done.
      apply cmp_eq in E' as ->. by rewrite E.
    + rewrite IH by done. destruct (cmp k' k0) eqn:E'; try done.
      * apply cmp_eq in E' as ->. by rewrite (cmp_antisym k), E.
      * apply cmp_gt_lt in E. by rewrite (cmp_lt_trans _ _ _ E' E).
Qed.

(** Two maps with the same lookups are the same list. *)
Lemma bt_ext m1 m2 :
  bt_ok m1 → bt_ok m2 → (∀ k, bt_get k m1 = bt_get k m2) → m1 = m2.
Proof.
  revert m2. induction m1 as [|[k1 v1] m1 IH]; intros [|[k2 v2] m2] H1 H2 Heq.
  - done.
  - specialize (Heq k2). simpl in Heq. by rewrite cmp_refl in Heq.
  - specialize (Heq k1). simpl in Heq. by rewrite cmp_refl in Heq.
  - assert (Hk : cmp k1 k2 = Eq).
    { pose proof (Heq k1) as E1. pose proof (Heq k2) as E2. simpl in E1, E2.
      rewrite !cmp_refl in *. rewrite (cmp_antisym k1 k2) in E2.
      destruct (cmp k1 k2) eqn:E; simpl in *; try done. }
    apply cmp_eq in Hk as ->.
    pose proof (Heq k2) as E. simpl in E. rewrite !cmp_refl in E. injection E as ->.
    f_equal. apply bt_ok_cons in H1 as [Ha1 Hm1], H2 as [Ha2 Hm2].
    apply IH; try done. intros k. specialize (Heq k). simpl in Heq.
    destruct (cmp k k2) eqn:Ek; try done.
    + apply cmp_eq in Ek as ->. by rewrite !bt_get_below.
    + rewrite !bt_get_below; try done;
        (eapply Forall_impl; [eassumption|]; intros p; by apply cmp_lt_trans).
Qed.

Lemma bt_insert_last k v m :
  Forall (λ p, cmp p.1 k = Lt) m → bt_insert k v m = m ++ [(k, v)].
Proof.
  induction 1 as [|[k' v'] m Hlt Hm IH]; [done|]. cbn [bt_insert app fst] in *.
  rewrite (cmp_antisym k' k), Hlt. cbn. by rewrite IH.
Qed.

(** Inserting ascending entries one by one rebuilds the map. *)
Lemma bt_fold_insert m2 : ∀ m1,
  bt_ok (m1 ++ m2) → foldl (λ acc p, bt_insert p.1 p.2 acc) m1 m2 = m1 ++ m2.
Proof.
  induction m2 as [|[k v] m2 IH]; intros m1 Hok; cbn [foldl]; [by rewrite app_nil_r|].
  cbn [fst snd]. rewrite bt_insert_last.
  - rewrite IH; rewrite <-app_assoc; done.
  - clear IH. induction m1 as [|[k1 v1] m1 IH1]; [constructor|].
    apply bt_ok_cons in Hok as [Hall Hok]. constructor; [|by apply IH1].
    rewrite Forall_forall in Hall. apply (Hall (k, v)). set_solver.
Qed.

Lemma bt_keys_NoDup m : bt_ok m → NoDup (map fst m).
Proof.
  induction m as [|[k v] m IH]; intros Hm; [constructor|]. apply bt_ok_cons in Hm as [Hall Hm].
  constructor; [|by apply IH]. cbn [fst]. intros Hk.
  apply (list_elem_of_fmap fst) in Hk as ([k' v'] & E & Hin). cbn in E. subst k'.
  rewrite Forall_forall in Hall. specialize (Hall _ Hin). cbn in Hall. by rewrite cmp_refl in Hall.
Qed.

Lemma bt_fold_insert_get l : ∀ acc,
  bt_ok acc → NoDup (map fst l) →
  let r := foldl (λ acc p, bt_insert p.1 p.2 acc) acc l in
  bt_ok r ∧ ∀ k v, bt_get k r = Some v ↔ (k, v) ∈ l ∨ (k ∉ map fst l ∧ bt_get k acc = Some v).
Proof.
  induction l as [|[k1 v1] l IH]; intros acc Hacc Hnd; cbn [foldl map fst snd].
  { split; [done|]. intros k v. set_solver. }
  apply NoDup_cons in Hnd as [Hk1 Hnd]. destruct (IH (bt_insert k1 v1 acc)) as [Hr Hg]; [by apply bt_insert_ok|done|].
  split; [done|]. intros k v. rewrite Hg. split.
  - intros [Hin|[Hni Hget]]; [left; by right|]. destruct (ord_eq_dec k k1) as [->|Hne].
    + rewrite bt_get_insert_eq in Hget by done. injection Hget as ->. left. by left.
    + rewrite bt_get_insert_ne in Hget by done. right. split; [|done]. by rewrite not_elem_of_cons.
  - intros [[[= -> ->]|Hin]%elem_of_cons|[Hni Hget]].
    + right. split; [done|]. by apply bt_get_insert_eq.
    + by left.
    + apply not_elem_of_cons in Hni as [Hne Hni]. right. split; [done|].
      by rewrite bt_get_insert_ne.
Qed.

(** Inserting the entries of a map in any order rebuilds it. *)
Lemma bt_fold_insert_perm l m :
  bt_ok m → l ≡ₚ m → foldl (λ acc p, bt_insert p.1 p.2 acc) [] l = m.
Proof.
  intros Hm Hp. assert (Hnd : NoDup (map fst l)).
  { change (NoDup (fst <$> l)). rewrite Hp. by apply bt_keys_NoDup. }
  destruct (bt_fold_insert_get l []) as [Hr Hg]; [constructor|done|].
  apply bt_ext; [done|done|]. intros k. apply option_eq. intros v.
  rewrite Hg, Hp, <-(bt_get_elem m Hm). cbn. naive_solver.
Qed.

Lemma bt_insert_Forall (P : K * V → Prop) k v m :
  P (k, v) → Forall P m → Forall P (bt_insert k v m).
Proof.
  intros Hk. induction 1 as [|[k' v'] m ?? IH]; simpl; [by repeat constructor|].
  destruct (cmp k k'); repeat constructor; auto.
Qed.

(** ** Part of a map, and its size *)

Lemma bt_filter_ok (P : K * V → Prop) `{!∀ p, Decision (P p)} m : bt_ok m → bt_ok (filter P m).
Proof.
  induction 1 as [|p m Hm IH Hp]; [constructor|]. rewrite filter_cons. case_decide; [|done].
  constructor; [done|]. rewrite Forall_forall in Hp |- *. intros q [_ Hq]%list_elem_of_filter. by apply Hp.
Qed.

Lemma bt_get_filter (P : K → Prop) `{!∀ k, Decision (P k)} m k :
  bt_ok m → bt_get k (filter (λ p, P p.1) m) = if decide (P k) then bt_get k m else None.
Proof.
  intros Hm. apply option_eq. intros v. rewrite bt_get_elem by (by apply bt_filter_ok).
  rewrite list_elem_of_filter. cbn. case_decide; [rewrite bt_get_elem by done|]; naive_solver.
Qed.

Lemma bt_filter_insert (P : K → Prop) `{!∀ k, Decision (P k)} m k v :
  bt_ok m → filter (λ p, P p.1) (bt_insert k v m)
  = if decide (P k) then bt_insert k v (filter (λ p, P p.1) m) else filter (λ p, P p.1) m.
Proof.
  intros Hm. assert (Hf : bt_ok (filter (λ p, P p.1) m)) by (by apply bt_filter_ok).
  apply bt_ext; [apply bt_filter_ok; by apply bt_insert_ok|case_decide; [by apply bt_insert_ok|done]|].
  intros k'. rewrite bt_get_filter by (by apply bt_insert_ok). destruct (ord_eq_dec k k') as [<-|Hne].
  - rewrite bt_get_insert_eq by done. case_decide; [by rewrite bt_get_insert_eq|].
    rewrite bt_get_filter by done. by rewrite decide_False.
  - rewrite bt_get_insert_ne by done.
    case_decide; case_decide; rewrite ?bt_get_insert_ne, bt_get_filter by done; by case_decide.
Qed.

Lemma bt_filter_remove (P : K → Prop) `{!∀ k, Decision (P k)} m k :
  bt_ok m → filter (λ p, P p.1) (bt_remove k m)
  = if decide (P k) then bt_remove k (filter (λ p, P p.1) m) else filter (λ p, P p.1) m.
Proof.
  intros Hm. assert (Hf : bt_ok (filter (λ p, P p.1) m)) by (by apply bt_filter_ok).
  apply bt_ext; [apply bt_filter_ok; by apply bt_remove_ok|case_decide; [by apply bt_remove_ok|done]|].
  intros k'. rewrite bt_get_filter, bt_get_remove by (done || by apply bt_remove_ok).
  destruct (decide (P k)); [rewrite bt_get_remove by done|]; rewrite bt_get_filter by done;
    destruct (cmp k' k) eqn:E; try (by case_decide); apply cmp_eq in E as ->; by case_decide.
Qed.

Lemma bt_insert_perm m k v : bt_ok m → bt_get k m = None → bt_insert k v m ≡ₚ (k, v) :: m.
Proof.
  induction m as [|[k' v'] m IH]; intros Hm Hk; [done|]. rewrite bt_get_cons in Hk by done.
  apply bt_ok_cons in Hm as [Hall Hm]. cbn in *. destruct (cmp k k') eqn:E; [done|done|].
  rewrite IH by (done || naive_solver). constructor.
Qed.

Lemma length_bt_insert m k v : bt_ok m →
  length (bt_insert k v m) = if bt_get k m then length m else S (length m).
Proof.
  intros Hm. destruct (bt_get k m) as [v0|] eqn:E; [|by rewrite (bt_insert_perm m k v Hm E)].
  clear Hm. induction m as [|[k' v'] m IH]; [done|]. cbn in *. destruct (cmp k k'); cbn; [done|done|].
  by rewrite IH.
Qed.

Lemma length_bt_remove m k v : bt_get k m = Some v → length m = S (length (bt_remove k m)).
Proof.
  induction m as [|[k' v'] m IH]; [done|]. cbn. destruct (cmp k k'); cbn; [done|done|].
  intros E. by rewrite <-IH.
Qed.

Lemma bt_remove_none m k : bt_ok m → bt_get k m = None → bt_remove k m = m.
Proof.
  intros Hm Hk. apply bt_ext; [by apply bt_remove_ok|done|]. intros k'. rewrite bt_get_remove by done.
  destruct (cmp k' k) eqn:E; [|done..]. apply cmp_eq in E. by subst.
Qed.

Lemma bt_remove_Forall (P : K * V → Prop) k m : Forall P m → Forall P (bt_remove k m).
Proof. induction 1 as [|[k' v'] m ?? IH]; simpl; [done|]. destruct (cmp k k'); auto. Qed.
End btree.

(** Filling a map with what a function makes of another's entries. *)
Lemma bt_get_fill `{Ord K} {V W} (g : K * V → option W) m : ∀ (acc : list (K * W)),
  bt_ok m → bt_ok acc →
  let filled := foldl (λ acc kv, match g kv with Some w => bt_insert kv.1 w acc | None => acc end) acc m in
  bt_ok filled ∧ ∀ k, bt_get k filled = match (v ← bt_get k m; g (k, v)) with Some w => Some w | None => bt_get k acc end.
Proof.
  induction m as [|[k v] m IH]; intros acc Hm Hacc; [done|]. pose proof Hm as [Hall Hm']%bt_ok_cons. cbn [foldl fst].
  destruct (IH match g (k, v) with Some w => bt_insert k w acc | None => acc end Hm') as [Hok Hget].
  { destruct (g (k, v)); [by apply bt_insert_ok|done]. }
  split; [done|]. intros k'. rewrite Hget, bt_get_cons by done. destruct (cmp k' k) eqn:E.
  - apply cmp_eq in E as ->. rewrite bt_get_below by done. cbn [mbind option_bind].
    destruct (g (k, v)); [by rewrite bt_get_insert_eq|done].
  - assert (Hne : k' ≠ k) by (intros ->; by rewrite cmp_refl in E).
    destruct (g (k, v)); [by rewrite bt_get_insert_ne|done].
  - assert (Hne : k' ≠ k) by (intros ->; by rewrite cmp_refl in E).
    destruct (g (k, v)); [by rewrite bt_get_insert_ne|done].
Qed.

#[export] Hint Resolve bt_insert_ok bt_remove_ok bt_get_insert_eq bt_get_insert_ne : entity.

(** * Stable sorting: Rust's [slice::sort_by]

    [sort_by] is a stable sort; every stable sort for a total preorder has the
    same result, so insertion sort stands for it. *)

Section sort_by.
Context {A : Type} (c : A → A → comparison).

Fixpoint insert_by (x : A) (l : list A) : list A :=
  match l with
  | [] => [x]
  | y :: l' => match c x y with Gt => y :: insert_by x l' | _ => x :: l end
  end.

Fixpoint sort_by (l : list A) : list A :=
  match l with [] => [] | x :: l' => insert_by x (sort_by l') end.

Lemma insert_by_Permutation x l : insert_by x l ≡ₚ x :: l.
Proof.
  induction l as [|y l IH]; simpl; [done|].
  destruct (c x y); try done. rewrite IH. constructor.
Qed.

Lemma sort_by_Permutation l : sort_by l ≡ₚ l.
Proof. induction l as [|x l IH]; simpl; [done|]. by rewrite insert_by_Permutation, IH. Qed.

Lemma length_sort_by l : length (sort_by l) = length l.
Proof. by rewrite sort_by_Permutation. Qed.

(** [c] is a total preorder. *)
Hypothesis c_flip : ∀ x y, c x y = Gt → c y x ≠ Gt.
Hypothesis c_trans : ∀ x y z, c x y ≠ Gt → c y z ≠ Gt → c x z ≠ Gt.

Lemma insert_by_sorted x l :
  StronglySorted (λ a b, c a b ≠ Gt) l → StronglySorted (λ a b, c a b ≠ Gt) (insert_by x l).
Proof.
  induction 1 as [|y l Hl IH Hy]; simpl; [by repeat constructor|].
  destruct (c x y) eqn:E.
  - constructor; [by constructor|]. constructor; [congruence|].
    eapply Forall_impl; [exact Hy|]. intros z. apply c_trans. congruence.
  - constructor; [by constructor|]. constructor; [congruence|].
    eapply Forall_impl; [exact Hy|]. intros z. apply c_trans. congruence.
  - constructor; [done|]. rewrite insert_by_Permutation. constructor; [by apply c_flip | done].
Qed.

Lemma sort_by_sorted l : StronglySorted (λ a b, c a b ≠ Gt) (sort_by l).
Proof. induction l; simpl; [constructor | by apply insert_by_sorted]. Qed.

(** When equal keys only occur on equal elements the result depends on the
    multiset of the input alone. *)
Lemma sort_by_ext l l' :
  (∀ x y, x ∈ l → y ∈ l → c x y ≠ Gt → c y x ≠ Gt → x = y) →
  l ≡ₚ l' → sort_by l = sort_by l'.
Proof.
  intros Hanti Hp. apply (StronglySorted_unique_strong (λ a b, c a b ≠ Gt)).
  - intros x y Hx Hy. apply Hanti.
    + by rewrite <-(sort_by_Permutation l).
    + by rewrite Hp, <-(sort_by_Permutation l').
  - apply sort_by_sorted.
  - apply sort_by_sorted.
  - by rewrite !sort_by_Permutation.
Qed.

Lemma sort_by_id l : StronglySorted (λ a b, c a b ≠ Gt) l → sort_by l = l.
Proof.
  induction 1 as [|y l Hl IH Hy]; simpl; [done|]. rewrite IH.
  destruct l as [|z l]; simpl; [done|]. apply Forall_cons in Hy as [Hz _].
  by destruct (c y z).
Qed.
End sort_by.

(** Sorted by a total order, two lists agree exactly when they hold the same elements. *)
Lemma sort_by_cmp_perm `{Ord K} (l l' : list K) : sort_by cmp l = sort_by cmp l' ↔ l ≡ₚ l'.
Proof.
  split; intros Hl.
  - by rewrite <-(sort_by_Permutation cmp l), Hl, sort_by_Permutation.
  - apply sort_by_ext; [intros x y; apply cmp_flip|intros x y z; apply cmp_le_trans| |done].
    intros x y _ _. apply cmp_le_antisym.
Qed.

(** Sorting commutes with a map that respects the keys. *)
Lemma sort_by_map {A B} (f : A → B) c d l :
  (∀ x y, c (f x) (f y) = d x y) → sort_by c (map f l) = map f (sort_by d l).
Proof.
  intros Hcd. induction l as [|x l IH]; simpl; [done|]. rewrite IH. clear IH.
  induction (sort_by d l) as [|y l' IH]; simpl; [done|]. rewrite Hcd.
  destruct (d x y); simpl; try done. by rewrite IH.
Qed.

(** [a.len().cmp(&b.len()).then_with(|| a.cmp(b))]: the order of ECF map keys. *)
Definition shortlex (a b : list Z) : comparison :=
  then_with (Nat.compare (length a) (length b)) (cmp a b).

Lemma shortlex_eq a b : shortlex a b = Eq ↔ a = b.
Proof.
  unfold shortlex. destruct (Nat.compare_spec (length a) (length b)) as [E|E|E]; cbn [then_with].
  - apply (cmp_eq a b).
  - split; [done|]. intros ->. lia.
  - split; [done|]. intros ->. lia.
Qed.

Lemma shortlex_antisym a b : shortlex b a = CompOpp (shortlex a b).
Proof.
  unfold shortlex. rewrite Nat.compare_antisym, (cmp_antisym a b).
  by destruct (Nat.compare _ _).
Qed.

Lemma shortlex_lt_trans a b c : shortlex a b = Lt → shortlex b c = Lt → shortlex a c = Lt.
Proof.
  unfold shortlex.
  destruct (Nat.compare_spec (length a) (length b)), (Nat.compare_spec (length b) (length c)),
    (Nat.compare_spec (length a) (length c)); cbn [then_with]; try done; try lia.
  apply (cmp_lt_trans a b c).
Qed.

Lemma shortlex_flip a b : shortlex a b = Gt → shortlex b a ≠ Gt.
Proof. rewrite (shortlex_antisym a b). by intros ->. Qed.

Lemma shortlex_le_trans a b c : shortlex a b ≠ Gt → shortlex b c ≠ Gt → shortlex a c ≠ Gt.
Proof.
  destruct (shortlex a b) eqn:E1; [| |done]; intros _.
  - by apply shortlex_eq in E1 as ->.
  - destruct (shortlex b c) eqn:E2; [| |done]; intros _.
    + apply shortlex_eq in E2 as <-. congruence.
    + by rewrite (shortlex_lt_trans _ _ _ E1 E2).
Qed.

Lemma shortlex_le_antisym a b : shortlex a b ≠ Gt → shortlex b a ≠ Gt → a = b.
Proof.
  rewrite (shortlex_antisym a b). destruct (shortlex a b) eqn:E; simpl; try done.
  intros _ _. by apply shortlex_eq.
Qed.
