(* ===== verification/Ecf.v ===== *)
(** Entity Canonical Form: deterministic CBOR encoding
    ([core/ecf/src/encoder.rs], [core/ecf/src/value.rs]).

    [Value] is [ciborium::Value]; a float is its 64-bit pattern ([f64::to_bits]),
    an integer the mathematical integer [ciborium::value::Integer] holds.  The
    [encode_*] functions return the bytes the code appends to [output]. *)
From S2P Require Import Prelude BTree.

(** * Values *)

Unset Elimination Schemes.
Inductive Value : Type :=
  | VInteger (i : Z)
  | VBytes (b : list Z)
  | VFloat (f : Z)
  | VText (s : list Z)
  | VBool (b : bool)
  | VNull
  | VTag (t : Z) (v : Value)
  | VArray (arr : list Value)
  | VMap (map : list (Value * Value)).
Set Elimination Schemes.

(** Induction through the nested lists. *)
Definition Value_ind (P : Value → Prop)
    (HInt : ∀ i, P (VInteger i)) (HBytes : ∀ b, P (VBytes b))
    (HFloat : ∀ f, P (VFloat f)) (HText : ∀ s, P (VText s))
    (HBool : ∀ b, P (VBool b)) (HNull : P VNull)
    (HTag : ∀ t v, P v → P (VTag t v))
    (HArr : ∀ l, Forall P l → P (VArray l))
    (HMap : ∀ m, Forall (λ kv, P kv.1 ∧ P kv.2) m → P (VMap m)) : ∀ v, P v :=
  fix F v := match v with
    | VInteger i => HInt i
    | VBytes b => HBytes b
    | VFloat f => HFloat f
    | VText s => HText s
    | VBool b => HBool b
    | VNull => HNull
    | VTag t v => HTag t v (F v)
    | VArray l => HArr l ((fix G l : Forall P l :=
        match l with
        | [] => Forall_nil_2 P
        | x :: l' => Forall_cons_2 P x l' (F x) (G l')
        end) l)
    | VMap m => HMap m ((fix G m : Forall (λ kv : Value * Value, P kv.1 ∧ P kv.2) m :=
        match m with
        | [] => Forall_nil_2 _
        | kv :: m' => Forall_cons_2 _ kv m' (conj (F kv.1) (F kv.2)) (G m')
        end) m)
    end.

(** ** Accessors ([trait ValueExt] and ciborium's own [as_*]) *)

Definition as_str (v : Value) : option (list Z) :=
  match v with VText s => Some s | _ => None end.
Definition as_u64_val (v : Value) : option Z :=
  match v with VInteger i => try_u64 i | _ => None end.
Definition as_i64_val (v : Value) : option Z :=
  match v with VInteger i => try_i64 i | _ => None end.
Definition as_bool_val (v : Value) : option bool :=
  match v with VBool b => Some b | _ => None end.
Definition as_array (v : Value) : option (list Value) :=
  match v with VArray arr => Some arr | _ => None end.
Definition as_bytes (v : Value) : option (list Z) :=
  match v with VBytes b => Some b | _ => None end.
Definition is_null (v : Value) : bool :=
  match v with VNull => true | _ => false end.
Definition as_map (v : Value) : option (list (Value * Value)) :=
  match v with VMap m => Some m | _ => None end.
Definition as_integer (v : Value) : option Z :=
  match v with VInteger i => Some i | _ => None end.

Fixpoint get_entry (m : list (Value * Value)) (key : list Z) : option Value :=
  match m with
  | [] => None
  | (k, v) :: m' =>
      match k with
      | VText s => if decide (s = key) then Some v else get_entry m' key
      | _ => get_entry m' key
      end
  end.

(** [ValueExt::get] *)
Definition value_get (v : Value) (key : list Z) : option Value :=
  match v with VMap m => get_entry m key | _ => None end.

(** ** Constructors *)

Definition text (s : list Z) : Value := VText s.
Definition integer (n : Z) : Value := VInteger n.
Definition uinteger (n : Z) : Value := VInteger n.
Definition bool_val (b : bool) : Value := VBool b.
Definition array (items : list Value) : Value := VArray items.
Definition bytes (b : list Z) : Value := VBytes b.
Definition null : Value := VNull.
Definition default_map : Value := VMap [].
Definition map_from_iter (l : list (list Z * Value)) : Value :=
  VMap (map (λ kv, (VText kv.1, kv.2)) l).

Definition is_text_key (key : list Z) (k : Value) : bool :=
  match k with VText s => bool_decide (s = key) | _ => false end.

(** [m.retain(|(k, _)| k != &key_val); m.push((key_val, value))] *)
Definition map_insert (v : Value) (key : list Z) (value : Value) : Value :=
  match v with
  | VMap m =>
      VMap (filter (λ kv, is_text_key key kv.1 = false) m ++ [(VText key, value)])
  | _ => v
  end.

(** * Heads *)

Definition MAJOR_UNSIGNED : Z := Z.shiftl 0 5.
Definition MAJOR_NEGATIVE : Z := Z.shiftl 1 5.
Definition MAJOR_BYTES : Z := Z.shiftl 2 5.
Definition MAJOR_TEXT : Z := Z.shiftl 3 5.
Definition MAJOR_ARRAY : Z := Z.shiftl 4 5.
Definition MAJOR_MAP : Z := Z.shiftl 5 5.
Definition MAJOR_SIMPLE : Z := Z.shiftl 7 5.
Definition SIMPLE_FALSE : Z := Z.lor MAJOR_SIMPLE 20.
Definition SIMPLE_TRUE : Z := Z.lor MAJOR_SIMPLE 21.
Definition SIMPLE_NULL : Z := Z.lor MAJOR_SIMPLE 22.
Definition FLOAT_HALF : Z := Z.lor MAJOR_SIMPLE 25.
Definition FLOAT_SINGLE : Z := Z.lor MAJOR_SIMPLE 26.
Definition FLOAT_DOUBLE : Z := Z.lor MAJOR_SIMPLE 27.

Definition encode_head (major value : Z) : list Z :=
  if value <? 24 then [Z.lor major (as_u8 value)]
  else if value <=? 0xFF then [Z.lor major 24; as_u8 value]
  else if value <=? 0xFFFF then Z.lor major 25 :: be_bytes 2 (as_u16 value)
  else if value <=? 0xFFFFFFFF then Z.lor major 26 :: be_bytes 4 (as_u32 value)
  else Z.lor major 27 :: be_bytes 8 value.

Definition encode_integer (i : Z) : list Z :=
  match try_u64 i with
  | Some u => encode_head MAJOR_UNSIGNED u
  | None =>
      match try_i64 i with
      | Some n =>
          if 0 <=? n then encode_head MAJOR_UNSIGNED (as_u64 n)
          else encode_head MAJOR_NEGATIVE (as_u64 (-1 - n))
      | None =>
          if 0 <=? i then encode_head MAJOR_UNSIGNED (as_u64 i)
          else encode_head MAJOR_NEGATIVE (as_u64 (-1 - i))
      end
  end.

Definition encode_cbor_text (s : list Z) : list Z :=
  encode_head MAJOR_TEXT (Z.of_nat (length s)) ++ s.
Definition encode_cbor_bstr (b : list Z) : list Z :=
  encode_head MAJOR_BYTES (Z.of_nat (length b)) ++ b.
Definition encode_cbor_uint (value : Z) : list Z := encode_head MAJOR_UNSIGNED value.

(** * Floats

    [f64], [f32] and half-precision values are bit patterns.  [f64_to_f32] and
    [f32_to_f64] are Rust's [as] conversions (round to nearest, ties to even;
    widening is exact). *)

Definition f64_sign (f : Z) : Z := Z.land (Z.shiftr f 63) 1.
Definition f64_exp (f : Z) : Z := Z.land (Z.shiftr f 52) 0x7FF.
Definition f64_frac (f : Z) : Z := Z.land f 0xFFFFFFFFFFFFF.
Definition f64_make (sign exp frac : Z) : Z :=
  Z.lor (Z.lor (Z.shiftl sign 63) (Z.shiftl exp 52)) frac.

Definition is_nan (f : Z) : bool := (f64_exp f =? 0x7FF) && negb (f64_frac f =? 0).
Definition is_infinite (f : Z) : bool := (f64_exp f =? 0x7FF) && (f64_frac f =? 0).
Definition is_zero_f64 (f : Z) : bool := (f64_exp f =? 0) && (f64_frac f =? 0).

(** [a == b] on [f64] *)
Definition f64_eqb (a b : Z) : bool :=
  negb (is_nan a) && negb (is_nan b)
  && ((a =? b) || (is_zero_f64 a && is_zero_f64 b)).

Definition f64_NAN : Z := 0x7FF8000000000000.

(** [m / 2^s] rounded to nearest, ties to even. *)
Definition round_even (m s : Z) : Z :=
  if s =? 0 then m
  else
    let q := Z.shiftr m s in
    let r := Z.land m (Z.ones s) in
    let half := Z.shiftl 1 (s - 1) in
    if (half <? r) || ((r =? half) && Z.odd q) then q + 1 else q.

(** [f as f32] *)
Definition f64_to_f32 (f : Z) : Z :=
  let sign := f64_sign f in
  let exp := f64_exp f in
  let frac := f64_frac f in
  if exp =? 0x7FF then
    if frac =? 0 then Z.lor (Z.shiftl sign 31) 0x7F800000
    else Z.lor (Z.shiftl sign 31) 0x7FC00000
  else
    let e := exp - 1023 + 127 in
    if 1 <=? e then
      let m := round_even (Z.shiftl e 52 + frac) 29 in
      Z.lor (Z.shiftl sign 31) (Z.min m 0x7F800000)
    else if exp =? 0 then Z.shiftl sign 31
    else
      let m := round_even (Z.lor frac 0x10000000000000) (30 - e) in
      Z.lor (Z.shiftl sign 31) m.

(** [g as f64] for an [f32] [g] *)
Definition f32_to_f64 (g : Z) : Z :=
  let sign := Z.land (Z.shiftr g 31) 1 in
  let exp := Z.land (Z.shiftr g 23) 0xFF in
  let frac := Z.land g 0x7FFFFF in
  if exp =? 0 then
    if frac =? 0 then Z.shiftl sign 63
    else
      let k := Z.log2 frac in
      f64_make sign (k - 149 + 1023) (Z.shiftl (frac - Z.shiftl 1 k) (52 - k))
  else if exp =? 0xFF then
    if frac =? 0 then f64_make sign 0x7FF 0 else Z.lor (Z.shiftl sign 63) f64_NAN
  else f64_make sign (exp - 127 + 1023) (Z.shiftl frac 29).

Definition f64_to_f16 (f : Z) : Z :=
  let sign := f64_sign f in
  let exp := f64_exp f in
  let frac := f64_frac f in
  if exp =? 0x7FF then
    if frac =? 0 then Z.lor (Z.shiftl sign 15) 0x7C00
    else Z.lor (Z.shiftl sign 15) 0x7E00
  else
    let new_exp := exp - 1023 + 15 in
    if 31 <=? new_exp then Z.lor (Z.shiftl sign 15) 0x7C00
    else if new_exp <=? 0 then
      if new_exp <? -10 then Z.shiftl sign 15
      else
        let subnormal_frac :=
          as_u16 (Z.shiftr (Z.lor frac 0x10000000000000) (1 - new_exp + 42)) in
        Z.lor (Z.shiftl sign 15) subnormal_frac
    else
      let half_frac := as_u16 (Z.shiftr frac 42) in
      Z.lor (Z.lor (Z.shiftl sign 15) (Z.shiftl new_exp 10)) half_frac.

(** [(frac as f64) * 2.0_f64.powi(-24)]: the product is exact. *)
Definition half_subnormal (frac : Z) : Z :=
  let k := Z.log2 frac in
  f64_make 0 (k - 24 + 1023) (Z.shiftl (frac - Z.shiftl 1 k) (52 - k)).

Definition f16_to_f64 (bits : Z) : Z :=
  let sign := Z.land (Z.shiftr bits 15) 1 in
  let exp := Z.land (Z.shiftr bits 10) 0x1F in
  let frac := Z.land bits 0x3FF in
  if exp =? 0 then
    if frac =? 0 then (if sign =? 1 then Z.shiftl 1 63 else 0)
    else
      let value := half_subnormal frac in
      if sign =? 1 then Z.lxor value (Z.shiftl 1 63) else value
  else if exp =? 31 then
    if frac =? 0 then (if sign =? 1 then f64_make 1 0x7FF 0 else f64_make 0 0x7FF 0)
    else f64_NAN
  else f64_make sign (exp - 15 + 1023) (Z.shiftl frac 42).

Definition try_encode_half (f : Z) : option Z :=
  if is_zero_f64 f then Some (if f64_sign f =? 1 then 0x8000 else 0x0000)
  else if is_nan f then Some 0x7E00
  else if is_infinite f then Some (if f64_sign f =? 1 then 0xFC00 else 0x7C00)
  else
    let half := f64_to_f16 f in
    let recovered := f16_to_f64 half in
    if f64_eqb recovered f then Some half else None.

Definition encode_float (f : Z) : list Z :=
  match try_encode_half f with
  | Some half_bits => FLOAT_HALF :: be_bytes 2 half_bits
  | None =>
      let single := f64_to_f32 f in
      if f64_eqb (f32_to_f64 single) f then FLOAT_SINGLE :: be_bytes 4 single
      else FLOAT_DOUBLE :: be_bytes 8 f
  end.

(** * Values *)

Definition key_order {B} (a b : list Z * B) : comparison := shortlex a.1 b.1.

Fixpoint encode_value (value : Value) : list Z :=
  match value with
  | VNull => [SIMPLE_NULL]
  | VBool b => [if b then SIMPLE_TRUE else SIMPLE_FALSE]
  | VInteger i => encode_integer i
  | VFloat f => encode_float f
  | VBytes b => encode_cbor_bstr b
  | VText s => encode_cbor_text s
  | VArray arr =>
      encode_head MAJOR_ARRAY (Z.of_nat (length arr)) ++ concat (map encode_value arr)
  | VMap m =>
      let entries := map (λ kv, (encode_value kv.1, encode_value kv.2)) m in
      encode_head MAJOR_MAP (Z.of_nat (length m))
      ++ concat (map (λ e, e.1 ++ e.2) (sort_by key_order entries))
  | VTag _ inner => encode_value inner
  end.

Definition encode_array (arr : list Value) : list Z := encode_value (VArray arr).
Definition encode_map (m : list (Value * Value)) : list Z := encode_value (VMap m).

Definition to_ecf (value : Value) : list Z := encode_value value.

Definition ecf_for_hash (entity_type data : list Z) : list Z :=
  [Z.lor MAJOR_MAP 2]
  ++ encode_cbor_text (lit "data") ++ data
  ++ encode_cbor_text (lit "type") ++ encode_cbor_text entity_type.

Definition ecf_for_hash_value (entity_type : list Z) (data : Value) : list Z :=
  ecf_for_hash entity_type (to_ecf data).

(** The unit tests of encoder.rs. *)
Example test_single_uint :
  to_ecf (VMap [(VText (lit "value"), VInteger 42)])
  = [0xA1; 0x65; 0x76; 0x61; 0x6C; 0x75; 0x65; 0x18; 0x2A].
Proof. reflexivity. Qed.
Example test_key_ordering_by_length :
  to_ecf (VMap [(VText (lit "z"), VInteger 1); (VText (lit "a"), VInteger 2);
                (VText (lit "bb"), VInteger 3); (VText (lit "aaa"), VInteger 4)])
  = [0xA4; 0x61; 0x61; 2; 0x61; 0x7A; 1; 0x62; 0x62; 0x62; 3; 0x63; 0x61; 0x61; 0x61; 4].
Proof. vm_compute. reflexivity. Qed.
Example test_float_half_precision :
  map encode_float [0x3FF0000000000000; 0x3FF8000000000000; 0]
  = [[0xF9; 0x3C; 0]; [0xF9; 0x3E; 0]; [0xF9; 0; 0]].
Proof. vm_compute. reflexivity. Qed.
Example test_negative_integers :
  map encode_integer [-1; -10; -100] = [[0x20]; [0x29]; [0x38; 0x63]].
Proof. vm_compute. reflexivity. Qed.

(** * Lemmas *)

(** [hi | lo] where [hi] only has bits above [lo]'s. *)
Lemma land_shift_low a b n : 0 ≤ n → 0 ≤ b < 2 ^ n → Z.land (a * 2 ^ n) b = 0.
Proof.
  intros Hn Hb. apply Z.bits_inj'. intros i Hi. rewrite Z.land_spec, Z.bits_0.
  destruct (decide (i < n)) as [Hlt|Hge].
  - by rewrite Z.mul_pow2_bits_low by lia.
  - destruct (decide (b = 0)) as [->|Hb0]; [by rewrite Z.bits_0, andb_false_r|].
    rewrite (Z.bits_above_log2 b i), andb_false_r; [done | lia |].
    apply Z.log2_lt_pow2; [lia|]. apply (Z.lt_le_trans _ (2 ^ n)); [lia|].
    apply Z.pow_le_mono_r; lia.
Qed.

Lemma lor_shift_add a b n : 0 ≤ n → 0 ≤ b < 2 ^ n → Z.lor (a * 2 ^ n) b = a * 2 ^ n + b.
Proof.
  intros Hn Hb. pose proof (land_shift_low a b n Hn Hb) as H0.
  rewrite <-Z.lxor_lor by done. by rewrite Z.add_nocarry_lxor.
Qed.

(** The initial byte of a head: three bits of major type, five of additional
    information. *)
Lemma head_byte m ai :
  0 ≤ m < 8 → 0 ≤ ai < 32 → Z.lor (Z.shiftl m 5) ai = 32 * m + ai.
Proof.
  intros Hm Hai. rewrite Z.shiftl_mul_pow2 by lia. change (2 ^ 5) with 32.
  pose proof (lor_shift_add m ai 5 ltac:(lia) ltac:(lia)) as H.
  change (2 ^ 5) with 32 in H. lia.
Qed.

Lemma head_byte_split m ai :
  0 ≤ m < 8 → 0 ≤ ai < 32 →
  Z.shiftr (32 * m + ai) 5 = m ∧ Z.land (32 * m + ai) 0x1F = ai.
Proof.
  intros Hm Hai. rewrite Z.shiftr_div_pow2 by lia. change 0x1F with (Z.ones 5).
  rewrite Z.land_ones by lia. change (2 ^ 5) with 32.
  split; [symmetry; apply (Z.div_unique _ _ _ ai); lia |
          symmetry; apply (Z.mod_unique _ _ m); lia].
Qed.

(** The shape of a minimal head: the additional-information value and the
    argument bytes it announces. *)
Definition head_ai (value : Z) : Z :=
  if value <? 24 then value
  else if value <=? 0xFF then 24
  else if value <=? 0xFFFF then 25
  else if value <=? 0xFFFFFFFF then 26 else 27.

Definition head_arg (value : Z) : list Z :=
  if value <? 24 then []
  else if value <=? 0xFF then be_bytes 1 value
  else if value <=? 0xFFFF then be_bytes 2 value
  else if value <=? 0xFFFFFFFF then be_bytes 4 value else be_bytes 8 value.

Lemma encode_head_shape m value :
  0 ≤ m < 8 → 0 ≤ value ≤ u64_max →
  encode_head (Z.shiftl m 5) value = (32 * m + head_ai value) :: head_arg value.
Proof.
  intros Hm Hv. unfold encode_head, head_ai, head_arg, as_u8, as_u16, as_u32, u64_max in *.
  destruct (Z.ltb_spec value 24).
  { rewrite Z.mod_small, head_byte by lia. done. }
  destruct (Z.leb_spec value 0xFF).
  { rewrite Z.mod_small, head_byte by lia. simpl. rewrite Z.div_1_r, Z.mod_small by lia. done. }
  destruct (Z.leb_spec value 0xFFFF); [rewrite Z.mod_small, head_byte by lia; done|].
  destruct (Z.leb_spec value 0xFFFFFFFF); [rewrite Z.mod_small, head_byte by lia; done|].
  rewrite head_byte by lia. done.
Qed.

Lemma head_ai_bound value : 0 ≤ value → 0 ≤ head_ai value ≤ 27.
Proof. intros H. unfold head_ai. repeat case_match; leb_hyps; lia. Qed.

Lemma head_arg_ok value : bytes_ok (head_arg value).
Proof. unfold head_arg. repeat case_match; try apply be_bytes_ok. constructor. Qed.

Lemma encode_head_ok m value :
  0 ≤ m < 8 → 0 ≤ value ≤ u64_max → bytes_ok (encode_head (Z.shiftl m 5) value).
Proof.
  intros Hm Hv. rewrite encode_head_shape by done. constructor; [|apply head_arg_ok].
  pose proof (head_ai_bound value). unfold byte_ok. lia.
Qed.

Lemma encode_head_ne m value : encode_head m value ≠ [].
Proof. unfold encode_head. repeat case_match; done. Qed.

(** Integers: every integer CBOR can hold takes one of two heads. *)
Lemma encode_integer_shape i :
  - 2 ^ 64 ≤ i < 2 ^ 64 →
  encode_integer i =
    if 0 <=? i then encode_head MAJOR_UNSIGNED i else encode_head MAJOR_NEGATIVE (-1 - i).
Proof.
  intros Hi. unfold encode_integer, try_u64, try_i64, u64_max, i64_max, as_u64.
  destruct (Z.leb_spec 0 i); simpl.
  - destruct (Z.leb_spec i 18446744073709551615); [done | lia].
  - destruct (_ && _); rewrite ?(proj2 (Z.leb_gt 0 i)) by lia;
      rewrite Z.mod_small by lia; done.
Qed.

(** Well-formed values: what a [ciborium::Value] can hold. *)
Definition len_ok {A} (l : list A) : bool := Z.of_nat (length l) <=? u64_max.

Fixpoint value_ok (v : Value) : bool :=
  match v with
  | VInteger i => (- 2 ^ 64 <=? i) && (i <? 2 ^ 64)
  | VBytes b => bool_decide (bytes_ok b) && len_ok b
  | VFloat f => (0 <=? f) && (f <? 2 ^ 64)
  | VText s => utf8_valid s && len_ok s
  | VBool _ | VNull => true
  | VTag t v => (0 <=? t) && (t <=? u64_max) && value_ok v
  | VArray l => len_ok l && forallb value_ok l
  | VMap m => len_ok m && forallb (λ kv, value_ok kv.1 && value_ok kv.2) m
  end.

(** What the encoder keeps of a value: tags are dropped, NaNs are one NaN and
    map entries are in key order. *)
Definition float_norm (f : Z) : Z := if is_nan f then f64_NAN else f.

Definition value_key_order {B} (a b : Value * B) : comparison :=
  shortlex (to_ecf a.1) (to_ecf b.1).

Fixpoint ecf_norm (v : Value) : Value :=
  match v with
  | VTag _ w => ecf_norm w
  | VFloat f => VFloat (float_norm f)
  | VArray l => VArray (map ecf_norm l)
  | VMap m =>
      VMap (map snd (sort_by key_order
              (map (λ kv, (encode_value kv.1, (ecf_norm kv.1, ecf_norm kv.2))) m)))
  | _ => v
  end.

Lemma encode_value_ne v : encode_value v ≠ [].
Proof.
  induction v; simpl; unfold encode_cbor_bstr, encode_cbor_text; try done;
    try (intros [? _]%app_nil; by eapply encode_head_ne).
  - unfold encode_integer. repeat case_match; apply encode_head_ne.
  - unfold encode_float. repeat case_match; done.
Qed.

(** ** Order independence *)

(** Equality of values up to the order of map entries (at any depth) and up to
    tags: the equality ECF is canonical for. *)
Inductive value_equiv : Value → Value → Prop :=
  | ve_refl v : value_equiv v v
  | ve_trans u v w : value_equiv u v → value_equiv v w → value_equiv u w
  | ve_tag_l t v w : value_equiv v w → value_equiv (VTag t v) w
  | ve_tag_r t v w : value_equiv v w → value_equiv v (VTag t w)
  | ve_array l k : Forall2 value_equiv l k → value_equiv (VArray l) (VArray k)
  | ve_map m n :
      Forall2 (λ a b, value_equiv a.1 b.1 ∧ value_equiv a.2 b.2) m n →
      value_equiv (VMap m) (VMap n)
  | ve_perm m n :
      m ≡ₚ n → NoDup (map (λ kv, to_ecf kv.1) m) → value_equiv (VMap m) (VMap n).

Lemma sort_entries_perm (l k : list (list Z * list Z)) :
  l ≡ₚ k → NoDup (map fst l) → sort_by key_order l = sort_by key_order k.
Proof.
  intros Hp Hnd. apply sort_by_ext; [..|done].
  - intros x y. apply shortlex_flip.
  - intros x y z. apply shortlex_le_trans.
  - intros [a b] [a' b'] Hx Hy H1 H2. pose proof (shortlex_le_antisym _ _ H1 H2) as Heq.
    simpl in Heq. subst a'. f_equal.
    apply list_elem_of_lookup in Hx as [i Hi], Hy as [j Hj].
    assert (i = j) as ->.
    { apply (NoDup_lookup (map fst l) i j a); [done|..];
        change (map fst l) with (fst <$> l); by rewrite list_lookup_fmap, ?Hi, ?Hj. }
    congruence.
Qed.

Fixpoint encode_value_equiv v w (H : value_equiv v w) {struct H} :
  encode_value v = encode_value w.
Proof.
  destruct H as [v|u v w H1 H2|t v w H|t v w H|l k H|m n H|m n Hp Hnd]; simpl.
  - done.
  - by rewrite (encode_value_equiv _ _ H1), (encode_value_equiv _ _ H2).
  - by apply encode_value_equiv.
  - by apply encode_value_equiv.
  - assert (map encode_value l = map encode_value k ∧ length l = length k) as [-> ->]; [|done].
    induction H as [|x y l k Hxy H IH]; simpl; [done|]. destruct IH as [-> ->].
    by rewrite (encode_value_equiv _ _ Hxy).
  - assert (map (λ kv, (encode_value kv.1, encode_value kv.2)) m
            = map (λ kv, (encode_value kv.1, encode_value kv.2)) n
            ∧ length m = length n) as [-> ->]; [|done].
    induction H as [|[a b] [a' b'] m n [Ha Hb] H IH]; simpl in *; [done|].
    destruct IH as [-> ->].
    by rewrite (encode_value_equiv _ _ Ha), (encode_value_equiv _ _ Hb).
  - f_equal; [by rewrite Hp|]. f_equal. f_equal. apply sort_entries_perm.
    + by rewrite Hp.
    + rewrite map_map. done.
Qed.

#[export] Instance to_ecf_proper : Proper (value_equiv ==> eq) to_ecf.
Proof. intros v w. apply encode_value_equiv. Qed.

(** ** Floats *)

Lemma lor_bound a b n : 0 ≤ n → 0 ≤ a < 2 ^ n → 0 ≤ b < 2 ^ n → 0 ≤ Z.lor a b < 2 ^ n.
Proof.
  intros Hn Ha Hb. split; [apply Z.lor_nonneg; lia|].
  destruct (decide (Z.lor a b = 0)) as [->|]; [lia|].
  assert (0 ≤ Z.lor a b) by (apply Z.lor_nonneg; lia).
  destruct (decide (n = 0)) as [->|Hn0].
  { replace a with 0 in * by lia. replace b with 0 in * by lia. done. }
  apply Z.log2_lt_pow2; [lia|]. rewrite Z.log2_lor by lia.
  assert (Hlog : ∀ c, 0 ≤ c < 2 ^ n → Z.log2 c < n).
  { intros c Hc. destruct (decide (c = 0)) as [->|]; [change (Z.log2 0) with 0; lia|].
    apply Z.log2_lt_pow2; lia. }
  apply Z.max_lub_lt; auto.
Qed.

Lemma f64_sign_spec f : 0 ≤ f < 2 ^ 64 → f64_sign f = f / 2 ^ 63.
Proof.
  intros Hf. unfold f64_sign. rewrite Z.shiftr_div_pow2 by lia.
  change 1 with (Z.ones 1). rewrite Z.land_ones by lia. apply Z.mod_small.
  change (2 ^ 1) with 2. change (2 ^ 63) with 9223372036854775808.
  change (2 ^ 64) with 18446744073709551616 in Hf. dlia.
Qed.

Lemma f64_exp_spec f : f64_exp f = (f / 2 ^ 52) mod 2 ^ 11.
Proof.
  unfold f64_exp. rewrite Z.shiftr_div_pow2 by lia. change 0x7FF with (Z.ones 11).
  by rewrite Z.land_ones by lia.
Qed.

Lemma f64_frac_spec f : f64_frac f = f mod 2 ^ 52.
Proof.
  unfold f64_frac. change 0xFFFFFFFFFFFFF with (Z.ones 52). by rewrite Z.land_ones by lia.
Qed.

Lemma f64_decompose f :
  0 ≤ f < 2 ^ 64 →
  f = f64_sign f * 2 ^ 63 + f64_exp f * 2 ^ 52 + f64_frac f ∧ 0 ≤ f64_sign f < 2
  ∧ 0 ≤ f64_exp f < 2 ^ 11 ∧ 0 ≤ f64_frac f < 2 ^ 52.
Proof.
  intros Hf. rewrite f64_sign_spec, f64_exp_spec, f64_frac_spec by done.
  change (2 ^ 63) with 9223372036854775808 in *. change (2 ^ 52) with 4503599627370496.
  change (2 ^ 11) with 2048. change (2 ^ 64) with 18446744073709551616 in Hf. dlia.
Qed.

Lemma f64_eqb_true a f : f64_eqb a f = true → is_zero_f64 f = false → a = f.
Proof.
  unfold f64_eqb. intros H Hz. rewrite Hz, andb_false_r, orb_false_r in H. leb_hyps. done.
Qed.

Lemma sign_shift_bound f k n :
  0 ≤ f < 2 ^ 64 → 0 ≤ k < n → 0 ≤ Z.shiftl (f64_sign f) k < 2 ^ n.
Proof.
  intros Hf Hk. destruct (f64_decompose f Hf) as (_ & Hs & _).
  rewrite Z.shiftl_mul_pow2 by lia.
  assert (0 < 2 ^ k) by (apply Z.pow_pos_nonneg; lia).
  assert (2 ^ k < 2 ^ n) by (apply Z.pow_lt_mono_r; lia). nia.
Qed.

Lemma f64_to_f16_bound f : 0 ≤ f < 2 ^ 64 → 0 ≤ f64_to_f16 f < 2 ^ 16.
Proof.
  intros Hf. unfold f64_to_f16. cbv zeta. pose proof (sign_shift_bound f 15 16 Hf ltac:(lia)).
  assert (Hu : ∀ z, 0 ≤ as_u16 z < 2 ^ 16) by (intros z; apply Z.mod_pos_bound; lia).
  destruct (f64_decompose f Hf) as (_ & _ & He & _).
  repeat case_match; leb_hyps; repeat (apply lor_bound); try lia; try apply Hu.
  rewrite Z.shiftl_mul_pow2 by lia. change (2 ^ 10) with 1024. lia.
Qed.

Lemma round_even_bound m s :
  0 ≤ m → 0 ≤ s → 0 ≤ round_even m s ≤ m / 2 ^ s + 1.
Proof.
  intros Hm Hs. unfold round_even. destruct (Z.eqb_spec s 0) as [->|].
  - rewrite Z.pow_0_r, Z.div_1_r. lia.
  - rewrite Z.shiftr_div_pow2 by lia. cbv zeta.
    assert (0 < 2 ^ s) by (apply Z.pow_pos_nonneg; lia).
    assert (0 ≤ m / 2 ^ s) by (apply Z.div_pos; lia). case_match; lia.
Qed.

Lemma f64_to_f32_bound f : 0 ≤ f < 2 ^ 64 → 0 ≤ f64_to_f32 f < 2 ^ 32.
Proof.
  intros Hf. unfold f64_to_f32. cbv zeta. pose proof (sign_shift_bound f 31 32 Hf ltac:(lia)).
  destruct (f64_decompose f Hf) as (_ & _ & He & Hfr).
  repeat case_match; leb_hyps; repeat (apply lor_bound); try lia.
  - set (e := f64_exp f - 1023 + 127) in *.
    pose proof (round_even_bound (Z.shiftl e 52 + f64_frac f) 29) as Hr.
    rewrite Z.shiftl_mul_pow2 in * by lia. change (2 ^ 52) with 4503599627370496 in *.
    change (2 ^ 29) with 536870912 in *. change (2 ^ 32) with 4294967296. dlia.
  - pose proof (lor_bound (f64_frac f) 0x10000000000000 53 ltac:(lia)) as Hl.
    change (2 ^ 53) with 9007199254740992 in *. change (2 ^ 52) with 4503599627370496 in *.
    set (m := Z.lor (f64_frac f) 0x10000000000000) in *.
    set (s := 30 - (f64_exp f - 1023 + 127)). assert (30 ≤ s) by lia.
    pose proof (round_even_bound m s ltac:(lia) ltac:(lia)).
    assert (m / 2 ^ s ≤ m / 2 ^ 30)
      by (apply Z.div_le_compat_l; [lia|]; split; [lia | apply Z.pow_le_mono_r; lia]).
    change (2 ^ 30) with 1073741824 in *. change (2 ^ 32) with 4294967296. dlia.
Qed.

(** The value a half encodes is the float it was chosen for. *)
Lemma try_encode_half_exact f h :
  0 ≤ f < 2 ^ 64 → try_encode_half f = Some h →
  0 ≤ h < 2 ^ 16 ∧ f16_to_f64 h = float_norm f.
Proof.
  intros Hf. unfold try_encode_half, float_norm.
  destruct (f64_decompose f Hf) as (Hd & Hs & He & Hfr).
  destruct (is_zero_f64 f) eqn:Hz.
  { assert (is_nan f = false) as ->.
    { unfold is_nan, is_zero_f64 in *. leb_hyps. rewrite H. done. }
    unfold is_zero_f64 in Hz. leb_hyps. intros Hh; apply (inj Some) in Hh; subst h. case_match; leb_hyps.
    - split; [lia|]. rewrite Hd. replace (f64_exp f) with 0 by lia.
      replace (f64_frac f) with 0 by lia. replace (f64_sign f) with 1 by lia. reflexivity.
    - split; [lia|]. rewrite Hd. replace (f64_exp f) with 0 by lia.
      replace (f64_frac f) with 0 by lia. replace (f64_sign f) with 0 by lia. reflexivity. }
  destruct (is_nan f) eqn:Hn. { intros Hh; apply (inj Some) in Hh; subst h. split; [lia | reflexivity]. }
  destruct (is_infinite f) eqn:Hi.
  { unfold is_infinite in Hi. leb_hyps. intros Hh; apply (inj Some) in Hh; subst h. case_match; leb_hyps.
    - split; [lia|]. rewrite Hd. replace (f64_exp f) with 0x7FF by lia.
      replace (f64_frac f) with 0 by lia. replace (f64_sign f) with 1 by lia. reflexivity.
    - split; [lia|]. rewrite Hd. replace (f64_exp f) with 0x7FF by lia.
      replace (f64_frac f) with 0 by lia. replace (f64_sign f) with 0 by lia. reflexivity. }
  case_match eqn:Heq; [|done]. intros Hh; apply (inj Some) in Hh; subst h. split; [by apply f64_to_f16_bound|].
  by apply f64_eqb_true.
Qed.

Lemma encode_float_single_exact f :
  0 ≤ f < 2 ^ 64 → try_encode_half f = None →
  f64_eqb (f32_to_f64 (f64_to_f32 f)) f = true → f32_to_f64 (f64_to_f32 f) = float_norm f.
Proof.
  intros Hf Hh Heq. unfold try_encode_half in Hh.
  destruct (is_zero_f64 f) eqn:Hz; [done|]. unfold float_norm.
  destruct (is_nan f) eqn:Hn; [done|]. by apply f64_eqb_true.
Qed.

Lemma encode_float_double_exact f :
  try_encode_half f = None → float_norm f = f.
Proof.
  unfold try_encode_half, float_norm. destruct (is_zero_f64 f) eqn:Hz; [done|].
  by destruct (is_nan f).
Qed.

Lemma encode_float_ok f : bytes_ok (encode_float f).
Proof.
  unfold encode_float.
  repeat case_match; (apply Forall_cons; split; [vm_compute; split; congruence | apply be_bytes_ok]).
Qed.

(** [f64_make] builds the pattern with the given fields. *)
Lemma f64_make_sum s e fr :
  0 ≤ s < 2 → 0 ≤ e < 2 ^ 11 → 0 ≤ fr < 2 ^ 52 →
  f64_make s e fr = s * 2 ^ 63 + e * 2 ^ 52 + fr.
Proof.
  intros Hs He Hf. unfold f64_make. rewrite !Z.shiftl_mul_pow2 by lia.
  assert (0 ≤ e * 2 ^ 52 < 2 ^ 63).
  { change (2 ^ 63) with (2 ^ 11 * 2 ^ 52). assert (0 < 2 ^ 52) by lia. nia. }
  rewrite (lor_shift_add s _ 63) by lia.
  replace (s * 2 ^ 63 + e * 2 ^ 52) with ((s * 2 ^ 11 + e) * 2 ^ 52)
    by (change (2 ^ 63) with (2 ^ 11 * 2 ^ 52); ring).
  rewrite lor_shift_add by lia. change (2 ^ 63) with (2 ^ 11 * 2 ^ 52). ring.
Qed.

Lemma f64_make_fields s e fr :
  0 ≤ s < 2 → 0 ≤ e < 2 ^ 11 → 0 ≤ fr < 2 ^ 52 →
  let f := f64_make s e fr in
  0 ≤ f < 2 ^ 64 ∧ f64_sign f = s ∧ f64_exp f = e ∧ f64_frac f = fr.
Proof.
  intros Hs He Hf f. pose proof (f64_make_sum s e fr Hs He Hf) as Hsum. fold f in Hsum.
  assert (Hb : 0 ≤ f < 2 ^ 64).
  { rewrite Hsum. change (2 ^ 64) with (2 * 2 ^ 63). change (2 ^ 63) with (2 ^ 11 * 2 ^ 52).
    assert (0 < 2 ^ 52) by lia. nia. }
  destruct (f64_decompose f Hb) as (Hd & ? & ? & ?). split; [done|].
  change (2 ^ 63) with 9223372036854775808 in *. change (2 ^ 52) with 4503599627370496 in *.
  change (2 ^ 11) with 2048 in *. lia.
Qed.

(** Every half-precision value other than a NaN is encoded by its own bits. *)
Definition half_exp (h : Z) : Z := Z.land (Z.shiftr h 10) 0x1F.
Definition half_frac (h : Z) : Z := Z.land h 0x3FF.
Definition half_is_nan (h : Z) : bool := (half_exp h =? 31) && negb (half_frac h =? 0).

Lemma half_decompose h :
  0 ≤ h < 65536 →
  h = Z.land (Z.shiftr h 15) 1 * 32768 + half_exp h * 1024 + half_frac h
  ∧ 0 ≤ Z.land (Z.shiftr h 15) 1 < 2 ∧ 0 ≤ half_exp h < 32 ∧ 0 ≤ half_frac h < 1024.
Proof.
  intros Hh. unfold half_exp, half_frac. change 0x1F with (Z.ones 5). change 0x3FF with (Z.ones 10).
  change 1 with (Z.ones 1). rewrite !Z.land_ones, !Z.shiftr_div_pow2 by lia.
  change (2 ^ 15) with 32768. change (2 ^ 10) with 1024. change (2 ^ 5) with 32.
  change (2 ^ 1) with 2. dlia.
Qed.

(** [f] holds on [z, z + 2^k). *)
Fixpoint check_pow (f : Z → bool) (k : nat) (z : Z) : bool :=
  match k with
  | O => f z
  | S k' => check_pow f k' z && check_pow f k' (z + 2 ^ Z.of_nat k')
  end.

Lemma check_pow_spec f k z x :
  check_pow f k z = true → z ≤ x < z + 2 ^ Z.of_nat k → f x = true.
Proof.
  revert z. induction k as [|k IH]; intros z; cbn [check_pow].
  - intros H Hx. change (2 ^ Z.of_nat 0) with 1 in Hx. by replace x with z by lia.
  - intros [H1 H2]%andb_true_iff Hx. rewrite Nat2Z.inj_succ, Z.pow_succ_r in Hx by lia.
    destruct (decide (x < z + 2 ^ Z.of_nat k)).
    + apply (IH z); [done | lia].
    + apply (IH (z + 2 ^ Z.of_nat k)); [done | lia].
Qed.

(** The finite check covers zeros, subnormals and infinities; normal halves
    are converted field by field. *)
Definition half_exact (h : Z) : bool :=
  match try_encode_half (f16_to_f64 h) with Some h' => h' =? h | None => false end.

Lemma edge_halves_exact :
  check_pow half_exact 10 0 && check_pow half_exact 10 0x8000
  && half_exact 0x7C00 && half_exact 0xFC00 = true.
Proof. vm_compute. reflexivity. Qed.

Lemma half_exact_eq h : half_exact h = true → try_encode_half (f16_to_f64 h) = Some h.
Proof. unfold half_exact. case_match; [|done]. by intros ->%Z.eqb_eq. Qed.

Lemma f64_to_f16_normal s e fr :
  0 ≤ s < 2 → 1 ≤ e ≤ 30 → 0 ≤ fr < 1024 →
  f64_to_f16 (f64_make s (e + 1008) (Z.shiftl fr 42)) = s * 32768 + e * 1024 + fr.
Proof.
  intros Hs He Hf. rewrite Z.shiftl_mul_pow2 by lia.
  destruct (f64_make_fields s (e + 1008) (fr * 2 ^ 42)) as (_ & Es & Ee & Ef); [lia|lia| |].
  { change (2 ^ 52) with (1024 * 2 ^ 42). assert (0 < 2 ^ 42) by lia. nia. }
  unfold f64_to_f16. rewrite Es, Ee, Ef. clear Es Ee Ef. cbv zeta.
  replace (e + 1008 - 1023 + 15) with e by lia.
  rewrite (proj2 (Z.eqb_neq _ _)), (proj2 (Z.leb_gt 31 e)), (proj2 (Z.leb_gt e 0)) by lia.
  rewrite Z.shiftr_div_pow2, Z.div_mul by lia. unfold as_u16.
  rewrite Z.mod_small by lia. rewrite !Z.shiftl_mul_pow2 by lia.
  rewrite (lor_shift_add s (e * 2 ^ 10) 15) by (try change (2 ^ 10) with 1024; lia).
  replace (s * 2 ^ 15 + e * 2 ^ 10) with ((s * 32 + e) * 2 ^ 10)
    by (change (2 ^ 15) with (32 * 2 ^ 10); ring).
  rewrite lor_shift_add by (change (2 ^ 10) with 1024; lia). change (2 ^ 10) with 1024. lia.
Qed.

Lemma half_normal_round_trip h :
  0 ≤ h < 65536 → 1 ≤ half_exp h ≤ 30 → try_encode_half (f16_to_f64 h) = Some h.
Proof.
  intros Hh He. destruct (half_decompose h Hh) as (Hd & Hs & _ & Hf).
  assert (Hval : f16_to_f64 h = f64_make (Z.land (Z.shiftr h 15) 1) (half_exp h + 1008)
                           (Z.shiftl (half_frac h) 42)).
  { unfold f16_to_f64. fold (half_exp h) (half_frac h). cbv zeta.
    rewrite (proj2 (Z.eqb_neq _ 0)), (proj2 (Z.eqb_neq _ 31)) by lia. f_equal. lia. }
  set (s := Z.land (Z.shiftr h 15) 1) in *. set (e := half_exp h) in *.
  set (fr := half_frac h) in *.
  assert (Hh16 : f64_to_f16 (f16_to_f64 h) = h)
    by (rewrite Hval, f64_to_f16_normal by lia; lia).
  destruct (f64_make_fields s (e + 1008) (Z.shiftl fr 42)) as (Hb & Es & Ee & Ef); [lia|lia| |].
  { rewrite Z.shiftl_mul_pow2 by lia.
    change (2 ^ 52) with (1024 * 2 ^ 42). assert (0 < 2 ^ 42) by lia. nia. }
  rewrite <-Hval in *.
  assert (Hfin : ∀ k, k = 0 ∨ k = 0x7FF → (f64_exp (f16_to_f64 h) =? k) = false).
  { intros k Hk. rewrite Ee. apply Z.eqb_neq. lia. }
  unfold try_encode_half, is_infinite. cbv zeta. rewrite Hh16.
  unfold f64_eqb, is_zero_f64, is_nan. by rewrite !Hfin, Z.eqb_refl by auto.
Qed.

Lemma half_round_trip h :
  0 ≤ h < 65536 → half_is_nan h = false → try_encode_half (f16_to_f64 h) = Some h.
Proof.
  intros Hh Hn. destruct (half_decompose h Hh) as (Hd & Hs & He & Hf).
  destruct (decide (1 ≤ half_exp h ≤ 30)); [by apply half_normal_round_trip|].
  apply half_exact_eq. pose proof edge_halves_exact as Hall.
  apply andb_true_iff in Hall as [Hall Hninf]. apply andb_true_iff in Hall as [Hall Hinf].
  apply andb_true_iff in Hall as [Hpos Hneg].
  unfold half_is_nan in Hn. destruct (decide (half_exp h = 31)) as [E|E].
  - rewrite E, Z.eqb_refl in Hn. cbn [andb] in Hn. apply negb_false_iff, Z.eqb_eq in Hn.
    destruct (decide (Z.land (Z.shiftr h 15) 1 = 0)).
    + by replace h with 0x7C00 by lia.
    + by replace h with 0xFC00 by lia.
  - destruct (decide (Z.land (Z.shiftr h 15) 1 = 0)).
    + apply (check_pow_spec _ _ _ h Hpos). change (2 ^ Z.of_nat 10) with 1024. lia.
    + apply (check_pow_spec _ _ _ h Hneg). change (2 ^ Z.of_nat 10) with 1024. lia.
Qed.

(** * Properties *)

(** encoding does not depend on the order of map entries at any depth, nor on
    tags: values equal up to a permutation of distinct map keys (and up to the
    tags ECF drops) have the same ECF bytes, so the content hash of a map is
    well defined. *)
Theorem ecf_order_independent v w : value_equiv v w → to_ecf v = to_ecf w.
Proof. by intros ->. Qed.

Lemma ecf_order_independent_witness :
  to_ecf (VArray [VMap [(text (lit "b"), integer 1); (text (lit "a"), VTag 9 (integer 2))]])
  = to_ecf (VArray [VMap [(text (lit "a"), integer 2); (text (lit "b"), integer 1)]]).
Proof.
  apply ecf_order_independent, ve_array. constructor; [|constructor].
  eapply ve_trans.
  - apply (ve_perm _ [(text (lit "a"), VTag 9 (integer 2)); (text (lit "b"), integer 1)]).
    + apply Permutation_swap.
    + by vm_compute; repeat constructor; set_solver.
  - apply ve_map. constructor; [split; [apply ve_refl | apply ve_tag_l, ve_refl]|].
    constructor; [split; apply ve_refl | constructor].
Defined.

(** a float that a half-precision number represents is encoded in the
    three-byte half form with exactly that number's bits, for every one of the
    halves (subnormals, infinities and both zeros included) but the NaNs, and
    every NaN is encoded as the one canonical NaN. *)
Theorem ecf_float_half_shortest h f :
  0 ≤ h < 65536 → half_is_nan h = false → is_nan f = true →
  encode_float (f16_to_f64 h) = FLOAT_HALF :: be_bytes 2 h
  ∧ encode_float f = FLOAT_HALF :: [0x7E; 0x00].
Proof.
  intros Hh Hn Hf. unfold encode_float. split; [by rewrite half_round_trip|].
  unfold try_encode_half. rewrite Hf. unfold is_nan, is_zero_f64 in *.
  apply andb_true_iff in Hf as [E%Z.eqb_eq _]. by rewrite E.
Qed.

Lemma ecf_float_half_shortest_witness :
  encode_float (f16_to_f64 0x3C00) = FLOAT_HALF :: be_bytes 2 0x3C00
  ∧ encode_float 0x7FF0000000000001 = FLOAT_HALF :: [0x7E; 0x00].
Proof. apply ecf_float_half_shortest; [lia | reflexivity | reflexivity]. Defined.
