(* ===== verification/Cbor.v ===== *)
(** CBOR reading: the interface to the third-party reader, and a reference
    decoder for it.

    The program reads CBOR with [ciborium::from_reader], a crate outside the
    repository.  [Ciborium] is that function as a parameter of the model;
    [CiboriumDecodes] is the documented behaviour the code relies on (reading a
    well-formed item returns the item).  [ref_decode] is a decoder written from
    RFC 8949; [ref_decode_value] shows that the encoder of Ecf.v is inverted by
    it, and [ref_ciborium] is the concrete instance that the witnesses use. *)
From S2P Require Import Prelude BTree Ecf.

Class Ciborium := { from_reader : list Z → option Value }.

(** The nesting depth of a value bounds the fuel its encoding needs. *)
Fixpoint depth (v : Value) : nat :=
  match v with
  | VTag _ w => depth w
  | VArray l => S (list_max (map depth l))
  | VMap m => S (list_max (map (λ kv, Nat.max (depth kv.1) (depth kv.2)) m))
  | _ => 1%nat
  end.

(** The crate refuses items nested more than 256 deep. *)
Definition ciborium_recursion_limit : nat := 256.

(** Reading the canonical bytes of a value returns that value in normal form
    (trailing bytes are not looked at). *)
Class CiboriumDecodes `{Ciborium} : Prop :=
  from_reader_ecf : ∀ v rest,
    value_ok v = true → (depth v ≤ ciborium_recursion_limit)%nat →
    from_reader (to_ecf v ++ rest) = Some (ecf_norm v).

(** * Heads *)

Definition arg_len (ai : Z) : nat :=
  if ai =? 24 then 1 else if ai =? 25 then 2 else if ai =? 26 then 4 else 8.

(** Major type, additional information, argument and the bytes after the head. *)
Definition read_head (l : list Z) : option (Z * Z * Z * list Z) :=
  match l with
  | [] => None
  | b :: l' =>
      let major := Z.shiftr b 5 in
      let ai := Z.land b 0x1F in
      if ai <? 24 then Some (major, ai, ai, l')
      else if ai <? 28 then
        let n := arg_len ai in
        if (length l' <? n)%nat then None
        else Some (major, ai, be_value (take n l'), drop n l')
      else None
  end.

Lemma head_arg_value value :
  0 ≤ value ≤ u64_max → 24 ≤ value →
  length (head_arg value) = arg_len (head_ai value) ∧ be_value (head_arg value) = value.
Proof.
  unfold u64_max. intros Hv Hge. unfold head_ai, head_arg.
  destruct (Z.ltb_spec value 24); [lia|].
  repeat match goal with |- context [?a <=? ?b] => destruct (Z.leb_spec a b) end;
    (split; [apply length_be_bytes |
      apply be_value_bytes;
      match goal with |- 0 ≤ _ < 256 ^ Z.of_nat ?n =>
        let p := eval vm_compute in (256 ^ Z.of_nat n) in change (256 ^ Z.of_nat n) with p end;
      lia]).
Qed.

Lemma read_head_encode m value rest :
  0 ≤ m < 8 → 0 ≤ value ≤ u64_max →
  read_head (encode_head (Z.shiftl m 5) value ++ rest) = Some (m, head_ai value, value, rest).
Proof.
  intros Hm Hv. rewrite encode_head_shape by done. cbn [app read_head].
  destruct (head_byte_split m (head_ai value)) as [-> ->]; [done | pose proof (head_ai_bound value); lia |].
  destruct (decide (value < 24)) as [Hlt|Hge].
  - assert (head_ai value = value ∧ head_arg value = []) as [-> ->].
    { unfold head_ai, head_arg. destruct (Z.ltb_spec value 24); [done | lia]. }
    rewrite (proj2 (Z.ltb_lt _ _)) by lia. done.
  - destruct (head_arg_value value Hv ltac:(lia)) as [Hlen Hval].
    assert (24 ≤ head_ai value < 28).
    { unfold head_ai. destruct (Z.ltb_spec value 24); [lia|]. repeat case_match; lia. }
    rewrite (proj2 (Z.ltb_ge _ 24)), (proj2 (Z.ltb_lt _ 28)) by lia.
    rewrite <-Hlen, length_app, take_app_length, drop_app_length, Hval.
    by rewrite (proj2 (Nat.ltb_ge _ _)) by lia.
Qed.

(** * The reference decoder *)

Section items.
Context (decode : list Z → option (Value * list Z)).

Fixpoint decode_items (n : nat) (l : list Z) : option (list Value * list Z) :=
  match n with
  | O => Some ([], l)
  | S n' =>
      '(v, l1) ← decode l;
      '(vs, l2) ← decode_items n' l1;
      Some (v :: vs, l2)
  end.

Fixpoint decode_pairs (n : nat) (l : list Z) : option (list (Value * Value) * list Z) :=
  match n with
  | O => Some ([], l)
  | S n' =>
      '(k, l1) ← decode l;
      '(v, l2) ← decode l1;
      '(kvs, l3) ← decode_pairs n' l2;
      Some ((k, v) :: kvs, l3)
  end.
End items.

Definition decode_simple (ai value : Z) (rest : list Z) : option (Value * list Z) :=
  if ai =? 20 then Some (VBool false, rest)
  else if ai =? 21 then Some (VBool true, rest)
  else if ai =? 22 then Some (VNull, rest)
  else if ai =? 25 then Some (VFloat (f16_to_f64 value), rest)
  else if ai =? 26 then Some (VFloat (f32_to_f64 value), rest)
  else if ai =? 27 then Some (VFloat value, rest)
  else None.

(** [fuel] bounds the nesting depth. *)
Fixpoint ref_decode (fuel : nat) (l : list Z) : option (Value * list Z) :=
  match fuel with
  | O => None
  | S fuel' =>
      '(major, ai, value, rest) ← read_head l;
      if major =? 0 then Some (VInteger value, rest)
      else if major =? 1 then Some (VInteger (-1 - value), rest)
      else if major =? 7 then decode_simple ai value rest
      else if major =? 6 then
        '(v, rest') ← ref_decode fuel' rest; Some (VTag value v, rest')
      else if Z.of_nat (length rest) <? value then None
      else
        let n := Z.to_nat value in
        if major =? 2 then Some (VBytes (take n rest), drop n rest)
        else if major =? 3 then
          if utf8_valid (take n rest) then Some (VText (take n rest), drop n rest) else None
        else if major =? 4 then
          '(vs, rest') ← decode_items (ref_decode fuel') n rest; Some (VArray vs, rest')
        else if major =? 5 then
          '(kvs, rest') ← decode_pairs (ref_decode fuel') n rest; Some (VMap kvs, rest')
        else None
  end.

Lemma list_max_elem n l : n ∈ l → (n ≤ list_max l)%nat.
Proof.
  intros H%list_elem_of_In. pose proof (proj1 (list_max_le l (list_max l)) ltac:(lia)) as Hall.
  rewrite List.Forall_forall in Hall. auto.
Qed.

Definition decodes (v : Value) : Prop :=
  ∀ fuel rest, value_ok v = true → (depth v ≤ fuel)%nat →
    ref_decode fuel (to_ecf v ++ rest) = Some (ecf_norm v, rest).

Lemma decode_items_spec fuel l rest :
  Forall decodes l → forallb value_ok l = true → (∀ x, x ∈ l → (depth x ≤ fuel)%nat) →
  decode_items (ref_decode fuel) (length l) (concat (map to_ecf l) ++ rest)
  = Some (map ecf_norm l, rest).
Proof.
  induction 1 as [|x l Hx Hl IH]; intros Hok Hd; cbn [length decode_items map concat]; [done|].
  cbn [forallb] in Hok. apply andb_true_iff in Hok as [Hxok Hlok].
  rewrite <-app_assoc, Hx by (done || apply Hd; set_solver). cbn.
  rewrite IH by (done || intros; apply Hd; set_solver). done.
Qed.

(** One map entry with its encoded key, as the encoder sorts it. *)
Definition keyed (kv : Value * Value) : list Z * (Value * Value) := (to_ecf kv.1, kv).

Lemma encode_map_sorted m :
  to_ecf (VMap m) = encode_head MAJOR_MAP (Z.of_nat (length m))
    ++ concat (map (λ kv, to_ecf kv.1 ++ to_ecf kv.2)
                 (map snd (sort_by key_order (map keyed m)))).
Proof.
  unfold to_ecf. cbn [encode_value]. f_equal. f_equal.
  assert (map (λ kv : Value * Value, (encode_value kv.1, encode_value kv.2)) m
          = map (λ e, (e.1, encode_value e.2.2)) (map keyed m)) as -> by (rewrite map_map; done).
  rewrite (sort_by_map _ _ key_order) by done. rewrite !map_map.
  apply map_ext_in. intros [a kv] Hin. simpl.
  apply list_elem_of_In in Hin. rewrite sort_by_Permutation in Hin.
  apply list_elem_of_In, in_map_iff in Hin as (kv' & [= <- <-] & _). done.
Qed.

Lemma ecf_norm_map_sorted m :
  ecf_norm (VMap m) = VMap (map (λ kv, (ecf_norm kv.1, ecf_norm kv.2))
                        (map snd (sort_by key_order (map keyed m)))).
Proof.
  cbn [ecf_norm]. f_equal.
  assert (map (λ kv : Value * Value, (encode_value kv.1, (ecf_norm kv.1, ecf_norm kv.2))) m
          = map (λ e, (e.1, (ecf_norm e.2.1, ecf_norm e.2.2))) (map keyed m)) as ->
    by (rewrite map_map; done).
  rewrite (sort_by_map _ _ key_order) by done. by rewrite !map_map.
Qed.

Lemma sorted_entries_perm m : map snd (sort_by key_order (map keyed m)) ≡ₚ m.
Proof. rewrite sort_by_Permutation, map_map. cbn. by rewrite map_id. Qed.

(** Fields written in the order of their keys stay where they are. *)
Fixpoint in_key_order (m : list (Value * Value)) : bool :=
  match m with
  | [] => true
  | kv :: m => forallb (λ kv', bool_decide (value_key_order kv kv' ≠ Gt)) m && in_key_order m
  end.

Lemma in_key_order_sorted m : in_key_order m = true → map snd (sort_by key_order (map keyed m)) = m.
Proof.
  intros Hm. rewrite sort_by_id; [rewrite map_map; cbn; by rewrite map_id|].
  induction m as [|kv m IH]; cbn; [constructor|]. cbn in Hm. apply andb_true_iff in Hm as [Ha Hm].
  constructor; [by apply IH|]. apply List.Forall_forall. intros e (kv' & <- & Hin)%in_map_iff.
  rewrite forallb_forall in Ha. specialize (Ha kv' Hin). by apply bool_decide_eq_true in Ha.
Qed.

Lemma to_ecf_fields m :
  in_key_order m = true →
  to_ecf (VMap m) = encode_head MAJOR_MAP (Z.of_nat (length m)) ++ concat (map (λ kv, to_ecf kv.1 ++ to_ecf kv.2) m).
Proof. intros Hm. by rewrite encode_map_sorted, in_key_order_sorted. Qed.

Lemma ecf_norm_fields m :
  in_key_order m = true → ecf_norm (VMap m) = VMap (map (λ kv, (ecf_norm kv.1, ecf_norm kv.2)) m).
Proof. intros Hm. by rewrite ecf_norm_map_sorted, in_key_order_sorted. Qed.

Lemma decode_pairs_spec fuel m rest :
  Forall (λ kv, decodes kv.1 ∧ decodes kv.2) m →
  forallb (λ kv, value_ok kv.1 && value_ok kv.2) m = true →
  (∀ kv, kv ∈ m → (depth kv.1 ≤ fuel ∧ depth kv.2 ≤ fuel)%nat) →
  decode_pairs (ref_decode fuel) (length m)
    (concat (map (λ kv, to_ecf kv.1 ++ to_ecf kv.2) m) ++ rest)
  = Some (map (λ kv, (ecf_norm kv.1, ecf_norm kv.2)) m, rest).
Proof.
  induction 1 as [|[k v] m [Hk Hv] Hm IH]; intros Hok Hd;
    cbn [length decode_pairs map concat]; [done|].
  cbn [forallb] in Hok. apply andb_true_iff in Hok as [[Hkok Hvok]%andb_true_iff Hlok].
  destruct (Hd (k, v)) as [Hdk Hdv]; [set_solver|]. cbn [fst snd] in *.
  rewrite <-!app_assoc, Hk by done. cbn. rewrite Hv by done. cbn.
  rewrite IH by (done || intros; apply Hd; set_solver). done.
Qed.

Lemma length_concat_ge {A} (f : A → list Z) l :
  (∀ x, f x ≠ []) → (length l ≤ length (concat (map f l)))%nat.
Proof.
  intros Hne. induction l as [|x l IH]; simpl; [lia|]. rewrite length_app.
  specialize (Hne x). destruct (f x); simpl; [done | lia].
Qed.

(** The first step of the decoder on an encoded head. *)
Lemma ref_decode_head fuel m value l :
  0 ≤ m < 8 → 0 ≤ value ≤ u64_max →
  ref_decode (S fuel) (encode_head (Z.shiftl m 5) value ++ l) =
    if m =? 0 then Some (VInteger value, l)
    else if m =? 1 then Some (VInteger (-1 - value), l)
    else if m =? 7 then decode_simple (head_ai value) value l
    else if m =? 6 then '(v, rest') ← ref_decode fuel l; Some (VTag value v, rest')
    else if Z.of_nat (length l) <? value then None
    else
      let n := Z.to_nat value in
      if m =? 2 then Some (VBytes (take n l), drop n l)
      else if m =? 3 then
        if utf8_valid (take n l) then Some (VText (take n l), drop n l) else None
      else if m =? 4 then
        '(vs, rest') ← decode_items (ref_decode fuel) n l; Some (VArray vs, rest')
      else if m =? 5 then
        '(kvs, rest') ← decode_pairs (ref_decode fuel) n l; Some (VMap kvs, rest')
      else None.
Proof. intros Hm Hv. cbn [ref_decode]. by rewrite read_head_encode by done. Qed.

Lemma len_ok_bound {A} (l : list A) : len_ok l = true → 0 ≤ Z.of_nat (length l) ≤ u64_max.
Proof. unfold len_ok. intros H%Z.leb_le. lia. Qed.

Lemma decodes_integer i : decodes (VInteger i).
Proof.
  intros [|fuel] rest Hok Hd; simpl in Hd; [lia|]. simpl in Hok.
  apply andb_true_iff in Hok as [H1%Z.leb_le H2%Z.ltb_lt].
  unfold to_ecf. cbn [encode_value ecf_norm]. rewrite encode_integer_shape by lia.
  change (2 ^ 64) with 18446744073709551616 in *. unfold MAJOR_UNSIGNED, MAJOR_NEGATIVE.
  destruct (Z.leb_spec 0 i); rewrite ref_decode_head by (unfold u64_max; lia); simpl;
    repeat f_equal; lia.
Qed.

Lemma read_head_raw b n z rest :
  24 ≤ Z.land b 0x1F < 28 → arg_len (Z.land b 0x1F) = n → 0 ≤ z < 256 ^ Z.of_nat n →
  read_head (b :: be_bytes n z ++ rest) = Some (Z.shiftr b 5, Z.land b 0x1F, z, rest).
Proof.
  intros Hai Hn Hz. unfold read_head. cbv zeta. rewrite Hn.
  rewrite (proj2 (Z.ltb_ge _ 24)), (proj2 (Z.ltb_lt _ 28)) by lia.
  rewrite length_app, length_be_bytes. rewrite (proj2 (Nat.ltb_ge _ _)) by lia.
  rewrite take_app_length', drop_app_length' by (by rewrite length_be_bytes).
  by rewrite be_value_bytes.
Qed.

Lemma decodes_float f : decodes (VFloat f).
Proof.
  intros [|fuel] rest Hok Hd; simpl in Hd; [lia|]. simpl in Hok.
  apply andb_true_iff in Hok as [H1%Z.leb_le H2%Z.ltb_lt].
  unfold to_ecf. cbn [encode_value ecf_norm]. unfold encode_float.
  destruct (try_encode_half f) as [h|] eqn:Eh; [|destruct (f64_eqb _ f) eqn:Eq];
    cbn [app ref_decode].
  - destruct (try_encode_half_exact f h) as [Hb Hx]; [lia | done |].
    rewrite (read_head_raw FLOAT_HALF 2);
      [| vm_compute; split; congruence | reflexivity | change (256 ^ Z.of_nat 2) with (2 ^ 16); lia].
    change (Z.shiftr FLOAT_HALF 5) with 7. change (Z.land FLOAT_HALF 0x1F) with 25.
    cbn -[f16_to_f64 f32_to_f64 float_norm]. by rewrite Hx.
  - pose proof (f64_to_f32_bound f ltac:(lia)).
    rewrite (read_head_raw FLOAT_SINGLE 4);
      [| vm_compute; split; congruence | reflexivity | change (256 ^ Z.of_nat 4) with (2 ^ 32); lia].
    change (Z.shiftr FLOAT_SINGLE 5) with 7. change (Z.land FLOAT_SINGLE 0x1F) with 26.
    cbn -[f16_to_f64 f32_to_f64 float_norm]. by rewrite (encode_float_single_exact f) by (done || lia).
  - rewrite (read_head_raw FLOAT_DOUBLE 8);
      [| vm_compute; split; congruence | reflexivity | change (256 ^ Z.of_nat 8) with (2 ^ 64); lia].
    change (Z.shiftr FLOAT_DOUBLE 5) with 7. change (Z.land FLOAT_DOUBLE 0x1F) with 27.
    cbn -[f16_to_f64 f32_to_f64 float_norm]. by rewrite (encode_float_double_exact f).
Qed.

Lemma decodes_string {m} (c : list Z → Value) b fuel rest :
  (m = 2 ∧ c = VBytes ∨ m = 3 ∧ c = VText ∧ utf8_valid b = true) → len_ok b = true →
  ref_decode (S fuel) ((encode_head (Z.shiftl m 5) (Z.of_nat (length b)) ++ b) ++ rest)
  = Some (c b, rest).
Proof.
  intros Hm Hlen%len_ok_bound. rewrite <-app_assoc, ref_decode_head by (destruct_or?; lia).
  rewrite length_app, (proj2 (Z.ltb_ge _ _)) by lia. rewrite Nat2Z.id. cbv zeta.
  rewrite take_app_length, drop_app_length.
  destruct Hm as [[-> ->]|(-> & -> & Hu)]; cbn; [done | by rewrite Hu].
Qed.

(** The reference decoder inverts the encoder, up to the normal form. *)
Lemma ref_decode_value v : decodes v.
Proof.
  induction v as [i|b|f|s|b| |t v IH|l IH|m IH]; intros fuel rest Hok Hd.
  - by apply decodes_integer.
  - destruct fuel; [simpl in Hd; lia|]. cbn in Hok. apply andb_true_iff in Hok as [_ Hok].
    apply decodes_string; [by left | done].
  - by apply decodes_float.
  - destruct fuel; [simpl in Hd; lia|]. cbn in Hok. apply andb_true_iff in Hok as [? Hok].
    apply decodes_string; [by right | done].
  - destruct fuel; [simpl in Hd; lia|]. destruct b; reflexivity.
  - destruct fuel; [simpl in Hd; lia|]. reflexivity.
  - cbn in Hok. apply andb_true_iff in Hok as [_ Hok]. apply (IH fuel rest Hok Hd).
  - destruct fuel as [|fuel]; [simpl in Hd; lia|]. cbn in Hok.
    apply andb_true_iff in Hok as [Hlen%len_ok_bound Hok].
    unfold to_ecf. cbn [encode_value ecf_norm]. rewrite <-app_assoc. unfold MAJOR_ARRAY.
    rewrite ref_decode_head by lia. cbn -[decode_items].
    rewrite length_app. pose proof (length_concat_ge encode_value l encode_value_ne).
    rewrite (proj2 (Z.ltb_ge _ _)), Nat2Z.id by lia.
    change (map encode_value l) with (map to_ecf l).
    rewrite (decode_items_spec fuel l rest IH Hok); [done|].
    intros x Hx. cbn in Hd. apply le_S_n in Hd. etransitivity; [|exact Hd].
    apply list_max_elem. change (map depth l) with (depth <$> l). set_solver.
  - destruct fuel as [|fuel]; [simpl in Hd; lia|]. cbn in Hok.
    apply andb_true_iff in Hok as [Hlen%len_ok_bound Hok].
    pose proof (sorted_entries_perm m) as Hp.
    rewrite encode_map_sorted, ecf_norm_map_sorted, <-app_assoc. unfold MAJOR_MAP.
    set (s := map snd (sort_by key_order (map keyed m))) in *.
    rewrite ref_decode_head by lia. cbn -[decode_pairs].
    rewrite length_app.
    pose proof (length_concat_ge (λ kv : Value * Value, to_ecf kv.1 ++ to_ecf kv.2) s) as Hge.
    rewrite (Permutation_length Hp) in Hge.
    rewrite (proj2 (Z.ltb_ge _ _)), Nat2Z.id.
    2:{ assert (length m ≤ length (concat (map (λ kv : Value * Value, to_ecf kv.1 ++ to_ecf kv.2) s)))%nat;
        [|lia]. apply Hge. intros kv [H _]%app_nil. by eapply encode_value_ne. }
    rewrite <-(Permutation_length Hp), decode_pairs_spec; [done|..].
    + by rewrite Hp.
    + apply forallb_forall. intros kv Hkv. rewrite forallb_forall in Hok. apply Hok.
      apply list_elem_of_In. rewrite <-Hp. by apply list_elem_of_In.
    + intros kv Hkv. rewrite Hp in Hkv. cbn in Hd. apply le_S_n in Hd.
      assert (Nat.max (depth kv.1) (depth kv.2) ≤ fuel)%nat; [|lia].
      etransitivity; [|exact Hd]. apply list_max_elem.
      change (map ?f m) with (f <$> m). apply list_elem_of_fmap. eauto.
Qed.

(** ** The concrete reader *)

(** One level of nesting costs a byte, so the input length is enough fuel. *)
Lemma depth_length v : (depth v ≤ length (to_ecf v))%nat.
Proof.
  assert (Hhd : ∀ m n (l : list Z), (S (length l) ≤ length (encode_head m n ++ l))%nat).
  { intros m n l. rewrite length_app. pose proof (encode_head_ne m n).
    destruct (encode_head m n); simpl; [done | lia]. }
  assert (Hone : ∀ v, (1 ≤ length (encode_value v))%nat).
  { intros w. pose proof (encode_value_ne w). destruct (encode_value w); simpl; [done | lia]. }
  unfold to_ecf. induction v as [i|b|f|s|b| |t v IH|l IH|m IH]; try apply Hone; [done|..].
  - cbn [depth encode_value]. etransitivity; [|apply Hhd]. apply le_n_S, list_max_le.
    apply List.Forall_forall. intros n (x & <- & Hx)%in_map_iff.
    rewrite Forall_forall in IH. etransitivity; [apply IH; by apply list_elem_of_In|].
    apply in_split in Hx as (l1 & l2 & ->).
    rewrite map_app, concat_app, !length_app. simpl. rewrite length_app. lia.
  - change (encode_value (VMap m)) with (to_ecf (VMap m)). rewrite encode_map_sorted.
    cbn [depth]. etransitivity; [|apply Hhd]. apply le_n_S, list_max_le.
    apply List.Forall_forall. intros n (kv & <- & Hx)%in_map_iff.
    rewrite Forall_forall in IH. apply list_elem_of_In in Hx.
    destruct (IH kv Hx) as [IHk IHv].
    rewrite <-(sorted_entries_perm m) in Hx. apply list_elem_of_In, in_split in Hx as (l1 & l2 & ->).
    rewrite map_app, concat_app, !length_app. cbn [map concat]. rewrite !length_app.
    unfold to_ecf. lia.
Qed.

Definition ref_from_reader (l : list Z) : option Value :=
  fst <$> ref_decode (length l) l.

Definition ref_ciborium : Ciborium := {| from_reader := ref_from_reader |}.

Lemma ref_from_reader_ecf v rest :
  value_ok v = true → ref_from_reader (to_ecf v ++ rest) = Some (ecf_norm v).
Proof.
  intros Hok. unfold ref_from_reader. rewrite ref_decode_value; [done|done|].
  rewrite length_app. pose proof (depth_length v). lia.
Qed.

Lemma ref_ciborium_decodes : @CiboriumDecodes ref_ciborium.
Proof. intros v rest Hok _. by apply ref_from_reader_ecf. Qed.

(** ** Canonicity *)

Lemma encode_float_norm f : encode_float (float_norm f) = encode_float f.
Proof.
  unfold float_norm. destruct (is_nan f) eqn:E; [|done].
  unfold encode_float, try_encode_half. rewrite E.
  assert (is_zero_f64 f = false) as ->; [|done].
  unfold is_nan, is_zero_f64 in *. apply andb_true_iff in E as [E%Z.eqb_eq _]. by rewrite E.
Qed.

Lemma to_ecf_norm v : to_ecf (ecf_norm v) = to_ecf v.
Proof.
  unfold to_ecf. induction v as [i|b|f|s|b| |t v IH|l IH|m IH]; try done.
  - apply encode_float_norm.
  - cbn [encode_value ecf_norm]. rewrite length_map, map_map. f_equal. f_equal.
    apply map_ext_Forall. by rewrite List.Forall_forall, <-Forall_forall in IH || done.
  - change (to_ecf (ecf_norm (VMap m)) = to_ecf (VMap m)).
    rewrite ecf_norm_map_sorted, !encode_map_sorted, !length_map.
    rewrite (length_sort_by key_order), length_map. f_equal. f_equal.
    set (s := sort_by key_order (map keyed m)).
    assert (Hs : Forall (λ e, e.1 = to_ecf e.2.1 ∧ to_ecf (ecf_norm e.2.1) = to_ecf e.2.1
                  ∧ to_ecf (ecf_norm e.2.2) = to_ecf e.2.2) s).
    { unfold s. rewrite sort_by_Permutation. apply Forall_map.
      eapply Forall_impl; [exact IH|]. intros kv [??]. done. }
    set (g := λ e : list Z * (Value * Value), (ecf_norm e.2.1, ecf_norm e.2.2)).
    assert (Hk : map keyed (map (λ kv, (ecf_norm kv.1, ecf_norm kv.2)) (map snd s))
                 = map (λ e, (e.1, g e)) s).
    { rewrite !map_map. apply map_ext_Forall. eapply Forall_impl; [exact Hs|].
      intros e (H1 & H2 & _). unfold keyed, g. cbn [fst snd]. by rewrite H2, <-H1. }
    rewrite Hk, (sort_by_map _ key_order key_order) by done.
    unfold s. rewrite (sort_by_id key_order (sort_by _ _)) by
      (apply sort_by_sorted; [intros x y; apply shortlex_flip
                             | intros x y z; apply shortlex_le_trans]).
    fold s. rewrite !map_map. apply map_ext_Forall. eapply Forall_impl; [exact Hs|].
    intros e (H1 & H2 & H3). unfold g. cbn [fst snd]. by rewrite H2, H3.
Qed.

(** ** Well-formed values of bounded depth *)

Definition good (d : nat) (v : Value) : Prop := value_ok v = true ∧ (depth v ≤ d)%nat.
Definition good_pair (d : nat) (kv : Value * Value) : Prop := good d kv.1 ∧ good d kv.2.

Lemma good_mono d d' v : (d ≤ d')%nat → good d v → good d' v.
Proof. intros Hd [H1 H2]. split; [done|lia]. Qed.

Lemma good_array d l : len_ok l = true → Forall (good d) l → good (S d) (VArray l).
Proof.
  intros Hl H. split; cbn [value_ok depth].
  - rewrite Hl. apply forallb_elem. intros x Hx. rewrite Forall_forall in H. by apply H.
  - apply le_n_S, list_max_le. rewrite List.Forall_forall. intros n (x & <- & Hx)%in_map_iff.
    rewrite Forall_forall in H. apply H. by apply list_elem_of_In.
Qed.

Lemma good_map d m : len_ok m = true → Forall (good_pair d) m → good (S d) (VMap m).
Proof.
  intros Hl H. split; cbn [value_ok depth].
  - rewrite Hl. apply forallb_elem. intros x Hx. rewrite Forall_forall in H.
    destruct (H x Hx) as [[-> _] [-> _]]. done.
  - apply le_n_S, list_max_le. rewrite List.Forall_forall. intros n (x & <- & Hx)%in_map_iff.
    apply list_elem_of_In in Hx. rewrite Forall_forall in H. destruct (H x Hx) as [[_ ?] [_ ?]]. lia.
Qed.

Lemma len_ok_small {A} (l : list A) : (length l ≤ 64)%nat → len_ok l = true.
Proof. intros H. apply Z.leb_le. unfold u64_max. lia. Qed.

(** The bytes of a well-formed value are bytes. *)
Lemma bytes_ok_concat (l : list (list Z)) : Forall bytes_ok l → bytes_ok (concat l).
Proof. induction 1; cbn; [constructor|]. by apply bytes_ok_app. Qed.

Lemma headed_ok {A} m (l : list A) b :
  0 ≤ m < 8 → len_ok l = true → bytes_ok b → bytes_ok (encode_head (Z.shiftl m 5) (Z.of_nat (length l)) ++ b).
Proof. intros Hm Hl Hb. apply bytes_ok_app. split; [|done]. by apply encode_head_ok, len_ok_bound. Qed.

Lemma to_ecf_ok v : value_ok v = true → bytes_ok (to_ecf v).
Proof.
  induction v as [i|b|f|s|b| |t v IH|l IH|m IH]; intros Hok; cbn [value_ok] in Hok;
    repeat match goal with H : _ && _ = true |- _ => apply andb_true_iff in H as [? ?] end.
  - change (bytes_ok (encode_integer i)). rewrite encode_integer_shape by lia.
    case_match; (apply (encode_head_ok 0) || apply (encode_head_ok 1)); unfold u64_max; lia.
  - apply (headed_ok 2); [lia|done|]. by apply (bool_decide_eq_true_1 (bytes_ok b)).
  - apply encode_float_ok.
  - apply (headed_ok 3); [lia|done|]. by apply utf8_valid_bytes.
  - by destruct b; repeat constructor.
  - by repeat constructor.
  - by apply IH.
  - apply (headed_ok 4); [lia|done|]. apply bytes_ok_concat. apply Forall_map, Forall_forall. intros x Hx.
    rewrite Forall_forall in IH. apply IH; [done|]. by apply (proj1 (forallb_elem _ _)) with (x := x) in H0.
  - rewrite encode_map_sorted. apply (headed_ok 5); [lia|done|]. apply bytes_ok_concat, Forall_map.
    rewrite sorted_entries_perm. apply Forall_forall. intros [k v] Hx. rewrite Forall_forall in IH.
    destruct (IH _ Hx) as [Hk Hv]. apply (proj1 (forallb_elem _ _)) with (x := (k, v)) in H0; [|done].
    apply andb_true_iff in H0 as [? ?]. apply bytes_ok_app. split; [by apply Hk|by apply Hv].
Qed.

(** A bound on the length of an encoding. *)
Fixpoint value_size (v : Value) : nat :=
  match v with
  | VTag _ w => value_size w
  | VBytes b => 9 + length b
  | VText s => 9 + length s
  | VArray l => 9 + sum_list_with value_size l
  | VMap m => 9 + sum_list_with (λ kv, value_size kv.1 + value_size kv.2) m
  | _ => 9
  end%nat.

Lemma length_encode_head m n : (length (encode_head m n) ≤ 9)%nat.
Proof. unfold encode_head. repeat case_match; cbn [length]; rewrite ?length_be_bytes; lia. Qed.

Lemma length_concat_le {A} (f : A → list Z) (g : A → nat) l :
  Forall (λ x, (length (f x) ≤ g x)%nat) l → (length (concat (map f l)) ≤ sum_list_with g l)%nat.
Proof. induction 1; cbn; [done|]. rewrite length_app. lia. Qed.

Lemma sum_list_with_perm {A} (g : A → nat) l l' : l ≡ₚ l' → sum_list_with g l = sum_list_with g l'.
Proof. induction 1; cbn; lia. Qed.

Lemma length_to_ecf v : (length (to_ecf v) ≤ value_size v)%nat.
Proof.
  assert (Hh : ∀ m n (l : list Z) k, (length l ≤ k → length (encode_head m n ++ l) ≤ 9 + k)%nat).
  { intros m n l k Hl. rewrite length_app. pose proof (length_encode_head m n). lia. }
  induction v as [i|b|f|s|b| |t v IH|l IH|m IH]; unfold to_ecf; cbn [encode_value value_size]; try done.
  - unfold encode_integer. repeat case_match; apply length_encode_head.
  - apply Hh. lia.
  - unfold encode_float. repeat case_match; cbn [length]; rewrite ?length_be_bytes; lia.
  - apply Hh. lia.
  - destruct b; cbn; lia.
  - cbn. lia.
  - apply Hh, length_concat_le. exact IH.
  - change (length (to_ecf (VMap m)) ≤ 9 + sum_list_with (λ kv, value_size kv.1 + value_size kv.2) m)%nat.
    rewrite encode_map_sorted. apply Hh. etrans; [apply (length_concat_le _ (λ kv, value_size kv.1 + value_size kv.2)%nat)|].
    + rewrite sorted_entries_perm. eapply Forall_impl; [exact IH|]. intros [k v] [Hk Hv]. cbn in *. rewrite length_app. unfold to_ecf in *. lia.
    + by rewrite (sum_list_with_perm _ _ _ (sorted_entries_perm m)).
Qed.

(** * Properties *)

(** C27. ECF is canonical.  Two well-formed values have the same ECF bytes exactly
    when they have the same normal form (tags dropped, NaNs identified, map
    entries in the order of their encoded keys), and a reader of those bytes sees
    that normal form and nothing else. *)
Theorem ecf_canonical v w :
  value_ok v = true → value_ok w = true →
  (to_ecf v = to_ecf w ↔ ecf_norm v = ecf_norm w)
  ∧ ref_from_reader (to_ecf v) = Some (ecf_norm v).
Proof.
  intros Hv Hw. split; [split|].
  - intros E. pose proof (ref_decode_value v (depth v + depth w)%nat [] Hv ltac:(lia)) as Dv.
    pose proof (ref_decode_value w (depth v + depth w)%nat [] Hw ltac:(lia)) as Dw. congruence.
  - intros E. by rewrite <-(to_ecf_norm v), E, to_ecf_norm.
  - rewrite <-(app_nil_r (to_ecf v)). by apply ref_from_reader_ecf.
Qed.

Lemma ecf_canonical_witness :
  let v := VMap [(text (lit "bb"), VNull); (text (lit "a"), VFloat 0)] in
  let w := VMap [(text (lit "a"), VFloat 0); (text (lit "bb"), VTag 1 VNull)] in
  (to_ecf v = to_ecf w ↔ ecf_norm v = ecf_norm w)
  ∧ ref_from_reader (to_ecf v) = Some (ecf_norm v).
Proof. apply ecf_canonical; reflexivity. Defined.

(** C38. The encoder is inverted by the reference RFC 8949 decoder.  Followed by any
    bytes, the encoding of a well-formed value is read back as the value in normal
    form and the decoder stops exactly where the encoding does; as a consequence
    no encoding is a proper prefix of another. *)
Theorem ecf_reference_round_trip v rest :
  value_ok v = true →
  ref_decode (length (to_ecf v ++ rest)) (to_ecf v ++ rest) = Some (ecf_norm v, rest)
  ∧ ∀ w rest', value_ok w = true → to_ecf v ++ rest = to_ecf w ++ rest' →
      to_ecf v = to_ecf w ∧ rest = rest'.
Proof.
  assert (D : ∀ v rest, value_ok v = true →
    ref_decode (length (to_ecf v ++ rest)) (to_ecf v ++ rest) = Some (ecf_norm v, rest)).
  { intros u r Hu. apply ref_decode_value; [done|]. rewrite length_app.
    pose proof (depth_length u). lia. }
  intros Hv. split; [by apply D|]. intros w rest' Hw E.
  pose proof (D v rest Hv) as Dv. rewrite E, (D w rest' Hw) in Dv.
  injection Dv as E1 E2. split; [|done]. by rewrite <-(to_ecf_norm v), <-E1, to_ecf_norm.
Qed.

Lemma ecf_reference_round_trip_witness :
  let v := VMap [(text (lit "k"), VArray [VInteger (-500); VFloat 0x3FF0000000000000])] in
  ref_decode (length (to_ecf v ++ [7])) (to_ecf v ++ [7]) = Some (ecf_norm v, [7])
  ∧ ∀ w rest', value_ok w = true → to_ecf v ++ [7] = to_ecf w ++ rest' →
      to_ecf v = to_ecf w ∧ [7] = rest'.
Proof. apply ecf_reference_round_trip. reflexivity. Defined.
