(* ===== verification/ContentHash.v ===== *)
(** Content hashes ([core/hash/src/lib.rs]).

    A [Hash] is a format code with a digest.  The code keeps the digest in a
    64-byte zero-padded buffer with a length; [Raw] is that representation, and
    [eqb_abs] and [compare_abs] show that the code's [PartialEq] and [Ord] on it
    are equality and order of the ([algorithm], [digest]) pair the rest of the
    development uses.

    SHA-256 and SHA-384 (the crate [sha2]) are the operations of [Sha2], with
    their output shape as the laws [Sha2Ok].  The process-wide home format
    ([DEFAULT_HASH_FORMAT]) is an explicit argument wherever the code reads it. *)
From S2P Require Import Prelude BTree Ecf.

Class Sha2 := { sha256 : list Z → list Z; sha384 : list Z → list Z }.

Class Sha2Ok `{Sha2} : Prop := {
  sha256_length : ∀ m, length (sha256 m) = 32%nat;
  sha384_length : ∀ m, length (sha384 m) = 48%nat;
  sha256_bytes : ∀ m, bytes_ok (sha256 m);
  sha384_bytes : ∀ m, bytes_ok (sha384 m);
}.

(** * Constants *)

Definition HASH_ALGORITHM_SHA256 : Z := 0x00.
Definition HASH_ALGORITHM_SHA384 : Z := 0x01.
Definition HASH_ALGORITHM_RESERVED_FF : Z := 0xFF.
Definition SHA256_DIGEST_LEN : nat := 32.
Definition SHA384_DIGEST_LEN : nat := 48.
Definition HASH_MAX_DIGEST_LEN : nat := 64.

Definition digest_len_for_format (format_code : Z) : option nat :=
  if format_code =? HASH_ALGORITHM_SHA256 then Some SHA256_DIGEST_LEN
  else if format_code =? HASH_ALGORITHM_SHA384 then Some SHA384_DIGEST_LEN
  else None.

Definition format_code_for_string (s : list Z) : option Z :=
  if decide (s = lit "ecfv1-sha256") then Some HASH_ALGORITHM_SHA256
  else if decide (s = lit "ecfv1-sha384") then Some HASH_ALGORITHM_SHA384
  else None.

Definition format_string_for_code (code : Z) : option (list Z) :=
  if code =? HASH_ALGORITHM_SHA256 then Some (lit "ecfv1-sha256")
  else if code =? HASH_ALGORITHM_SHA384 then Some (lit "ecfv1-sha384")
  else None.

(** * The type *)

Record Hash := mkHash { algorithm : Z; digest : list Z }.

#[export] Instance Hash_eq_dec : EqDecision Hash.
Proof. solve_decision. Defined.

#[export] Instance Hash_countable : Countable Hash.
Proof.
  refine (inj_countable' (λ h, (algorithm h, digest h)) (λ p, mkHash p.1 p.2) _).
  by intros [].
Defined.

(** [impl Ord for Hash] *)
Definition hash_cmp (a b : Hash) : comparison :=
  then_with (cmp (algorithm a) (algorithm b)) (cmp (digest a) (digest b)).

Lemma hash_cmp_pair a b :
  hash_cmp a b = cmp (algorithm a, digest a) (algorithm b, digest b).
Proof. done. Qed.

#[export] Program Instance Hash_ord : Ord Hash := {| cmp := hash_cmp |}.
Next Obligation.
  intros [a d] [a' d']. rewrite hash_cmp_pair, cmp_eq. cbn. naive_solver.
Qed.
Next Obligation. intros x y. rewrite !hash_cmp_pair. apply cmp_antisym. Qed.
Next Obligation. intros x y z. rewrite !hash_cmp_pair. apply cmp_lt_trans. Qed.

Inductive HashError :=
  | InvalidLength (expected actual : nat)
  | UnsupportedAlgorithm (code : Z)
  | ReservedFormat (code : Z)
  | HashMismatch (expected actual : Hash)
  | InvalidFormat (reason : string).

(** [Hash::new]: digests longer than the buffer are truncated. *)
Definition hash_new (alg : Z) (d : list Z) : Hash :=
  mkHash alg (take HASH_MAX_DIGEST_LEN d).

Definition format_code (h : Hash) : Z := algorithm h.

Definition is_supported_format (h : Hash) : bool :=
  match digest_len_for_format (algorithm h) with Some _ => true | None => false end.

Definition hash_zero : Hash := hash_new HASH_ALGORITHM_SHA256 (replicate SHA256_DIGEST_LEN 0).

Definition is_zero (h : Hash) : bool :=
  (algorithm h =? HASH_ALGORITHM_SHA256) && forallb (λ b, b =? 0) (digest h).

(** ** The buffer representation *)

Module Raw.
Record t := mk { raw_algorithm : Z; raw_len : nat; raw_digest : list Z }.

(** [buf[..len].copy_from_slice(&digest[..len])] over a zeroed buffer *)
Definition new (alg : Z) (d : list Z) : t :=
  let len := Nat.min (length d) HASH_MAX_DIGEST_LEN in
  mk alg len (take len d ++ replicate (HASH_MAX_DIGEST_LEN - len) 0).

Definition digest_of (h : t) : list Z := take (raw_len h) (raw_digest h).

(** [impl PartialEq for Hash] *)
Definition eqb (a b : t) : bool :=
  (raw_algorithm a =? raw_algorithm b) && bool_decide (digest_of a = digest_of b).

(** [impl Ord for Hash] *)
Definition compare (a b : t) : comparison :=
  then_with (cmp (raw_algorithm a) (raw_algorithm b)) (cmp (digest_of a) (digest_of b)).

Definition abs (h : t) : Hash := mkHash (raw_algorithm h) (digest_of h).

Lemma abs_new alg d : abs (new alg d) = hash_new alg d.
Proof.
  unfold abs, digest_of, hash_new, new. cbn [raw_len raw_digest raw_algorithm]. f_equal.
  rewrite take_app_le by (rewrite length_take; lia). rewrite take_take, Nat.min_id.
  destruct (decide (length d ≤ HASH_MAX_DIGEST_LEN)%nat).
  - rewrite !take_ge by lia. done.
  - f_equal. lia.
Qed.

Lemma eqb_abs a b : eqb a b = bool_decide (abs a = abs b).
Proof.
  unfold eqb, abs. destruct (Z.eqb_spec (raw_algorithm a) (raw_algorithm b)) as [E|E]; simpl.
  - apply bool_decide_ext. split; [intros ->; by rewrite E | by intros [= _ ?]].
  - symmetry. apply bool_decide_eq_false. by intros [= ? _].
Qed.

Lemma compare_abs a b : compare a b = cmp (abs a) (abs b).
Proof. done. Qed.
End Raw.

(** * Computing and validating *)

Definition compute `{Sha2} (entity_type data : list Z) : Hash :=
  hash_new HASH_ALGORITHM_SHA256 (sha256 (ecf_for_hash entity_type data)).

Definition compute_format `{Sha2} (entity_type data : list Z) (format_code : Z)
    : result HashError Hash :=
  let ecf_bytes := ecf_for_hash entity_type data in
  d ← (if format_code =? HASH_ALGORITHM_SHA256 then Ok (sha256 ecf_bytes)
       else if format_code =? HASH_ALGORITHM_SHA384 then Ok (sha384 ecf_bytes)
       else Err (UnsupportedAlgorithm format_code));
  Ok (hash_new format_code d).

Definition hash_validate `{Sha2} (entity_type data : list Z) (claimed : Hash)
    : result HashError unit :=
  actual ← compute_format entity_type data (algorithm claimed);
  if decide (actual = claimed) then Ok tt else Err (HashMismatch claimed actual).

(** * LEB128 varints *)

(** The [while value >= 0x80] loop; five rounds consume a [u32]. *)
Fixpoint push_varint_loop (fuel : nat) (value : Z) : list Z :=
  if value <? 0x80 then [as_u8 value]
  else
    match fuel with
    | O => []
    | S fuel' => Z.lor (as_u8 value) 0x80 :: push_varint_loop fuel' (Z.shiftr value 7)
    end.
Definition push_varint_u32 (value : Z) : list Z := push_varint_loop 5 value.

(** [value |= ((b & 0x7F) as u32) << shift]: the bits shifted out are lost. *)
Fixpoint read_varint_loop (bytes : list Z) (value shift : Z) (consumed : nat)
    : result HashError (Z * nat) :=
  match bytes with
  | [] => Err (InvalidFormat "truncated varint")
  | b :: bytes' =>
      let consumed := S consumed in
      if (28 <=? shift) && negb (Z.land b 0x80 =? 0)
      then Err (InvalidFormat "varint exceeds u32")
      else
        let value := Z.lor value (as_u32 (Z.shiftl (Z.land b 0x7F) shift)) in
        if Z.land b 0x80 =? 0 then Ok (value, consumed)
        else if (5 <=? consumed)%nat then Err (InvalidFormat "varint exceeds 5 bytes")
        else read_varint_loop bytes' value (shift + 7) consumed
  end.
Definition read_varint_u32 (bytes : list Z) : result HashError (Z * nat) :=
  read_varint_loop bytes 0 0 0.

(** * Wire form *)

Definition from_bytes (bytes : list Z) : result HashError Hash :=
  '(format_value, consumed) ← read_varint_u32 bytes;
  if format_value =? HASH_ALGORITHM_RESERVED_FF
  then Err (ReservedFormat HASH_ALGORITHM_RESERVED_FF)
  else
    alg ← (if (0 <=? format_value) && (format_value <=? u8_max) then Ok format_value
           else Err (UnsupportedAlgorithm 0xFE));
    expected ← ok_or (UnsupportedAlgorithm alg) (digest_len_for_format alg);
    let total := (consumed + expected)%nat in
    if decide (length bytes = total)
    then Ok (hash_new alg (take (total - consumed) (drop consumed bytes)))
    else Err (InvalidLength total (length bytes)).

Definition to_bytes (h : Hash) : list Z := push_varint_u32 (algorithm h) ++ digest h.

Definition to_cbor (h : Hash) : list Z :=
  let wire := to_bytes h in
  if (length wire <? 24)%nat
  then Z.lor 0x40 (as_u8 (Z.of_nat (length wire))) :: wire
  else 0x58 :: as_u8 (Z.of_nat (length wire)) :: wire.

Definition from_cbor (cbor : list Z) : result HashError Hash :=
  match cbor with
  | [] => Err (InvalidFormat "empty CBOR for hash")
  | b :: rest =>
      '(content_off, content_len) ←
        (if b =? 0x58 then
           match rest with
           | [] => Err (InvalidFormat "CBOR too short for hash")
           | n :: _ => Ok (2%nat, Z.to_nat n)
           end
         else if (0x40 <=? b) && (b <=? 0x57) then Ok (1%nat, Z.to_nat (b - 0x40))
         else Err (InvalidFormat "expected CBOR bstr header"));
      if decide (length cbor = (content_off + content_len)%nat)
      then from_bytes (drop content_off cbor)
      else Err (InvalidLength (content_off + content_len) (length cbor))
  end.

(** * Hexadecimal and display form *)

(** [format!("{:02x}", b)] *)
Definition hex_digit (n : Z) : Z := if n <? 10 then 48 + n else 87 + n.
Definition hex_byte (b : Z) : list Z := [hex_digit (b / 16); hex_digit (b mod 16)].
Definition hex_str (bytes : list Z) : list Z := concat (map hex_byte bytes).
Definition to_hex (h : Hash) : list Z := hex_str (to_bytes h).

Definition hash_display (h : Hash) : list Z :=
  default (lit "ecfv1-unknown") (format_string_for_code (algorithm h))
  ++ [ch_colon] ++ hex_str (digest h).

Definition hex_value (c : Z) : option Z :=
  if (48 <=? c) && (c <=? 57) then Some (c - 48)
  else if (97 <=? c) && (c <=? 102) then Some (c - 87)
  else if (65 <=? c) && (c <=? 70) then Some (c - 55)
  else None.

(** [u8::from_str_radix(s, 16)] on a string of two bytes: a leading [+] is
    accepted. *)
Definition from_str_radix16 (a c : Z) : option Z :=
  if a =? 43 then hex_value c
  else x ← hex_value a; y ← hex_value c; Some (16 * x + y).

(** [s[i..j]] panics unless [i] and [j] are character boundaries. *)
Definition is_char_boundary (s : list Z) (i : nat) : bool :=
  match s !! i with
  | None => bool_decide (i = length s)
  | Some b => (i =? 0)%nat || negb (utf8_cont b)
  end.

(** The [for i in 0..expected] loop of [from_display]; [None] is a panic. *)
Fixpoint hex_loop (hex : list Z) (i n : nat) : option (result HashError (list Z)) :=
  match n with
  | O => Some (Ok [])
  | S n' =>
      if is_char_boundary hex (i * 2) && is_char_boundary hex (i * 2 + 2) then
        match hex !! (i * 2)%nat, hex !! (i * 2 + 1)%nat with
        | Some a, Some c =>
            match from_str_radix16 a c with
            | None => Some (Err (InvalidFormat "invalid hex"))
            | Some d =>
                r ← hex_loop hex (S i) n';
                Some (ds ← r; Ok (d :: ds))
            end
        | _, _ => None
        end
      else None
  end.

Definition from_display (s : list Z) : option (result HashError Hash) :=
  match find_byte ch_colon s with
  | None => Some (Err (InvalidFormat "expected '<format>:<hex>'"))
  | Some i =>
      let tag := take i s in
      let hex := drop (S i) s in
      match format_code_for_string tag with
      | None => Some (Err (InvalidFormat "unknown format tag"))
      | Some alg =>
          match digest_len_for_format alg with
          | None => Some (Err (UnsupportedAlgorithm alg))
          | Some expected =>
              if decide (length hex = (expected * 2)%nat) then
                r ← hex_loop hex 0 expected;
                Some (d ← r; Ok (hash_new alg d))
              else Some (Err (InvalidFormat "wrong number of hex chars"))
          end
      end
  end.

(** The V7 3.5 invariant signature pointer path. *)
Definition invariant_signature_path (signer_peer_id : list Z) (target : Hash) : list Z :=
  [ch_slash] ++ signer_peer_id ++ lit "/system/signature/" ++ to_hex target.

(** * Well-formed hashes and the round trips *)

Definition hash_ok (h : Hash) : Prop :=
  digest_len_for_format (algorithm h) = Some (length (digest h)) ∧ bytes_ok (digest h).

#[export] Instance hash_ok_dec h : Decision (hash_ok h).
Proof. unfold hash_ok. apply _. Defined.

Lemma digest_len_cases c n :
  digest_len_for_format c = Some n → (c = 0 ∧ n = 32%nat) ∨ (c = 1 ∧ n = 48%nat).
Proof.
  unfold digest_len_for_format.
  destruct (Z.eqb_spec c HASH_ALGORITHM_SHA256); [intros [= <-]; auto|].
  destruct (Z.eqb_spec c HASH_ALGORITHM_SHA384); [intros [= <-]; auto | done].
Qed.

Lemma hash_ok_cases h :
  hash_ok h →
  (algorithm h = 0 ∧ length (digest h) = 32%nat) ∨
  (algorithm h = 1 ∧ length (digest h) = 48%nat).
Proof. intros [H _]. by apply digest_len_cases. Qed.

Lemma hash_new_id a d : (length d ≤ 64)%nat → hash_new a d = mkHash a d.
Proof. intros H. unfold hash_new, HASH_MAX_DIGEST_LEN. by rewrite take_ge. Qed.

Lemma hash_ok_new h : hash_ok h → hash_new (algorithm h) (digest h) = h.
Proof.
  intros H. destruct (hash_ok_cases h H) as [[_ ?]|[_ ?]];
    rewrite hash_new_id by lia; by destruct h.
Qed.

Section sha.
Context `{Sha2Ok}.

Lemma compute_ok ty data : hash_ok (compute ty data).
Proof.
  unfold compute. rewrite hash_new_id by (rewrite sha256_length; lia).
  split; cbn; [by rewrite sha256_length | apply sha256_bytes].
Qed.

Lemma compute_format_ok ty data c h :
  compute_format ty data c = Ok h → hash_ok h ∧ algorithm h = c.
Proof.
  unfold compute_format. intros ?. inv_ok.
  destruct (Z.eqb_spec c HASH_ALGORITHM_SHA256) as [->|]; inv_ok.
  - split; [|done]. rewrite hash_new_id by (rewrite sha256_length; lia).
    split; cbn; [by rewrite sha256_length | apply sha256_bytes].
  - destruct (Z.eqb_spec c HASH_ALGORITHM_SHA384) as [->|]; inv_ok.
    split; [|done]. rewrite hash_new_id by (rewrite sha384_length; lia).
    split; cbn; [by rewrite sha384_length | apply sha384_bytes].
Qed.
End sha.

Lemma compute_format_sha256 `{Sha2} ty data :
  compute_format ty data HASH_ALGORITHM_SHA256 = Ok (compute ty data).
Proof. done. Qed.

Lemma compute_format_supported `{Sha2} ty data c :
  is_ok (compute_format ty data c) = true ↔ digest_len_for_format c ≠ None.
Proof.
  unfold compute_format, digest_len_for_format.
  destruct (c =? _); [done|]. by destruct (c =? _).
Qed.

Lemma hash_validate_Ok `{Sha2} ty data h :
  hash_validate ty data h = Ok tt ↔ compute_format ty data (algorithm h) = Ok h.
Proof.
  unfold hash_validate. destruct (compute_format _ _ _) as [a|e]; simpl; [|done].
  unfold mbind; simpl. case_decide; naive_solver.
Qed.

(** ** Varints *)

Lemma push_varint_loop_small fuel v : 0 ≤ v < 128 → push_varint_loop fuel v = [v].
Proof.
  intros Hv. assert (E : v <? 0x80 = true) by lia.
  destruct fuel; cbn [push_varint_loop]; rewrite E; unfold as_u8;
    by rewrite Z.mod_small by lia.
Qed.

Lemma push_varint_loop_large fuel v : 128 ≤ v →
  push_varint_loop (S fuel) v = Z.lor (as_u8 v) 0x80 :: push_varint_loop fuel (Z.shiftr v 7).
Proof.
  intros Hv. assert (E : v <? 0x80 = false) by lia. cbn [push_varint_loop]. by rewrite E.
Qed.

Lemma land_7f_cont v : Z.land (Z.lor (as_u8 v) 0x80) 0x7F = v mod 128.
Proof.
  apply Z.bits_inj'. intros n Hn. unfold as_u8.
  rewrite Z.land_spec, Z.lor_spec. change (v mod 128) with (v mod 2 ^ 7).
  rewrite !Z.testbit_mod_pow2 by lia.
  change 0x7F with (Z.ones 7). change 0x80 with (2 ^ 7).
  rewrite Z.testbit_ones, Z.pow2_bits_eqb by lia.
  destruct (Z.ltb_spec n 7), (Z.ltb_spec n 8), (Z.leb_spec 0 n), (Z.eqb_spec 7 n);
    try lia; by destruct (Z.testbit v n).
Qed.

Lemma land_80_cont v : Z.land (Z.lor (as_u8 v) 0x80) 0x80 = 0x80.
Proof.
  apply Z.bits_inj'. intros n Hn. rewrite Z.land_spec, Z.lor_spec.
  change 0x80 with (2 ^ 7). rewrite Z.pow2_bits_eqb by lia.
  destruct (Z.eqb_spec 7 n); by rewrite ?orb_true_r, ?andb_false_r.
Qed.

Lemma land_low v m : 0 ≤ v < 128 → Z.land v 0x7F = v ∧ Z.land v (2 ^ (7 + Z.of_nat m)) = 0.
Proof.
  intros Hv. split.
  - change 0x7F with (Z.ones 7). rewrite Z.land_ones by lia. apply Z.mod_small. lia.
  - apply Z.bits_inj'. intros n Hn. rewrite Z.land_spec, Z.bits_0, Z.pow2_bits_eqb by lia.
    destruct (Z.eqb_spec (7 + Z.of_nat m) n); [|by rewrite andb_false_r].
    rewrite andb_true_r. apply (Z.testbit_false); [done|].
    rewrite Z.div_small; [done|]. split; [lia|].
    apply Z.lt_le_trans with (2 ^ 7); [lia | apply Z.pow_le_mono_r; lia].
Qed.

(** Adding a group of seven bits above [shift] bits. *)
Lemma lor_shift_group acc g shift :
  0 ≤ shift → 0 ≤ acc < 2 ^ shift → 0 ≤ g → g * 2 ^ shift < 2 ^ 32 →
  Z.lor acc (as_u32 (Z.shiftl g shift)) = acc + g * 2 ^ shift.
Proof.
  intros Hs Ha Hg Hlt. unfold as_u32. rewrite Z.shiftl_mul_pow2 by lia.
  rewrite Z.mod_small by nia. rewrite Z.lor_comm, lor_shift_add by lia. lia.
Qed.

Lemma read_varint_loop_push fuel v acc n rest :
  0 ≤ v < 2 ^ (7 * (1 + Z.of_nat fuel)) →
  0 ≤ acc < 2 ^ (7 * Z.of_nat n) →
  v * 2 ^ (7 * Z.of_nat n) < 2 ^ 32 →
  (n < 5)%nat →
  read_varint_loop (push_varint_loop fuel v ++ rest) acc (7 * Z.of_nat n) n
  = Ok (acc + v * 2 ^ (7 * Z.of_nat n), (n + length (push_varint_loop fuel v))%nat).
Proof.
  revert v acc n. induction fuel as [|fuel IH]; intros v acc n Hv Ha Hlt Hn.
  - rewrite push_varint_loop_small by lia. cbn [app read_varint_loop].
    destruct (land_low v 0 ltac:(lia)) as [E1 E2]. change (2 ^ (7 + Z.of_nat 0)) with 0x80 in E2.
    rewrite E1, E2. cbn [negb Z.eqb]. rewrite andb_false_r.
    rewrite lor_shift_group by lia. do 3 f_equal. simpl. lia.
  - destruct (Z.lt_ge_cases v 128) as [Hs|Hl].
    { rewrite push_varint_loop_small by lia. cbn [app read_varint_loop].
      destruct (land_low v 0 ltac:(lia)) as [E1 E2]. change (2 ^ (7 + Z.of_nat 0)) with 0x80 in E2.
      rewrite E1, E2. cbn [negb Z.eqb]. rewrite andb_false_r.
      rewrite lor_shift_group by lia. do 3 f_equal. simpl. lia. }
    rewrite push_varint_loop_large by done. cbn [app read_varint_loop].
    rewrite land_7f_cont, land_80_cont. cbn [negb Z.eqb].
    assert (Hp : 0 < 2 ^ (7 * Z.of_nat n)) by (apply Z.pow_pos_nonneg; lia).
    assert (Hn3 : (n < 4)%nat).
    { destruct (decide (n < 4)%nat); [done|]. assert (n = 4)%nat as -> by lia.
      change (2 ^ (7 * Z.of_nat 4)) with 268435456 in Hlt. lia. }
    assert (E : (28 <=? 7 * Z.of_nat n) = false) by lia. rewrite E. cbn [andb].
    assert (E' : (5 <=? S n)%nat = false) by (apply Nat.leb_gt; lia). rewrite E'.
    assert (Hv128 : 0 ≤ v mod 128 < 128) by (apply Z.mod_pos_bound; lia).
    pose proof (Z.div_mod v 128 ltac:(lia)) as Hdm.
    rewrite lor_shift_group by nia.
    assert (E2 : 2 ^ (7 * Z.of_nat (S n)) = 128 * 2 ^ (7 * Z.of_nat n)).
    { rewrite Nat2Z.inj_succ, <-(Z.pow_add_r 2 7) by lia. f_equal. lia. }
    assert (E3 : 2 ^ (7 * (1 + Z.of_nat (S fuel))) = 128 * 2 ^ (7 * (1 + Z.of_nat fuel))).
    { rewrite Nat2Z.inj_succ, <-(Z.pow_add_r 2 7) by lia. f_equal. lia. }
    replace (7 * Z.of_nat n + 7) with (7 * Z.of_nat (S n)) by lia.
    rewrite (Z.shiftr_div_pow2 v 7) by lia. change (2 ^ 7) with 128.
    rewrite IH; rewrite ?E2; [| nia..].
    cbn [length]. f_equal. f_equal; [nia | lia].
Qed.

Lemma read_varint_push v rest :
  0 ≤ v ≤ u32_max →
  read_varint_u32 (push_varint_u32 v ++ rest) = Ok (v, length (push_varint_u32 v)).
Proof.
  intros Hv. unfold u32_max in Hv. unfold read_varint_u32, push_varint_u32.
  pose proof (read_varint_loop_push 5 v 0 0 rest) as H. change (7 * Z.of_nat 0) with 0 in H.
  rewrite H; [f_equal; f_equal; lia | | lia | lia | lia].
  change (2 ^ (7 * (1 + Z.of_nat 5))) with (2 ^ 42). lia.
Qed.

(** The overflow of the fifth byte is lost: this encodes 2^32. *)
Example read_varint_overflow :
  read_varint_u32 [0x80; 0x80; 0x80; 0x80; 0x10] = Ok (0, 5%nat).
Proof. reflexivity. Qed.

(** ** The wire form *)

Lemma to_bytes_shape h : hash_ok h → to_bytes h = algorithm h :: digest h.
Proof.
  intros H. unfold to_bytes. unfold push_varint_u32.
  destruct (hash_ok_cases h H) as [[E _]|[E _]]; rewrite E, push_varint_loop_small by lia; done.
Qed.

Lemma hash_bytes_ok h : hash_ok h → bool_decide (bytes_ok (to_bytes h)) && len_ok (to_bytes h) = true.
Proof.
  intros Hh. pose proof Hh as [_ Hb]. rewrite to_bytes_shape by done. apply andb_true_iff. split.
  - apply bool_decide_eq_true. constructor; [|done]. unfold byte_ok.
    destruct (hash_ok_cases h Hh) as [[-> _]|[-> _]]; lia.
  - unfold len_ok. cbn [length]. by destruct (hash_ok_cases h Hh) as [[_ ->]|[_ ->]].
Qed.

Lemma read_varint_short c d : c = 0 ∨ c = 1 → read_varint_u32 (c :: d) = Ok (c, 1%nat).
Proof. by intros [-> | ->]. Qed.

Lemma from_bytes_short c d n :
  digest_len_for_format c = Some n →
  from_bytes (c :: d) =
    if decide (length d = n) then Ok (hash_new c d)
    else Err (InvalidLength (1 + n) (1 + length d)).
Proof.
  intros Hn. destruct (digest_len_cases c n Hn) as [[-> ->]|[-> ->]];
    unfold from_bytes; rewrite read_varint_short by auto; cbn -[take decide hash_new length].
  all: unfold SHA256_DIGEST_LEN, SHA384_DIGEST_LEN in *.
  all: repeat case_decide; cbn [length] in *; try lia; try done.
  all: by rewrite drop_0, take_ge by lia.
Qed.

Lemma from_bytes_to_bytes h : hash_ok h → from_bytes (to_bytes h) = Ok h.
Proof.
  intros H. rewrite to_bytes_shape by done. rewrite (from_bytes_short _ _ _ (proj1 H)). case_decide; [|done]. f_equal. by apply hash_ok_new.
Qed.

(** Everything [from_bytes] accepts is a well-formed hash. *)
Lemma from_bytes_ok bs h : bytes_ok bs → from_bytes bs = Ok h → hash_ok h.
Proof.
  intros Hbs. unfold from_bytes. intros H. inv_ok. destruct r as [v n]. cbn in H.
  destruct (v =? HASH_ALGORITHM_RESERVED_FF); [done|]. inv_ok.
  destruct ((0 <=? v) && (v <=? u8_max)); inv_ok.
  case_decide as Hl; inv_ok. rename r0 into len.
  assert (Hlen : (len ≤ 64)%nat)
    by (destruct (digest_len_cases _ _ Hr1) as [[_ ->]|[_ ->]]; lia).
  assert (Htl : length (take (n + len - n) (drop n bs)) = len)
    by (rewrite length_take, length_drop; lia).
  rewrite hash_new_id by lia. split; cbn; [by rewrite Htl|].
  apply Forall_take, Forall_drop, Hbs.
Qed.

(** ** CBOR *)

Lemma to_cbor_shape h :
  hash_ok h → to_cbor h = 0x58 :: Z.of_nat (1 + length (digest h)) :: algorithm h :: digest h.
Proof.
  intros H. unfold to_cbor. rewrite to_bytes_shape by done. cbn [length].
  destruct (hash_ok_cases h H) as [[_ E]|[_ E]]; rewrite E; done.
Qed.

Lemma to_cbor_encode h : hash_ok h → to_cbor h = encode_value (VBytes (to_bytes h)).
Proof.
  intros H. rewrite to_cbor_shape, to_bytes_shape by done. cbn [encode_value].
  unfold encode_cbor_bstr, encode_head. cbn [length].
  destruct (hash_ok_cases h H) as [[_ E]|[_ E]]; rewrite E; done.
Qed.

Lemma from_cbor_to_cbor h : hash_ok h → from_cbor (to_cbor h) = Ok h.
Proof.
  intros H. rewrite to_cbor_shape by done. unfold from_cbor.
  cbn -[decide from_bytes length]. rewrite <-(from_bytes_to_bytes h H), to_bytes_shape by done.
  rewrite Nat2Z.id || idtac. case_decide as Hd; [done|]. cbn in Hd. lia.
Qed.

Lemma from_cbor_ok bs h : bytes_ok bs → from_cbor bs = Ok h → hash_ok h.
Proof.
  intros Hbs. unfold from_cbor. destruct bs as [|b rest]; [done|]. intros H. inv_ok.
  destruct r as [off len]. case_decide; [|done]. eapply from_bytes_ok; [|exact H].
  by apply Forall_drop.
Qed.

(** ** The display form *)

Lemma hex_digit_range n : 0 ≤ n < 16 → 48 ≤ hex_digit n ≤ 102 ∧ hex_value (hex_digit n) = Some n.
Proof.
  intros Hn. unfold hex_digit, hex_value. destruct (Z.ltb_spec n 10).
  - rewrite (proj2 (Z.leb_le 48 (48 + n))), (proj2 (Z.leb_le (48 + n) 57)) by lia.
    cbn [andb]. split; [lia | f_equal; lia].
  - rewrite (proj2 (Z.leb_gt (87 + n) 57)) by lia. rewrite andb_false_r.
    rewrite (proj2 (Z.leb_le 97 (87 + n))), (proj2 (Z.leb_le (87 + n) 102)) by lia.
    cbn [andb]. split; [lia | f_equal; lia].
Qed.

Lemma hex_byte_round b : byte_ok b → from_str_radix16 (hex_digit (b / 16)) (hex_digit (b mod 16)) = Some b.
Proof.
  unfold byte_ok. intros Hb.
  destruct (hex_digit_range (b / 16)) as [R1 V1]; [dlia|].
  destruct (hex_digit_range (b mod 16)) as [R2 V2]; [dlia|].
  unfold from_str_radix16. rewrite (proj2 (Z.eqb_neq _ 43)) by lia.
  rewrite V1, V2. simpl. f_equal. dlia.
Qed.

Lemma length_hex_str l : length (hex_str l) = (2 * length l)%nat.
Proof. induction l as [|b l IH]; [done|]. unfold hex_str in *. cbn in *. lia. Qed.

Lemma hex_str_ascii l : bytes_ok l → ascii_ok (hex_str l).
Proof.
  induction 1 as [|b l Hb _ IH]; [constructor|]. unfold byte_ok in Hb.
  unfold hex_str. cbn. destruct (hex_digit_range (b / 16)) as [R1 _]; [dlia|].
  destruct (hex_digit_range (b mod 16)) as [R2 _]; [dlia|].
  repeat constructor; try lia; exact IH.
Qed.

Lemma ascii_char_boundary l i : ascii_ok l → (i ≤ length l)%nat → is_char_boundary l i = true.
Proof.
  intros Hl Hi. unfold is_char_boundary. destruct (l !! i) as [b|] eqn:E.
  - pose proof (Forall_lookup_1 _ _ _ _ Hl E) as Hb. cbn in Hb. unfold utf8_cont.
    rewrite (proj2 (Z.leb_gt 128 b)) by lia. by rewrite orb_true_r.
  - apply lookup_ge_None in E. apply bool_decide_eq_true. lia.
Qed.

Lemma hex_str_lookup pre b l :
  let hex := hex_str (pre ++ b :: l) in
  hex !! (length pre * 2)%nat = Some (hex_digit (b / 16)) ∧
  hex !! (length pre * 2 + 1)%nat = Some (hex_digit (b mod 16)).
Proof.
  cbv zeta. unfold hex_str. rewrite map_app, concat_app.
  change (concat (map hex_byte pre)) with (hex_str pre). pose proof (length_hex_str pre).
  split.
  - rewrite lookup_app_r by lia. replace (_ - _)%nat with 0%nat by lia. done.
  - rewrite lookup_app_r by lia. replace (_ - _)%nat with 1%nat by lia. done.
Qed.

Lemma hex_loop_str pre d :
  bytes_ok (pre ++ d) →
  hex_loop (hex_str (pre ++ d)) (length pre) (length d) = Some (Ok d).
Proof.
  revert pre. induction d as [|b d IH]; intros pre Hok; [done|]. cbn [hex_loop length].
  pose proof (hex_str_ascii _ Hok) as Ha. pose proof (length_hex_str (pre ++ b :: d)) as HL.
  rewrite length_app in HL. cbn [length] in HL.
  rewrite !ascii_char_boundary by (done || lia). cbn [andb].
  destruct (hex_str_lookup pre b d) as [L1 L2]. rewrite L1, L2.
  rewrite hex_byte_round.
  2: { apply bytes_ok_app in Hok as [_ Hok]. by apply Forall_cons in Hok as [? _]. }
  specialize (IH (pre ++ [b])). rewrite <-app_assoc in IH. cbn [app] in IH.
  rewrite length_app in IH. cbn [length] in IH. rewrite Nat.add_1_r in IH.
  by rewrite IH.
Qed.

Lemma format_strings c n :
  digest_len_for_format c = Some n →
  ∃ tag, format_string_for_code c = Some tag ∧ format_code_for_string tag = Some c
         ∧ ch_colon ∉ tag.
Proof.
  intros H. destruct (digest_len_cases c n H) as [[-> _]|[-> _]].
  - exists (lit "ecfv1-sha256"). split_and!; [done..|]. apply find_byte_None. reflexivity.
  - exists (lit "ecfv1-sha384"). split_and!; [done..|]. apply find_byte_None. reflexivity.
Qed.

Lemma from_display_display h : hash_ok h → from_display (hash_display h) = Some (Ok h).
Proof.
  intros Hok. pose proof Hok as [HL Hb]. destruct (format_strings _ _ HL) as (tag & T1 & T2 & T3).
  assert (E : hash_display h = tag ++ ch_colon :: hex_str (digest h))
    by (unfold hash_display; by rewrite T1).
  unfold from_display. rewrite E, find_byte_app, take_app_length by done. cbv zeta.
  rewrite T2, HL.
  rewrite (drop_app_ge _ _ (S _)) by lia. rewrite Nat.sub_succ_l, Nat.sub_diag by lia.
  cbn [drop]. rewrite drop_0.
  case_decide as Hd; [|exfalso; apply Hd; rewrite length_hex_str; lia].
  pose proof (hex_loop_str [] (digest h) Hb) as E'. cbn [app length] in E'. rewrite E'.
  cbn. by rewrite hash_ok_new.
Qed.

(** A checksum with the output shape of SHA-2, to evaluate examples with. *)
Definition checksum (n : nat) (m : list Z) : list Z :=
  map (λ i, foldl (λ acc b, (acc * 31 + b) mod 256) (Z.of_nat i) m) (seq 0 n).

Definition checksum_sha2 : Sha2 := {| sha256 := checksum 32; sha384 := checksum 48 |}.

Lemma foldl_mod_bound m : ∀ acc, byte_ok acc →
  byte_ok (foldl (λ acc b, (acc * 31 + b) mod 256) acc m).
Proof.
  induction m as [|b m IH]; intros acc Ha; cbn [foldl]; [done|]. apply IH.
  apply Z.mod_pos_bound. lia.
Qed.

Lemma checksum_bytes n m : (n ≤ 256)%nat → bytes_ok (checksum n m).
Proof.
  intros Hn. apply Forall_map, List.Forall_forall. intros i [_ Hi]%in_seq.
  apply foldl_mod_bound. unfold byte_ok. lia.
Qed.

Lemma checksum_sha2_ok : @Sha2Ok checksum_sha2.
Proof.
  split; intros m.
  - unfold sha256, checksum_sha2, checksum. by rewrite length_map, length_seq.
  - unfold sha384, checksum_sha2, checksum. by rewrite length_map, length_seq.
  - apply checksum_bytes. lia.
  - apply checksum_bytes. lia.
Qed.

(** * Properties *)

(** Every well-formed hash survives each of its external forms: the binary form
    (varint and digest), the CBOR byte string and the display string are read back
    as the same hash, and a hash read from any bytes is well formed (supported
    format, digest of exactly that format's length). *)
Theorem hash_round_trips h bs h' :
  hash_ok h → bytes_ok bs → from_bytes bs = Ok h' ∨ from_cbor bs = Ok h' →
  from_bytes (to_bytes h) = Ok h ∧ from_cbor (to_cbor h) = Ok h
  ∧ from_display (hash_display h) = Some (Ok h) ∧ hash_ok h'.
Proof.
  intros H Hbs H'. split_and!; [by apply from_bytes_to_bytes | by apply from_cbor_to_cbor |
    by apply from_display_display |].
  destruct H' as [H'|H']; [by eapply from_bytes_ok | by eapply from_cbor_ok].
Qed.

Lemma hash_round_trips_witness :
  let h := mkHash 1 (replicate 48 0xAB) in
  let h' := mkHash 0 (replicate 32 7) in
  from_bytes (to_bytes h) = Ok h ∧ from_cbor (to_cbor h) = Ok h
  ∧ from_display (hash_display h) = Some (Ok h) ∧ hash_ok h'.
Proof.
  apply (hash_round_trips _ (0 :: replicate 32 7)).
  - apply (bool_decide_unpack _). reflexivity.
  - apply (bool_decide_unpack _). reflexivity.
  - left. reflexivity.
Defined.

(** The 64-byte buffer representation of a hash is an implementation of the
    ([algorithm], [digest]) pair: building it denotes the pair (with digests cut at
    64 bytes), and the buffer's equality and order are those of the pairs, so
    distinct paddings never distinguish equal hashes. *)
Theorem hash_buffer_refines a d r1 r2 :
  Raw.abs (Raw.new a d) = hash_new a d
  ∧ Raw.eqb r1 r2 = bool_decide (Raw.abs r1 = Raw.abs r2)
  ∧ Raw.compare r1 r2 = hash_cmp (Raw.abs r1) (Raw.abs r2)
  ∧ (Raw.compare r1 r2 = Eq ↔ Raw.eqb r1 r2 = true).
Proof.
  split_and!; [apply Raw.abs_new | apply Raw.eqb_abs | apply Raw.compare_abs |].
  rewrite Raw.compare_abs, Raw.eqb_abs, bool_decide_eq_true. apply cmp_eq.
Qed.

(** LEB128: every [u32] is written as a varint that is read back, with the
    number of bytes consumed, whatever follows it. *)
Theorem varint_round_trip v rest :
  0 ≤ v ≤ u32_max →
  read_varint_u32 (push_varint_u32 v ++ rest) = Ok (v, length (push_varint_u32 v)).
Proof. apply read_varint_push. Qed.

Lemma varint_round_trip_witness :
  read_varint_u32 (push_varint_u32 u32_max ++ [1]) = Ok (u32_max, length (push_varint_u32 u32_max)).
Proof. apply varint_round_trip. unfold u32_max. lia. Defined.
