(* ===== verification/Paths.v ===== *)
(** Entity URIs and tree paths ([EntityUri] and the segment helpers of
    [core/entity/src/lib.rs]), and the admission of an inbound EXECUTE's handler
    URI ([core/peer/src/connection.rs]), which composes them.

    Paths are UTF-8 byte strings.  Every character the code compares with is
    ASCII, so byte positions are the character boundaries it slices at. *)
From S2P Require Import Prelude.

(** * Constants *)

Definition URI_SCHEME : list Z := lit "entity://".
Definition NEVER_MATCH : list Z := lit "/never-match".

Definition BASE58 : list Z :=
  lit "123456789ABCDEFGHJKLMNPQRSTUVWXYZabcdefghijkmnopqrstuvwxyz".

(** Path refusals: the strings the code returns, without their free text. *)
Inductive PathError :=
  | DirRelative
  | EmptySegment
  | NotAbsolute
  | NotAPeerId (segment : list Z).

(** * [EntityUri] *)

Record EntityUri := mkUri { uri_peer_id : list Z; uri_path : list Z }.

#[export] Instance EntityUri_eq_dec : EqDecision EntityUri.
Proof. solve_decision. Defined.

(** [None] is [EntityError::InvalidUri]. *)
Definition uri_parse (s : list Z) : option EntityUri :=
  rest ← strip_prefix URI_SCHEME s;
  match find_byte ch_slash rest with
  | Some idx => Some (mkUri (take idx rest) (drop (S idx) rest))
  | None => Some (mkUri rest [])
  end.

Definition uri_display (u : EntityUri) : list Z :=
  match uri_path u with
  | [] => URI_SCHEME ++ uri_peer_id u
  | _ => URI_SCHEME ++ uri_peer_id u ++ [ch_slash] ++ uri_path u
  end.

Definition normalize_path (uri : list Z) : list Z :=
  match strip_prefix URI_SCHEME uri with
  | Some rest =>
      match find_byte ch_slash rest with Some idx => drop (S idx) rest | None => [] end
  | None => uri
  end.

Definition extract_handler_path (uri : list Z) : list Z := normalize_path uri.

Definition is_peer_id (segment : list Z) : bool :=
  (length segment =? 46)%nat && forallb (λ b, bool_decide (b ∈ BASE58)) segment.

(** The segment before the first slash. *)
Definition first_segment (p : list Z) : list Z :=
  match find_byte ch_slash p with Some slash => take slash p | None => p end.

Definition extract_peer (uri local_peer_id : list Z) : list Z :=
  let rest :=
    match strip_prefix URI_SCHEME uri with
    | Some rest => rest
    | None => default uri (strip_prefix [ch_slash] uri)
    end in
  let first := first_segment rest in
  if is_peer_id first then first else local_peer_id.

(** The character loop of [clean_path]. *)
Fixpoint collapse (prev_slash : bool) (l : list Z) : list Z :=
  match l with
  | [] => []
  | ch :: l' =>
      if ch =? ch_slash then
        if prev_slash then collapse true l' else ch_slash :: collapse true l'
      else ch :: collapse false l'
  end.

(** [clean_path] calls itself on what follows the scheme, a shorter string. *)
Fixpoint clean_path_fuel (fuel : nat) (input : list Z) : list Z :=
  match strip_prefix URI_SCHEME input with
  | Some rest =>
      match fuel with O => [] | S fuel' => URI_SCHEME ++ clean_path_fuel fuel' rest end
  | None => collapse false input
  end.
Definition clean_path (input : list Z) : list Z := clean_path_fuel (length input) input.

Definition qualify_path (path local_peer_id : list Z) : list Z :=
  match strip_prefix URI_SCHEME path with
  | Some rest => clean_path ([ch_slash] ++ rest)
  | None =>
      if starts_with path (lit "./") || starts_with path (lit "../") then NEVER_MATCH
      else if starts_with path (lit "*/") then NEVER_MATCH
      else if starts_with path [ch_slash] then clean_path path
      else if decide (path = [ch_star]) then [ch_slash] ++ local_peer_id ++ lit "/*"
      else if is_peer_id (first_segment path) then [ch_slash] ++ path
      else [ch_slash] ++ local_peer_id ++ [ch_slash] ++ path
  end.

Definition strip_peer_prefix (path : list Z) : list Z :=
  let p := default path (strip_prefix [ch_slash] path) in
  match find_byte ch_slash p with
  | Some slash => if is_peer_id (take slash p) then drop (S slash) p
                  else if is_peer_id p then [] else path
  | None => if is_peer_id p then [] else path
  end.

Definition is_absolute (path : list Z) : bool := starts_with path [ch_slash].

Definition validate_path_input (path : list Z) : result PathError unit :=
  if starts_with path (lit "./") || bool_decide (path = lit ".") then Err DirRelative
  else if starts_with path (lit "../") || bool_decide (path = lit "..") then Err DirRelative
  else
    let check_part := default path (strip_prefix URI_SCHEME path) in
    if contains_sub (lit "//") check_part then Err EmptySegment else Ok tt.

Definition validate_absolute_path (path : list Z) : result PathError unit :=
  if negb (starts_with path [ch_slash]) then Err NotAbsolute
  else if contains_sub (lit "//") path then Err EmptySegment
  else
    let first := first_segment (drop 1 path) in
    if negb (is_peer_id first) then Err (NotAPeerId first) else Ok tt.

(** The texts of the errors of [validate_absolute_path], which has no first case. *)
Definition absolute_path_error (path : list Z) (e : PathError) : list Z :=
  match e with
  | DirRelative => []
  | NotAbsolute => lit "path is not absolute (no leading /): " ++ path
  | EmptySegment => lit "path contains empty segment (//): " ++ path
  | NotAPeerId segment =>
      lit "first segment is not a valid peer_id: '" ++ segment ++ lit "' (expected Base58, 46 chars)"
  end.

Definition is_reserved_path_word (segment : list Z) : bool :=
  bool_decide (segment = lit "content") || bool_decide (segment = lit "manifest").

Definition is_safe_path_segment (s : list Z) : bool :=
  if bool_decide (s = []) || bool_decide (s = lit ".") || bool_decide (s = lit "..") then false
  else if contains_byte ch_slash s then false
  else negb (existsb (λ b, (b <? 0x20) || (b =? 0x7F)) s).

Definition sanitize_path_segment (s sentinel : list Z) : list Z :=
  if is_safe_path_segment s then s else sentinel.

(** * Admission of an EXECUTE's handler URI

    The steps of [dispatch_request] from the foreign-namespace gate to the
    qualified handler path, with the refusals it answers. *)

Inductive AdmissionError :=
  | ForeignNamespace (target_peer : list Z)
  | InvalidHandlerPath (e : PathError).

Definition admit_handler_uri (uri local_pid : list Z) : result AdmissionError (list Z) :=
  let target_peer := extract_peer uri local_pid in
  if negb (bool_decide (target_peer = local_pid)) then Err (ForeignNamespace target_peer)
  else
    let bare_path := extract_handler_path uri in
    _ ← map_err InvalidHandlerPath (validate_path_input bare_path);
    let handler_path := qualify_path bare_path local_pid in
    _ ← map_err InvalidHandlerPath (validate_absolute_path handler_path);
    Ok handler_path.

(** * Lemmas *)

(** Two adjacent slashes, the first one possibly just before the list. *)
Fixpoint dslash (prev : bool) (l : list Z) : bool :=
  match l with
  | [] => false
  | c :: l' => if c =? ch_slash then prev || dslash true l' else dslash false l'
  end.

Lemma dslash_prev l : dslash true l = starts_with l [ch_slash] || dslash false l.
Proof.
  destruct l as [|c l]; [done|]. cbn [dslash]. unfold starts_with. cbn [strip_prefix].
  destruct (Z.eqb_spec c ch_slash) as [->|Hne]; [by rewrite decide_True by done|].
  by rewrite decide_False by congruence.
Qed.

Lemma contains_dslash l : contains_sub (lit "//") l = dslash false l.
Proof.
  change (lit "//") with [ch_slash; ch_slash].
  induction l as [|c l IH]; [done|]. cbn [contains_sub dslash].
  rewrite IH. unfold starts_with at 1. cbn [strip_prefix].
  destruct (Z.eqb_spec c ch_slash) as [->|Hne].
  - rewrite decide_True by done. by rewrite dslash_prev.
  - by rewrite decide_False by congruence.
Qed.

Lemma collapse_no_dslash b l : dslash b (collapse b l) = false.
Proof.
  revert b. induction l as [|c l IH]; intros b; cbn [collapse]; [done|].
  destruct (Z.eqb_spec c ch_slash) as [->|Hne].
  - destruct b; [apply IH|]. cbn [dslash]. rewrite Z.eqb_refl. apply IH.
  - cbn [dslash]. rewrite (proj2 (Z.eqb_neq c ch_slash) Hne). apply IH.
Qed.

Lemma collapse_id b l : dslash b l = false → collapse b l = l.
Proof.
  revert b. induction l as [|c l IH]; intros b; cbn [collapse dslash]; [done|].
  destruct (Z.eqb_spec c ch_slash) as [->|Hne].
  - intros [-> H]%orb_false_iff. by rewrite IH.
  - intros H. by rewrite IH.
Qed.

Lemma length_collapse b l : (length (collapse b l) ≤ length l)%nat.
Proof.
  revert b. induction l as [|c l IH]; intros b; cbn [collapse]; [done|].
  repeat case_match; cbn [length]; pose proof (IH true); pose proof (IH false); lia.
Qed.

(** Any fuel from the length of the input on gives the result. *)
Lemma clean_path_fuel_enough n m l :
  (length l ≤ n)%nat → (length l ≤ m)%nat → clean_path_fuel n l = clean_path_fuel m l.
Proof.
  revert m l. induction n as [|n IH]; intros m l Hn Hm.
  - assert (l = []) as -> by (by apply nil_length_inv; lia). by destruct m.
  - destruct m; [assert (l = []) as -> by (by apply nil_length_inv; lia); done|].
    cbn [clean_path_fuel]. destruct (strip_prefix URI_SCHEME l) as [r|] eqn:E; [|done].
    f_equal. apply strip_prefix_Some in E. rewrite E, length_app in Hn, Hm.
    change (length URI_SCHEME) with 9%nat in *. apply IH; lia.
Qed.

Lemma clean_path_eq l :
  clean_path l = match strip_prefix URI_SCHEME l with
                 | Some rest => URI_SCHEME ++ clean_path rest
                 | None => collapse false l
                 end.
Proof.
  unfold clean_path at 1. destruct l as [|c l]; [done|]. cbn [clean_path_fuel length].
  destruct (strip_prefix URI_SCHEME (c :: l)) as [r|] eqn:E; [|done].
  f_equal. apply clean_path_fuel_enough; [|done].
  apply strip_prefix_Some in E. assert (H : length (c :: l) = length (URI_SCHEME ++ r)) by congruence.
  rewrite length_app in H. change (length URI_SCHEME) with 9%nat in H. cbn in H. lia.
Qed.

Lemma strip_scheme_slash r : strip_prefix URI_SCHEME (ch_slash :: r) = None.
Proof. done. Qed.

Lemma clean_path_slash r : clean_path (ch_slash :: r) = collapse false (ch_slash :: r).
Proof. by rewrite clean_path_eq, strip_scheme_slash. Qed.

(** [clean_path] is idempotent on every input. *)
Lemma clean_path_idem l : clean_path (clean_path l) = clean_path l.
Proof.
  remember (length l) as n eqn:Hn. revert l Hn.
  induction n as [n IH] using (well_founded_induction lt_wf). intros l ->.
  rewrite (clean_path_eq l). destruct (strip_prefix URI_SCHEME l) as [r|] eqn:E.
  - rewrite clean_path_eq, strip_prefix_app, (IH (length r)); [done| |done].
    apply strip_prefix_Some in E as ->. rewrite length_app.
    change (length URI_SCHEME) with 9%nat. lia.
  - rewrite clean_path_eq.
    destruct (strip_prefix URI_SCHEME (collapse false l)) as [r|] eqn:E2.
    + apply strip_prefix_Some in E2. pose proof (collapse_no_dslash false l) as H.
      rewrite E2 in H. done.
    + apply collapse_id, collapse_no_dslash.
Qed.

Lemma is_peer_id_length s : is_peer_id s = true → length s = 46%nat.
Proof. unfold is_peer_id. intros [H _]%andb_true_iff. by apply Nat.eqb_eq. Qed.

Lemma is_peer_id_chars s c : is_peer_id s = true → c ∈ s → c ∈ BASE58.
Proof.
  unfold is_peer_id. intros [_ H]%andb_true_iff Hc. rewrite forallb_forall in H.
  by apply list_elem_of_In, H, bool_decide_eq_true in Hc.
Qed.

Lemma is_peer_id_not c s : c ∉ BASE58 → is_peer_id s = true → c ∉ s.
Proof. intros Hc Hs H. by eapply Hc, is_peer_id_chars. Qed.

Lemma peer_id_no_slash s : is_peer_id s = true → ch_slash ∉ s.
Proof. apply is_peer_id_not, (bool_decide_unpack _). reflexivity. Qed.

Lemma first_segment_app s r : ch_slash ∉ s → first_segment (s ++ ch_slash :: r) = s.
Proof. intros H. unfold first_segment. by rewrite find_byte_app, take_app_length. Qed.

Lemma first_segment_no_slash p : ch_slash ∉ first_segment p.
Proof.
  unfold first_segment. destruct (find_byte ch_slash p) as [i|] eqn:E.
  - by apply find_byte_Some in E as (_ & ? & _).
  - by apply find_byte_None.
Qed.

Lemma first_segment_whole s : ch_slash ∉ s → first_segment s = s.
Proof. intros H. unfold first_segment. by rewrite (proj2 (find_byte_None _ _) H). Qed.

Lemma dslash_app_no_slash b s r : ch_slash ∉ s → s ≠ [] → dslash b (s ++ r) = dslash false r.
Proof.
  revert b. induction s as [|c s IH]; intros b Hs Hne; [done|]. cbn [app dslash].
  destruct (Z.eqb_spec c ch_slash) as [->|]; [set_solver|].
  destruct s as [|c' s]; [done|]. apply IH; [set_solver | done].
Qed.

Lemma validate_path_input_dslash p :
  validate_path_input p = Ok tt → dslash false (default p (strip_prefix URI_SCHEME p)) = false.
Proof.
  unfold validate_path_input. repeat case_match; try done. intros _.
  by rewrite <-contains_dslash.
Qed.

Lemma collapse_slash r : collapse false (ch_slash :: r) = ch_slash :: collapse true r.
Proof. done. Qed.

Lemma starts_with_slash p : starts_with p [ch_slash] = true ↔ ∃ r, p = ch_slash :: r.
Proof. rewrite starts_with_true. split; intros [r ->]; by exists r. Qed.

(** An absolute path without empty segments is a fixed point. *)
Lemma qualify_path_fixed q local :
  is_absolute q = true → dslash false q = false → qualify_path q local = q.
Proof.
  unfold is_absolute. intros [r ->]%starts_with_slash H. unfold qualify_path.
  rewrite strip_scheme_slash. change (starts_with (ch_slash :: r) [ch_slash]) with true.
  change (starts_with (ch_slash :: r) (lit "./")) with false.
  change (starts_with (ch_slash :: r) (lit "../")) with false.
  change (starts_with (ch_slash :: r) (lit "*/")) with false. cbn [orb].
  rewrite clean_path_slash. by apply collapse_id.
Qed.

Lemma dslash_cons_slash p : starts_with p [ch_slash] = false → dslash false p = false →
  dslash false (ch_slash :: p) = false.
Proof. intros H1 H2. cbn [dslash]. by rewrite Z.eqb_refl, dslash_prev, H1, H2. Qed.

Lemma dslash_local local p :
  is_peer_id local = true → starts_with p [ch_slash] = false → dslash false p = false →
  dslash false (ch_slash :: local ++ ch_slash :: p) = false.
Proof.
  intros Hl H1 H2. cbn [dslash]. rewrite Z.eqb_refl. cbn [orb].
  rewrite dslash_app_no_slash; [by apply dslash_cons_slash | by apply peer_id_no_slash|].
  intros ->. done.
Qed.

Lemma qualify_path_shape p local :
  is_peer_id local = true → validate_path_input p = Ok tt →
  is_absolute (qualify_path p local) = true ∧ dslash false (qualify_path p local) = false.
Proof.
  intros Hl Hv%validate_path_input_dslash. unfold qualify_path.
  destruct (strip_prefix URI_SCHEME p) as [r|] eqn:E; cbn [default] in Hv.
  { cbn [app]. rewrite clean_path_slash. split; [done | apply collapse_no_dslash]. }
  destruct (starts_with p (lit "./") || starts_with p (lit "../")); [done|].
  destruct (starts_with p (lit "*/")); [done|].
  destruct (starts_with p [ch_slash]) eqn:Es.
  { apply starts_with_slash in Es as [r ->]. rewrite clean_path_slash.
    split; [done | apply collapse_no_dslash]. }
  case_decide; [split; [done | by apply dslash_local] |].
  destruct (is_peer_id (first_segment p)).
  - split; [done | by apply dslash_cons_slash].
  - split; [done | by apply dslash_local].
Qed.

(** A relative path lands in the namespace of the peer it addresses. *)
Lemma qualify_path_relative p local :
  is_peer_id local = true → strip_prefix URI_SCHEME p = None →
  starts_with p [ch_slash] = false → starts_with p (lit "*/") = false →
  starts_with p (lit "./") = false → starts_with p (lit "../") = false →
  first_segment (drop 1 (qualify_path p local)) = extract_peer p local.
Proof.
  intros Hl E Es H1 H2 H3. unfold qualify_path, extract_peer. rewrite E, H1, H2, H3, Es. cbn [orb].
  assert (strip_prefix [ch_slash] p = None) as ->.
  { apply strip_prefix_None. by apply starts_with_false. }
  cbn [default]. pose proof (peer_id_no_slash local Hl) as Hns. case_decide as Hp.
  - subst p. cbn [app drop]. by apply first_segment_app.
  - destruct (is_peer_id (first_segment p)) eqn:Ep.
    + by cbn [app drop]; rewrite drop_0.
    + cbn [app drop]. rewrite drop_0. by apply first_segment_app.
Qed.

Lemma validate_absolute_path_Ok q :
  validate_absolute_path q = Ok tt ↔
  is_absolute q = true ∧ dslash false q = false ∧ is_peer_id (first_segment (drop 1 q)) = true.
Proof.
  unfold validate_absolute_path, is_absolute. rewrite contains_dslash.
  destruct (starts_with q [ch_slash]), (dslash false q), (is_peer_id _); cbn; naive_solver.
Qed.

(** What an absolute path addresses is its first segment. *)
Lemma extract_peer_absolute q local :
  is_absolute q = true → is_peer_id (first_segment (drop 1 q)) = true →
  extract_peer q local = first_segment (drop 1 q).
Proof.
  unfold is_absolute. intros [r ->]%starts_with_slash. cbn [drop]. rewrite drop_0. intros H.
  unfold extract_peer. rewrite strip_scheme_slash.
  change (default (ch_slash :: r) (strip_prefix [ch_slash] (ch_slash :: r))) with r.
  by rewrite H.
Qed.

Lemma validate_path_input_dirs p :
  validate_path_input p = Ok tt →
  starts_with p (lit "./") = false ∧ starts_with p (lit "../") = false.
Proof.
  unfold validate_path_input.
  destruct (starts_with p (lit "./")), (starts_with p (lit "../")); try done; by case_match.
Qed.

(** Of the paths the boundary admits, the ambiguous [*/] form is refused after
    qualification and the other relative ones go where they point. *)
Lemma qualify_path_canonical_star p local :
  is_peer_id local = true → validate_path_input p = Ok tt →
  is_ok (validate_absolute_path (qualify_path p local)) = false
  ∨ (strip_prefix URI_SCHEME p = None → starts_with p [ch_slash] = false →
     first_segment (drop 1 (qualify_path p local)) = extract_peer p local).
Proof.
  intros Hl Hv. destruct (starts_with p (lit "*/")) eqn:Hs.
  - left. apply starts_with_true in Hs as [r ->]. done.
  - right. intros E Es. destruct (validate_path_input_dirs p Hv).
    by apply qualify_path_relative.
Qed.

(** * Properties *)

(** Qualification is canonical.  For a path the boundary admits, the qualified
    path is absolute, has no empty segment, is a fixed point of qualification for
    any local peer, is never accepted when it stands for an ambiguous [*/] path,
    and a relative path lands in the namespace of the peer it addresses. *)
Theorem qualify_path_canonical p local :
  is_peer_id local = true → validate_path_input p = Ok tt →
  let q := qualify_path p local in
  is_absolute q = true ∧ contains_sub (lit "//") q = false
  ∧ (∀ local', qualify_path q local' = q)
  ∧ (starts_with p (lit "*/") = true → is_ok (validate_absolute_path q) = false)
  ∧ (strip_prefix URI_SCHEME p = None → starts_with p [ch_slash] = false →
     starts_with p (lit "*/") = false → first_segment (drop 1 q) = extract_peer p local).
Proof.
  intros Hl Hv. cbv zeta. destruct (qualify_path_shape p local Hl Hv) as [H1 H2].
  split_and!.
  - done.
  - by rewrite contains_dslash.
  - intros local'. by apply qualify_path_fixed.
  - intros Hs. apply starts_with_true in Hs as [r ->]. done.
  - intros E Es Hs. destruct (validate_path_input_dirs p Hv). by apply qualify_path_relative.
Qed.

Definition sample_peer (c : string) : list Z := lit "1" ++ concat (replicate 45 (lit c)).

Lemma qualify_path_canonical_witness :
  let local := sample_peer "a" in
  let q := qualify_path (lit "system/tree") local in
  is_absolute q = true ∧ contains_sub (lit "//") q = false
  ∧ (∀ local', qualify_path q local' = q)
  ∧ (starts_with (lit "system/tree") (lit "*/") = true → is_ok (validate_absolute_path q) = false)
  ∧ (strip_prefix URI_SCHEME (lit "system/tree") = None →
     starts_with (lit "system/tree") [ch_slash] = false →
     starts_with (lit "system/tree") (lit "*/") = false →
     first_segment (drop 1 q) = extract_peer (lit "system/tree") local).
Proof. apply qualify_path_canonical; vm_compute; reflexivity. Defined.

(** cleaning a path is total and idempotent, any fuel from the input's length on
    gives its result, it never lengthens its input, and outside the scheme no empty
    segment is left. *)
Theorem clean_path_spec l n :
  (length l ≤ n)%nat →
  clean_path_fuel n l = clean_path l
  ∧ clean_path (clean_path l) = clean_path l
  ∧ (length (clean_path l) ≤ length l)%nat
  ∧ (strip_prefix URI_SCHEME l = None → contains_sub (lit "//") (clean_path l) = false).
Proof.
  intros Hn. split_and!.
  - by apply clean_path_fuel_enough.
  - apply clean_path_idem.
  - clear n Hn. remember (length l) as n eqn:Hn. revert l Hn.
    induction n as [n IH] using (well_founded_induction lt_wf). intros l ->.
    rewrite clean_path_eq. destruct (strip_prefix URI_SCHEME l) as [r|] eqn:E;
      [|apply length_collapse].
    apply strip_prefix_Some in E as ->. rewrite !length_app.
    change (length URI_SCHEME) with 9%nat in *.
    pose proof (IH (length r) ltac:(rewrite length_app; change (length URI_SCHEME) with 9%nat; lia) r eq_refl). lia.
  - intros E. rewrite clean_path_eq, E, contains_dslash. apply collapse_no_dslash.
Qed.

Lemma clean_path_spec_witness :
  let l := lit "entity://a//b" in
  clean_path_fuel 13 l = clean_path l
  ∧ clean_path (clean_path l) = clean_path l
  ∧ (length (clean_path l) ≤ length l)%nat
  ∧ (strip_prefix URI_SCHEME l = None → contains_sub (lit "//") (clean_path l) = false).
Proof. apply clean_path_spec. vm_compute. lia. Defined.

(** The foreign-namespace gate.  A handler path admitted for dispatch is valid
    and absolute; when the URI has no authority, or when what follows its authority
    names no other peer, the path lies in the local peer's namespace, and a URI
    whose first segment is another peer is refused with that peer's name. *)
Theorem handler_admission_local uri local :
  is_peer_id local = true →
  (∀ target, extract_peer uri local = target → target ≠ local →
     admit_handler_uri uri local = Err (ForeignNamespace target))
  ∧ ∀ hp, admit_handler_uri uri local = Ok hp →
      is_ok (validate_absolute_path hp) = true
      ∧ ((strip_prefix URI_SCHEME uri = None
          ∨ strip_prefix URI_SCHEME (normalize_path uri) = None
            ∧ extract_peer (normalize_path uri) local = local) →
         first_segment (drop 1 hp) = local).
Proof.
  intros Hl. unfold admit_handler_uri. split.
  { intros target <- Hne. by rewrite bool_decide_eq_false_2. }
  intros hp. case_bool_decide as Hep; cbn [negb]; [|done]. unfold extract_handler_path.
  set (bare := normalize_path uri).
  destruct (validate_path_input bare) as [[]|] eqn:Hv; cbn; [|done].
  destruct (validate_absolute_path (qualify_path bare local)) as [[]|] eqn:Ha; cbn; [|done].
  intros [= <-]. split; [by rewrite Ha|]. intros Hcase.
  assert (Hb : strip_prefix URI_SCHEME bare = None ∧ extract_peer bare local = local).
  { destruct Hcase as [E|[? ?]]; [|done]. unfold bare, normalize_path. by rewrite E. }
  clear Hcase. destruct Hb as [E Hb].
  destruct (starts_with bare [ch_slash]) eqn:Es.
  - assert (Hd : dslash false bare = false).
    { apply validate_path_input_dslash in Hv. by rewrite E in Hv. }
    rewrite qualify_path_fixed in Ha |- * by done.
    apply validate_absolute_path_Ok in Ha as (A1 & _ & A2).
    by rewrite <-(extract_peer_absolute bare local).
  - destruct (qualify_path_canonical_star bare local Hl Hv) as [Hs|Hs]; [by rewrite Ha in Hs|].
    by rewrite <-Hb at 2; apply Hs.
Qed.

Lemma handler_admission_local_witness :
  let local := sample_peer "a" in
  let uri := URI_SCHEME ++ local ++ lit "/system/tree" in
  (∀ target, extract_peer uri local = target → target ≠ local →
     admit_handler_uri uri local = Err (ForeignNamespace target))
  ∧ ∀ hp, admit_handler_uri uri local = Ok hp →
      is_ok (validate_absolute_path hp) = true
      ∧ ((strip_prefix URI_SCHEME uri = None
          ∨ strip_prefix URI_SCHEME (normalize_path uri) = None
            ∧ extract_peer (normalize_path uri) local = local) →
         first_segment (drop 1 hp) = local).
Proof. apply handler_admission_local. vm_compute. reflexivity. Defined.

(** The gate reads the authority alone: what follows it may name another peer, and
    the handler path is then in that peer's namespace. *)
Theorem handler_admission_gap :
  let local := sample_peer "a" in
  let foreign := sample_peer "b" in
  admit_handler_uri (URI_SCHEME ++ lit "/" ++ foreign ++ lit "/system/tree") local
    = Ok ([ch_slash] ++ foreign ++ lit "/system/tree")
  ∧ admit_handler_uri (URI_SCHEME ++ local ++ lit "/" ++ foreign ++ lit "/system/tree") local
    = Ok ([ch_slash] ++ foreign ++ lit "/system/tree").
Proof. split; vm_compute; reflexivity. Qed.

(** Display and parse are inverse on the URIs a parse returns. *)
Lemma uri_parse_display s u : uri_parse s = Some u → uri_parse (uri_display u) = Some u.
Proof.
  unfold uri_parse. destruct (strip_prefix URI_SCHEME s) as [rest|] eqn:E; [|done]. cbn.
  destruct (find_byte ch_slash rest) as [i|] eqn:Ei; intros [= <-]; unfold uri_display; cbn [uri_path uri_peer_id].
  - destruct (find_byte_Some _ _ _ Ei) as (_ & Hn & _).
    destruct (drop (S i) rest) as [|c r] eqn:Er.
    + rewrite strip_prefix_app. cbn. by rewrite (proj2 (find_byte_None _ _) Hn).
    + rewrite strip_prefix_app. cbn. rewrite find_byte_app by done.
      rewrite take_app_length, (drop_app_ge _ _ (S _)) by lia.
      rewrite Nat.sub_succ_l, Nat.sub_diag by lia. done.
  - rewrite strip_prefix_app. cbn. by rewrite Ei.
Qed.

(** A value that passes is one segment: it is kept, and it cannot introduce a
    separator or a dot segment; every other value becomes the sentinel. *)
Lemma sanitize_path_segment_safe s sentinel :
  is_safe_path_segment sentinel = true →
  let r := sanitize_path_segment s sentinel in
  is_safe_path_segment r = true ∧ ch_slash ∉ r ∧ r ≠ [] ∧ r ≠ lit "." ∧ r ≠ lit "..".
Proof.
  intros Hs. assert (Hr : is_safe_path_segment (sanitize_path_segment s sentinel) = true).
  { unfold sanitize_path_segment. by destruct (is_safe_path_segment s) eqn:E. }
  cbv zeta. split; [done|]. revert Hr. generalize (sanitize_path_segment s sentinel) as r.
  intros r. unfold is_safe_path_segment.
  destruct (bool_decide_reflect (r = [])); [done|].
  destruct (bool_decide_reflect (r = lit ".")); [done|].
  destruct (bool_decide_reflect (r = lit "..")); [done|]. cbn [orb].
  destruct (contains_byte ch_slash r) eqn:Ec; [done|]. intros _.
  by apply contains_byte_false in Ec.
Qed.
