(* ===== verification/Entity.v ===== *)
(** Entities and envelopes ([core/entity/src/lib.rs]).

    An entity is [{type, data}] with its content hash; an envelope carries a root
    entity and a map of included entities keyed by content hash.  The process-wide
    home format that [Entity::new] reads is the argument [home].  Reading a
    signature entity's data goes through [ciborium], the parameter of Cbor.v. *)
From S2P Require Import Prelude BTree Ecf Cbor ContentHash.

(** * Entities *)

Definition TYPE_SIGNATURE : list Z := lit "system/signature".
Definition TYPE_PEER : list Z := lit "system/peer".
Definition TYPE_DELETION_MARKER : list Z := lit "system/deletion-marker".

Record Entity := mkEntity {
  entity_type : list Z;
  data : list Z;
  content_hash : Hash;
}.

#[export] Instance Entity_eq_dec : EqDecision Entity.
Proof. solve_decision. Defined.

Inductive EntityError :=
  | InvalidType
  | EntityHashMismatch (expected actual : Hash)
  | MissingField (field : string)
  | InvalidUri.

(** [impl PartialEq for Entity] *)
Definition entity_eqb (a b : Entity) : bool := bool_decide (content_hash a = content_hash b).

Definition new_with_format `{Sha2} (ty : list Z) (d : list Z) (format_code : Z)
    : result EntityError Entity :=
  if bool_decide (ty = []) then Err InvalidType
  else if bool_decide (d = []) then Err (MissingField "data")
  else if bool_decide (ty = TYPE_PEER) && negb (format_code =? HASH_ALGORITHM_SHA256)
  then Err InvalidType
  else
    h ← map_err (λ _, InvalidType) (compute_format ty d format_code);
    Ok (mkEntity ty d h).

Definition entity_new `{Sha2} (home : Z) (ty d : list Z) : result EntityError Entity :=
  new_with_format ty d home.

Definition entity_validate `{Sha2} (e : Entity) : result EntityError unit :=
  map_err (λ err, match err with
                  | HashMismatch expected actual => EntityHashMismatch expected actual
                  | _ => InvalidType
                  end)
    (hash_validate (entity_type e) (data e) (content_hash e)).

(** The [expect] panics on an error; [None] is that panic. *)
Definition canonical_deletion_marker_entity `{Sha2} (home : Z) : option Entity :=
  ok (entity_new home TYPE_DELETION_MARKER [0xA0]).

Definition canonical_deletion_marker_hash `{Sha2} (home : Z) : option Hash :=
  content_hash <$> canonical_deletion_marker_entity home.

(** * Signature lookup *)

(** The (target, signer) fields of a signature: a later occurrence of a key
    overrides, and clears when it is not a hash. *)
Definition sig_field (v : Value) : option Hash := b ← as_bytes v; ok (from_bytes b).

Definition sig_step (acc : option Hash * option Hash) (kv : Value * Value)
    : option Hash * option Hash :=
  match as_str kv.1 with
  | Some k =>
      if decide (k = lit "target") then (sig_field kv.2, acc.2)
      else if decide (k = lit "signer") then (acc.1, sig_field kv.2)
      else acc
  | None => acc
  end.

Definition decode_sig_target_signer `{Ciborium} (d : list Z) : option (Hash * Hash) :=
  value ← from_reader d;
  entries ← as_map value;
  let '(target, signer) := foldl sig_step (None, None) entries in
  t ← target;
  s ← signer;
  Some (t, s).

Definition signs_target `{Ciborium} (target : Hash) (e : Entity) : bool :=
  bool_decide (entity_type e = TYPE_SIGNATURE)
  && match decode_sig_target_signer (data e) with
     | Some (t, _) => bool_decide (t = target)
     | None => false
     end.

Definition signs_target_by `{Ciborium} (target signer : Hash) (e : Entity) : bool :=
  bool_decide (entity_type e = TYPE_SIGNATURE)
  && match decode_sig_target_signer (data e) with
     | Some (t, s) => bool_decide (t = target) && bool_decide (s = signer)
     | None => false
     end.

(** The [for entity in entities] loops with their early return. *)
Fixpoint find_first {A} (p : A → bool) (l : list A) : option A :=
  match l with [] => None | x :: l' => if p x then Some x else find_first p l' end.

Definition find_signature_for_target `{Ciborium} (entities : list Entity) (target : Hash)
    : option Entity := find_first (signs_target target) entities.

Definition find_signature_by_signer `{Ciborium} (entities : list Entity) (target signer : Hash)
    : option Entity := find_first (signs_target_by target signer) entities.

(** * Envelopes *)

Record Envelope := mkEnvelope { root : Entity; included : list (Hash * Entity) }.

Definition envelope_new (r : Entity) : Envelope := mkEnvelope r [].
Definition with_included (r : Entity) (inc : list (Hash * Entity)) : Envelope := mkEnvelope r inc.

(** The key [include] files an entity under. *)
Definition include_key `{Sha2} (e : Entity) : Hash :=
  match compute_format (entity_type e) (data e) (format_code (content_hash e)) with
  | Ok h => h
  | Err _ => content_hash e
  end.

Definition include `{Sha2} (env : Envelope) (e : Entity) : Envelope :=
  mkEnvelope (root env) (bt_insert (include_key e) e (included env)).

Definition find_included (env : Envelope) (h : Hash) : option Entity := bt_get h (included env).

Definition find_signature_for `{Ciborium} (env : Envelope) (target : Hash) : option Entity :=
  find_signature_for_target (map snd (included env)) target.

Definition validate_all `{Sha2} (env : Envelope) : result EntityError unit :=
  _ ← entity_validate (root env);
  foldM (λ _ e, entity_validate e) tt (map snd (included env)).

(** * Lemmas *)

Lemma find_first_Some {A} (p : A → bool) l x :
  find_first p l = Some x ↔
  ∃ l1 l2, l = l1 ++ x :: l2 ∧ p x = true ∧ Forall (λ y, p y = false) l1.
Proof.
  induction l as [|y l IH]; cbn.
  - split; [done|]. by intros ([|] & l2 & E & _).
  - destruct (p y) eqn:E.
    + split.
      * intros [= ->]. by exists [], l.
      * intros ([|z l1] & l2 & [= -> ->] & Hx & Hl); [done|].
        apply Forall_cons in Hl as [Hz _]. congruence.
    + rewrite IH. split.
      * intros (l1 & l2 & -> & Hx & Hl). exists (y :: l1), l2. by repeat constructor.
      * intros ([|z l1] & l2 & [= -> ->] & Hx & Hl); [congruence|].
        apply Forall_cons in Hl as [_ Hl]. by exists l1, l2.
Qed.

Lemma find_first_None {A} (p : A → bool) l :
  find_first p l = None ↔ Forall (λ y, p y = false) l.
Proof.
  induction l as [|y l IH]; cbn; [split; [constructor | done]|].
  rewrite Forall_cons. destruct (p y) eqn:E; [naive_solver|]. rewrite IH. naive_solver.
Qed.

Lemma foldM_unit {E A} (f : A → result E unit) l :
  foldM (λ _ x, f x) tt l = Ok tt ↔ Forall (λ x, f x = Ok tt) l.
Proof.
  induction l as [|x l IH]; cbn; [split; [constructor | done]|].
  rewrite Forall_cons, <-IH. destruct (f x) as [[]|e]; unfold mbind; cbn; naive_solver.
Qed.

(** A valid entity's content hash is the digest of its content under the format the
    hash names. *)
Lemma entity_validate_Ok `{Sha2} e :
  entity_validate e = Ok tt ↔
  compute_format (entity_type e) (data e) (algorithm (content_hash e)) = Ok (content_hash e).
Proof.
  rewrite <-hash_validate_Ok. unfold entity_validate.
  destruct (hash_validate _ _ _) as [[]|[]]; cbn; naive_solver.
Qed.

Definition constructible (ty d : list Z) (fmt : Z) : bool :=
  negb (bool_decide (ty = [])) && negb (bool_decide (d = []))
  && (negb (bool_decide (ty = TYPE_PEER)) || (fmt =? HASH_ALGORITHM_SHA256))
  && match digest_len_for_format fmt with Some _ => true | None => false end.

Lemma new_with_format_Ok `{Sha2} ty d fmt e :
  new_with_format ty d fmt = Ok e ↔
  constructible ty d fmt = true ∧ compute_format ty d fmt = Ok (content_hash e)
  ∧ entity_type e = ty ∧ data e = d.
Proof.
  unfold new_with_format, constructible.
  assert (match digest_len_for_format fmt with Some _ => true | None => false end
          = is_ok (compute_format ty d fmt)) as ->.
  { pose proof (compute_format_supported ty d fmt) as Hs.
    destruct (digest_len_for_format fmt), (is_ok _); try done; exfalso; naive_solver. }
  destruct (bool_decide (ty = [])), (bool_decide (d = [])),
    (bool_decide (ty = TYPE_PEER)), (fmt =? HASH_ALGORITHM_SHA256); cbn;
    try (split; [done | by intros [? _]]);
    destruct (compute_format ty d fmt) as [h|err], e; unfold mbind; cbn;
    try (split; [done | by intros [? _]]);
    (split; [intros [= <- <- <-]; done | intros (_ & [= ->] & -> & ->); done]).
Qed.

Lemma new_with_format_err `{Sha2} ty d fmt :
  constructible ty d fmt = false → is_ok (new_with_format ty d fmt) = false.
Proof.
  intros Hc. destruct (new_with_format ty d fmt) as [e|] eqn:E; [|done].
  apply new_with_format_Ok in E as [Hc' _]. congruence.
Qed.

(** What the code builds by encoding a value is an entity under every supported format. *)
Lemma entity_new_encoded `{Sha2Ok} home ty v :
  digest_len_for_format home ≠ None → ty ≠ [] → ty ≠ TYPE_PEER →
  ∃ e, entity_new home ty (to_ecf v) = Ok e ∧ entity_type e = ty ∧ data e = to_ecf v
    ∧ hash_ok (content_hash e) ∧ algorithm (content_hash e) = home.
Proof.
  intros Hhome Hne Hpeer.
  assert (Hok : is_ok (entity_new home ty (to_ecf v)) = true).
  { unfold entity_new, new_with_format.
    rewrite (bool_decide_eq_false_2 (ty = [])), (bool_decide_eq_false_2 (to_ecf v = [])), (bool_decide_eq_false_2 (ty = TYPE_PEER))
      by (done || apply encode_value_ne).
    apply (compute_format_supported ty (to_ecf v)) in Hhome. by destruct (compute_format _ _ _). }
  destruct (entity_new home ty (to_ecf v)) as [e|] eqn:E; [|done]. exists e.
  apply new_with_format_Ok in E as (_ & Hc & Ht & Hd). apply compute_format_ok in Hc as [? ?]. done.
Qed.

(** The included map is content-addressed: each entry is filed under the digest of
    its content (or under its own stamp when its format cannot be computed). *)
Definition env_keyed `{Sha2} (env : Envelope) : Prop :=
  bt_ok (included env) ∧ Forall (λ p, p.1 = include_key p.2) (included env).

Lemma include_keyed `{Sha2} env e : env_keyed env → env_keyed (include env e).
Proof.
  intros [Hok Hk]. split; [by apply bt_insert_ok | by apply bt_insert_Forall].
Qed.

Lemma envelope_new_keyed `{Sha2} r : env_keyed (envelope_new r).
Proof. split; constructor. Qed.

(** A valid entity is filed under its own content hash. *)
Lemma include_key_valid `{Sha2} e : entity_validate e = Ok tt → include_key e = content_hash e.
Proof. intros Hv%entity_validate_Ok. unfold include_key, format_code. by rewrite Hv. Qed.

Lemma included_values env e :
  bt_ok (included env) → e ∈ map snd (included env) ↔ ∃ h, find_included env h = Some e.
Proof.
  intros Hok. change (map snd (included env)) with (snd <$> included env).
  rewrite list_elem_of_fmap. split.
  - intros ([h e'] & -> & Hin). exists h. by apply bt_get_elem.
  - intros (h & Hin%bt_get_elem); [|done]. by exists (h, e).
Qed.

Lemma validate_all_Ok `{Sha2} env :
  bt_ok (included env) →
  validate_all env = Ok tt ↔
  entity_validate (root env) = Ok tt
  ∧ ∀ h e, find_included env h = Some e → entity_validate e = Ok tt.
Proof.
  intros Hok. unfold validate_all.
  destruct (entity_validate (root env)) as [[]|err]; cbn; [|by split; [|intros []]].
  rewrite foldM_unit, Forall_forall. split.
  - intros Hall. split; [done|]. intros h e He. apply Hall, included_values; eauto.
  - intros [_ Hall] e (h & He)%included_values; [|done]. eauto.
Qed.

(** The first match of a scan over the values is the one with the least key. *)
Lemma find_first_included (p : Entity → bool) env s :
  bt_ok (included env) → find_first p (map snd (included env)) = Some s →
  ∃ h, find_included env h = Some s
       ∧ ∀ h' s', find_included env h' = Some s' → p s' = true → hash_cmp h h' ≠ Gt.
Proof.
  unfold find_included. generalize (included env) as m. intros m Hok Hs.
  assert (Hm : ∃ h, (h, s) ∈ m ∧ ∀ h' s', (h', s') ∈ m → p s' = true → cmp h h' ≠ Gt).
  { induction m as [|[k e] m IH]; cbn in Hs; [done|].
    apply bt_ok_cons in Hok as [Hall Hok]. destruct (p e) eqn:Ep.
    - injection Hs as ->. exists k. split; [set_solver|]. intros h' s' Hin _.
      apply elem_of_cons in Hin as [[= -> ->]|Hin]; [by rewrite cmp_refl|].
      rewrite Forall_forall in Hall. apply Hall in Hin. change (cmp k h' = Lt) in Hin. by rewrite Hin.
    - destruct (IH Hok Hs) as (h & Hin & Hmin). exists h. split; [set_solver|].
      intros h' s' [[= -> ->]|Hin']%elem_of_cons Hp; [congruence | eauto]. }
  destruct Hm as (h & Hin & Hmin). exists h. split; [by apply bt_get_elem|].
  intros h' s' Hget Hp. apply (Hmin h' s'); [by apply bt_get_elem | done].
Qed.

(** * Properties *)

(** an entity is constructed exactly when its type and data are non-empty, its
    format is supported and a [system/peer] entity uses the SHA-256 floor; the
    entity then carries the given type and data, a well-formed hash of the given
    format, and validates. *)
Theorem entity_new_spec `{Sha2Ok} ty d fmt :
  (is_ok (new_with_format ty d fmt) = true ↔
     ty ≠ [] ∧ d ≠ [] ∧ (ty = TYPE_PEER → fmt = HASH_ALGORITHM_SHA256)
     ∧ digest_len_for_format fmt ≠ None)
  ∧ ∀ e, new_with_format ty d fmt = Ok e →
      entity_type e = ty ∧ data e = d ∧ hash_ok (content_hash e)
      ∧ algorithm (content_hash e) = fmt ∧ entity_validate e = Ok tt.
Proof.
  split.
  - destruct (constructible ty d fmt) eqn:Hc.
    + assert (Hs : is_ok (compute_format ty d fmt) = true).
      { apply compute_format_supported. unfold constructible in Hc.
        apply andb_true_iff in Hc as [_ Hc]. by destruct (digest_len_for_format fmt). }
      destruct (compute_format ty d fmt) as [h|] eqn:Eh; [|done].
      rewrite (proj2 (new_with_format_Ok ty d fmt (mkEntity ty d h))) by done.
      split; [intros _|done]. unfold constructible in Hc.
      apply andb_true_iff in Hc as [[[H1 H2]%andb_true_iff H3]%andb_true_iff H4].
      rewrite negb_true_iff, bool_decide_eq_false in H1, H2.
      split_and!; [done..| |by destruct (digest_len_for_format fmt)].
      intros E. rewrite bool_decide_eq_true_2 in H3 by done. by apply Z.eqb_eq.
    + rewrite new_with_format_err by done. split; [done|]. intros (H1 & H2 & H3 & H4).
      rewrite <-Hc. unfold constructible.
      rewrite (bool_decide_eq_false_2 _ H1), (bool_decide_eq_false_2 _ H2). cbn.
      destruct (digest_len_for_format fmt); [|done]. rewrite andb_true_r.
      case_bool_decide as Ht; [|done]. by rewrite (H3 Ht).
  - intros e (Hc & Eh & <- & <-)%new_with_format_Ok.
    destruct (compute_format_ok _ _ _ _ Eh) as [Hok Ha].
    split_and!; try done. apply entity_validate_Ok. by rewrite Ha.
Qed.

(** including an entity keeps the map ordered and content-addressed, makes the
    entity retrievable under the hash of its content (its own content hash when it
    is valid) and changes no other entry. *)
Theorem envelope_include_spec `{Sha2} env e :
  env_keyed env →
  env_keyed (include env e)
  ∧ find_included (include env e) (include_key e) = Some e
  ∧ (entity_validate e = Ok tt → find_included (include env e) (content_hash e) = Some e)
  ∧ (∀ h, h ≠ include_key e → find_included (include env e) h = find_included env h)
  ∧ root (include env e) = root env.
Proof.
  intros Hk. pose proof (proj1 Hk) as Hok. split_and!.
  - by apply include_keyed.
  - by apply bt_get_insert_eq.
  - intros Hv. rewrite <-(include_key_valid e Hv). by apply bt_get_insert_eq.
  - intros h Hne. by apply bt_get_insert_ne.
  - done.
Qed.

(** signature lookup returns the first included entity, in key order, that is a
    signature whose data names the target (and the signer), and nothing exactly when
    no included entity is one. *)
Theorem find_signature_spec `{Ciborium} env target signer :
  bt_ok (included env) →
  (∀ s, find_signature_for env target = Some s →
     entity_type s = TYPE_SIGNATURE
     ∧ (∃ w, decode_sig_target_signer (data s) = Some (target, w))
     ∧ ∃ h, find_included env h = Some s
            ∧ ∀ h' s', find_included env h' = Some s' → signs_target target s' = true →
                hash_cmp h h' ≠ Gt)
  ∧ (find_signature_for env target = None ↔
     ∀ h s, find_included env h = Some s → signs_target target s = false)
  ∧ (∀ s, find_signature_by_signer (map snd (included env)) target signer = Some s →
       entity_type s = TYPE_SIGNATURE
       ∧ decode_sig_target_signer (data s) = Some (target, signer)
       ∧ ∃ h, find_included env h = Some s).
Proof.
  intros Hok. unfold find_signature_for, find_signature_for_target, find_signature_by_signer.
  split_and!.
  - intros s Hs. assert (Hsig : signs_target target s = true)
      by (by apply find_first_Some in Hs as (? & ? & _ & ? & _)).
    pose proof Hsig as [Hty Hdec]%andb_true_iff. apply bool_decide_eq_true in Hty.
    split; [done|]. split.
    { destruct (decode_sig_target_signer (data s)) as [[t w]|]; [|done].
      apply bool_decide_eq_true in Hdec as ->. by exists w. }
    by apply find_first_included.
  - rewrite find_first_None, Forall_forall. split.
    + intros Hall h s Hs. apply Hall, included_values; eauto.
    + intros Hall s (h & Hs)%included_values; [eauto | done].
  - intros s Hs. assert (Hin : s ∈ map snd (included env)).
    { apply find_first_Some in Hs as (l1 & l2 & -> & _). set_solver. }
    apply find_first_Some in Hs as (_ & _ & _ & [Hty Hdec]%andb_true_iff & _).
    apply bool_decide_eq_true in Hty. split; [done|].
    apply included_values in Hin; [|done]. split; [|done].
    destruct (decode_sig_target_signer (data s)) as [[t w]|]; [|done].
    apply andb_true_iff in Hdec as [->%bool_decide_eq_true ->%bool_decide_eq_true]. done.
Qed.

Lemma entity_new_spec_witness :
  let S := checksum_sha2 in
  let ty := lit "test/type" in
  (is_ok (new_with_format ty [0xA0] 1) = true ↔
     ty ≠ [] ∧ [0xA0] ≠ [] ∧ (ty = TYPE_PEER → 1 = HASH_ALGORITHM_SHA256)
     ∧ digest_len_for_format 1 ≠ None)
  ∧ ∀ e, new_with_format ty [0xA0] 1 = Ok e →
      entity_type e = ty ∧ data e = [0xA0] ∧ hash_ok (content_hash e)
      ∧ algorithm (content_hash e) = 1 ∧ entity_validate e = Ok tt.
Proof. exact (@entity_new_spec checksum_sha2 checksum_sha2_ok (lit "test/type") [0xA0] 1). Defined.

Lemma envelope_include_spec_witness :
  let S := checksum_sha2 in
  let env := envelope_new (mkEntity (lit "a") [1] hash_zero) in
  let e := mkEntity (lit "b") [2] hash_zero in
  env_keyed (include env e)
  ∧ find_included (include env e) (include_key e) = Some e
  ∧ (entity_validate e = Ok tt → find_included (include env e) (content_hash e) = Some e)
  ∧ (∀ h, h ≠ include_key e → find_included (include env e) h = find_included env h)
  ∧ root (include env e) = root env.
Proof. cbv zeta. apply (@envelope_include_spec checksum_sha2), envelope_new_keyed. Defined.

(** A signature of [target] by [signer]. *)
Definition sample_signature (target signer h : Hash) : Entity :=
  mkEntity TYPE_SIGNATURE
    (to_ecf (VMap [(text (lit "signer"), bytes (to_bytes signer));
                   (text (lit "target"), bytes (to_bytes target))])) h.

Lemma find_signature_spec_witness :
  let C := ref_ciborium in
  let t := mkHash 0 (replicate 32 1) in
  let w := mkHash 0 (replicate 32 2) in
  let s := sample_signature t w w in
  let env := mkEnvelope s [(t, s); (w, s)] in
  find_signature_for env t = Some s ∧
  (∀ s, find_signature_for env t = Some s →
     entity_type s = TYPE_SIGNATURE
     ∧ (∃ w, decode_sig_target_signer (data s) = Some (t, w))
     ∧ ∃ h, find_included env h = Some s
            ∧ ∀ h' s', find_included env h' = Some s' → signs_target t s' = true →
                hash_cmp h h' ≠ Gt)
  ∧ (find_signature_for env t = None ↔
     ∀ h s, find_included env h = Some s → signs_target t s = false)
  ∧ (∀ s, find_signature_by_signer (map snd (included env)) t w = Some s →
       entity_type s = TYPE_SIGNATURE
       ∧ decode_sig_target_signer (data s) = Some (t, w)
       ∧ ∃ h, find_included env h = Some s).
Proof.
  cbv zeta. split; [vm_compute; reflexivity|]. apply (@find_signature_spec ref_ciborium).
  repeat constructor.
Defined.
