(* ===== verification/Walker.v ===== *)
(** The CBOR byte-range walker ([parse_cbor_head], [cbor_item_end],
    [decode_cbor_text], [decode_cbor_bytes] of [core/wire/src/lib.rs]).

    The walker finds where an item ends without decoding it; the codec of Wire.v
    slices the received bytes with it.  Offsets are [usize] (here [nat]); head
    arguments are [u64] (here [Z]), and the code's [checked_add] guards the sum of
    the two.  The specification is the grammar [cbor_item] of definite-length,
    tag-free items; [item_end_spec] shows that the walker accepts exactly it. *)
From S2P Require Import Prelude BTree Ecf Cbor ContentHash.

(** * Errors *)

Inductive IoKind := UnexpectedEof | OtherIo.

Inductive WireError :=
  | Io (kind : IoKind)
  | FrameTooLarge (size max : Z)
  | CborDecode
  | IncludedKeyMismatch (key actual : Hash)
  | CborTag (offset : nat)
  | TruncatedFrame (phase : string) (read expected : nat).

(** * Heads *)

Definition parse_cbor_head (data : list Z) (offset : nat) : result WireError (Z * Z * nat) :=
  match data !! offset with
  | None => Err CborDecode
  | Some first =>
      let major := Z.shiftr first 5 in
      let ai := Z.land first 0x1F in
      let arg n :=
        if (length data <? offset + 1 + n)%nat then Err CborDecode
        else Ok (major, be_value (take n (drop (offset + 1) data)), (1 + n)%nat) in
      if (0 <=? ai) && (ai <=? 23) then Ok (major, ai, 1%nat)
      else if ai =? 24 then arg 1%nat
      else if ai =? 25 then arg 2%nat
      else if ai =? 26 then arg 4%nat
      else if ai =? 27 then arg 8%nat
      else Err CborDecode
  end.

(** * Loops

    [for _ in 0..count { body }] with [?] in the body.  Every body of this file's
    loops consumes a byte or fails, so the number of bytes bounds the rounds. *)
Fixpoint for_count {E St} (oof : E) (fuel : nat) (body : St → result E St) (count : Z) (s : St)
    : result E St :=
  if count <=? 0 then Ok s
  else
    match fuel with
    | O => Err oof
    | S fuel' => s' ← body s; for_count oof fuel' body (count - 1) s'
    end.

(** [start.checked_add(len)] and the test against the end of the data. *)
Definition checked_end (data : list Z) (start : nat) (len : Z) : result WireError nat :=
  if u64_max <? Z.of_nat start + len then Err CborDecode
  else if Z.of_nat (length data) <? Z.of_nat start + len then Err CborDecode
  else Ok (start + Z.to_nat len)%nat.

(** [fuel] bounds the nesting depth; each level of nesting is a byte. *)
Fixpoint cbor_item_end_fuel (fuel : nat) (data : list Z) (offset : nat)
    : result WireError nat :=
  match fuel with
  | O => Err CborDecode
  | S fuel' =>
      '(major, value, head_size) ← parse_cbor_head data offset;
      let after_head := (offset + head_size)%nat in
      let item := cbor_item_end_fuel fuel' data in
      let rounds := S (length data) in
      if (major =? 0) || (major =? 1) then Ok after_head
      else if (major =? 2) || (major =? 3) then checked_end data after_head value
      else if major =? 4 then for_count CborDecode rounds item value after_head
      else if major =? 5 then
        for_count CborDecode rounds (λ cursor, cursor ← item cursor; item cursor) value after_head
      else if major =? 6 then Err (CborTag offset)
      else if major =? 7 then Ok after_head
      else Err CborDecode
  end.

Definition cbor_item_end (data : list Z) (offset : nat) : result WireError nat :=
  cbor_item_end_fuel (S (length data)) data offset.

Definition decode_cbor_text (data : list Z) (offset : nat) : result WireError (list Z * nat) :=
  '(major, len, head_size) ← parse_cbor_head data offset;
  if negb (major =? 3) then Err CborDecode
  else
    let start := (offset + head_size)%nat in
    end_ ← checked_end data start len;
    let s := take (end_ - start) (drop start data) in
    if utf8_valid s then Ok (s, end_) else Err CborDecode.

Definition decode_cbor_bytes (data : list Z) (offset : nat) : result WireError (list Z * nat) :=
  '(major, len, head_size) ← parse_cbor_head data offset;
  if negb (major =? 2) then Err CborDecode
  else
    let start := (offset + head_size)%nat in
    end_ ← checked_end data start len;
    Ok (take (end_ - start) (drop start data), end_).

(** * The grammar of items *)

Inductive cbor_item : list Z → Prop :=
  | item_simple l major ai value :
      read_head l = Some (major, ai, value, []) →
      major = 0 ∨ major = 1 ∨ major = 7 → cbor_item l
  | item_string l major ai value body :
      read_head l = Some (major, ai, value, body) →
      major = 2 ∨ major = 3 → Z.of_nat (length body) = value → cbor_item l
  | item_array l ai n body :
      read_head l = Some (4, ai, Z.of_nat n, body) → cbor_items n body → cbor_item l
  | item_map l ai n body :
      read_head l = Some (5, ai, Z.of_nat n, body) → cbor_items (n + n) body → cbor_item l
with cbor_items : nat → list Z → Prop :=
  | items_nil : cbor_items 0 []
  | items_cons n l ls : cbor_item l → cbor_items n ls → cbor_items (S n) (l ++ ls).

Scheme cbor_item_mind := Induction for cbor_item Sort Prop
  with cbor_items_mind := Induction for cbor_items Sort Prop.

(** * Heads *)

Lemma read_head_frame l m ai v body :
  read_head l = Some (m, ai, v, body) →
  ∃ h, h ≠ [] ∧ l = h ++ body ∧ ∀ body', read_head (h ++ body') = Some (m, ai, v, body').
Proof.
  unfold read_head. destruct l as [|b l]; [done|].
  destruct (Z.land b 31 <? 24) eqn:E1.
  { intros [= <- <- <- <-]. exists [b]. split_and!; [done..|]. intros body'. cbn. by rewrite E1. }
  destruct (Z.land b 31 <? 28) eqn:E2; [|done].
  destruct (Nat.ltb_spec (length l) (arg_len (Z.land b 31))) as [|Hlen]; [done|].
  intros [= <- <- <- <-]. exists (b :: take (arg_len (Z.land b 31)) l).
  split_and!; [done | cbn; by rewrite take_drop|]. intros body'. cbn [app].
  assert (HL : length (take (arg_len (Z.land b 31)) l) = arg_len (Z.land b 31))
    by (rewrite length_take; lia).
  rewrite E1, E2, length_app, (proj2 (Nat.ltb_ge _ _)) by lia.
  by rewrite take_app_length', drop_app_length' by done.
Qed.

Lemma read_head_nonneg l m ai v body :
  bytes_ok l → read_head l = Some (m, ai, v, body) → 0 ≤ v.
Proof.
  intros Hl. unfold read_head. destruct l as [|b l]; [done|].
  apply Forall_cons in Hl as [Hb Hl]. repeat case_match; intros; simplify_eq.
  - apply Z.land_nonneg. right. lia.
  - apply (be_value_bound _). by apply Forall_take.
Qed.

Lemma lookup_drop_cons {A} (l : list A) i x : l !! i = Some x → drop i l = x :: drop (i + 1) l.
Proof. intros H. rewrite Nat.add_1_r. by apply drop_S. Qed.

(** The code's head parser is the reference one at the offset. *)
Lemma parse_cbor_head_spec data off m v hs :
  parse_cbor_head data off = Ok (m, v, hs) ↔
  ∃ ai body, read_head (drop off data) = Some (m, ai, v, body)
             ∧ drop (off + hs) data = body ∧ (1 ≤ hs)%nat ∧ (off + hs ≤ length data)%nat.
Proof.
  unfold parse_cbor_head. destruct (data !! off) as [b|] eqn:Eb.
  2: { apply lookup_ge_None in Eb. split; [done|]. rewrite drop_ge by done.
       by intros (? & ? & ? & _). }
  pose proof (lookup_lt_Some _ _ _ Eb) as Hlt. rewrite (lookup_drop_cons _ _ _ Eb).
  assert (0 ≤ Z.land b 31 < 32) as Hai.
  { change 31 with (Z.ones 5). rewrite Z.land_ones by lia. by apply Z.mod_pos_bound. }
  cbn [read_head]. rewrite (proj2 (Z.leb_le 0 _)) by lia. cbn [andb].
  set (ai := Z.land b 31) in *.
  assert (Harg : ∀ n, arg_len ai = n → 24 ≤ ai < 28 →
    (if (length data <? off + 1 + n)%nat then Err CborDecode
     else Ok (Z.shiftr b 5, be_value (take n (drop (off + 1) data)), (1 + n)%nat)) = Ok (m, v, hs)
    ↔ ∃ ai' body, (if ai <? 24 then Some (Z.shiftr b 5, ai, ai, drop (off + 1) data)
        else if ai <? 28 then
          let n := arg_len ai in
          if (length (drop (off + 1) data) <? n)%nat then None
          else Some (Z.shiftr b 5, ai, be_value (take n (drop (off + 1) data)),
                     drop n (drop (off + 1) data))
        else None) = Some (m, ai', v, body)
        ∧ drop (off + hs) data = body ∧ (1 ≤ hs)%nat ∧ (off + hs ≤ length data)%nat).
  { intros n Hn Hr. rewrite (proj2 (Z.ltb_ge ai 24)), (proj2 (Z.ltb_lt ai 28)) by lia.
    cbv zeta. rewrite Hn, length_drop, drop_drop.
    destruct (Nat.ltb_spec (length data) (off + 1 + n));
      destruct (Nat.ltb_spec (length data - (off + 1)) n); try lia.
    - split; [done | by intros (? & ? & ? & _)].
    - split.
      + intros [= <- <- <-]. exists ai, (drop (off + 1 + n) data).
        split_and!; [done | f_equal; lia | lia | lia].
      + intros (ai' & body & [= <- <- <- <-] & Hd & H1 & H2). do 2 f_equal.
        assert (length (drop (off + hs) data) = length (drop (off + 1 + n) data)) as HL
          by congruence.
        rewrite !length_drop in HL. lia. }
  destruct (Z.leb_spec ai 23).
  { rewrite (proj2 (Z.ltb_lt ai 24)) by lia. split.
    - intros [= <- <- <-]. exists ai, (drop (off + 1) data). split_and!; [done..| lia | lia].
    - intros (ai' & body & [= <- <- <- <-] & Hd & H1 & H2). do 2 f_equal.
      assert (length (drop (off + hs) data) = length (drop (off + 1) data)) as HL by congruence.
      rewrite !length_drop in HL. lia. }
  clearbody ai.
  destruct (Z.eqb_spec ai 24) as [->|]; [by apply Harg|].
  destruct (Z.eqb_spec ai 25) as [->|]; [by apply Harg|].
  destruct (Z.eqb_spec ai 26) as [->|]; [by apply Harg|].
  destruct (Z.eqb_spec ai 27) as [->|]; [by apply Harg|].
  rewrite (proj2 (Z.ltb_ge ai 24)), (proj2 (Z.ltb_ge ai 28)) by lia.
  split; [done | by intros (? & ? & ? & _)].
Qed.

(** * Soundness: what the walker accepts is an item *)

(** [data] carries [it] between the offsets [off] and [e]. *)
Definition segment (data : list Z) (off e : nat) (it : list Z) : Prop :=
  drop off data = it ++ drop e data ∧ (off ≤ e ≤ length data)%nat.

Lemma segment_length data off e it : segment data off e it → (e = off + length it)%nat.
Proof.
  intros [H Hle]. apply (f_equal length) in H. rewrite length_app, !length_drop in H. lia.
Qed.

Lemma segment_take data off e it : segment data off e it → take (e - off) (drop off data) = it.
Proof.
  intros Hs. pose proof (segment_length _ _ _ _ Hs). destruct Hs as [-> _].
  by rewrite take_app_length' by lia.
Qed.

Lemma segment_app data a b c l1 l2 :
  segment data a b l1 → segment data b c l2 → segment data a c (l1 ++ l2).
Proof. intros [H1 ?] [H2 ?]. split; [by rewrite H1, H2, app_assoc | lia]. Qed.

Lemma segment_refl data off : (off ≤ length data)%nat → segment data off off [].
Proof. by split. Qed.

Lemma segment_between data off e :
  (off ≤ e ≤ length data)%nat → segment data off e (take (e - off) (drop off data)).
Proof.
  intros H. split; [|done]. rewrite <-(take_drop (e - off) (drop off data)) at 1.
  f_equal. rewrite drop_drop. f_equal. lia.
Qed.

(** A head followed by its body is one segment. *)
Lemma segment_head data off m v hs e body :
  parse_cbor_head data off = Ok (m, v, hs) → segment data (off + hs) e body →
  ∃ h ai, h ≠ [] ∧ segment data off e (h ++ body) ∧ read_head (h ++ body) = Some (m, ai, v, body).
Proof.
  intros (ai & rest & Hr & Hd & Hh & Hl)%parse_cbor_head_spec [Hs Hle].
  apply read_head_frame in Hr as (h & Hne & Hdrop & Hfr). exists h, ai. split_and!; [done| |done].
  split; [|lia]. rewrite Hdrop, <-Hd, Hs. by rewrite app_assoc.
Qed.

Lemma for_count_eq {E St} (oof : E) fuel (body : St → result E St) count s :
  0 < count →
  for_count oof (S fuel) body count s = (s' ← body s; for_count oof fuel body (count - 1) s').
Proof. intros H. cbn [for_count]. by rewrite (proj2 (Z.leb_gt count 0)). Qed.

Lemma for_count_done {E St} (oof : E) fuel (body : St → result E St) count s :
  count ≤ 0 → for_count oof fuel body count s = Ok s.
Proof. intros H. destruct fuel; cbn [for_count]; by rewrite (proj2 (Z.leb_le count 0)). Qed.

(** [n] rounds without a bound. *)
Fixpoint iterM {E St} (n : nat) (body : St → result E St) (s : St) : result E St :=
  match n with O => Ok s | S n' => s' ← body s; iterM n' body s' end.

Lemma for_count_iter {E St} (oof : E) fuel n (body : St → result E St) s :
  (n ≤ fuel)%nat → for_count oof fuel body (Z.of_nat n) s = iterM n body s.
Proof.
  revert fuel s. induction n as [|n IH]; intros fuel s Hf; [by rewrite for_count_done by lia|].
  destruct fuel as [|fuel]; [lia|]. rewrite for_count_eq by lia. cbn [iterM].
  destruct (body s) as [s'|e]; cbn; [|done].
  replace (Z.of_nat (S n) - 1) with (Z.of_nat n) by lia. apply IH. lia.
Qed.

(** When every round consumes, the fuel does not matter once it exceeds what is left. *)
Lemma for_count_fuel {E St} (oof : E) (body : St → result E St) (left : St → nat) :
  (∀ s s', body s = Ok s' → (left s' < left s)%nat) →
  ∀ fuel1 fuel2 count s, (left s < fuel1)%nat → (left s < fuel2)%nat →
  for_count oof fuel1 body count s = for_count oof fuel2 body count s.
Proof.
  intros Hdec. induction fuel1 as [|fuel1 IH]; intros fuel2 count s H1 H2; [lia|].
  destruct fuel2 as [|fuel2]; [lia|]. destruct (decide (count ≤ 0)).
  { by rewrite !for_count_done. }
  rewrite !for_count_eq by lia. destruct (body s) as [s'|e] eqn:E1; cbn; [|done].
  apply Hdec in E1. apply IH; lia.
Qed.

(** Rule for the loops: [I n s] holds after [n] rounds. *)
Lemma for_count_invariant {E St} (oof : E) (body : St → result E St) (I : nat → St → Prop) :
  (∀ n s s', I n s → body s = Ok s' → I (S n) s') →
  ∀ fuel count n s s', I n s → for_count oof fuel body count s = Ok s' → I (n + Z.to_nat count)%nat s'.
Proof.
  intros Hstep. induction fuel as [|fuel IH]; intros count n s s' HI Hr.
  - cbn in Hr. destruct (Z.leb_spec count 0); [|done]. injection Hr as <-.
    replace (Z.to_nat count) with 0%nat by lia. by rewrite Nat.add_0_r.
  - destruct (decide (count ≤ 0)).
    { rewrite for_count_done in Hr by done. injection Hr as <-.
      replace (Z.to_nat count) with 0%nat by lia. by rewrite Nat.add_0_r. }
    rewrite for_count_eq in Hr by lia. apply bind_Ok in Hr as (s1 & H1 & Hr).
    pose proof (Hstep _ _ _ HI H1) as HI1. apply (IH _ _ _ _ HI1) in Hr.
    by replace (n + Z.to_nat count)%nat with (S n + Z.to_nat (count - 1))%nat by lia.
Qed.

Definition item_sound (data : list Z) (item : nat → result WireError nat) : Prop :=
  ∀ off e, item off = Ok e → ∃ it, cbor_item it ∧ it ≠ [] ∧ segment data off e it.

Lemma items_app n m l1 l2 : cbor_items n l1 → cbor_items m l2 → cbor_items (n + m) (l1 ++ l2).
Proof.
  induction n as [|n IH] in l1 |- *; intros H1 H2; inversion H1; subst; [done|].
  rewrite <-app_assoc. cbn. constructor; [done|]. by apply IH.
Qed.

Lemma items_sound data k body v off e :
  (∀ cur s, body cur = Ok s → ∃ l, cbor_items k l ∧ segment data cur s l) →
  (off ≤ length data)%nat → 0 ≤ v →
  for_count CborDecode (S (length data)) body v off = Ok e →
  ∃ l, cbor_items (Z.to_nat v * k) l ∧ segment data off e l.
Proof.
  intros Hbody Hoff Hv Hr.
  apply (for_count_invariant CborDecode body
    (λ n cur, ∃ l, cbor_items (n * k) l ∧ segment data off cur l)) with (n := 0%nat) in Hr.
  - done.
  - intros n s s' (l & Hl & Hs) Hb. destruct (Hbody _ _ Hb) as (l' & Hl' & Hs').
    exists (l ++ l'). split; [|by eapply segment_app].
    replace (S n * k)%nat with (n * k + k)%nat by lia. by apply items_app.
  - exists []. split; [constructor | by apply segment_refl].
Qed.

Lemma checked_end_Ok data start len e :
  0 ≤ len → checked_end data start len = Ok e ↔
  e = (start + Z.to_nat len)%nat ∧ Z.of_nat start + len ≤ Z.of_nat (length data)
  ∧ Z.of_nat start + len ≤ u64_max.
Proof.
  intros Hlen. unfold checked_end. destruct (Z.ltb_spec u64_max (Z.of_nat start + len)).
  { split; [done | lia]. }
  destruct (Z.ltb_spec (Z.of_nat (length data)) (Z.of_nat start + len)).
  { split; [done | lia]. }
  split; [by intros [= <-] | intros (-> & _); done].
Qed.

Lemma items_one l : cbor_item l → cbor_items 1 l.
Proof. intros H. rewrite <-(app_nil_r l). constructor; [done | constructor]. Qed.

Lemma item_end_sound data fuel :
  bytes_ok data → item_sound data (cbor_item_end_fuel fuel data).
Proof.
  intros Hok. induction fuel as [|fuel IH]; intros off e; [done|]. cbn [cbor_item_end_fuel].
  intros H. apply bind_Ok in H as ([[m v] hs] & Hh & H).
  pose proof (proj1 (parse_cbor_head_spec _ _ _ _ _) Hh) as (ai & rest & Hrd & _ & _ & Hle).
  pose proof (read_head_nonneg _ _ _ _ _ (Forall_drop _ _ _ Hok) Hrd) as Hv.
  assert (Hseg : ∀ e body, segment data (off + hs) e body →
    ∃ h ai, h ≠ [] ∧ segment data off e (h ++ body)
            ∧ read_head (h ++ body) = Some (m, ai, v, body)) by (intros; by eapply segment_head).
  assert (Hnil : ∀ h (body : list Z), h ≠ [] → h ++ body ≠ []) by (by intros [|??]).
  destruct ((m =? 0) || (m =? 1)) eqn:E01.
  { injection H as <-. destruct (Hseg _ [] (segment_refl _ _ Hle)) as (h & ai' & Hne & Hs & Hr).
    exists (h ++ []). split_and!; [|auto|done]. eapply item_simple; [done|].
    apply orb_true_iff in E01 as [?%Z.eqb_eq|?%Z.eqb_eq]; auto. }
  destruct ((m =? 2) || (m =? 3)) eqn:E23.
  { apply checked_end_Ok in H as (-> & Hb & _); [|done].
    destruct (Hseg _ _ (segment_between data (off + hs) (off + hs + Z.to_nat v) ltac:(lia))) as (h & ai' & Hne & Hs & Hr).
    eexists. split_and!; [|by apply Hnil|exact Hs]. eapply item_string; [exact Hr | |].
    { apply orb_true_iff in E23 as [?%Z.eqb_eq|?%Z.eqb_eq]; auto. }
    rewrite length_take, length_drop. lia. }
  destruct (Z.eqb_spec m 4) as [->|].
  { apply (items_sound data 1) in H as (l & Hl & Hs); try done.
    2: { intros cur s Hc. destruct (IH _ _ Hc) as (it & Hi & _ & Hs). exists it.
         split; [by apply items_one | done]. }
    destruct (Hseg _ _ Hs) as (h & ai' & Hne & Hs' & Hr).
    exists (h ++ l). split_and!; [|auto|done]. rewrite Nat.mul_1_r in Hl.
    eapply item_array; [|exact Hl]. by rewrite Z2Nat.id. }
  destruct (Z.eqb_spec m 5) as [->|].
  { apply (items_sound data 2) in H as (l & Hl & Hs); try done.
    2: { intros cur s Hc. apply bind_Ok in Hc as (mid & H1 & H2).
         destruct (IH _ _ H1) as (k & Hk & _ & Hs1), (IH _ _ H2) as (w & Hw & _ & Hs2).
         exists (k ++ w). split; [|by eapply segment_app].
         apply (items_app 1 1); by apply items_one. }
    destruct (Hseg _ _ Hs) as (h & ai' & Hne & Hs' & Hr).
    exists (h ++ l). split_and!; [|auto|done].
    eapply (item_map _ _ (Z.to_nat v)); [by rewrite Z2Nat.id|].
    by replace (Z.to_nat v + Z.to_nat v)%nat with (Z.to_nat v * 2)%nat by lia. }
  destruct (m =? 6); [done|]. destruct (Z.eqb_spec m 7) as [->|]; [|done].
  injection H as <-. destruct (Hseg _ [] (segment_refl _ _ Hle)) as (h & ai' & Hne & Hs & Hr).
  exists (h ++ []). split_and!; [|auto|done]. eapply item_simple; [done | auto].
Qed.

(** * Completeness: every item is walked to its end *)

Lemma parse_cbor_head_at data off l rest m ai v body :
  drop off data = l ++ rest → read_head l = Some (m, ai, v, body) →
  ∃ hs, parse_cbor_head data off = Ok (m, v, hs) ∧ (1 ≤ hs)%nat
        ∧ length l = (hs + length body)%nat ∧ drop (off + hs) data = body ++ rest
        ∧ (off + hs ≤ length data)%nat.
Proof.
  intros Hd (h & Hne & -> & Hfr)%read_head_frame. rewrite <-app_assoc in Hd.
  assert (H1 : (1 ≤ length h)%nat) by (destruct h; [done | cbn; lia]).
  assert (Hd2 : drop (off + length h) data = body ++ rest)
    by (rewrite <-drop_drop, Hd; by rewrite drop_app_length).
  assert (Hle : (off + length h ≤ length data)%nat)
    by (apply (f_equal length) in Hd; rewrite length_drop, !length_app in Hd; lia).
  exists (length h). split_and!; [|done|by rewrite length_app|done|done].
  apply parse_cbor_head_spec. exists ai, (body ++ rest). rewrite Hd, Hd2. by split_and!.
Qed.

Definition walkable (it : list Z) : Prop :=
  ∀ data off fuel rest,
    drop off data = it ++ rest → Z.of_nat (length data) ≤ u64_max → (length it ≤ fuel)%nat →
    cbor_item_end_fuel fuel data off = Ok (off + length it)%nat.

Lemma for_count_items {E} (oof : E) (data : list Z) body ls :
  (∀ it cur rest, it ∈ ls → drop cur data = it ++ rest → body cur = Ok (cur + length it)%nat) →
  ∀ rounds cur rest, drop cur data = concat ls ++ rest → (length ls ≤ rounds)%nat →
  for_count oof rounds body (Z.of_nat (length ls)) cur = Ok (cur + length (concat ls))%nat.
Proof.
  induction ls as [|it ls IH]; intros Hb rounds cur rest Hd Hr.
  - rewrite for_count_done by done. cbn. by rewrite Nat.add_0_r.
  - destruct rounds as [|rounds]; [cbn in Hr; lia|]. cbn [concat length] in *.
    rewrite <-app_assoc in Hd. rewrite for_count_eq by lia.
    rewrite (Hb it cur (concat ls ++ rest)) by (set_solver || done). cbn [mbind result_bind].
    replace (Z.of_nat (S (length ls)) - 1) with (Z.of_nat (length ls)) by lia.
    rewrite (IH) with (rest := rest); [|intros; eapply Hb; [set_solver|done]| |lia].
    + rewrite length_app. f_equal. lia.
    + by rewrite <-drop_drop, Hd, drop_app_length.
Qed.

Lemma pair_items {A} (P : list A → Prop) n ls :
  Forall P ls → length ls = (n + n)%nat →
  ∃ ps, length ps = n ∧ concat ps = concat ls ∧ Forall (λ x, ∃ k v, P k ∧ P v ∧ x = k ++ v) ps.
Proof.
  revert ls. induction n as [|n IH]; intros ls Hall Hlen.
  - destruct ls; [|done]. by exists [].
  - destruct ls as [|k [|v ls]]; cbn in Hlen; try lia.
    apply Forall_cons in Hall as [Hk [Hv Hall]%Forall_cons].
    destruct (IH ls Hall ltac:(lia)) as (ps & H1 & H2 & H3).
    exists ((k ++ v) :: ps). split_and!; [cbn; lia | cbn; by rewrite H2, app_assoc |].
    constructor; eauto 10.
Qed.

Lemma length_concat_pos {A} (ls : list (list A)) :
  Forall (λ l, l ≠ []) ls → (length ls ≤ length (concat ls))%nat.
Proof.
  induction 1 as [|[|a l] ls Hne _ IH]; cbn; [lia | done|]. rewrite length_app. lia.
Qed.

Lemma elem_concat_length {A} (ls : list (list A)) l :
  l ∈ ls → (length l ≤ length (concat ls))%nat.
Proof.
  induction 1 as [|? y ls _ IH]; cbn; rewrite length_app; lia.
Qed.

Lemma drop_length_le {A} (data : list A) off l :
  drop off data = l → (length l ≤ length data)%nat.
Proof. intros <-. rewrite length_drop. lia. Qed.

(** The containers: [k] children per round. *)
Lemma walk_children data fuel body off rest ls :
  (∀ it cur rest', it ∈ ls → drop cur data = it ++ rest' →
     body (cbor_item_end_fuel fuel data) cur = Ok (cur + length it)%nat) →
  Forall (λ l, l ≠ []) ls → drop off data = concat ls ++ rest →
  for_count CborDecode (S (length data)) (body (cbor_item_end_fuel fuel data))
    (Z.of_nat (length ls)) off = Ok (off + length (concat ls))%nat.
Proof.
  intros Hb Hne Hd. eapply for_count_items; [exact Hb | exact Hd |].
  pose proof (length_concat_pos _ Hne). pose proof (drop_length_le _ _ _ Hd) as Hl.
  rewrite length_app in Hl. lia.
Qed.

Definition walkable_items (n : nat) (l : list Z) : Prop :=
  ∃ ls, l = concat ls ∧ length ls = n ∧ Forall (λ it, walkable it ∧ it ≠ []) ls.

Lemma read_head_ne l h : read_head l = Some h → l ≠ [].
Proof. by destruct l. Qed.

Lemma walk_simple l major ai value body :
  read_head l = Some (major, ai, value, body) →
  (major = 0 ∨ major = 1 ∨ major = 7) ∧ body = []
  ∨ (major = 2 ∨ major = 3) ∧ Z.of_nat (length body) = value → walkable l.
Proof.
  intros Hr Hc data off fuel rest Hd Hlen Hf.
  destruct (parse_cbor_head_at _ _ _ _ _ _ _ _ Hd Hr) as (hs & Hp & H1 & HL & Hd2 & Hle).
  destruct fuel as [|fuel]; [lia|]. cbn [cbor_item_end_fuel]. rewrite Hp. cbn [mbind result_bind].
  destruct Hc as [[Hm ->]|[Hm Hv]].
  - cbn [length] in HL.
    assert (E : Ok (off + hs)%nat = Ok (off + length l)%nat :> result WireError nat)
      by (f_equal; lia).
    destruct Hm as [->|[->| ->]]; cbn; exact E.
  - assert (E : checked_end data (off + hs) value = Ok (off + length l)%nat).
    { apply (f_equal length) in Hd2. rewrite length_app, length_drop in Hd2.
      apply checked_end_Ok; [lia|]. split_and!; lia. }
    destruct Hm as [-> | ->]; cbn; exact E.
Qed.

Lemma walk_item l : cbor_item l → walkable l ∧ l ≠ [].
Proof.
  intros H. revert l H.
  apply (cbor_item_mind (λ l _, walkable l ∧ l ≠ []) (λ n l _, walkable_items n l)).
  - intros l m ai v Hr Hm. split; [|by eapply read_head_ne].
    eapply walk_simple; [exact Hr|]. by left.
  - intros l m ai v body Hr Hm Hv. split; [|by eapply read_head_ne].
    eapply walk_simple; [exact Hr|]. by right.
  - intros l ai n body Hr _ (ls & -> & <- & Hls). split; [|by eapply read_head_ne].
    intros data off fuel rest Hd Hlen Hf.
    destruct (parse_cbor_head_at _ _ _ _ _ _ _ _ Hd Hr) as (hs & Hp & H1 & HL & Hd2 & Hle).
    destruct fuel as [|fuel]; [lia|]. cbn [cbor_item_end_fuel]. rewrite Hp.
    cbn [mbind result_bind]. cbn [Z.eqb orb Pos.eqb].
    rewrite (walk_children data fuel (λ item, item) _ rest ls); [f_equal; lia | | |exact Hd2].
    + intros it cur rest' Hin Hc. rewrite Forall_forall in Hls. destruct (Hls it Hin) as [Hw _].
      eapply Hw; [exact Hc | done |]. pose proof (elem_concat_length _ _ Hin). lia.
    + eapply Forall_impl; [exact Hls|]. by intros ? [].
  - intros l ai n body Hr _ (ls & -> & Hn & Hls). split; [|by eapply read_head_ne].
    intros data off fuel rest Hd Hlen Hf.
    destruct (parse_cbor_head_at _ _ _ _ _ _ _ _ Hd Hr) as (hs & Hp & H1 & HL & Hd2 & Hle).
    destruct fuel as [|fuel]; [lia|]. cbn [cbor_item_end_fuel]. rewrite Hp.
    cbn [mbind result_bind]. cbn [Z.eqb orb Pos.eqb].
    destruct (pair_items _ n ls Hls Hn) as (ps & <- & Hc & Hps). rewrite <-Hc in *.
    rewrite (walk_children data fuel (λ item cur, cursor ← item cur; item cursor) _ rest ps);
      [f_equal; lia | | |exact Hd2].
    + intros it cur rest' Hin Hcur. pose proof (elem_concat_length _ _ Hin) as Hil.
      rewrite Forall_forall in Hps. destruct (Hps it Hin) as (k & w & [Hk _] & [Hw _] & ->).
      rewrite length_app in Hil. rewrite <-app_assoc in Hcur.
      rewrite (Hk _ _ _ _ Hcur) by (done || lia). cbn [mbind result_bind].
      rewrite (Hw data (cur + length k)%nat fuel rest'); [rewrite length_app; f_equal; lia | |done|lia].
      by rewrite <-drop_drop, Hcur, drop_app_length.
    + eapply Forall_impl; [exact Hps|]. intros x (k & w & [_ Hk] & _ & ->). by destruct k.
  - exists []. by repeat constructor.
  - intros n l ls _ Hl _ (lls & -> & <- & Hall). exists (l :: lls). split_and!; [done..|].
    by constructor.
Qed.

Definition data_ok (data : list Z) : Prop := bytes_ok data ∧ Z.of_nat (length data) ≤ u64_max.

#[export] Instance data_ok_dec data : Decision (data_ok data).
Proof. unfold data_ok. apply _. Defined.

Lemma item_end_iff data fuel off e :
  data_ok data → (length data ≤ fuel)%nat →
  cbor_item_end_fuel fuel data off = Ok e ↔ ∃ it, cbor_item it ∧ segment data off e it.
Proof.
  intros [Hok Hlen] Hf. split.
  - intros H. destruct (item_end_sound data fuel Hok off e H) as (it & ? & _ & ?). eauto.
  - intros (it & Hi & Hs). pose proof (segment_length _ _ _ _ Hs) as ->. destruct Hs as [Hd _].
    destruct (walk_item it Hi) as [Hw _]. eapply Hw; [exact Hd | done |].
    apply drop_length_le in Hd. rewrite length_app in Hd. lia.
Qed.

Lemma item_end_at data off it rest :
  Z.of_nat (length data) ≤ u64_max → drop off data = it ++ rest → cbor_item it →
  cbor_item_end data off = Ok (off + length it)%nat.
Proof.
  intros Hlen Hd Hi. destruct (walk_item it Hi) as [Hw _]. eapply Hw; [exact Hd | done |].
  apply drop_length_le in Hd. rewrite length_app in Hd. lia.
Qed.

(** * Strings *)

Lemma encode_string_head m s rest :
  0 ≤ m < 8 → len_ok s = true →
  read_head ((encode_head (Z.shiftl m 5) (Z.of_nat (length s)) ++ s) ++ rest)
  = Some (m, head_ai (Z.of_nat (length s)), Z.of_nat (length s), s ++ rest).
Proof.
  intros Hm Hlen. rewrite <-app_assoc. apply read_head_encode; [done|].
  by apply (len_ok_bound s).
Qed.

(** Reading a string item that starts at an offset. *)
Lemma string_at data off m s rest :
  0 ≤ m < 8 → len_ok s = true → Z.of_nat (length data) ≤ u64_max →
  drop off data = (encode_head (Z.shiftl m 5) (Z.of_nat (length s)) ++ s) ++ rest →
  let e := (off + length (encode_head (Z.shiftl m 5) (Z.of_nat (length s)) ++ s))%nat in
  ∃ hs, parse_cbor_head data off = Ok (m, Z.of_nat (length s), hs)
        ∧ checked_end data (off + hs) (Z.of_nat (length s)) = Ok e
        ∧ take (e - (off + hs)) (drop (off + hs) data) = s.
Proof.
  intros Hm Hs Hlen Hd e. pose proof (encode_string_head m s [] Hm Hs) as Hr.
  rewrite !app_nil_r in Hr.
  destruct (parse_cbor_head_at _ _ _ _ _ _ _ _ Hd Hr) as (hs & Hp & H1 & HL & Hd2 & Hle).
  exists hs. assert (He : e = (off + hs + length s)%nat) by (unfold e; lia).
  split_and!; [done| |].
  - apply (f_equal length) in Hd2. rewrite length_app, length_drop in Hd2.
    apply checked_end_Ok; [lia|]. split_and!; lia.
  - rewrite Hd2, He, take_app_length' by lia. done.
Qed.

Lemma decode_cbor_text_at data off s rest :
  len_ok s = true → utf8_valid s = true → Z.of_nat (length data) ≤ u64_max →
  drop off data = encode_cbor_text s ++ rest →
  decode_cbor_text data off = Ok (s, (off + length (encode_cbor_text s))%nat).
Proof.
  intros Hs Hu Hlen Hd. destruct (string_at data off 3 s rest ltac:(lia) Hs Hlen Hd) as (hs & E1 & E2 & E3).
  unfold decode_cbor_text. rewrite E1. cbn [mbind result_bind]. cbn [Z.eqb Pos.eqb negb].
  rewrite E2. cbn [mbind result_bind]. by rewrite E3, Hu.
Qed.

Lemma decode_cbor_bytes_at data off b rest :
  len_ok b = true → Z.of_nat (length data) ≤ u64_max →
  drop off data = encode_cbor_bstr b ++ rest →
  decode_cbor_bytes data off = Ok (b, (off + length (encode_cbor_bstr b))%nat).
Proof.
  intros Hs Hlen Hd. destruct (string_at data off 2 b rest ltac:(lia) Hs Hlen Hd) as (hs & E1 & E2 & E3).
  unfold decode_cbor_bytes. rewrite E1. cbn [mbind result_bind]. cbn [Z.eqb Pos.eqb negb].
  rewrite E2. cbn [mbind result_bind]. by rewrite E3.
Qed.

(** What a string read at an offset tells about the data. *)
Lemma decode_cbor_text_segment data off s e :
  bytes_ok data → decode_cbor_text data off = Ok (s, e) →
  utf8_valid s = true ∧ (off < e ≤ length data)%nat.
Proof.
  intros Hok H. unfold decode_cbor_text in H. apply bind_Ok in H as ([[m v] hs] & Hh & H).
  pose proof (proj1 (parse_cbor_head_spec _ _ _ _ _) Hh) as (ai & rest & Hrd & _ & ? & Hle).
  pose proof (read_head_nonneg _ _ _ _ _ (Forall_drop _ _ _ Hok) Hrd) as Hv.
  destruct (negb (m =? 3)); [done|]. apply bind_Ok in H as (e' & He & H).
  destruct (utf8_valid _) eqn:Hu; [|done]. injection H as <- <-. split; [done|].
  apply checked_end_Ok in He as (-> & ? & _); [lia | done].
Qed.

(** * The encoder writes items *)

Lemma item_of_head m v body :
  0 ≤ m < 8 → 0 ≤ v ≤ u64_max →
  (∀ l ai, read_head l = Some (m, ai, v, body) → cbor_item l) →
  cbor_item (encode_head (Z.shiftl m 5) v ++ body).
Proof. intros Hm Hv HP. eapply HP. by apply read_head_encode. Qed.

Lemma encode_cbor_bstr_item b : len_ok b = true → cbor_item (encode_cbor_bstr b).
Proof.
  intros Hb%len_ok_bound. unfold encode_cbor_bstr. apply (item_of_head 2); [lia..|]. intros l ai Hr.
  eapply item_string; [exact Hr | auto | done].
Qed.

Lemma encode_cbor_text_item s : len_ok s = true → cbor_item (encode_cbor_text s).
Proof.
  intros Hb%len_ok_bound. unfold encode_cbor_text. apply (item_of_head 3); [lia..|]. intros l ai Hr.
  eapply item_string; [exact Hr | auto | done].
Qed.

Lemma cbor_items_concat ls : Forall cbor_item ls → cbor_items (length ls) (concat ls).
Proof. induction 1; cbn; by constructor. Qed.

Lemma array_item ls : Forall cbor_item ls → len_ok ls = true →
  cbor_item (encode_head MAJOR_ARRAY (Z.of_nat (length ls)) ++ concat ls).
Proof.
  intros Hls Hn%len_ok_bound. apply (item_of_head 4); [lia..|]. intros l ai Hr.
  eapply item_array; [exact Hr | by apply cbor_items_concat].
Qed.

Lemma map_item (es : list (list Z * list Z)) :
  Forall (λ e, cbor_item e.1 ∧ cbor_item e.2) es → len_ok es = true →
  cbor_item (encode_head MAJOR_MAP (Z.of_nat (length es)) ++ concat (map (λ e, e.1 ++ e.2) es)).
Proof.
  intros Hes Hn%len_ok_bound. apply (item_of_head 5); [lia..|]. intros l ai Hr.
  eapply item_map; [exact Hr|]. clear Hr Hn. induction Hes as [|e es [Hk Hv] _ IH]; cbn; [constructor|].
  replace (S (length es + S (length es)))%nat with (1 + (1 + (length es + length es)))%nat by lia.
  rewrite <-app_assoc. apply items_app; [by apply items_one|].
  apply items_app; [by apply items_one | exact IH].
Qed.

Lemma float_item f : cbor_item (encode_float f).
Proof.
  assert (H : ∀ b n z, (b = FLOAT_HALF ∧ n = 2%nat) ∨ (b = FLOAT_SINGLE ∧ n = 4%nat)
    ∨ (b = FLOAT_DOUBLE ∧ n = 8%nat) → cbor_item (b :: be_bytes n z)).
  { intros b n z [[-> ->]|[[-> ->]|[-> ->]]];
      (eapply (item_simple _ 7); [reflexivity | auto]). }
  unfold encode_float. destruct (try_encode_half f); [apply H; auto|].
  destruct (f64_eqb _ f); apply H; auto.
Qed.

Lemma to_ecf_item v : value_ok v = true → cbor_item (to_ecf v).
Proof.
  unfold to_ecf. induction v as [i|b|f|s|b| |t v IH|l IH|m IH]; intros Hok; cbn [encode_value].
  - cbn in Hok. apply andb_true_iff in Hok as [H1%Z.leb_le H2%Z.ltb_lt].
    rewrite encode_integer_shape by lia. unfold MAJOR_UNSIGNED, MAJOR_NEGATIVE.
    destruct (Z.leb_spec 0 i); rewrite <-(app_nil_r (encode_head _ _));
      [apply (item_of_head 0) | apply (item_of_head 1)]; unfold u64_max; try lia;
      intros l ai Hr; eapply item_simple; [exact Hr | auto | exact Hr | auto].
  - cbn in Hok. apply andb_true_iff in Hok as [_ Hok]. by apply encode_cbor_bstr_item.
  - apply float_item.
  - cbn in Hok. apply andb_true_iff in Hok as [_ Hok]. by apply encode_cbor_text_item.
  - destruct b; (eapply (item_simple _ 7); [reflexivity | auto]).
  - eapply (item_simple _ 7); [reflexivity | auto].
  - cbn in Hok. apply andb_true_iff in Hok as [_ Hok]. by apply IH.
  - cbn in Hok. apply andb_true_iff in Hok as [Hlen Hok].
    rewrite <-(length_map encode_value l). apply array_item.
    + apply Forall_map. rewrite forallb_forall in Hok. rewrite Forall_forall in *.
      intros x Hx. apply IH; [done|]. by apply Hok, list_elem_of_In.
    + unfold len_ok in *. by rewrite length_map.
  - cbn in Hok. apply andb_true_iff in Hok as [Hlen Hok].
    set (es := map (λ kv, (encode_value kv.1, encode_value kv.2)) m).
    assert (HL : length m = length (sort_by key_order es))
      by (rewrite (length_sort_by key_order); unfold es; by rewrite length_map).
    rewrite HL. apply map_item.
    + rewrite sort_by_Permutation. apply Forall_map. rewrite forallb_forall in Hok.
      rewrite Forall_forall in *. intros kv Hkv. cbn.
      destruct (IH kv Hkv). specialize (Hok kv). rewrite andb_true_iff in Hok.
      destruct Hok; [by apply list_elem_of_In | auto].
    + unfold len_ok in *. by rewrite <-HL.
Qed.

(** * Properties *)

(** The walker is exact.  On any received bytes it returns an end offset exactly
    when a well-formed, definite-length, tag-free CBOR item starts there and ends at
    that offset, whatever follows and however deep the item nests; every fuel from the
    number of bytes on gives the same answer, and all that the encoder writes is
    accepted. *)
Theorem item_end_spec data off e fuel :
  data_ok data → (length data ≤ fuel)%nat →
  (cbor_item_end data off = Ok e ↔ ∃ it, cbor_item it ∧ segment data off e it)
  ∧ (cbor_item_end_fuel fuel data off = Ok e ↔ cbor_item_end data off = Ok e)
  ∧ ∀ v rest, value_ok v = true → drop off data = to_ecf v ++ rest →
      cbor_item_end data off = Ok (off + length (to_ecf v))%nat.
Proof.
  intros Hd Hf. split_and!.
  - by apply item_end_iff; [|lia].
  - unfold cbor_item_end. by rewrite !item_end_iff by (done || lia).
  - intros v rest Hv Hdrop. eapply item_end_at; [apply Hd | exact Hdrop |]. by apply to_ecf_item.
Qed.

Lemma item_end_spec_witness :
  let data := 7 :: to_ecf (VArray [VInteger 300; VMap [(text (lit "k"), VNull)]]) ++ [0xC0] in
  cbor_item_end data 1 = Ok 9%nat ∧
  (cbor_item_end data 1 = Ok 9%nat ↔ ∃ it, cbor_item it ∧ segment data 1 9 it)
  ∧ (cbor_item_end_fuel 12 data 1 = Ok 9%nat ↔ cbor_item_end data 1 = Ok 9%nat)
  ∧ ∀ v rest, value_ok v = true → drop 1 data = to_ecf v ++ rest →
      cbor_item_end data 1 = Ok (1 + length (to_ecf v))%nat.
Proof.
  cbv zeta. split; [reflexivity|]. apply item_end_spec.
  - apply (bool_decide_unpack _). reflexivity.
  - vm_compute. lia.
Defined.
