(* ===== verification/Wire.v ===== *)
(** The entity and envelope codec of [core/wire/src/lib.rs].

    An entity travels as a three-entry map whose [data] value is the raw byte range
    received (never decoded and re-encoded); an envelope as a map of [root] and
    [included].  The loops over map entries are [for_count] with the state the code
    keeps in local variables.  [Vec::with_capacity] of a count read from the wire
    panics when the request exceeds [isize::MAX] bytes; functions that do this
    return [None] for the panic. *)
From S2P Require Import Prelude BTree Ecf Cbor ContentHash Entity Walker.

(** * Encoding *)

Definition encode_entity (e : Entity) : list Z :=
  [0xA3]
  ++ encode_cbor_text (lit "data") ++ data e
  ++ encode_cbor_text (lit "type") ++ encode_cbor_text (entity_type e)
  ++ encode_cbor_text (lit "content_hash") ++ encode_cbor_bstr (to_bytes (content_hash e)).

Definition encode_included (inc : list (Hash * Entity)) : list Z :=
  concat (map (λ p, encode_cbor_bstr (to_bytes p.1) ++ encode_entity p.2) inc).

Definition encode_envelope (env : Envelope) : list Z :=
  let inc := included env in
  [if bool_decide (inc = []) then 0xA1 else 0xA2]
  ++ encode_cbor_text (lit "root") ++ encode_entity (root env)
  ++ if bool_decide (inc = []) then []
     else encode_cbor_text (lit "included")
          ++ encode_head (Z.shiftl 5 5) (Z.of_nat (length inc)) ++ encode_included inc.

(** * Decoding an entity *)

Definition slice (data : list Z) (from to : nat) : list Z := take (to - from) (drop from data).

(** [Hash::from_bytes(b).map_err(CborDecode)] *)
Definition wire_hash (b : list Z) : result WireError Hash := map_err (λ _, CborDecode) (from_bytes b).

(** The map header test every decoder starts with. *)
Definition map_head (data : list Z) : result WireError (Z * nat) :=
  '(major, count, head_size) ← parse_cbor_head data 0;
  if negb (major =? 5) then Err CborDecode else Ok (count, head_size).

Record EntityScan := mkScan {
  es_type : option (list Z);
  es_data : option (list Z);
  es_hash : option Hash;
  es_cursor : nat;
}.

Definition entity_step (data : list Z) (st : EntityScan) : result WireError EntityScan :=
  '(key, value_start) ← decode_cbor_text data (es_cursor st);
  value_end ← cbor_item_end data value_start;
  if decide (key = lit "type") then
    '(s, _) ← decode_cbor_text data value_start;
    Ok (mkScan (Some s) (es_data st) (es_hash st) value_end)
  else if decide (key = lit "data") then
    Ok (mkScan (es_type st) (Some (slice data value_start value_end)) (es_hash st) value_end)
  else if decide (key = lit "content_hash") then
    '(b, _) ← decode_cbor_bytes data value_start;
    h ← wire_hash b;
    Ok (mkScan (es_type st) (es_data st) (Some h) value_end)
  else Ok (mkScan (es_type st) (es_data st) (es_hash st) value_end).

Definition decode_entity (data : list Z) : result WireError Entity :=
  '(count, head_size) ← map_head data;
  st ← for_count CborDecode (S (length data)) (entity_step data) count
         (mkScan None None None head_size);
  ty ← ok_or CborDecode (es_type st);
  d ← ok_or CborDecode (es_data st);
  h ← ok_or CborDecode (es_hash st);
  Ok (mkEntity ty d h).

Definition parts_step (data : list Z) (st : EntityScan) : result WireError EntityScan :=
  '(key, value_start) ← decode_cbor_text data (es_cursor st);
  value_end ← cbor_item_end data value_start;
  if decide (key = lit "type") then
    '(s, _) ← decode_cbor_text data value_start;
    Ok (mkScan (Some s) (es_data st) None value_end)
  else if decide (key = lit "data") then
    Ok (mkScan (es_type st) (Some (slice data value_start value_end)) None value_end)
  else Ok (mkScan (es_type st) (es_data st) None value_end).

Definition decode_entity_parts (data : list Z) : result WireError (list Z * list Z) :=
  '(count, head_size) ← map_head data;
  st ← for_count CborDecode (S (length data)) (parts_step data) count
         (mkScan None None None head_size);
  ty ← ok_or CborDecode (es_type st);
  d ← ok_or CborDecode (es_data st);
  Ok (ty, d).

(** * Decoding an envelope *)

Definition included_step (data : list Z) (st : list (Hash * Entity) * nat)
    : result WireError (list (Hash * Entity) * nat) :=
  let '(inc, inc_cursor) := st in
  '(hash_bytes, entity_start) ← decode_cbor_bytes data inc_cursor;
  h ← wire_hash hash_bytes;
  entity_end ← cbor_item_end data entity_start;
  e ← decode_entity (slice data entity_start entity_end);
  if negb (bool_decide (h = content_hash e)) then Err (IncludedKeyMismatch h (content_hash e))
  else Ok (bt_insert h e inc, entity_end).

Definition decode_included (data : list Z) (inc : list (Hash * Entity)) (value_start : nat)
    : result WireError (list (Hash * Entity)) :=
  '(inc_major, inc_count, inc_head) ← parse_cbor_head data value_start;
  if negb (inc_major =? 5) then Err CborDecode
  else
    st ← for_count CborDecode (S (length data)) (included_step data) inc_count
           (inc, (value_start + inc_head)%nat);
    Ok st.1.

Definition envelope_step (data : list Z) (st : option Entity * list (Hash * Entity) * nat)
    : result WireError (option Entity * list (Hash * Entity) * nat) :=
  let '(rt, inc, cursor) := st in
  '(key, value_start) ← decode_cbor_text data cursor;
  value_end ← cbor_item_end data value_start;
  if decide (key = lit "root") then
    e ← decode_entity (slice data value_start value_end);
    Ok (Some e, inc, value_end)
  else if decide (key = lit "included") then
    inc' ← decode_included data inc value_start;
    Ok (rt, inc', value_end)
  else Ok (rt, inc, value_end).

Definition decode_envelope (data : list Z) : result WireError Envelope :=
  '(count, head_size) ← map_head data;
  st ← for_count CborDecode (S (length data)) (envelope_step data) count (None, [], head_size);
  let '(rt, inc, _) := st in
  r ← ok_or CborDecode rt;
  Ok (with_included r inc).

(** The loop that returns from inside at the first [root]. *)
Fixpoint root_loop (fuel : nat) (data : list Z) (count : Z) (cursor : nat)
    : result WireError Entity :=
  if count <=? 0 then Err CborDecode
  else
    match fuel with
    | O => Err CborDecode
    | S fuel' =>
        '(key, value_start) ← decode_cbor_text data cursor;
        value_end ← cbor_item_end data value_start;
        if decide (key = lit "root") then decode_entity (slice data value_start value_end)
        else root_loop fuel' data (count - 1) value_end
    end.

Definition decode_envelope_root (data : list Z) : result WireError Entity :=
  '(count, head_size) ← map_head data;
  root_loop (S (length data)) data count head_size.

(** * Raw fields *)

Fixpoint field_loop (fuel : nat) (data key : list Z) (count : Z) (cursor : nat)
    : option (list Z) :=
  if count <=? 0 then None
  else
    match fuel with
    | O => None
    | S fuel' =>
        '(k, value_start) ← ok (decode_cbor_text data cursor);
        value_end ← ok (cbor_item_end data value_start);
        if decide (k = key) then Some (slice data value_start value_end)
        else field_loop fuel' data key (count - 1) value_end
    end.

Definition cbor_map_field_raw (data key : list Z) : option (list Z) :=
  '(count, head_size) ← ok (map_head data);
  field_loop (S (length data)) data key count head_size.

(** [Vec::with_capacity(n)] of elements of [size] bytes: [false] is the panic. *)
Definition capacity_ok (n size : Z) : bool := n * size <=? i64_max.

Definition element_step (data : list Z) (st : list (list Z) * nat)
    : result WireError (list (list Z) * nat) :=
  let '(out, cursor) := st in
  end_ ← cbor_item_end data cursor;
  Ok (out ++ [slice data cursor end_], end_).

(** A [&[u8]] takes 16 bytes. *)
Definition cbor_array_elements_raw (data : list Z) : option (option (list (list Z))) :=
  match parse_cbor_head data 0 with
  | Err _ => Some None
  | Ok (major, count, head_size) =>
      if negb (major =? 4) then Some None
      else if negb (capacity_ok count 16) then None
      else Some (fst <$> ok (for_count CborDecode (S (length data)) (element_step data) count
                              ([], head_size)))
  end.

Definition set_step (data key : list Z) (st : list (list Z * list Z) * nat)
    : result WireError (list (list Z * list Z) * nat) :=
  let '(entries, cursor) := st in
  '(k, after_key) ← decode_cbor_text data cursor;
  value_end ← cbor_item_end data after_key;
  Ok (if decide (k = key) then entries
      else entries ++ [(slice data cursor after_key, slice data after_key value_end)], value_end).

Definition encode_entries (entries : list (list Z * list Z)) : list Z :=
  encode_head (Z.shiftl 5 5) (Z.of_nat (length entries))
  ++ concat (map (λ e, e.1 ++ e.2) entries).

(** A pair of [Vec<u8>] takes 48 bytes. *)
Definition cbor_map_set_raw (map_bytes key value : list Z)
    : option (result WireError (list Z)) :=
  match map_head map_bytes with
  | Err e => Some (Err e)
  | Ok (count, head_size) =>
      if negb (capacity_ok (count + 1) 48) then None
      else Some (
        '(entries, _) ← for_count CborDecode (S (length map_bytes)) (set_step map_bytes key) count
                          ([], head_size);
        let entries := entries ++ [(encode_cbor_text key, value)] in
        Ok (encode_entries (sort_by key_order entries)))
  end.

(** * Reading back what was written *)

Lemma field_at data cur k v rest :
  data_ok data → utf8_valid k = true → len_ok k = true → cbor_item v →
  drop cur data = encode_cbor_text k ++ v ++ rest →
  let vs := (cur + length (encode_cbor_text k))%nat in
  let ve := (vs + length v)%nat in
  decode_cbor_text data cur = Ok (k, vs) ∧ cbor_item_end data vs = Ok ve
  ∧ slice data vs ve = v ∧ drop vs data = v ++ rest ∧ drop ve data = rest.
Proof.
  intros [_ Hlen] Hu Hk Hv Hd. cbv zeta.
  assert (Hd1 : drop (cur + length (encode_cbor_text k)) data = v ++ rest)
    by (by rewrite <-drop_drop, Hd, drop_app_length).
  split_and!; [by eapply decode_cbor_text_at | by eapply item_end_at | | done |].
  - unfold slice. rewrite Hd1, take_app_length' by lia. done.
  - by rewrite <-drop_drop, Hd1, drop_app_length.
Qed.

Definition wire_entity_ok (e : Entity) : Prop :=
  utf8_valid (entity_type e) = true ∧ len_ok (entity_type e) = true
  ∧ bytes_ok (data e) ∧ cbor_item (data e) ∧ hash_ok (content_hash e).

Lemma hash_bytes_len_ok h : hash_ok h → len_ok (to_bytes h) = true.
Proof.
  intros H. rewrite to_bytes_shape by done. unfold len_ok. cbn [length].
  destruct (hash_ok_cases h H) as [[_ ->]|[_ ->]]; done.
Qed.

Lemma hash_item h : hash_ok h → cbor_item (encode_cbor_bstr (to_bytes h)).
Proof. intros H. by apply encode_cbor_bstr_item, hash_bytes_len_ok. Qed.

Lemma wire_hash_at data cur h rest :
  data_ok data → hash_ok h → drop cur data = encode_cbor_bstr (to_bytes h) ++ rest →
  decode_cbor_bytes data cur = Ok (to_bytes h, (cur + length (encode_cbor_bstr (to_bytes h)))%nat)
  ∧ wire_hash (to_bytes h) = Ok h.
Proof.
  intros [_ Hlen] Hh Hd. split.
  - eapply decode_cbor_bytes_at; [by apply hash_bytes_len_ok | done | exact Hd].
  - unfold wire_hash. by rewrite from_bytes_to_bytes.
Qed.

Lemma map_head_at c data rest :
  0 ≤ c < 24 → data = (0xA0 + c) :: rest → map_head data = Ok (c, 1%nat).
Proof.
  intros Hc ->. unfold map_head, parse_cbor_head. cbn [lookup list_lookup].
  destruct (head_byte_split 5 c ltac:(lia) ltac:(lia)) as [E1 E2].
  change (32 * 5 + c) with (160 + c) in *. rewrite E1, E2.
  rewrite (proj2 (Z.leb_le 0 c)), (proj2 (Z.leb_le c 23)) by lia. done.
Qed.

Ltac key_ok := vm_compute; reflexivity.
Ltac key_ne := rewrite decide_False by (vm_compute; congruence).
Ltac run := cbn [mbind result_bind].

Ltac key_cong := vm_compute; congruence.

Section steps.
Context (D : list Z) (t d : option (list Z)) (oh : option Hash) (cur vs ve : nat).

Lemma entity_step_data :
  decode_cbor_text D cur = Ok (lit "data", vs) → cbor_item_end D vs = Ok ve →
  entity_step D (mkScan t d oh cur) = Ok (mkScan t (Some (slice D vs ve)) oh ve).
Proof.
  intros H1 H2. unfold entity_step. cbn [es_cursor es_type es_data es_hash]. rewrite H1. run. rewrite H2. run. key_ne.
  by rewrite decide_True.
Qed.

Lemma entity_step_type s n :
  decode_cbor_text D cur = Ok (lit "type", vs) → cbor_item_end D vs = Ok ve →
  decode_cbor_text D vs = Ok (s, n) →
  entity_step D (mkScan t d oh cur) = Ok (mkScan (Some s) d oh ve).
Proof.
  intros H1 H2 H3. unfold entity_step. cbn [es_cursor es_type es_data es_hash]. rewrite H1. run. rewrite H2. run.
  rewrite decide_True by done. by rewrite H3.
Qed.

Lemma entity_step_hash b n h :
  decode_cbor_text D cur = Ok (lit "content_hash", vs) → cbor_item_end D vs = Ok ve →
  decode_cbor_bytes D vs = Ok (b, n) → wire_hash b = Ok h →
  entity_step D (mkScan t d oh cur) = Ok (mkScan t d (Some h) ve).
Proof.
  intros H1 H2 H3 H4. unfold entity_step. cbn [es_cursor es_type es_data es_hash]. rewrite H1. run. rewrite H2. run. key_ne. key_ne.
  rewrite decide_True, H3 by done. run. by rewrite H4.
Qed.

Lemma parts_step_data :
  decode_cbor_text D cur = Ok (lit "data", vs) → cbor_item_end D vs = Ok ve →
  parts_step D (mkScan t d oh cur) = Ok (mkScan t (Some (slice D vs ve)) None ve).
Proof.
  intros H1 H2. unfold parts_step. cbn [es_cursor es_type es_data es_hash]. rewrite H1. run. rewrite H2. run. key_ne.
  by rewrite decide_True.
Qed.

Lemma parts_step_type s n :
  decode_cbor_text D cur = Ok (lit "type", vs) → cbor_item_end D vs = Ok ve →
  decode_cbor_text D vs = Ok (s, n) →
  parts_step D (mkScan t d oh cur) = Ok (mkScan (Some s) d None ve).
Proof.
  intros H1 H2 H3. unfold parts_step. cbn [es_cursor es_type es_data es_hash]. rewrite H1. run. rewrite H2. run.
  rewrite decide_True by done. by rewrite H3.
Qed.

Lemma parts_step_other key :
  decode_cbor_text D cur = Ok (key, vs) → cbor_item_end D vs = Ok ve →
  key ≠ lit "type" → key ≠ lit "data" →
  parts_step D (mkScan t d oh cur) = Ok (mkScan t d None ve).
Proof.
  intros H1 H2 Hk1 Hk2. unfold parts_step. cbn [es_cursor es_type es_data es_hash]. rewrite H1. run. rewrite H2. run.
  by rewrite !decide_False by done.
Qed.
End steps.

Lemma decode_entity_encode e rest :
  wire_entity_ok e → data_ok (encode_entity e ++ rest) →
  decode_entity (encode_entity e ++ rest) = Ok e
  ∧ decode_entity_parts (encode_entity e ++ rest) = Ok (entity_type e, data e).
Proof.
  intros (Hu & Hl & Hb & Hd & Hh) Hok. set (D := encode_entity e ++ rest) in *.
  assert (D1 : drop 1 D = encode_cbor_text (lit "data") ++ data e
    ++ encode_cbor_text (lit "type") ++ encode_cbor_text (entity_type e)
    ++ encode_cbor_text (lit "content_hash") ++ encode_cbor_bstr (to_bytes (content_hash e)) ++ rest).
  { unfold D, encode_entity. rewrite <-!app_assoc. done. }
  assert (HL : (3 ≤ S (length D))%nat).
  { unfold D, encode_entity. rewrite !length_app.
    change (length (encode_cbor_text (lit "data"))) with 5%nat. lia. }
  destruct (field_at D 1 (lit "data") _ _ Hok ltac:(key_ok) ltac:(key_ok) Hd D1)
    as (A1 & A2 & A3 & _ & A5).
  destruct (field_at D _ (lit "type") _ _ Hok ltac:(key_ok) ltac:(key_ok)
              (encode_cbor_text_item _ Hl) A5) as (B1 & B2 & _ & B4 & B5).
  destruct (field_at D _ (lit "content_hash") _ _ Hok ltac:(key_ok) ltac:(key_ok)
              (hash_item _ Hh) B5) as (C1 & C2 & _ & C4 & _).
  destruct (wire_hash_at D _ _ _ Hok Hh C4) as [H1 H2].
  pose proof (decode_cbor_text_at D _ _ _ Hl Hu (proj2 Hok) B4) as T1.
  split.
  - unfold decode_entity. rewrite (map_head_at 3 D _ ltac:(lia) eq_refl). run.
    rewrite (for_count_iter _ _ 3) by done. cbn [iterM].
    rewrite (entity_step_data D _ _ _ _ _ _ A1 A2). run.
    rewrite (entity_step_type D _ _ _ _ _ _ _ _ B1 B2 T1). run.
    rewrite (entity_step_hash D _ _ _ _ _ _ _ _ _ C1 C2 H1 H2). run. cbn [es_type es_data es_hash ok_or].
    rewrite A3. run. by destruct e.
  - unfold decode_entity_parts. rewrite (map_head_at 3 D _ ltac:(lia) eq_refl). run.
    rewrite (for_count_iter _ _ 3) by done. cbn [iterM].
    rewrite (parts_step_data D _ _ _ _ _ _ A1 A2). run.
    rewrite (parts_step_type D _ _ _ _ _ _ _ _ B1 B2 T1). run.
    rewrite (parts_step_other D _ _ _ _ _ _ (lit "content_hash") C1 C2) by key_cong. run.
    cbn [es_type es_data ok_or]. by rewrite A3.
Qed.

(** An encoded entity is one item. *)
Lemma encode_entity_item e : wire_entity_ok e → cbor_item (encode_entity e).
Proof.
  intros (Hu & Hl & Hb & Hd & Hh).
  set (es := [(encode_cbor_text (lit "data"), data e);
              (encode_cbor_text (lit "type"), encode_cbor_text (entity_type e));
              (encode_cbor_text (lit "content_hash"), encode_cbor_bstr (to_bytes (content_hash e)))]).
  assert (E : encode_entity e = encode_head MAJOR_MAP (Z.of_nat (length es))
              ++ concat (map (λ e, e.1 ++ e.2) es)).
  { unfold encode_entity, es. cbn [map concat fst snd]. rewrite app_nil_r, <-!app_assoc. done. }
  rewrite E. apply map_item; [|done].
  assert (K : ∀ k v, len_ok k = true → cbor_item v →
    cbor_item (encode_cbor_text k, v).1 ∧ cbor_item (encode_cbor_text k, v).2)
    by (intros k v ? ?; split; [by apply encode_cbor_text_item | done]).
  apply Forall_cons; split; [by apply K|]. apply Forall_cons; split.
  { apply K; [done | by apply encode_cbor_text_item]. }
  apply Forall_cons; split; [|constructor]. apply K; [done | by apply hash_item].
Qed.

(** ** Envelopes *)

Definition env_wire_ok (env : Envelope) : Prop :=
  wire_entity_ok (root env) ∧ bt_ok (included env)
  ∧ Forall (λ p, wire_entity_ok p.2 ∧ p.1 = content_hash p.2) (included env)
  ∧ len_ok (included env) = true.

Lemma data_ok_sub D off l rest : data_ok D → drop off D = l ++ rest → data_ok l.
Proof.
  intros [Hb Hl] Hd. split.
  - apply (Forall_drop _ off) in Hb. rewrite Hd in Hb. by apply Forall_app in Hb as [? _].
  - apply drop_length_le in Hd. rewrite length_app in Hd. lia.
Qed.

Lemma decode_entity_exact e :
  wire_entity_ok e → data_ok (encode_entity e) → decode_entity (encode_entity e) = Ok e.
Proof.
  intros He Hok. rewrite <-(app_nil_r (encode_entity e)) in Hok |- *.
  by apply decode_entity_encode.
Qed.

Lemma item_slice D cur it rest :
  data_ok D → cbor_item it → drop cur D = it ++ rest →
  cbor_item_end D cur = Ok (cur + length it)%nat ∧ slice D cur (cur + length it) = it
  ∧ drop (cur + length it) D = rest.
Proof.
  intros [Hb Hl] Hi Hd. split_and!; [by eapply item_end_at | |].
  - unfold slice. rewrite Hd, take_app_length' by lia. done.
  - by rewrite <-drop_drop, Hd, drop_app_length.
Qed.

Lemma included_step_at D inc h e cur rest :
  data_ok D → wire_entity_ok e → h = content_hash e →
  drop cur D = (encode_cbor_bstr (to_bytes h) ++ encode_entity e) ++ rest →
  included_step D (inc, cur)
  = Ok (bt_insert h e inc,
        (cur + length (encode_cbor_bstr (to_bytes h) ++ encode_entity e))%nat).
Proof.
  intros Hok He -> Hd. rewrite <-app_assoc in Hd. assert (Hh : hash_ok (content_hash e)) by apply He.
  destruct (wire_hash_at D _ _ _ Hok Hh Hd) as [H1 H2].
  assert (Hd2 : drop (cur + length (encode_cbor_bstr (to_bytes (content_hash e)))) D
                = encode_entity e ++ rest) by (by rewrite <-drop_drop, Hd, drop_app_length).
  destruct (item_slice D _ _ _ Hok (encode_entity_item e He) Hd2) as (H3 & H4 & _).
  unfold included_step. rewrite H1. run. rewrite H2. run. rewrite H3. run.
  rewrite H4, decode_entity_exact; [|done | by eapply data_ok_sub]. run.
  rewrite bool_decide_eq_true_2 by done. cbn [negb]. rewrite length_app. by rewrite Nat.add_assoc.
Qed.

Lemma included_loop D todo : ∀ inc cur rest,
  data_ok D → Forall (λ p, wire_entity_ok p.2 ∧ p.1 = content_hash p.2) todo →
  drop cur D = encode_included todo ++ rest →
  iterM (length todo) (included_step D) (inc, cur)
  = Ok (foldl (λ acc p, bt_insert p.1 p.2 acc) inc todo, (cur + length (encode_included todo))%nat).
Proof.
  induction todo as [|[h e] todo IH]; intros inc cur rest Hok Hall Hd.
  - cbn. by rewrite Nat.add_0_r.
  - apply Forall_cons in Hall as [[He Hh] Hall]. cbn [fst snd] in *. unfold encode_included in Hd.
    cbn [map concat fst snd] in Hd. rewrite <-app_assoc in Hd. cbn [length iterM].
    rewrite (included_step_at D inc h e cur _ Hok He Hh Hd). run.
    rewrite (IH _ _ rest Hok Hall).
    + unfold encode_included. cbn [map concat fst snd foldl]. rewrite !length_app.
      do 2 f_equal. lia.
    + by rewrite <-drop_drop, Hd, drop_app_length.
Qed.

Lemma length_encode_included inc : (length inc ≤ length (encode_included inc))%nat.
Proof.
  unfold encode_included.
  set (f := λ p : Hash * Entity, encode_cbor_bstr (to_bytes p.1) ++ encode_entity p.2).
  rewrite <-(length_map f inc) at 1.
  apply length_concat_pos. apply Forall_map, Forall_forall. intros p _. unfold f.
  unfold encode_cbor_bstr. intros [[? _]%app_nil _]%app_nil. by eapply encode_head_ne.
Qed.

Definition included_item (inc : list (Hash * Entity)) : list Z :=
  encode_head (Z.shiftl 5 5) (Z.of_nat (length inc)) ++ encode_included inc.

Lemma decode_included_at D inc cur rest :
  data_ok D → bt_ok inc → len_ok inc = true →
  Forall (λ p, wire_entity_ok p.2 ∧ p.1 = content_hash p.2) inc →
  drop cur D = included_item inc ++ rest → decode_included D [] cur = Ok inc.
Proof.
  intros Hok Hbt Hlen Hall Hd. unfold included_item in Hd.
  assert (Hr : read_head (encode_head (Z.shiftl 5 5) (Z.of_nat (length inc)) ++ encode_included inc)
    = Some (5, head_ai (Z.of_nat (length inc)), Z.of_nat (length inc), encode_included inc))
    by (apply read_head_encode; [lia | by apply len_ok_bound]).
  destruct (parse_cbor_head_at _ _ _ _ _ _ _ _ Hd Hr) as (hs & Hp & _ & _ & Hd2 & _).
  unfold decode_included. rewrite Hp. run. cbn [Z.eqb Pos.eqb negb].
  rewrite for_count_iter.
  - rewrite (included_loop D inc [] _ rest Hok Hall Hd2). run. cbn [fst].
    by rewrite bt_fold_insert.
  - pose proof (length_encode_included inc). apply drop_length_le in Hd2.
    rewrite length_app in Hd2. lia.
Qed.

Lemma included_item_item inc :
  len_ok inc = true → Forall (λ p, wire_entity_ok p.2 ∧ p.1 = content_hash p.2) inc →
  cbor_item (included_item inc).
Proof.
  intros Hlen Hall. unfold included_item, encode_included.
  set (es := map (λ p : Hash * Entity, (encode_cbor_bstr (to_bytes p.1), encode_entity p.2)) inc).
  assert (HL : length inc = length es) by (unfold es; by rewrite length_map).
  assert (E : concat (map (λ p, encode_cbor_bstr (to_bytes p.1) ++ encode_entity p.2) inc)
              = concat (map (λ e, e.1 ++ e.2) es)) by (unfold es; by rewrite map_map).
  rewrite E, HL. apply map_item.
  - apply Forall_map. eapply Forall_impl; [exact Hall|]. intros [h e] [He Hh]. cbn in *.
    split; [subst h; apply hash_item, He | by apply encode_entity_item].
  - unfold len_ok in *. by rewrite <-HL.
Qed.

Lemma encode_envelope_shape env :
  encode_envelope env =
    (0xA0 + (if bool_decide (included env = []) then 1 else 2))
    :: encode_cbor_text (lit "root") ++ encode_entity (root env)
    ++ if bool_decide (included env = []) then []
       else encode_cbor_text (lit "included") ++ included_item (included env).
Proof. unfold encode_envelope, included_item. by case_bool_decide. Qed.

Definition env_count (env : Envelope) : Z := if bool_decide (included env = []) then 1 else 2.

Lemma env_head env rest :
  map_head (encode_envelope env ++ rest) = Ok (env_count env, 1%nat).
Proof.
  rewrite encode_envelope_shape. eapply map_head_at; [|reflexivity].
  unfold env_count. by case_bool_decide.
Qed.

(** The first round of either loop. *)
Lemma env_root_field D env rest :
  data_ok D → wire_entity_ok (root env) →
  drop 1 D = encode_cbor_text (lit "root") ++ encode_entity (root env) ++ rest →
  ∃ vs ve, decode_cbor_text D 1 = Ok (lit "root", vs) ∧ cbor_item_end D vs = Ok ve
    ∧ decode_entity (slice D vs ve) = Ok (root env) ∧ drop ve D = rest.
Proof.
  intros Hok Hr D1.
  destruct (field_at D 1 (lit "root") _ _ Hok ltac:(key_ok) ltac:(key_ok)
              (encode_entity_item _ Hr) D1) as (A1 & A2 & A3 & A4 & A5).
  eexists _, _. split_and!; [exact A1 | exact A2 | | exact A5].
  rewrite A3. apply decode_entity_exact; [done | by eapply data_ok_sub].
Qed.

Lemma envelope_step_root D inc cur vs ve e :
  decode_cbor_text D cur = Ok (lit "root", vs) → cbor_item_end D vs = Ok ve →
  decode_entity (slice D vs ve) = Ok e →
  envelope_step D (None, inc, cur) = Ok (Some e, inc, ve).
Proof.
  intros H1 H2 H3. unfold envelope_step. rewrite H1. run. rewrite H2. run.
  rewrite decide_True by done. by rewrite H3.
Qed.

Lemma envelope_step_included D rt inc cur vs ve inc' :
  decode_cbor_text D cur = Ok (lit "included", vs) → cbor_item_end D vs = Ok ve →
  decode_included D inc vs = Ok inc' →
  envelope_step D (rt, inc, cur) = Ok (rt, inc', ve).
Proof.
  intros H1 H2 H3. unfold envelope_step. rewrite H1. run. rewrite H2. run. key_ne.
  rewrite decide_True by done. by rewrite H3.
Qed.

Lemma decode_envelope_encode env rest :
  env_wire_ok env → data_ok (encode_envelope env ++ rest) →
  decode_envelope (encode_envelope env ++ rest) = Ok env
  ∧ decode_envelope_root (encode_envelope env ++ rest) = Ok (root env).
Proof.
  intros (Hr & Hbt & Hinc & Hlen) Hok. pose proof (env_head env rest) as Hhd.
  assert (D1 : drop 1 (encode_envelope env ++ rest)
    = encode_cbor_text (lit "root") ++ encode_entity (root env)
    ++ (if bool_decide (included env = []) then []
        else encode_cbor_text (lit "included") ++ included_item (included env)) ++ rest).
  { rewrite encode_envelope_shape. cbn [app drop]. by rewrite drop_0, <-!app_assoc. }
  assert (HL : (1 ≤ length (encode_envelope env ++ rest))%nat)
    by (rewrite encode_envelope_shape; cbn [app length]; lia).
  generalize dependent (encode_envelope env ++ rest). intros D Hok Hhd D1 HL.
  destruct (env_root_field D env _ Hok Hr D1) as (vs & ve & A1 & A2 & A3 & A4).
  split.
  - unfold decode_envelope. rewrite Hhd. run.
    pose proof (envelope_step_root D [] 1 vs ve _ A1 A2 A3) as S1.
    unfold env_count. case_bool_decide as Hemp.
    + rewrite (for_count_iter _ _ 1) by lia. cbn [iterM]. rewrite S1. run. cbn [ok_or]. run.
      unfold with_included. rewrite <-Hemp. by destruct env.
    + rewrite (for_count_iter _ _ 2) by lia. cbn [iterM]. rewrite S1. run.
      rewrite <-app_assoc in A4.
      destruct (field_at D _ (lit "included") _ _ Hok ltac:(key_ok) ltac:(key_ok)
                  (included_item_item _ Hlen Hinc) A4) as (B1 & B2 & _ & B4 & _).
      rewrite (envelope_step_included D _ [] ve _ _ _ B1 B2
                 (decode_included_at D _ _ _ Hok Hbt Hlen Hinc B4)).
      run. cbn [ok_or]. run. unfold with_included. by destruct env.
  - unfold decode_envelope_root. rewrite Hhd. run. cbn [root_loop].
    assert (env_count env <=? 0 = false) as -> by (unfold env_count; by case_bool_decide).
    rewrite A1. run. rewrite A2. run. by rewrite decide_True.
Qed.

(** * What the decoders accept *)

Lemma slice_item D vs ve :
  data_ok D → cbor_item_end D vs = Ok ve → cbor_item (slice D vs ve) ∧ data_ok (slice D vs ve).
Proof.
  intros Hok H. apply (item_end_iff D) in H as (it & Hi & Hs); [|done|lia].
  unfold slice. rewrite (segment_take _ _ _ _ Hs). split; [done|].
  destruct Hs as [Hd _]. by eapply data_ok_sub.
Qed.

Lemma decode_cbor_text_ok D cur s n :
  data_ok D → decode_cbor_text D cur = Ok (s, n) → utf8_valid s = true ∧ len_ok s = true.
Proof.
  intros [Hb Hl] H. split; [by eapply decode_cbor_text_segment|]. revert H.
  unfold decode_cbor_text. intros H. apply bind_Ok in H as ([[m v] hs] & _ & H).
  destruct (negb (m =? 3)); [done|]. apply bind_Ok in H as (e & _ & H).
  destruct (utf8_valid _); [|done]. injection H as <- _. unfold len_ok. apply Z.leb_le.
  rewrite length_take, length_drop. lia.
Qed.

Lemma decode_cbor_bytes_ok D cur b n :
  data_ok D → decode_cbor_bytes D cur = Ok (b, n) → bytes_ok b.
Proof.
  intros [Hb _] H. unfold decode_cbor_bytes in H. apply bind_Ok in H as ([[m v] hs] & _ & H).
  destruct (negb (m =? 2)); [done|]. apply bind_Ok in H as (e & _ & H). injection H as <- _.
  by apply Forall_take, Forall_drop.
Qed.

Lemma wire_hash_ok b h : bytes_ok b → wire_hash b = Ok h → hash_ok h.
Proof.
  unfold wire_hash. intros Hb. destruct (from_bytes b) as [h'|] eqn:E; [|done].
  intros [= <-]. by eapply from_bytes_ok.
Qed.

Definition scan_ok (st : EntityScan) : Prop :=
  (∀ t, es_type st = Some t → utf8_valid t = true ∧ len_ok t = true)
  ∧ (∀ d, es_data st = Some d → cbor_item d ∧ data_ok d)
  ∧ (∀ h, es_hash st = Some h → hash_ok h).

Lemma entity_step_ok D st st' :
  data_ok D → scan_ok st → entity_step D st = Ok st' → scan_ok st'.
Proof.
  intros Hok (Ht & Hd & Hh) H. unfold entity_step in H.
  apply bind_Ok in H as ([key vs] & _ & H). apply bind_Ok in H as (ve & Hve & H).
  repeat case_decide.
  - apply bind_Ok in H as ([s n] & Hs & H). injection H as <-.
    split_and!; try done. intros t [= <-]. by eapply decode_cbor_text_ok.
  - injection H as <-. split_and!; try done. intros d [= <-]. by apply slice_item.
  - apply bind_Ok in H as ([b n] & Hb & H). apply bind_Ok in H as (h & Hw & H).
    injection H as <-. split_and!; try done. intros h' [= <-].
    eapply wire_hash_ok; [by eapply decode_cbor_bytes_ok | done].
  - by injection H as <-.
Qed.

Lemma decode_entity_ok D e : data_ok D → decode_entity D = Ok e → wire_entity_ok e.
Proof.
  intros Hok H. unfold decode_entity in H. apply bind_Ok in H as ([c hs] & _ & H).
  apply bind_Ok in H as (st & Hst & H). inv_ok.
  apply (for_count_invariant _ _ (λ _ st, scan_ok st)) with (n := 0%nat) in Hst.
  - destruct Hst as (Ht & Hd & Hh). destruct (Ht _ Hr), (Hd _ Hr0) as [? [? ?]].
    split_and!; cbn; auto.
  - intros _ s s' Hs Hstep. by eapply entity_step_ok.
  - by split_and!.
Qed.

Definition inc_ok (inc : list (Hash * Entity)) : Prop :=
  bt_ok inc ∧ Forall (λ p, wire_entity_ok p.2 ∧ p.1 = content_hash p.2) inc.

Lemma included_step_ok D st st' :
  data_ok D → inc_ok st.1 → included_step D st = Ok st' → inc_ok st'.1.
Proof.
  intros Hok [Hbt Hall] H. destruct st as [inc cur]. unfold included_step in H.
  apply bind_Ok in H as ([b es] & _ & H). apply bind_Ok in H as (h & _ & H).
  apply bind_Ok in H as (ee & Hend & H). apply bind_Ok in H as (e & He & H).
  case_bool_decide as Hk; cbn [negb] in H; [|done]. injection H as <-. cbn [fst] in *.
  split; [by apply bt_insert_ok|]. apply bt_insert_Forall; [|done]. cbn. split; [|done].
  eapply decode_entity_ok; [|exact He]. by apply slice_item.
Qed.

Lemma decode_included_ok D inc vs inc' :
  data_ok D → inc_ok inc → decode_included D inc vs = Ok inc' → inc_ok inc'.
Proof.
  intros Hok Hinc H. unfold decode_included in H. apply bind_Ok in H as ([[m c] hs] & _ & H).
  destruct (negb (m =? 5)); [done|]. apply bind_Ok in H as (st & Hst & H). injection H as <-.
  apply (for_count_invariant _ _ (λ _ st, inc_ok st.1)) with (n := 0%nat) in Hst; [done| |done].
  intros _ s s' Hs Hstep. by eapply included_step_ok.
Qed.

Lemma envelope_step_ok D st st' :
  data_ok D →
  (∀ r, st.1.1 = Some r → wire_entity_ok r) ∧ inc_ok st.1.2 → envelope_step D st = Ok st' →
  (∀ r, st'.1.1 = Some r → wire_entity_ok r) ∧ inc_ok st'.1.2.
Proof.
  intros Hok [Hr Hinc] H. destruct st as [[rt inc] cur]. unfold envelope_step in H.
  apply bind_Ok in H as ([key vs] & _ & H). apply bind_Ok in H as (ve & Hve & H).
  repeat case_decide.
  - apply bind_Ok in H as (e & He & H). injection H as <-. split; [|done]. intros r [= <-].
    eapply decode_entity_ok; [|exact He]. by apply slice_item.
  - apply bind_Ok in H as (inc' & Hi & H). injection H as <-. split; [done|].
    by eapply decode_included_ok.
  - by injection H as <-.
Qed.

Lemma decode_envelope_ok D env :
  data_ok D → decode_envelope D = Ok env → wire_entity_ok (root env) ∧ inc_ok (included env).
Proof.
  intros Hok H. unfold decode_envelope in H. apply bind_Ok in H as ([c hs] & _ & H).
  apply bind_Ok in H as (st & Hst & H).
  apply (for_count_invariant _ _
    (λ _ st, (∀ r, st.1.1 = Some r → wire_entity_ok r) ∧ inc_ok st.1.2)) with (n := 0%nat) in Hst.
  - destruct st as [[rt inc] cur]. inv_ok. destruct Hst as [Hr' Hinc]. split; [|done].
    by apply Hr'.
  - intros _ s s' Hs Hstep. by eapply envelope_step_ok.
  - split; [done|]. split; constructor.
Qed.

Lemma capacity_ok_bound n : capacity_ok (n + 1) 48 = true → n + 1 ≤ u64_max.
Proof. unfold capacity_ok, i64_max, u64_max. intros H%Z.leb_le. lia. Qed.

(** * Raw fields of a map

    A map with text keys, as the pairs of key string and value bytes. *)

Definition encf (f : list Z * list Z) : list Z * list Z := (encode_cbor_text f.1, f.2).
Definition enc_fields (fs : list (list Z * list Z)) : list Z := encode_entries (map encf fs).

Fixpoint field_get (fs : list (list Z * list Z)) (key : list Z) : option (list Z) :=
  match fs with
  | [] => None
  | (k, v) :: fs' => if decide (k = key) then Some v else field_get fs' key
  end.

Definition field_ok (f : list Z * list Z) : Prop :=
  utf8_valid f.1 = true ∧ len_ok f.1 = true ∧ cbor_item f.2.

Definition set_fields (fs : list (list Z * list Z)) (key value : list Z) : list (list Z * list Z) :=
  sort_by (λ f g, shortlex (encode_cbor_text f.1) (encode_cbor_text g.1))
    (filter (λ f, f.1 ≠ key) fs ++ [(key, value)]).

Definition body_of (fs : list (list Z * list Z)) : list Z :=
  concat (map (λ e, e.1 ++ e.2) (map encf fs)).

Lemma body_of_cons k v fs : body_of ((k, v) :: fs) = encode_cbor_text k ++ v ++ body_of fs.
Proof. unfold body_of. cbn [map concat encf fst snd]. by rewrite <-app_assoc. Qed.

Lemma length_body_of fs : (length fs ≤ length (body_of fs))%nat.
Proof.
  unfold body_of. rewrite <-(length_map encf fs), <-(length_map (λ e, e.1 ++ e.2) (map encf fs)) at 1.
  apply length_concat_pos. rewrite map_map. apply Forall_map, Forall_forall. intros f _. cbn.
  unfold encode_cbor_text. intros [[? _]%app_nil _]%app_nil. by eapply encode_head_ne.
Qed.

Lemma enc_fields_head fs rest :
  len_ok fs = true →
  ∃ hs, map_head (enc_fields fs ++ rest) = Ok (Z.of_nat (length fs), hs)
        ∧ drop hs (enc_fields fs ++ rest) = body_of fs ++ rest.
Proof.
  intros Hlen. assert (Hr : read_head (enc_fields fs)
    = Some (5, head_ai (Z.of_nat (length fs)), Z.of_nat (length fs), body_of fs)).
  { unfold enc_fields, encode_entries. rewrite length_map.
    apply read_head_encode; [lia | by apply len_ok_bound]. }
  destruct (parse_cbor_head_at (enc_fields fs ++ rest) 0 _ _ _ _ _ _ eq_refl Hr)
    as (hs & Hp & _ & _ & Hd & _).
  exists hs. unfold map_head. rewrite Hp. by split.
Qed.

Lemma field_loop_spec D key fs : ∀ fuel cur rest,
  data_ok D → Forall field_ok fs → (length fs ≤ fuel)%nat →
  drop cur D = body_of fs ++ rest →
  field_loop fuel D key (Z.of_nat (length fs)) cur = field_get fs key.
Proof.
  induction fs as [|[k v] fs IH]; intros fuel cur rest Hok Hall Hf Hd; [by destruct fuel|].
  destruct fuel as [|fuel]; [cbn in Hf; lia|]. cbn [field_loop field_get length] in *.
  apply Forall_cons in Hall as [(Hu & Hl & Hi) Hall]. cbn [fst snd] in *.
  rewrite body_of_cons, <-!app_assoc in Hd.
  destruct (field_at D cur k v _ Hok Hu Hl Hi Hd) as (E1 & E2 & E3 & _ & E5).
  rewrite (proj2 (Z.leb_gt _ 0)) by lia. rewrite E1. cbn [ok mbind option_bind]. rewrite E2.
  cbn [ok mbind option_bind]. rewrite E3. case_decide; [done|].
  replace (Z.of_nat (S (length fs)) - 1) with (Z.of_nat (length fs)) by lia.
  apply (IH fuel _ rest); [done | done | lia | exact E5].
Qed.

Lemma cbor_map_field_raw_spec fs key rest :
  data_ok (enc_fields fs ++ rest) → len_ok fs = true → Forall field_ok fs →
  cbor_map_field_raw (enc_fields fs ++ rest) key = field_get fs key.
Proof.
  intros Hok Hlen Hall. destruct (enc_fields_head fs rest Hlen) as (hs & Hh & Hd).
  unfold cbor_map_field_raw. rewrite Hh. cbn [ok mbind option_bind].
  apply (field_loop_spec _ _ _ _ _ rest); [done | done | | done].
  pose proof (length_body_of fs). apply drop_length_le in Hd. rewrite length_app in Hd. lia.
Qed.

Lemma set_loop_spec D key fs : ∀ acc cur rest,
  data_ok D → Forall field_ok fs → drop cur D = body_of fs ++ rest →
  ∃ e, iterM (length fs) (set_step D key) (acc, cur)
       = Ok (acc ++ map encf (filter (λ f, f.1 ≠ key) fs), e).
Proof.
  induction fs as [|[k v] fs IH]; intros acc cur rest Hok Hall Hd.
  - exists cur. cbn. by rewrite app_nil_r.
  - apply Forall_cons in Hall as [(Hu & Hl & Hi) Hall]. cbn [fst snd length iterM] in *.
    rewrite body_of_cons, <-!app_assoc in Hd.
    destruct (field_at D cur k v _ Hok Hu Hl Hi Hd) as (E1 & E2 & E3 & _ & E5).
    assert (Ek : slice D cur (cur + length (encode_cbor_text k)) = encode_cbor_text k).
    { unfold slice. rewrite Hd, take_app_length' by lia. done. }
    assert (S1 : set_step D key (acc, cur) =
      Ok (if decide (k = key) then acc else acc ++ [(encode_cbor_text k, v)],
          (cur + length (encode_cbor_text k) + length v)%nat)).
    { unfold set_step. rewrite E1. run. rewrite E2. run. by rewrite Ek, E3. }
    rewrite S1. run. destruct (IH (if decide (k = key) then acc else acc ++ [(encode_cbor_text k, v)]) _ rest Hok Hall E5)
      as [e He].
    exists e. rewrite He. f_equal. f_equal. rewrite filter_cons. cbn [fst].
    destruct (decide (k = key)) as [->|Hne].
    + by rewrite decide_False by (intros []; done).
    + rewrite decide_True by done. cbn [map]. by rewrite <-app_assoc.
Qed.

Lemma cbor_map_set_raw_spec fs key value :
  data_ok (enc_fields fs) → len_ok fs = true → Forall field_ok fs →
  capacity_ok (Z.of_nat (length fs) + 1) 48 = true →
  cbor_map_set_raw (enc_fields fs) key value = Some (Ok (enc_fields (set_fields fs key value))).
Proof.
  intros Hok Hlen Hall Hcap. destruct (enc_fields_head fs [] Hlen) as (hs & Hh & Hd).
  rewrite !app_nil_r in *. unfold cbor_map_set_raw. rewrite Hh, Hcap. cbn [negb].
  rewrite for_count_iter.
  - rewrite <-(app_nil_r (body_of fs)) in Hd.
    destruct (set_loop_spec _ key fs [] hs [] Hok Hall Hd) as [e He]. rewrite He. run.
    do 2 f_equal. cbn [app]. unfold enc_fields, set_fields. f_equal.
    change [(encode_cbor_text key, value)] with (map encf [(key, value)]). rewrite <-map_app.
    by apply sort_by_map.
  - pose proof (length_body_of fs). apply drop_length_le in Hd. lia.
Qed.

Lemma field_get_elem fs k v :
  NoDup (map fst fs) → field_get fs k = Some v ↔ (k, v) ∈ fs.
Proof.
  induction fs as [|[k' v'] fs IH]; cbn [map fst field_get]; intros Hnd; [set_solver|].
  apply NoDup_cons in Hnd as [Hn Hnd]. rewrite elem_of_cons. case_decide as Hk.
  - subst k'. split; [intros [= ->]; by left|]. intros [[= ->]|Hin]; [done|].
    destruct Hn. change (map fst fs) with (fst <$> fs). apply list_elem_of_fmap. by exists (k, v).
  - rewrite IH by done. naive_solver.
Qed.

Lemma field_get_perm fs fs' k :
  fs ≡ₚ fs' → NoDup (map fst fs) → field_get fs k = field_get fs' k.
Proof.
  intros Hp Hnd. assert (Hnd' : NoDup (map fst fs')) by (by rewrite <-Hp).
  apply option_eq. intros v. by rewrite !field_get_elem, Hp.
Qed.

Lemma set_fields_perm fs key value :
  set_fields fs key value ≡ₚ (key, value) :: filter (λ f, f.1 ≠ key) fs.
Proof. unfold set_fields. rewrite sort_by_Permutation. apply Permutation_app_comm. Qed.

Lemma field_get_filter fs key k :
  field_get (filter (λ f, f.1 ≠ key) fs) k = if decide (k = key) then None else field_get fs k.
Proof.
  induction fs as [|[k' v'] fs IH]; [by case_decide|]. rewrite filter_cons. cbn [fst field_get].
  repeat case_decide; cbn [field_get]; repeat case_decide; subst; try done; try tauto.
Qed.

Lemma set_fields_nodup fs key value :
  NoDup (map fst fs) → NoDup (map fst (set_fields fs key value)).
Proof.
  intros Hnd. rewrite set_fields_perm. cbn [map fst]. apply NoDup_cons. split.
  - change (map fst ?l) with (fst <$> l). rewrite list_elem_of_fmap.
    intros ([k v] & -> & [Hne _]%list_elem_of_filter). done.
  - induction fs as [|[k v] fs IH]; [constructor|]. rewrite filter_cons. cbn [map fst] in Hnd.
    apply NoDup_cons in Hnd as [Hn Hnd]. case_decide; [|by apply IH]. cbn [map fst].
    apply NoDup_cons. split; [|by apply IH]. contradict Hn.
    change (map fst ?l) with (fst <$> l) in *. apply list_elem_of_fmap in Hn as (f & Hf & Hin).
    apply list_elem_of_filter in Hin as [_ Hin]. apply list_elem_of_fmap. eauto.
Qed.

Lemma set_fields_get fs key value k :
  NoDup (map fst fs) →
  field_get (set_fields fs key value) k = if decide (k = key) then Some value else field_get fs k.
Proof.
  intros Hnd. rewrite (field_get_perm _ _ _ (set_fields_perm fs key value))
    by (by apply set_fields_nodup).
  cbn [field_get]. rewrite field_get_filter. repeat case_decide; subst; done.
Qed.

(** * Properties *)

(** An entity whose data is one CBOR item survives the wire: whatever follows its
    encoding, decoding gives back the same type, the same data bytes and the same
    stamped hash, and the encoding is itself one item; conversely every entity the
    decoder accepts is such an entity. *)
Theorem entity_wire_round_trip e rest data e' :
  wire_entity_ok e → data_ok (encode_entity e ++ rest) → data_ok data →
  decode_entity data = Ok e' →
  decode_entity (encode_entity e ++ rest) = Ok e
  ∧ decode_entity_parts (encode_entity e ++ rest) = Ok (entity_type e, Entity.data e)
  ∧ cbor_item (encode_entity e) ∧ wire_entity_ok e'.
Proof.
  intros He Hok Hd H'. destruct (decode_entity_encode e rest He Hok).
  split_and!; [done | done | by apply encode_entity_item | by eapply decode_entity_ok].
Qed.

(** an envelope survives the wire: the root, and the included map in key order,
    are decoded as they were, whatever follows; reading the root alone gives the same
    root. *)
Theorem envelope_wire_round_trip env rest :
  env_wire_ok env → data_ok (encode_envelope env ++ rest) →
  decode_envelope (encode_envelope env ++ rest) = Ok env
  ∧ decode_envelope_root (encode_envelope env ++ rest) = Ok (root env).
Proof. apply decode_envelope_encode. Qed.

(** No envelope the decoder accepts files an entity under another entity's hash:
    every key of the included map is the stamped hash of the entity under it, the map
    is ordered, every entity is well formed, and looking a hash up returns an entity
    that carries that hash. *)
Theorem decode_envelope_keyed data env h e :
  data_ok data → decode_envelope data = Ok env →
  wire_entity_ok (root env) ∧ bt_ok (included env)
  ∧ (find_included env h = Some e → content_hash e = h ∧ wire_entity_ok e).
Proof.
  intros Hok H. destruct (decode_envelope_ok data env Hok H) as (Hr & Hbt & Hall).
  split_and!; [done..|]. intros Hf%bt_get_elem; [|done]. rewrite Forall_forall in Hall.
  destruct (Hall _ Hf) as [? Hk]. by cbn in Hk.
Qed.

(** setting a field of an encoded map without decoding it.  On a map with
    distinct text keys the result is again such a map, with its entries in ECF key
    order; the set field reads back as the bytes given and every other field as the
    bytes it had. *)
Theorem map_set_raw_spec fs key value :
  data_ok (enc_fields fs) → data_ok (enc_fields (set_fields fs key value)) →
  Forall field_ok fs → NoDup (map fst fs) →
  utf8_valid key = true → len_ok key = true → cbor_item value →
  capacity_ok (Z.of_nat (length fs) + 1) 48 = true →
  ∃ out, cbor_map_set_raw (enc_fields fs) key value = Some (Ok out)
    ∧ out = enc_fields (set_fields fs key value)
    ∧ StronglySorted (λ f g, shortlex (encode_cbor_text f.1) (encode_cbor_text g.1) ≠ Gt)
        (set_fields fs key value)
    ∧ ∀ k, cbor_map_field_raw out k
           = if decide (k = key) then Some value else cbor_map_field_raw (enc_fields fs) k.
Proof.
  intros Hok Hok' Hall Hnd Hu Hl Hi Hcap.
  pose proof (capacity_ok_bound _ Hcap) as Hb.
  assert (Hlen : len_ok fs = true) by (unfold len_ok; apply Z.leb_le; lia).
  assert (Hlen' : len_ok (set_fields fs key value) = true).
  { unfold len_ok. apply Z.leb_le. rewrite set_fields_perm. cbn [length].
    pose proof (length_filter (λ f : list Z * list Z, f.1 ≠ key) fs). lia. }
  assert (Hall' : Forall field_ok (set_fields fs key value)).
  { rewrite set_fields_perm. constructor; [done|]. rewrite Forall_forall in *.
    intros f [_ Hf]%list_elem_of_filter. by apply Hall. }
  eexists. split_and!; [by apply cbor_map_set_raw_spec | done | |].
  - apply sort_by_sorted; intros *; [apply shortlex_flip | apply shortlex_le_trans].
  - intros k. rewrite <-(app_nil_r (enc_fields _)), cbor_map_field_raw_spec
      by (done || by rewrite app_nil_r).
    rewrite <-(app_nil_r (enc_fields fs)), cbor_map_field_raw_spec
      by (done || by rewrite app_nil_r).
    by apply set_fields_get.
Qed.

(** ** Concrete instances *)

Definition sample_entity (ty : list Z) (v : Value) (h : Hash) : Entity := mkEntity ty (to_ecf v) h.

Lemma sample_entity_ok ty v h :
  utf8_valid ty = true → len_ok ty = true → value_ok v = true → bytes_ok (to_ecf v) → hash_ok h →
  wire_entity_ok (sample_entity ty v h).
Proof. intros. split_and!; try done. by apply to_ecf_item. Qed.

Ltac decided := apply (bool_decide_unpack _); vm_compute; reflexivity.

Lemma entity_wire_round_trip_witness :
  let e := sample_entity (lit "test/type") (VMap [(text (lit "k"), VFloat 0)]) hash_zero in
  decode_entity (encode_entity e ++ [0xFF]) = Ok e
  ∧ decode_entity_parts (encode_entity e ++ [0xFF]) = Ok (entity_type e, data e)
  ∧ cbor_item (encode_entity e) ∧ wire_entity_ok e.
Proof.
  apply (entity_wire_round_trip _ _
    (encode_entity (sample_entity (lit "test/type") (VMap [(text (lit "k"), VFloat 0)]) hash_zero))).
  - apply sample_entity_ok; [reflexivity | reflexivity | reflexivity | decided | decided].
  - decided.
  - decided.
  - vm_compute. reflexivity.
Defined.

Lemma envelope_wire_round_trip_witness :
  let e := sample_entity (lit "test/type") (VMap [(text (lit "k"), VFloat 0)]) hash_zero in
  let env := mkEnvelope e [(hash_zero, e)] in
  decode_envelope (encode_envelope env ++ [0xFF]) = Ok env
  ∧ decode_envelope_root (encode_envelope env ++ [0xFF]) = Ok (root env).
Proof.
  cbv zeta. set (e := sample_entity _ _ _).
  assert (He : wire_entity_ok e)
    by (apply sample_entity_ok; [reflexivity | reflexivity | reflexivity | decided | decided]).
  apply envelope_wire_round_trip; [|decided].
  split_and!; [exact He | repeat constructor | constructor; [by split | constructor] | reflexivity].
Defined.

Lemma decode_envelope_keyed_witness :
  let e := sample_entity (lit "test/type") VNull hash_zero in
  let env := mkEnvelope e [(hash_zero, e)] in
  wire_entity_ok (root env) ∧ bt_ok (included env)
  ∧ (find_included env hash_zero = Some e → content_hash e = hash_zero ∧ wire_entity_ok e).
Proof.
  cbv zeta. set (e := sample_entity _ _ _).
  apply (decode_envelope_keyed (encode_envelope (mkEnvelope e [(hash_zero, e)]))).
  - decided.
  - vm_compute. reflexivity.
Defined.

Lemma map_set_raw_spec_witness :
  let fs := [(lit "a", [0xF6]); (lit "bb", [0xF5])] in
  let key := lit "a" in
  ∃ out, cbor_map_set_raw (enc_fields fs) key [0xF4] = Some (Ok out)
    ∧ out = enc_fields (set_fields fs key [0xF4])
    ∧ StronglySorted (λ f g, shortlex (encode_cbor_text f.1) (encode_cbor_text g.1) ≠ Gt)
        (set_fields fs key [0xF4])
    ∧ ∀ k, cbor_map_field_raw out k
           = if decide (k = key) then Some [0xF4] else cbor_map_field_raw (enc_fields fs) k.
Proof.
  assert (Hs : ∀ b : bool, cbor_item [if b then 0xF5 else 0xF4])
    by (intros []; eapply (item_simple _ 7); [reflexivity | auto | reflexivity | auto]).
  assert (Hn : cbor_item [0xF6]) by (eapply (item_simple _ 7); [reflexivity | auto]).
  apply map_set_raw_spec; try reflexivity; try decided.
  - constructor; [by split_and!|]. constructor; [|constructor]. split_and!; try done. apply (Hs true).
  - apply (Hs false).
Defined.
