(* ===== verification/Frame.v ===== *)
(** Length-prefixed framing ([read_frame], [write_frame] of [core/wire/src/lib.rs]).

    A frame is a 4-byte big-endian length and the payload.  The byte stream is the
    interface [AsyncRead] (tokio's trait): one [read] into a buffer of [n] bytes
    returns between one and [n] bytes, fewer than asked whenever the transport
    likes, and none only at the end of the stream.  [Chunks] is an instance in which
    the transport's chunk sizes are explicit. *)
From S2P Require Import Prelude ContentHash Walker.

Definition DEFAULT_MAX_FRAME_SIZE : Z := 16 * 1024 * 1024.

Class AsyncRead (R : Type) := { read : nat → R → option (list Z * R) }.

(** [remaining] is what the stream will still deliver. *)
Class AsyncReadOk (R : Type) `{AsyncRead R} (remaining : R → list Z) : Prop := {
  read_some : ∀ n r, (0 < n)%nat →
    ∃ bs r', read n r = Some (bs, r') ∧ remaining r = bs ++ remaining r'
             ∧ (length bs ≤ n)%nat ∧ (bs = [] → remaining r = []);
}.

(** What [write_all] of the length and of the payload put on the wire. *)
Definition write_frame (payload : list Z) : list Z :=
  let len := as_u32 (Z.of_nat (length payload)) in
  be_bytes 4 len ++ payload.

Section reader.
Context {R : Type} `{AsyncRead R}.

(** The two [while got < expected] loops; [eof] is the error a zero read answers.
    Each round reads a byte, so [expected] rounds are enough. *)
Fixpoint fill (fuel : nat) (eof : nat → WireError) (expected : nat) (buf : list Z) (reader : R)
    : result WireError (list Z * R) :=
  if (expected <=? length buf)%nat then Ok (buf, reader)
  else
    match fuel with
    | O => Err (Io OtherIo)
    | S fuel' =>
        '(bs, reader') ← ok_or (Io OtherIo) (read (expected - length buf) reader);
        if bool_decide (bs = []) then Err (eof (length buf))
        else fill fuel' eof expected (buf ++ bs) reader'
    end.

Definition prefix_eof (got : nat) : WireError :=
  if (got =? 0)%nat then Io UnexpectedEof else TruncatedFrame "length prefix" got 4.

Definition read_frame (reader : R) (max_frame_size : Z) : result WireError (list Z * R) :=
  '(len_buf, reader) ← fill 4 prefix_eof 4 [] reader;
  let len := be_value len_buf in
  if max_frame_size <? len then Err (FrameTooLarge len max_frame_size)
  else
    let n := Z.to_nat len in
    fill n (λ filled, TruncatedFrame "payload" filled n) n [] reader.
End reader.

(** * An instance: a transport that delivers given chunks *)

Definition Chunks := list (list Z).

Fixpoint chunk_read (n : nat) (c : Chunks) : option (list Z * Chunks) :=
  match c with
  | [] => Some ([], [])
  | [] :: c' => chunk_read n c'
  | l :: c' => Some (take n l, match drop n l with [] => c' | l' => l' :: c' end)
  end.

#[export] Instance chunks_read : AsyncRead Chunks := {| read := chunk_read |}.

#[export] Instance chunks_ok : AsyncReadOk Chunks (@concat Z).
Proof.
  constructor. intros n c Hn. cbn [read chunks_read]. induction c as [|[|b l] c IH]; cbn [chunk_read].
  - exists [], []. cbn. split_and!; auto; lia.
  - destruct IH as (bs & r' & -> & H1 & H2 & H3). by exists bs, r'.
  - eexists _, _. split; [done|]. cbn [concat]. split_and!.
    + destruct (drop n (b :: l)) as [|b' l'] eqn:E.
      * f_equal. rewrite <-(take_drop n (b :: l)) at 1. by rewrite E, app_nil_r.
      * cbn [concat]. rewrite app_assoc. f_equal. rewrite <-E. by rewrite take_drop.
    + rewrite length_take. lia.
    + destruct n; [lia | done].
Qed.

(** * Lemmas *)

Section frames.
Context {R : Type} {remaining : R → list Z} `{AsyncReadOk R remaining}.

Lemma fill_spec eof expected : ∀ fuel buf r,
  (length buf ≤ expected)%nat → (expected - length buf ≤ fuel)%nat →
  let need := (expected - length buf)%nat in
  if (need <=? length (remaining r))%nat
  then ∃ r', fill fuel eof expected buf r = Ok (buf ++ take need (remaining r), r')
             ∧ remaining r' = drop need (remaining r)
  else fill fuel eof expected buf r = Err (eof (length buf + length (remaining r))%nat).
Proof.
  induction fuel as [|fuel IH]; intros buf r Hb Hf; cbv zeta; cbn [fill].
  - rewrite (proj2 (Nat.leb_le expected _)) by lia.
    replace (expected - length buf)%nat with 0%nat by lia. cbn [Nat.leb]. exists r.
    by rewrite take_0, app_nil_r.
  - destruct (Nat.leb_spec expected (length buf)).
    { replace (expected - length buf)%nat with 0%nat by lia. cbn [Nat.leb]. exists r.
      by rewrite take_0, app_nil_r. }
    destruct (read_some (expected - length buf) r ltac:(lia)) as (bs & r' & -> & Hrem & Hlen & Hnil).
    cbn [ok_or mbind result_bind]. case_bool_decide as Hbs.
    { specialize (Hnil Hbs). rewrite Hnil. cbn [length].
      destruct (Nat.leb_spec (expected - length buf) 0); [lia|]. by rewrite Nat.add_0_r. }
    assert (1 ≤ length bs)%nat by (destruct bs; [done | cbn; lia]).
    specialize (IH (buf ++ bs) r' ltac:(rewrite length_app; lia) ltac:(rewrite length_app; lia)).
    cbv zeta in IH. rewrite length_app in IH. rewrite Hrem, length_app.
    destruct (Nat.leb_spec (expected - length buf) (length bs + length (remaining r')));
      destruct (Nat.leb_spec (expected - (length buf + length bs)) (length (remaining r'))); try lia.
    + destruct IH as (r2 & -> & Hr2). exists r2. split.
      * rewrite <-app_assoc, take_app_ge by lia. by rewrite Nat.sub_add_distr.
      * rewrite Hr2, drop_app_ge by lia. by rewrite Nat.sub_add_distr.
    + rewrite IH. by rewrite Nat.add_assoc.
Qed.

Lemma write_frame_prefix payload max :
  Z.of_nat (length payload) ≤ u32_max →
  take 4 (write_frame payload) = be_bytes 4 (Z.of_nat (length payload))
  ∧ drop 4 (write_frame payload) = payload ∧ length (write_frame payload) = (4 + length payload)%nat
  ∧ (max <? be_value (be_bytes 4 (Z.of_nat (length payload)))) = (max <? Z.of_nat (length payload)).
Proof.
  intros Hlen. unfold u32_max in Hlen. unfold write_frame, as_u32.
  rewrite Z.mod_small by lia. rewrite be_value_bytes by (cbn; lia).
  split_and!; [by rewrite take_app_length' | by rewrite drop_app_length' |
    by rewrite length_app, length_be_bytes | done].
Qed.

(** Reading from a stream that delivers a given text. *)
Lemma read_frame_spec r max payload l :
  Z.of_nat (length payload) ≤ u32_max → l `prefix_of` write_frame payload ∨ write_frame payload `prefix_of` l →
  remaining r = l →
  if (length l <? 4)%nat then read_frame r max = Err (prefix_eof (length l))
  else if max <? Z.of_nat (length payload)
  then read_frame r max = Err (FrameTooLarge (Z.of_nat (length payload)) max)
  else if (length l <? 4 + length payload)%nat
  then read_frame r max = Err (TruncatedFrame "payload" (length l - 4) (length payload))
  else ∃ r', read_frame r max = Ok (payload, r') ∧ remaining r' = drop (4 + length payload) l.
Proof.
  intros Hlen Hl Hrem. destruct (write_frame_prefix payload max Hlen) as (W1 & W2 & W3 & W4).
  unfold read_frame. pose proof (fill_spec prefix_eof 4 4 [] r ltac:(cbn; lia) ltac:(cbn; lia)) as F.
  cbv zeta in F. cbn [length] in F. rewrite Nat.sub_0_r, Hrem in F.
  destruct (Nat.leb_spec 4 (length l)); destruct (Nat.ltb_spec (length l) 4); try lia.
  2: { by rewrite F. }
  destruct F as (r1 & -> & Hr1). cbn [app mbind result_bind].
  assert (T4 : take 4 l = be_bytes 4 (Z.of_nat (length payload))).
  { rewrite <-W1. destruct Hl as [[k ->]|[k ->]]; by rewrite take_app_le by lia. }
  rewrite T4, W4. destruct (max <? Z.of_nat (length payload)).
  { rewrite be_value_bytes; [done|]. unfold u32_max in Hlen. cbn. lia. }
  rewrite be_value_bytes, Nat2Z.id by (unfold u32_max in Hlen; cbn; lia).
  pose proof (fill_spec (λ filled, TruncatedFrame "payload" filled (length payload))
    (length payload) (length payload) [] r1 ltac:(cbn; lia) ltac:(cbn; lia)) as F2.
  cbv zeta in F2. cbn [length] in F2. rewrite Nat.sub_0_r, Hr1, length_drop in F2.
  destruct (Nat.leb_spec (length payload) (length l - 4));
    destruct (Nat.ltb_spec (length l) (4 + length payload)); try lia.
  - destruct F2 as (r2 & -> & Hr2). exists r2. cbn [app]. split.
    + do 2 f_equal. destruct Hl as [[k Hk]|[k ->]].
      * assert (k = []) as -> by (apply (f_equal length) in Hk; rewrite length_app in Hk;
          apply nil_length_inv; lia). rewrite app_nil_r in Hk. by rewrite <-Hk, W2, take_ge.
      * rewrite drop_app_le, W2 by lia. by rewrite take_app_length.
    + by rewrite Hr2, drop_drop.
  - rewrite F2. by cbn [length Nat.add].
Qed.
End frames.

(** * Properties *)

(** a frame written on any transport is read back whole, however the transport
    splits the bytes, and the reader stops exactly at the end of the frame; a frame
    longer than the limit is refused from its length alone. *)
Theorem frame_round_trip {R} {remaining : R → list Z} `{AsyncReadOk R remaining}
    (r : R) payload rest max :
  Z.of_nat (length payload) ≤ u32_max → remaining r = write_frame payload ++ rest →
  if max <? Z.of_nat (length payload)
  then read_frame r max = Err (FrameTooLarge (Z.of_nat (length payload)) max)
  else ∃ r', read_frame r max = Ok (payload, r') ∧ remaining r' = rest.
Proof.
  intros Hlen Hrem. destruct (write_frame_prefix payload max Hlen) as (_ & _ & W3 & _).
  pose proof (read_frame_spec r max payload _ Hlen (or_intror (ex_intro _ rest eq_refl))
                Hrem) as S.
  rewrite length_app, W3 in S. destruct (Nat.ltb_spec (4 + length payload + length rest) 4); [lia|].
  destruct (max <? Z.of_nat (length payload)); [done|].
  destruct (Nat.ltb_spec (4 + length payload + length rest) (4 + length payload)); [lia|].
  destruct S as (r' & E & Hr'). exists r'. split; [done|].
  by rewrite Hr', drop_app_length' by lia.
Qed.

(** a stream that ends inside a frame is told apart from one that ends between
    frames: no byte is the clean end of stream, and any proper prefix of a frame is a
    truncated frame, reported with the phase and the number of bytes that came. *)
Theorem frame_truncation {R} {remaining : R → list Z} `{AsyncReadOk R remaining}
    (r : R) payload got rest max :
  Z.of_nat (length payload) ≤ u32_max → Z.of_nat (length payload) ≤ max →
  write_frame payload = got ++ rest → rest ≠ [] → remaining r = got →
  read_frame r max =
    Err (if (length got =? 0)%nat then Io UnexpectedEof
         else if (length got <? 4)%nat then TruncatedFrame "length prefix" (length got) 4
         else TruncatedFrame "payload" (length got - 4) (length payload)).
Proof.
  intros Hlen Hmax Hw Hne Hrem. destruct (write_frame_prefix payload max Hlen) as (_ & _ & W3 & _).
  pose proof (read_frame_spec r max payload got Hlen (or_introl (ex_intro _ rest Hw)) Hrem) as S.
  rewrite Hw, length_app in W3. assert (1 ≤ length rest)%nat by (destruct rest; [done | cbn; lia]).
  destruct (Nat.ltb_spec (length got) 4).
  - rewrite S. unfold prefix_eof. by destruct (length got =? 0)%nat.
  - rewrite (proj2 (Z.ltb_ge max _)) in S by lia.
    rewrite (proj2 (Nat.ltb_lt (length got) _)) in S by lia.
    by rewrite (proj2 (Nat.eqb_neq (length got) 0)) by lia.
Qed.

Lemma frame_round_trip_witness :
  let payload := lit "hello" in
  let r : Chunks := [[0]; [0; 0; 5; 104]; []; lit "ell"; lit "o!"] in
  if 16 <? Z.of_nat (length payload)
  then read_frame r 16 = Err (FrameTooLarge (Z.of_nat (length payload)) 16)
  else ∃ r', read_frame r 16 = Ok (payload, r') ∧ concat r' = lit "!".
Proof. apply (frame_round_trip (R := Chunks)); [vm_compute; discriminate | reflexivity]. Defined.

Lemma frame_truncation_witness :
  read_frame ([[0; 0]; [0; 5; 104]] : Chunks) 16 = Err (TruncatedFrame "payload" 1 5).
Proof.
  apply (frame_truncation (R := Chunks) _ (lit "hello") [0; 0; 0; 5; 104] (lit "ello") 16);
    [vm_compute; discriminate | vm_compute; discriminate | reflexivity | discriminate | reflexivity].
Defined.
