(* ===== verification/Identity.v ===== *)
(** Identities: key types, peer ids ([core/crypto/src/lib.rs]) and the [system/peer]
    and [system/signature] payloads ([core/types/src/lib.rs]).

    A peer id is the Base58 string of [varint(key_type) varint(hash_type) digest];
    the identity of a peer is the content hash of its [system/peer] entity.  Base58
    and the signature schemes are crates outside the repository: [Base58] and
    [SignatureSchemes] are their parameters, with the round trip of Base58 as the
    only law used. *)
From S2P Require Import Prelude BTree Ecf Cbor ContentHash Entity.

(** * External crates *)

Class Base58 := { b58_encode : list Z → list Z; b58_decode : list Z → option (list Z) }.

Class Base58Ok `{Base58} : Prop :=
  b58_round_trip : ∀ l, bytes_ok l → b58_decode (b58_encode l) = Some l.

(** Key and signature parsing and the verification equation, per scheme. *)
Class SignatureSchemes := {
  ed25519_key : list Z → bool;
  ed25519_verify : list Z → list Z → list Z → bool;
  ed448_key : list Z → bool;
  ed448_signature : list Z → bool;
  ed448_verify : list Z → list Z → list Z → bool;
}.

(** * Key types *)

Definition KEY_TYPE_ED25519 : Z := 0x01.
Definition KEY_TYPE_ED448 : Z := 0x02.
Definition KEY_TYPE_EXPERIMENTAL_TEST : Z := 0xFE.
Definition HASH_TYPE_IDENTITY : Z := 0x00.
Definition HASH_TYPE_SHA256 : Z := 0x01.
Definition ED25519_PUBLIC_KEY_LEN : nat := 32.
Definition ED448_PUBLIC_KEY_LEN : nat := 57.
Definition ED448_SIGNATURE_LEN : nat := 114.
Definition EXPERIMENTAL_TEST_PUBLIC_KEY_LEN : nat := 64.

Inductive KeyType := Ed25519 | Ed448 | ExperimentalTest.

#[export] Instance KeyType_eq_dec : EqDecision KeyType.
Proof. solve_decision. Defined.

Inductive CryptoError :=
  | InvalidSignature
  | InvalidPublicKey
  | InvalidPeerId
  | UnsupportedKeyType (b : Z)
  | IdentityError.

Definition key_type_byte (k : KeyType) : Z :=
  match k with
  | Ed25519 => KEY_TYPE_ED25519
  | Ed448 => KEY_TYPE_ED448
  | ExperimentalTest => KEY_TYPE_EXPERIMENTAL_TEST
  end.

Definition label (k : KeyType) : list Z :=
  match k with
  | Ed25519 => lit "ed25519"
  | Ed448 => lit "ed448"
  | ExperimentalTest => lit "experimental-test"
  end.

Definition canonical_hash_type (k : KeyType) : Z :=
  match k with
  | Ed25519 => HASH_TYPE_IDENTITY
  | Ed448 | ExperimentalTest => HASH_TYPE_SHA256
  end.

Definition public_key_len (k : KeyType) : nat :=
  match k with
  | Ed25519 => ED25519_PUBLIC_KEY_LEN
  | Ed448 => ED448_PUBLIC_KEY_LEN
  | ExperimentalTest => EXPERIMENTAL_TEST_PUBLIC_KEY_LEN
  end.

Definition supports_signing (k : KeyType) : bool :=
  match k with Ed25519 | Ed448 => true | ExperimentalTest => false end.

Definition key_type_from_byte (b : Z) : result CryptoError KeyType :=
  if b =? KEY_TYPE_ED25519 then Ok Ed25519
  else if b =? KEY_TYPE_ED448 then Ok Ed448
  else if b =? KEY_TYPE_EXPERIMENTAL_TEST then Ok ExperimentalTest
  else Err (UnsupportedKeyType b).

Definition key_type_from_label (s : list Z) : result CryptoError KeyType :=
  if decide (s = lit "ed25519") then Ok Ed25519
  else if decide (s = lit "ed448") then Ok Ed448
  else if decide (s = lit "experimental-test") then Ok ExperimentalTest
  else Err InvalidPeerId.

(** * Signature verification *)

(** [Keypair::verify] *)
Definition keypair_verify `{SignatureSchemes} (pk message signature : list Z)
    : result CryptoError unit :=
  if negb (ed25519_key pk) then Err InvalidPublicKey
  else if negb (length signature =? 64)%nat then Err InvalidSignature
  else if ed25519_verify pk message signature then Ok tt else Err InvalidSignature.

(** [Ed448Keypair::verify] *)
Definition ed448_keypair_verify `{SignatureSchemes} (pk message signature : list Z)
    : result CryptoError unit :=
  if negb (ed448_key pk) then Err InvalidPublicKey
  else if negb (length signature =? ED448_SIGNATURE_LEN)%nat then Err InvalidSignature
  else if negb (ed448_signature signature) then Err InvalidSignature
  else if ed448_verify pk message signature then Ok tt else Err InvalidSignature.

Definition verify_for_key_type `{SignatureSchemes} (key_type : KeyType)
    (public_key message signature : list Z) : result CryptoError unit :=
  match key_type with
  | Ed25519 =>
      if negb (length public_key =? ED25519_PUBLIC_KEY_LEN)%nat then Err InvalidPublicKey
      else keypair_verify public_key message signature
  | Ed448 =>
      if negb (length public_key =? ED448_PUBLIC_KEY_LEN)%nat then Err InvalidPublicKey
      else ed448_keypair_verify public_key message signature
  | ExperimentalTest => Err (UnsupportedKeyType (key_type_byte key_type))
  end.

(** * Peer ids *)

Definition push_varint_u8 (v : Z) : list Z :=
  if v <? 0x80 then [v] else [Z.lor 0x80 (Z.land v 0x7F); Z.shiftr v 7].

Definition read_varint_u8 (bytes : list Z) : result CryptoError (Z * nat) :=
  match bytes with
  | [] => Err InvalidPeerId
  | b0 :: rest =>
      if b0 <? 0x80 then Ok (b0, 1%nat)
      else
        match rest with
        | [] => Err InvalidPeerId
        | b1 :: _ =>
            if negb (Z.land b1 0x80 =? 0) then Err InvalidPeerId
            else
              let value := Z.lor (Z.land b0 0x7F) (Z.shiftl b1 7) in
              if 255 <? value then Err InvalidPeerId else Ok (value, 2%nat)
        end
  end.

Record DecodedPeerId := mkDecoded { dec_key_type : Z; dec_hash_type : Z; dec_digest : list Z }.

Section peer_ids.
Context `{Sha2} `{Base58}.

Definition encode_raw (key_type : KeyType) (hash_type : Z) (public_key : list Z)
    : result CryptoError (list Z) :=
  digest ← (if hash_type =? HASH_TYPE_IDENTITY then Ok public_key
            else if hash_type =? HASH_TYPE_SHA256 then Ok (sha256 public_key)
            else Err InvalidPeerId);
  Ok (b58_encode (push_varint_u8 (key_type_byte key_type) ++ push_varint_u8 hash_type ++ digest)).

Definition from_public_key_with_hash_type (public_key : list Z) (hash_type : Z)
    : result CryptoError (list Z) :=
  if hash_type =? HASH_TYPE_IDENTITY then encode_raw Ed25519 hash_type public_key
  else Err InvalidPeerId.

Definition from_public_key_with_key_type (public_key : list Z) (key_type : KeyType)
    : result CryptoError (list Z) :=
  if negb (length public_key =? public_key_len key_type)%nat then Err InvalidPublicKey
  else encode_raw key_type (canonical_hash_type key_type) public_key.

Definition peer_id_decode (p : list Z) : result CryptoError DecodedPeerId :=
  raw ← ok_or InvalidPeerId (b58_decode p);
  '(key_type, n1) ← read_varint_u8 raw;
  '(hash_type, n2) ← read_varint_u8 (drop n1 raw);
  if (length raw <=? n1 + n2)%nat then Err InvalidPeerId
  else Ok (mkDecoded key_type hash_type (drop (n1 + n2) raw)).

Definition derive_public_key (p : list Z) : option (list Z * Z) :=
  dec ← ok (peer_id_decode p);
  if negb (dec_hash_type dec =? HASH_TYPE_IDENTITY) then None
  else
    kt ← ok (key_type_from_byte (dec_key_type dec));
    if negb (length (dec_digest dec) =? public_key_len kt)%nat then None
    else Some (dec_digest dec, dec_key_type dec).

Definition peer_id_validate (p : list Z) : result CryptoError unit :=
  dec ← peer_id_decode p;
  kt ← key_type_from_byte (dec_key_type dec);
  let ht := dec_hash_type dec in
  let digest_32 := if negb (length (dec_digest dec) =? 32)%nat then Err InvalidPeerId else Ok tt in
  match kt with
  | Ed25519 =>
      if (ht =? HASH_TYPE_IDENTITY) || (ht =? HASH_TYPE_SHA256) then digest_32 else Err InvalidPeerId
  | Ed448 | ExperimentalTest => if ht =? HASH_TYPE_SHA256 then digest_32 else Err InvalidPeerId
  end.

Definition verify_public_key_bytes (p public_key : list Z) : bool :=
  match peer_id_decode p with
  | Err _ => false
  | Ok dec =>
      if dec_hash_type dec =? HASH_TYPE_IDENTITY then bool_decide (dec_digest dec = public_key)
      else if dec_hash_type dec =? HASH_TYPE_SHA256
      then bool_decide (dec_digest dec = sha256 public_key)
      else false
  end.

(** * The [system/peer] entity *)

Definition peer_entity_from_components_with_key_type (public_key : list Z) (key_type : KeyType)
    : result CryptoError Entity :=
  if negb (length public_key =? public_key_len key_type)%nat then Err InvalidPublicKey
  else
    let data_value := VMap [(text (lit "key_type"), text (label key_type));
                            (text (lit "public_key"), VBytes public_key)] in
    map_err (λ _, IdentityError)
      (new_with_format TYPE_PEER (to_ecf data_value) HASH_ALGORITHM_SHA256).

Definition peer_identity_hash_with_key_type (public_key : list Z) (key_type : KeyType)
    : result CryptoError Hash :=
  e ← peer_entity_from_components_with_key_type public_key key_type; Ok (content_hash e).

Record PeerData := mkPeerData { public_key : list Z; key_type : list Z }.

Inductive TypesError := WrongType (expected actual : list Z) | DecodeError | TypesEntityError.

Definition peer_step (acc : option (list Z) * option (list Z)) (kv : Value * Value)
    : option (list Z) * option (list Z) :=
  match as_str kv.1 with
  | Some k =>
      if decide (k = lit "public_key") then (as_bytes kv.2, acc.2)
      else if decide (k = lit "key_type") then (acc.1, as_str kv.2)
      else acc
  | None => acc
  end.

Definition peer_from_entity `{Ciborium} (e : Entity) : result TypesError PeerData :=
  if negb (bool_decide (entity_type e = TYPE_PEER)) then Err (WrongType TYPE_PEER (entity_type e))
  else
    value ← ok_or DecodeError (from_reader (data e));
    map ← ok_or DecodeError (as_map value);
    let '(pk, kt) := foldl peer_step (None, None) map in
    pk ← ok_or DecodeError pk;
    kt ← ok_or DecodeError kt;
    Ok (mkPeerData pk kt).

Definition peer_to_entity (p : PeerData) : result TypesError Entity :=
  let value := VMap [(text (lit "key_type"), text (key_type p));
                     (text (lit "public_key"), VBytes (public_key p))] in
  map_err (λ _, TypesEntityError) (new_with_format TYPE_PEER (to_ecf value) HASH_ALGORITHM_SHA256).

Definition canonical_peer_id (p : PeerData) : option (list Z) :=
  '(key_type_byte, hash_type_byte, pubkey_len) ←
    (if decide (key_type p = lit "ed25519") then Some (0x01, 0x00, 32%nat)
     else if decide (key_type p = lit "ed448") then Some (0x02, 0x01, 57%nat)
     else None);
  if negb (length (public_key p) =? pubkey_len)%nat then None
  else
    let digest := if hash_type_byte =? 0x00 then public_key p else sha256 (public_key p) in
    Some (b58_encode ([key_type_byte; hash_type_byte] ++ digest)).
End peer_ids.

(** * The [system/signature] payload *)

Record SignatureData := mkSignature {
  sig_target : Hash;
  sig_signer : Hash;
  sig_algorithm : list Z;
  sig_bytes : list Z;
}.

(** The four local variables of the decoding loop. *)
Record SigScan := mkSigScan {
  ss_target : option Hash; ss_signer : option Hash;
  ss_algorithm : option (list Z); ss_signature : option (list Z);
}.

(** A field that is not a byte string is skipped; one that is not a hash fails. *)
Definition hash_field (old : option Hash) (v : Value) : result TypesError (option Hash) :=
  match as_bytes v with
  | Some b => h ← map_err (λ _, DecodeError) (from_bytes b); Ok (Some h)
  | None => Ok old
  end.

Definition signature_step (st : SigScan) (kv : Value * Value) : result TypesError SigScan :=
  match as_str kv.1 with
  | Some k =>
      if decide (k = lit "target") then
        t ← hash_field (ss_target st) kv.2;
        Ok (mkSigScan t (ss_signer st) (ss_algorithm st) (ss_signature st))
      else if decide (k = lit "signer") then
        s ← hash_field (ss_signer st) kv.2;
        Ok (mkSigScan (ss_target st) s (ss_algorithm st) (ss_signature st))
      else if decide (k = lit "algorithm") then
        Ok (mkSigScan (ss_target st) (ss_signer st) (as_str kv.2) (ss_signature st))
      else if decide (k = lit "signature") then
        Ok (mkSigScan (ss_target st) (ss_signer st) (ss_algorithm st) (as_bytes kv.2))
      else Ok st
  | None => Ok st
  end.

Definition signature_from_entity `{Ciborium} (e : Entity) : result TypesError SignatureData :=
  if negb (bool_decide (entity_type e = TYPE_SIGNATURE))
  then Err (WrongType TYPE_SIGNATURE (entity_type e))
  else
    value ← ok_or DecodeError (from_reader (data e));
    map ← ok_or DecodeError (as_map value);
    st ← foldM signature_step (mkSigScan None None None None) map;
    t ← ok_or DecodeError (ss_target st);
    s ← ok_or DecodeError (ss_signer st);
    a ← ok_or DecodeError (ss_algorithm st);
    b ← ok_or DecodeError (ss_signature st);
    Ok (mkSignature t s a b).

Definition signature_value (s : SignatureData) : Value :=
  VMap [(text (lit "algorithm"), text (sig_algorithm s));
        (text (lit "signature"), VBytes (sig_bytes s));
        (text (lit "signer"), VBytes (to_bytes (sig_signer s)));
        (text (lit "target"), VBytes (to_bytes (sig_target s)))].

Definition signature_to_entity `{Sha2} (home : Z) (s : SignatureData) : result TypesError Entity :=
  map_err (λ _, TypesEntityError) (entity_new home TYPE_SIGNATURE (to_ecf (signature_value s))).

(** * Lemmas *)

Lemma push_read_varint_u8 v rest :
  byte_ok v → read_varint_u8 (push_varint_u8 v ++ rest) = Ok (v, length (push_varint_u8 v)).
Proof.
  unfold byte_ok, push_varint_u8. intros Hv. destruct (Z.ltb_spec v 128).
  - cbn [app read_varint_u8]. by rewrite (proj2 (Z.ltb_lt v 0x80)) by lia.
  - cbn [app read_varint_u8]. set (low := Z.land v 0x7F).
    assert (Hl : low = v mod 128) by (apply (Z.land_ones v 7); lia).
    assert (Hb : 0 ≤ low < 2 ^ 7) by (rewrite Hl; apply Z.mod_pos_bound; lia).
    pose proof (lor_shift_add 1 low 7 ltac:(lia) Hb) as E. change (1 * 2 ^ 7) with 0x80 in E.
    rewrite E, Z.shiftr_div_pow2 by lia. change (2 ^ 7) with 128.
    assert (Hd : v / 128 = 1) by dlia. rewrite Hd. rewrite (proj2 (Z.ltb_ge (128 + low) 128)) by lia.
    change (negb (Z.land 1 128 =? 0)) with false. change (Z.shiftl 1 7) with 0x80. cbv match beta.
    assert (Ea : Z.land (0x80 + low) 0x7F = low).
    { change 0x7F with (Z.ones 7). rewrite Z.land_ones by lia. change (2 ^ 7) with 128. rewrite Hl. dlia. }
    rewrite Ea, Z.lor_comm, E, Hl. rewrite (proj2 (Z.ltb_ge 255 _)) by dlia.
    do 2 f_equal. dlia.
Qed.

Definition key_ok (k : KeyType) (pk : list Z) : Prop :=
  bytes_ok pk ∧ length pk = public_key_len k.

Section canonical.
Context `{Sha2Ok} `{Base58Ok}.

(** The digest of a canonical peer id. *)
Definition canonical_digest (k : KeyType) (pk : list Z) : list Z :=
  if canonical_hash_type k =? HASH_TYPE_IDENTITY then pk else sha256 pk.

Lemma canonical_digest_ok k pk :
  key_ok k pk → bytes_ok (canonical_digest k pk) ∧ length (canonical_digest k pk) = 32%nat.
Proof.
  intros [Hb Hl]. unfold canonical_digest.
  destruct k; cbn; try (split; [apply sha256_bytes | apply sha256_length]). by split.
Qed.

Lemma from_public_key_spec k pk :
  key_ok k pk →
  from_public_key_with_key_type pk k
  = Ok (b58_encode (push_varint_u8 (key_type_byte k) ++ push_varint_u8 (canonical_hash_type k)
                    ++ canonical_digest k pk)).
Proof.
  intros [_ Hl]. unfold from_public_key_with_key_type. rewrite Hl, Nat.eqb_refl. by destruct k.
Qed.

Lemma key_byte_ok k : byte_ok (key_type_byte k) ∧ byte_ok (canonical_hash_type k).
Proof. by destruct k. Qed.

Lemma varint_u8_ok v : byte_ok v → bytes_ok (push_varint_u8 v).
Proof.
  unfold byte_ok, push_varint_u8. intros Hv. destruct (v <? 128) eqn:E; [repeat constructor; lia|].
  assert (Hl : 0 ≤ Z.land v 0x7F < 2 ^ 8).
  { change 0x7F with (Z.ones 7). rewrite Z.land_ones by lia. change (2 ^ 7) with 128. dlia. }
  pose proof (lor_bound 0x80 (Z.land v 0x7F) 8 ltac:(lia) ltac:(lia) Hl).
  repeat constructor; try lia; rewrite Z.shiftr_div_pow2 by lia; dlia.
Qed.

Lemma peer_id_decode_canonical k pk p :
  key_ok k pk → from_public_key_with_key_type pk k = Ok p →
  peer_id_decode p = Ok (mkDecoded (key_type_byte k) (canonical_hash_type k) (canonical_digest k pk)).
Proof.
  intros Hk. rewrite from_public_key_spec by done. intros [= <-].
  destruct (key_byte_ok k) as [B1 B2], (canonical_digest_ok k pk Hk) as [Hb Hl].
  unfold peer_id_decode. rewrite b58_round_trip.
  2: { apply bytes_ok_app. split; [by apply varint_u8_ok|]. apply bytes_ok_app.
       split; [by apply varint_u8_ok | done]. }
  cbn [ok_or mbind result_bind]. rewrite push_read_varint_u8 by done. cbn [mbind result_bind].
  rewrite drop_app_length, push_read_varint_u8 by done. cbn [mbind result_bind].
  rewrite !length_app, Hl.
  destruct (Nat.leb_spec (length (push_varint_u8 (key_type_byte k))
    + (length (push_varint_u8 (canonical_hash_type k)) + 32))
    (length (push_varint_u8 (key_type_byte k)) + length (push_varint_u8 (canonical_hash_type k)))); [lia|].
  by rewrite <-drop_drop, !drop_app_length.
Qed.
End canonical.

(** ** Payload round trips *)

Lemma peer_data_value_ok kt pk :
  utf8_valid kt = true → len_ok kt = true → bytes_ok pk → len_ok pk = true →
  let v := VMap [(text (lit "key_type"), text kt); (text (lit "public_key"), VBytes pk)] in
  value_ok v = true ∧ ecf_norm v = v ∧ (depth v ≤ ciborium_recursion_limit)%nat.
Proof.
  intros H1 H2 H3 H4. cbv zeta. split_and!; [|reflexivity | cbn; unfold ciborium_recursion_limit; lia].
  cbn [value_ok forallb fst snd text]. rewrite H1, H2, H4, bool_decide_eq_true_2 by done. reflexivity.
Qed.

Lemma signature_value_ok s :
  utf8_valid (sig_algorithm s) = true → len_ok (sig_algorithm s) = true →
  bytes_ok (sig_bytes s) → len_ok (sig_bytes s) = true →
  hash_ok (sig_signer s) → hash_ok (sig_target s) →
  value_ok (signature_value s) = true ∧ ecf_norm (signature_value s) =
    VMap [(text (lit "signer"), VBytes (to_bytes (sig_signer s)));
          (text (lit "target"), VBytes (to_bytes (sig_target s)));
          (text (lit "algorithm"), text (sig_algorithm s));
          (text (lit "signature"), VBytes (sig_bytes s))].
Proof.
  intros H1 H2 H3 H4 H5 H6. split; [|reflexivity].
  cbn [value_ok forallb fst snd text signature_value].
  rewrite H1, H2, H4, !hash_bytes_ok, bool_decide_eq_true_2 by done. reflexivity.
Qed.

Lemma hash_field_bytes old h : hash_ok h → hash_field old (VBytes (to_bytes h)) = Ok (Some h).
Proof. intros Hh. unfold hash_field. cbn [as_bytes]. by rewrite from_bytes_to_bytes. Qed.

Lemma signature_fold signer target alg b :
  hash_ok signer → hash_ok target →
  foldM signature_step (mkSigScan None None None None)
    [(text (lit "signer"), VBytes (to_bytes signer)); (text (lit "target"), VBytes (to_bytes target));
     (text (lit "algorithm"), text alg); (text (lit "signature"), VBytes b)]
  = Ok (mkSigScan (Some target) (Some signer) (Some alg) (Some b)).
Proof.
  intros Hs Ht. cbn [foldM].
  assert (E1 : ∀ st, signature_step st (text (lit "signer"), VBytes (to_bytes signer))
    = Ok (mkSigScan (ss_target st) (Some signer) (ss_algorithm st) (ss_signature st)))
    by (intros st; change (signature_step st _) with
          (s ← hash_field (ss_signer st) (VBytes (to_bytes signer));
           Ok (mkSigScan (ss_target st) s (ss_algorithm st) (ss_signature st)));
        by rewrite hash_field_bytes).
  assert (E2 : ∀ st, signature_step st (text (lit "target"), VBytes (to_bytes target))
    = Ok (mkSigScan (Some target) (ss_signer st) (ss_algorithm st) (ss_signature st)))
    by (intros st; change (signature_step st _) with
          (t ← hash_field (ss_target st) (VBytes (to_bytes target));
           Ok (mkSigScan t (ss_signer st) (ss_algorithm st) (ss_signature st)));
        by rewrite hash_field_bytes).
  rewrite E1. cbn [mbind result_bind]. rewrite E2. reflexivity.
Qed.

(** * Properties *)

(** For each key type, the peer id minted for a public key of the type's length is
    the canonical one: it decodes to the key type, its canonical hash type and a 32-byte
    digest, validates, verifies its own public key, gives the key back exactly for
    Ed25519, and is the peer id that the [system/peer] payload derives by hand. *)
Theorem peer_id_canonical `{Sha2Ok} `{Base58Ok} k pk :
  key_ok k pk →
  ∃ p, from_public_key_with_key_type pk k = Ok p
    ∧ peer_id_decode p
      = Ok (mkDecoded (key_type_byte k) (canonical_hash_type k) (canonical_digest k pk))
    ∧ peer_id_validate p = Ok tt
    ∧ verify_public_key_bytes p pk = true
    ∧ derive_public_key p = (if decide (k = Ed25519) then Some (pk, KEY_TYPE_ED25519) else None)
    ∧ (supports_signing k = true → canonical_peer_id (mkPeerData pk (label k)) = Some p).
Proof.
  intros Hk. eexists. split; [by apply from_public_key_spec|].
  pose proof (peer_id_decode_canonical k pk _ Hk (from_public_key_spec k pk Hk)) as Hd.
  destruct (canonical_digest_ok k pk Hk) as [_ Hl]. destruct Hk as [_ Hlen].
  split; [done|]. unfold peer_id_validate, verify_public_key_bytes, derive_public_key. rewrite Hd.
  destruct k; cbn [ok mbind option_bind result_bind dec_key_type dec_hash_type dec_digest
    canonical_hash_type key_type_byte] in *; cbn in Hlen.
  - split_and!; [by rewrite Hl | by apply bool_decide_eq_true_2 | |].
    + unfold canonical_digest. cbn. by rewrite Hlen.
    + intros _. unfold canonical_peer_id. cbn. by rewrite Hlen.
  - split_and!; [by rewrite Hl | by apply bool_decide_eq_true_2 | done |].
    intros _. unfold canonical_peer_id. cbn. by rewrite Hlen.
  - split_and!; [by rewrite Hl | by apply bool_decide_eq_true_2 | done | done].
Qed.

(** the identity payloads survive their entities: a [system/peer] entity is built
    for every key of its type's length, at the SHA-256 floor, and reads back as the key
    and the type's label; a signature payload stored as an entity reads back unchanged. *)
Theorem identity_payload_round_trip `{Sha2Ok} `{CiboriumDecodes} k pk home s e :
  key_ok k pk →
  utf8_valid (sig_algorithm s) = true → len_ok (sig_algorithm s) = true →
  bytes_ok (sig_bytes s) → len_ok (sig_bytes s) = true →
  hash_ok (sig_signer s) → hash_ok (sig_target s) →
  signature_to_entity home s = Ok e →
  signature_from_entity e = Ok s
  ∧ ∃ p, peer_entity_from_components_with_key_type pk k = Ok p
      ∧ peer_from_entity p = Ok (mkPeerData pk (label k))
      ∧ peer_to_entity (mkPeerData pk (label k)) = Ok p
      ∧ algorithm (content_hash p) = HASH_ALGORITHM_SHA256 ∧ entity_validate p = Ok tt.
Proof.
  intros [Hb Hl] S1 S2 S3 S4 S5 S6 He. split.
  - unfold signature_to_entity, entity_new in He.
    destruct (new_with_format _ _ _) as [e'|] eqn:En; [|done]. injection He as ->.
    apply new_with_format_Ok in En as (_ & _ & Ht & Hd). unfold signature_from_entity.
    rewrite Ht, bool_decide_eq_true_2, Hd by done. cbn [negb].
    destruct (signature_value_ok s S1 S2 S3 S4 S5 S6) as [Hv Hn].
    rewrite <-(app_nil_r (to_ecf _)), from_reader_ecf by (done || cbn; unfold ciborium_recursion_limit; lia).
    rewrite Hn. cbn [ok_or mbind result_bind as_map]. rewrite signature_fold by done. by destruct s.
  - set (v := VMap [(text (lit "key_type"), text (label k)); (text (lit "public_key"), VBytes pk)]).
    destruct (peer_data_value_ok (label k) pk) as (Hv & Hn & Hd); [by destruct k | by destruct k | done | |].
    { unfold len_ok. rewrite Hl. by destruct k. }
    assert (Hnew : ∃ p, new_with_format TYPE_PEER (to_ecf v) HASH_ALGORITHM_SHA256 = Ok p).
    { eexists (mkEntity TYPE_PEER (to_ecf v) (compute TYPE_PEER (to_ecf v))).
      apply new_with_format_Ok. cbn [entity_type data content_hash]. by split_and!. }
    destruct Hnew as [p Hp]. exists p. pose proof Hp as (Hc & Hh & Ht & Hdat)%new_with_format_Ok.
    assert (Hpe : peer_entity_from_components_with_key_type pk k = Ok p).
    { unfold peer_entity_from_components_with_key_type. rewrite Hl, Nat.eqb_refl. cbn [negb].
      change (map_err (λ _, IdentityError) (new_with_format TYPE_PEER (to_ecf v) HASH_ALGORITHM_SHA256) = Ok p).
      by rewrite Hp. }
    split_and!; [done| | | |].
    + unfold peer_from_entity. rewrite Ht, bool_decide_eq_true_2, Hdat by done. cbn [negb].
      rewrite <-(app_nil_r (to_ecf v)), from_reader_ecf by done. unfold v. rewrite Hn. reflexivity.
    + unfold peer_to_entity.
      change (map_err (λ _, TypesEntityError) (new_with_format TYPE_PEER (to_ecf v) HASH_ALGORITHM_SHA256) = Ok p).
      by rewrite Hp.
    + by destruct (compute_format_ok _ _ _ _ Hh).
    + apply entity_validate_Ok. rewrite Ht, Hdat. destruct (compute_format_ok _ _ _ _ Hh) as [_ ->]. done.
Qed.

(** The identity string as a Base58 stand-in, to evaluate examples with. *)
Definition plain_base58 : Base58 := {| b58_encode := λ l, l; b58_decode := Some |}.
Lemma plain_base58_ok : @Base58Ok plain_base58.
Proof. by intros l _. Qed.

Lemma peer_id_canonical_witness :
  let S := checksum_sha2 in let B := plain_base58 in
  let pk := replicate 57 9 in
  ∃ p, from_public_key_with_key_type pk Ed448 = Ok p
    ∧ peer_id_decode p
      = Ok (mkDecoded (key_type_byte Ed448) (canonical_hash_type Ed448) (canonical_digest Ed448 pk))
    ∧ peer_id_validate p = Ok tt
    ∧ verify_public_key_bytes p pk = true
    ∧ derive_public_key p = (if decide (Ed448 = Ed25519) then Some (pk, KEY_TYPE_ED25519) else None)
    ∧ (supports_signing Ed448 = true → canonical_peer_id (mkPeerData pk (label Ed448)) = Some p).
Proof.
  cbv zeta. apply (@peer_id_canonical checksum_sha2 checksum_sha2_ok plain_base58 plain_base58_ok).
  split; [apply (bool_decide_unpack _); vm_compute; reflexivity | reflexivity].
Defined.

Definition sample_sig : SignatureData := mkSignature hash_zero hash_zero (lit "ed25519") [1; 2; 3].

Lemma identity_payload_round_trip_witness :
  let S := checksum_sha2 in let C := ref_ciborium in
  let pk := replicate 32 9 in
  ∃ e, signature_from_entity e = Ok sample_sig
  ∧ ∃ p, peer_entity_from_components_with_key_type pk Ed25519 = Ok p
      ∧ peer_from_entity p = Ok (mkPeerData pk (label Ed25519))
      ∧ peer_to_entity (mkPeerData pk (label Ed25519)) = Ok p
      ∧ algorithm (content_hash p) = HASH_ALGORITHM_SHA256 ∧ entity_validate p = Ok tt.
Proof.
  cbv zeta.
  exists (match @signature_to_entity checksum_sha2 1 sample_sig with
          | Ok e => e | Err _ => mkEntity [] [] hash_zero end).
  apply (@identity_payload_round_trip checksum_sha2 checksum_sha2_ok ref_ciborium ref_ciborium_decodes
           Ed25519 (replicate 32 9) 1);
    try (apply (bool_decide_unpack _); vm_compute; reflexivity); try (vm_compute; reflexivity).
Defined.
