(* ===== verification/Capability.v ===== *)
(** Capabilities: scopes, grants, pattern matching, permission checks, attenuation and
    caveats ([core/capability/src/lib.rs]).

    Paths and patterns are canonicalized against a frame (a peer id) before they are
    compared; a malformed one canonicalizes to [NEVER_MATCH], which matches nothing.
    [ciborium::into_writer], used to compare constraint values, is the parameter
    [CiboriumWrites]. *)
From S2P Require Import Prelude BTree Ecf Cbor ContentHash Paths Entity Identity.

Class CiboriumWrites := { into_writer : Value → option (list Z) }.

(** * Data *)

Definition POLICY_FALLBACK_SEGMENT : list Z := lit "default".

Record PathScope := mkPathScope { ps_include : list (list Z); ps_exclude : list (list Z) }.
Record IdScope := mkIdScope { is_include : list (list Z); is_exclude : list (list Z) }.

Definition path_scope_new (include : list (list Z)) : PathScope := mkPathScope include [].
Definition path_scope_all : PathScope := path_scope_new [lit "*"].
Definition path_scope_none : PathScope := path_scope_new [].
Definition id_scope_new (include : list (list Z)) : IdScope := mkIdScope include [].
Definition id_scope_all : IdScope := id_scope_new [lit "*"].

(** [BTreeMap<String, ciborium::Value>] *)
Definition ValueMap := list (list Z * Value).

Record GrantEntry := mkGrant {
  g_handlers : PathScope;
  g_resources : PathScope;
  g_operations : IdScope;
  g_peers : option IdScope;
  g_constraints : option ValueMap;
  g_allowances : option ValueMap;
}.

Definition default_connection_grants : list GrantEntry :=
  [ mkGrant (path_scope_new [lit "system/tree"])
      (path_scope_new [lit "system/type/*"; lit "system/handler/*"])
      (id_scope_new [lit "get"]) None None None;
    mkGrant (path_scope_new [lit "system/capability"]) (path_scope_new [])
      (id_scope_new [lit "request"]) None None None;
    mkGrant (path_scope_new [lit "system/network"]) (path_scope_new [])
      (id_scope_new [lit "observe-address"]) None None None ].

Definition debug_open_grants : list GrantEntry :=
  let type_scope := VMap [(VText (lit "include"), VArray [VText (lit "*")])] in
  [ mkGrant (path_scope_new [lit "system/query"]) (path_scope_new [lit "/*/*"])
      (id_scope_new [lit "find"; lit "count"]) None
      (Some [(lit "type_scope", type_scope)]) (Some [(lit "scope", VText (lit "content_store"))]);
    mkGrant (path_scope_new [lit "*"]) (path_scope_new [lit "/*/*"]) (id_scope_new [lit "*"])
      (Some (id_scope_new [lit "*"])) None None ].

Definition capability_path_for_multisig_root (cap_hash : Hash) : list Z :=
  lit "system/capability/grants/multi-sig-root/" ++ hash_display cap_hash.

Definition owner_self_grant (peer_id : list Z) : list GrantEntry :=
  [ mkGrant path_scope_all (path_scope_new [[ch_slash] ++ peer_id ++ lit "/*"]) id_scope_all
      (Some id_scope_all) None None ].

Definition wildcard_handler_grant : list GrantEntry :=
  [ mkGrant path_scope_all path_scope_all id_scope_all (Some id_scope_all) None None ].

Definition default_handler_self_grant : list GrantEntry :=
  [ mkGrant path_scope_all (path_scope_new [lit "/*/*"]) id_scope_all None None None ].

Record ResourceTarget := mkTarget { targets : list (list Z); rt_exclude : list (list Z) }.

Inductive CapabilityError := CapInvalid | CapDecode | CapEntity.

Record MultiGranter := mkMulti { signers : list Hash; threshold : Z }.

(** The quadratic duplicate scan. *)
Fixpoint has_duplicate (l : list Hash) : bool :=
  match l with
  | [] => false
  | x :: l' => existsb (λ y, bool_decide (x = y)) l' || has_duplicate l'
  end.

Definition multi_validate (m : MultiGranter) : result CapabilityError unit :=
  let n := length (signers m) in
  if (n <? 2)%nat then Err CapInvalid
  else if threshold m <? 2 then Err CapInvalid
  else if Z.of_nat n <? threshold m then Err CapInvalid
  else if has_duplicate (signers m) then Err CapInvalid
  else Ok tt.

Inductive Granter := Single (h : Hash) | Multi (m : MultiGranter).

Definition as_single (g : Granter) : option Hash := match g with Single h => Some h | Multi _ => None end.
Definition as_multi (g : Granter) : option MultiGranter := match g with Multi m => Some m | Single _ => None end.
Definition is_multi (g : Granter) : bool := match g with Multi _ => true | Single _ => false end.

Record DelegationCaveats := mkCaveats {
  no_delegation : option bool;
  max_delegation_depth : option Z;
  max_delegation_ttl : option Z;
}.

Record CapabilityToken := mkToken {
  grants : list GrantEntry;
  granter : Granter;
  grantee : Hash;
  parent : option Hash;
  created_at : Z;
  expires_at : option Z;
  not_before : option Z;
  delegation_caveats : option DelegationCaveats;
}.

(** * Pattern matching *)

Definition canonicalize (path local_peer_id : list Z) : list Z :=
  let qualified :=
    if starts_with path [ch_slash] then path
    else if decide (path = [ch_star]) then [ch_slash] ++ local_peer_id ++ lit "/*"
    else [ch_slash] ++ local_peer_id ++ [ch_slash] ++ path in
  if starts_with path (lit "./") || starts_with path (lit "../") then NEVER_MATCH
  else if starts_with path (lit "*/") then NEVER_MATCH
  else if starts_with path URI_SCHEME then
    match uri_parse path with
    | Some uri =>
        if negb (bool_decide (uri_peer_id uri = [])) then
          if bool_decide (uri_path uri = []) then [ch_slash] ++ uri_peer_id uri
          else [ch_slash] ++ uri_peer_id uri ++ [ch_slash] ++ uri_path uri
        else qualified
    | None => qualified
    end
  else qualified.

(** [path.starts_with(prefix) && path.len() > prefix.len() && path[prefix.len()] == '/'] *)
Definition under_prefix (path prefix : list Z) : bool :=
  starts_with path prefix && (length prefix <? length path)%nat
  && bool_decide (path !! length prefix = Some ch_slash).

(** The recursion is on the rest of the path after a peer segment. *)
Fixpoint matches_pattern_fuel (fuel : nat) (path pattern : list Z) : bool :=
  if bool_decide (path = NEVER_MATCH) || bool_decide (pattern = NEVER_MATCH) then false
  else if bool_decide (pattern = lit "*") then true
  else
    match strip_prefix (lit "/*/") pattern with
    | Some remainder =>
        match strip_prefix [ch_slash] path with
        | Some after_slash =>
            match find_byte ch_slash after_slash with
            | Some slash =>
                match fuel with
                | O => false
                | S fuel' => matches_pattern_fuel fuel' (drop (S slash) after_slash) remainder
                end
            | None => false
            end
        | None => false
        end
    | None =>
        match strip_suffix (lit "/*") pattern with
        | Some prefix => under_prefix path prefix
        | None => bool_decide (path = pattern)
        end
    end.
Definition matches_pattern (path pattern : list Z) : bool :=
  matches_pattern_fuel (length path) path pattern.

Definition matches_id_pattern (value pattern : list Z) : bool :=
  if bool_decide (pattern = lit "*") then true
  else
    match strip_suffix (lit "/*") pattern with
    | Some prefix => under_prefix value prefix
    | None => bool_decide (value = pattern)
    end.

Definition matches_id_scope (value : list Z) (include exclude : list (list Z)) : bool :=
  if negb (existsb (matches_id_pattern value) include) then false
  else negb (existsb (matches_id_pattern value) exclude).

(** The exclude loops: an unmatchable exclude excludes everything. *)
Fixpoint excludes_admit (cv : list Z) (exclude : list (list Z)) (frame : list Z) : bool :=
  match exclude with
  | [] => true
  | pattern :: exclude' =>
      let cp := canonicalize pattern frame in
      if bool_decide (cp = NEVER_MATCH) then false
      else if matches_pattern cv cp then false
      else excludes_admit cv exclude' frame
  end.

Definition is_covered_by (path : list Z) (pattern_set : list (list Z)) (frame : list Z) : bool :=
  existsb (λ p, matches_pattern path (canonicalize p frame)) pattern_set.

Definition matches_scope (value : list Z) (include exclude : list (list Z))
    (local_peer_id : list Z) : bool :=
  let cv := canonicalize value local_peer_id in
  if negb (existsb (λ pattern, matches_pattern cv (canonicalize pattern local_peer_id)) include)
  then false
  else excludes_admit cv exclude local_peer_id.

Definition ANY_FRAME : list Z := lit "unused-frame-see-doc-comment".

Definition unmatchable_scope_pattern (gs : list GrantEntry) : option (list Z) :=
  find_first (λ pattern, bool_decide (canonicalize pattern ANY_FRAME = NEVER_MATCH))
    (concat (map (λ g, concat (map (λ s, ps_include s ++ ps_exclude s) [g_handlers g; g_resources g])) gs)).

Definition is_pattern (path : list Z) : bool := contains_byte ch_star path.

Definition strip_wildcard (pattern : list Z) : list Z :=
  match strip_suffix (lit "/*") pattern with
  | Some prefix => prefix
  | None => if bool_decide (pattern = lit "*") then [] else pattern
  end.

Definition patterns_overlap (a b : list Z) : bool :=
  let pa := strip_wildcard a in
  let pb := strip_wildcard b in
  starts_with pa pb || starts_with pb pa.

(** * Resource scope *)

Definition effective_targets (resource_target : option ResourceTarget) (local_peer_id : list Z)
    : list (list Z) :=
  match resource_target with
  | None => []
  | Some rt =>
      filter (λ target, is_covered_by (canonicalize target local_peer_id) (rt_exclude rt) local_peer_id = false)
        (targets rt)
  end.

Fixpoint pattern_subject_survives_grant_excludes (canonical_subject : list Z)
    (grant_exclude caller_exclude : list (list Z)) (local_peer_id granter_peer_id : list Z) : bool :=
  match grant_exclude with
  | [] => true
  | ge :: grant_exclude' =>
      let cge := canonicalize ge granter_peer_id in
      if bool_decide (cge = NEVER_MATCH) then false
      else if patterns_overlap canonical_subject cge
              && negb (is_covered_by cge caller_exclude local_peer_id) then false
      else pattern_subject_survives_grant_excludes canonical_subject grant_exclude' caller_exclude
             local_peer_id granter_peer_id
  end.

(** One round of the loop of [check_resource_scope]. *)
Definition target_in_scope (target : list Z) (caller_exclude : list (list Z))
    (grant_resources : PathScope) (local_peer_id granter_peer_id : list Z) : bool :=
  let ct := canonicalize target local_peer_id in
  if negb (is_pattern ct) && negb (is_ok (validate_absolute_path ct)) then false
  else if negb (is_covered_by ct (ps_include grant_resources) granter_peer_id) then false
  else if is_pattern ct then
    pattern_subject_survives_grant_excludes ct (ps_exclude grant_resources) caller_exclude
      local_peer_id granter_peer_id
  else excludes_admit ct (ps_exclude grant_resources) granter_peer_id.

Definition check_resource_scope (resource_target : ResourceTarget) (grant_resources : PathScope)
    (local_peer_id granter_peer_id : list Z) : bool :=
  forallb (λ target, target_in_scope target (rt_exclude resource_target) grant_resources
                       local_peer_id granter_peer_id)
    (effective_targets (Some resource_target) local_peer_id).

(** * Permission checks *)

Definition peers_of (grant : GrantEntry) (local_peer_id : list Z) : IdScope :=
  default (id_scope_new [local_peer_id]) (g_peers grant).

(** The four tests of one grant entry; [relax_peers] skips the peers one. *)
Definition grant_authorizes (operation handler_pattern target_peer : list Z)
    (resource_target : option ResourceTarget) (local_peer_id granter_peer_id : list Z)
    (relax_peers : bool) (grant : GrantEntry) : bool :=
  if negb (matches_id_scope operation (is_include (g_operations grant)) (is_exclude (g_operations grant)))
  then false
  else if negb (matches_scope handler_pattern (ps_include (g_handlers grant))
                  (ps_exclude (g_handlers grant)) local_peer_id)
  then false
  else if negb relax_peers
          && negb (let peers := peers_of grant local_peer_id in
                   matches_id_scope target_peer (is_include peers) (is_exclude peers))
  then false
  else
    match resource_target with
    | Some rt => check_resource_scope rt (g_resources grant) local_peer_id granter_peer_id
    | None => true
    end.

Definition check_permission_inner (operation handler_pattern target_peer : list Z)
    (resource_target : option ResourceTarget) (capability : CapabilityToken)
    (local_peer_id : list Z) (relax_peers : bool) : bool :=
  existsb (grant_authorizes operation handler_pattern target_peer resource_target
             local_peer_id local_peer_id relax_peers) (grants capability).

Definition check_permission operation handler_pattern target_peer resource_target capability
    local_peer_id : bool :=
  check_permission_inner operation handler_pattern target_peer resource_target capability
    local_peer_id false.

Definition check_permission_relax_peers operation handler_pattern resource_target capability
    local_peer_id : bool :=
  check_permission_inner operation handler_pattern local_peer_id resource_target capability
    local_peer_id true.

Definition check_permission_with_grant (operation handler_pattern target_peer : list Z)
    (resource_target : option ResourceTarget) (capability : CapabilityToken)
    (local_peer_id granter_peer_id : list Z) : option GrantEntry :=
  find_first (grant_authorizes operation handler_pattern target_peer resource_target
                local_peer_id granter_peer_id false) (grants capability).

Definition resolve_granter_peer_id `{Ciborium, Sha2, Base58} (g : Granter)
    (local_peer_id : list Z) (lookup : Hash → option Entity) : option (list Z) :=
  match as_single g with
  | None => Some local_peer_id
  | Some granter_hash =>
      granter_entity ← lookup granter_hash;
      if negb (bool_decide (entity_type granter_entity = TYPE_PEER)) then None
      else p ← ok (peer_from_entity granter_entity); canonical_peer_id p
  end.

Definition path_scope_admits_subject (canonical_subject : list Z) (scope : PathScope)
    (local_peer_id granter_peer_id : list Z) : bool :=
  if negb (is_pattern canonical_subject) then
    matches_scope canonical_subject (ps_include scope) (ps_exclude scope) granter_peer_id
  else
    is_covered_by canonical_subject (ps_include scope) granter_peer_id
    && pattern_subject_survives_grant_excludes canonical_subject (ps_exclude scope) []
         local_peer_id granter_peer_id.

Definition check_path_permission (operation path : list Z) (authority : CapabilityToken)
    (handler_pattern local_peer_id granter_peer_id : list Z) : bool :=
  let canonical_path := canonicalize path local_peer_id in
  existsb (λ grant,
    matches_scope handler_pattern (ps_include (g_handlers grant)) (ps_exclude (g_handlers grant))
      local_peer_id
    && matches_id_scope operation (is_include (g_operations grant)) (is_exclude (g_operations grant))
    && path_scope_admits_subject canonical_path (g_resources grant) local_peer_id granter_peer_id)
    (grants authority).

(** * Attenuation *)

Definition scope_subset_path (child par : PathScope) (child_frame parent_frame : list Z) : bool :=
  forallb (λ ci, let cc := canonicalize ci child_frame in
                 existsb (λ pi, matches_pattern cc (canonicalize pi parent_frame)) (ps_include par))
    (ps_include child)
  && forallb (λ pe, let cp := canonicalize pe parent_frame in
                    existsb (λ ce, matches_pattern cp (canonicalize ce child_frame)) (ps_exclude child))
       (ps_exclude par).

Definition scope_subset_id (child par : IdScope) : bool :=
  forallb (λ ci, existsb (λ pi, matches_id_pattern ci pi) (is_include par)) (is_include child)
  && forallb (λ pe, existsb (λ ce, matches_id_pattern pe ce) (is_exclude child)) (is_exclude par).

Definition cbor_bytes_equal `{CiboriumWrites} (a b : Value) : bool :=
  match into_writer a with
  | None => false
  | Some buf_a => match into_writer b with None => false | Some buf_b => bool_decide (buf_a = buf_b) end
  end.

Definition grant_axes_subset (child par : GrantEntry)
    (child_granter_peer_id parent_granter_peer_id local_peer_id : list Z) : bool :=
  if negb (scope_subset_path (g_handlers child) (g_handlers par) local_peer_id local_peer_id) then false
  else if negb (scope_subset_id (g_operations child) (g_operations par)) then false
  else if negb (scope_subset_path (g_resources child) (g_resources par)
                  child_granter_peer_id parent_granter_peer_id) then false
  else scope_subset_id (peers_of child local_peer_id) (peers_of par local_peer_id).

(** Every key of [required] is in [m] with the same bytes. *)
Definition retains `{CiboriumWrites} (required m : ValueMap) : bool :=
  forallb (λ kv, match bt_get kv.1 m with
                 | None => false
                 | Some v => cbor_bytes_equal kv.2 v
                 end) required.

Definition grant_subset `{CiboriumWrites} (child par : GrantEntry)
    (child_granter_peer_id parent_granter_peer_id local_peer_id : list Z) : bool :=
  if negb (grant_axes_subset child par child_granter_peer_id parent_granter_peer_id local_peer_id)
  then false
  else if negb (retains (default [] (g_constraints par)) (default [] (g_constraints child)))
  then false
  else retains (default [] (g_allowances child)) (default [] (g_allowances par)).

Definition grant_covered_by `{CiboriumWrites} (child_grant : GrantEntry) (parent_grants : list GrantEntry)
    (child_granter_peer_id parent_granter_peer_id local_peer_id : list Z) : bool :=
  existsb (λ pg, grant_subset child_grant pg child_granter_peer_id parent_granter_peer_id local_peer_id)
    parent_grants.

Definition is_attenuated_inner `{CiboriumWrites} (child par : CapabilityToken)
    (child_granter_peer_id parent_granter_peer_id local_peer_id : list Z) : bool :=
  if negb (forallb (λ cg, grant_covered_by cg (grants par) child_granter_peer_id
                            parent_granter_peer_id local_peer_id) (grants child))
  then false
  else
    match expires_at par with
    | None => true
    | Some parent_exp =>
        match expires_at child with
        | None => false
        | Some child_exp => negb (parent_exp <? child_exp)
        end
    end.

Definition is_attenuated `{CiboriumWrites} (child par : CapabilityToken) (local_peer_id : list Z) : bool :=
  is_attenuated_inner child par local_peer_id local_peer_id local_peer_id.

Definition is_attenuated_framed `{CiboriumWrites} (child par : CapabilityToken)
    (child_granter_peer_id parent_granter_peer_id local_peer_id : list Z) : bool :=
  is_attenuated_inner child par child_granter_peer_id parent_granter_peer_id local_peer_id.

Definition advertisement_covers (advertised : list GrantEntry) (entry : GrantEntry)
    (local_peer_id : list Z) : bool :=
  if existsb (λ p, bool_decide (p = lit "*")) (ps_include (g_handlers entry))
  then negb (bool_decide (length advertised = 0%nat))
  else existsb (λ a, grant_axes_subset entry a local_peer_id local_peer_id local_peer_id) advertised.

(** * Caveats and structure *)

Definition check_delegation_caveats (par child : CapabilityToken) (depth : Z) : bool :=
  match delegation_caveats par with
  | None => true
  | Some caveats =>
      if bool_decide (no_delegation caveats = Some true) then false
      else if match max_delegation_depth caveats with
              | Some max_depth => max_depth <=? depth
              | None => false
              end then false
      else
        match max_delegation_ttl caveats with
        | None => true
        | Some max_ttl =>
            match expires_at child with
            | None => false
            | Some exp =>
                let child_ttl := saturating_sub exp (created_at child) in
                negb (max_ttl <? child_ttl)
            end
        end
  end.

Definition validate_structure (t : CapabilityToken) : result CapabilityError unit :=
  _ ← match granter t with
      | Multi multi =>
          if bool_decide (is_Some (parent t)) then Err CapInvalid else multi_validate multi
      | Single _ => Ok tt
      end;
  if is_zero (grantee t) then Err CapInvalid else Ok tt.

(** * Pattern matching *)

(** The pattern shapes of [matches_pattern], with the recursion unfolded. *)
Lemma matches_pattern_fuel_enough n m path pattern :
  (length path ≤ n)%nat → (length path ≤ m)%nat →
  matches_pattern_fuel n path pattern = matches_pattern_fuel m path pattern.
Proof.
  revert m path pattern. induction n as [|n IH]; intros m path pattern Hn Hm.
  - assert (path = []) as -> by (by apply nil_length_inv; lia).
    destruct m; cbn [matches_pattern_fuel strip_prefix]; [done|]. repeat case_match; done.
  - destruct m as [|m].
    { assert (path = []) as -> by (by apply nil_length_inv; lia).
      cbn [matches_pattern_fuel strip_prefix]. repeat case_match; done. }
    cbn [matches_pattern_fuel]. destruct (_ || _); [done|]. destruct (bool_decide _); [done|].
    destruct (strip_prefix (lit "/*/") pattern) as [rem|]; [|done].
    destruct (strip_prefix [ch_slash] path) as [after|] eqn:Ea; [|done].
    destruct (find_byte ch_slash after) as [i|] eqn:Ei; [|done].
    apply strip_prefix_Some in Ea as ->. cbn [app length] in *.
    apply IH; rewrite length_drop; lia.
Qed.

Lemma matches_pattern_eq path pattern :
  matches_pattern path pattern =
    if bool_decide (path = NEVER_MATCH) || bool_decide (pattern = NEVER_MATCH) then false
    else if bool_decide (pattern = lit "*") then true
    else
      match strip_prefix (lit "/*/") pattern with
      | Some remainder =>
          match strip_prefix [ch_slash] path with
          | Some after_slash =>
              match find_byte ch_slash after_slash with
              | Some slash => matches_pattern (drop (S slash) after_slash) remainder
              | None => false
              end
          | None => false
          end
      | None =>
          match strip_suffix (lit "/*") pattern with
          | Some prefix => under_prefix path prefix
          | None => bool_decide (path = pattern)
          end
      end.
Proof.
  unfold matches_pattern at 1. destruct path as [|c path]; cbn [length matches_pattern_fuel].
  - repeat case_match; done.
  - destruct (_ || _); [done|]. destruct (bool_decide _); [done|].
    destruct (strip_prefix (lit "/*/") pattern) as [rem|]; [|done].
    destruct (strip_prefix [ch_slash] (c :: path)) as [after|] eqn:Ea; [|done].
    destruct (find_byte ch_slash after) as [i|] eqn:Ei; [|done].
    apply strip_prefix_Some in Ea. injection Ea as -> ->.
    apply matches_pattern_fuel_enough; [rewrite length_drop; lia | done].
Qed.

Lemma under_prefix_spec path prefix :
  under_prefix path prefix = true ↔ ∃ r, path = prefix ++ ch_slash :: r.
Proof.
  unfold under_prefix. rewrite !andb_true_iff, starts_with_true, bool_decide_eq_true. split.
  - intros [[[k ->] _] H]. rewrite lookup_app_r, Nat.sub_diag in H by lia.
    destruct k as [|c k]; [done|]. cbn in H. injection H as ->. by exists k.
  - intros [r ->]. split; [split; [by exists (ch_slash :: r)|]|].
    + apply Nat.ltb_lt. rewrite length_app. cbn. lia.
    + by rewrite lookup_app_r, Nat.sub_diag by lia.
Qed.

(** A pattern is one of four things. *)
Inductive pattern_shape : list Z → Prop :=
  | shape_any : pattern_shape (lit "*")
  | shape_peer rest : pattern_shape (lit "/*/" ++ rest)
  | shape_subtree prefix :
      ¬ lit "/*/" `prefix_of` (prefix ++ lit "/*") → pattern_shape (prefix ++ lit "/*")
  | shape_exact p :
      p ≠ lit "*" → ¬ lit "/*/" `prefix_of` p → strip_suffix (lit "/*") p = None → pattern_shape p.

Lemma pattern_shape_any_pattern p : pattern_shape p.
Proof.
  destruct (decide (p = lit "*")) as [->|Hne]; [constructor|].
  destruct (strip_prefix (lit "/*/") p) as [r|] eqn:E1.
  { apply strip_prefix_Some in E1 as ->. constructor. }
  apply strip_prefix_None in E1. destruct (strip_suffix (lit "/*") p) as [r|] eqn:E2.
  - apply strip_suffix_Some in E2 as ->. by constructor.
  - by constructor.
Qed.

(** ** The meaning of each shape *)

Lemma matches_never_l pattern : matches_pattern NEVER_MATCH pattern = false.
Proof. rewrite matches_pattern_eq. by rewrite bool_decide_eq_true_2. Qed.

Lemma matches_never_r path : matches_pattern path NEVER_MATCH = false.
Proof. rewrite matches_pattern_eq, (bool_decide_eq_true_2 (NEVER_MATCH = _)) by done. by rewrite orb_true_r. Qed.

Lemma matches_any path : matches_pattern path (lit "*") = true ↔ path ≠ NEVER_MATCH.
Proof.
  rewrite matches_pattern_eq, (bool_decide_eq_false_2 (lit "*" = NEVER_MATCH)), orb_false_r by done.
  rewrite (bool_decide_eq_true_2 (lit "*" = lit "*")) by done. case_bool_decide; naive_solver.
Qed.

Lemma matches_peer path rest :
  matches_pattern path (lit "/*/" ++ rest) = true ↔
  path ≠ NEVER_MATCH ∧
  ∃ seg tail, path = ch_slash :: seg ++ ch_slash :: tail ∧ ch_slash ∉ seg ∧ matches_pattern tail rest = true.
Proof.
  rewrite matches_pattern_eq, (bool_decide_eq_false_2 (lit "/*/" ++ rest = NEVER_MATCH)), orb_false_r by done.
  rewrite (bool_decide_eq_false_2 (lit "/*/" ++ rest = lit "*")), strip_prefix_app by done.
  case_bool_decide as Hn; [naive_solver|]. split.
  - intros H. split; [done|]. destruct (strip_prefix [ch_slash] path) as [after|] eqn:Ea; [|done].
    destruct (find_byte ch_slash after) as [i|] eqn:Ei; [|done].
    apply strip_prefix_Some in Ea as ->. destruct (find_byte_Some _ _ _ Ei) as (Hs & Hni & _).
    exists (take i after), (drop (S i) after). split_and!; [|done|done]. cbn. by rewrite <-Hs.
  - intros (_ & seg & tail & -> & Hs & Hm). cbn [strip_prefix]. rewrite decide_True by done.
    rewrite find_byte_app by done. rewrite drop_app_ge, Nat.sub_succ_l, Nat.sub_diag by lia.
    cbn [drop]. by rewrite drop_0.
Qed.

Lemma matches_subtree path prefix :
  ¬ lit "/*/" `prefix_of` (prefix ++ lit "/*") →
  matches_pattern path (prefix ++ lit "/*") = true ↔
  path ≠ NEVER_MATCH ∧ ∃ r, path = prefix ++ ch_slash :: r.
Proof.
  intros Hp. rewrite matches_pattern_eq.
  rewrite (bool_decide_eq_false_2 (prefix ++ lit "/*" = NEVER_MATCH)), orb_false_r.
  2: { intros E. apply (f_equal reverse) in E. rewrite reverse_app in E. done. }
  rewrite (bool_decide_eq_false_2 (prefix ++ lit "/*" = lit "*")).
  2: { intros E. apply (f_equal length) in E. rewrite length_app in E. cbn in E.
       change (length (lit "/*")) with 2%nat in E. change (length (lit "*")) with 1%nat in E. lia. }
  rewrite (proj2 (strip_prefix_None _ _) Hp), (proj2 (strip_suffix_Some _ _ prefix)) by done.
  rewrite <-under_prefix_spec. case_bool_decide; naive_solver.
Qed.

Lemma matches_exact path p :
  p ≠ lit "*" → ¬ lit "/*/" `prefix_of` p → strip_suffix (lit "/*") p = None →
  matches_pattern path p = true ↔ path = p ∧ path ≠ NEVER_MATCH.
Proof.
  intros H1 H2 H3. rewrite matches_pattern_eq.
  rewrite (bool_decide_eq_false_2 (p = lit "*")), (proj2 (strip_prefix_None _ _) H2), H3 by done.
  destruct (bool_decide_reflect (path = NEVER_MATCH)); [cbn; naive_solver|].
  destruct (bool_decide_reflect (p = NEVER_MATCH)); cbn; [naive_solver|].
  rewrite bool_decide_eq_true. naive_solver.
Qed.

Lemma matches_not_never path p : matches_pattern path p = true → path ≠ NEVER_MATCH ∧ p ≠ NEVER_MATCH.
Proof.
  intros H. split; intros ->; [by rewrite matches_never_l in H | by rewrite matches_never_r in H].
Qed.

(** ** Transitivity

    A path without empty segments that matches a pattern matches whatever the pattern
    itself matches. *)

Lemma dslash_after_peer seg tail :
  ch_slash ∉ seg → dslash false (ch_slash :: seg ++ ch_slash :: tail) = false →
  dslash false tail = false ∧ starts_with tail [ch_slash] = false.
Proof.
  intros Hs H. cbn [dslash] in H. rewrite Z.eqb_refl in H. cbn [orb] in H.
  destruct seg as [|c seg].
  { cbn [app dslash] in H. by rewrite Z.eqb_refl in H. }
  rewrite dslash_app_no_slash in H by done. cbn [dslash] in H. rewrite Z.eqb_refl in H.
  cbn [orb] in H. rewrite dslash_prev in H. by apply orb_false_iff in H as [??].
Qed.

Lemma not_slash_not_never t : starts_with t [ch_slash] = false → t ≠ NEVER_MATCH.
Proof. by intros H ->. Qed.

(** A slash-free segment splits a path in one way. *)
Lemma segment_split seg tail p q :
  ch_slash ∉ seg → seg ++ ch_slash :: tail = p ++ ch_slash :: q →
  (p = seg ∧ q = tail) ∨ ∃ p', p = seg ++ ch_slash :: p' ∧ tail = p' ++ ch_slash :: q.
Proof.
  revert p. induction seg as [|c seg IH]; intros p Hs E; cbn [app] in E.
  - destruct p as [|c p]; cbn [app] in E; injection E as ->; [by left|].
    right. by exists p.
  - destruct p as [|c' p]; cbn [app] in E; injection E as -> E; [set_solver|].
    destruct (IH p) as [[-> ->]|(p' & -> & ->)]; [set_solver | done | by left |].
    right. by exists p'.
Qed.

Lemma subtree_trans v p1 q r :
  ¬ lit "/*/" `prefix_of` (q ++ lit "/*") →
  matches_pattern v p1 = true → p1 = q ++ ch_slash :: r → ∃ r', v = q ++ ch_slash :: r'.
Proof.
  intros Hq Hv E. destruct (pattern_shape_any_pattern p1) as [|rest|prefix Hp|p H1 H2 H3].
  - exfalso. destruct q as [|c [|]]; discriminate E.
  - apply matches_peer in Hv as (_ & seg & tail & -> & _). destruct q as [|c q]; [by eexists|].
    exfalso. change (lit "/*/") with [47; 42; 47] in *. cbn [app] in E. injection E as <- E.
    destruct q as [|c q]; cbn [app] in E; [done|]. injection E as <- E.
    apply Hq. destruct q as [|c q]; [by exists [42]|]. cbn [app] in E. injection E as <- _.
    by exists (q ++ lit "/*").
  - apply matches_subtree in Hv as (_ & k & ->); [|done].
    assert (Hpre : (q ++ [ch_slash]) `prefix_of` (prefix ++ [ch_slash])).
    { assert (H1 : (q ++ [ch_slash]) `prefix_of` (prefix ++ lit "/*"))
        by (rewrite E; exists r; by rewrite <-app_assoc).
      destruct H1 as [k1 Hk1]. destruct (decide (k1 = [])) as [->|Hne].
      - exfalso. rewrite app_nil_r in Hk1. apply (f_equal last) in Hk1.
        change (lit "/*") with ([47] ++ [42]) in Hk1. rewrite app_assoc, !last_snoc in Hk1. done.
      - destruct (exists_last Hne) as (k2 & x & ->). exists k2.
        change (lit "/*") with ([47] ++ [42]) in Hk1. rewrite !app_assoc in Hk1.
        apply app_inj_tail in Hk1 as [Hk1 _]. done. }
    destruct Hpre as [k2 Hk2]. exists (k2 ++ k).
    replace (prefix ++ ch_slash :: k) with ((prefix ++ [ch_slash]) ++ k) by (by rewrite <-app_assoc).
    rewrite Hk2. by rewrite <-!app_assoc.
  - apply matches_exact in Hv as [-> _]; [|done..]. by exists r.
Qed.

Lemma tail_shorter seg tail : (length tail < length (ch_slash :: seg ++ ch_slash :: tail))%nat.
Proof. cbn [length]. rewrite length_app. cbn [length]. lia. Qed.

Lemma matches_trans v p1 p2 :
  dslash false v = false → matches_pattern v p1 = true → matches_pattern p1 p2 = true →
  matches_pattern v p2 = true.
Proof.
  remember (length v) as n eqn:Hn. revert v p1 p2 Hn.
  induction n as [n IH] using (well_founded_induction lt_wf). intros v p1 p2 -> Hd H1 H2.
  pose proof (matches_not_never _ _ H1) as [Hvn _].
  destruct (pattern_shape_any_pattern p2) as [|R2|q Hq|p Ha Hb Hc].
  - by apply matches_any.
  - apply matches_peer in H2 as (_ & seg & t1 & E & Hseg & H2). apply matches_peer. split; [done|].
    destruct (pattern_shape_any_pattern p1) as [|R1|P HP|p Ha Hb Hc].
    + done.
    + apply matches_peer in H1 as (_ & s & rv & -> & Hs & H1).
      assert (t1 = R1) as ->.
      { change (lit "/*/" ++ R1) with (ch_slash :: [42] ++ ch_slash :: R1) in E. injection E as E.
        destruct (segment_split [42] R1 seg t1) as [[_ ?]|(p' & -> & _)]; [set_solver | done | done |].
        set_solver. }
      destruct (dslash_after_peer s rv Hs Hd) as [Hd' _]. exists s, rv. split_and!; [done..|].
      eapply (IH (length rv)); [apply tail_shorter|reflexivity|exact Hd'|exact H1|exact H2].
    + apply matches_subtree in H1 as (_ & rv & ->); [|done].
      destruct P as [|c P]; [exfalso; by destruct seg as [|?[|]]|].
      change (lit "/*") with [ch_slash; 42] in E. cbn [app] in E. injection E as -> E.
      destruct (segment_split seg t1 P [42] Hseg (eq_sym E)) as [[-> <-]|(P' & -> & ->)].
      * cbn [app] in Hd. destruct (dslash_after_peer seg rv Hseg Hd) as [Hd' Hns].
        exists seg, rv. split_and!; [done..|].
        eapply (IH (length rv)); [apply tail_shorter|reflexivity|exact Hd'| |exact H2].
        apply (matches_any rv). by apply not_slash_not_never.
      * cbn [app] in Hd. rewrite <-app_assoc in Hd. cbn [app] in Hd.
        destruct (dslash_after_peer seg (P' ++ ch_slash :: rv) Hseg Hd) as [Hd' Hns].
        exists seg, (P' ++ ch_slash :: rv). cbn [app]. rewrite <-app_assoc. split_and!; [done..|].
        eapply (IH (length (P' ++ ch_slash :: rv))); [|reflexivity|exact Hd'| |exact H2].
        -- change (?a :: ?b) with ([a] ++ b). rewrite !length_app. cbn [length]. lia.
        -- change (P' ++ [ch_slash; 42]) with (P' ++ lit "/*"). apply matches_subtree.
           { destruct P' as [|c P']; [discriminate Hns|]. intros [k Hk].
             change (lit "/*/") with [47; 42; 47] in Hk. cbn [app] in Hk. injection Hk as -> _.
             discriminate Hns. }
           split; [by apply not_slash_not_never | by exists rv].
    + apply matches_exact in H1 as [-> _]; [|done..]. by exists seg, t1.
  - apply matches_subtree in H2 as (_ & r & ->); [|done]. apply matches_subtree; [done|].
    split; [done|]. by eapply subtree_trans.
  - apply matches_exact in H2 as [-> _]; done.
Qed.

(** ** Identifier patterns *)

Lemma matches_id_pattern_spec v p :
  matches_id_pattern v p = true ↔
  p = lit "*" ∨ (p ≠ lit "*" ∧ ∃ q, p = q ++ lit "/*" ∧ ∃ r, v = q ++ ch_slash :: r)
  ∨ (p ≠ lit "*" ∧ strip_suffix (lit "/*") p = None ∧ v = p).
Proof.
  unfold matches_id_pattern. case_bool_decide as H1; [naive_solver|].
  destruct (strip_suffix (lit "/*") p) as [q|] eqn:E.
  - rewrite under_prefix_spec. apply strip_suffix_Some in E as ->. split; [by eauto 10|].
    intros [?|[(_ & q' & Hq & r & ->)|(_ & [=] & _)]]; [done|].
    apply app_inv_tail in Hq as ->. eauto.
  - rewrite bool_decide_eq_true. split; [by eauto 10|].
    intros [?|[(_ & q & -> & _)|(_ & _ & ->)]]; [done| |done].
    by rewrite (proj2 (strip_suffix_Some _ _ q)) in E.
Qed.

Lemma matches_id_trans v p1 p2 :
  matches_id_pattern v p1 = true → matches_id_pattern p1 p2 = true → matches_id_pattern v p2 = true.
Proof.
  rewrite !matches_id_pattern_spec.
  intros H1 [->|[(Hn & q & -> & r & ->)|(Hn & Hs & ->)]]; [by left| |done].
  right; left. split; [done|]. exists q. split; [done|].
  destruct H1 as [E|[(_ & q' & E & r' & ->)|(_ & _ & ->)]].
  - exfalso. apply (f_equal (λ l, bool_decide (ch_slash ∈ l))) in E.
    rewrite (bool_decide_eq_true_2 (ch_slash ∈ q ++ _)) in E by set_solver. done.
  - (* [q/r = q'/*] *)
    assert (Hpre : (q ++ [ch_slash]) `prefix_of` q' ++ lit "/*").
    { rewrite <-E. exists r. by rewrite <-app_assoc. }
    change (lit "/*") with ([ch_slash] ++ [42]) in Hpre, E. rewrite app_assoc in Hpre, E.
    destruct Hpre as [k Hk]. destruct (decide (k = [])) as [->|Hne].
    { rewrite app_nil_r in Hk. apply app_inj_tail in Hk as [_ ?]. done. }
    destruct (exists_last Hne) as (k2 & x & ->). rewrite app_assoc in Hk.
    apply app_inj_tail in Hk as [Hk _]. exists (k2 ++ r').
    replace (q' ++ ch_slash :: r') with ((q' ++ [ch_slash]) ++ r') by (by rewrite <-app_assoc).
    rewrite Hk. by rewrite <-!app_assoc.
  - by exists r.
Qed.

Lemma matches_id_scope_true v inc exc :
  matches_id_scope v inc exc = true ↔
  (∃ p, p ∈ inc ∧ matches_id_pattern v p = true) ∧ (∀ p, p ∈ exc → matches_id_pattern v p = false).
Proof.
  unfold matches_id_scope. destruct (existsb (matches_id_pattern v) inc) eqn:E; cbn [negb].
  - apply existsb_exists in E as (p & Hp & Hm). apply list_elem_of_In in Hp.
    rewrite negb_true_iff, <-not_true_iff_false, existsb_exists. setoid_rewrite <-list_elem_of_In.
    split; [|by intros [_ H] (x & Hx & Hm'); rewrite H in Hm'].
    intros H. split; [eauto|]. intros q Hq. apply not_true_iff_false. eauto.
  - split; [done|]. intros [(p & Hp & Hm) _]. apply list_elem_of_In in Hp.
    apply not_true_iff_false in E. destruct E. apply existsb_exists. eauto.
Qed.

(** ** Membership forms of the scope checks *)

Lemma existsb_elem {A} (f : A → bool) l : existsb f l = true ↔ ∃ x, x ∈ l ∧ f x = true.
Proof. rewrite existsb_exists. by setoid_rewrite list_elem_of_In. Qed.

Lemma is_covered_by_true v ps frame :
  is_covered_by v ps frame = true ↔ ∃ p, p ∈ ps ∧ matches_pattern v (canonicalize p frame) = true.
Proof. apply existsb_elem. Qed.

Lemma excludes_admit_true v ps frame :
  excludes_admit v ps frame = true ↔
  ∀ p, p ∈ ps → canonicalize p frame ≠ NEVER_MATCH ∧ matches_pattern v (canonicalize p frame) = false.
Proof.
  induction ps as [|p ps IH]; cbn [excludes_admit]; [set_solver|].
  case_bool_decide as Hn; [split; [done|]; intros H; by destruct (H p); [left|]|].
  destruct (matches_pattern v _) eqn:E; [split; [done|]; intros H; destruct (H p); [by left|congruence]|].
  rewrite IH. split.
  - intros H q [->|Hq]%elem_of_cons; [done | auto].
  - intros H q Hq. apply H. by right.
Qed.

Lemma matches_scope_true v inc exc frame :
  matches_scope v inc exc frame = true ↔
  is_covered_by (canonicalize v frame) inc frame = true
  ∧ excludes_admit (canonicalize v frame) exc frame = true.
Proof.
  unfold matches_scope, is_covered_by. destruct (existsb _ inc); cbn [negb]; naive_solver.
Qed.

Lemma scope_subset_path_true ch pa cf pf :
  scope_subset_path ch pa cf pf = true ↔
  (∀ ci, ci ∈ ps_include ch → is_covered_by (canonicalize ci cf) (ps_include pa) pf = true)
  ∧ (∀ pe, pe ∈ ps_exclude pa → is_covered_by (canonicalize pe pf) (ps_exclude ch) cf = true).
Proof.
  unfold scope_subset_path. rewrite andb_true_iff, !forallb_elem. done.
Qed.

(** A subset scope admits no more concrete paths. *)
Lemma covered_mono v inc_c inc_p cf pf :
  dslash false v = false →
  (∀ ci, ci ∈ inc_c → is_covered_by (canonicalize ci cf) inc_p pf = true) →
  is_covered_by v inc_c cf = true → is_covered_by v inc_p pf = true.
Proof.
  intros Hd Hs. rewrite !is_covered_by_true. intros (ci & Hci & Hm).
  destruct (proj1 (is_covered_by_true _ _ _) (Hs ci Hci)) as (pi & Hpi & Hm').
  exists pi. split; [done|]. by eapply matches_trans.
Qed.

Lemma excludes_mono v exc_c exc_p cf pf :
  dslash false v = false →
  (∀ pe, pe ∈ exc_p → is_covered_by (canonicalize pe pf) exc_c cf = true) →
  excludes_admit v exc_c cf = true → excludes_admit v exc_p pf = true.
Proof.
  intros Hd Hs. rewrite !excludes_admit_true. intros H pe Hpe.
  destruct (proj1 (is_covered_by_true _ _ _) (Hs pe Hpe)) as (ce & Hce & Hm').
  split; [by apply matches_not_never in Hm' as [? _]|].
  destruct (H ce Hce) as [_ Hf]. apply not_true_iff_false. intros Hm.
  by rewrite (matches_trans _ _ _ Hd Hm Hm') in Hf.
Qed.

Lemma matches_id_scope_mono v ch pa :
  scope_subset_id ch pa = true → matches_id_scope v (is_include ch) (is_exclude ch) = true →
  matches_id_scope v (is_include pa) (is_exclude pa) = true.
Proof.
  unfold scope_subset_id. rewrite andb_true_iff, !forallb_elem, !matches_id_scope_true.
  setoid_rewrite existsb_elem. intros [Hi He] [(ci & Hci & Hm) Hx]. split.
  - destruct (Hi ci Hci) as (pi & Hpi & Hm'). exists pi. split; [done|]. by eapply matches_id_trans.
  - intros pe Hpe. destruct (He pe Hpe) as (ce & Hce & Hm'). apply not_true_iff_false. intros Hm''.
    pose proof (matches_id_trans _ _ _ Hm'' Hm') as Hc. by rewrite Hx in Hc.
Qed.

(** ** Canonical paths *)

Lemma canonicalize_absolute p frame : ∃ r, canonicalize p frame = ch_slash :: r.
Proof.
  unfold canonicalize. destruct (starts_with p (lit "./") || starts_with p (lit "../")); [by eexists|].
  destruct (starts_with p (lit "*/")); [by eexists|].
  assert (Hq : ∃ r, (if starts_with p [ch_slash] then p
     else if decide (p = [ch_star]) then [ch_slash] ++ frame ++ lit "/*"
     else [ch_slash] ++ frame ++ [ch_slash] ++ p) = ch_slash :: r).
  { destruct (starts_with p [ch_slash]) eqn:E; [by apply starts_with_slash|]. case_decide; by eexists. }
  destruct (starts_with p URI_SCHEME); [|done]. destruct (uri_parse p) as [u|]; [|done].
  destruct (negb _); [|done]. case_bool_decide; by eexists.
Qed.

Lemma canonicalize_fixed r frame : canonicalize (ch_slash :: r) frame = ch_slash :: r.
Proof. unfold canonicalize. by destruct r. Qed.

Lemma canonicalize_idem p frame frame' :
  canonicalize (canonicalize p frame) frame' = canonicalize p frame.
Proof. destruct (canonicalize_absolute p frame) as [r ->]. apply canonicalize_fixed. Qed.

Lemma never_match_one_slash a b : [ch_slash] ++ a ++ ch_slash :: b ≠ NEVER_MATCH.
Proof.
  intros E. change NEVER_MATCH with ([ch_slash] ++ lit "never-match") in E. apply app_inv_head in E.
  assert (Hin : ch_slash ∈ lit "never-match") by (rewrite <-E; set_solver).
  apply contains_byte_true in Hin. by vm_compute in Hin.
Qed.

Lemma canonicalize_never p frame frame' :
  canonicalize p frame = NEVER_MATCH → canonicalize p frame' = NEVER_MATCH.
Proof.
  unfold canonicalize. destruct (_ || _); [done|]. destruct (starts_with p (lit "*/")); [done|].
  assert (Hq : (if starts_with p [ch_slash] then p
     else if decide (p = [ch_star]) then [ch_slash] ++ frame ++ lit "/*"
     else [ch_slash] ++ frame ++ [ch_slash] ++ p) = NEVER_MATCH →
     (if starts_with p [ch_slash] then p
     else if decide (p = [ch_star]) then [ch_slash] ++ frame' ++ lit "/*"
     else [ch_slash] ++ frame' ++ [ch_slash] ++ p) = NEVER_MATCH).
  { destruct (starts_with p [ch_slash]); [done|].
    case_decide; intros E; by apply never_match_one_slash in E. }
  destruct (starts_with p URI_SCHEME); [|done]. destruct (uri_parse p) as [u|]; [|done].
  by destruct (negb _).
Qed.

Lemma unmatchable_scope_pattern_Some gs p :
  unmatchable_scope_pattern gs = Some p → canonicalize p ANY_FRAME = NEVER_MATCH.
Proof.
  intros H. apply find_first_Some in H as (l1 & l2 & _ & H & _). by apply bool_decide_eq_true in H.
Qed.

Lemma unmatchable_scope_pattern_None gs g s p :
  unmatchable_scope_pattern gs = None → g ∈ gs → s ∈ [g_handlers g; g_resources g] →
  p ∈ ps_include s ++ ps_exclude s → canonicalize p ANY_FRAME ≠ NEVER_MATCH.
Proof.
  intros H Hg Hs Hp. apply find_first_None in H. rewrite Forall_forall in H.
  assert (Hin : p ∈ concat (map (λ g, concat (map (λ s, ps_include s ++ ps_exclude s)
             [g_handlers g; g_resources g])) gs)).
  { apply list_elem_of_In, in_concat. eexists. split.
    - apply in_map_iff. exists g. split; [reflexivity | by apply list_elem_of_In].
    - apply in_concat. eexists. split; [|by apply list_elem_of_In].
      apply in_map_iff. exists s. split; [reflexivity | by apply list_elem_of_In]. }
  specialize (H _ Hin). by apply bool_decide_eq_false in H.
Qed.

(** * Grants *)

Lemma grant_authorizes_true op handler tp rt local fr relax g :
  grant_authorizes op handler tp rt local fr relax g = true ↔
  matches_id_scope op (is_include (g_operations g)) (is_exclude (g_operations g)) = true
  ∧ matches_scope handler (ps_include (g_handlers g)) (ps_exclude (g_handlers g)) local = true
  ∧ (relax = true ∨ matches_id_scope tp (is_include (peers_of g local)) (is_exclude (peers_of g local)) = true)
  ∧ (∀ r, rt = Some r → check_resource_scope r (g_resources g) local fr = true).
Proof.
  unfold grant_authorizes. destruct (matches_id_scope op _ _); cbn [negb]; [|naive_solver].
  destruct (matches_scope _ _ _ _); cbn [negb]; [|naive_solver].
  destruct relax, (matches_id_scope tp _ _), rt; cbn [negb andb]; naive_solver.
Qed.

Lemma check_resource_scope_true rt res local fr :
  check_resource_scope rt res local fr = true ↔
  ∀ t, t ∈ targets rt → is_covered_by (canonicalize t local) (rt_exclude rt) local = false →
       target_in_scope t (rt_exclude rt) res local fr = true.
Proof.
  unfold check_resource_scope. rewrite forallb_elem. cbn [effective_targets].
  setoid_rewrite list_elem_of_filter. naive_solver.
Qed.

(** Targets without a [*] after canonicalization. *)
Definition concrete_targets (rt : ResourceTarget) (local : list Z) : Prop :=
  Forall (λ t, is_pattern (canonicalize t local) = false) (targets rt).

Lemma target_in_scope_concrete t ce res local fr :
  is_pattern (canonicalize t local) = false →
  target_in_scope t ce res local fr = true ↔
  validate_absolute_path (canonicalize t local) = Ok tt
  ∧ is_covered_by (canonicalize t local) (ps_include res) fr = true
  ∧ excludes_admit (canonicalize t local) (ps_exclude res) fr = true.
Proof.
  intros Hp. unfold target_in_scope. rewrite Hp. cbn [negb andb].
  destruct (validate_absolute_path _) as [[]|e]; cbn [is_ok negb]; [|naive_solver].
  destruct (is_covered_by _ _ _); cbn [negb]; naive_solver.
Qed.

Lemma check_resource_scope_mono rt ch pa cf pf local :
  scope_subset_path ch pa cf pf = true → concrete_targets rt local →
  check_resource_scope rt ch local cf = true → check_resource_scope rt pa local pf = true.
Proof.
  rewrite scope_subset_path_true, !check_resource_scope_true. intros [Hi He] Hc H t Ht Hx.
  specialize (H t Ht Hx). unfold concrete_targets in Hc. rewrite Forall_forall in Hc.
  specialize (Hc t Ht). rewrite target_in_scope_concrete in * by done.
  destruct H as (Hv & Hin & Hex). split; [done|].
  assert (Hd : dslash false (canonicalize t local) = false).
  { by apply validate_absolute_path_Ok in Hv as (? & ? & _). }
  split; [by eapply covered_mono | by eapply excludes_mono].
Qed.

Section attenuation.
Context `{CiboriumWrites}.

Lemma grant_subset_true ch pa cf pf local :
  grant_subset ch pa cf pf local = true ↔
  grant_axes_subset ch pa cf pf local = true
  ∧ retains (default [] (g_constraints pa)) (default [] (g_constraints ch)) = true
  ∧ retains (default [] (g_allowances ch)) (default [] (g_allowances pa)) = true.
Proof.
  unfold grant_subset. destruct (grant_axes_subset _ _ _ _ _); cbn [negb]; [|naive_solver].
  destruct (retains _ (default [] (g_constraints ch))); cbn [negb]; naive_solver.
Qed.

Lemma grant_axes_subset_true ch pa cf pf local :
  grant_axes_subset ch pa cf pf local = true ↔
  scope_subset_path (g_handlers ch) (g_handlers pa) local local = true
  ∧ scope_subset_id (g_operations ch) (g_operations pa) = true
  ∧ scope_subset_path (g_resources ch) (g_resources pa) cf pf = true
  ∧ scope_subset_id (peers_of ch local) (peers_of pa local) = true.
Proof.
  unfold grant_axes_subset. destruct (scope_subset_path _ _ _ _); cbn [negb]; [|naive_solver].
  destruct (scope_subset_id _ _); cbn [negb]; [|naive_solver].
  destruct (scope_subset_path _ _ cf pf); cbn [negb]; naive_solver.
Qed.

Lemma grant_axes_subset_mono op handler tp rt local cf pf ch pa :
  dslash false (canonicalize handler local) = false →
  (∀ r, rt = Some r → concrete_targets r local) →
  grant_axes_subset ch pa cf pf local = true →
  grant_authorizes op handler tp rt local cf false ch = true →
  grant_authorizes op handler tp rt local pf false pa = true.
Proof.
  intros Hd Hrt. rewrite grant_axes_subset_true, !grant_authorizes_true, !matches_scope_true.
  intros (Hh & Ho & Hr & Hp) (Ao & (Ahi & Ahe) & [?|Ap] & Ar); [done|].
  apply scope_subset_path_true in Hh as [Hhi Hhe]. split_and!.
  - by eapply matches_id_scope_mono.
  - by eapply covered_mono.
  - by eapply excludes_mono.
  - right. by eapply matches_id_scope_mono.
  - intros r ->. eapply check_resource_scope_mono; eauto.
Qed.

Lemma is_attenuated_inner_true ch pa cf pf local :
  is_attenuated_inner ch pa cf pf local = true ↔
  (∀ cg, cg ∈ grants ch → ∃ pg, pg ∈ grants pa ∧ grant_subset cg pg cf pf local = true)
  ∧ (∀ e, expires_at pa = Some e → ∃ e', expires_at ch = Some e' ∧ e' ≤ e).
Proof.
  unfold is_attenuated_inner. destruct (forallb _ (grants ch)) eqn:E; cbn [negb].
  - rewrite forallb_elem in E. unfold grant_covered_by in E. setoid_rewrite existsb_elem in E.
    destruct (expires_at pa) as [e|]; [|naive_solver]. destruct (expires_at ch) as [e'|].
    + rewrite negb_true_iff, Z.ltb_ge. split; [naive_solver|].
      intros [_ He]. by destruct (He e eq_refl) as (? & [= <-] & ?).
    + split; [done|]. intros [_ He]. by destruct (He e eq_refl) as (? & ? & _).
  - split; [done|]. intros [Hg _]. apply not_true_iff_false in E. destruct E.
    apply forallb_elem. intros cg Hcg. unfold grant_covered_by. rewrite existsb_elem. auto.
Qed.

Lemma attenuated_authorizes op handler tp rt local cf pf ch pa cg :
  is_attenuated_inner ch pa cf pf local = true →
  dslash false (canonicalize handler local) = false →
  (∀ r, rt = Some r → concrete_targets r local) →
  check_permission_with_grant op handler tp rt ch local cf = Some cg →
  ∃ pg, pg ∈ grants pa ∧ grant_authorizes op handler tp rt local pf false pg = true
    ∧ retains (default [] (g_constraints pg)) (default [] (g_constraints cg)) = true
    ∧ retains (default [] (g_allowances cg)) (default [] (g_allowances pg)) = true.
Proof.
  rewrite is_attenuated_inner_true. intros [Hg _] Hd Hrt Hc.
  apply find_first_Some in Hc as (l1 & l2 & El & Ha & _).
  destruct (Hg cg) as (pg & Hpg & Hs); [rewrite El; set_solver|].
  apply grant_subset_true in Hs as (Hs & Hco & Hal). exists pg. split_and!; [done| |done..].
  by eapply grant_axes_subset_mono.
Qed.

Lemma with_grant_is_Some op handler tp rt tok local fr :
  is_Some (check_permission_with_grant op handler tp rt tok local fr) ↔
  ∃ g, g ∈ grants tok ∧ grant_authorizes op handler tp rt local fr false g = true.
Proof.
  unfold check_permission_with_grant. split.
  - intros [g Hg]. apply find_first_Some in Hg as (l1 & l2 & -> & Hg & _). exists g.
    split; [set_solver|done].
  - intros (g & Hg & Ha). destruct (find_first _ _) eqn:E; [done|].
    apply find_first_None in E. rewrite Forall_forall in E. by rewrite E in Ha.
Qed.
End attenuation.

(** * Properties *)

(** What a pattern denotes, as a relation: [*] every path, [/*/rest] one peer segment and
    then [rest], [prefix/*] everything below [prefix], anything else itself;
    [NEVER_MATCH] nothing. *)
Inductive denotes : list Z → list Z → Prop :=
  | denotes_any v : v ≠ NEVER_MATCH → denotes v (lit "*")
  | denotes_peer seg tail rest :
      ch_slash :: seg ++ ch_slash :: tail ≠ NEVER_MATCH → ch_slash ∉ seg → denotes tail rest →
      denotes (ch_slash :: seg ++ ch_slash :: tail) (lit "/*/" ++ rest)
  | denotes_subtree prefix r :
      ¬ lit "/*/" `prefix_of` (prefix ++ lit "/*") → prefix ++ ch_slash :: r ≠ NEVER_MATCH →
      denotes (prefix ++ ch_slash :: r) (prefix ++ lit "/*")
  | denotes_exact p :
      p ≠ lit "*" → ¬ lit "/*/" `prefix_of` p → strip_suffix (lit "/*") p = None →
      p ≠ NEVER_MATCH → denotes p p.

(** C39. [matches_pattern] decides the denotation of patterns, and denotation is transitive
    on paths without an empty segment: such a path that matches a pattern matches every
    pattern that one matches.  (The proviso is needed: [/x//never-match] is below [/x/*], which
    [/*/*] covers, and does not match [/*/*].) *)
Theorem matches_pattern_decides v p1 p2 :
  (matches_pattern v p1 = true ↔ denotes v p1)
  ∧ (dslash false v = false → denotes v p1 → denotes p1 p2 → denotes v p2)
  ∧ (let w := lit "/x//never-match" in
     matches_pattern w (lit "/x/*") = true ∧ matches_pattern (lit "/x/*") (lit "/*/*") = true
     ∧ matches_pattern w (lit "/*/*") = false).
Proof.
  assert (Hd : ∀ p v, matches_pattern v p = true ↔ denotes v p).
  { clear. intros p v. split.
    - remember (length v) as n eqn:Hn. revert v p Hn.
      induction n as [n IH] using (well_founded_induction lt_wf). intros v p -> Hm.
      destruct (pattern_shape_any_pattern p) as [|rest|q Hq|p Ha Hb Hc].
      + constructor. by apply matches_any.
      + apply matches_peer in Hm as (Hn & seg & tail & -> & Hs & Hm). constructor; [done..|].
        eapply IH; [apply tail_shorter|reflexivity|done].
      + apply matches_subtree in Hm as (Hn & r & ->); [|done]. by constructor.
      + apply matches_exact in Hm as [-> Hn]; [|done..]. by constructor.
    - induction 1.
      + by apply matches_any.
      + apply matches_peer. eauto 10.
      + apply matches_subtree; eauto.
      + by apply matches_exact. }
  split_and!; [apply Hd | rewrite <-!Hd; apply matches_trans | by vm_compute..].
Qed.

(** At a path below a peer wildcard. *)
Lemma matches_pattern_decides_witness :
  denotes (lit "/abc/docs/x") (lit "/*/*").
Proof.
  destruct (matches_pattern_decides (lit "/abc/docs/x") (lit "/abc/docs/*") (lit "/*/*")) as (_ & H & _).
  apply H; [by vm_compute | |].
  - change (denotes (lit "/abc/docs" ++ ch_slash :: lit "x") (lit "/abc/docs" ++ lit "/*")).
    constructor; [|done]. apply strip_prefix_None. by vm_compute.
  - change (denotes (ch_slash :: lit "abc" ++ ch_slash :: lit "docs/*") (lit "/*/" ++ lit "*")).
    constructor; [done| |by constructor]. apply contains_byte_false. by vm_compute.
Defined.

(** C3. Attenuation is sound: if [is_attenuated_framed] accepts a child against its
    parent, then whatever request on concrete targets the child authorizes (each resolved
    in its own granter's frame), some entry of the parent authorizes too; the child's
    entry keeps every constraint of that entry and adds no allowance to it; and the child
    does not outlive the parent. *)
Theorem attenuation_sound `{CiboriumWrites} op handler tp rt local cf pf ch pa :
  is_attenuated_framed ch pa cf pf local = true →
  dslash false (canonicalize handler local) = false →
  (∀ r, rt = Some r → concrete_targets r local) →
  (∀ cg, check_permission_with_grant op handler tp rt ch local cf = Some cg →
     is_Some (check_permission_with_grant op handler tp rt pa local pf)
     ∧ ∃ pg, pg ∈ grants pa ∧ grant_authorizes op handler tp rt local pf false pg = true
       ∧ retains (default [] (g_constraints pg)) (default [] (g_constraints cg)) = true
       ∧ retains (default [] (g_allowances cg)) (default [] (g_allowances pg)) = true)
  ∧ (∀ e, expires_at pa = Some e → ∃ e', expires_at ch = Some e' ∧ e' ≤ e).
Proof.
  intros Ha Hd Hrt. split; [|by apply is_attenuated_inner_true in Ha as [_ ?]].
  intros cg Hcg. destruct (attenuated_authorizes _ _ _ _ _ _ _ _ _ _ Ha Hd Hrt Hcg) as (pg & H1 & H2 & H3 & H4).
  split; [apply with_grant_is_Some|]; eauto 10.
Qed.

Definition sample_token (gs : list GrantEntry) (exp : option Z) : CapabilityToken :=
  mkToken gs (Single (mkHash 0 (replicate 32 1))) (mkHash 0 (replicate 32 2)) None 10 exp None None.

Definition sample_grant (inc exc : string) : GrantEntry :=
  mkGrant (path_scope_new [lit "system/tree"]) (mkPathScope [lit inc] [lit exc])
    (id_scope_new [lit "get"]) None None None.

Definition ref_writer : CiboriumWrites := {| into_writer v := Some (to_ecf v) |}.

(** For a reader of [docs/*] attenuated to [docs/pub/*] under the same exclusion. *)
Lemma attenuation_sound_witness :
  is_Some (check_permission_with_grant (lit "get") (lit "system/tree") (sample_peer "a")
    (Some (mkTarget [lit "docs/pub/x"] [])) (sample_token [sample_grant "docs/*" "docs/priv/*"] (Some 9))
    (sample_peer "a") (sample_peer "a")).
Proof.
  destruct (@attenuation_sound ref_writer (lit "get") (lit "system/tree") (sample_peer "a")
    (Some (mkTarget [lit "docs/pub/x"] [])) (sample_peer "a") (sample_peer "a") (sample_peer "a")
    (sample_token [sample_grant "docs/pub/*" "docs/priv/*"] (Some 8))
    (sample_token [sample_grant "docs/*" "docs/priv/*"] (Some 9))) as [H _].
  - by vm_compute.
  - by vm_compute.
  - intros r [= <-]. repeat constructor.
  - destruct (H (sample_grant "docs/pub/*" "docs/priv/*")) as [? _]; [by vm_compute|done].
Defined.

(** Malformed paths and patterns fail closed: canonicalization is stable (its result is
    absolute and the same in every other frame), whether it is [NEVER_MATCH] does not
    depend on the frame, a [NEVER_MATCH] path or pattern matches nothing, a scope with an
    unmatchable exclude admits nothing, and [unmatchable_scope_pattern] reports a pattern
    exactly when some handler or resource pattern is unmatchable in every frame. *)
Theorem unmatchable_fails_closed p frame frame' v w inc exc gs :
  canonicalize (canonicalize p frame) frame' = canonicalize p frame
  ∧ is_absolute (canonicalize p frame) = true
  ∧ (canonicalize p frame = NEVER_MATCH ↔ canonicalize p frame' = NEVER_MATCH)
  ∧ (canonicalize p frame = NEVER_MATCH →
     matches_pattern (canonicalize p frame) w = false ∧ matches_pattern v (canonicalize p frame) = false
     ∧ matches_scope p inc exc frame = false
     ∧ (p ∈ exc → matches_scope v inc exc frame = false))
  ∧ (unmatchable_scope_pattern gs = None ↔
     ∀ g s q, g ∈ gs → s ∈ [g_handlers g; g_resources g] → q ∈ ps_include s ++ ps_exclude s →
       canonicalize q frame ≠ NEVER_MATCH).
Proof.
  split_and!.
  - apply canonicalize_idem.
  - unfold is_absolute. destruct (canonicalize_absolute p frame) as [r ->]. by apply starts_with_slash; eexists.
  - split; apply canonicalize_never.
  - intros E. rewrite E. split_and!; [apply matches_never_l | apply matches_never_r | |].
    + apply not_true_iff_false. rewrite matches_scope_true, is_covered_by_true.
      intros [(q & _ & Hm) _]. rewrite E in Hm. by rewrite matches_never_l in Hm.
    + intros Hp. apply not_true_iff_false. rewrite matches_scope_true, excludes_admit_true.
      intros [_ H]. by destruct (H p Hp).
  - split.
    + intros H g s q Hg Hs Hq E. eapply unmatchable_scope_pattern_None; eauto.
      by eapply canonicalize_never.
    + intros H. apply find_first_None, Forall_forall. intros q Hq. apply bool_decide_eq_false.
      apply list_elem_of_In, in_concat in Hq as (l & Hl & Hq).
      apply in_map_iff in Hl as (g & <- & Hg). apply in_concat in Hq as (l & Hl & Hq).
      apply in_map_iff in Hl as (s & <- & Hs). apply list_elem_of_In in Hg, Hs, Hq.
      intros E. apply (H g s q Hg Hs Hq). by eapply canonicalize_never.
Qed.

(** For the relative path [../secret] as an exclude. *)
Lemma unmatchable_fails_closed_witness :
  matches_scope (lit "system/tree") [lit "*"] [lit "../secret"] (sample_peer "a") = false.
Proof.
  destruct (unmatchable_fails_closed (lit "../secret") (sample_peer "a") [] (lit "system/tree") []
    [lit "*"] [lit "../secret"] []) as (_ & _ & _ & H & _).
  destruct H as (_ & _ & _ & H); [by vm_compute|]. apply H. by left.
Defined.

Lemma overlap_of_match v a :
  ¬ lit "/*/" `prefix_of` a → a ≠ lit "*" → matches_pattern v a = true → strip_wildcard a `prefix_of` v.
Proof.
  intros Hn Hs. unfold strip_wildcard.
  destruct (pattern_shape_any_pattern a) as [|rest|q Hq|p Ha Hb Hc]; [done| | |].
  - destruct Hn. by exists rest.
  - intros H. apply matches_subtree in H as (_ & r & ->); [|done].
    rewrite (proj2 (strip_suffix_Some _ _ q)) by done. by exists (ch_slash :: r).
  - intros H. apply matches_exact in H as [-> _]; [|done..]. by rewrite Hc, bool_decide_eq_false_2.
Qed.

Lemma canonicalize_not_star p frame : canonicalize p frame ≠ lit "*".
Proof. destruct (canonicalize_absolute p frame) as [r ->]. done. Qed.

Lemma survives_true ct exc ce local fr :
  pattern_subject_survives_grant_excludes ct exc ce local fr = true ↔
  ∀ ge, ge ∈ exc → canonicalize ge fr ≠ NEVER_MATCH
    ∧ (patterns_overlap ct (canonicalize ge fr) = true → is_covered_by (canonicalize ge fr) ce local = true).
Proof.
  induction exc as [|ge exc IH]; cbn [pattern_subject_survives_grant_excludes]; [set_solver|].
  case_bool_decide as Hn; [split; [done|]; intros H; by destruct (H ge); [left|]|].
  destruct (patterns_overlap ct _) eqn:Eo, (is_covered_by (canonicalize ge fr) ce local) eqn:Ec;
    cbn [negb andb].
  all: try (rewrite IH; split; [intros H q [->|Hq]%elem_of_cons; [by rewrite ?Eo, ?Ec | auto]
                              | intros H q Hq; apply H; by right]).
  split; [done|]. intros H. destruct (H ge) as [_ Hc]; [by left|]. by rewrite Hc in Ec.
Qed.

(** A pattern target that [check_resource_scope] accepts speaks for all its paths, as long
    as no peer wildcard is involved: every path the target denotes that the caller did not
    exclude is inside the grant's includes and outside its excludes.  With an exclude below
    [/*/] this fails: the overlap test compares literal prefixes, so a target over a whole
    peer is accepted against a grant that excludes a path of every peer. *)
Theorem pattern_target_sound t ce res local fr v :
  (target_in_scope t ce res local fr = true → is_pattern (canonicalize t local) = true →
   dslash false v = false → matches_pattern v (canonicalize t local) = true →
   is_covered_by v ce local = false →
   ¬ lit "/*/" `prefix_of` canonicalize t local →
   (∀ ge, ge ∈ ps_exclude res → ¬ lit "/*/" `prefix_of` canonicalize ge fr) →
   is_covered_by v (ps_include res) fr = true ∧ excludes_admit v (ps_exclude res) fr = true)
  ∧ (let p := sample_peer "a" in
     let res := mkPathScope [lit "/*/*"] [lit "/*/secret"] in
     target_in_scope (lit "*") [] res p p = true
     ∧ matches_pattern (canonicalize (lit "secret") p) (canonicalize (lit "*") p) = true
     ∧ target_in_scope (lit "secret") [] res p p = false).
Proof.
  split; [|by vm_compute]. unfold target_in_scope. intros Ht Hp Hd Hv Hx Hnt Hne.
  rewrite Hp in Ht. cbn [negb andb] in Ht. destruct (is_covered_by _ (ps_include res) fr) eqn:Ei; [|done].
  cbn [negb] in Ht. rewrite survives_true in Ht. split.
  - apply is_covered_by_true in Ei as (i & Hi & Hm). apply is_covered_by_true. exists i.
    split; [done|]. by eapply matches_trans.
  - apply excludes_admit_true. intros ge Hge. destruct (Ht ge Hge) as [Hnn Ho]. split; [done|].
    apply not_true_iff_false. intros Hm.
    pose proof (overlap_of_match _ _ Hnt (canonicalize_not_star _ _) Hv) as H1.
    pose proof (overlap_of_match _ _ (Hne ge Hge) (canonicalize_not_star _ _) Hm) as H2.
    destruct (proj1 (is_covered_by_true _ _ _) (Ho ltac:(
      unfold patterns_overlap; rewrite orb_true_iff, !starts_with_true;
      destruct (prefix_comparable _ _ _ H1 H2); auto))) as (c & Hc & Hmc).
    apply not_true_iff_false in Hx. destruct Hx. apply is_covered_by_true. exists c.
    split; [done|]. by eapply matches_trans.
Qed.

(** For [docs/*] against a grant that excludes [notes/*]. *)
Lemma pattern_target_sound_witness :
  excludes_admit (canonicalize (lit "docs/x") (sample_peer "a")) [lit "notes/*"] (sample_peer "a") = true.
Proof.
  destruct (pattern_target_sound (lit "docs/*") [] (mkPathScope [lit "*"] [lit "notes/*"])
    (sample_peer "a") (sample_peer "a") (canonicalize (lit "docs/x") (sample_peer "a"))) as [H _].
  apply H; [by vm_compute..| |].
  - apply strip_prefix_None. by vm_compute.
  - intros ge [->|[]%not_elem_of_nil]%elem_of_cons. apply strip_prefix_None. by vm_compute.
Defined.

(** The token with the peers axis of every entry opened. *)
Definition widen_peers (t : CapabilityToken) : CapabilityToken :=
  mkToken (map (λ g, mkGrant (g_handlers g) (g_resources g) (g_operations g) (Some id_scope_all)
                       (g_constraints g) (g_allowances g)) (grants t))
    (granter t) (grantee t) (parent t) (created_at t) (expires_at t) (not_before t) (delegation_caveats t).

Lemma is_Some_find_first {A} (f : A → bool) l : bool_decide (is_Some (find_first f l)) = existsb f l.
Proof.
  induction l as [|x l IH]; cbn [find_first existsb]; [by apply bool_decide_eq_false; intros [? ?]|].
  destruct (f x); [by apply bool_decide_eq_true|done].
Qed.

Lemma existsb_map {A B} (f : B → bool) (g : A → B) l : existsb f (map g l) = existsb (λ x, f (g x)) l.
Proof. induction l as [|x l IH]; cbn; [done|]. by rewrite IH. Qed.

Lemma existsb_ext_in {A} (f g : A → bool) l : (∀ x, x ∈ l → f x = g x) → existsb f l = existsb g l.
Proof.
  intros H. induction l as [|x l IH]; cbn; [done|]. rewrite H by (by left). f_equal.
  apply IH. intros y Hy. apply H. by right.
Qed.

Lemma id_scope_all_admits v : matches_id_scope v (is_include id_scope_all) (is_exclude id_scope_all) = true.
Proof. apply matches_id_scope_true. split; [exists (lit "*"); split; [by left|done] | set_solver]. Qed.

Lemma bool_eq_iff (a b : bool) : (a = true ↔ b = true) → a = b.
Proof. destruct a, b; naive_solver. Qed.

Lemma widened_authorizes op handler tp rt local fr g :
  grant_authorizes op handler tp rt local fr false
    (mkGrant (g_handlers g) (g_resources g) (g_operations g) (Some id_scope_all)
       (g_constraints g) (g_allowances g))
  = grant_authorizes op handler local rt local fr true g.
Proof.
  apply bool_eq_iff. rewrite !grant_authorizes_true. cbn [g_operations g_handlers g_resources g_peers].
  pose proof (id_scope_all_admits tp) as Hp. unfold peers_of at 1 2. cbn [default g_peers].
  split; intros (? & ? & _ & ?); split_and!; auto.
Qed.

Lemma path_subject_target path res local fr :
  is_pattern (canonicalize path local) = true ∨ validate_absolute_path (canonicalize path local) = Ok tt →
  path_scope_admits_subject (canonicalize path local) res local fr
  = check_resource_scope (mkTarget [path] []) res local fr.
Proof.
  intros Hv. apply bool_eq_iff. rewrite check_resource_scope_true. cbn [targets rt_exclude].
  transitivity (target_in_scope path [] res local fr = true).
  2: { split; [intros H t ->%list_elem_of_singleton _; done | intros H; apply H; [by left|done]]. }
  unfold path_scope_admits_subject, target_in_scope. destruct (is_pattern _) eqn:Ep; cbn [negb andb].
  - destruct (is_covered_by _ _ _); done.
  - destruct Hv as [?|Hv]; [done|]. rewrite Hv. cbn [is_ok negb].
    rewrite matches_scope_true, canonicalize_idem. destruct (is_covered_by _ _ _); cbn [negb]; naive_solver.
Qed.

(** The four permission entry points are one check: [check_permission] is
    [check_permission_with_grant] in the local frame; relaxing the peers axis is the same as
    opening the peers of every entry; and the handler-side [check_path_permission] is
    the request check on the single target [path] with the peers axis open, for a path that
    is a pattern or a valid absolute path. *)
Theorem permission_variants op handler tp rt path tok local fr :
  check_permission op handler tp rt tok local
    = bool_decide (is_Some (check_permission_with_grant op handler tp rt tok local local))
  ∧ check_permission_relax_peers op handler rt tok local
    = check_permission op handler tp rt (widen_peers tok) local
  ∧ (is_pattern (canonicalize path local) = true
       ∨ validate_absolute_path (canonicalize path local) = Ok tt →
     check_path_permission op path tok handler local fr
     = bool_decide (is_Some (check_permission_with_grant op handler tp (Some (mkTarget [path] []))
         (widen_peers tok) local fr))).
Proof.
  unfold check_permission, check_permission_relax_peers, check_permission_inner,
    check_permission_with_grant, widen_peers. cbn [grants].
  rewrite !is_Some_find_first, !existsb_map. split_and!; [done| |].
  - apply existsb_ext_in. intros g _. by rewrite widened_authorizes.
  - intros Hv. apply existsb_ext_in. intros g _. rewrite widened_authorizes. apply bool_eq_iff.
    rewrite grant_authorizes_true, !andb_true_iff, path_subject_target by done. naive_solver.
Qed.

(** For one path of the sample token. *)
Lemma permission_variants_witness :
  check_path_permission (lit "get") (lit "docs/x") (sample_token [sample_grant "docs/*" "docs/priv/*"] None)
    (lit "system/tree") (sample_peer "a") (sample_peer "a") = true.
Proof.
  destruct (permission_variants (lit "get") (lit "system/tree") (sample_peer "a") None (lit "docs/x")
    (sample_token [sample_grant "docs/*" "docs/priv/*"] None) (sample_peer "a") (sample_peer "a")) as (_ & _ & H).
  rewrite H; [by vm_compute|]. right. by vm_compute.
Defined.

Lemma has_duplicate_false l : has_duplicate l = false ↔ NoDup l.
Proof.
  induction l as [|x l IH]; cbn [has_duplicate]; [by split; [constructor|]|].
  rewrite orb_false_iff, NoDup_cons, IH. f_equiv. rewrite <-not_true_iff_false, existsb_elem.
  setoid_rewrite bool_decide_eq_true. naive_solver.
Qed.

Lemma multi_validate_Ok m :
  multi_validate m = Ok tt ↔ 2 ≤ threshold m ≤ Z.of_nat (length (signers m)) ∧ NoDup (signers m).
Proof.
  unfold multi_validate. rewrite <-has_duplicate_false.
  destruct (Nat.ltb_spec (length (signers m)) 2); [split; [done|lia]|].
  destruct (Z.ltb_spec (threshold m) 2); [split; [done|lia]|].
  destruct (Z.ltb_spec (Z.of_nat (length (signers m))) (threshold m)); [split; [done|lia]|].
  destruct (has_duplicate (signers m)); [split; naive_solver|]. split; [|done]. intros _. split; [lia|done].
Qed.

(** [validate_structure] accepts exactly the well-formed tokens: the grantee is set, and a
    multi-signature granter has no parent, distinct signers, and a quorum of at least two and at
    most all of them.  [check_delegation_caveats] accepts a child exactly when its parent carries no
    caveat or the parent allows delegation, the depth is below its bound, and the child expires
    within the parent's time-to-live of its creation. *)
Theorem structure_and_caveats_spec t par child depth :
  (validate_structure t = Ok tt ↔
   is_zero (grantee t) = false
   ∧ ∀ m, granter t = Multi m →
       parent t = None ∧ NoDup (signers m) ∧ 2 ≤ threshold m ≤ Z.of_nat (length (signers m)))
  ∧ ((∀ c ttl, delegation_caveats par = Some c → max_delegation_ttl c = Some ttl → 0 ≤ ttl) →
     check_delegation_caveats par child depth = true ↔
     ∀ c, delegation_caveats par = Some c →
       no_delegation c ≠ Some true
       ∧ (∀ d, max_delegation_depth c = Some d → depth < d)
       ∧ (∀ ttl, max_delegation_ttl c = Some ttl →
            ∃ exp, expires_at child = Some exp ∧ exp ≤ created_at child + ttl)).
Proof.
  split.
  - unfold validate_structure. destruct (granter t) as [h|m].
    + unfold mbind, result_bind. destruct (is_zero (grantee t)); naive_solver.
    + case_bool_decide as Hp; unfold mbind, result_bind.
      { split; [done|]. intros [_ H]. destruct (H m eq_refl) as [E _]. rewrite E in Hp. by destruct Hp. }
      pose proof (multi_validate_Ok m) as Hm. apply eq_None_not_Some in Hp.
      destruct (multi_validate m) as [[]|e], (is_zero (grantee t)); naive_solver.
  - intros Httl. unfold check_delegation_caveats. destruct (delegation_caveats par) as [c|]; [|naive_solver].
    specialize (Httl c).
    transitivity (no_delegation c ≠ Some true
       ∧ (∀ d, max_delegation_depth c = Some d → depth < d)
       ∧ (∀ ttl, max_delegation_ttl c = Some ttl →
            ∃ exp, expires_at child = Some exp ∧ exp ≤ created_at child + ttl)); [|naive_solver].
    case_bool_decide as Hno; [naive_solver|].
    destruct (max_delegation_depth c) as [d|].
    1: destruct (Z.leb_spec d depth) as [Hd|Hd];
      [split; [done|]; intros (_ & H & _); specialize (H d eq_refl); lia|].
    all: destruct (max_delegation_ttl c) as [ttl|]; [|naive_solver].
    all: specialize (Httl ttl eq_refl eq_refl).
    all: destruct (expires_at child) as [exp|]; [|naive_solver].
    all: unfold saturating_sub; rewrite negb_true_iff, Z.ltb_ge; destruct (Z.ltb_spec exp (created_at child));
      (split; [intros; split_and!; [done|naive_solver|intros ? [= <-]; exists exp; split; [done|lia]]|]);
      intros (_ & _ & H'); destruct (H' ttl eq_refl) as (? & [= <-] & ?); lia.
Qed.

Definition sample_caveats : DelegationCaveats := mkCaveats None (Some 3) (Some 60).

(** For a child that expires 50 after its creation at 10 under a bound of 60. *)
Lemma structure_and_caveats_spec_witness :
  let par := mkToken [] (Single (mkHash 0 [])) (mkHash 0 []) None 0 None None (Some sample_caveats) in
  check_delegation_caveats par (sample_token [] (Some 60)) 2 = true.
Proof.
  intros par. destruct (structure_and_caveats_spec (sample_token [] None) par (sample_token [] (Some 60)) 2)
    as [_ H]. apply H.
  - intros c ttl [= <-] [= <-]. lia.
  - intros c [= <-]. split_and!; [done| |].
    + intros d [= <-]. lia.
    + intros ttl [= <-]. exists 60. split; [done|]. cbn. lia.
Defined.
