(* ===== verification/CapabilityCodec.v ===== *)
(** The wire form of capability tokens ([core/capability/src/lib.rs], encoders and
    decoders) and the re-attenuation mint ([core/capability/src/mint.rs]). *)
From S2P Require Import Prelude BTree Ecf Cbor ContentHash Entity Identity Capability.

Definition TYPE_CAP_TOKEN : list Z := lit "system/capability/token".

(** * Encoding *)

Definition string_array (l : list (list Z)) : Value := VArray (map text l).

(** [scope_to_value_path] and [scope_to_value_id] *)
Definition scope_to_value (include exclude : list (list Z)) : Value :=
  VMap ((match exclude with [] => [] | _ => [(text (lit "exclude"), string_array exclude)] end)
        ++ [(text (lit "include"), string_array include)]).
Definition scope_to_value_path (s : PathScope) : Value := scope_to_value (ps_include s) (ps_exclude s).
Definition scope_to_value_id (s : IdScope) : Value := scope_to_value (is_include s) (is_exclude s).

(** [n as i64]: an integer of 2^63 and above turns negative; a tag turns into null. *)
Fixpoint ciborium_to_ecf (val : Value) : Value :=
  match val with
  | VNull => VNull
  | VBool b => VBool b
  | VInteger i => integer (as_i64 i)
  | VText s => VText s
  | VBytes b => VBytes b
  | VArray arr => VArray (map ciborium_to_ecf arr)
  | VMap m => VMap (map (λ kv, (ciborium_to_ecf kv.1, ciborium_to_ecf kv.2)) m)
  | VFloat f => VFloat f
  | VTag _ _ => VNull
  end.

Definition string_map_to_ecf (m : ValueMap) : Value :=
  VMap (map (λ kv, (text kv.1, ciborium_to_ecf kv.2)) m).

(** [if let Some(x) = o { entries.push((text(key), f(x))) }] *)
Definition entry_if {A} (key : string) (f : A → Value) (o : option A) : list (Value * Value) :=
  match o with Some x => [(text (lit key), f x)] | None => [] end.

Definition encode_grant_entry (g : GrantEntry) : Value :=
  VMap (entry_if "allowances" string_map_to_ecf (g_allowances g)
        ++ entry_if "constraints" string_map_to_ecf (g_constraints g)
        ++ [(text (lit "handlers"), scope_to_value_path (g_handlers g));
            (text (lit "operations"), scope_to_value_id (g_operations g))]
        ++ entry_if "peers" scope_to_value_id (g_peers g)
        ++ [(text (lit "resources"), scope_to_value_path (g_resources g))]).

Definition hash_value (h : Hash) : Value := VBytes (to_bytes h).

Definition encode_granter (g : Granter) : Value :=
  match g with
  | Single h => hash_value h
  | Multi m => VMap [(text (lit "signers"), VArray (map hash_value (signers m)));
                     (text (lit "threshold"), integer (as_i64 (threshold m)))]
  end.

Definition caveats_to_value (c : DelegationCaveats) : Value :=
  VMap (entry_if "max_delegation_depth" (λ d, integer (as_i64 d)) (max_delegation_depth c)
        ++ entry_if "max_delegation_ttl" (λ d, integer (as_i64 d)) (max_delegation_ttl c)
        ++ entry_if "no_delegation" bool_val (no_delegation c)).

Definition token_value (t : CapabilityToken) : Value :=
  VMap ([(text (lit "created_at"), uinteger (created_at t))]
        ++ entry_if "delegation_caveats" caveats_to_value (delegation_caveats t)
        ++ entry_if "expires_at" uinteger (expires_at t)
        ++ [(text (lit "grantee"), hash_value (grantee t));
            (text (lit "granter"), encode_granter (granter t));
            (text (lit "grants"), VArray (map encode_grant_entry (grants t)))]
        ++ entry_if "not_before" uinteger (not_before t)
        ++ entry_if "parent" hash_value (parent t)).

Definition token_to_ecf (t : CapabilityToken) : list Z := to_ecf (token_value t).

Definition token_to_entity_with_format `{Sha2} (t : CapabilityToken) (format_code : Z)
    : result CapabilityError Entity :=
  map_err (λ _, CapEntity) (new_with_format TYPE_CAP_TOKEN (token_to_ecf t) format_code).

Definition token_to_entity `{Sha2} (home : Z) (t : CapabilityToken) : result CapabilityError Entity :=
  token_to_entity_with_format t home.

(** * Decoding *)

(** [match k.as_text() { Some(key) => .. }] *)
Definition key_is (key : string) (k : Value) : bool := is_text_key (lit key) k.

Definition decode_hash (b : list Z) : result CapabilityError Hash := map_err (λ _, CapInvalid) (from_bytes b).

Definition texts_of (v : Value) : list (list Z) :=
  match as_array v with Some arr => omap as_str arr | None => [] end.

(** [include] and [exclude] of the loop; repeated keys accumulate. *)
Definition scope_step (acc : list (list Z) * list (list Z)) (kv : Value * Value)
    : list (list Z) * list (list Z) :=
  if key_is "include" kv.1 then (acc.1 ++ texts_of kv.2, acc.2)
  else if key_is "exclude" kv.1 then (acc.1, acc.2 ++ texts_of kv.2)
  else acc.

Definition decode_scope_lists (value : Value) : result CapabilityError (list (list Z) * list (list Z)) :=
  m ← ok_or CapInvalid (as_map value);
  Ok (foldl scope_step ([], []) m).

Definition decode_path_scope (value : Value) : result CapabilityError PathScope :=
  '(include, exclude) ← decode_scope_lists value; Ok (mkPathScope include exclude).
Definition decode_id_scope (value : Value) : result CapabilityError IdScope :=
  '(include, exclude) ← decode_scope_lists value; Ok (mkIdScope include exclude).

Definition string_keyed_step (acc : ValueMap) (kv : Value * Value) : ValueMap :=
  match as_str kv.1 with Some key => bt_insert key kv.2 acc | None => acc end.

Definition decode_string_keyed_map (value : Value) : ValueMap :=
  match as_map value with Some entries => foldl string_keyed_step [] entries | None => [] end.

(** The local variables of [decode_grant_entry]. *)
Record GrantScan := mkGrantScan {
  gs_handlers : option PathScope; gs_resources : option PathScope; gs_operations : option IdScope;
  gs_peers : option IdScope; gs_constraints : option ValueMap; gs_allowances : option ValueMap;
}.

Definition grant_step (st : GrantScan) (kv : Value * Value) : result CapabilityError GrantScan :=
  let '(mkGrantScan h r o p c a) := st in
  let '(k, v) := kv in
  if key_is "handlers" k then x ← decode_path_scope v; Ok (mkGrantScan (Some x) r o p c a)
  else if key_is "resources" k then x ← decode_path_scope v; Ok (mkGrantScan h (Some x) o p c a)
  else if key_is "operations" k then x ← decode_id_scope v; Ok (mkGrantScan h r (Some x) p c a)
  else if key_is "peers" k then x ← decode_id_scope v; Ok (mkGrantScan h r o (Some x) c a)
  else if key_is "constraints" k then Ok (mkGrantScan h r o p (Some (decode_string_keyed_map v)) a)
  else if key_is "allowances" k then Ok (mkGrantScan h r o p c (Some (decode_string_keyed_map v)))
  else Ok st.

Definition decode_grant_entry (value : Value) : result CapabilityError GrantEntry :=
  m ← ok_or CapInvalid (as_map value);
  st ← foldM grant_step (mkGrantScan None None None None None None) m;
  h ← ok_or CapInvalid (gs_handlers st);
  r ← ok_or CapInvalid (gs_resources st);
  o ← ok_or CapInvalid (gs_operations st);
  Ok (mkGrant h r o (gs_peers st) (gs_constraints st) (gs_allowances st)).

(** [v.as_integer().and_then(|i| u64::try_from(i).ok())] *)
Definition as_u64_opt (v : Value) : option Z := i ← as_integer v; try_u64 i.

Definition decode_signer (item : Value) : result CapabilityError Hash :=
  b ← ok_or CapInvalid (as_bytes item); decode_hash b.

Definition multi_step (st : option (list Hash) * option Z) (kv : Value * Value)
    : result CapabilityError (option (list Hash) * option Z) :=
  if key_is "signers" kv.1 then
    arr ← ok_or CapInvalid (as_array kv.2);
    out ← mapR decode_signer arr;
    Ok (Some out, st.2)
  else if key_is "threshold" kv.1 then Ok (st.1, as_u64_opt kv.2)
  else Ok st.

Definition decode_granter (value : Value) : result CapabilityError Granter :=
  match value with
  | VTag _ _ => Err CapInvalid
  | VBytes b => h ← decode_hash b; Ok (Single h)
  | VMap m =>
      '(ss, th) ← foldM multi_step (None, None) m;
      ss ← ok_or CapInvalid ss;
      th ← ok_or CapInvalid th;
      Ok (Multi (mkMulti ss th))
  | _ => Err CapInvalid
  end.

Definition caveat_step (c : DelegationCaveats) (kv : Value * Value) : DelegationCaveats :=
  if key_is "no_delegation" kv.1 then mkCaveats (as_bool_val kv.2) (max_delegation_depth c) (max_delegation_ttl c)
  else if key_is "max_delegation_depth" kv.1 then
    mkCaveats (no_delegation c) (as_u64_opt kv.2) (max_delegation_ttl c)
  else if key_is "max_delegation_ttl" kv.1 then
    mkCaveats (no_delegation c) (max_delegation_depth c) (as_u64_opt kv.2)
  else c.

Definition decode_delegation_caveats (value : Value) : result CapabilityError DelegationCaveats :=
  m ← ok_or CapInvalid (as_map value);
  Ok (foldl caveat_step (mkCaveats None None None) m).

(** A value outside [u64] is an error, [null] is absence. *)
Definition decode_temporal_field (v : Value) : result CapabilityError (option Z) :=
  if is_null v then Ok None
  else
    i ← ok_or CapInvalid (as_integer v);
    x ← ok_or CapInvalid (try_u64 i);
    Ok (Some x).

(** The local variables of [from_entity]. *)
Record TokenScan := mkTokenScan {
  ts_grants : option (list GrantEntry); ts_granter : option Granter; ts_grantee : option Hash;
  ts_parent : option Hash; ts_created : option Z; ts_expires : option Z; ts_not_before : option Z;
  ts_caveats : option DelegationCaveats;
}.

(** A non-bytes [grantee] or [parent] is skipped. *)
Definition decode_hash_field (old : option Hash) (v : Value) : result CapabilityError (option Hash) :=
  match as_bytes v with Some b => h ← decode_hash b; Ok (Some h) | None => Ok old end.

Definition token_step (st : TokenScan) (kv : Value * Value) : result CapabilityError TokenScan :=
  let '(mkTokenScan gs gr ge pa cr ex nb ca) := st in
  let '(k, v) := kv in
  if key_is "grants" k then
    arr ← ok_or CapInvalid (as_array v);
    entries ← mapR decode_grant_entry arr;
    Ok (mkTokenScan (Some entries) gr ge pa cr ex nb ca)
  else if key_is "granter" k then
    x ← decode_granter v; Ok (mkTokenScan gs (Some x) ge pa cr ex nb ca)
  else if key_is "grantee" k then
    x ← decode_hash_field ge v; Ok (mkTokenScan gs gr x pa cr ex nb ca)
  else if key_is "parent" k then
    x ← decode_hash_field pa v; Ok (mkTokenScan gs gr ge x cr ex nb ca)
  else if key_is "created_at" k then
    x ← decode_temporal_field v; Ok (mkTokenScan gs gr ge pa x ex nb ca)
  else if key_is "expires_at" k then
    x ← decode_temporal_field v; Ok (mkTokenScan gs gr ge pa cr x nb ca)
  else if key_is "not_before" k then
    x ← decode_temporal_field v; Ok (mkTokenScan gs gr ge pa cr ex x ca)
  else if key_is "delegation_caveats" k then
    x ← decode_delegation_caveats v; Ok (mkTokenScan gs gr ge pa cr ex nb (Some x))
  else Ok st.

Definition decode_token_map (m : list (Value * Value)) : result CapabilityError CapabilityToken :=
  st ← foldM token_step (mkTokenScan None None None None None None None None) m;
  gs ← ok_or CapInvalid (ts_grants st);
  gr ← ok_or CapInvalid (ts_granter st);
  ge ← ok_or CapInvalid (ts_grantee st);
  cr ← ok_or CapInvalid (ts_created st);
  Ok (mkToken gs gr ge (ts_parent st) cr (ts_expires st) (ts_not_before st) (ts_caveats st)).

Definition token_from_entity `{Ciborium} (e : Entity) : result CapabilityError CapabilityToken :=
  if negb (bool_decide (entity_type e = TYPE_CAP_TOKEN)) then Err CapInvalid
  else
    value ← ok_or CapInvalid (from_reader (data e));
    map ← ok_or CapInvalid (as_map value);
    decode_token_map map.

(** * Minting *)

Inductive MintError := MissingParent | MissingGrantee | EmptyGrants | Build.

(** [sign] is the key pair's signing function. *)
Definition mint_reattenuated `{Sha2} (home : Z) (sign : list Z → list Z) (signer_identity : Entity)
    (grantee : Hash) (par : Entity) (gs : list GrantEntry) (created_at : Z) (expires_at : option Z)
    : result MintError (Entity * Entity) :=
  if is_zero (content_hash par) then Err MissingParent
  else if is_zero grantee then Err MissingGrantee
  else if bool_decide (gs = []) then Err EmptyGrants
  else
    let token := mkToken gs (Single (content_hash signer_identity)) grantee
                   (Some (content_hash par)) created_at expires_at None None in
    cap_entity ← map_err (λ _, Build) (token_to_entity home token);
    let sig_bytes := sign (to_bytes (content_hash cap_entity)) in
    let sig_data := to_ecf (VMap [(text (lit "algorithm"), text (lit "ed25519"));
                                  (text (lit "signature"), VBytes sig_bytes);
                                  (text (lit "signer"), hash_value (content_hash signer_identity));
                                  (text (lit "target"), hash_value (content_hash cap_entity))]) in
    sig_entity ← map_err (λ _, Build) (entity_new home TYPE_SIGNATURE sig_data);
    Ok (cap_entity, sig_entity).

(** * Well-formed tokens *)

Definition str_ok (s : list Z) : bool := utf8_valid s && len_ok s.
Definition strs_ok (l : list (list Z)) : bool := len_ok l && forallb str_ok l.

(** No tag, and integers of [i64]: what [ciborium_to_ecf] keeps. *)
Fixpoint plain (v : Value) : bool :=
  match v with
  | VTag _ _ => false
  | VInteger i => (- 2 ^ 63 <=? i) && (i <? 2 ^ 63)
  | VArray l => forallb plain l
  | VMap m => forallb (λ kv, plain kv.1 && plain kv.2) m
  | _ => true
  end.

Definition vmap_ok (m : ValueMap) : Prop :=
  bt_ok m ∧ len_ok m = true
  ∧ Forall (λ kv, str_ok kv.1 && value_ok kv.2 && plain kv.2 && (depth kv.2 <=? 200)%nat = true) m.
Definition opt_all {A} (P : A → Prop) (o : option A) : Prop := match o with Some x => P x | None => True end.

Definition u64_range (z : Z) : Prop := 0 ≤ z ≤ u64_max.
Definition i63_range (z : Z) : Prop := 0 ≤ z ≤ i64_max.

Definition grant_ok (g : GrantEntry) : Prop :=
  strs_ok (ps_include (g_handlers g)) = true ∧ strs_ok (ps_exclude (g_handlers g)) = true
  ∧ strs_ok (ps_include (g_resources g)) = true ∧ strs_ok (ps_exclude (g_resources g)) = true
  ∧ strs_ok (is_include (g_operations g)) = true ∧ strs_ok (is_exclude (g_operations g)) = true
  ∧ opt_all (λ p, strs_ok (is_include p) = true ∧ strs_ok (is_exclude p) = true) (g_peers g)
  ∧ opt_all vmap_ok (g_constraints g) ∧ opt_all vmap_ok (g_allowances g).

Definition granter_ok (g : Granter) : Prop :=
  match g with
  | Single h => hash_ok h
  | Multi m => Forall hash_ok (signers m) ∧ len_ok (signers m) = true ∧ i63_range (threshold m)
  end.

Definition token_ok (t : CapabilityToken) : Prop :=
  len_ok (grants t) = true ∧ Forall grant_ok (grants t) ∧ granter_ok (granter t) ∧ hash_ok (grantee t)
  ∧ opt_all hash_ok (parent t) ∧ u64_range (created_at t) ∧ opt_all u64_range (expires_at t)
  ∧ opt_all u64_range (not_before t)
  ∧ opt_all (λ c, opt_all i63_range (max_delegation_depth c) ∧ opt_all i63_range (max_delegation_ttl c))
      (delegation_caveats t).

(** Constraint values come back in ECF normal form. *)
Definition norm_vmap (m : ValueMap) : ValueMap := map (λ kv, (kv.1, ecf_norm kv.2)) m.
Definition norm_grant (g : GrantEntry) : GrantEntry :=
  mkGrant (g_handlers g) (g_resources g) (g_operations g) (g_peers g)
    (norm_vmap <$> g_constraints g) (norm_vmap <$> g_allowances g).
Definition norm_token (t : CapabilityToken) : CapabilityToken :=
  mkToken (map norm_grant (grants t)) (granter t) (grantee t) (parent t) (created_at t)
    (expires_at t) (not_before t) (delegation_caveats t).

(** * Lemmas *)

Lemma as_i64_id z : - 2 ^ 63 ≤ z < 2 ^ 63 → as_i64 z = z.
Proof. intros H. unfold as_i64. destruct (Z.ltb_spec (z mod 2 ^ 64) (2 ^ 63)); dlia. Qed.

Lemma ciborium_to_ecf_plain v : plain v = true → ciborium_to_ecf v = v.
Proof.
  induction v as [i|b|f|s|b| |t v IH|l IH|m IH]; cbn [plain ciborium_to_ecf]; try done.
  - intros [H1%Z.leb_le H2%Z.ltb_lt]%andb_true_iff. unfold integer. by rewrite as_i64_id.
  - rewrite forallb_elem. intros H. f_equal. rewrite <-(map_id l) at 2. apply map_ext_Forall.
    rewrite Forall_forall in *. eauto.
  - rewrite forallb_elem. intros H. f_equal. rewrite <-(map_id m) at 2. apply map_ext_Forall.
    rewrite Forall_forall in *. intros kv Hkv. specialize (H kv Hkv). apply andb_true_iff in H as [H1 H2].
    destruct (IH kv Hkv) as [-> ->]; try done. by destruct kv.
Qed.

Lemma string_array_norm l : ecf_norm (string_array l) = string_array l.
Proof. unfold string_array. cbn [ecf_norm]. f_equal. rewrite map_map. done. Qed.

Lemma texts_of_array l : texts_of (string_array l) = l.
Proof. unfold texts_of, string_array. cbn [as_array]. induction l as [|s l IH]; cbn; [done|]. by rewrite IH. Qed.

Lemma decode_scope inc exc : decode_scope_lists (ecf_norm (scope_to_value inc exc)) = Ok (inc, exc).
Proof.
  assert (E : ecf_norm (scope_to_value inc exc) = VMap
    ((match exc with [] => [] | _ => [(text (lit "exclude"), ecf_norm (string_array exc))] end)
     ++ [(text (lit "include"), ecf_norm (string_array inc))])) by (by destruct exc).
  rewrite E, !string_array_norm. unfold decode_scope_lists. cbn [as_map ok_or mbind result_bind].
  assert (Hi : ∀ acc v, scope_step acc (text (lit "include"), v) = (acc.1 ++ texts_of v, acc.2)) by done.
  assert (He : ∀ acc v, scope_step acc (text (lit "exclude"), v) = (acc.1, acc.2 ++ texts_of v)) by done.
  destruct exc as [|x exc]; cbn [app foldl]; rewrite ?He, Hi; cbn [fst snd app]; by rewrite !texts_of_array.
Qed.

Lemma decode_path_scope_value s : decode_path_scope (ecf_norm (scope_to_value_path s)) = Ok s.
Proof. unfold decode_path_scope, scope_to_value_path. rewrite decode_scope. by destruct s. Qed.

Lemma decode_id_scope_value s : decode_id_scope (ecf_norm (scope_to_value_id s)) = Ok s.
Proof. unfold decode_id_scope, scope_to_value_id. rewrite decode_scope. by destruct s. Qed.

Lemma vmap_fold l : ∀ acc : ValueMap,
  foldl string_keyed_step acc (map (λ kv : list Z * Value, (text kv.1, kv.2)) l)
  = foldl (λ acc p, bt_insert p.1 p.2 acc) acc l.
Proof. induction l as [|[k v] l IH]; intros acc; cbn [foldl map fst snd]; [done|]. by rewrite IH. Qed.

Lemma bt_ok_map {V W} (f : V → W) (m : list (list Z * V)) : bt_ok m → bt_ok (map (λ kv, (kv.1, f kv.2)) m).
Proof.
  induction m as [|[k v] m IH]; intros Hm; [constructor|]. apply bt_ok_cons in Hm as [Hall Hm].
  cbn [map fst snd]. apply bt_ok_cons. split; [|by apply IH]. by apply Forall_map.
Qed.

Lemma decode_string_map m : vmap_ok m → decode_string_keyed_map (ecf_norm (string_map_to_ecf m)) = norm_vmap m.
Proof.
  intros (Hm & _ & Hall). unfold string_map_to_ecf. rewrite ecf_norm_map_sorted.
  unfold decode_string_keyed_map. cbn [as_map].
  set (es := map (λ kv : list Z * Value, (text kv.1, ciborium_to_ecf kv.2)) m).
  pose proof (sorted_entries_perm es) as Hp. set (srt := map snd _) in *.
  assert (Hk : map (λ kv : Value * Value, (ecf_norm kv.1, ecf_norm kv.2)) srt
             ≡ₚ map (λ kv : list Z * Value, (text kv.1, kv.2)) (norm_vmap m)).
  { transitivity (map (λ kv : Value * Value, (ecf_norm kv.1, ecf_norm kv.2)) es).
    { change (fmap (λ kv : Value * Value, (ecf_norm kv.1, ecf_norm kv.2)) srt
              ≡ₚ fmap (λ kv : Value * Value, (ecf_norm kv.1, ecf_norm kv.2)) es). by rewrite Hp. }
    unfold es, norm_vmap. rewrite !map_map. cbn [fst snd]. apply Permutation_refl'.
    apply map_ext_Forall. eapply Forall_impl; [exact Hall|]. intros [k v] H. cbn [fst snd] in *.
    rewrite !andb_true_iff in H. destruct H as [[_ H] _]. by rewrite ciborium_to_ecf_plain. }
  apply Permutation_map_inv in Hk as (l & -> & Hl).
  rewrite vmap_fold. apply bt_fold_insert_perm; [by apply bt_ok_map | by symmetry].
Qed.

Lemma grant_entry_norm a c h o p r :
  ecf_norm (VMap (entry_if "allowances" id a ++ entry_if "constraints" id c
    ++ [(text (lit "handlers"), h); (text (lit "operations"), o)]
    ++ entry_if "peers" id p ++ [(text (lit "resources"), r)]))
  = VMap (entry_if "peers" ecf_norm p ++ [(text (lit "handlers"), ecf_norm h); (text (lit "resources"), ecf_norm r)]
    ++ entry_if "allowances" ecf_norm a ++ [(text (lit "operations"), ecf_norm o)]
    ++ entry_if "constraints" ecf_norm c).
Proof. by destruct a, c, p. Qed.

Lemma entry_if_map {A} key (f : A → Value) o : entry_if key f o = entry_if key id (f <$> o).
Proof. by destruct o. Qed.

Section grant_steps.
Context (h r : option PathScope) (o p : option IdScope) (c a : option ValueMap) (v : Value).

Lemma grant_step_handlers x : decode_path_scope v = Ok x →
  grant_step (mkGrantScan h r o p c a) (text (lit "handlers"), v) = Ok (mkGrantScan (Some x) r o p c a).
Proof. intros E. change (decode_path_scope v ≫= (λ x, Ok (mkGrantScan (Some x) r o p c a)) = Ok (mkGrantScan (Some x) r o p c a)). by rewrite E. Qed.

Lemma grant_step_resources x : decode_path_scope v = Ok x →
  grant_step (mkGrantScan h r o p c a) (text (lit "resources"), v) = Ok (mkGrantScan h (Some x) o p c a).
Proof. intros E. change (decode_path_scope v ≫= (λ x, Ok (mkGrantScan h (Some x) o p c a)) = Ok (mkGrantScan h (Some x) o p c a)). by rewrite E. Qed.

Lemma grant_step_operations x : decode_id_scope v = Ok x →
  grant_step (mkGrantScan h r o p c a) (text (lit "operations"), v) = Ok (mkGrantScan h r (Some x) p c a).
Proof. intros E. change (decode_id_scope v ≫= (λ x, Ok (mkGrantScan h r (Some x) p c a)) = Ok (mkGrantScan h r (Some x) p c a)). by rewrite E. Qed.

Lemma grant_step_peers x : decode_id_scope v = Ok x →
  grant_step (mkGrantScan h r o p c a) (text (lit "peers"), v) = Ok (mkGrantScan h r o (Some x) c a).
Proof. intros E. change (decode_id_scope v ≫= (λ x, Ok (mkGrantScan h r o (Some x) c a)) = Ok (mkGrantScan h r o (Some x) c a)). by rewrite E. Qed.

Lemma grant_step_constraints :
  grant_step (mkGrantScan h r o p c a) (text (lit "constraints"), v)
  = Ok (mkGrantScan h r o p (Some (decode_string_keyed_map v)) a).
Proof. reflexivity. Qed.

Lemma grant_step_allowances :
  grant_step (mkGrantScan h r o p c a) (text (lit "allowances"), v)
  = Ok (mkGrantScan h r o p c (Some (decode_string_keyed_map v))).
Proof. reflexivity. Qed.
End grant_steps.

(** One decoding step of a fold whose value decodes. *)
Ltac fold_step L := cbn [foldM]; erewrite L by eauto; cbn [mbind result_bind].

Lemma decode_grant_value g : grant_ok g → decode_grant_entry (ecf_norm (encode_grant_entry g)) = Ok (norm_grant g).
Proof.
  intros (_ & _ & _ & _ & _ & _ & _ & Hc & Ha). unfold encode_grant_entry.
  rewrite (entry_if_map "allowances"), (entry_if_map "constraints"), (entry_if_map "peers"), grant_entry_norm.
  unfold decode_grant_entry. cbn [as_map ok_or mbind result_bind].
  pose proof decode_path_scope_value as Hps. pose proof decode_id_scope_value as His.
  destruct g as [h r o p c a]. cbn [g_handlers g_resources g_operations g_peers g_constraints g_allowances] in *.
  assert (E : foldM grant_step (mkGrantScan None None None None None None)
    (entry_if "peers" ecf_norm (scope_to_value_id <$> p)
     ++ [(text (lit "handlers"), ecf_norm (scope_to_value_path h)); (text (lit "resources"), ecf_norm (scope_to_value_path r))]
     ++ entry_if "allowances" ecf_norm (string_map_to_ecf <$> a)
     ++ [(text (lit "operations"), ecf_norm (scope_to_value_id o))]
     ++ entry_if "constraints" ecf_norm (string_map_to_ecf <$> c))
    = Ok (mkGrantScan (Some h) (Some r) (Some o) p (norm_vmap <$> c) (norm_vmap <$> a))).
  { destruct p as [p|], a as [a|], c as [c|]; cbn [entry_if app fmap option_fmap option_map];
      try (fold_step grant_step_peers); fold_step grant_step_handlers; fold_step grant_step_resources;
      try (fold_step grant_step_allowances; rewrite decode_string_map by done);
      fold_step grant_step_operations;
      try (fold_step grant_step_constraints; rewrite decode_string_map by done); reflexivity. }
  rewrite E. reflexivity.
Qed.

Lemma decode_hash_bytes h : hash_ok h → decode_hash (to_bytes h) = Ok h.
Proof. intros Hh. unfold decode_hash. by rewrite from_bytes_to_bytes. Qed.

Lemma mapR_map {E A B} (f : A → result E B) (g : B → A) l :
  Forall (λ x, f (g x) = Ok x) l → mapR f (map g l) = Ok l.
Proof. intros H. apply mapR_Ok. induction H; cbn; by constructor. Qed.

Lemma decode_granter_value g : granter_ok g → decode_granter (ecf_norm (encode_granter g)) = Ok g.
Proof.
  destruct g as [h|[ss th]]; cbn [granter_ok signers threshold].
  - intros Hh. unfold encode_granter, hash_value. cbn [ecf_norm decode_granter]. by rewrite decode_hash_bytes.
  - intros (Hs & _ & Ht). unfold i63_range, i64_max in Ht.
    assert (E : ∀ v w, ecf_norm (VMap [(text (lit "signers"), v); (text (lit "threshold"), w)])
      = VMap [(text (lit "signers"), ecf_norm v); (text (lit "threshold"), ecf_norm w)]) by done.
    unfold encode_granter. cbn [signers threshold]. rewrite E. cbn [decode_granter].
    rewrite as_i64_id by lia. unfold integer. cbn [ecf_norm].
    assert (E1 : ∀ st v out, mapR decode_signer v = Ok out →
      multi_step st (text (lit "signers"), VArray v) = Ok (Some out, st.2)).
    { intros st v out Hv. change (mapR decode_signer v ≫= (λ out, Ok (Some out, st.2)) = Ok (Some out, st.2)).
      by rewrite Hv. }
    assert (E2 : ∀ st v, multi_step st (text (lit "threshold"), v) = Ok (st.1, as_u64_opt v)) by done.
    assert (Hm : mapR decode_signer (map ecf_norm (map hash_value ss)) = Ok ss).
    { rewrite map_map. apply mapR_map. eapply Forall_impl; [exact Hs|]. intros h Hh.
      unfold hash_value, decode_signer. cbn [ecf_norm as_bytes ok_or mbind result_bind].
      by apply decode_hash_bytes. }
    cbn [foldM]. rewrite (E1 _ _ _ Hm). cbn [mbind result_bind]. rewrite E2.
    unfold as_u64_opt. cbn [as_integer mbind option_bind fst snd result_bind].
    rewrite (proj2 (try_u64_Some th th)) by (unfold u64_max; lia). reflexivity.
Qed.

Lemma caveats_norm d t n :
  ecf_norm (VMap (entry_if "max_delegation_depth" id d ++ entry_if "max_delegation_ttl" id t
                  ++ entry_if "no_delegation" id n))
  = VMap (entry_if "no_delegation" ecf_norm n ++ entry_if "max_delegation_ttl" ecf_norm t
          ++ entry_if "max_delegation_depth" ecf_norm d).
Proof. by destruct d, t, n. Qed.

Lemma as_u64_opt_integer d : i63_range d → as_u64_opt (ecf_norm (integer (as_i64 d))) = Some d.
Proof.
  unfold i63_range, i64_max. intros Hd. rewrite as_i64_id by lia.
  unfold as_u64_opt, integer. cbn [ecf_norm as_integer mbind option_bind].
  apply try_u64_Some. unfold u64_max. lia.
Qed.

Lemma decode_caveats_value c :
  opt_all i63_range (max_delegation_depth c) → opt_all i63_range (max_delegation_ttl c) →
  decode_delegation_caveats (ecf_norm (caveats_to_value c)) = Ok c.
Proof.
  intros Hd Ht. unfold caveats_to_value.
  rewrite (entry_if_map "max_delegation_depth"), (entry_if_map "max_delegation_ttl"),
    (entry_if_map "no_delegation"), caveats_norm.
  unfold decode_delegation_caveats. cbn [as_map ok_or mbind result_bind]. f_equal.
  assert (E1 : ∀ c v, caveat_step c (text (lit "no_delegation"), v)
    = mkCaveats (as_bool_val v) (max_delegation_depth c) (max_delegation_ttl c)) by done.
  assert (E2 : ∀ c v, caveat_step c (text (lit "max_delegation_depth"), v)
    = mkCaveats (no_delegation c) (as_u64_opt v) (max_delegation_ttl c)) by done.
  assert (E3 : ∀ c v, caveat_step c (text (lit "max_delegation_ttl"), v)
    = mkCaveats (no_delegation c) (max_delegation_depth c) (as_u64_opt v)) by done.
  destruct c as [n d t]. cbn [no_delegation max_delegation_depth max_delegation_ttl] in *.
  destruct n, d, t; cbn [entry_if app fmap option_fmap option_map foldl opt_all] in *;
    rewrite ?E1, ?E3, ?E2, ?as_u64_opt_integer by done; reflexivity.
Qed.

Lemma decode_temporal_uint z : u64_range z → decode_temporal_field (ecf_norm (uinteger z)) = Ok (Some z).
Proof.
  intros Hz. unfold decode_temporal_field, uinteger. cbn [ecf_norm is_null as_integer ok_or mbind result_bind].
  by rewrite (proj2 (try_u64_Some z z)).
Qed.

Lemma token_norm cr dc ex ge gr gs nb pa :
  ecf_norm (VMap ([(text (lit "created_at"), cr)] ++ entry_if "delegation_caveats" id dc
    ++ entry_if "expires_at" id ex
    ++ [(text (lit "grantee"), ge); (text (lit "granter"), gr); (text (lit "grants"), gs)]
    ++ entry_if "not_before" id nb ++ entry_if "parent" id pa))
  = VMap ([(text (lit "grants"), ecf_norm gs)] ++ entry_if "parent" ecf_norm pa
    ++ [(text (lit "grantee"), ecf_norm ge); (text (lit "granter"), ecf_norm gr); (text (lit "created_at"), ecf_norm cr)]
    ++ entry_if "expires_at" ecf_norm ex ++ entry_if "not_before" ecf_norm nb
    ++ entry_if "delegation_caveats" ecf_norm dc).
Proof. by destruct dc, ex, nb, pa. Qed.

Section token_steps.
Context (gs : option (list GrantEntry)) (gr : option Granter) (ge pa : option Hash)
  (cr ex nb : option Z) (ca : option DelegationCaveats) (v : Value).

Lemma token_step_grants arr :
  token_step (mkTokenScan gs gr ge pa cr ex nb ca) (text (lit "grants"), VArray arr)
  = (entries ← mapR decode_grant_entry arr; Ok (mkTokenScan (Some entries) gr ge pa cr ex nb ca)).
Proof. reflexivity. Qed.

Lemma token_step_granter :
  token_step (mkTokenScan gs gr ge pa cr ex nb ca) (text (lit "granter"), v)
  = (x ← decode_granter v; Ok (mkTokenScan gs (Some x) ge pa cr ex nb ca)).
Proof. reflexivity. Qed.

Lemma token_step_grantee :
  token_step (mkTokenScan gs gr ge pa cr ex nb ca) (text (lit "grantee"), v)
  = (x ← decode_hash_field ge v; Ok (mkTokenScan gs gr x pa cr ex nb ca)).
Proof. reflexivity. Qed.

Lemma token_step_parent :
  token_step (mkTokenScan gs gr ge pa cr ex nb ca) (text (lit "parent"), v)
  = (x ← decode_hash_field pa v; Ok (mkTokenScan gs gr ge x cr ex nb ca)).
Proof. reflexivity. Qed.

Lemma token_step_created :
  token_step (mkTokenScan gs gr ge pa cr ex nb ca) (text (lit "created_at"), v)
  = (x ← decode_temporal_field v; Ok (mkTokenScan gs gr ge pa x ex nb ca)).
Proof. reflexivity. Qed.

Lemma token_step_expires :
  token_step (mkTokenScan gs gr ge pa cr ex nb ca) (text (lit "expires_at"), v)
  = (x ← decode_temporal_field v; Ok (mkTokenScan gs gr ge pa cr x nb ca)).
Proof. reflexivity. Qed.

Lemma token_step_not_before :
  token_step (mkTokenScan gs gr ge pa cr ex nb ca) (text (lit "not_before"), v)
  = (x ← decode_temporal_field v; Ok (mkTokenScan gs gr ge pa cr ex x ca)).
Proof. reflexivity. Qed.

Lemma token_step_caveats :
  token_step (mkTokenScan gs gr ge pa cr ex nb ca) (text (lit "delegation_caveats"), v)
  = (x ← decode_delegation_caveats v; Ok (mkTokenScan gs gr ge pa cr ex nb (Some x))).
Proof. reflexivity. Qed.
End token_steps.

Lemma decode_hash_field_value old h : hash_ok h → decode_hash_field old (ecf_norm (hash_value h)) = Ok (Some h).
Proof.
  intros Hh. unfold decode_hash_field, hash_value. cbn [ecf_norm as_bytes].
  by rewrite decode_hash_bytes.
Qed.

Lemma decode_grants_value gs : Forall grant_ok gs →
  mapR decode_grant_entry (map ecf_norm (map encode_grant_entry gs)) = Ok (map norm_grant gs).
Proof.
  intros H. rewrite map_map. apply mapR_Ok. induction H as [|g gs Hg _ IH]; cbn [map]; constructor; [|done].
  by apply decode_grant_value.
Qed.

Ltac token_field L E := cbn [foldM]; rewrite L, E by done; cbn [mbind result_bind].

Lemma decode_token_value t m :
  token_ok t → ecf_norm (token_value t) = VMap m → decode_token_map m = Ok (norm_token t).
Proof.
  intros (_ & Hgs & Hgr & Hge & Hpa & Hcr & Hex & Hnb & Hca).
  assert (Hc : ∀ c, delegation_caveats t = Some c →
    decode_delegation_caveats (ecf_norm (caveats_to_value c)) = Ok c).
  { intros c E. rewrite E in Hca. destruct Hca as [H1 H2]. by apply decode_caveats_value. }
  unfold token_value. rewrite (entry_if_map "delegation_caveats"), (entry_if_map "expires_at"),
    (entry_if_map "not_before"), (entry_if_map "parent"), token_norm. intros Hm.
  unfold decode_token_map, norm_token.
  destruct t as [gs gr ge pa cr ex nb ca].
  cbn [grants granter grantee parent created_at expires_at not_before delegation_caveats] in *.
  change (ecf_norm (VArray (map encode_grant_entry gs))) with (VArray (map ecf_norm (map encode_grant_entry gs))) in Hm.
  assert (E : ∀ l, l =
    [(text (lit "grants"), VArray (map ecf_norm (map encode_grant_entry gs)))]
     ++ entry_if "parent" ecf_norm (hash_value <$> pa)
     ++ [(text (lit "grantee"), ecf_norm (hash_value ge)); (text (lit "granter"), ecf_norm (encode_granter gr));
         (text (lit "created_at"), ecf_norm (uinteger cr))]
     ++ entry_if "expires_at" ecf_norm (uinteger <$> ex) ++ entry_if "not_before" ecf_norm (uinteger <$> nb)
     ++ entry_if "delegation_caveats" ecf_norm (caveats_to_value <$> ca) →
    foldM token_step (mkTokenScan None None None None None None None None) l
    = Ok (mkTokenScan (Some (map norm_grant gs)) (Some gr) (Some ge) pa (Some cr) ex nb ca)).
  { intros l ->. pose proof (decode_grants_value gs Hgs) as Hgs'.
    destruct pa as [pa|], ex as [ex|], nb as [nb|], ca as [ca|];
      cbn [entry_if app fmap option_fmap option_map opt_all] in *;
      token_field token_step_grants Hgs';
      try (token_field token_step_parent decode_hash_field_value);
      token_field token_step_grantee decode_hash_field_value;
      token_field token_step_granter decode_granter_value;
      token_field token_step_created decode_temporal_uint;
      try (token_field token_step_expires decode_temporal_uint);
      try (token_field token_step_not_before decode_temporal_uint);
      try (token_field token_step_caveats Hc); reflexivity. }
  rewrite (E m) by (injection Hm as <-; reflexivity). reflexivity.
Qed.

(** ** The encoded value is well-formed and shallow *)

Lemma good_text d s : str_ok s = true → good (S d) (text s).
Proof. intros H. split; [exact H | cbn; lia]. Qed.

Lemma good_strings l : strs_ok l = true → good 2 (string_array l).
Proof.
  intros [Hl H]%andb_true_iff. apply good_array; [by unfold len_ok; rewrite length_map|].
  apply Forall_map, Forall_forall. intros s Hs. rewrite forallb_elem in H. by apply good_text, H.
Qed.

(** A literal key with a good value. *)
Lemma good_field d key v : str_ok (lit key) = true → good (S d) v → good_pair (S d) (text (lit key), v).
Proof. intros Hk Hv. split; [by apply good_text | done]. Qed.

Lemma good_entry_if {A} d key (f : A → Value) o :
  str_ok (lit key) = true → (∀ x, o = Some x → good (S d) (f x)) →
  Forall (good_pair (S d)) (entry_if key f o).
Proof. intros Hk Hf. destruct o as [x|]; constructor; [|constructor]. apply good_field; auto. Qed.

Lemma length_entry_if {A} key (f : A → Value) o : (length (entry_if key f o) ≤ 1)%nat.
Proof. destruct o; cbn; lia. Qed.

(** Splits [good] of a record-like map into its fields. *)
Ltac good_fields :=
  apply good_map;
    [apply len_ok_small; rewrite ?length_app; cbn [length];
     repeat match goal with |- context [entry_if ?k ?f ?o] =>
       generalize (length_entry_if k f o); generalize (length (entry_if k f o)); intros ? ? end; lia|];
  rewrite ?Forall_app; split_and?; repeat (apply Forall_cons; split); try apply Forall_nil_2;
  try (apply good_entry_if; [reflexivity|]); try (apply good_field; [reflexivity|]).

Lemma good_scope inc exc : strs_ok inc = true → strs_ok exc = true → good 3 (scope_to_value inc exc).
Proof.
  intros Hi He. unfold scope_to_value. destruct exc as [|x exc]; good_fields; by apply good_strings.
Qed.

Lemma good_vmap m : vmap_ok m → good 201 (string_map_to_ecf m).
Proof.
  intros (_ & Hl & H). apply good_map; [by unfold len_ok; rewrite length_map|].
  apply Forall_map. eapply Forall_impl; [exact H|]. intros [k v] Hkv. cbn [fst snd] in *.
  rewrite !andb_true_iff in Hkv. destruct Hkv as [[[Hk Hv] Hp] Hd%Nat.leb_le].
  split; cbn [fst snd]; [by apply good_text|]. rewrite ciborium_to_ecf_plain by done. by split.
Qed.

Lemma good_hash d h : hash_ok h → good (S d) (hash_value h).
Proof.
  intros Hh. pose proof Hh as [_ Hb]. split; [|cbn; lia]. unfold hash_value. cbn [value_ok].
  rewrite to_bytes_shape by done. apply andb_true_iff. split.
  - apply bool_decide_eq_true. constructor; [|done]. unfold byte_ok.
    destruct (hash_ok_cases h Hh) as [[-> _]|[-> _]]; lia.
  - apply len_ok_small. cbn [length]. destruct (hash_ok_cases h Hh) as [[_ ->]|[_ ->]]; lia.
Qed.

Lemma good_int d z : - 2 ^ 64 ≤ z < 2 ^ 64 → good (S d) (VInteger z).
Proof.
  intros [H1 H2]. split; [|cbn; lia]. cbn [value_ok]. apply andb_true_iff.
  by rewrite Z.leb_le, Z.ltb_lt.
Qed.

Lemma good_u64 d z : u64_range z → good (S d) (uinteger z).
Proof. unfold u64_range, u64_max. intros H. apply good_int. lia. Qed.

Lemma good_i63 d z : i63_range z → good (S d) (integer (as_i64 z)).
Proof. unfold i63_range, i64_max. intros H. rewrite as_i64_id by lia. apply good_int. lia. Qed.

Lemma good_grant g : grant_ok g → good 202 (encode_grant_entry g).
Proof.
  intros (H1 & H2 & H3 & H4 & H5 & H6 & H7 & H8 & H9).
  assert (S3 : ∀ v, good 3 v → good 201 v) by (intros v; apply good_mono; lia).
  unfold encode_grant_entry. good_fields.
  - intros x E. rewrite E in H9. by apply good_vmap.
  - intros x E. rewrite E in H8. by apply good_vmap.
  - by apply S3, good_scope.
  - by apply S3, good_scope.
  - intros x E. rewrite E in H7. destruct H7. by apply S3, good_scope.
  - by apply S3, good_scope.
Qed.

Lemma good_granter g : granter_ok g → good 3 (encode_granter g).
Proof.
  destruct g as [h|m]; cbn [granter_ok encode_granter]; [apply good_hash|].
  intros (Hs & Hl & Ht). good_fields; [|by apply good_i63].
  apply good_array; [by unfold len_ok; rewrite length_map|]. apply Forall_map.
  eapply Forall_impl; [exact Hs|]. intros h. apply good_hash.
Qed.

Lemma good_caveats c :
  opt_all i63_range (max_delegation_depth c) → opt_all i63_range (max_delegation_ttl c) →
  good 2 (caveats_to_value c).
Proof.
  intros Hd Ht. unfold caveats_to_value. good_fields.
  - intros x E. rewrite E in Hd. by apply good_i63.
  - intros x E. rewrite E in Ht. by apply good_i63.
  - intros x _. split; [done | cbn; lia].
Qed.

Lemma good_token t : token_ok t → good 204 (token_value t).
Proof.
  intros (Hl & Hgs & Hgr & Hge & Hpa & Hcr & Hex & Hnb & Hca). unfold token_value. good_fields.
  - by apply good_u64.
  - intros c E. rewrite E in Hca. destruct Hca. apply (good_mono 2); [lia|]. by apply good_caveats.
  - intros x E. rewrite E in Hex. by apply good_u64.
  - by apply good_hash.
  - apply (good_mono 3); [lia|]. by apply good_granter.
  - apply good_array; [by unfold len_ok; rewrite length_map|]. apply Forall_map.
    eapply Forall_impl; [exact Hgs|]. apply good_grant.
  - intros x E. rewrite E in Hnb. by apply good_u64.
  - intros x E. rewrite E in Hpa. by apply good_hash.
Qed.

Definition supported (fmt : Z) : Prop := digest_len_for_format fmt ≠ None.

Lemma new_supported `{Sha2Ok} ty d fmt :
  ty ≠ [] → d ≠ [] → ty ≠ TYPE_PEER → supported fmt →
  ∃ e, new_with_format ty d fmt = Ok e ∧ entity_type e = ty ∧ data e = d
    ∧ hash_ok (content_hash e) ∧ entity_validate e = Ok tt.
Proof.
  intros Ht Hd Hp Hs. assert (Hc : is_ok (compute_format ty d fmt) = true).
  { apply compute_format_supported. unfold supported in Hs. by destruct (digest_len_for_format fmt). }
  destruct (compute_format ty d fmt) as [h|] eqn:Eh; [|done]. exists (mkEntity ty d h).
  destruct (compute_format_ok _ _ _ _ Eh) as [Hok Ha]. split_and!; [|done|done|done|].
  - apply new_with_format_Ok. split_and!; [|done..]. unfold constructible.
    rewrite (bool_decide_eq_false_2 _ Ht), (bool_decide_eq_false_2 _ Hd), (bool_decide_eq_false_2 _ Hp).
    cbn. unfold supported in Hs. by destruct (digest_len_for_format fmt).
  - apply entity_validate_Ok. cbn [entity_type data content_hash]. by rewrite Ha.
Qed.

Lemma token_entity_decodes `{CiboriumDecodes} t e :
  token_ok t → entity_type e = TYPE_CAP_TOKEN → data e = token_to_ecf t →
  token_from_entity e = Ok (norm_token t).
Proof.
  intros Ht Hty Hd. unfold token_from_entity. rewrite Hty, bool_decide_eq_true_2, Hd by done. cbn [negb].
  destruct (good_token t Ht) as [Hv Hdep]. unfold token_to_ecf.
  rewrite <-(app_nil_r (to_ecf _)), from_reader_ecf by (done || unfold ciborium_recursion_limit; lia).
  cbn [ok_or mbind result_bind].
  assert (∃ m, ecf_norm (token_value t) = VMap m) as [m Hm] by (by eexists).
  rewrite Hm. cbn [as_map ok_or mbind result_bind]. by apply decode_token_value.
Qed.

Lemma token_entity_round_trip `{Sha2Ok} `{CiboriumDecodes} fmt t :
  supported fmt → token_ok t →
  ∃ e, token_to_entity_with_format t fmt = Ok e ∧ token_from_entity e = Ok (norm_token t)
    ∧ hash_ok (content_hash e) ∧ entity_validate e = Ok tt.
Proof.
  intros Hs Ht.
  destruct (new_supported TYPE_CAP_TOKEN (token_to_ecf t) fmt) as (e & He & Hty & Hd & Hh & Hv);
    [done | apply encode_value_ne | done | done |].
  exists e. unfold token_to_entity_with_format. rewrite He. split_and!; [done| |done|done].
  by apply token_entity_decodes.
Qed.

(** * Properties *)

(** A well-formed token survives its entity: under every supported hash format the entity is
    built and validates, and decoding it gives the token back with its constraint and
    allowance values in ECF normal form (so exactly, when it has none).  The bound on the
    quorum and on the caveats is that of [i64]: at 2^63 the encoder writes a
    negative integer, which the decoder refuses as a quorum and drops as a caveat. *)
Theorem token_round_trip `{Sha2Ok} `{CiboriumDecodes} fmt t :
  supported fmt → token_ok t →
  (∃ e, token_to_entity_with_format t fmt = Ok e ∧ token_from_entity e = Ok (norm_token t)
    ∧ entity_validate e = Ok tt)
  ∧ (Forall (λ g, g_constraints g = None ∧ g_allowances g = None) (grants t) → norm_token t = t)
  ∧ decode_granter (ecf_norm (encode_granter (Multi (mkMulti [] (2 ^ 63))))) = Err CapInvalid
  ∧ decode_delegation_caveats (ecf_norm (caveats_to_value (mkCaveats None (Some (2 ^ 63)) None)))
    = Ok (mkCaveats None None None).
Proof.
  intros Hs Ht. split_and!; [| |by vm_compute..].
  - destruct (token_entity_round_trip fmt t Hs Ht) as (e & ? & ? & _ & ?). eauto.
  - intros Hg. destruct t as [gs gr ge pa cr ex nb ca]. unfold norm_token. cbn in *. f_equal.
    rewrite <-(map_id gs) at 2. apply map_ext_Forall. eapply Forall_impl; [exact Hg|].
    intros [h r o p c a] [E1 E2]. cbn in *. by subst.
Qed.

Definition codec_token : CapabilityToken :=
  mkToken [mkGrant (path_scope_new [lit "system/tree"]) (mkPathScope [lit "docs/*"] [lit "docs/priv/*"])
             (id_scope_new [lit "get"]) (Some (id_scope_new [lit "*"])) None None]
    (Multi (mkMulti [mkHash 0 (replicate 32 1); mkHash 0 (replicate 32 2)] 2)) (mkHash 1 (replicate 48 3))
    None 10 (Some 20) None (Some (mkCaveats (Some true) (Some 3) None)).

Lemma codec_token_ok : token_ok codec_token.
Proof.
  unfold token_ok, codec_token, u64_range.
  cbn [grants granter grantee parent created_at expires_at not_before delegation_caveats opt_all
       granter_ok signers threshold max_delegation_depth max_delegation_ttl].
  unfold u64_range, i63_range, u64_max, i64_max.
  split_and!; try lia; try done;
    try (apply (bool_decide_unpack _); vm_compute; reflexivity).
  constructor; [|constructor]. by split_and!.
Qed.

Lemma token_round_trip_witness :
  ∃ e, @token_to_entity_with_format checksum_sha2 codec_token 1 = Ok e
    ∧ @token_from_entity ref_ciborium e = Ok codec_token.
Proof.
  destruct (@token_round_trip checksum_sha2 checksum_sha2_ok ref_ciborium ref_ciborium_decodes 1 codec_token)
    as ((e & H1 & H2 & _) & H3 & _); [done | apply codec_token_ok |].
  exists e. rewrite H3 in H2; [done|]. by repeat constructor.
Defined.

Lemma signature_entity_decodes `{Sha2Ok} `{CiboriumDecodes} home s :
  supported home → utf8_valid (sig_algorithm s) = true → len_ok (sig_algorithm s) = true →
  bytes_ok (sig_bytes s) → len_ok (sig_bytes s) = true → hash_ok (sig_signer s) → hash_ok (sig_target s) →
  ∃ e, signature_to_entity home s = Ok e ∧ signature_from_entity e = Ok s ∧ entity_validate e = Ok tt.
Proof.
  intros Hs S1 S2 S3 S4 S5 S6.
  destruct (new_supported TYPE_SIGNATURE (to_ecf (signature_value s)) home) as (e & He & Hty & Hd & _ & Hv);
    [done | apply encode_value_ne | done | done |].
  exists e. unfold signature_to_entity, entity_new. rewrite He. split_and!; [done| |done].
  unfold signature_from_entity. rewrite Hty, bool_decide_eq_true_2, Hd by done. cbn [negb].
  destruct (signature_value_ok s S1 S2 S3 S4 S5 S6) as [Hvo Hn].
  rewrite <-(app_nil_r (to_ecf _)), from_reader_ecf by (done || cbn; unfold ciborium_recursion_limit; lia).
  rewrite Hn. cbn [ok_or mbind result_bind as_map]. rewrite signature_fold by done. by destruct s.
Qed.

(** [mint_reattenuated] refuses a zero parent, a zero grantee and an empty grant list, in this
    order; otherwise, for well-formed inputs, it returns a token entity that decodes to a
    child of the parent granted by the signer to the grantee, without caveats, and a
    signature entity that decodes to the signer's signature over that token's hash. *)
Theorem mint_reattenuated_spec `{Sha2Ok} `{CiboriumDecodes} home sign signer ge par gs cr ex :
  let token := mkToken gs (Single (content_hash signer)) ge (Some (content_hash par)) cr ex None None in
  (is_zero (content_hash par) = true →
   mint_reattenuated home sign signer ge par gs cr ex = Err MissingParent)
  ∧ (is_zero (content_hash par) = false → is_zero ge = true →
     mint_reattenuated home sign signer ge par gs cr ex = Err MissingGrantee)
  ∧ (is_zero (content_hash par) = false → is_zero ge = false → gs = [] →
     mint_reattenuated home sign signer ge par gs cr ex = Err EmptyGrants)
  ∧ (is_zero (content_hash par) = false → is_zero ge = false → gs ≠ [] →
     supported home → token_ok token → (∀ m, bytes_ok (sign m) ∧ len_ok (sign m) = true) →
     ∃ c s, mint_reattenuated home sign signer ge par gs cr ex = Ok (c, s)
       ∧ token_from_entity c = Ok (norm_token token)
       ∧ signature_from_entity s
         = Ok (mkSignature (content_hash c) (content_hash signer) (lit "ed25519")
                 (sign (to_bytes (content_hash c))))
       ∧ entity_validate c = Ok tt ∧ entity_validate s = Ok tt).
Proof.
  intros token. unfold mint_reattenuated. split_and!.
  - by intros ->.
  - by intros -> ->.
  - intros -> -> ->. by rewrite bool_decide_eq_true_2.
  - intros -> -> Hg Hs Ht Hsign. rewrite (bool_decide_eq_false_2 (gs = [])) by done.
    destruct (token_entity_round_trip home token Hs Ht) as (c & Hc & Hdec & Hh & Hv).
    fold token. change (token_to_entity home token) with (token_to_entity_with_format token home).
    rewrite Hc. cbn [map_err mbind result_bind].
    set (sd := mkSignature (content_hash c) (content_hash signer) (lit "ed25519") (sign (to_bytes (content_hash c)))).
    destruct (signature_entity_decodes home sd) as (s & Hse & Hsd & Hsv);
      [done | done | done | apply Hsign | apply Hsign | by destruct Ht as (_ & _ & ? & _) | done |].
    exists c, s. unfold signature_to_entity in Hse.
    change (VMap _) with (signature_value sd). destruct (entity_new _ _ _) as [s'|]; [|done].
    injection Hse as ->. done.
Qed.

Lemma mint_reattenuated_spec_witness :
  let S := checksum_sha2 in let C := ref_ciborium in
  let signer := mkEntity TYPE_PEER [1] (mkHash 0 (replicate 32 7)) in
  let par := mkEntity TYPE_CAP_TOKEN [1] (mkHash 0 (replicate 32 8)) in
  ∃ c s, mint_reattenuated 0 (λ _, [1; 2; 3]) signer (mkHash 0 (replicate 32 9)) par (grants codec_token) 10 (Some 20)
         = Ok (c, s)
    ∧ parent <$> ok (token_from_entity c) = Some (Some (content_hash par)).
Proof.
  intros S C signer par.
  destruct (@mint_reattenuated_spec checksum_sha2 checksum_sha2_ok ref_ciborium ref_ciborium_decodes
    0 (λ _, [1; 2; 3]) signer (mkHash 0 (replicate 32 9)) par (grants codec_token) 10 (Some 20))
    as (_ & _ & _ & H). destruct H as (c & s & Hm & Ht & _); [done..| | |].
  - pose proof codec_token_ok as (H1 & H2 & _ & _). unfold token_ok, u64_range.
    cbn [grants granter grantee parent created_at expires_at not_before delegation_caveats opt_all granter_ok].
    unfold u64_max. split_and!; try lia; try done; apply (bool_decide_unpack _); vm_compute; reflexivity.
  - intros m. split; [|done]. apply (bool_decide_unpack _). vm_compute. reflexivity.
  - exists c, s. split; [exact Hm|]. unfold C. by rewrite Ht.
Defined.
