(* ===== verification/Verify.v ===== *)
(** Request verification and capability chains ([core/protocol/src/verify.rs]).

    The clock is read twice on the way (once for the leaf, once for the chain): the two
    readings are arguments.  Signature schemes, CBOR reading, SHA-2 and Base58 are the
    parameters of the files below. *)
From S2P Require Import Prelude BTree Ecf Cbor ContentHash Paths Entity Identity Capability CapabilityCodec.

Definition MAX_CHAIN_DEPTH : Z := 64.

(** [ProtocolError], without the text of its messages. *)
Inductive ProtocolError :=
  | PHashMismatch
  | MissingSignature
  | PInvalidSignature
  | SignerMismatch
  | GranteeMismatch
  | ChainTooDeep
  | NotLocalPeer
  | MissingCapability
  | MissingCapabilityEntity
  | CapabilityExpired
  | CapabilityNotYetValid
  | PMissingField
  | MissingEntity
  | AttenuationViolation
  | PInvalid
  | CapabilityInvalid
  | UnresolvableGrantee
  | CapabilityRevoked
  | UnsupportedContentHashFormat (code : Z)
  | CapabilityFormatCodeMismatch (expected actual : Z)
  | AuthenticationFailed
  | PermissionDenied
  | IncompatibleHashFormat
  | IncompatibleProtocol
  | PInvalidRequest
  | PUnsupportedKeyType (byte : Z)
  | InvalidNonce
  | IdentityMismatch
  | ConnectionError.

Inductive ChainWalkError := Unreachable | TooDeep.

(** [for x in l { f(x)?; }] *)
Definition for_each {E A} (f : A → result E unit) (l : list A) : result E unit :=
  foldM (λ _ x, f x) tt l.

Lemma for_each_Ok {E A} (f : A → result E unit) l :
  for_each f l = Ok tt ↔ ∀ x, x ∈ l → f x = Ok tt.
Proof. unfold for_each. by rewrite foldM_unit, Forall_forall. Qed.

(** [if !c { return Err(e) }] *)
Definition guard_ok {E} (c : bool) (e : E) : result E unit := if c then Ok tt else Err e.

Lemma guard_ok_Ok {E} c (e : E) : guard_ok c e = Ok tt ↔ c = true.
Proof. by destruct c. Qed.

(** [inv_ok], with the passed guards turned into their conditions. *)
Ltac inv_steps :=
  inv_ok;
  repeat match goal with u : unit |- _ => destruct u end;
  repeat match goal with
  | H : guard_ok _ _ = Ok tt |- _ => apply guard_ok_Ok in H
  | H : bool_decide _ = true |- _ => apply bool_decide_eq_true in H
  end.

Section verify.
Context `{Ciborium} `{Sha2} `{Base58} `{SignatureSchemes} `{CiboriumWrites}.

Definition peer_data_sig_ok (id : PeerData) (message signature : list Z) : bool :=
  match key_type_from_label (key_type id) with
  | Ok kt => is_ok (verify_for_key_type kt (public_key id) message signature)
  | Err _ => false
  end.

Definition verify_peer_data_sig (id : PeerData) (message signature : list Z)
    : result ProtocolError unit :=
  kt ← map_err (λ _, PInvalid) (key_type_from_label (key_type id));
  map_err (λ _, PInvalidSignature) (verify_for_key_type kt (public_key id) message signature).

(** * Decoding *)

Record ExecuteFields := mkExecute {
  request_id : list Z; ef_uri : list Z; operation : list Z;
  author : option Hash; capability : option Hash;
}.

Record ExecScan := mkExecScan {
  es_request_id : option (list Z); es_uri : option (list Z); es_operation : option (list Z);
  es_author : option Hash; es_capability : option Hash;
}.

(** [if let Some(b) = v.as_bytes() { x = Hash::from_bytes(b).ok(); }] *)
Definition soft_hash (old : option Hash) (v : Value) : option Hash :=
  match as_bytes v with Some b => ok (from_bytes b) | None => old end.

Definition execute_step (st : ExecScan) (kv : Value * Value) : ExecScan :=
  let '(mkExecScan r u o a c) := st in
  let '(k, v) := kv in
  if key_is "request_id" k then mkExecScan (as_str v) u o a c
  else if key_is "uri" k then mkExecScan r (as_str v) o a c
  else if key_is "operation" k then mkExecScan r u (as_str v) a c
  else if key_is "author" k then mkExecScan r u o (soft_hash a v) c
  else if key_is "capability" k then mkExecScan r u o a (soft_hash c v)
  else st.

Definition decode_execute_fields (d : list Z) : result ProtocolError ExecuteFields :=
  value ← ok_or PInvalid (from_reader d);
  m ← ok_or PInvalid (as_map value);
  let st := foldl execute_step (mkExecScan None None None None None) m in
  r ← ok_or PMissingField (es_request_id st);
  u ← ok_or PMissingField (es_uri st);
  o ← ok_or PMissingField (es_operation st);
  Ok (mkExecute r u o (es_author st) (es_capability st)).

Record CapabilityChainFields := mkChain {
  cf_granter : Granter; cf_grantee : Hash; cf_parent : option Hash;
  cf_not_before : option Z; cf_expires_at : option Z;
}.

Record ChainScan := mkChainScan {
  cs_granter : option Granter; cs_grantee : option Hash; cs_parent : option Hash;
  cs_not_before : option Z; cs_expires_at : option Z;
}.

Definition chain_step (st : ChainScan) (kv : Value * Value) : result ProtocolError ChainScan :=
  let '(mkChainScan gr ge pa nb ex) := st in
  let '(k, v) := kv in
  if key_is "granter" k then
    g ← map_err (λ _, PInvalid) (decode_granter v); Ok (mkChainScan (Some g) ge pa nb ex)
  else if key_is "grantee" k then Ok (mkChainScan gr (soft_hash ge v) pa nb ex)
  else if key_is "parent" k then Ok (mkChainScan gr ge (soft_hash pa v) nb ex)
  else if key_is "not_before" k then Ok (mkChainScan gr ge pa (as_u64_opt v) ex)
  else if key_is "expires_at" k then Ok (mkChainScan gr ge pa nb (as_u64_opt v))
  else Ok st.

Definition decode_capability_chain_fields (d : list Z) : result ProtocolError CapabilityChainFields :=
  value ← ok_or PInvalid (from_reader d);
  m ← ok_or PInvalid (as_map value);
  st ← foldM chain_step (mkChainScan None None None None None) m;
  gr ← ok_or PMissingField (cs_granter st);
  ge ← ok_or PMissingField (cs_grantee st);
  Ok (mkChain gr ge (cs_parent st) (cs_not_before st) (cs_expires_at st)).

(** * The chain walk *)

Definition Link : Type := Entity * CapabilityChainFields.

(** [budget] is [MAX_CHAIN_DEPTH + 1 - depth]: it is spent exactly when [depth] exceeds
    the bound. *)
Fixpoint chain_loop (budget : nat) (resolve : Hash → option Entity) (current_hash : Hash)
    : result ChainWalkError (list Link) :=
  match budget with
  | O => Err TooDeep
  | S budget' =>
      match resolve current_hash with
      | None => Err Unreachable
      | Some entity =>
          match decode_capability_chain_fields (data entity) with
          | Err _ => Err Unreachable
          | Ok fields =>
              match cf_parent fields with
              | None => Ok [(entity, fields)]
              | Some p => chain ← chain_loop budget' resolve p; Ok ((entity, fields) :: chain)
              end
          end
      end
  end.

Definition collect_authority_chain (leaf_hash : Hash) (resolve : Hash → option Entity)
    : result ChainWalkError (list Link) :=
  chain_loop (Z.to_nat (MAX_CHAIN_DEPTH + 1)) resolve leaf_hash.

Definition explicitly_enumerates (resource_pattern target : list Z) : bool :=
  if contains_byte ch_star resource_pattern then false
  else if bool_decide (resource_pattern = target) then true
  else
    let prefix := if bool_decide (last resource_pattern = Some ch_slash) then resource_pattern
                  else resource_pattern ++ [ch_slash] in
    starts_with target prefix.

Definition enumerated_by (target_pattern : list Z) (token : CapabilityToken) : bool :=
  existsb (λ g, existsb (λ pat, explicitly_enumerates pat target_pattern) (ps_include (g_resources g)))
    (grants token).

Definition is_operator_class_for (leaf_hash : Hash) (target_pattern : list Z)
    (root_identity_hash : Hash) (resolve : Hash → option Entity) : bool :=
  match collect_authority_chain leaf_hash resolve with
  | Err _ => false
  | Ok chain =>
      match last chain with
      | None => false
      | Some (_, root_fields) =>
          if bool_decide (is_Some (cf_parent root_fields)) then false
          else
            match cf_granter root_fields with
            | Multi _ => false
            | Single root_granter_hash =>
                if negb (bool_decide (root_granter_hash = root_identity_hash)) then false
                else forallb (λ link, match token_from_entity link.1 with
                                      | Err _ => false
                                      | Ok token => enumerated_by target_pattern token
                                      end) chain
            end
      end
  end.

(** * Bundles *)

Definition granter_signers (g : Granter) : list Hash :=
  match g with Single h => [h] | Multi m => signers m end.

(** [resolve] as a [system/peer] entity. *)
Definition resolve_peer (resolve : Hash → option Entity) (h : Hash) : result ChainWalkError Entity :=
  match resolve h with
  | Some e => if bool_decide (entity_type e = TYPE_PEER) then Ok e else Err Unreachable
  | None => Err Unreachable
  end.

Definition bundle_signature (resolve : Hash → option Entity) (locate : list Z → option Hash)
    (sig_path : list Z) (bundle : gmap Hash Entity) : gmap Hash Entity :=
  match locate sig_path with
  | Some sig_hash =>
      match resolve sig_hash with
      | Some sig_entity =>
          if bool_decide (entity_type sig_entity = TYPE_SIGNATURE)
          then <[content_hash sig_entity := sig_entity]> bundle else bundle
      | None => bundle
      end
  | None => bundle
  end.

Definition bundle_signer (resolve : Hash → option Entity) (locate : list Z → option Hash)
    (cap_hash : Hash) (bundle : gmap Hash Entity) (signer : Hash)
    : result ChainWalkError (gmap Hash Entity) :=
  id_entity ← resolve_peer resolve signer;
  peer_id ← ok_or Unreachable (d ← ok (peer_from_entity id_entity); canonical_peer_id d);
  let bundle := <[content_hash id_entity := id_entity]> bundle in
  Ok (bundle_signature resolve locate (invariant_signature_path peer_id cap_hash) bundle).

Definition bundle_link (resolve : Hash → option Entity) (locate : list Z → option Hash)
    (bundle : gmap Hash Entity) (link : Link) : result ChainWalkError (gmap Hash Entity) :=
  let '(cap_entity, fields) := link in
  let cap_hash := content_hash cap_entity in
  let bundle := <[cap_hash := cap_entity]> bundle in
  bundle ← foldM (bundle_signer resolve locate cap_hash) bundle (granter_signers (cf_granter fields));
  e ← resolve_peer resolve (cf_grantee fields);
  Ok (<[content_hash e := e]> bundle).

Definition collect_chain_bundle (leaf_hash : Hash) (resolve : Hash → option Entity)
    (locate : list Z → option Hash) : result ChainWalkError (gmap Hash Entity) :=
  chain ← collect_authority_chain leaf_hash resolve;
  foldM (bundle_link resolve locate) ∅ chain.

(** * Revocation *)

Definition is_revoked (leaf_hash : Hash) (local_peer_id : list Z) (resolve : Hash → option Entity)
    (locate : list Z → option Hash) (capability_path_for : Hash → option (list Z)) : bool :=
  match collect_authority_chain leaf_hash resolve with
  | Err _ => true
  | Ok chain =>
      match last chain with
      | None => true (* the [expect]: the chain is never empty *)
      | Some (root, _) =>
          let root_hash := content_hash root in
          let marker_path := [ch_slash] ++ local_peer_id ++ lit "/system/capability/revocations/"
                             ++ to_hex root_hash in
          let marker := bool_decide (is_Some (locate marker_path)) in
          match capability_path_for root_hash with
          | Some root_path =>
              match locate root_path with
              | None => true
              | Some bound => if bool_decide (bound = root_hash) then marker else true
              end
          | None => marker
          end
      end
  end.

Definition capability_path_for_scan (cap_hash : Hash) (local_peer_id : list Z)
    (list_by_prefix : list Z → list (list Z * Hash)) : option (list Z) :=
  let prefix := [ch_slash] ++ local_peer_id ++ lit "/system/capability/grants/" in
  fst <$> find_first (λ ph, bool_decide (ph.2 = cap_hash)) (list_by_prefix prefix).

(** * Creator authority *)

(** The test of one link: [true] is the [found = true; break] of the loop. *)
Definition creator_link (identity : Hash) (included : list (Hash * Entity))
    (resolve : Hash → option Entity) (link : Link) : bool :=
  let '(entity, fields) := link in
  match cf_granter fields with
  | Single granter_id => bool_decide (granter_id = identity)
  | Multi multi =>
      if negb (existsb (λ s, bool_decide (s = identity)) (signers multi)) then false
      else
        match find_signature_by_signer (map snd included) (content_hash entity) identity with
        | None => false
        | Some sig =>
            match signature_from_entity sig with
            | Err _ => false
            | Ok sig_data =>
                match resolve identity with
                | None => false
                | Some writer =>
                    match peer_from_entity writer with
                    | Err _ => false
                    | Ok id => peer_data_sig_ok id (to_bytes (content_hash entity)) (sig_bytes sig_data)
                    end
                end
            end
        end
  end.

Definition check_creator_authority (cap_hash identity : Hash) (included : list (Hash * Entity))
    (resolve : Hash → option Entity) : result ChainWalkError (bool * list Entity) :=
  chain ← collect_authority_chain cap_hash resolve;
  Ok (existsb (creator_link identity included resolve) chain, map fst chain).

(** * The capability chain *)

Definition verify_included_key_binding (included : list (Hash * Entity)) : result ProtocolError unit :=
  for_each (λ kv, guard_ok (bool_decide (kv.1 = content_hash kv.2)) PHashMismatch) included.

Definition format_freeze (chain : list Link) : result ProtocolError unit :=
  match chain with
  | [] => Ok tt
  | (first, _) :: rest =>
      let baseline := algorithm (content_hash first) in
      for_each (λ link, let alg := algorithm (content_hash link.1) in
                        guard_ok (alg =? baseline) (CapabilityFormatCodeMismatch baseline alg)) rest
  end.

Definition grantee_resolves (included : list (Hash * Entity)) (link : Link) : result ProtocolError unit :=
  e ← ok_or UnresolvableGrantee (bt_get (cf_grantee link.2) included);
  guard_ok (bool_decide (entity_type e = TYPE_PEER)) UnresolvableGrantee.

Definition temporal_ok (now_ms : Z) (expires_at not_before : option Z) : result ProtocolError unit :=
  _ ← match expires_at with
      | Some exp => guard_ok (now_ms <? exp) CapabilityExpired
      | None => Ok tt
      end;
  match not_before with
  | Some nb => guard_ok (nb <=? now_ms) CapabilityNotYetValid
  | None => Ok tt
  end.

(** A link that does not decode is skipped. *)
Definition matchable_scopes (link : Link) : result ProtocolError unit :=
  match token_from_entity link.1 with
  | Err _ => Ok tt
  | Ok token =>
      match unmatchable_scope_pattern (grants token) with
      | Some _ => Err CapabilityInvalid
      | None => Ok tt
      end
  end.

(** The loop over [chain.iter().enumerate()]; [chain] is what is left from position [i]. *)
Fixpoint multi_sig_shape (chain : list Link) : result ProtocolError unit :=
  match chain with
  | [] => Ok tt
  | (_, fields) :: rest =>
      _ ← match cf_granter fields with
          | Single _ => Ok tt
          | Multi multi =>
              if bool_decide (is_Some (cf_parent fields)) then Err CapabilityInvalid
              else if negb (bool_decide (rest = [])) then Err CapabilityInvalid
              else map_err (λ _, CapabilityInvalid) (multi_validate multi)
          end;
      multi_sig_shape rest
  end.

Definition or_local (p : option (list Z)) (local_peer_id : list Z) : list Z := default local_peer_id p.

Definition parent_granter_frame (included : list (Hash * Entity)) (local_peer_id : list Z) (g : Granter)
    : result ProtocolError (list Z) :=
  match g with
  | Single parent_granter_id =>
      pe ← ok_or MissingEntity (bt_get parent_granter_id included);
      pd ← map_err (λ _, PInvalid) (peer_from_entity pe);
      Ok (or_local (canonical_peer_id pd) local_peer_id)
  | Multi _ => Ok local_peer_id
  end.

(** The signature of a single-signature link by its granter, whose identity is returned. *)
Definition verify_single_signature (included : list (Hash * Entity)) (current_hash granter_id : Hash)
    : result ProtocolError PeerData :=
  sig ← ok_or MissingSignature (find_signature_for_target (map snd included) current_hash);
  sig_data ← map_err (λ _, PInvalid) (signature_from_entity sig);
  _ ← guard_ok (bool_decide (sig_signer sig_data = granter_id)) SignerMismatch;
  granter_entity ← ok_or MissingEntity (bt_get granter_id included);
  granter_identity ← map_err (λ _, PInvalid) (peer_from_entity granter_entity);
  _ ← verify_peer_data_sig granter_identity (to_bytes current_hash) (sig_bytes sig_data);
  Ok granter_identity.

(** The delegation step from the parent link to the child at leaf distance [i]. *)
Definition verify_delegation (included : list (Hash * Entity)) (local_peer_id : list Z) (i : Z)
    (entity : Entity) (granter_id : Hash) (granter_identity : PeerData) (par : Link)
    : result ProtocolError unit :=
  let '(parent_entity, parent_fields) := par in
  _ ← guard_ok (bool_decide (cf_grantee parent_fields = granter_id)) GranteeMismatch;
  child_token ← map_err (λ _, PInvalid) (token_from_entity entity);
  parent_token ← map_err (λ _, PInvalid) (token_from_entity parent_entity);
  let child_granter_peer_id := or_local (canonical_peer_id granter_identity) local_peer_id in
  parent_granter_peer_id ← parent_granter_frame included local_peer_id (cf_granter parent_fields);
  _ ← guard_ok (is_attenuated_framed child_token parent_token child_granter_peer_id
                  parent_granter_peer_id local_peer_id) AttenuationViolation;
  guard_ok (check_delegation_caveats parent_token child_token i) CapabilityInvalid.

Record MultiScan := mkMultiScan { seen : list Hash; valid : Z; local_peer_signed : bool }.

(** A candidate's identity, when it has validly signed. *)
Definition candidate_signed (included : list (Hash * Entity)) (current_hash candidate : Hash)
    : option PeerData :=
  e ← bt_get candidate included;
  id ← ok (peer_from_entity e);
  sig ← find_signature_by_signer (map snd included) current_hash candidate;
  sig_data ← ok (signature_from_entity sig);
  if peer_data_sig_ok id (to_bytes current_hash) (sig_bytes sig_data) then Some id else None.

Definition multi_scan_step (included : list (Hash * Entity)) (local_peer_id : list Z)
    (current_hash : Hash) (st : MultiScan) (candidate : Hash) : MultiScan :=
  if existsb (λ h, bool_decide (h = candidate)) (seen st) then st
  else
    let seen' := seen st ++ [candidate] in
    match candidate_signed included current_hash candidate with
    | None => mkMultiScan seen' (valid st) (local_peer_signed st)
    | Some id =>
        mkMultiScan seen' (valid st + 1)
          (local_peer_signed st || bool_decide (canonical_peer_id id = Some local_peer_id))
    end.

Definition verify_multi (included : list (Hash * Entity)) (local_peer_id : list Z)
    (current_hash : Hash) (multi : MultiGranter) : result ProtocolError unit :=
  let st := foldl (multi_scan_step included local_peer_id current_hash)
              (mkMultiScan [] 0 false) (signers multi) in
  if valid st <? threshold multi then Err PInvalidSignature
  else guard_ok (local_peer_signed st) NotLocalPeer.

Fixpoint verify_links (included : list (Hash * Entity)) (local_peer_id : list Z) (i : Z)
    (chain : list Link) : result ProtocolError unit :=
  match chain with
  | [] => Ok tt
  | (entity, fields) :: rest =>
      _ ← match cf_granter fields with
          | Single granter_id =>
              granter_identity ← verify_single_signature included (content_hash entity) granter_id;
              match rest with
              | par :: _ =>
                  verify_delegation included local_peer_id i entity granter_id granter_identity par
              | [] =>
                  granter_peer_id ← ok_or NotLocalPeer (canonical_peer_id granter_identity);
                  guard_ok (bool_decide (granter_peer_id = local_peer_id)) NotLocalPeer
              end
          | Multi multi => verify_multi included local_peer_id (content_hash entity) multi
          end;
      verify_links included local_peer_id (i + 1) rest
  end.

Definition chain_error (e : ChainWalkError) : ProtocolError :=
  match e with TooDeep => ChainTooDeep | Unreachable => MissingEntity end.

Definition verify_capability_chain (now_ms : Z) (capability_hash : Hash)
    (included : list (Hash * Entity)) (local_peer_id : list Z) : result ProtocolError unit :=
  _ ← verify_included_key_binding included;
  chain ← map_err chain_error (collect_authority_chain capability_hash (λ h, bt_get h included));
  _ ← format_freeze chain;
  _ ← for_each (grantee_resolves included) chain;
  _ ← for_each (λ link, temporal_ok now_ms (cf_expires_at link.2) (cf_not_before link.2)) chain;
  _ ← for_each matchable_scopes chain;
  _ ← multi_sig_shape chain;
  verify_links included local_peer_id 0 chain.

(** * Requests *)

Record VerifiedRequest := mkVerified {
  v_author_hash : Hash; v_capability_hash : Hash; v_capability : CapabilityToken;
  v_request_id : list Z; v_uri : list Z; v_operation : list Z;
}.

Definition format_supported (e : Entity) : result ProtocolError unit :=
  guard_ok (is_supported_format (content_hash e))
    (UnsupportedContentHashFormat (algorithm (content_hash e))).

Definition content_valid (e : Entity) : result ProtocolError unit :=
  map_err (λ _, PHashMismatch) (entity_validate e).

(** Steps 1 and 2: every entity of the envelope is what its hash says. *)
Definition verify_integrity (env : Envelope) : result ProtocolError unit :=
  _ ← format_supported (root env);
  _ ← for_each format_supported (map snd (included env));
  _ ← content_valid (root env);
  _ ← for_each content_valid (map snd (included env));
  verify_included_key_binding (included env).

(** Steps 3 and 4: the author's signature over the root. *)
Definition verify_author (env : Envelope) (author_hash : Hash) : result ProtocolError unit :=
  let execute := root env in
  sig_entity ← ok_or AuthenticationFailed (find_signature_for env (content_hash execute));
  sig_data ← map_err (λ _, PInvalid) (signature_from_entity sig_entity);
  _ ← guard_ok (bool_decide (sig_signer sig_data = author_hash)) AuthenticationFailed;
  author_entity ← ok_or AuthenticationFailed (find_included env author_hash);
  _ ← guard_ok (bool_decide (entity_type author_entity = TYPE_PEER)) PInvalid;
  author_identity ← map_err (λ _, PInvalid) (peer_from_entity author_entity);
  map_err (λ e, match e with PInvalidSignature => AuthenticationFailed | other => other end)
    (verify_peer_data_sig author_identity (to_bytes (content_hash execute)) (sig_bytes sig_data)).

(** Step 5: the presented capability is the author's and is valid now. *)
Definition verify_presented (now_ms : Z) (env : Envelope) (author_hash capability_hash : Hash)
    : result ProtocolError CapabilityToken :=
  cap_entity ← ok_or MissingCapabilityEntity (find_included env capability_hash);
  _ ← guard_ok (bool_decide (entity_type cap_entity = TYPE_CAP_TOKEN)) PInvalid;
  cap_token ← map_err (λ _, PInvalid) (token_from_entity cap_entity);
  g ← ok_or UnresolvableGrantee (find_included env (grantee cap_token));
  _ ← guard_ok (bool_decide (entity_type g = TYPE_PEER)) UnresolvableGrantee;
  _ ← guard_ok (bool_decide (grantee cap_token = author_hash)) GranteeMismatch;
  _ ← temporal_ok now_ms (expires_at cap_token) (not_before cap_token);
  Ok cap_token.

Definition verify_request (now_ms now_ms' : Z) (env : Envelope) (local_peer_id : list Z)
    : result ProtocolError VerifiedRequest :=
  _ ← verify_integrity env;
  execute_data ← decode_execute_fields (data (root env));
  author_hash ← ok_or AuthenticationFailed (author execute_data);
  capability_hash ← ok_or MissingCapability (capability execute_data);
  _ ← verify_author env author_hash;
  cap_token ← verify_presented now_ms env author_hash capability_hash;
  _ ← verify_capability_chain now_ms' capability_hash (included env) local_peer_id;
  Ok (mkVerified author_hash capability_hash cap_token (request_id execute_data)
        (ef_uri execute_data) (operation execute_data)).

Definition verify_request_with_ctx (now_ms now_ms' : Z) (env : Envelope) (local_peer_id : list Z)
    (supports_revocation : bool) (resolve : Hash → option Entity) (locate : list Z → option Hash)
    (capability_path_for : Hash → option (list Z)) : result ProtocolError VerifiedRequest :=
  verified ← verify_request now_ms now_ms' env local_peer_id;
  if supports_revocation
     && is_revoked (v_capability_hash verified) local_peer_id resolve locate capability_path_for
  then Err CapabilityRevoked
  else Ok verified.

(** * Lemmas *)

(** ** The walk *)

(** [chain] leads from [h] along the parent references to a link without one. *)
Inductive chain_to (resolve : Hash → option Entity) : Hash → list Link → Prop :=
  | chain_to_root h e f :
      resolve h = Some e → decode_capability_chain_fields (data e) = Ok f → cf_parent f = None →
      chain_to resolve h [(e, f)]
  | chain_to_link h e f p chain :
      resolve h = Some e → decode_capability_chain_fields (data e) = Ok f → cf_parent f = Some p →
      chain_to resolve p chain → chain_to resolve h ((e, f) :: chain).

Lemma chain_to_nonempty resolve h chain : chain_to resolve h chain → chain ≠ [].
Proof. by inversion 1. Qed.

Lemma chain_loop_Ok budget resolve h chain :
  chain_loop budget resolve h = Ok chain ↔ chain_to resolve h chain ∧ (length chain ≤ budget)%nat.
Proof.
  revert h chain. induction budget as [|budget IH]; intros h chain; cbn [chain_loop].
  { split; [done|]. intros [Hc Hl]. apply chain_to_nonempty in Hc. destruct chain; cbn in Hl; [done|lia]. }
  destruct (resolve h) as [e|] eqn:Er; [|split; [done|]; intros [Hc _]; inversion Hc; congruence].
  destruct (decode_capability_chain_fields (data e)) as [f|] eqn:Ed;
    [|split; [done|]; intros [Hc _]; inversion Hc; congruence].
  destruct (cf_parent f) as [p|] eqn:Ep.
  - rewrite bind_Ok. split.
    + intros (c & Hc & [= <-]). apply IH in Hc as [Hc Hl]. split; [by eapply chain_to_link|]. cbn. lia.
    + intros [Hc Hl]. inversion Hc as [|? e' f' p' c Hr Hd Hp Hc']; [congruence|]; subst.
      assert (e' = e) as -> by congruence. assert (f' = f) as -> by congruence.
      assert (p' = p) as -> by congruence. exists c. split; [|done]. apply IH.
      split; [done|]. cbn in Hl. lia.
  - split.
    + intros [= <-]. split; [by apply chain_to_root|]. cbn. lia.
    + intros [Hc _]. inversion Hc as [? e' f' Hr Hd Hp|? e' f' p' c Hr Hd Hp Hc']; subst.
      all: assert (e' = e) as -> by congruence; assert (f' = f) as -> by congruence; first [reflexivity | by rewrite Ep in Hp].
Qed.

Lemma collect_Ok h resolve chain :
  collect_authority_chain h resolve = Ok chain ↔ chain_to resolve h chain ∧ (length chain ≤ 65)%nat.
Proof. apply chain_loop_Ok. Qed.

Lemma chain_to_elem resolve h chain link :
  chain_to resolve h chain → link ∈ chain →
  decode_capability_chain_fields (data link.1) = Ok link.2 ∧ ∃ k, resolve k = Some link.1.
Proof.
  induction 1 as [h e f Hr Hd|h e f p chain Hr Hd Hp Hc IH].
  - intros ->%list_elem_of_singleton. eauto.
  - intros [->|Hl]%elem_of_cons; [eauto | by apply IH].
Qed.

Lemma chain_to_last resolve h chain :
  chain_to resolve h chain →
  ∃ e f, last chain = Some (e, f) ∧ cf_parent f = None ∧ decode_capability_chain_fields (data e) = Ok f.
Proof.
  induction 1 as [h e f Hr Hd Hp|h e f p chain Hr Hd Hp Hc (e' & f' & Hl & ?)]; [by exists e, f|].
  exists e', f'. split; [|done]. by rewrite last_cons, Hl.
Qed.

(** ** The chain projection agrees with the token decoder *)

Lemma key_is_true key k : key_is key k = true ↔ k = text (lit key).
Proof.
  unfold key_is, is_text_key, text. destruct k; try done. rewrite bool_decide_eq_true. naive_solver.
Qed.

Definition scans_agree (st : TokenScan) (cs : ChainScan) : Prop :=
  ts_granter st = cs_granter cs ∧ ts_grantee st = cs_grantee cs ∧ ts_parent st = cs_parent cs
  ∧ ts_not_before st = cs_not_before cs ∧ ts_expires st = cs_expires_at cs.

Lemma soft_hash_agree old v x : decode_hash_field old v = Ok x → soft_hash old v = x.
Proof.
  unfold decode_hash_field, soft_hash, decode_hash. destruct (as_bytes v) as [b|]; [|congruence].
  destruct (from_bytes b); cbn; congruence.
Qed.

Lemma temporal_agree v x : decode_temporal_field v = Ok x → as_u64_opt v = x.
Proof.
  unfold decode_temporal_field, as_u64_opt. destruct v; cbn; try congruence.
  unfold mbind; cbn. destruct (try_u64 i); cbn; congruence.
Qed.

Ltac known_key E :=
  apply key_is_true in E; subst.

Lemma chain_step_agree st cs kv st' :
  scans_agree st cs → token_step st kv = Ok st' → ∃ cs', chain_step cs kv = Ok cs' ∧ scans_agree st' cs'.
Proof.
  destruct st as [gs gr ge pa cr ex nb ca], cs as [gr' ge' pa' nb' ex'], kv as [k v].
  unfold scans_agree. cbn [ts_granter ts_grantee ts_parent ts_not_before ts_expires
    cs_granter cs_grantee cs_parent cs_not_before cs_expires_at].
  intros (-> & -> & -> & -> & ->). unfold token_step.
  assert (Hskip : ∀ key, key ∈ ["grants"; "created_at"; "delegation_caveats"]%string → k = text (lit key) →
    chain_step (mkChainScan gr' ge' pa' nb' ex') (k, v) = Ok (mkChainScan gr' ge' pa' nb' ex')).
  { intros key Hk ->. rewrite !elem_of_cons in Hk. destruct Hk as [->|[->|[->|Hk]]]; [reflexivity..|].
    by apply not_elem_of_nil in Hk. }
  destruct (key_is "grants" k) eqn:E1.
  { apply key_is_true in E1. intros Hs. inv_ok. eexists. split; [eapply Hskip; [|done]; set_solver | done]. }
  destruct (key_is "granter" k) eqn:E2.
  { apply key_is_true in E2 as ->. intros Hs. inv_ok.
    exists (mkChainScan (Some r) ge' pa' nb' ex'). split; [|done].
    change (map_err (λ _, PInvalid) (decode_granter v) ≫= (λ g, Ok (mkChainScan (Some g) ge' pa' nb' ex'))
            = Ok (mkChainScan (Some r) ge' pa' nb' ex')). by rewrite Hr. }
  destruct (key_is "grantee" k) eqn:E3.
  { apply key_is_true in E3 as ->. intros Hs. inv_ok. apply soft_hash_agree in Hr. subst r.
    eexists. split; [reflexivity | done]. }
  destruct (key_is "parent" k) eqn:E4.
  { apply key_is_true in E4 as ->. intros Hs. inv_ok. apply soft_hash_agree in Hr. subst r.
    eexists. split; [reflexivity | done]. }
  destruct (key_is "created_at" k) eqn:E5.
  { apply key_is_true in E5. intros Hs. inv_ok. eexists. split; [eapply Hskip; [|done]; set_solver | done]. }
  destruct (key_is "expires_at" k) eqn:E6.
  { apply key_is_true in E6 as ->. intros Hs. inv_ok. apply temporal_agree in Hr. subst r.
    eexists. split; [reflexivity | done]. }
  destruct (key_is "not_before" k) eqn:E7.
  { apply key_is_true in E7 as ->. intros Hs. inv_ok. apply temporal_agree in Hr. subst r.
    eexists. split; [reflexivity | done]. }
  intros Hs. exists (mkChainScan gr' ge' pa' nb' ex'). split.
  - unfold chain_step. by rewrite E2, E3, E4, E6, E7.
  - destruct (key_is "delegation_caveats" k); inv_ok; done.
Qed.

Lemma chain_fold_agree m : ∀ st cs st',
  scans_agree st cs → foldM token_step st m = Ok st' →
  ∃ cs', foldM chain_step cs m = Ok cs' ∧ scans_agree st' cs'.
Proof.
  induction m as [|kv m IH]; intros st cs st' Hag; cbn [foldM]; [intros [= <-]; eauto|].
  intros Hs. inv_ok. destruct (chain_step_agree _ _ _ _ Hag Hr) as (cs1 & E & Hag1).
  destruct (IH _ _ _ Hag1 Hs) as (cs2 & E2 & Hag2). exists cs2. split; [|done].
  rewrite E. exact E2.
Qed.

(** A token that decodes has the chain projection of its fields. *)
Lemma chain_fields_of_token e tok :
  token_from_entity e = Ok tok →
  decode_capability_chain_fields (data e)
  = Ok (mkChain (granter tok) (grantee tok) (parent tok) (not_before tok) (expires_at tok)).
Proof.
  unfold token_from_entity. destruct (negb _); [done|]. intros Ht. inv_ok.
  rename r into v, r0 into m. unfold decode_capability_chain_fields. rewrite Hr.
  cbn [ok_or mbind result_bind]. rewrite Hr0. cbn [ok_or mbind result_bind].
  unfold decode_token_map in Ht. inv_ok.
  destruct (chain_fold_agree m (mkTokenScan None None None None None None None None)
    (mkChainScan None None None None None) _ ltac:(done) Hr1) as (cs & E & Hg1 & Hg2 & Hg3 & Hg4 & Hg5).
  rewrite E. cbn [mbind result_bind]. rewrite <-Hg1, <-Hg2, Hr3, Hr4. cbn [ok_or mbind result_bind].
  by rewrite Hg3, Hg4, Hg5.
Qed.

(** ** Signatures *)

Lemma sig_step_agree st acc kv st' :
  (∀ t, acc.1 = Some t → ss_target st = Some t) → (∀ s, acc.2 = Some s → ss_signer st = Some s) →
  signature_step st kv = Ok st' →
  (∀ t, (sig_step acc kv).1 = Some t → ss_target st' = Some t)
  ∧ (∀ s, (sig_step acc kv).2 = Some s → ss_signer st' = Some s).
Proof.
  intros Ht Hs. unfold signature_step, sig_step. destruct (as_str kv.1) as [k|]; [|by intros [= <-]].
  assert (Hf : ∀ old v x h, hash_field old v = Ok x → sig_field v = Some h → x = Some h).
  { intros old v x h. unfold hash_field, sig_field. destruct (as_bytes v) as [b|]; [|done].
    cbn. destruct (from_bytes b); cbn; congruence. }
  destruct (decide (k = lit "target")) as [->|].
  { intros Hst. inv_ok. split; [|exact Hs]. intros t. cbn [fst ss_target]. intros Hv. by eapply Hf. }
  destruct (decide (k = lit "signer")) as [->|].
  { intros Hst. inv_ok. split; [exact Ht|]. intros t. cbn [snd ss_signer]. intros Hv. by eapply Hf. }
  destruct (decide (k = lit "algorithm")); [intros [= <-]; done|].
  destruct (decide (k = lit "signature")); intros [= <-]; done.
Qed.

Lemma sig_fold_agree m : ∀ st acc st',
  (∀ t, acc.1 = Some t → ss_target st = Some t) → (∀ s, acc.2 = Some s → ss_signer st = Some s) →
  foldM signature_step st m = Ok st' →
  (∀ t, (foldl sig_step acc m).1 = Some t → ss_target st' = Some t)
  ∧ (∀ s, (foldl sig_step acc m).2 = Some s → ss_signer st' = Some s).
Proof.
  induction m as [|kv m IH]; intros st acc st' Ht Hs; cbn [foldM foldl]; [by intros [= <-]|].
  intros Hf. inv_ok. destruct (sig_step_agree _ _ _ _ Ht Hs Hr). by eapply IH.
Qed.

(** The scan's (target, signer) is the decoded one. *)
Lemma sig_target_agree e t s sd :
  decode_sig_target_signer (data e) = Some (t, s) → signature_from_entity e = Ok sd →
  sig_target sd = t ∧ sig_signer sd = s.
Proof.
  unfold decode_sig_target_signer, signature_from_entity. destruct (negb _); [done|].
  destruct (from_reader (data e)) as [v|]; [|done]. cbn [mbind option_bind result_bind ok_or].
  destruct (as_map v) as [m|]; [|done]. cbn [mbind option_bind result_bind ok_or].
  destruct (foldl sig_step (None, None) m) as [ot os] eqn:Ef.
  intros Hd Hsig. inv_ok. destruct ot as [t'|]; [|done]. destruct os as [s'|]; [|done].
  cbn in Hd. injection Hd as -> ->. rename r into st.
  destruct (sig_fold_agree m (mkSigScan None None None None) (None, None) st) as [K3 K4];
    [done..|]. rewrite Ef in K3, K4. cbn in K3, K4.
  specialize (K3 t eq_refl). specialize (K4 s eq_refl). cbn [sig_target sig_signer]. split; congruence.
Qed.

(** [signer], whose identity entity in [included] is [id], has signed the hash [h]. *)
Definition signed_by (included : list (Hash * Entity)) (h signer : Hash) (id : PeerData) : Prop :=
  ∃ sig sd e, sig ∈ map snd included ∧ entity_type sig = TYPE_SIGNATURE
    ∧ signature_from_entity sig = Ok sd ∧ sig_target sd = h ∧ sig_signer sd = signer
    ∧ bt_get signer included = Some e ∧ peer_from_entity e = Ok id
    ∧ peer_data_sig_ok id (to_bytes h) (sig_bytes sd) = true.

Lemma verify_peer_data_sig_Ok id m s :
  verify_peer_data_sig id m s = Ok tt ↔ peer_data_sig_ok id m s = true.
Proof.
  unfold verify_peer_data_sig, peer_data_sig_ok.
  destruct (key_type_from_label (key_type id)) as [kt|]; cbn; [|done]. unfold mbind; cbn.
  by destruct (verify_for_key_type _ _ _ _) as [[]|].
Qed.

Lemma find_first_elem {A} (p : A → bool) l x : find_first p l = Some x → x ∈ l ∧ p x = true.
Proof. intros (l1 & l2 & -> & Hp & _)%find_first_Some. split; [set_solver|done]. Qed.

Lemma signs_target_true t e :
  signs_target t e = true → entity_type e = TYPE_SIGNATURE ∧ ∃ s, decode_sig_target_signer (data e) = Some (t, s).
Proof.
  unfold signs_target. intros [Ht%bool_decide_eq_true Hd]%andb_true_iff. split; [done|].
  destruct (decode_sig_target_signer _) as [[t' s]|]; [|done]. apply bool_decide_eq_true in Hd as ->. eauto.
Qed.

Lemma signs_target_by_true t s e :
  signs_target_by t s e = true → entity_type e = TYPE_SIGNATURE ∧ decode_sig_target_signer (data e) = Some (t, s).
Proof.
  unfold signs_target_by. intros [Ht%bool_decide_eq_true Hd]%andb_true_iff. split; [done|].
  destruct (decode_sig_target_signer _) as [[t' s']|]; [|done].
  by apply andb_true_iff in Hd as [->%bool_decide_eq_true ->%bool_decide_eq_true].
Qed.

Lemma verify_single_signature_Ok included h g id :
  verify_single_signature included h g = Ok id → signed_by included h g id.
Proof.
  unfold verify_single_signature. intros Hv. inv_steps.
  apply find_first_elem in Hr as [Hin Hs]. apply signs_target_true in Hs as (Hty & s & Hd).
  rename r0 into sd.
  destruct (signature_from_entity r) as [sd'|] eqn:Es; [|done]. injection Hr0 as ->.
  destruct (sig_target_agree _ _ _ _ Hd Es) as [Ht _].
  destruct (peer_from_entity r2) as [id'|] eqn:Ep; [|done]. injection Hr3 as ->.
  apply verify_peer_data_sig_Ok in Hr4. exists r, sd, r2. by split_and!.
Qed.

Lemma candidate_signed_Some included h c id :
  candidate_signed included h c = Some id → signed_by included h c id.
Proof.
  unfold candidate_signed. intros Hc.
  destruct (bt_get c included) as [e|] eqn:Eg; [|done]. cbn [mbind option_bind] in Hc.
  destruct (peer_from_entity e) as [id'|] eqn:Ep; [|done]. cbn [ok mbind option_bind] in Hc.
  destruct (find_signature_by_signer _ _ _) as [sig|] eqn:Ef; [|done]. cbn [mbind option_bind] in Hc.
  destruct (signature_from_entity sig) as [sd|] eqn:Es; [|done]. cbn [ok mbind option_bind] in Hc.
  destruct (peer_data_sig_ok _ _ _) eqn:Ek; [|done]. injection Hc as ->.
  apply find_first_elem in Ef as [Hin Hs]. apply signs_target_by_true in Hs as (Hty & Hd).
  destruct (sig_target_agree _ _ _ _ Hd Es) as [Ht Hsg]. exists sig, sd, e. by split_and!.
Qed.

(** The distinct candidates that signed, and whether the local peer is one of them. *)
Definition quorum (included : list (Hash * Entity)) (local_peer_id : list Z) (h : Hash)
    (m : MultiGranter) : Prop :=
  ∃ qs, NoDup qs ∧ qs ⊆ signers m ∧ threshold m ≤ Z.of_nat (length qs)
    ∧ (∀ q, q ∈ qs → ∃ id, signed_by included h q id)
    ∧ ∃ q id, q ∈ qs ∧ signed_by included h q id ∧ canonical_peer_id id = Some local_peer_id.

Lemma subset_skip {A} (c : A) (l1 l2 l3 : list A) : l1 ⊆ l2 ++ l3 → l1 ⊆ l2 ++ c :: l3.
Proof. set_solver. Qed.

Lemma multi_scan included local h l : ∀ st qs,
  NoDup qs → qs ⊆ seen st → valid st = Z.of_nat (length qs) →
  (∀ q, q ∈ qs → ∃ id, signed_by included h q id) →
  (local_peer_signed st = true →
     ∃ q id, q ∈ qs ∧ signed_by included h q id ∧ canonical_peer_id id = Some local) →
  let st' := foldl (multi_scan_step included local h) st l in
  ∃ qs', NoDup qs' ∧ qs' ⊆ qs ++ l ∧ valid st' = Z.of_nat (length qs')
    ∧ (∀ q, q ∈ qs' → ∃ id, signed_by included h q id)
    ∧ (local_peer_signed st' = true →
         ∃ q id, q ∈ qs' ∧ signed_by included h q id ∧ canonical_peer_id id = Some local).
Proof.
  induction l as [|c l IH]; intros st qs Hnd Hsub Hv Hs Hl; cbn [foldl].
  { exists qs. rewrite app_nil_r. by split_and!. }
  remember (multi_scan_step included local h st c) as st1 eqn:E1.
  unfold multi_scan_step in E1. destruct (existsb _ (seen st)) eqn:Ex; subst st1.
  { destruct (IH st qs Hnd Hsub Hv Hs Hl) as (qs' & K1 & K2 & K3). exists qs'. split; [done|]. split; [by apply subset_skip|exact K3]. }
  assert (Hc : c ∉ seen st).
  { intros Hc. apply not_true_iff_false in Ex. destruct Ex. apply existsb_elem. exists c.
    split; [done|]. by apply bool_decide_eq_true. }
  destruct (candidate_signed included h c) as [id|] eqn:Ec.
  - apply candidate_signed_Some in Ec.
    destruct (IH (mkMultiScan (seen st ++ [c]) (valid st + 1)
                (local_peer_signed st || bool_decide (canonical_peer_id id = Some local))) (qs ++ [c]))
      as (qs' & K1 & K2 & K3); cbn [seen valid local_peer_signed].
    + apply NoDup_app. split_and!; [done| |apply NoDup_singleton]. set_solver.
    + set_solver.
    + rewrite length_app. cbn. lia.
    + intros q [Hq| ->%list_elem_of_singleton]%elem_of_app; eauto.
    + intros [Hloc|Hloc%bool_decide_eq_true]%orb_true_iff.
      * destruct (Hl Hloc) as (q & id' & Hq & ?). exists q, id'. split; [set_solver|done].
      * exists c, id. split; [set_solver|done].
    + exists qs'. split; [done|]. split; [by rewrite <-app_assoc in K2|exact K3].
  - destruct (IH (mkMultiScan (seen st ++ [c]) (valid st) (local_peer_signed st)) qs)
      as (qs' & K1 & K2 & K3); cbn [seen valid local_peer_signed]; [done|set_solver|done..|].
    exists qs'. split; [done|]. split; [by apply subset_skip|exact K3].
Qed.

Lemma verify_multi_Ok included local h m :
  verify_multi included local h m = Ok tt → quorum included local h m.
Proof.
  unfold verify_multi. destruct (Z.ltb_spec (valid (foldl (multi_scan_step included local h)
    (mkMultiScan [] 0 false) (signers m))) (threshold m)) as [|Hth]; [done|].
  intros Hloc%guard_ok_Ok.
  destruct (multi_scan included local h (signers m) (mkMultiScan [] 0 false) [])
    as (qs & K1 & K2 & K3 & K4 & K5); [constructor|set_solver|done|set_solver|done|].
  exists qs. split_and!; [done|done| |done|by apply K5]. lia.
Qed.

(** ** What an accepted chain means *)

(** The peer id in whose frame a granter's resource patterns are read. *)
Definition granter_frame (included : list (Hash * Entity)) (local_peer_id : list Z) (g : Granter) : list Z :=
  match parent_granter_frame included local_peer_id g with Ok p => p | Err _ => local_peer_id end.

(** The checks of one link on its own. *)
Definition live (now_ms : Z) (included : list (Hash * Entity)) (link : Link) : Prop :=
  (∃ g, bt_get (cf_grantee link.2) included = Some g ∧ entity_type g = TYPE_PEER)
  ∧ (∀ exp, cf_expires_at link.2 = Some exp → now_ms < exp)
  ∧ (∀ nb, cf_not_before link.2 = Some nb → nb ≤ now_ms)
  ∧ (∀ tok, token_from_entity link.1 = Ok tok → unmatchable_scope_pattern (grants tok) = None).

(** The delegation from the root: a chain, leaf first, whose leaf is at distance [i] from
    the presented capability. *)
Inductive authorized (included : list (Hash * Entity)) (local_peer_id : list Z) : Z → list Link → Prop :=
  | authorized_root i e f g id :
      cf_granter f = Single g → signed_by included (content_hash e) g id →
      canonical_peer_id id = Some local_peer_id → authorized included local_peer_id i [(e, f)]
  | authorized_quorum i e f m :
      cf_granter f = Multi m → cf_parent f = None → multi_validate m = Ok tt →
      quorum included local_peer_id (content_hash e) m → authorized included local_peer_id i [(e, f)]
  | authorized_delegated i e f g id pe pf rest tok ptok :
      cf_granter f = Single g → signed_by included (content_hash e) g id → cf_grantee pf = g →
      token_from_entity e = Ok tok → token_from_entity pe = Ok ptok →
      is_attenuated_framed tok ptok (granter_frame included local_peer_id (cf_granter f))
        (granter_frame included local_peer_id (cf_granter pf)) local_peer_id = true →
      check_delegation_caveats ptok tok i = true →
      authorized included local_peer_id (i + 1) ((pe, pf) :: rest) →
      authorized included local_peer_id i ((e, f) :: (pe, pf) :: rest).

Lemma temporal_ok_Ok now exp nb :
  temporal_ok now exp nb = Ok tt ↔
  (∀ x, exp = Some x → now < x) ∧ (∀ x, nb = Some x → x ≤ now).
Proof.
  unfold temporal_ok.
  destruct exp as [x|], nb as [y|]; unfold guard_ok;
    repeat match goal with
    | |- context [?a <? ?b] => destruct (Z.ltb_spec a b)
    | |- context [?a <=? ?b] => destruct (Z.leb_spec a b)
    end; unfold mbind, result_bind;
    (split; [try done; intros _; split; intros ? [= <-]; done | intros [H1' H2']]);
    try done; exfalso; try (specialize (H1' x eq_refl)); try (specialize (H2' y eq_refl)); lia.
Qed.

Lemma frame_of_signer included local h g id :
  signed_by included h g id →
  granter_frame included local (Single g) = or_local (canonical_peer_id id) local.
Proof.
  intros (sig & sd & e & _ & _ & _ & _ & _ & He & Hp & _). unfold granter_frame, parent_granter_frame.
  rewrite He. cbn [ok_or mbind result_bind]. by rewrite Hp.
Qed.

Lemma map_err_Ok {E F A} (f : E → F) (r : result E A) a : map_err f r = Ok a ↔ r = Ok a.
Proof. destruct r; cbn; naive_solver. Qed.

Lemma verify_links_Ok included local chain : ∀ i,
  chain ≠ [] → multi_sig_shape chain = Ok tt → verify_links included local i chain = Ok tt →
  authorized included local i chain.
Proof.
  induction chain as [|[e f] rest IH]; intros i Hne Hm Hv; [done|].
  cbn [multi_sig_shape verify_links] in Hm, Hv. apply bind_Ok in Hm as ([] & Hm1 & Hm).
  apply bind_Ok in Hv as ([] & Hv1 & Hv). destruct (cf_granter f) as [g|m] eqn:Eg.
  - apply bind_Ok in Hv1 as (id & Hsig & Hd). apply verify_single_signature_Ok in Hsig.
    destruct rest as [|[pe pf] rest].
    + inv_steps. apply (authorized_root _ _ _ _ _ g id); [exact Eg|exact Hsig|congruence].
    + unfold verify_delegation in Hd. inv_steps. apply map_err_Ok in Hr0, Hr1.
      rewrite <-(frame_of_signer included local _ _ _ Hsig), <-Eg in Hr3.
      eapply authorized_delegated; [done|done|done|exact Hr0|exact Hr1| |done|by apply IH].
      unfold granter_frame at 2. by rewrite Hr2.
  - case_bool_decide as Hp; [done|]. case_bool_decide as Hrest; cbn [negb] in Hm1; [|done].
    apply map_err_Ok in Hm1. subst rest. apply eq_None_not_Some in Hp.
    eapply authorized_quorum; [done..|]. by apply verify_multi_Ok.
Qed.

Lemma format_freeze_Ok chain :
  format_freeze chain = Ok tt →
  ∀ a b, a ∈ chain → b ∈ chain → algorithm (content_hash a.1) = algorithm (content_hash b.1).
Proof.
  destruct chain as [|[first ff] rest]; [set_solver|]. unfold format_freeze. rewrite for_each_Ok. intros Hf.
  assert (Hall : ∀ a, a ∈ (first, ff) :: rest → algorithm (content_hash a.1) = algorithm (content_hash first)).
  { intros a [->|Ha]%elem_of_cons; [done|]. specialize (Hf a Ha). by apply guard_ok_Ok, Z.eqb_eq in Hf. }
  intros a b Ha Hb. by rewrite (Hall a Ha), (Hall b Hb).
Qed.

Lemma grantee_resolves_Ok included link :
  grantee_resolves included link = Ok tt →
  ∃ g, bt_get (cf_grantee link.2) included = Some g ∧ entity_type g = TYPE_PEER.
Proof. unfold grantee_resolves. intros Hg. inv_steps. eauto. Qed.

Lemma verify_capability_chain_Ok now cap included local :
  verify_capability_chain now cap included local = Ok tt →
  (∀ h e, (h, e) ∈ included → h = content_hash e)
  ∧ ∃ chain, collect_authority_chain cap (λ h, bt_get h included) = Ok chain
    ∧ (∀ a b, a ∈ chain → b ∈ chain → algorithm (content_hash a.1) = algorithm (content_hash b.1))
    ∧ Forall (live now included) chain ∧ authorized included local 0 chain.
Proof.
  unfold verify_capability_chain. intros Hv.
  apply bind_Ok in Hv as ([] & Hk & Hv). apply bind_Ok in Hv as (chain & Hc & Hv).
  apply bind_Ok in Hv as ([] & Hf & Hv). apply bind_Ok in Hv as ([] & Hg & Hv).
  apply bind_Ok in Hv as ([] & Ht & Hv). apply bind_Ok in Hv as ([] & Hu & Hv).
  apply bind_Ok in Hv as ([] & Hm & Hv). apply map_err_Ok in Hc. split.
  - unfold verify_included_key_binding in Hk. rewrite for_each_Ok in Hk. intros h e Hin.
    specialize (Hk (h, e) Hin). by apply guard_ok_Ok, bool_decide_eq_true in Hk.
  - exists chain. split_and!; [done|by apply format_freeze_Ok| |].
    + rewrite for_each_Ok in Hg, Ht, Hu. apply Forall_forall. intros link Hl.
      specialize (Hg link Hl). specialize (Ht link Hl). specialize (Hu link Hl). cbn in Ht.
      apply temporal_ok_Ok in Ht as [Ht1 Ht2]. split_and!; [by apply grantee_resolves_Ok|done..|].
      intros tok Htok. unfold matchable_scopes in Hu. rewrite Htok in Hu.
      by destruct (unmatchable_scope_pattern (grants tok)).
    + apply verify_links_Ok; [|done..]. apply collect_Ok in Hc as [Hc _].
      by eapply chain_to_nonempty.
Qed.

(** ** Authority *)

Lemma check_permission_existsb op handler tp rt tok local :
  is_Some (check_permission_with_grant op handler tp rt tok local local) →
  check_permission op handler tp rt tok local = true.
Proof.
  unfold check_permission_with_grant, check_permission, check_permission_inner. intros Hs.
  rewrite <-is_Some_find_first. by apply bool_decide_eq_true.
Qed.

Lemma authorized_authority included local i chain :
  authorized included local i chain →
  (∀ link, link ∈ chain → decode_capability_chain_fields (data link.1) = Ok link.2) →
  ∀ tok op handler tp rt, (∃ e f rest, chain = (e, f) :: rest ∧ token_from_entity e = Ok tok) →
  dslash false (canonicalize handler local) = false →
  (∀ r, rt = Some r → concrete_targets r local) →
  is_Some (check_permission_with_grant op handler tp rt tok local (granter_frame included local (granter tok))) →
  ∃ re rf rtok, last chain = Some (re, rf) ∧ token_from_entity re = Ok rtok
    ∧ check_permission op handler tp rt rtok local = true
    ∧ (∀ x, expires_at rtok = Some x → ∃ y, expires_at tok = Some y ∧ y ≤ x).
Proof.
  assert (Hgr : ∀ e f tok, decode_capability_chain_fields (data e) = Ok f → token_from_entity e = Ok tok →
    cf_granter f = granter tok).
  { intros e f tok Hd Ht. apply chain_fields_of_token in Ht. rewrite Hd in Ht. by injection Ht as ->. }
  induction 1 as [i e f g id Hg Hs Hid|i e f m Hg Hp Hm Hq|i e f g id pe pf rest tok ptok Hg Hs Hge Ht Hpt Hat Hca Hau IH];
    intros Hdec tok' op handler tp rt (e' & f' & rest' & [= <- <- <-] & Ht') Hh Hrt Hperm.
  - exists e, f, tok'. split_and!; [done|done| |intros x Hx; exists x; split; [done|lia]].
    rewrite <-(Hgr e f tok') in Hperm by (done || apply (Hdec (e, f)); by left).
    rewrite Hg, (frame_of_signer _ _ _ _ _ Hs), Hid in Hperm. by apply check_permission_existsb.
  - exists e, f, tok'. split_and!; [done|done| |intros x Hx; exists x; split; [done|lia]].
    rewrite <-(Hgr e f tok') in Hperm by (done || apply (Hdec (e, f)); by left).
    rewrite Hg in Hperm. by apply check_permission_existsb.
  - assert (tok' = tok) as -> by congruence.
    pose proof (Hgr e f tok (Hdec (e, f) ltac:(by left)) Ht) as E1.
    pose proof (Hgr pe pf ptok (Hdec (pe, pf) ltac:(right; by left)) Hpt) as E2.
    rewrite E1, E2 in Hat. destruct Hperm as [cg Hcg].
    destruct (attenuated_authorizes _ _ _ _ _ _ _ _ _ _ Hat Hh Hrt Hcg) as (pg & Hpg & Hauth & _).
    destruct (IH (λ link Hl, Hdec link (proj2 (elem_of_cons _ _ _) (or_intror Hl))) ptok op handler tp rt)
      as (re & rf & rtok & K1 & K2 & K3 & K4); [by exists pe, pf, rest|done|done|apply with_grant_is_Some; eauto|].
    exists re, rf, rtok. split_and!; [done|done|done|]. intros x Hx. destruct (K4 x Hx) as (y & Hy & Hle).
    apply is_attenuated_inner_true in Hat as [_ Hexp]. destruct (Hexp y Hy) as (z & Hz & Hle').
    exists z. split; [done|lia].
Qed.

(** * Properties *)

(** C2. A capability chain that [verify_capability_chain] accepts is a delegation from this peer:
    every included entity is filed under its own hash; the chain follows the parent references
    from the presented capability to a root, has at most 65 links of one hash format; each link's
    grantee is an included peer, its validity interval contains the present, and its scopes are
    matchable; each link but the root is signed by its granter, who is the grantee of
    its parent, is an attenuation of the parent in the granters' frames, and respects the
    parent's caveats at its distance; and the root is signed by this peer, alone or in a
    quorum of distinct signers. *)
Theorem verify_capability_chain_sound now cap included local :
  verify_capability_chain now cap included local = Ok tt →
  (∀ h e, (h, e) ∈ included → h = content_hash e)
  ∧ ∃ chain, chain_to (λ h, bt_get h included) cap chain ∧ (length chain ≤ 65)%nat
    ∧ (∀ a b, a ∈ chain → b ∈ chain → algorithm (content_hash a.1) = algorithm (content_hash b.1))
    ∧ Forall (live now included) chain ∧ authorized included local 0 chain.
Proof.
  intros (Hk & chain & Hc & Hf & Hl & Ha)%verify_capability_chain_Ok.
  apply collect_Ok in Hc as [Hc Hlen]. eauto 10.
Qed.

(** C17. No authority is created on the way: if the chain of a capability is accepted, then every
    request on concrete targets that the presented token authorizes, in the frame of its granter,
    is authorized by the root token in this peer's own frame; and the presented
    token expires no later than the root. *)
Theorem accepted_authority_is_local now cap included local e tok op handler tp rt :
  verify_capability_chain now cap included local = Ok tt →
  bt_get cap included = Some e → token_from_entity e = Ok tok →
  dslash false (canonicalize handler local) = false →
  (∀ r, rt = Some r → concrete_targets r local) →
  is_Some (check_permission_with_grant op handler tp rt tok local (granter_frame included local (granter tok))) →
  ∃ root rtok, (∃ h, bt_get h included = Some root) ∧ token_from_entity root = Ok rtok
    ∧ parent rtok = None
    ∧ check_permission op handler tp rt rtok local = true
    ∧ (∀ x, expires_at rtok = Some x → ∃ y, expires_at tok = Some y ∧ y ≤ x).
Proof.
  intros (_ & chain & Hc & _ & _ & Ha)%verify_capability_chain_Ok He Ht Hd Hrt Hp.
  apply collect_Ok in Hc as [Hc _].
  assert (Hdec : ∀ link, link ∈ chain → decode_capability_chain_fields (data link.1) = Ok link.2).
  { intros link Hl. by eapply chain_to_elem. }
  assert (Hhd : ∃ f rest, chain = (e, f) :: rest).
  { inversion Hc as [h' e' f' Hr|h' e' f' p' c' Hr]; subst; assert (e' = e) as -> by congruence; eauto. }
  destruct Hhd as (f & rest & ->).
  destruct (authorized_authority _ _ _ _ Ha Hdec tok op handler tp rt) as (re & rf & rtok & K1 & K2 & K3 & K4);
    [eauto|done..|]. exists re, rtok. split_and!; [|done| |done|done].
  - apply last_Some_elem_of in K1. destruct (chain_to_elem _ _ _ _ Hc K1) as [_ ?]. done.
  - apply chain_to_last in Hc as (re' & rf' & E & Hpar & Hd'). rewrite K1 in E. injection E as <- <-.
    apply chain_fields_of_token in K2. rewrite Hd' in K2. injection K2 as ->. exact Hpar.
Qed.

Lemma verify_integrity_Ok env :
  verify_integrity env = Ok tt →
  entity_validate (root env) = Ok tt
  ∧ ∀ h e, (h, e) ∈ included env → h = content_hash e ∧ entity_validate e = Ok tt.
Proof.
  unfold verify_integrity. intros Hv.
  apply bind_Ok in Hv as ([] & _ & Hv). apply bind_Ok in Hv as ([] & _ & Hv).
  apply bind_Ok in Hv as ([] & Hr & Hv). apply bind_Ok in Hv as ([] & Hi & Hv).
  unfold content_valid in Hr. apply map_err_Ok in Hr. split; [done|]. intros h e Hin.
  unfold verify_included_key_binding in Hv. rewrite for_each_Ok in Hv. rewrite for_each_Ok in Hi. split.
  - specialize (Hv (h, e) Hin). by apply guard_ok_Ok, bool_decide_eq_true in Hv.
  - assert (He : e ∈ map snd (included env)).
    { change (e ∈ snd <$> included env). apply list_elem_of_fmap. by exists (h, e). }
    specialize (Hi e He). unfold content_valid in Hi. by apply map_err_Ok in Hi.
Qed.

Lemma verify_author_Ok env a :
  verify_author env a = Ok tt → ∃ id, signed_by (included env) (content_hash (root env)) a id.
Proof.
  unfold verify_author, find_signature_for, find_included. intros Hv. inv_steps.
  apply find_first_elem in Hr as [Hin Hs]. apply signs_target_true in Hs as (Hty & s & Hd).
  apply map_err_Ok in Hr0, Hr4, Hv. destruct (sig_target_agree _ _ _ _ Hd Hr0) as [Ht _].
  apply verify_peer_data_sig_Ok in Hv. exists r4. exists r, r0, r2. by split_and!.
Qed.

(** C1. A request that [verify_request_with_ctx] accepts is authentic and authorized: the root
    and every included entity hash to the key they are filed under; the author named in the
    root's data has signed the root; the presented capability is a token granted to that
    author, unexpired and already valid; its chain is a live delegation from this peer; and,
    where revocation is supported, it is not revoked. *)
Theorem verify_request_sound now now' env local sup resolve locate path_for v :
  verify_request_with_ctx now now' env local sup resolve locate path_for = Ok v →
  (entity_validate (root env) = Ok tt
   ∧ ∀ h e, (h, e) ∈ included env → h = content_hash e ∧ entity_validate e = Ok tt)
  ∧ (∃ f, decode_execute_fields (data (root env)) = Ok f
       ∧ author f = Some (v_author_hash v) ∧ capability f = Some (v_capability_hash v)
       ∧ request_id f = v_request_id v ∧ ef_uri f = v_uri v ∧ operation f = v_operation v)
  ∧ (∃ id, signed_by (included env) (content_hash (root env)) (v_author_hash v) id)
  ∧ (∃ e, bt_get (v_capability_hash v) (included env) = Some e
       ∧ token_from_entity e = Ok (v_capability v) ∧ grantee (v_capability v) = v_author_hash v)
  ∧ (∀ exp, expires_at (v_capability v) = Some exp → now < exp)
  ∧ (∀ nb, not_before (v_capability v) = Some nb → nb ≤ now)
  ∧ (∃ chain, chain_to (λ h, bt_get h (included env)) (v_capability_hash v) chain
       ∧ Forall (live now' (included env)) chain ∧ authorized (included env) local 0 chain)
  ∧ (sup = true → is_revoked (v_capability_hash v) local resolve locate path_for = false).
Proof.
  unfold verify_request_with_ctx. intros Hv. apply bind_Ok in Hv as (w & Hw & Hv).
  destruct (sup && _) eqn:Er; [done|]. injection Hv as ->.
  unfold verify_request in Hw.
  apply bind_Ok in Hw as ([] & Hi & Hw). apply bind_Ok in Hw as (f & Hf & Hw).
  apply bind_Ok in Hw as (a & Ha & Hw). apply bind_Ok in Hw as (c & Hc & Hw).
  apply bind_Ok in Hw as ([] & Hau & Hw). apply bind_Ok in Hw as (tok & Htok & Hw).
  apply bind_Ok in Hw as ([] & Hch & Hw). injection Hw as <-.
  cbn [v_author_hash v_capability_hash v_capability v_request_id v_uri v_operation] in *.
  apply ok_or_Ok in Ha, Hc. unfold verify_presented, find_included in Htok. inv_steps.
  apply map_err_Ok in Hr1. apply temporal_ok_Ok in Hr5 as [He Hn].
  destruct (verify_capability_chain_Ok _ _ _ _ Hch) as (_ & chain & Hcc & _ & Hl & Hz).
  apply collect_Ok in Hcc as [Hcc _].
  split_and!; [by apply verify_integrity_Ok | by apply verify_integrity_Ok | eauto 10 | by apply verify_author_Ok
              | eauto | done | done | eauto | intros ->; exact Er].
Qed.


(** ** Bundles *)

(** A resolver of a content-addressed store. *)
Definition addressed (resolve : Hash → option Entity) : Prop :=
  ∀ h e, resolve h = Some e → content_hash e = h.

(** Every entry of the bundle is what the store resolves its key to. *)
Definition drawn_from (resolve : Hash → option Entity) (b : gmap Hash Entity) : Prop :=
  ∀ h e, b !! h = Some e → resolve h = Some e.

Lemma drawn_insert resolve b h e :
  addressed resolve → drawn_from resolve b → resolve h = Some e →
  drawn_from resolve (<[content_hash e := e]> b) ∧ b ⊆ <[content_hash e := e]> b
  ∧ <[content_hash e := e]> b !! h = Some e.
Proof.
  intros Ha Hb Hr. pose proof (Ha h e Hr) as E. rewrite E. split_and!.
  - intros h' e'. rewrite lookup_insert_Some. intros [[-> <-]|[_ H']]; [done|by apply Hb].
  - apply map_subseteq_spec. intros h' e' H'. apply lookup_insert_Some.
    destruct (decide (h = h')) as [->|]; [left|by right]. split; [done|]. apply Hb in H'. congruence.
  - apply lookup_insert_Some. by left.
Qed.

(** A fold whose rounds only add drawn entries and each establish a stable fact. *)
Lemma foldM_grow {E A} (resolve : Hash → option Entity) (f : gmap Hash Entity → A → result E (gmap Hash Entity))
    (Q : A → gmap Hash Entity → Prop) l : ∀ b b',
  (∀ x b b', b ⊆ b' → Q x b → Q x b') →
  (∀ x b b', x ∈ l → drawn_from resolve b → f b x = Ok b' → drawn_from resolve b' ∧ b ⊆ b' ∧ Q x b') →
  drawn_from resolve b → foldM f b l = Ok b' →
  drawn_from resolve b' ∧ b ⊆ b' ∧ ∀ x, x ∈ l → Q x b'.
Proof.
  induction l as [|x l IH]; intros b b' HQ Hf Hb; cbn [foldM].
  - intros [= <-]. split_and!; [done|done|]. intros x Hx. by apply not_elem_of_nil in Hx.
  - intros Hx. apply bind_Ok in Hx as (b1 & Hx1 & Hx).
    destruct (Hf x b b1 ltac:(by left) Hb Hx1) as (K1 & K2 & K3).
    destruct (IH b1 b' HQ ltac:(intros y ? ? Hy; apply Hf; by right) K1 Hx) as (L1 & L2 & L3).
    split_and!; [done|by transitivity b1|]. intros y [->|Hy]%elem_of_cons; [|by apply L3].
    by apply (HQ x b1).
Qed.

Definition has_peer (b : gmap Hash Entity) (h : Hash) : Prop :=
  ∃ e, b !! h = Some e ∧ entity_type e = TYPE_PEER.

(** The signer's identity is in the bundle, and its signature where the store has it. *)
Definition signer_bundled (resolve : Hash → option Entity) (locate : list Z → option Hash)
    (cap_hash : Hash) (s : Hash) (b : gmap Hash Entity) : Prop :=
  ∃ e id p, b !! s = Some e ∧ entity_type e = TYPE_PEER ∧ peer_from_entity e = Ok id
    ∧ canonical_peer_id id = Some p
    ∧ ∀ sh sig, locate (invariant_signature_path p cap_hash) = Some sh → resolve sh = Some sig →
        entity_type sig = TYPE_SIGNATURE → b !! sh = Some sig.

Lemma signer_bundled_mono resolve locate c s b b' :
  b ⊆ b' → signer_bundled resolve locate c s b → signer_bundled resolve locate c s b'.
Proof.
  intros Hs (e & id & p & K1 & K2 & K3 & K4 & K5). exists e, id, p.
  split_and!; [by eapply lookup_weaken|done|done|done|]. intros sh sig ? ? ?.
  eapply lookup_weaken; [by eapply K5|done].
Qed.

Lemma resolve_peer_Ok resolve h e :
  resolve_peer resolve h = Ok e ↔ resolve h = Some e ∧ entity_type e = TYPE_PEER.
Proof.
  unfold resolve_peer. destruct (resolve h) as [e'|]; [|naive_solver].
  case_bool_decide; naive_solver.
Qed.

Lemma bundle_signer_Ok resolve locate c b s b' :
  addressed resolve → drawn_from resolve b → bundle_signer resolve locate c b s = Ok b' →
  drawn_from resolve b' ∧ b ⊆ b' ∧ signer_bundled resolve locate c s b'.
Proof.
  intros Ha Hb. unfold bundle_signer. intros Hs.
  apply bind_Ok in Hs as (e & He & Hs). apply resolve_peer_Ok in He as [He Hty].
  apply bind_Ok in Hs as (p & Hp & Hs). apply ok_or_Ok in Hp.
  destruct (peer_from_entity e) as [id|] eqn:Eid; [|done]. cbn [ok mbind option_bind] in Hp.
  destruct (drawn_insert resolve b s e Ha Hb He) as (K1 & K2 & K3).
  set (b1 := <[content_hash e:=e]> b) in *. injection Hs as <-. unfold bundle_signature.
  assert (Hbase : ∀ b2, drawn_from resolve b2 → b1 ⊆ b2 →
    (∀ sh sig, locate (invariant_signature_path p c) = Some sh → resolve sh = Some sig →
       entity_type sig = TYPE_SIGNATURE → b2 !! sh = Some sig) →
    drawn_from resolve b2 ∧ b ⊆ b2 ∧ signer_bundled resolve locate c s b2).
  { intros b2 L1 L2 L3. split_and!; [done|by transitivity b1|]. exists e, id, p.
    split_and!; try done. by eapply lookup_weaken. }
  destruct (locate _) as [sh|] eqn:El; [|apply Hbase; [done|done|congruence]].
  destruct (resolve sh) as [sig|] eqn:Er; [|apply Hbase; [done|done|congruence]].
  case_bool_decide as Ht; [|apply Hbase; [done|done|congruence]].
  destruct (drawn_insert resolve b1 sh sig Ha K1 Er) as (M1 & M2 & M3).
  apply Hbase; [done|done|]. intros sh' sig' [= <-] Hr' _. assert (sig' = sig) as -> by congruence. exact M3.
Qed.

Definition link_bundled (resolve : Hash → option Entity) (locate : list Z → option Hash)
    (link : Link) (b : gmap Hash Entity) : Prop :=
  b !! content_hash link.1 = Some link.1 ∧ has_peer b (cf_grantee link.2)
  ∧ ∀ s, s ∈ granter_signers (cf_granter link.2) → signer_bundled resolve locate (content_hash link.1) s b.

Lemma bundle_link_Ok resolve locate b link b' :
  addressed resolve → (∃ k, resolve k = Some link.1) → drawn_from resolve b →
  bundle_link resolve locate b link = Ok b' →
  drawn_from resolve b' ∧ b ⊆ b' ∧ link_bundled resolve locate link b'.
Proof.
  destruct link as [c f]. cbn [fst snd]. intros Ha [k Hk] Hb. unfold bundle_link. intros Hl.
  destruct (drawn_insert resolve b k c Ha Hb Hk) as (K1 & K2 & K3). rewrite <-(Ha k c Hk) in K3.
  apply bind_Ok in Hl as (b1 & Hs & Hl). apply bind_Ok in Hl as (g & Hg & Hl). injection Hl as <-.
  apply resolve_peer_Ok in Hg as [Hg Hty].
  destruct (foldM_grow resolve _ (signer_bundled resolve locate (content_hash c)) _ _ _
    (λ x b b', signer_bundled_mono resolve locate (content_hash c) x b b')
    (λ x b b' _, bundle_signer_Ok resolve locate (content_hash c) b x b' Ha) K1 Hs) as (L1 & L2 & L3).
  destruct (drawn_insert resolve b1 (cf_grantee f) g Ha L1 Hg) as (M1 & M2 & M3).
  split_and!; [done|by repeat (etransitivity; [eassumption|])|]. split_and!; cbn [fst snd].
  - by do 2 (eapply lookup_weaken; [|eassumption]).
  - by exists g.
  - intros s Hin. eapply signer_bundled_mono; [exact M2|by apply L3].
Qed.

Lemma link_bundled_mono resolve locate link b b' :
  b ⊆ b' → link_bundled resolve locate link b → link_bundled resolve locate link b'.
Proof.
  intros Hs (K1 & (g & Hg & Ht) & K3). split_and!.
  - by eapply lookup_weaken.
  - exists g. split; [by eapply lookup_weaken|done].
  - intros s Hin. eapply signer_bundled_mono; [done|by apply K3].
Qed.

Lemma chain_to_ext resolve resolve' h chain :
  chain_to resolve h chain → addressed resolve →
  (∀ link, link ∈ chain → resolve' (content_hash link.1) = Some link.1) → chain_to resolve' h chain.
Proof.
  intros Hc Ha. induction Hc as [h e f Hr Hd Hp|h e f p chain Hr Hd Hp Hc IH]; intros Hb.
  - apply chain_to_root; [|done|done]. rewrite <-(Ha h e Hr). apply (Hb (e, f)). by left.
  - eapply chain_to_link; [|done|done|].
    + rewrite <-(Ha h e Hr). apply (Hb (e, f)). by left.
    + apply IH. intros link Hl. apply Hb. by right.
Qed.

(** A bundle is enough for the remote verifier: over a content-addressed store, when
    [collect_chain_bundle] succeeds, walking the chain in the bundle alone gives the chain the
    store gives; every link's grantee and every granter or signer is there as a peer
    entity with a canonical id, together with each signature the store locates; and the
    bundle holds nothing the store does not resolve. *)
Theorem collect_chain_bundle_complete leaf resolve locate b :
  addressed resolve → collect_chain_bundle leaf resolve locate = Ok b →
  ∃ chain, collect_authority_chain leaf resolve = Ok chain
    ∧ collect_authority_chain leaf (λ h, b !! h) = Ok chain
    ∧ (∀ link, link ∈ chain → link_bundled resolve locate link b)
    ∧ (∀ h e, b !! h = Some e → resolve h = Some e).
Proof.
  unfold collect_chain_bundle. intros Ha Hb. apply bind_Ok in Hb as (chain & Hc & Hb).
  apply collect_Ok in Hc as [Hct Hlen].
  destruct (foldM_grow resolve (bundle_link resolve locate) (link_bundled resolve locate) chain ∅ b
    (link_bundled_mono resolve locate)) as (K1 & _ & K3); [|done|done|].
  - intros link b1 b2 Hl. apply bundle_link_Ok; [done|]. by eapply chain_to_elem.
  - exists chain. split_and!; [by apply collect_Ok| |done|done].
    apply collect_Ok. split; [|done]. eapply chain_to_ext; [done|done|].
    intros link Hl. by apply K3.
Qed.

(** ** Consumers of the walk *)

Lemma explicitly_enumerates_true pat target :
  explicitly_enumerates pat target = true ↔
  ch_star ∉ pat ∧ (target = pat ∨ ∃ r, target = pat ++ ch_slash :: r ∨ (last pat = Some ch_slash ∧ target = pat ++ r)).
Proof.
  unfold explicitly_enumerates. destruct (contains_byte ch_star pat) eqn:Es.
  { apply contains_byte_true in Es. naive_solver. }
  apply contains_byte_false in Es. case_bool_decide as Ep; [naive_solver|].
  case_bool_decide as El; rewrite starts_with_true; split.
  - intros [r ->]. split; [done|]. right. exists r. by right.
  - intros [_ [->|(r & [->|[_ ->]])]]; [done| |]; [by exists (ch_slash :: r)|by exists r].
  - intros [r ->]. split; [done|]. right. exists r. left. by rewrite <-app_assoc.
  - intros [_ [->|(r & [->|[? ?]])]]; [done| |done]. exists r. by rewrite <-app_assoc.
Qed.

Lemma collect_last leaf resolve chain :
  collect_authority_chain leaf resolve = Ok chain →
  ∃ e f, last chain = Some (e, f) ∧ cf_parent f = None.
Proof. intros [Hc _]%collect_Ok. apply chain_to_last in Hc as (e & f & ? & ? & _). eauto. Qed.

Lemma is_revoked_false leaf local resolve locate path_for :
  is_revoked leaf local resolve locate path_for = false ↔
  ∃ chain root f, collect_authority_chain leaf resolve = Ok chain ∧ last chain = Some (root, f)
    ∧ (∀ p, path_for (content_hash root) = Some p → locate p = Some (content_hash root))
    ∧ locate ([ch_slash] ++ local ++ lit "/system/capability/revocations/" ++ to_hex (content_hash root)) = None.
Proof.
  unfold is_revoked. destruct (collect_authority_chain leaf resolve) as [chain|e] eqn:Ec;
    [|split; [done|]; intros (? & ? & ? & [=] & _)].
  destruct (collect_last _ _ _ Ec) as (root & f & El & _). rewrite El.
  set (mp := _ ++ local ++ _).
  transitivity ((∀ p, path_for (content_hash root) = Some p → locate p = Some (content_hash root)) ∧ locate mp = None).
  - destruct (path_for (content_hash root)) as [p|].
    + destruct (locate p) as [b|] eqn:Elp; [|naive_solver].
      case_bool_decide as Eb.
      * rewrite bool_decide_eq_false, <-eq_None_not_Some. naive_solver.
      * split; [done|]. intros [Hp _]. specialize (Hp p eq_refl). congruence.
    + rewrite bool_decide_eq_false, <-eq_None_not_Some. naive_solver.
  - split; [intros [? ?]; by exists chain, root, f|].
    intros (c & r & f' & [= <-] & El' & ?). rewrite El in El'. by injection El' as <- <-.
Qed.

Lemma is_operator_class_for_true leaf target root_id resolve :
  is_operator_class_for leaf target root_id resolve = true ↔
  ∃ chain root f, collect_authority_chain leaf resolve = Ok chain ∧ last chain = Some (root, f)
    ∧ cf_granter f = Single root_id
    ∧ ∀ link, link ∈ chain → ∃ tok, token_from_entity link.1 = Ok tok ∧ enumerated_by target tok = true.
Proof.
  unfold is_operator_class_for. destruct (collect_authority_chain leaf resolve) as [chain|e] eqn:Ec;
    [|split; [done|]; intros (? & ? & ? & [=] & _)].
  destruct (collect_last _ _ _ Ec) as (root & f & El & Ep). rewrite El, Ep.
  rewrite bool_decide_eq_false_2 by (by intros [? ?]).
  transitivity (cf_granter f = Single root_id
    ∧ ∀ link, link ∈ chain → ∃ tok, token_from_entity link.1 = Ok tok ∧ enumerated_by target tok = true).
  - destruct (cf_granter f) as [g|m]; [|naive_solver]. case_bool_decide as Eg; cbn [negb]; [|naive_solver].
    rewrite forallb_elem. split.
    + intros Hl. split; [by subst|]. intros link Hin. specialize (Hl link Hin).
      destruct (token_from_entity link.1) as [tok|]; [by exists tok|done].
    + intros [_ Hl] link Hin. destruct (Hl link Hin) as (tok & -> & ?). done.
  - split; [intros [? ?]; by exists chain, root, f|].
    intros (c & r & f' & [= <-] & El' & ?). rewrite El in El'. by injection El' as <- <-.
Qed.

(** The consumers of the chain walk fail closed.  A capability counts as not revoked exactly
    when its whole chain resolves, its root is still bound at its storage path if it has one, and
    no revocation marker names the root.  A chain is operator-class exactly when it resolves to a
    root granted by the given identity alone and every link decodes and names the target or
    an ancestor of it without a wildcard.  A creator is found exactly at a link it granted
    alone, or as a signer of a quorum that it has signed. *)
Theorem chain_consumers_fail_closed leaf local resolve locate path_for target root_id identity inc found ch :
  (is_revoked leaf local resolve locate path_for = false ↔
     ∃ chain root f, collect_authority_chain leaf resolve = Ok chain ∧ last chain = Some (root, f)
       ∧ (∀ p, path_for (content_hash root) = Some p → locate p = Some (content_hash root))
       ∧ locate ([ch_slash] ++ local ++ lit "/system/capability/revocations/" ++ to_hex (content_hash root)) = None)
  ∧ (is_operator_class_for leaf target root_id resolve = true ↔
     ∃ chain root f, collect_authority_chain leaf resolve = Ok chain ∧ last chain = Some (root, f)
       ∧ cf_granter f = Single root_id
       ∧ ∀ link, link ∈ chain → ∃ tok g pat, token_from_entity link.1 = Ok tok ∧ g ∈ grants tok
           ∧ pat ∈ ps_include (g_resources g) ∧ ch_star ∉ pat
           ∧ (target = pat ∨ ∃ r, target = pat ++ ch_slash :: r ∨ (last pat = Some ch_slash ∧ target = pat ++ r)))
  ∧ (check_creator_authority leaf identity inc resolve = Ok (found, ch) →
     ∃ chain, collect_authority_chain leaf resolve = Ok chain ∧ ch = map fst chain
       ∧ (found = true → ∃ link, link ∈ chain ∧
            (cf_granter link.2 = Single identity
             ∨ ∃ m sig sd w id, cf_granter link.2 = Multi m ∧ identity ∈ signers m
                 ∧ sig ∈ map snd inc ∧ signature_from_entity sig = Ok sd
                 ∧ sig_target sd = content_hash link.1 ∧ sig_signer sd = identity
                 ∧ resolve identity = Some w ∧ peer_from_entity w = Ok id
                 ∧ peer_data_sig_ok id (to_bytes (content_hash link.1)) (sig_bytes sd) = true))
       ∧ (found = false → ∀ link, link ∈ chain → cf_granter link.2 ≠ Single identity)).
Proof.
  split_and!; [apply is_revoked_false | |].
  - rewrite is_operator_class_for_true. do 3 (f_equiv; intros ?). do 3 f_equiv.
    apply forall_proper; intros link. apply forall_proper; intros _. apply exist_proper; intros tok.
    unfold enumerated_by. rewrite existsb_elem. setoid_rewrite existsb_elem.
    setoid_rewrite explicitly_enumerates_true. naive_solver.
  - unfold check_creator_authority. intros Hc. apply bind_Ok in Hc as (chain & Hc & [= <- <-]).
    exists chain. split_and!; [done|done| |].
    + rewrite existsb_elem. intros ([e f] & Hin & Hl). exists (e, f). split; [done|].
      cbn [fst snd creator_link] in *. destruct (cf_granter f) as [g|m].
      { left. by apply bool_decide_eq_true in Hl as ->. }
      right. destruct (existsb _ (signers m)) eqn:Es; cbn [negb] in Hl; [|done].
      apply existsb_elem in Es as (s & Hs & ->%bool_decide_eq_true).
      destruct (find_signature_by_signer _ _ _) as [sig|] eqn:Ef; [|done].
      destruct (signature_from_entity sig) as [sd|] eqn:Esd; [|done].
      destruct (resolve identity) as [w|]; [|done]. destruct (peer_from_entity w) as [id|] eqn:Ew; [|done].
      apply find_first_elem in Ef as [Hsin Hsig]. apply signs_target_by_true in Hsig as (_ & Hd).
      destruct (sig_target_agree _ _ _ _ Hd Esd). exists m, sig, sd, w, id. by split_and!.
    + intros Hf [e f] Hin Hg. apply not_true_iff_false in Hf. destruct Hf. apply existsb_elem.
      exists (e, f). split; [done|]. cbn [snd creator_link] in *. rewrite Hg. by apply bool_decide_eq_true.
Qed.
End verify.

(** A two-link chain to evaluate the verifier on: [demo_root], from the local peer to a second
    one, and [demo_leaf], from that one on; signatures repeat the key's first byte, peer ids
    repeat a letter. *)
Definition demo_digest (n : nat) (m : list Z) : list Z :=
  replicate (n - 2) 0 ++ [foldl (λ acc b, (acc * 3 + b) mod 256) 7 m; Z.of_nat (length m) mod 256].
Definition demo_sha2 : Sha2 := {| sha256 := demo_digest 32; sha384 := demo_digest 48 |}.
Definition demo_base58 : Base58 :=
  {| b58_encode := λ l, replicate 46 (96 + nth 2 l 0); b58_decode := λ _, None |}.
Definition demo_schemes : SignatureSchemes :=
  {| ed25519_key := λ _, true; ed25519_verify := λ pk _ s, bool_decide (s = replicate 64 (nth 0 pk 0));
     ed448_key := λ _, false; ed448_signature := λ _, false; ed448_verify := λ _ _ _, false |}.

Definition or_empty {E} (r : result E Entity) : Entity :=
  match r with Ok e => e | Err _ => mkEntity [] [] hash_zero end.

Section demo.
Let sha2 : Sha2 := demo_sha2.

Definition demo_peer (b : Z) : Entity :=
  or_empty (@peer_entity_from_components_with_key_type sha2 (replicate 32 b) Ed25519).
Definition demo_id (b : Z) : list Z := replicate 46 (96 + b).
Definition demo_cap (t : CapabilityToken) : Entity := or_empty (@token_to_entity sha2 0 t).
Definition demo_sig (b : Z) (e : Entity) : Entity :=
  or_empty (@signature_to_entity sha2 0
    (mkSignature (content_hash e) (content_hash (demo_peer b)) (lit "ed25519") (replicate 64 b))).

Definition demo_grant (resource : list Z) : GrantEntry :=
  mkGrant (path_scope_new [lit "system/tree"]) (path_scope_new [resource]) (id_scope_new [lit "get"])
    None None None.
Definition demo_root : Entity := Eval vm_compute in
  demo_cap (mkToken [demo_grant (lit "docs/*")] (Single (content_hash (demo_peer 1)))
              (content_hash (demo_peer 2)) None 10 (Some 100) None None).
Definition demo_leaf_token : CapabilityToken := Eval vm_compute in
  mkToken [demo_grant (ch_slash :: demo_id 1 ++ lit "/docs/pub/*")] (Single (content_hash (demo_peer 2)))
    (content_hash (demo_peer 1)) (Some (content_hash demo_root)) 20 (Some 90) None None.
Definition demo_leaf : Entity := Eval vm_compute in demo_cap demo_leaf_token.
Definition demo_included : list (Hash * Entity) := Eval vm_compute in
  foldl (λ m e, bt_insert (content_hash e) e m) []
    [demo_peer 1; demo_peer 2; demo_root; demo_leaf; demo_sig 1 demo_root; demo_sig 2 demo_leaf].
End demo.

Definition demo_target : ResourceTarget := mkTarget [lit "docs/pub/x"] [].

(** On the sample chain. *)
Lemma verify_capability_chain_sound_witness :
  let C := ref_ciborium in let S := demo_sha2 in let B := demo_base58 in
  let K := demo_schemes in let W := ref_writer in
  ∃ chain, chain_to (λ h, bt_get h demo_included) (content_hash demo_leaf) chain
    ∧ authorized demo_included (demo_id 1) 0 chain.
Proof.
  intros C S B K W.
  destruct (@verify_capability_chain_sound C S B K W 50 (content_hash demo_leaf) demo_included (demo_id 1))
    as (_ & chain & Hc & _ & _ & _ & Ha); [vm_compute; reflexivity|].
  by exists chain.
Defined.

(** For a read below [docs/pub]. *)
Lemma accepted_authority_is_local_witness :
  let C := ref_ciborium in let S := demo_sha2 in let B := demo_base58 in
  let K := demo_schemes in let W := ref_writer in
  ∃ rtok, parent rtok = None
    ∧ check_permission (lit "get") (lit "system/tree") (demo_id 1) (Some demo_target) rtok (demo_id 1) = true.
Proof.
  intros C S B K W.
  destruct (@accepted_authority_is_local C S B K W 50 (content_hash demo_leaf) demo_included (demo_id 1)
    demo_leaf demo_leaf_token (lit "get") (lit "system/tree") (demo_id 1) (Some demo_target))
    as (root & rtok & _ & _ & Hp & Hc & _).
  - vm_compute. reflexivity.
  - vm_compute. reflexivity.
  - vm_compute. reflexivity.
  - vm_compute. reflexivity.
  - intros r [= <-]. repeat constructor.
  - vm_compute. by eexists.
  - by exists rtok.
Defined.

(** A request of the local peer under the sample chain. *)
Definition demo_execute : Entity := Eval vm_compute in
  or_empty (@entity_new demo_sha2 0 (lit "system/protocol/execute") (to_ecf (VMap
    [(text (lit "author"), hash_value (content_hash (demo_peer 1)));
     (text (lit "capability"), hash_value (content_hash demo_leaf));
     (text (lit "operation"), text (lit "get"));
     (text (lit "request_id"), text (lit "r1"));
     (text (lit "uri"), text (lit "system/tree"))]))).
Definition demo_envelope : Envelope :=
  let sig := demo_sig 1 demo_execute in
  mkEnvelope demo_execute (bt_insert (content_hash sig) sig demo_included).

(** On the sample request. *)
Lemma verify_request_sound_witness :
  let C := ref_ciborium in let S := demo_sha2 in let B := demo_base58 in
  let K := demo_schemes in let W := ref_writer in
  ∃ v, verify_request_with_ctx 50 50 demo_envelope (demo_id 1) true (λ h, bt_get h demo_included)
         (λ _, None) (λ _, None) = Ok v
    ∧ ∃ id, signed_by (included demo_envelope) (content_hash (root demo_envelope)) (v_author_hash v) id.
Proof.
  intros C S B K W.
  assert (Hok : is_ok (verify_request_with_ctx 50 50 demo_envelope (demo_id 1) true
    (λ h, bt_get h demo_included) (λ _, None) (λ _, None)) = true) by (vm_compute; reflexivity).
  destruct (verify_request_with_ctx 50 50 demo_envelope (demo_id 1) true (λ h, bt_get h demo_included)
    (λ _, None) (λ _, None)) as [v|e] eqn:E; [clear Hok|discriminate Hok].
  pose proof (@verify_request_sound C S B K W _ _ _ _ _ _ _ _ _ E) as (_ & _ & Hs & _).
  exists v. split; [reflexivity|exact Hs].
Defined.

Lemma bt_get_in {V} (m : list (Hash * V)) k v : bt_get k m = Some v → (k, v) ∈ m.
Proof.
  induction m as [|[k' v'] m IH]; cbn [bt_get]; [done|]. destruct (cmp k k') eqn:E; [|done|].
  - intros [= ->]. apply cmp_eq in E as ->. by left.
  - intros Hg. right. by apply IH.
Qed.

(** For the bundle of the sample chain. *)
Lemma collect_chain_bundle_complete_witness :
  let C := ref_ciborium in let S := demo_sha2 in let B := demo_base58 in
  ∃ b chain, collect_chain_bundle (content_hash demo_leaf) (λ h, bt_get h demo_included) (λ _, None) = Ok b
    ∧ collect_authority_chain (content_hash demo_leaf) (λ h, b !! h) = Ok chain
    ∧ map fst chain = [demo_leaf; demo_root].
Proof.
  intros C S B.
  assert (Hok : is_ok (collect_chain_bundle (content_hash demo_leaf) (λ h, bt_get h demo_included)
    (λ _, None)) = true) by (vm_compute; reflexivity).
  destruct (collect_chain_bundle (content_hash demo_leaf) (λ h, bt_get h demo_included) (λ _, None))
    as [b|e] eqn:E; [clear Hok|discriminate Hok].
  assert (Ha : addressed (λ h, bt_get h demo_included)).
  { intros h e Hg. apply bt_get_in in Hg.
    assert (Hall : Forall (λ kv, content_hash kv.2 = kv.1) demo_included).
    { apply (bool_decide_unpack _). vm_compute. reflexivity. }
    rewrite Forall_forall in Hall. by apply (Hall (h, e)). }
  pose proof (@collect_chain_bundle_complete C S B _ _ _ _ Ha E) as (chain & Hc & Hb & _).
  exists b, chain. split; [reflexivity|]. split; [exact Hb|].
  assert (Hm : map fst <$> ok (collect_authority_chain (content_hash demo_leaf) (λ h, bt_get h demo_included))
               = Some [demo_leaf; demo_root]) by (vm_compute; reflexivity).
  rewrite Hc in Hm. by injection Hm.
Defined.

(** For the second peer, which granted the leaf. *)
Lemma chain_consumers_fail_closed_witness :
  let C := ref_ciborium in let B := demo_base58 in let K := demo_schemes in
  ∃ chain, collect_authority_chain (content_hash demo_leaf) (λ h, bt_get h demo_included) = Ok chain
    ∧ [demo_leaf; demo_root] = map fst chain.
Proof.
  intros C B K.
  destruct (@chain_consumers_fail_closed C K (content_hash demo_leaf) (demo_id 1)
    (λ h, bt_get h demo_included) (λ _, None) (λ _, None) [] hash_zero (content_hash (demo_peer 2))
    demo_included true [demo_leaf; demo_root]) as (_ & _ & H).
  destruct H as (chain & Hc & He & _); [vm_compute; reflexivity|].
  exists chain. split; [exact Hc|exact He].
Defined.
