(* ===== verification/Store.v ===== *)
(** Stores and the emit pathway ([core/store/src/lib.rs]).

    [MemoryContentStore] and [MemoryLocationIndex] are ordered maps; the two notifying
    wrappers run synchronous hooks on every change and then broadcast it.  A hook may itself
    write to the index, which dispatches again: a hook is a tree of store operations
    ([Act]), and the depth counter bounds the nesting.  Locks are not modelled: a run is one
    thread's.  The [tracing] calls have no effect on the state. *)
From S2P Require Import Prelude BTree ContentHash Paths Entity.

(** * Content store *)

Definition ContentMap := list (Hash * Entity).

Definition content_put (m : ContentMap) (e : Entity) : Hash * ContentMap :=
  let hash := content_hash e in (hash, bt_insert hash e m).
Definition content_get (m : ContentMap) (h : Hash) : option Entity := bt_get h m.
Definition content_has (m : ContentMap) (h : Hash) : bool := bool_decide (is_Some (bt_get h m)).
Definition content_remove (m : ContentMap) (h : Hash) : bool * ContentMap :=
  (bool_decide (is_Some (bt_get h m)), bt_remove h m).
Definition content_len (m : ContentMap) : nat := length m.
Definition content_entries (m : ContentMap) : list (Hash * Entity) := m.

(** * Location index *)

Inductive CasError := Mismatch (current : Hash) | NotFound.

Record LocationEntry := mkLocation { le_path : list Z; le_hash : Hash }.

(** [char::is_control] on UTF-8 bytes: U+0000-U+001F, U+007F and U+0080-U+009F. *)
Fixpoint has_control (l : list Z) : bool :=
  match l with
  | [] => false
  | b :: l' =>
      (b <? 32) || (b =? 127)
      || match l' with b' :: _ => (b =? 0xC2) && (128 <=? b') && (b' <=? 159) | [] => false end
      || has_control l'
  end.

Definition path_is_storable (path : list Z) : bool :=
  if bool_decide (path = []) || bool_decide (path = NEVER_MATCH) then false
  else if contains_sub (lit "//") path || has_control path then false
  else negb (existsb (λ segment, bool_decide (segment = lit ".") || bool_decide (segment = lit ".."))
               (split_on ch_slash path)).

Definition PathMap := list (list Z * Hash).

Definition index_set (m : PathMap) (path : list Z) (h : Hash) : PathMap :=
  if negb (path_is_storable path) then m else bt_insert path h m.
Definition index_get (m : PathMap) (path : list Z) : option Hash := bt_get path m.
Definition index_has (m : PathMap) (path : list Z) : bool := bool_decide (is_Some (bt_get path m)).
Definition index_remove (m : PathMap) (path : list Z) : option Hash * PathMap :=
  (bt_get path m, bt_remove path m).

(** [iter.take_while(p)] *)
Fixpoint take_while {A} (p : A → bool) (l : list A) : list A :=
  match l with [] => [] | x :: l' => if p x then x :: take_while p l' else [] end.

(** [paths.range(prefix..)] *)
Definition range_from (prefix : list Z) (m : PathMap) : PathMap :=
  filter (λ kv, cmp kv.1 prefix ≠ Lt) m.

Definition prefix_range (m : PathMap) (prefix : list Z) : PathMap :=
  take_while (λ kv, starts_with kv.1 prefix) (range_from prefix m).

Definition index_list (m : PathMap) (prefix : list Z) : list LocationEntry :=
  map (λ kv, mkLocation kv.1 kv.2) (prefix_range m prefix).

Definition index_len_prefix (m : PathMap) (prefix : list Z) : nat :=
  if bool_decide (prefix = []) then length m else length (prefix_range m prefix).

Definition compare_and_swap (m : PathMap) (path : list Z) (expected new_hash : Hash)
    : result CasError unit * PathMap :=
  match bt_get path m with
  | Some current =>
      if bool_decide (current = expected) then (Ok tt, bt_insert path new_hash m)
      else (Err (Mismatch current), m)
  | None => (Err NotFound, m)
  end.

Definition compare_and_remove (m : PathMap) (path : list Z) (expected : Hash)
    : result CasError Hash * PathMap :=
  match bt_get path m with
  | Some current =>
      if bool_decide (current = expected) then (Ok current, bt_remove path m)
      else (Err (Mismatch current), m)
  | None => (Err NotFound, m)
  end.

Definition compare_and_create (m : PathMap) (path : list Z) (new_hash : Hash)
    : result CasError unit * PathMap :=
  match bt_get path m with
  | Some current => (Err (Mismatch current), m)
  | None => (Ok tt, bt_insert path new_hash m)
  end.

(** * Events and contexts *)

Inductive ChangeType := Created | Modified | Deleted.

Record ClockHlc := mkHlc { physical : Z; hlc_logical : Z; hlc_peer : Hash }.
Record ClockState := mkClock {
  clock_mode : list Z; clock_timestamp : option Z; clock_logical : option Z;
  clock_vector : option (gmap (list Z) Z); clock_hlc : option ClockHlc;
}.

Record ExecutionContext := mkContext {
  chain_id : option (list Z); cx_author : option Hash; caller_capability : option Hash;
  cx_request_id : option (list Z);
  cx_cascade_depth : Z;
  cx_capability : option Hash; handler_grant : option Hash;
  cx_handler_pattern : option (list Z); cx_operation : option (list Z);
  parent_chain_id : option (list Z);
  clock : option ClockState;
}.

Definition default_context : ExecutionContext :=
  mkContext None None None None 0 None None None None None None.

Definition with_depth (ctx : ExecutionContext) (d : Z) : ExecutionContext :=
  mkContext (chain_id ctx) (cx_author ctx) (caller_capability ctx) (cx_request_id ctx) d
    (cx_capability ctx) (handler_grant ctx) (cx_handler_pattern ctx) (cx_operation ctx)
    (parent_chain_id ctx) (clock ctx).

(** The four per-write fields. *)
Definition with_per_write (ctx : ExecutionContext) (cap grant : option Hash) (pattern op : option (list Z))
    : ExecutionContext :=
  mkContext (chain_id ctx) (cx_author ctx) (caller_capability ctx) (cx_request_id ctx)
    (cx_cascade_depth ctx) cap grant pattern op (parent_chain_id ctx) (clock ctx).

Record TreeChangeEvent := mkEvent {
  ev_path : list Z; ev_hash : Hash; previous_hash : option Hash; new_hash : option Hash;
  change_type : ChangeType; ev_context : option ExecutionContext;
}.

Definition CASCADE_DEPTH_LIMIT : Z := 32.

Record CascadeHalt := mkHalt {
  consumer_name : list Z; error_code : Z; error_message : list Z; is_error : bool;
}.

Record CascadeResult := mkCascade {
  binding_committed : bool;
  consumers_completed : list (list Z);
  consumers_halted : list CascadeHalt;
  consumers_errored : list CascadeHalt;
  consumers_skipped : list (list Z);
  cascade_depth : Z;
}.

Definition is_complete (r : CascadeResult) : bool :=
  bool_decide (consumers_halted r = []) && bool_decide (consumers_errored r = []) && binding_committed r.
Definition empty_success : CascadeResult := mkCascade true [] [] [] [] 0.
Definition success (consumers : list (list Z)) (depth : Z) : CascadeResult :=
  mkCascade true consumers [] [] [] depth.
Definition rejected (halt : CascadeHalt) (depth : Z) : CascadeResult :=
  mkCascade false [] [halt] [] [] depth.

Definition system_halt (code : Z) (message : list Z) : CascadeHalt := mkHalt (lit "system") code message false.
Definition invalid_path (path : list Z) (e : PathError) : CascadeHalt :=
  system_halt 400 (lit "invalid path: " ++ absolute_path_error path e).
Definition depth_exceeded : CascadeHalt := system_halt 500 (lit "cascade_depth_exceeded").
Definition cross_peer_depth_exceeded : CascadeHalt := system_halt 500 (lit "cross_peer_cascade_depth_exceeded").

(** * The notifying location index *)

(** The index methods a hook may call; a write without a context passes [None]. *)
Inductive StoreOp :=
  | OpSet (path : list Z) (h : Hash) (ctx : option ExecutionContext)
  | OpRemove (path : list Z) (ctx : option ExecutionContext)
  | OpSwap (path : list Z) (expected new : Hash) (ctx : option ExecutionContext)
  | OpCasRemove (path : list Z) (expected : Hash) (ctx : option ExecutionContext)
  | OpCreate (path : list Z) (new : Hash) (ctx : option ExecutionContext)
  | OpGet (path : list Z)
  | OpList (prefix : list Z).

Definition reply (op : StoreOp) : Type :=
  match op with
  | OpSet _ _ _ => CascadeResult
  | OpRemove _ _ => option Hash * CascadeResult
  | OpSwap _ _ _ _ => result CasError CascadeResult
  | OpCasRemove _ _ _ => result CasError (Hash * CascadeResult)
  | OpCreate _ _ _ => result CasError CascadeResult
  | OpGet _ => option Hash
  | OpList _ => list LocationEntry
  end.

(** What a hook does: store operations, each continuing on its reply, then a result. *)
Inductive Act (A : Type) : Type :=
  | Ret (a : A)
  | Do (op : StoreOp) (k : reply op → Act A).
Arguments Ret {A} a.
Arguments Do {A} op k.

Record SyncTreeHook := mkHook {
  hook_name : list Z;
  hook_pattern : list Z;
  on_tree_change : TreeChangeEvent → ExecutionContext → Act (result CascadeHalt unit * ExecutionContext);
}.

(** The state behind the index: the bindings of the inner index, the two depth
    counters, and the events broadcast so far, latest last. *)
Record World := mkWorld {
  paths : PathMap;
  w_cascade_depth : Z;
  chain_cascade_depths : gmap (list Z) Z;
  broadcasts : list TreeChangeEvent;
}.

Definition with_paths (w : World) (m : PathMap) : World :=
  mkWorld m (w_cascade_depth w) (chain_cascade_depths w) (broadcasts w).
Definition with_world_depth (w : World) (d : Z) : World :=
  mkWorld (paths w) d (chain_cascade_depths w) (broadcasts w).
Definition with_chain_depth (w : World) (c : list Z) (d : Z) : World :=
  mkWorld (paths w) (w_cascade_depth w) (<[c := d]> (chain_cascade_depths w)) (broadcasts w).
Definition with_broadcast (w : World) (e : TreeChangeEvent) : World :=
  mkWorld (paths w) (w_cascade_depth w) (chain_cascade_depths w) (broadcasts w ++ [e]).

(** The result of a run; [None] is a run the fuel did not cover. *)
Notation Run A := (option (A * World)).

Definition Dispatch : Type :=
  list Z → Hash → option Hash → option Hash → ChangeType → option ExecutionContext → World → Run CascadeResult.

Section operations.
Context (dispatch_event : Dispatch).

Definition set_impl (path : list Z) (h : Hash) (context : option ExecutionContext) (w : World)
    : Run CascadeResult :=
  match validate_absolute_path path with
  | Err e => Some (rejected (invalid_path path e) 0, w)
  | Ok _ =>
      if CASCADE_DEPTH_LIMIT <=? w_cascade_depth w
      then Some (rejected depth_exceeded (w_cascade_depth w), w)
      else
        let previous := index_get (paths w) path in
        let w := with_paths w (index_set (paths w) path h) in
        match previous with
        | Some prev =>
            if bool_decide (prev = h) then Some (empty_success, w)
            else dispatch_event path h (Some prev) (Some h) Modified context w
        | None => dispatch_event path h None (Some h) Created context w
        end
  end.

(** The two refusals that precede every compare-and-set operation. *)
Definition cas_refused (path : list Z) (w : World) : bool :=
  negb (is_ok (validate_absolute_path path)) || (CASCADE_DEPTH_LIMIT <=? w_cascade_depth w).

Definition cas_swap_impl (path : list Z) (expected new : Hash) (context : option ExecutionContext)
    (w : World) : Run (result CasError CascadeResult) :=
  if cas_refused path w then Some (Err (Mismatch expected), w)
  else
    let '(r, m) := compare_and_swap (paths w) path expected new in
    let w := with_paths w m in
    match r with
    | Err e => Some (Err e, w)
    | Ok _ =>
        if bool_decide (expected = new) then Some (Ok empty_success, w)
        else
          '(c, w) ← dispatch_event path new (Some expected) (Some new) Modified context w;
          Some (Ok c, w)
    end.

Definition cas_remove_impl (path : list Z) (expected : Hash) (context : option ExecutionContext)
    (w : World) : Run (result CasError (Hash * CascadeResult)) :=
  if cas_refused path w then Some (Err (Mismatch expected), w)
  else
    let '(r, m) := compare_and_remove (paths w) path expected in
    let w := with_paths w m in
    match r with
    | Err e => Some (Err e, w)
    | Ok removed =>
        '(c, w) ← dispatch_event path removed (Some removed) None Deleted context w;
        Some (Ok (removed, c), w)
    end.

Definition cas_create_impl (path : list Z) (new : Hash) (context : option ExecutionContext)
    (w : World) : Run (result CasError CascadeResult) :=
  if cas_refused path w then Some (Err (Mismatch hash_zero), w)
  else
    let '(r, m) := compare_and_create (paths w) path new in
    let w := with_paths w m in
    match r with
    | Err e => Some (Err e, w)
    | Ok _ =>
        '(c, w) ← dispatch_event path new None (Some new) Created context w;
        Some (Ok c, w)
    end.

Definition remove_impl (path : list Z) (context : option ExecutionContext) (w : World)
    : Run (option Hash * CascadeResult) :=
  match validate_absolute_path path with
  | Err e => Some ((None, rejected (invalid_path path e) 0), w)
  | Ok _ =>
      if CASCADE_DEPTH_LIMIT <=? w_cascade_depth w
      then Some ((None, rejected depth_exceeded (w_cascade_depth w)), w)
      else
        let '(removed, m) := index_remove (paths w) path in
        let w := with_paths w m in
        match removed with
        | Some prev =>
            '(c, w) ← dispatch_event path prev (Some prev) None Deleted context w;
            Some ((Some prev, c), w)
        | None => Some ((None, empty_success), w)
        end
  end.

Definition run_op (op : StoreOp) (w : World) : Run (reply op) :=
  match op return Run (reply op) with
  | OpSet path h ctx => set_impl path h ctx w
  | OpRemove path ctx => remove_impl path ctx w
  | OpSwap path e n ctx => cas_swap_impl path e n ctx w
  | OpCasRemove path e ctx => cas_remove_impl path e ctx w
  | OpCreate path n ctx => cas_create_impl path n ctx w
  | OpGet path => Some (index_get (paths w) path, w)
  | OpList prefix => Some (index_list (paths w) prefix, w)
  end.

Fixpoint run_act {A} (a : Act A) (w : World) : Run A :=
  match a with
  | Ret x => Some (x, w)
  | Do op k => '(r, w) ← run_op op w; run_act (k r) w
  end.

(** The loop over the hooks from Phase 1, then the broadcast of Phase 2. *)
Fixpoint run_hooks (hooks : list SyncTreeHook) (event : TreeChangeEvent) (completed : list (list Z))
    (ctx : ExecutionContext) (w : World) : Run CascadeResult :=
  match hooks with
  | [] =>
      let settled := mkEvent (ev_path event) (ev_hash event) (previous_hash event) (new_hash event)
                       (change_type event) (Some ctx) in
      Some (success completed (cx_cascade_depth ctx), with_broadcast w settled)
  | hook :: rest =>
      let hook_ctx := with_per_write ctx None None (Some (hook_pattern hook)) (Some (hook_name hook)) in
      '((res, ctx'), w) ← run_act (on_tree_change hook event hook_ctx) w;
      let ctx := with_per_write ctx' (cx_capability ctx) (handler_grant ctx)
                   (cx_handler_pattern ctx) (cx_operation ctx) in
      match res with
      | Ok _ => run_hooks rest event (completed ++ [hook_name hook]) ctx w
      | Err halt =>
          let skipped := map hook_name rest in
          let '(halted, errored) := if is_error halt then ([], [halt]) else ([halt], []) in
          Some (mkCascade true completed halted errored skipped (cx_cascade_depth ctx), w)
      end
  end.
End operations.

(** [dispatch_event]: hooks run with one level of fuel less. The guard resets the depth
    on every exit. *)
Fixpoint dispatch_event (hooks : list SyncTreeHook) (fuel : nat) : Dispatch :=
  λ path h prev new change context w,
  match fuel with
  | O => None
  | S fuel' =>
      let w := with_world_depth w (w_cascade_depth w + 1) in
      let depth := w_cascade_depth w in
      let ctx := with_depth (default default_context context) depth in
      let body w :=
        let event := mkEvent path h prev new change (Some ctx) in
        run_hooks (dispatch_event hooks fuel') hooks event [] ctx w in
      '(r, w) ←
        match chain_id ctx with
        | Some c =>
            let accumulated := default 0 (chain_cascade_depths w !! c) in
            let total := accumulated + depth in
            if CASCADE_DEPTH_LIMIT <? total
            then Some (rejected cross_peer_depth_exceeded depth, with_chain_depth w c accumulated)
            else body (with_chain_depth w c total)
        | None => body w
        end;
      Some (r, with_world_depth w (w_cascade_depth w - 1))
  end.

(** Enough fuel for any run: a dispatch at the limit is refused before it starts. *)
Definition dispatch_fuel : nat := Z.to_nat CASCADE_DEPTH_LIMIT.

(** The methods of [LocationIndex] on the wrapper. *)
Definition perform (hooks : list SyncTreeHook) (op : StoreOp) (w : World) : Run (reply op) :=
  run_op (dispatch_event hooks dispatch_fuel) op w.

(** * The content store that notifies *)

Record ContentStoreEvent := mkContentEvent { ce_hash : Hash; ce_entity : Entity; is_new : bool }.

(** A content hook sees the event and answers; it has no store to write to here. *)
Definition SyncContentHook := ContentStoreEvent → result CascadeHalt unit.

(** The backing store, and the content events broadcast so far. *)
Record ContentWorld := mkContentWorld { entities : ContentMap; content_broadcasts : list ContentStoreEvent }.

Definition notifying_put (hooks : list SyncContentHook) (e : Entity) (w : ContentWorld) : Hash * ContentWorld :=
  let hash := content_hash e in
  if content_has (entities w) hash then (hash, w)
  else
    let '(result, m) := content_put (entities w) e in
    let event := mkContentEvent hash e true in
    if existsb (λ hook, negb (is_ok (hook event))) hooks
    then (result, mkContentWorld m (content_broadcasts w))
    else (result, mkContentWorld m (content_broadcasts w ++ [event])).

(** * The content store as its clients see it *)

Inductive StoreError := Internal.

(** The trait [ContentStore]: [put] may fail, [get] reads. *)
Class ContentStore (St : Type) := {
  store_put : Entity → St → result StoreError Hash * St;
  store_get : Hash → St → option Entity;
}.

#[export] Instance memory_store : ContentStore ContentMap :=
  {| store_put e m := let '(h, m) := content_put m e in (Ok h, m);
     store_get h m := content_get m h |}.

#[export] Instance notifying_store (hooks : list SyncContentHook) : ContentStore ContentWorld :=
  {| store_put e w := let '(h, w) := notifying_put hooks e w in (Ok h, w);
     store_get h w := content_get (entities w) h |}.

(** * Lemmas *)

(** ** Prefixes in the order of keys *)

Lemma lex_prefix_ge (p k : list Z) : p `prefix_of` k → cmp k p ≠ Lt.
Proof.
  intros [r ->]. change (cmp (p ++ r) p) with (list_cmp (p ++ r) p).
  induction p as [|a p IH]; cbn [app list_cmp]; [by destruct r|]. by rewrite cmp_refl.
Qed.

Lemma lex_between (p : list Z) : ∀ k k' : list Z, cmp k p ≠ Lt → cmp k k' = Lt → p `prefix_of` k' → p `prefix_of` k.
Proof.
  induction p as [|a p IH]; intros k k' H1 H2 Hp; [apply prefix_nil|].
  destruct Hp as [r ->]. destruct k as [|b k]; [done|]. cbn in H1, H2.
  change (list_cmp k (p ++ r)) with (cmp k (p ++ r)) in H2. change (list_cmp k p) with (cmp k p) in H1.
  destruct (Z.compare_spec b a) as [->|Hlt|Hgt]; [|done|done].
  apply prefix_cons. eapply IH; [exact H1|exact H2|by exists r].
Qed.

Lemma filter_none {A} (P : A → Prop) `{!∀ x, Decision (P x)} l : (∀ x, x ∈ l → ¬ P x) → filter P l = [].
Proof.
  induction l as [|x l IH]; intros Hno; [done|]. rewrite filter_cons, decide_False by (apply Hno; by left).
  apply IH. intros y Hy. apply Hno. by right.
Qed.

Lemma take_while_range p m :
  bt_ok m → prefix_range m p = filter (λ kv, starts_with kv.1 p = true) m.
Proof.
  unfold prefix_range, range_from, PathMap. induction m as [|[k v] m IH]; intros Hm; [done|].
  apply bt_ok_cons in Hm as [Hall Hm]. rewrite !(filter_cons _ (k, v)).
  destruct (starts_with k p) eqn:Es.
  - destruct (decide (starts_with (k, v).1 p = true)) as [_|Hn]; [|by cbn in Hn].
    case_decide as Hge; [|exfalso; revert Hge; by apply lex_prefix_ge, starts_with_true].
    cbn [take_while fst]. by rewrite Es, IH.
  - destruct (decide (starts_with (k, v).1 p = true)) as [Hn|_]; [cbn in Hn; congruence|].
    case_decide as Hge; [|by apply IH].
    cbn [take_while fst]. rewrite Es. symmetry. apply filter_none. intros [k' v'] Hin. cbn [fst].
    rewrite starts_with_true. intros Hp. rewrite Forall_forall in Hall. specialize (Hall _ Hin). cbn in Hall.
    apply not_true_iff_false in Es. apply Es, starts_with_true. by eapply lex_between.
Qed.

(** ** The index as a map *)

Definition path_abs (m : PathMap) : gmap (list Z) Hash := list_to_map m.

Lemma path_abs_lookup m k : bt_ok m → path_abs m !! k = bt_get k m.
Proof.
  intros Hm. apply option_eq. intros v. rewrite bt_get_elem by done. unfold path_abs.
  symmetry. apply elem_of_list_to_map. change (NoDup (map fst m)). by apply bt_keys_NoDup.
Qed.

Lemma path_abs_insert m k v : bt_ok m → path_abs (bt_insert k v m) = <[k := v]> (path_abs m).
Proof.
  intros Hm. apply map_eq. intros j. rewrite path_abs_lookup by auto with entity.
  destruct (decide (k = j)) as [->|Hne].
  - rewrite lookup_insert_eq. by apply bt_get_insert_eq.
  - rewrite lookup_insert_ne, path_abs_lookup by done. by apply bt_get_insert_ne.
Qed.

Lemma path_abs_remove m k : bt_ok m → path_abs (bt_remove k m) = delete k (path_abs m).
Proof.
  intros Hm. apply map_eq. intros j. rewrite path_abs_lookup by auto with entity.
  rewrite bt_get_remove by done. destruct (decide (k = j)) as [->|Hne].
  - by rewrite lookup_delete_eq, cmp_refl.
  - rewrite lookup_delete_ne, path_abs_lookup by done. destruct (cmp j k) eqn:E; [|done..].
    apply cmp_eq in E. by subst.
Qed.

(** ** Runs *)

(** The invariant: ordered bindings, a depth of at most the limit, and chain counters within
    the limit. *)
Definition world_ok (w : World) : Prop :=
  bt_ok (paths w) ∧ 0 ≤ w_cascade_depth w ≤ CASCADE_DEPTH_LIMIT
  ∧ map_Forall (λ _ d, 0 ≤ d ≤ CASCADE_DEPTH_LIMIT) (chain_cascade_depths w).

(** A run ends, keeps the invariant, leaves the depth as it was, and only adds events. *)
Definition ok_run {A} (w : World) (m : Run A) : Prop :=
  ∃ r w', m = Some (r, w') ∧ world_ok w' ∧ w_cascade_depth w' = w_cascade_depth w
    ∧ broadcasts w `prefix_of` broadcasts w'.

Lemma ok_run_ret {A} w (r : A) w' :
  world_ok w' → w_cascade_depth w' = w_cascade_depth w → broadcasts w' = broadcasts w →
  ok_run w (Some (r, w')).
Proof. intros Hw Hd Hb. exists r, w'. split_and!; [done|done|done|]. by rewrite Hb. Qed.

Lemma ok_run_bind {A B} w (m : Run A) (f : A * World → Run B) :
  ok_run w m →
  (∀ r w', world_ok w' → w_cascade_depth w' = w_cascade_depth w → broadcasts w `prefix_of` broadcasts w' →
     ok_run w' (f (r, w'))) →
  ok_run w (m ≫= f).
Proof.
  intros (r & w' & -> & Hw & Hd & Hb) Hf. destruct (Hf r w' Hw Hd Hb) as (r2 & w2 & E & Hw2 & Hd2 & Hb2).
  exists r2, w2. split_and!; [exact E|done|congruence|by etransitivity].
Qed.

(** A run from a state that differs in its bindings only. *)
Lemma ok_run_paths {A} w m (r : Run A) : ok_run (with_paths w m) r → ok_run w r.
Proof. done. Qed.

Lemma world_ok_paths w m : world_ok w → bt_ok m → world_ok (with_paths w m).
Proof. intros (_ & ? & ?) Hm. done. Qed.

Lemma index_set_ok m p h : bt_ok m → bt_ok (index_set m p h).
Proof. intros Hm. unfold index_set. destruct (negb _); auto with entity. Qed.

Definition dispatch_ok (d : Dispatch) (depth : Z) : Prop :=
  ∀ path h prev new change ctx w, world_ok w → w_cascade_depth w = depth → depth < CASCADE_DEPTH_LIMIT →
    ok_run w (d path h prev new change ctx w).

Lemma cas_refused_false path w : cas_refused path w = false → w_cascade_depth w < CASCADE_DEPTH_LIMIT.
Proof. unfold cas_refused. intros [_ H%Z.leb_gt]%orb_false_iff. done. Qed.

Section op_runs.
Context (d : Dispatch) (depth : Z) (Hd : dispatch_ok d depth).

Lemma set_impl_run path h ctx w :
  world_ok w → w_cascade_depth w = depth → ok_run w (set_impl d path h ctx w).
Proof.
  intros Hw Hdep. unfold set_impl. destruct (validate_absolute_path path); [|by apply ok_run_ret].
  destruct (Z.leb_spec CASCADE_DEPTH_LIMIT (w_cascade_depth w)); [by apply ok_run_ret|].
  assert (Hw' : world_ok (with_paths w (index_set (paths w) path h))).
  { apply world_ok_paths; [done|]. apply index_set_ok. by destruct Hw. }
  assert (Hlt : depth < CASCADE_DEPTH_LIMIT) by lia.
  destruct (index_get (paths w) path) as [prev|].
  - case_bool_decide; [by apply ok_run_ret|]. by apply (ok_run_paths w (index_set (paths w) path h)), Hd.
  - by apply (ok_run_paths w (index_set (paths w) path h)), Hd.
Qed.

(** The continuation of every compare-and-set operation and of [remove]. *)
Lemma dispatch_then {B} path h prev new change ctx w m (f : CascadeResult → B) :
  world_ok w → w_cascade_depth w = depth → depth < CASCADE_DEPTH_LIMIT → bt_ok m →
  ok_run w ('(c, w') ← d path h prev new change ctx (with_paths w m); Some (f c, w')).
Proof.
  intros Hw Hdep Hlt Hm. apply (ok_run_paths w m), ok_run_bind.
  - apply Hd; [by apply world_ok_paths|done|done].
  - intros r w' Hw' Hd' Hb. by apply ok_run_ret.
Qed.

Lemma swap_run path e n ctx w :
  world_ok w → w_cascade_depth w = depth → ok_run w (cas_swap_impl d path e n ctx w).
Proof.
  intros Hw Hdep. unfold cas_swap_impl. destruct (cas_refused path w) eqn:Er; [by apply ok_run_ret|].
  apply cas_refused_false in Er. unfold compare_and_swap. pose proof (proj1 Hw) as Hm.
  assert (Hw' : ∀ m, bt_ok m → world_ok (with_paths w m)) by (intros; by apply world_ok_paths).
  destruct (bt_get path (paths w)) as [c|]; [case_bool_decide|].
  - case_bool_decide; [apply ok_run_ret; auto with entity|]. apply dispatch_then; [done|done|lia|auto with entity].
  - by apply ok_run_ret; [apply Hw'|..].
  - by apply ok_run_ret; [apply Hw'|..].
Qed.

Lemma cas_remove_run path e ctx w :
  world_ok w → w_cascade_depth w = depth → ok_run w (cas_remove_impl d path e ctx w).
Proof.
  intros Hw Hdep. unfold cas_remove_impl. destruct (cas_refused path w) eqn:Er; [by apply ok_run_ret|].
  apply cas_refused_false in Er. unfold compare_and_remove. pose proof (proj1 Hw) as Hm.
  destruct (bt_get path (paths w)) as [c|]; [case_bool_decide|].
  - apply (dispatch_then _ _ _ _ _ _ _ _ (λ c', Ok (c, c'))); [done|done|lia|auto with entity].
  - by apply ok_run_ret.
  - by apply ok_run_ret.
Qed.

Lemma create_run path n ctx w :
  world_ok w → w_cascade_depth w = depth → ok_run w (cas_create_impl d path n ctx w).
Proof.
  intros Hw Hdep. unfold cas_create_impl. destruct (cas_refused path w) eqn:Er; [by apply ok_run_ret|].
  apply cas_refused_false in Er. unfold compare_and_create. pose proof (proj1 Hw) as Hm.
  destruct (bt_get path (paths w)) as [c|].
  - by apply ok_run_ret.
  - apply (dispatch_then _ _ _ _ _ _ _ _ (λ c', Ok c')); [done|done|lia|auto with entity].
Qed.

Lemma remove_run path ctx w :
  world_ok w → w_cascade_depth w = depth → ok_run w (remove_impl d path ctx w).
Proof.
  intros Hw Hdep. unfold remove_impl. destruct (validate_absolute_path path); [|by apply ok_run_ret].
  destruct (Z.leb_spec CASCADE_DEPTH_LIMIT (w_cascade_depth w)); [by apply ok_run_ret|].
  pose proof (proj1 Hw) as Hm. unfold index_remove.
  destruct (bt_get path (paths w)) as [c|].
  - apply (dispatch_then _ _ _ _ _ _ _ _ (λ c', (Some c, c'))); [done|done|lia|auto with entity].
  - apply ok_run_ret; [|done..]. apply world_ok_paths; auto with entity.
Qed.

Lemma run_op_run op w : world_ok w → w_cascade_depth w = depth → ok_run w (run_op d op w).
Proof.
  destruct op; cbn [run_op].
  - apply set_impl_run.
  - apply remove_run.
  - apply swap_run.
  - apply cas_remove_run.
  - apply create_run.
  - intros. by apply ok_run_ret.
  - intros. by apply ok_run_ret.
Qed.

Lemma run_act_run {A} (a : Act A) : ∀ w, world_ok w → w_cascade_depth w = depth → ok_run w (run_act d a w).
Proof.
  induction a as [x|op k IH]; intros w Hw Hdep; cbn [run_act]; [by apply ok_run_ret|].
  apply ok_run_bind; [by apply run_op_run|]. intros r w' Hw' Hd' _. apply IH; [done|congruence].
Qed.

Lemma run_hooks_run hooks event : ∀ completed ctx w,
  world_ok w → w_cascade_depth w = depth → ok_run w (run_hooks d hooks event completed ctx w).
Proof.
  induction hooks as [|hook hooks IH]; intros completed ctx w Hw Hdep; cbn [run_hooks].
  - eexists _, _. split_and!; [reflexivity|done|done|]. by eexists.
  - apply ok_run_bind; [by apply run_act_run|]. intros [res ctx'] w' Hw' Hd' _.
    destruct res as [|halt]; [apply IH; [done|congruence]|].
    destruct (is_error halt); by apply ok_run_ret.
Qed.
End op_runs.

(** A dispatch with a level of fuel per level of depth left runs to its end. *)
Lemma dispatch_event_ok hooks fuel : ∀ depth,
  CASCADE_DEPTH_LIMIT - depth ≤ Z.of_nat fuel → dispatch_ok (dispatch_event hooks fuel) depth.
Proof.
  induction fuel as [|fuel IH]; intros depth Hf path h prev new change ctx w (Hm & Hdw & Hc) Hdep Hlt; [lia|].
  cbn [dispatch_event].
  set (w1 := with_world_depth w (w_cascade_depth w + 1)).
  assert (Hbody : ∀ w2 event ctx2, world_ok w2 → w_cascade_depth w2 = depth + 1 → broadcasts w2 = broadcasts w →
    ok_run w2 (run_hooks (dispatch_event hooks fuel) hooks event [] ctx2 w2)).
  { intros w2 event ctx2 Hw2 Hd2 _. apply (run_hooks_run _ (depth + 1)); [|done|done]. apply IH. lia. }
  assert (Hdec : ∀ w2 (m : Run CascadeResult), broadcasts w2 = broadcasts w → w_cascade_depth w2 = depth + 1 →
    ok_run w2 m → ok_run w ('(r, w3) ← m; Some (r, with_world_depth w3 (w_cascade_depth w3 - 1)))).
  { intros w2 m Hb2 Hd2 (r & w3 & -> & (Hm3 & Hd3 & Hc3) & He3 & Hb3). cbn.
    eexists _, _. split_and!; [reflexivity| |cbn; lia|cbn; congruence].
    split_and!; cbn; [done|lia|lia|done]. }
  destruct (chain_id _) as [c|].
  - set (acc := default 0 _).
    assert (Hacc : 0 ≤ acc ≤ CASCADE_DEPTH_LIMIT).
    { unfold acc. destruct (chain_cascade_depths w1 !! c) as [x|] eqn:E; cbn; [|unfold CASCADE_DEPTH_LIMIT; lia].
      by apply (map_Forall_lookup_1 _ _ _ _ Hc) in E. }
    destruct (Z.ltb_spec CASCADE_DEPTH_LIMIT (acc + w_cascade_depth w1)).
    + apply (Hdec w1); [done|cbn; lia|]. apply ok_run_ret; [|done..].
      split_and!; cbn; [done|lia|lia|]. apply map_Forall_insert_2; [lia|done].
    + apply (Hdec (with_chain_depth w1 c (acc + w_cascade_depth w1))); [done|cbn; lia|].
      apply Hbody; [|cbn; lia|done]. cbn in *. split_and!; cbn; [done|lia|lia|].
      apply map_Forall_insert_2; [lia|done].
  - apply (Hdec w1); [done|cbn; lia|]. apply Hbody; [|cbn; lia|done]. split_and!; cbn; [done|lia|lia|done].
Qed.

Lemma dispatch_fuel_ok hooks w : world_ok w → dispatch_ok (dispatch_event hooks dispatch_fuel) (w_cascade_depth w).
Proof. intros (_ & ? & _). apply dispatch_event_ok. unfold dispatch_fuel, CASCADE_DEPTH_LIMIT in *. lia. Qed.

(** A sequence of operations, one after the other. *)
Fixpoint perform_all (hooks : list SyncTreeHook) (ops : list StoreOp) (w : World) : option World :=
  match ops with
  | [] => Some w
  | op :: ops => '(_, w) ← perform hooks op w; perform_all hooks ops w
  end.

Lemma perform_run hooks op w : world_ok w → ok_run w (perform hooks op w).
Proof. intros Hw. apply (run_op_run _ (w_cascade_depth w)); [by apply dispatch_fuel_ok|done|done]. Qed.

(** ** Listing *)

Lemma prefix_range_elem m p k v :
  bt_ok m → (k, v) ∈ prefix_range m p ↔ path_abs m !! k = Some v ∧ p `prefix_of` k.
Proof.
  intros Hm. rewrite take_while_range by done. rewrite path_abs_lookup, bt_get_elem by done.
  rewrite list_elem_of_filter. cbn. rewrite starts_with_true. naive_solver.
Qed.

Lemma StronglySorted_filter {A} (R : A → A → Prop) (P : A → Prop) `{!∀ x, Decision (P x)} l :
  StronglySorted R l → StronglySorted R (filter P l).
Proof.
  induction 1 as [|x l Hl IH Hx]; [constructor|]. rewrite filter_cons. case_decide; [|done].
  constructor; [done|]. rewrite Forall_forall in Hx |- *. intros y [_ Hy]%list_elem_of_filter. by apply Hx.
Qed.

Lemma filter_all {A} (P : A → Prop) `{!∀ x, Decision (P x)} (l : list A) : (∀ x, x ∈ l → P x) → filter P l = l.
Proof.
  induction l as [|x l IH]; intros Hall; [done|]. rewrite filter_cons, decide_True by (apply Hall; by left).
  f_equal. apply IH. intros y Hy. apply Hall. by right.
Qed.

Lemma prefix_range_ok m p : bt_ok m → bt_ok (prefix_range m p).
Proof. intros Hm. rewrite take_while_range by done. by apply StronglySorted_filter. Qed.

Lemma prefix_range_all m : bt_ok m → prefix_range m [] = m.
Proof.
  intros Hm. rewrite take_while_range by done. by apply filter_all.
Qed.

(** ** Content *)

(** Every entry is filed under its own hash, and nothing is filed twice. *)
Definition content_ok (m : ContentMap) : Prop :=
  bt_ok m ∧ ∀ h e, (h, e) ∈ m → content_hash e = h.

Lemma content_put_ok m e : content_ok m → content_ok (content_put m e).2.
Proof.
  intros [Hm Hc]. split; [by apply bt_insert_ok|]. intros h e'. cbn.
  rewrite <-bt_get_elem by auto with entity. destruct (decide (content_hash e = h)) as [<-|Hne].
  - rewrite bt_get_insert_eq by done. congruence.
  - rewrite bt_get_insert_ne by done. rewrite bt_get_elem by done. apply Hc.
Qed.

Lemma content_remove_ok m h : content_ok m → content_ok (content_remove m h).2.
Proof.
  intros [Hm Hc]. split; [by apply bt_remove_ok|]. intros h' e. cbn.
  rewrite <-bt_get_elem, bt_get_remove by auto with entity.
  destruct (cmp h' h); [done|..]; rewrite bt_get_elem by done; apply Hc.
Qed.

(** ** The promise of a content store

    Storing an entity makes it readable under its hash and changes nothing else, as long as
    the store holds no other entity of that hash. *)

Definition agrees `{ContentStore St} (s : St) (e : Entity) : Prop :=
  ∀ e', store_get (content_hash e) s = Some e' → e' = e.

Class ContentStoreOk St `{ContentStore St} (wf : St → Prop) : Prop := {
  store_put_get s e :
    wf s → agrees s e →
    ∃ s', store_put e s = (Ok (content_hash e), s') ∧ wf s'
      ∧ ∀ h, store_get h s' = if decide (h = content_hash e) then Some e else store_get h s;
}.

#[export] Instance memory_store_ok : ContentStoreOk ContentMap bt_ok.
Proof.
  constructor. intros m e Hm _. exists (bt_insert (content_hash e) e m). split_and!; [done|by apply bt_insert_ok|].
  intros h. cbn. unfold content_get. case_decide as Hh; [subst h; by apply bt_get_insert_eq|].
  apply bt_get_insert_ne; [done|congruence].
Qed.

(** The notifying store skips the write of an entity it has, and fails never. *)
#[export] Instance notifying_store_ok hooks :
  @ContentStoreOk ContentWorld (notifying_store hooks) (λ w, bt_ok (entities w)).
Proof.
  constructor. intros w e Hm Ha. cbn. unfold notifying_put, content_has, content_get.
  case_bool_decide as Hh.
  - exists w. split_and!; [done|done|]. intros h. case_decide as Hd; [|done]. subst h.
    destruct Hh as [e' He']. by rewrite He', (Ha e' He').
  - unfold content_put. match goal with |- context [existsb ?f hooks] => destruct (existsb f hooks) end;
      (eexists; split_and!; [reflexivity|by apply bt_insert_ok|]);
      (intros h; cbn; case_decide as Hd; [subst h; by apply bt_get_insert_eq|
                                          apply bt_get_insert_ne; [done|congruence]]).
Qed.

(** ** The compare-and-set operations on maps *)

Definition spec_swap (M : gmap (list Z) Hash) (p : list Z) (e n : Hash) : result CasError unit * gmap (list Z) Hash :=
  match M !! p with
  | Some c => if bool_decide (c = e) then (Ok tt, <[p := n]> M) else (Err (Mismatch c), M)
  | None => (Err NotFound, M)
  end.

Definition spec_cas_remove (M : gmap (list Z) Hash) (p : list Z) (e : Hash) : result CasError Hash * gmap (list Z) Hash :=
  match M !! p with
  | Some c => if bool_decide (c = e) then (Ok c, delete p M) else (Err (Mismatch c), M)
  | None => (Err NotFound, M)
  end.

Definition spec_create (M : gmap (list Z) Hash) (p : list Z) (n : Hash) : result CasError unit * gmap (list Z) Hash :=
  match M !! p with Some c => (Err (Mismatch c), M) | None => (Ok tt, <[p := n]> M) end.

(** The abstract image of an operation's answer and new index. *)
Definition abs_answer {A} (r : A * PathMap) : A * gmap (list Z) Hash := (r.1, path_abs r.2).

Lemma swap_refines m p e n : bt_ok m → abs_answer (compare_and_swap m p e n) = spec_swap (path_abs m) p e n.
Proof.
  intros Hm. unfold compare_and_swap, spec_swap. rewrite path_abs_lookup by done.
  destruct (bt_get p m); [|done]. case_bool_decide; [|done]. unfold abs_answer. cbn. by rewrite path_abs_insert.
Qed.

Lemma cas_remove_refines m p e : bt_ok m → abs_answer (compare_and_remove m p e) = spec_cas_remove (path_abs m) p e.
Proof.
  intros Hm. unfold compare_and_remove, spec_cas_remove. rewrite path_abs_lookup by done.
  destruct (bt_get p m); [|done]. case_bool_decide; [|done]. unfold abs_answer. cbn. by rewrite path_abs_remove.
Qed.

Lemma create_refines m p n : bt_ok m → abs_answer (compare_and_create m p n) = spec_create (path_abs m) p n.
Proof.
  intros Hm. unfold compare_and_create, spec_create. rewrite path_abs_lookup by done.
  destruct (bt_get p m); [done|]. unfold abs_answer. cbn. by rewrite path_abs_insert.
Qed.

Lemma cas_ok m p e n :
  bt_ok m → bt_ok (compare_and_swap m p e n).2 ∧ bt_ok (compare_and_remove m p e).2 ∧ bt_ok (compare_and_create m p n).2.
Proof.
  intros Hm. unfold compare_and_swap, compare_and_remove, compare_and_create.
  destruct (bt_get p m); [case_bool_decide|]; cbn; auto with entity.
Qed.

(** ** What a dispatch does *)

Section outcomes.
Context (d : Dispatch) (event : TreeChangeEvent).

(** A hook is handed the context of the write with its own pattern and name in it and no
    capability. *)
Definition handed_to (hook : SyncTreeHook) (hctx : ExecutionContext) : Prop :=
  cx_capability hctx = None ∧ handler_grant hctx = None
  ∧ cx_handler_pattern hctx = Some (hook_pattern hook) ∧ cx_operation hctx = Some (hook_name hook).

(** The hooks succeeded one after the other, each on the state its predecessor left. *)
Inductive hooks_ran : list SyncTreeHook → World → World → Prop :=
  | ran_nil w : hooks_ran [] w w
  | ran_cons hook hooks hctx ctx w w1 w2 :
      handed_to hook hctx →
      run_act d (on_tree_change hook event hctx) w = Some ((Ok tt, ctx), w1) →
      hooks_ran hooks w1 w2 → hooks_ran (hook :: hooks) w w2.

(** The hooks ran in order up to a first failure, which leaves its report, names the hooks
    after it as skipped and broadcasts nothing; without a failure the event is broadcast once,
    last. *)
Inductive hooks_outcome (hooks : list SyncTreeHook) (completed : list (list Z)) (w : World)
    : CascadeResult → World → Prop :=
  | outcome_settled ctx w1 :
      hooks_ran hooks w w1 →
      hooks_outcome hooks completed w
        (success (completed ++ map hook_name hooks) (cx_cascade_depth ctx))
        (with_broadcast w1 (mkEvent (ev_path event) (ev_hash event) (previous_hash event) (new_hash event)
                              (change_type event) (Some ctx)))
  | outcome_halted before hook after hctx w1 halt ctx ctx' w2 :
      hooks = before ++ hook :: after →
      hooks_ran before w w1 →
      handed_to hook hctx →
      run_act d (on_tree_change hook event hctx) w1 = Some ((Err halt, ctx), w2) →
      hooks_outcome hooks completed w
        (mkCascade true (completed ++ map hook_name before)
           (if is_error halt then [] else [halt]) (if is_error halt then [halt] else [])
           (map hook_name after) (cx_cascade_depth ctx'))
        w2.

Lemma hooks_outcome_cons hook hooks completed hctx ctx w w1 r w' :
  handed_to hook hctx →
  run_act d (on_tree_change hook event hctx) w = Some ((Ok tt, ctx), w1) →
  hooks_outcome hooks (completed ++ [hook_name hook]) w1 r w' →
  hooks_outcome (hook :: hooks) completed w r w'.
Proof.
  intros Hh0 Hr0. inversion 1 as [ctx1 w2 Hran|before h after hctx1 w2 halt ctx1 ctx' w3 -> Hran Hh Hr]; subst;
    rewrite <-(assoc_L (++)); cbn [app].
  - apply (outcome_settled (hook :: hooks)). by eapply ran_cons.
  - apply (outcome_halted _ completed w (hook :: before) h after hctx1 w2 halt ctx1 ctx'); [done| |done|done].
    by eapply ran_cons.
Qed.

Lemma run_hooks_outcome : ∀ hooks completed ctx w r w',
  run_hooks d hooks event completed ctx w = Some (r, w') → hooks_outcome hooks completed w r w'.
Proof.
  induction hooks as [|hook hooks IH]; intros completed ctx w r w' E; cbn [run_hooks] in E.
  - injection E as <- <-. rewrite <-(app_nil_r completed) at 2. apply (outcome_settled []), ran_nil.
  - set (hctx := with_per_write ctx None None (Some (hook_pattern hook)) (Some (hook_name hook))) in E.
    assert (Hh : handed_to hook hctx) by done.
    destruct (run_act _ _ _) as [[[res ctx1] w1]|] eqn:Ea; [|discriminate E]. cbn in E.
    destruct res as [[]|halt]; [eapply hooks_outcome_cons; [done|done|by eapply IH]|].
    set (ctx2 := with_per_write ctx1 (cx_capability ctx) (handler_grant ctx) (cx_handler_pattern ctx) (cx_operation ctx)).
    pose proof (outcome_halted (hook :: hooks) completed w [] hook hooks hctx w halt ctx1 ctx2 w1
                  eq_refl (ran_nil w) Hh Ea) as Ho.
    rewrite app_nil_r in Ho. destruct (is_error halt) eqn:Ei; rewrite ?Ei in Ho; injection E as <- <-; exact Ho.
Qed.
End outcomes.

(** What [set] answers and leaves, by cases. *)
Inductive set_outcome (hooks : list SyncTreeHook) (path : list Z) (h : Hash) (context : option ExecutionContext)
    (w : World) : CascadeResult → World → Prop :=
  | set_bad_path e :
      validate_absolute_path path = Err e →
      set_outcome hooks path h context w (rejected (invalid_path path e) 0) w
  | set_too_deep :
      CASCADE_DEPTH_LIMIT ≤ w_cascade_depth w →
      set_outcome hooks path h context w (rejected depth_exceeded (w_cascade_depth w)) w
  | set_same :
      index_get (paths w) path = Some h →
      set_outcome hooks path h context w empty_success (with_paths w (index_set (paths w) path h))
  | set_chain_over c total :
      index_get (paths w) path ≠ Some h →
      chain_id (default default_context context) = Some c →
      total = default 0 (chain_cascade_depths w !! c) →
      CASCADE_DEPTH_LIMIT < total + (w_cascade_depth w + 1) →
      set_outcome hooks path h context w (rejected cross_peer_depth_exceeded (w_cascade_depth w + 1))
        (with_chain_depth (with_paths w (index_set (paths w) path h)) c total)
  | set_dispatched fuel ctx w0 r w1 :
      index_get (paths w) path ≠ Some h →
      paths w0 = index_set (paths w) path h → w_cascade_depth w0 = w_cascade_depth w + 1 →
      broadcasts w0 = broadcasts w →
      cx_cascade_depth ctx = w_cascade_depth w + 1 →
      hooks_outcome (dispatch_event hooks fuel)
        (mkEvent path h (index_get (paths w) path) (Some h)
           (if index_get (paths w) path then Modified else Created) (Some ctx)) hooks [] w0 r w1 →
      set_outcome hooks path h context w r (with_world_depth w1 (w_cascade_depth w1 - 1)).

Lemma dispatch_outcome hooks fuel path h prev change ctx w r w' m context :
  prev = index_get (paths w) path → prev ≠ Some h → change = (if prev then Modified else Created) →
  m = index_set (paths w) path h → ctx = context →
  dispatch_event hooks fuel path h prev (Some h) change ctx (with_paths w m) = Some (r, w') →
  set_outcome hooks path h context w r w'.
Proof.
  intros -> Hne -> -> -> E. destruct fuel as [|fuel]; [discriminate E|]. cbn [dispatch_event] in E.
  set (w1 := with_world_depth _ _) in E. set (ctx := with_depth _ _) in E.
  assert (Hbody : ∀ w2, paths w2 = index_set (paths w) path h → w_cascade_depth w2 = w_cascade_depth w + 1 →
    broadcasts w2 = broadcasts w → run_hooks (dispatch_event hooks fuel) hooks
      (mkEvent path h (index_get (paths w) path) (Some h)
         (if index_get (paths w) path then Modified else Created) (Some ctx)) [] ctx w2
      ≫= (λ '(r, w), Some (r, with_world_depth w (w_cascade_depth w - 1))) = Some (r, w') →
    set_outcome hooks path h context w r w').
  { clear E. intros w2 Hp2 Hd2 Hb2 E2. destruct (run_hooks _ _ _ _ _ w2) as [[r3 w3]|] eqn:E3; [|done].
    injection E2 as <- <-. eapply (set_dispatched _ _ _ _ _ fuel ctx); [done|exact Hp2|exact Hd2|exact Hb2|reflexivity|].
    by eapply run_hooks_outcome. }
  destruct (chain_id ctx) as [c|] eqn:Ec; [|by refine (Hbody w1 _ _ _ E)].
  destruct (CASCADE_DEPTH_LIMIT <? _) eqn:El; [|by refine (Hbody _ _ _ _ E)].
  apply Z.ltb_lt in El. cbn in E. injection E as <- <-.
  replace (with_world_depth _ _) with
    (with_chain_depth (with_paths w (index_set (paths w) path h)) c (default 0 (chain_cascade_depths w !! c))).
  - eapply set_chain_over; [done|exact Ec|done|exact El].
  - unfold with_world_depth, with_chain_depth, with_paths. cbn. f_equal. lia.
Qed.

(** * Properties *)

(** C37. The in-memory location index is a finite map: each operation commutes with the map's
    own, [set] only for a storable path, a listing is the bindings under the prefix in order and
    without duplicates, and [len_prefix] counts it.  Compare-and-set binds any path, storable or
    not. *)
Theorem location_index_refines (m : PathMap) (p prefix : list Z) (h e n : Hash) :
  bt_ok m →
  path_abs (index_set m p h) = (if path_is_storable p then <[p := h]> (path_abs m) else path_abs m)
  ∧ index_get m p = path_abs m !! p
  ∧ index_has m p = bool_decide (p ∈ dom (path_abs m))
  ∧ abs_answer (index_remove m p) = (path_abs m !! p, delete p (path_abs m))
  ∧ abs_answer (compare_and_swap m p e n) = spec_swap (path_abs m) p e n
  ∧ abs_answer (compare_and_remove m p e) = spec_cas_remove (path_abs m) p e
  ∧ abs_answer (compare_and_create m p n) = spec_create (path_abs m) p n
  ∧ (∀ k v, mkLocation k v ∈ index_list m prefix ↔ path_abs m !! k = Some v ∧ prefix `prefix_of` k)
  ∧ StronglySorted (λ a b, cmp (le_path a) (le_path b) = Lt) (index_list m prefix)
  ∧ index_len_prefix m prefix = length (index_list m prefix)
  ∧ Forall bt_ok [index_set m p h; (index_remove m p).2; (compare_and_swap m p e n).2;
                  (compare_and_remove m p e).2; (compare_and_create m p n).2].
Proof.
  intros Hm. pose proof (cas_ok m p e n Hm) as (? & ? & ?). split_and!.
  - unfold index_set. destruct (path_is_storable p); cbn; [by apply path_abs_insert|done].
  - unfold index_get. by rewrite path_abs_lookup.
  - unfold index_has. apply bool_decide_ext. by rewrite elem_of_dom, path_abs_lookup.
  - unfold index_remove, abs_answer. cbn. by rewrite path_abs_lookup, path_abs_remove.
  - by apply swap_refines.
  - by apply cas_remove_refines.
  - by apply create_refines.
  - intros k v. rewrite <-prefix_range_elem by done. unfold index_list. rewrite list_elem_of_fmap.
    split; [intros ([k' v'] & [= -> ->] & ?); done|intros ?; by exists (k, v)].
  - pose proof (prefix_range_ok m prefix Hm) as Hs. unfold index_list.
    induction Hs as [|x l Hl IH Hx]; cbn; constructor; [done|]. by apply Forall_map.
  - unfold index_len_prefix, index_list. rewrite length_map. case_bool_decide as Hp; [|done].
    by rewrite Hp, prefix_range_all.
  - rewrite !Forall_cons. split_and!; [by apply index_set_ok|by apply bt_remove_ok|done..|by constructor].
Qed.

(** C30. Every sequence of operations on the notifying index ends, whatever its hooks do: the
    nesting of dispatches stays within the limit, the depth counter returns to where it was, the
    bindings stay ordered and the counters bounded, and no broadcast is taken back. *)
Theorem cascade_terminates (hooks : list SyncTreeHook) (ops : list StoreOp) (w : World) :
  world_ok w →
  ∃ w', perform_all hooks ops w = Some w' ∧ world_ok w' ∧ w_cascade_depth w' = w_cascade_depth w
    ∧ broadcasts w `prefix_of` broadcasts w'.
Proof.
  revert w. induction ops as [|op ops IH]; intros w Hw; cbn [perform_all].
  - exists w. by split_and!.
  - destruct (perform_run hooks op w Hw) as (r & w1 & -> & Hw1 & Hd1 & Hb1). cbn.
    destruct (IH w1 Hw1) as (w2 & E2 & Hw2 & Hd2 & Hb2). exists w2. split_and!; [done|done|congruence|].
    by etransitivity.
Qed.

(** What a write through the notifying index does, exactly: an unqualified path or a full
    depth is refused before anything changes, an unchanged binding raises no event, and
    otherwise the binding is written first and the hooks run on it in order, up to a first
    failure; the event is broadcast, once and after every hook, when none failed, and the
    binding is kept when one did.  A chain over its budget is refused after the binding was
    written. *)
Theorem set_outcome_exact hooks path h context w r w' :
  perform hooks (OpSet path h context) w = Some (r, w') → set_outcome hooks path h context w r w'.
Proof.
  unfold perform. cbn [run_op]. unfold set_impl. intros E.
  destruct (validate_absolute_path path) as [u|e] eqn:Ev;
    [|injection E as <- <-; apply set_bad_path; by rewrite Ev].
  destruct (Z.leb_spec CASCADE_DEPTH_LIMIT (w_cascade_depth w)); [injection E as <- <-; by apply set_too_deep|].
  destruct (index_get (paths w) path) as [prev|] eqn:Eg.
  - case_bool_decide as Hp; [injection E as <- <-; subst prev; by apply set_same|].
    eapply dispatch_outcome, E; [by rewrite Eg|congruence|done..].
  - eapply dispatch_outcome, E; [by rewrite Eg|done..].
Qed.

(** * Witnesses *)

Section demo.
Definition demo_path : list Z := ch_slash :: replicate 46 97 ++ lit "/a".
Definition demo_hash (b : Z) : Hash := mkHash 0 (replicate 32 b).
Lemma demo_hash_ok b : byte_ok b → hash_ok (demo_hash b).
Proof. intros Hb. split; [done|]. by apply Forall_replicate. Qed.

Definition empty_world : World := mkWorld [] 0 ∅ [].

(** A hook that writes below whatever it is told of, for ever. *)
Definition runaway : SyncTreeHook :=
  mkHook (lit "runaway") (lit "p") (λ event ctx,
    Do (OpSet (ev_path event ++ lit "/x") (ev_hash event) (Some ctx)) (λ _, Ret (Ok tt, ctx))).

(** A hook that refuses hash 9. *)
Definition refuse_nine : SyncTreeHook :=
  mkHook (lit "nine") (lit "p") (λ event ctx,
    Ret (if bool_decide (ev_hash event = demo_hash 9) then Err (mkHalt (lit "nine") 409 (lit "nine") false) else Ok tt, ctx)).

Definition quiet : SyncTreeHook := mkHook (lit "quiet") (lit "p") (λ _ ctx, Ret (Ok tt, ctx)).

Definition chained : ExecutionContext :=
  mkContext (Some (lit "c")) None None None 0 None None None None None None.
End demo.

Lemma empty_world_ok : world_ok empty_world.
Proof. split_and!; [constructor|done|done|]. apply map_Forall_empty. Qed.

Lemma location_index_refines_witness :
  let m := [(lit "a/1", demo_hash 1); (lit "a/2", demo_hash 2); (lit "b", demo_hash 3)] in
  bt_ok m ∧ map le_path (index_list m (lit "a/")) = [lit "a/1"; lit "a/2"]
  ∧ path_abs (index_set m (lit "a/../b") (demo_hash 4)) = path_abs m
  ∧ abs_answer (compare_and_create m (lit "a/../b") (demo_hash 4)) = spec_create (path_abs m) (lit "a/../b") (demo_hash 4).
Proof.
  intros m. assert (Hm : bt_ok m) by (repeat constructor).
  split_and!; [done|by vm_compute|..];
    destruct (location_index_refines m (lit "a/../b") [] (demo_hash 4) (demo_hash 4) (demo_hash 4) Hm)
      as (Hs & _ & _ & _ & _ & _ & Hc & _); [exact Hs|exact Hc].
Defined.

Lemma cascade_terminates_witness :
  ∃ w', perform_all [runaway] [OpSet demo_path (demo_hash 1) None] empty_world = Some w' ∧ world_ok w'
    ∧ length (broadcasts w') = 32%nat.
Proof.
  destruct (cascade_terminates [runaway] [OpSet demo_path (demo_hash 1) None] empty_world empty_world_ok)
    as (w' & E & Hw & _).
  exists w'. split; [exact E|]. split; [exact Hw|].
  assert (Hl : option_map (λ w, length (broadcasts w))
    (perform_all [runaway] [OpSet demo_path (demo_hash 1) None] empty_world) = Some 32%nat) by (vm_compute; reflexivity).
  rewrite E in Hl. cbn in Hl. congruence.
Defined.

Lemma set_outcome_exact_witness :
  ∃ r w', perform [quiet; refuse_nine; runaway] (OpSet demo_path (demo_hash 9) None) empty_world = Some (r, w')
    ∧ set_outcome [quiet; refuse_nine; runaway] demo_path (demo_hash 9) None empty_world r w'.
Proof.
  destruct (perform_run [quiet; refuse_nine; runaway] (OpSet demo_path (demo_hash 9) None) empty_world empty_world_ok)
    as (r & w' & E & _).
  exists r, w'. split; [exact E|]. exact (set_outcome_exact _ _ _ _ _ _ _ E).
Defined.

(** The refusing hook stops the cascade: one hook completed, one skipped, nothing broadcast,
    and the binding stays. *)
Example halted_write :
  (λ '(r, w), (consumers_completed r, consumers_skipped r, is_complete r, length (broadcasts w),
               index_has (paths w) demo_path))
    <$> perform [quiet; refuse_nine; runaway] (OpSet demo_path (demo_hash 9) None) empty_world
  = Some ([lit "quiet"], [lit "runaway"], false, 0%nat, true).
Proof. vm_compute. reflexivity. Qed.

(** A chain's counter is never given back: of 33 unrelated writes in one chain, none nested,
    the last is answered as not committed although its binding is there. *)
Example chain_counter_never_returns :
  let write n := OpSet (demo_path ++ [97 + n]) (demo_hash n) (Some chained) in
  (w ← perform_all [] (map (λ n, write (Z.of_nat n)) (seq 0 32)) empty_world;
   '(r, w) ← perform [] (write 32) w;
   Some (binding_committed r, length (broadcasts w), index_get (paths w) (demo_path ++ [129])))
  = Some (false, 32%nat, Some (demo_hash 32)).
Proof. vm_compute. reflexivity. Qed.

(** A path with a dot segment passes the notifying index's check and not the inner one's: the
    write is answered as committed and broadcast as [Created], and nothing is bound. *)
Example created_but_not_bound :
  (λ '(r, w), (is_complete r, map change_type (broadcasts w), index_has (paths w) (demo_path ++ lit "/../b")))
    <$> perform [] (OpSet (demo_path ++ lit "/../b") (demo_hash 1) None) empty_world
  = Some (true, [Created], false).
Proof. vm_compute. reflexivity. Qed.
