(* ===== verification/Trie.v ===== *)
(** The content-addressed trie of snapshots ([core/tree/src/trie.rs]).

    A hash-array-mapped trie whose nodes are entities: 32 slots per node chosen by five bits of
    the key's SHA-256 per level, a slot holding a bucket of at most three bindings or the hash
    of a sub-node.  The operations thread the content store, may fail and may panic (an index
    out of range), so they are functions from a store to a [Run]. *)
From S2P Require Import Prelude BTree Ecf Cbor ContentHash Entity Store.

Definition TYPE_TREE_SNAPSHOT_NODE : list Z := lit "system/tree/snapshot/node".
Definition BIT_WIDTH : Z := 5.
Definition K : Z := Z.shiftl 1 BIT_WIDTH.
Definition BUCKET_SIZE : nat := 3.
Definition BITMAP_BYTES : nat := 4.

Inductive Entry :=
  | Bucket (tuples : list (list Z * Hash))
  | Link (h : Hash).

Record SnapshotNodeData := mkNode { node_map : Z; node_data : list Entry }.

Definition empty_node : SnapshotNodeData := mkNode 0 [].

(** * The node's wire form *)

Definition tuple_value (kv : list Z * Hash) : Value := VArray [text kv.1; VBytes (to_bytes kv.2)].

Definition entry_value (e : Entry) : Value :=
  match e with
  | Bucket tuples => VArray (map tuple_value tuples)
  | Link h => VBytes (to_bytes h)
  end.

Definition to_ecf_bytes (node : SnapshotNodeData) : list Z :=
  to_ecf (VMap [(text (lit "map"), VBytes (be_bytes BITMAP_BYTES (node_map node)));
                (text (lit "data"), VArray (map entry_value (node_data node)))]).

(** [for item in arr { out.push(f(item)?) }] *)
Fixpoint mapO {A B} (f : A → option B) (l : list A) : option (list B) :=
  match l with
  | [] => Some []
  | x :: l' => y ← f x; ys ← mapO f l'; Some (y :: ys)
  end.

Definition decode_tuple (tuple : Value) : option (list Z * Hash) :=
  pair ← as_array tuple;
  match pair with
  | [k; h] => key ← as_str k; b ← as_bytes h; hash ← ok (from_bytes b); Some (key, hash)
  | _ => None
  end.

Definition decode_entry (item : Value) : option Entry :=
  match as_array item with
  | Some item_arr => tuples ← mapO decode_tuple item_arr; Some (Bucket tuples)
  | None => b ← as_bytes item; h ← ok (from_bytes b); Some (Link h)
  end.

Definition node_step (acc : option Z * option (list Entry)) (kv : Value * Value)
    : option (option Z * option (list Entry)) :=
  let '(bitmap, entries) := acc in
  k ← as_str kv.1;
  if bool_decide (k = lit "map") then
    b ← as_bytes kv.2;
    if negb (length b =? BITMAP_BYTES)%nat then None else Some (Some (be_value b), entries)
  else if bool_decide (k = lit "data") then
    arr ← as_array kv.2; out ← mapO decode_entry arr; Some (bitmap, Some out)
  else Some acc.

Fixpoint node_fields (acc : option Z * option (list Entry)) (m : list (Value * Value))
    : option (option Z * option (list Entry)) :=
  match m with
  | [] => Some acc
  | kv :: m' => acc ← node_step acc kv; node_fields acc m'
  end.

Definition node_from_cbor `{Ciborium} (data : list Z) : option SnapshotNodeData :=
  value ← from_reader data;
  m ← as_map value;
  '(bitmap, entries) ← node_fields (None, None) m;
  b ← bitmap; d ← entries;
  Some (mkNode b d).

(** * Slots *)

Definition key_hash `{Sha2} (key : list Z) : list Z := sha256 key.

(** [None] is the panic of [hash_bytes[byte_offset]] past the 32nd byte. *)
Definition bit_slice_at (hash_bytes : list Z) (level : nat) : option Z :=
  let bit_offset := Z.of_nat level * BIT_WIDTH in
  let byte_offset := Z.to_nat (bit_offset / 8) in
  let bit_in_byte := bit_offset mod 8 in
  b0 ← hash_bytes !! byte_offset;
  let b1 := if (S byte_offset <? 32)%nat then default 0 (hash_bytes !! S byte_offset) else 0 in
  let combined := Z.lor (Z.shiftl b0 8) b1 in
  let shift := 16 - bit_in_byte - BIT_WIDTH in
  Some (Z.land (Z.shiftr combined shift) 0x1F).

(** [u32::count_ones] *)
Definition count_ones (x : Z) : nat := length (filter (λ i, Z.testbit x i = true) (seqZ 0 32)).

Definition position (m p : Z) : bool * nat :=
  let bit_set := Z.land (Z.shiftr m p) 1 =? 1 in
  let mask := if p =? 0 then 0 else Z.shiftl 1 p - 1 in
  (bit_set, count_ones (Z.land m mask)).

(** * Runs *)

Inductive TrieError := MissingSubNode | EntityFailed | StoreFailed.

(** A run returns a result and the store, panics, or goes deeper than its fuel. *)
Inductive Run (St A : Type) :=
  | Returns (r : result TrieError A) (s : St)
  | Panics
  | Deep.
Arguments Returns {St A} r s.
Arguments Panics {St A}.
Arguments Deep {St A}.

Definition Trie (St A : Type) : Type := St → Run St A.

Definition pure {St A} (a : A) : Trie St A := λ s, Returns (Ok a) s.
Definition fails {St A} (e : TrieError) : Trie St A := λ s, Returns (Err e) s.
Definition or_panic {St A} (o : option A) : Trie St A :=
  λ s, match o with Some a => Returns (Ok a) s | None => Panics end.
Definition bind {St A B} (m : Trie St A) (f : A → Trie St B) : Trie St B :=
  λ s, match m s with
       | Returns (Ok a) s' => f a s'
       | Returns (Err e) s' => Returns (Err e) s'
       | Panics => Panics
       | Deep => Deep
       end.
Notation "x <-- m ;; k" := (bind m (λ x, k)) (at level 100, m at next level, right associativity).

(** [for x in l { acc = f(acc, x)?; }] *)
Fixpoint fold_trie {St A B} (f : B → A → Trie St B) (acc : B) (l : list A) : Trie St B :=
  match l with
  | [] => pure acc
  | x :: l' => acc' <-- f acc x;; fold_trie f acc' l'
  end.

(** [Vec::insert], [Vec::remove] and indexing: [None] is the panic. *)
Definition vec_insert {A} (idx : nat) (x : A) (l : list A) : option (list A) :=
  if (idx <=? length l)%nat then Some (take idx l ++ x :: drop idx l) else None.
Definition vec_remove {A} (idx : nat) (l : list A) : option (list A) :=
  if (idx <? length l)%nat then Some (take idx l ++ drop (S idx) l) else None.
Definition vec_set {A} (idx : nat) (x : A) (l : list A) : option (list A) :=
  if (idx <? length l)%nat then Some (<[idx := x]> l) else None.

Definition by_key (a b : list Z * Hash) : comparison := cmp a.1 b.1.

(** [tuples.iter().position(|(k, _)| k == key)] *)
Fixpoint tuple_position (key : list Z) (tuples : list (list Z * Hash)) : option nat :=
  match tuples with
  | [] => None
  | (k, _) :: l => if bool_decide (k = key) then Some 0%nat else S <$> tuple_position key l
  end.

(** [new_tuples[pos].1 = value] *)
Definition set_value (pos : nat) (value : Hash) (tuples : list (list Z * Hash)) : list (list Z * Hash) :=
  alter (λ kv, (kv.1, value)) pos tuples.

Section trie.
Context `{Sha2} `{Ciborium} {St : Type} `{ContentStore St} (home : Z).

Definition node_entity (node : SnapshotNodeData) : result EntityError Entity :=
  entity_new home TYPE_TREE_SNAPSHOT_NODE (to_ecf_bytes node).

Definition store_trie_node (node : SnapshotNodeData) : Trie St Hash :=
  λ s, match node_entity node with
       | Err _ => Returns (Err EntityFailed) s
       | Ok entity =>
           let '(r, s) := store_put entity s in Returns (map_err (λ _, StoreFailed) r) s
       end.

Definition load_trie_node (h : Hash) (s : St) : option SnapshotNodeData :=
  entity ← store_get h s; node_from_cbor (data entity).

Definition load_sub (h : Hash) : Trie St SnapshotNodeData :=
  λ s, Returns (ok_or MissingSubNode (load_trie_node h s)) s.

Definition load_or_empty (root_hash : option Hash) (s : St) : SnapshotNodeData :=
  match root_hash ≫= (λ h, load_trie_node h s) with Some n => n | None => empty_node end.

(** * Counting and flattening *)

Fixpoint count_entries (fuel : nat) (node : SnapshotNodeData) : Trie St nat :=
  match fuel with
  | O => λ _, Deep
  | S fuel =>
      fold_trie (λ total entry,
        match entry with
        | Bucket b => pure (total + length b)%nat
        | Link h => sub <-- load_sub h;; n <-- count_entries fuel sub;; pure (total + n)%nat
        end) 0%nat (node_data node)
  end.

Fixpoint flatten_entries_into (fuel : nat) (node : SnapshotNodeData) (out : list (list Z * Hash))
    : Trie St (list (list Z * Hash)) :=
  match fuel with
  | O => λ _, Deep
  | S fuel =>
      fold_trie (λ out entry,
        match entry with
        | Bucket b => pure (out ++ b)
        | Link h => sub <-- load_sub h;; flatten_entries_into fuel sub out
        end) out (node_data node)
  end.

Definition flatten_entries (fuel : nat) (node : SnapshotNodeData) : Trie St (list (list Z * Hash)) :=
  flatten_entries_into fuel node [].

(** * Insertion *)

Fixpoint put_at_node (fuel : nat) (node : SnapshotNodeData) (hash_bytes : list Z) (level : nat)
    (key : list Z) (value_hash : Hash) : Trie St SnapshotNodeData :=
  match fuel with
  | O => λ _, Deep
  | S fuel =>
      p <-- or_panic (bit_slice_at hash_bytes level);;
      let '(bit_set, idx) := position (node_map node) p in
      if negb bit_set then
        new_data <-- or_panic (vec_insert idx (Bucket [(key, value_hash)]) (node_data node));;
        pure (mkNode (Z.lor (node_map node) (Z.shiftl 1 p)) new_data)
      else
        let with_entry e :=
          new_data <-- or_panic (vec_set idx e (node_data node));; pure (mkNode (node_map node) new_data) in
        entry <-- or_panic (node_data node !! idx);;
        match entry with
        | Bucket tuples =>
            match tuple_position key tuples with
            | Some pos => with_entry (Bucket (set_value pos value_hash tuples))
            | None =>
                if (length tuples <? BUCKET_SIZE)%nat
                then with_entry (Bucket (sort_by by_key (tuples ++ [(key, value_hash)])))
                else
                  sub <-- fold_trie (λ sub kv, put_at_node fuel sub (key_hash kv.1) (S level) kv.1 kv.2)
                            empty_node tuples;;
                  sub <-- put_at_node fuel sub hash_bytes (S level) key value_hash;;
                  sub_hash <-- store_trie_node sub;;
                  with_entry (Link sub_hash)
            end
        | Link sub_hash =>
            sub <-- load_sub sub_hash;;
            new_sub <-- put_at_node fuel sub hash_bytes (S level) key value_hash;;
            new_sub_hash <-- store_trie_node new_sub;;
            with_entry (Link new_sub_hash)
        end
  end.

(** * Removal *)

Inductive RemoveOutcome :=
  | Unchanged
  | Modified (node : SnapshotNodeData)
  | Inline (tuples : list (list Z * Hash)).

Definition clear_bit (m p : Z) : Z := Z.land m (Z.lxor 0xFFFFFFFF (Z.shiftl 1 p)).

(** What a node without the entry at [idx], or with another one there, becomes: the root is
    exempt from the lower bound on reachable entries. *)
Definition settle (fuel : nat) (is_root : bool) (result : SnapshotNodeData) : Trie St RemoveOutcome :=
  if is_root then pure (Modified result)
  else
    branch <-- count_entries fuel result;;
    if (branch <? BUCKET_SIZE + 1)%nat
    then tuples <-- flatten_entries fuel result;; pure (Inline tuples)
    else pure (Modified result).

Fixpoint remove_at_node (fuel : nat) (node : SnapshotNodeData) (hash_bytes : list Z) (level : nat)
    (key : list Z) (is_root : bool) : Trie St RemoveOutcome :=
  match fuel with
  | O => λ _, Deep
  | S fuel' =>
      p <-- or_panic (bit_slice_at hash_bytes level);;
      let '(bit_set, idx) := position (node_map node) p in
      if negb bit_set then pure Unchanged
      else
        let without :=
          new_data <-- or_panic (vec_remove idx (node_data node));;
          settle fuel is_root (mkNode (clear_bit (node_map node) p) new_data) in
        let with_entry e :=
          new_data <-- or_panic (vec_set idx e (node_data node));;
          settle fuel is_root (mkNode (node_map node) new_data) in
        entry <-- or_panic (node_data node !! idx);;
        match entry with
        | Bucket tuples =>
            match tuple_position key tuples with
            | None => pure Unchanged
            | Some pos =>
                if (length tuples =? 1)%nat then without
                else with_entry (Bucket (delete pos tuples))
            end
        | Link sub_hash =>
            sub <-- load_sub sub_hash;;
            outcome <-- remove_at_node fuel' sub hash_bytes (S level) key false;;
            match outcome with
            | Unchanged => pure Unchanged
            | Modified new_sub => h <-- store_trie_node new_sub;; with_entry (Link h)
            | Inline tuples =>
                if bool_decide (tuples = []) then without
                else with_entry (Bucket (sort_by by_key tuples))
            end
        end
  end.

(** A node at level 52 has no bits of the key left, and a level more is fuel enough. *)
Definition MAX_LEVELS : nat := 52.
Definition trie_fuel : nat := S MAX_LEVELS.

Definition trie_put (root_hash : option Hash) (relative_key : list Z) (value_hash : Hash) : Trie St Hash :=
  λ s,
  let root := load_or_empty root_hash s in
  (new_root <-- put_at_node trie_fuel root (key_hash relative_key) 0 relative_key value_hash;;
   store_trie_node new_root) s.

(** The [unreachable!] of an inlined root is the panic. *)
Definition trie_remove (root_hash : option Hash) (relative_key : list Z) : Trie St Hash :=
  λ s,
  let root := load_or_empty root_hash s in
  (outcome <-- remove_at_node trie_fuel root (key_hash relative_key) 0 relative_key true;;
   match outcome with
   | Unchanged => store_trie_node root
   | Modified new_root => store_trie_node new_root
   | Inline _ => λ _, Panics
   end) s.

Definition build_trie (bindings : list (list Z * Hash)) : Trie St Hash :=
  root <-- fold_trie (λ root kv, put_at_node trie_fuel root (key_hash kv.1) 0 kv.1 kv.2) empty_node bindings;;
  store_trie_node root.

(** * Reading *)

Inductive TrieStep := Found (h : Hash) | Descend (h : Hash) | Absent.

(** [None] is a panic: bits past the hash, or a bitmap that promises more entries than there are. *)
Definition trie_step (node : SnapshotNodeData) (relative_key : list Z) (level : nat) : option TrieStep :=
  p ← bit_slice_at (key_hash relative_key) level;
  let '(bit_set, idx) := position (node_map node) p in
  if negb bit_set then Some Absent
  else
    entry ← node_data node !! idx;
    Some match entry with
         | Bucket tuples =>
             match find_first (λ kv, bool_decide (kv.1 = relative_key)) tuples with
             | Some kv => Found kv.2
             | None => Absent
             end
         | Link sub_hash => Descend sub_hash
         end.

(** The walk's loop; at level 52 the step panics, so the loop has at most 53 rounds.  [None]
    is the panic. *)
Fixpoint get_loop (fuel : nat) (node : SnapshotNodeData) (relative_key : list Z) (level : nat) (s : St)
    : option (option Hash) :=
  match fuel with
  | O => None
  | S fuel =>
      step ← trie_step node relative_key level;
      match step with
      | Found h => Some (Some h)
      | Absent => Some None
      | Descend sub =>
          match load_trie_node sub s with
          | Some node => get_loop fuel node relative_key (S level) s
          | None => Some None
          end
      end
  end.

Definition trie_get (root_hash : Hash) (relative_key : list Z) (s : St) : option (option Hash) :=
  match load_trie_node root_hash s with
  | Some node => get_loop trie_fuel node relative_key 0 s
  | None => Some None
  end.

(** * Collecting

    The walks over everything reachable recurse as deep as the stored links go; [None] is a
    walk deeper than its fuel. *)

Fixpoint fold_opt {A B} (f : B → A → option B) (acc : B) (l : list A) : option B :=
  match l with
  | [] => Some acc
  | x :: l' => acc' ← f acc x; fold_opt f acc' l'
  end.

Fixpoint collect_bindings_into (fuel : nat) (s : St) (node : SnapshotNodeData) (out : list (list Z * Hash))
    : option (list (list Z * Hash)) :=
  match fuel with
  | O => None
  | S fuel =>
      fold_opt (λ out entry,
        match entry with
        | Bucket b => Some (foldl (λ out kv, bt_insert kv.1 kv.2 out) out b)
        | Link h =>
            match load_trie_node h s with
            | Some sub => collect_bindings_into fuel s sub out
            | None => Some out
            end
        end) out (node_data node)
  end.

Definition collect_all_bindings (fuel : nat) (node_hash : Hash) (s : St) : option (list (list Z * Hash)) :=
  match load_trie_node node_hash s with
  | Some node => collect_bindings_into fuel s node []
  | None => Some []
  end.

(** [collect_closure_into], [collect_hashes_recursive] and [collect_reachable_hashes] are one
    function under three names. *)
Fixpoint collect_reachable_hashes (fuel : nat) (s : St) (node_hash : Hash) (collected : gset Hash)
    : option (gset Hash) :=
  match fuel with
  | O => None
  | S fuel =>
      if bool_decide (node_hash ∈ collected) then Some collected
      else
        let collected := {[node_hash]} ∪ collected in
        match load_trie_node node_hash s with
        | None => Some collected
        | Some node =>
            fold_opt (λ collected entry,
              match entry with
              | Bucket b => Some (foldl (λ c kv, {[kv.2]} ∪ c) collected b)
              | Link h => collect_reachable_hashes fuel s h collected
              end) collected (node_data node)
        end
  end.

Definition collect_node_closure (fuel : nat) (root_hash : Hash) (s : St) : option (gset Hash) :=
  collect_reachable_hashes fuel s root_hash ∅.
Definition collect_all_hashes (fuel : nat) (node_hash : Hash) (s : St) : option (gset Hash) :=
  collect_reachable_hashes fuel s node_hash ∅.

Fixpoint collect_trie_entities_except (fuel : nat) (s : St) (node_hash : Hash) (skip : gset Hash)
    (collected : gmap Hash Entity) : option (gmap Hash Entity) :=
  match fuel with
  | O => None
  | S fuel =>
      if bool_decide (node_hash ∈ skip) || bool_decide (is_Some (collected !! node_hash)) then Some collected
      else
        match store_get node_hash s with
        | None => Some collected
        | Some entity =>
            let collected := <[node_hash := entity]> collected in
            match node_from_cbor (data entity) with
            | None => Some collected
            | Some node =>
                fold_opt (λ collected entry,
                  match entry with
                  | Bucket b =>
                      Some (foldl (λ c kv,
                        if bool_decide (kv.2 ∈ skip) || bool_decide (is_Some (c !! kv.2)) then c
                        else match store_get kv.2 s with Some ent => <[kv.2 := ent]> c | None => c end)
                        collected b)
                  | Link h => collect_trie_entities_except fuel s h skip collected
                  end) collected (node_data node)
            end
        end
  end.
End trie.

Definition join_path (prefix suffix : list Z) : list Z :=
  if bool_decide (prefix = []) then suffix
  else if bool_decide (suffix = []) then prefix
  else prefix ++ [ch_slash] ++ suffix.

Definition sorted_parents (parents : list Hash) : list Hash := sort_by hash_cmp parents.
