(* ===== verification/Index.v ===== *)
(** The location index as its clients see it (the trait [LocationIndex] of
    [core/store/src/lib.rs]).

    What a write answers and what it triggers is the implementation's affair; the laws say what
    a client may rely on: reads after writes, and that a compare-and-set that fails changes
    nothing. *)
From S2P Require Import Prelude BTree ContentHash Entity Store Trie.

Class LocationIndex (L : Type) := {
  li_get : list Z → L → option Hash;
  li_list : list Z → L → list LocationEntry;
  li_set : list Z → Hash → L → L;
  li_remove : list Z → L → option Hash * L;
  li_set_ctx : list Z → Hash → ExecutionContext → L → CascadeResult * L;
  li_remove_ctx : list Z → ExecutionContext → L → (option Hash * CascadeResult) * L;
  li_swap : list Z → Hash → Hash → option ExecutionContext → L → result CasError unit * L;
  li_create : list Z → Hash → option ExecutionContext → L → result CasError unit * L;
  li_swap_ctx : list Z → Hash → Hash → ExecutionContext → L → result CasError CascadeResult * L;
  li_cas_remove_ctx : list Z → Hash → ExecutionContext → L → result CasError (Hash * CascadeResult) * L;
  li_create_ctx : list Z → Hash → ExecutionContext → L → result CasError CascadeResult * L;
}.

(** A compare-and-set whose change triggers nothing. *)
Definition quietly {A} (r : result CasError A * PathMap) : result CasError CascadeResult * PathMap :=
  (_ ← r.1; Ok empty_success, r.2).

(** [MemoryLocationIndex]: the methods with a context are the trait's defaults. *)
#[export] Instance memory_index : LocationIndex PathMap :=
  {| li_get path m := index_get m path;
     li_list prefix m := index_list m prefix;
     li_set path h m := index_set m path h;
     li_remove path m := index_remove m path;
     li_set_ctx path h _ m := (empty_success, index_set m path h);
     li_remove_ctx path _ m := let '(removed, m) := index_remove m path in ((removed, empty_success), m);
     li_swap path e n _ m := compare_and_swap m path e n;
     li_create path n _ m := compare_and_create m path n;
     li_swap_ctx path e n _ m := quietly (compare_and_swap m path e n);
     li_cas_remove_ctx path e _ m := let '(r, m) := compare_and_remove m path e in (h ← r; Ok (h, empty_success), m);
     li_create_ctx path n _ m := quietly (compare_and_create m path n) |}.

(** [NotifyingLocationIndex]: a run that its fuel did not cover would keep the state, but there is
    none in a sound world ([cascade_terminates]). *)
Definition performed (hooks : list SyncTreeHook) (op : StoreOp) (d : reply op) (w : World) : reply op * World :=
  default (d, w) (perform hooks op w).

Definition no_reply : CascadeResult := rejected depth_exceeded 0.

Definition notifying_index (hooks : list SyncTreeHook) : LocationIndex World :=
  {| li_get path w := index_get (paths w) path;
     li_list prefix w := index_list (paths w) prefix;
     li_set path h w := (performed hooks (OpSet path h None) no_reply w).2;
     li_remove path w := let '(r, w) := performed hooks (OpRemove path None) (None, no_reply) w in (r.1, w);
     li_set_ctx path h ctx w := performed hooks (OpSet path h (Some ctx)) no_reply w;
     li_remove_ctx path ctx w := performed hooks (OpRemove path (Some ctx)) (None, no_reply) w;
     li_swap path e n ctx w := let '(r, w) := performed hooks (OpSwap path e n ctx) (Err NotFound) w in (_ ← r; Ok tt, w);
     li_create path n ctx w := let '(r, w) := performed hooks (OpCreate path n ctx) (Err NotFound) w in (_ ← r; Ok tt, w);
     li_swap_ctx path e n ctx w := performed hooks (OpSwap path e n (Some ctx)) (Err NotFound) w;
     li_cas_remove_ctx path e ctx w := performed hooks (OpCasRemove path e (Some ctx)) (Err NotFound) w;
     li_create_ctx path n ctx w := performed hooks (OpCreate path n (Some ctx)) (Err NotFound) w |}.

(** Writes at storable paths are read back and leave other paths alone. *)
Class LocationIndexOk (L : Type) `{LocationIndex L} (wf : L → Prop) : Prop := {
  li_set_get p h t : wf t → path_is_storable p = true →
    wf (li_set p h t) ∧ ∀ q, li_get q (li_set p h t) = if decide (q = p) then Some h else li_get q t;
  li_swap_get p e n ctx t : wf t →
    match li_get p t with
    | Some c =>
        if decide (c = e) then
          ∃ t', li_swap p e n ctx t = (Ok tt, t') ∧ wf t'
            ∧ ∀ q, li_get q t' = if decide (q = p) then Some n else li_get q t
        else li_swap p e n ctx t = (Err (Mismatch c), t)
    | None => li_swap p e n ctx t = (Err NotFound, t)
    end;
  li_create_get p n ctx t : wf t →
    match li_get p t with
    | Some c => li_create p n ctx t = (Err (Mismatch c), t)
    | None => ∃ t', li_create p n ctx t = (Ok tt, t') ∧ wf t'
        ∧ ∀ q, li_get q t' = if decide (q = p) then Some n else li_get q t
    end;
}.

#[export] Instance memory_index_ok : LocationIndexOk PathMap bt_ok.
Proof.
  assert (Hins : ∀ (t : PathMap) p n, bt_ok t → bt_ok (bt_insert p n t)
    ∧ ∀ q, index_get (bt_insert p n t) q = if decide (q = p) then Some n else index_get t q).
  { intros t p n Ht. split; [by apply bt_insert_ok|]. intros q. unfold index_get.
    case_decide as Hq; [subst; by apply bt_get_insert_eq|by apply bt_get_insert_ne]. }
  constructor.
  - intros p h t Ht Hp. cbn. unfold index_set. rewrite Hp. by apply Hins.
  - intros p e n ctx t Ht. cbn. unfold index_get, compare_and_swap.
    destruct (bt_get p t) as [c|]; [|done]. case_decide as Hc.
    + rewrite bool_decide_eq_true_2 by done. eexists. split; [done|]. by apply Hins.
    + by rewrite bool_decide_eq_false_2.
  - intros p n ctx t Ht. cbn. unfold index_get, compare_and_create.
    destruct (bt_get p t) as [c|]; [done|]. eexists. split; [done|]. by apply Hins.
Qed.

(** * Running over both stores

    What handlers and hooks do to a content store and an index: they return, or they panic or
    walk out of their fuel, and then there is nothing to say. *)

Inductive Outcome (E St L A : Type) :=
  | Done (r : result E A) (s : St) (t : L)
  | Stuck.
Arguments Done {E St L A} r s t.
Arguments Stuck {E St L A}.

Definition Code (E St L A : Type) : Type := St → L → Outcome E St L A.

Definition returns {E St L A} (a : A) : Code E St L A := λ s t, Done (Ok a) s t.
Definition throws {E St L A} (e : E) : Code E St L A := λ s t, Done (Err e) s t.

Definition andthen {E St L A B} (m : Code E St L A) (f : A → Code E St L B) : Code E St L B :=
  λ s t, match m s t with
         | Done (Ok a) s t => f a s t
         | Done (Err e) s t => Done (Err e) s t
         | Stuck => Stuck
         end.
Notation "x <~ m ;; k" := (andthen m (λ x, k)) (at level 100, m at next level, right associativity).

(** Reading, writing and failing. *)
Definition asks {E St L A} (f : St → L → A) : Code E St L A := λ s t, Done (Ok (f s t)) s t.
Definition writes {E St L} (f : L → L) : Code E St L unit := λ s t, Done (Ok tt) s (f t).
Definition updates {E St L A} (f : L → A * L) : Code E St L A := λ s t, let '(a, t) := f t in Done (Ok a) s t.
Definition unwraps {E St L A} (o : option A) : Code E St L A :=
  λ s t, match o with Some a => Done (Ok a) s t | None => Stuck end.
Definition tries {E St L A} (r : result E A) : Code E St L A := λ s t, Done r s t.
Definition skip {E St L} : Code E St L unit := returns tt.

(** [for x in l { b = f(b, x); }] *)
Fixpoint fold_run {E St L A B} (f : B → A → Code E St L B) (b : B) (l : list A) : Code E St L B :=
  match l with
  | [] => returns b
  | x :: l => b <~ f b x;; fold_run f b l
  end.

(** Storing an entity, a failure under the client's name. *)
Definition stores {E St L} `{ContentStore St} (e : E) (entity : Entity) : Code E St L Hash :=
  λ s t, let '(r, s) := store_put entity s in Done (map_err (λ _, e) r) s t.

Lemma andthen_Ok {E St L A B} (m : Code E St L A) (f : A → Code E St L B) s t r s' t' :
  andthen m f s t = Done (Ok r) s' t' ↔ ∃ a s1 t1, m s t = Done (Ok a) s1 t1 ∧ f a s1 t1 = Done (Ok r) s' t'.
Proof.
  unfold andthen. destruct (m s t) as [[a|e] s1 t1|]; [|split; [done|intros (? & ? & ? & ? & _); done]..].
  split; [intros Hf; by exists a, s1, t1|]. intros (a' & s2 & t2 & Heq & Hf). injection Heq as <- <- <-. done.
Qed.

Lemma andthen_run {E St L A B} (m : Code E St L A) (f : A → Code E St L B) s t a s1 t1 :
  m s t = Done (Ok a) s1 t1 → andthen m f s t = f a s1 t1.
Proof. unfold andthen. by intros ->. Qed.

(** A run that returns, in a state that satisfies [Q]. *)
Definition lands {E St L A} (m : Code E St L A) (s : St) (t : L) (Q : A → St → L → Prop) : Prop :=
  ∃ a s' t', m s t = Done (Ok a) s' t' ∧ Q a s' t'.

Section lands.
Context {E St L : Type}.
Implicit Types (s : St) (t : L).

Lemma lands_bind {A B} (m : Code E St L A) (f : A → Code E St L B) s t Q R :
  lands m s t Q → (∀ a s' t', Q a s' t' → lands (f a) s' t' R) → lands (andthen m f) s t R.
Proof.
  intros (a & s1 & t1 & Em & HQ) Hf. destruct (Hf a s1 t1 HQ) as (b & s2 & t2 & Ef & HR). exists b, s2, t2. split; [|done].
  unfold andthen. by rewrite Em.
Qed.

Lemma lands_mono {A} (m : Code E St L A) s t (Q R : A → St → L → Prop) :
  lands m s t Q → (∀ a s' t', Q a s' t' → R a s' t') → lands m s t R.
Proof. intros (a & s1 & t1 & Em & HQ) Hr. exists a, s1, t1. auto. Qed.

Lemma lands_returns {A} (a : A) s t (Q : A → St → L → Prop) : Q a s t → lands (E := E) (returns a) s t Q.
Proof. intros HQ. by exists a, s, t. Qed.

(** A step that is known in full. *)
Lemma lands_then {A B} (m : Code E St L A) (f : A → Code E St L B) s t a s' t' R :
  m s t = Done (Ok a) s' t' → lands (f a) s' t' R → lands (andthen m f) s t R.
Proof. intros Em Hf. eapply (lands_bind m f s t (λ b s2 t2, b = a ∧ s2 = s' ∧ t2 = t')); [by exists a, s', t'|]. by intros ? ? ? (-> & -> & ->). Qed.
End lands.

(** The steps whose outcome is computed. *)
Ltac run_step := eapply lands_then; [reflexivity|]; cbv beta.

(** A run over the content store alone, its errors renamed. *)
Definition in_store {E St L A} (e : TrieError → E) (m : Trie St A) : Code E St L A :=
  λ s t, match m s with
         | Returns r s => Done (map_err e r) s t
         | Panics | Deep => Stuck
         end.

(** * Bindings relative to a prefix *)

(** The entries below [q] that are not skipped, keyed by the rest of their paths. *)
Lemma relative_bindings (skipped : list Z → bool) (q : list Z) (t : PathMap) :
  bt_ok t →
  let r := foldl (λ b e, if skipped (le_path e) then b else bt_insert (drop (length q) (le_path e)) (le_hash e) b)
             [] (index_list t q) in
  bt_ok r ∧ ∀ rel, bt_get rel r = if skipped (q ++ rel) then None else bt_get (q ++ rel) t.
Proof.
  intros Ht. unfold index_list.
  set (kept := filter (λ kv, skipped kv.1 = false) (prefix_range t q)).
  set (rels := map (λ kv, (drop (length q) kv.1, kv.2)) kept).
  assert (Hfold : ∀ (l : PathMap) acc,
    foldl (λ b e, if skipped (le_path e) then b else bt_insert (drop (length q) (le_path e)) (le_hash e) b) acc
      (map (λ kv, mkLocation kv.1 kv.2) l)
    = foldl (λ acc p, bt_insert p.1 p.2 acc) acc
        (map (λ kv, (drop (length q) kv.1, kv.2)) (filter (λ kv, skipped kv.1 = false) l))).
  { unfold PathMap. induction l as [|[k v] l IH]; intros acc; [done|]. cbn [map foldl le_path le_hash].
    rewrite IH, filter_cons. cbn [fst]. destruct (skipped k); [by rewrite decide_False|by rewrite decide_True]. }
  rewrite Hfold. fold kept. fold rels.
  assert (Hkept : ∀ k v, (k, v) ∈ kept ↔ skipped k = false ∧ bt_get k t = Some v ∧ q `prefix_of` k).
  { intros k v. unfold kept. rewrite list_elem_of_filter, prefix_range_elem, path_abs_lookup by done. done. }
  assert (Hnd : NoDup (map fst rels)).
  { unfold rels. rewrite map_map. cbn [fst]. assert (Hk : bt_ok kept) by (apply bt_filter_ok, prefix_range_ok, Ht).
    apply bt_keys_NoDup in Hk. revert Hk. assert (Hall : ∀ kv, kv ∈ kept → q `prefix_of` kv.1) by (intros [k v] Hin; by apply Hkept in Hin as (_ & _ & ?)).
    clear -Hall. induction kept as [|[k v] l IH]; cbn [map fst]; [constructor|]. intros [Hn Hnd]%NoDup_cons.
    apply NoDup_cons. split; [|apply IH; [|done]; intros kv Hkv; apply Hall; by right].
    intros ([k' v'] & Hd & Hin)%list_elem_of_fmap. cbn [fst] in *. destruct Hn.
    destruct (Hall (k, v) ltac:(by left)) as [a Ha]. destruct (Hall (k', v') ltac:(by right)) as [b Hb]. cbn [fst] in *.
    subst k k'. rewrite !drop_app_length in Hd. subst b. by apply (list_elem_of_fmap_2 fst _ (q ++ a, v')). }
  destruct (bt_fold_insert_get rels []) as [Hr Hg]; [constructor|done|].
  split; [done|]. intros rel. apply option_eq. intros v. rewrite Hg. unfold rels. split.
  - intros [([k v'] & Heq & Hin)%list_elem_of_fmap|[_ ?]]; [|done]. cbn [fst snd] in Heq. injection Heq as -> ->.
    apply Hkept in Hin as (Hs & Hget & [x ->]). by rewrite drop_app_length, Hs.
  - intros Hv. left. apply list_elem_of_fmap. exists (q ++ rel, v). cbn [fst snd]. rewrite drop_app_length. split; [done|].
    apply Hkept. destruct (skipped (q ++ rel)); [done|]. split_and!; [done|done|]. by exists rel.
Qed.
