(* ===== verification/Ingest.v ===== *)
(** Signatures that arrive with an envelope ([core/peer/src/ingest.rs]): each is stored and bound at
    the signer's path for its target before a handler runs. *)
From S2P Require Import Prelude BTree Ecf Cbor ContentHash Entity Identity Store Trie Index.

Inductive IngestError := SignaturePathConflict (path : list Z) (existing incoming : Hash) | IngestIo.

Section ingest.
Context `{Ciborium} `{Sha2} `{Base58} {St : Type} `{ContentStore St} {L : Type} `{LocationIndex L}.

Notation run := (Code IngestError St L).

Definition peer_id_from_identity_entity (e : Entity) : option (list Z) :=
  p ← ok (peer_from_entity e); canonical_peer_id p.

(** [if !store.has(hash) { store.put(entity)?; }] *)
Definition store_if_new (e : Entity) : run unit :=
  known <~ asks (λ s _, bool_decide (is_Some (store_get (content_hash e) s)));;
  if known : bool then skip else (_ <~ stores IngestIo e;; skip).

Definition ingest_peer (_ : unit) (e : Entity) : run unit :=
  if bool_decide (entity_type e = TYPE_PEER) then store_if_new e else skip.

(** The entity of the signer: of the store, or else of the envelope, which is then stored. *)
Definition signer_identity (included : list (Hash * Entity)) (signer : Hash) : run (option Entity) :=
  found <~ asks (λ s _, store_get signer s);;
  match found with
  | Some e => returns (Some e)
  | None =>
      match bt_get signer included with
      | Some e => _ <~ stores IngestIo e;; returns (Some e)
      | None => returns None
      end
  end.

(** The path is bound, unless it is bound to something else. *)
Definition bind_signature (path : list Z) (sig_hash : Hash) (count : Z) : run Z :=
  existing <~ asks (λ _ t, li_get path t);;
  match existing with
  | Some h => if negb (bool_decide (h = sig_hash)) then throws (SignaturePathConflict path h sig_hash) else returns count
  | None => _ <~ writes (li_set path sig_hash);; returns (count + 1)
  end.

Definition ingest_signature (included : list (Hash * Entity)) (count : Z) (e : Entity) : run Z :=
  if negb (bool_decide (entity_type e = TYPE_SIGNATURE)) then returns count
  else
    match signature_from_entity e with
    | Err _ => returns count
    | Ok sig =>
        identity <~ signer_identity included (sig_signer sig);;
        match identity with
        | None => returns count
        | Some id =>
            if negb (bool_decide (entity_type id = TYPE_PEER)) then returns count
            else
              match peer_id_from_identity_entity id with
              | None => returns count
              | Some peer_id =>
                  _ <~ store_if_new e;;
                  bind_signature (invariant_signature_path peer_id (sig_target sig)) (content_hash e) count
              end
        end
    end.

Definition ingest_envelope_signatures (included : list (Hash * Entity)) : run Z :=
  _ <~ fold_run ingest_peer tt (map snd included);;
  fold_run (ingest_signature included) 0 (map snd included).
End ingest.

(** * What ingestion does *)

Section spec.
Context `{Ciborium} `{Sha2} `{Base58} {St : Type} `{ContentStore St} (wf : St → Prop) `{!ContentStoreOk St wf}.
Context (included : list (Hash * Entity)).

(** A signature of the envelope at the path that belongs to it, for some identity of its signer. *)
Definition signature_binding (p : list Z) (h : Hash) : Prop :=
  ∃ e sig id peer, e ∈ map snd included ∧ content_hash e = h ∧ signature_from_entity e = Ok sig
    ∧ peer_id_from_identity_entity id = Some peer ∧ p = invariant_signature_path peer (sig_target sig).

(** The store has grown by entities of the envelope, and the tree by bindings of its signatures;
    what was bound stays as it was. *)
Record ingested (s : St) (t : PathMap) (s' : St) (t' : PathMap) : Prop := {
  in_store_wf : wf s';
  in_tree_ok : bt_ok t';
  in_store_keeps : ∀ h e, store_get h s = Some e → store_get h s' = Some e;
  in_store_new : ∀ h e, store_get h s' = Some e → store_get h s = None → h = content_hash e ∧ e ∈ map snd included;
  in_tree_keeps : ∀ p h, index_get t p = Some h → index_get t' p = Some h;
  in_tree_new : ∀ p h, index_get t' p = Some h → index_get t p = None → signature_binding p h;
}.

Definition keyed : Prop := bt_ok included ∧ ∀ h e, (h, e) ∈ included → h = content_hash e.

Lemma keyed_get e : keyed → e ∈ map snd included → bt_get (content_hash e) included = Some e.
Proof. intros [Hb Hk] ([h e'] & -> & Hin)%list_elem_of_fmap. cbn [snd]. rewrite <- (Hk _ _ Hin). by apply bt_get_elem. Qed.

Lemma get_keyed h e : keyed → bt_get h included = Some e → h = content_hash e ∧ e ∈ map snd included.
Proof. intros [Hb Hk] Hg%bt_get_elem; [|done]. split; [by apply Hk|]. apply list_elem_of_fmap. by exists (h, e). Qed.

Lemma ingested_refl s t : wf s → bt_ok t → ingested s t s t.
Proof. intros Hs Ht. constructor; [done|done|done|congruence|done|congruence]. Qed.

Lemma ingested_trans s0 t0 s1 t1 s2 t2 : ingested s0 t0 s1 t1 → ingested s1 t1 s2 t2 → ingested s0 t0 s2 t2.
Proof.
  intros H01 H12. constructor; [apply H12|apply H12|..].
  - intros h e He. by apply (in_store_keeps _ _ _ _ H12), (in_store_keeps _ _ _ _ H01).
  - intros h e He Hn. destruct (store_get h s1) as [e1|] eqn:E1; [|by apply (in_store_new _ _ _ _ H12)].
    pose proof (in_store_keeps _ _ _ _ H12 _ _ E1) as E2. rewrite He in E2. injection E2 as <-. by apply (in_store_new _ _ _ _ H01).
  - intros p h Hp. by apply (in_tree_keeps _ _ _ _ H12), (in_tree_keeps _ _ _ _ H01).
  - intros p h Hp Hn. destruct (index_get t1 p) as [h1|] eqn:E1; [|by apply (in_tree_new _ _ _ _ H12)].
    pose proof (in_tree_keeps _ _ _ _ H12 _ _ E1) as E2. rewrite Hp in E2. injection E2 as <-. by apply (in_tree_new _ _ _ _ H01).
Qed.

(** An entity of the envelope that the store has not is put there. *)
Lemma put_new s t e : wf s → bt_ok t → e ∈ map snd included → store_get (content_hash e) s = None →
  ∃ s', stores (L := PathMap) IngestIo e s t = Done (Ok (content_hash e)) s' t ∧ ingested s t s' t ∧ store_get (content_hash e) s' = Some e.
Proof.
  intros Hs Ht He Hn. destruct (store_put_get s e Hs) as (s' & Ep & Hs' & Hg); [intros e' He'; congruence|].
  exists s'. unfold stores. rewrite Ep. split_and!; [done| |by rewrite Hg, decide_True].
  constructor; [done|done|..|done|congruence]; intros h e'; rewrite Hg; case_decide as Hd; [congruence|done|..].
  - subst h. intros [= <-] _. done.
  - congruence.
Qed.

(** A signature is bound for the identity that the store, or else the envelope, has of its signer. *)
Definition bound (e : Entity) (s : St) (t : PathMap) : Prop :=
  ∀ sig id peer, signature_from_entity e = Ok sig →
    store_get (sig_signer sig) s = Some id ∨ store_get (sig_signer sig) s = None ∧ bt_get (sig_signer sig) included = Some id →
    peer_id_from_identity_entity id = Some peer → path_is_storable (invariant_signature_path peer (sig_target sig)) = true →
    index_get t (invariant_signature_path peer (sig_target sig)) = Some (content_hash e).

Lemma bound_kept e s t s' t' : keyed → ingested s t s' t' → bound e s t → bound e s' t'.
Proof.
  intros Hk Hi Hb sig id peer Hsig Hid Hpeer Hp. apply (in_tree_keeps _ _ _ _ Hi). apply (Hb sig id peer Hsig); [|done..].
  destruct (store_get (sig_signer sig) s) as [id0|] eqn:E0.
  - left. apply (in_store_keeps _ _ _ _ Hi) in E0. destruct Hid as [Hid|[Hid _]]; congruence.
  - right. split; [done|]. destruct Hid as [Hid|[_ Hid]]; [|done].
    destruct (in_store_new _ _ _ _ Hi _ _ Hid E0) as [-> Hin]. by apply keyed_get.
Qed.

(** How a step ends: what it did is ingestion, and an error is a conflict with what was bound. *)
Definition step_ok {A} (P : A → St → PathMap → Prop) (m : Code IngestError St PathMap A) (s : St) (t : PathMap) : Prop :=
  ∃ r s' t', m s t = Done r s' t' ∧ ingested s t s' t'
    ∧ match r with
      | Ok a => P a s' t'
      | Err (SignaturePathConflict p h h') => index_get t' p = Some h ∧ h ≠ h' ∧ signature_binding p h'
      | Err IngestIo => False
      end.

Lemma step_bind {A B} (m : Code IngestError St PathMap A) (f : A → Code IngestError St PathMap B) s t P Q :
  step_ok P m s t → (∀ a s' t', ingested s t s' t' → P a s' t' → step_ok Q (f a) s' t') → step_ok Q (andthen m f) s t.
Proof.
  intros (r & s1 & t1 & Em & Hi & Hr) Hf. destruct r as [a|e].
  - destruct (Hf a s1 t1 Hi Hr) as (r & s2 & t2 & Ef & Hi2 & Hr2). exists r, s2, t2.
    unfold andthen. rewrite Em. split_and!; [done|by eapply ingested_trans|done].
  - exists (Err e), s1, t1. unfold andthen. rewrite Em. split_and!; [done|done|by destruct e].
Qed.

Lemma step_asks {A B} (g : St → PathMap → A) (f : A → Code IngestError St PathMap B) s t P :
  step_ok P (f (g s t)) s t → step_ok P (andthen (asks g) f) s t.
Proof. done. Qed.

Lemma step_returns {A} (a : A) s t (P : A → St → PathMap → Prop) : wf s → bt_ok t → P a s t → step_ok P (returns a) s t.
Proof. intros Hs Ht HP. exists (Ok a), s, t. split_and!; [done|by apply ingested_refl|done]. Qed.

Lemma step_mono {A} (m : Code IngestError St PathMap A) s t P Q :
  step_ok P m s t → (∀ a s' t', ingested s t s' t' → P a s' t' → Q a s' t') → step_ok Q m s t.
Proof. intros (r & s' & t' & Em & Hi & Hr) Hf. exists r, s', t'. split_and!; [done|done|]. destruct r as [a|[]]; auto. Qed.

Lemma store_if_new_ok e s t : wf s → bt_ok t → e ∈ map snd included → step_ok (λ _ _ t', t' = t) (store_if_new e) s t.
Proof.
  intros Hs Ht He. unfold store_if_new. apply step_asks. case_bool_decide as Hk; [by apply step_returns|].
  destruct (put_new s t e Hs Ht He) as (s' & Ep & Hi & _); [by apply eq_None_not_Some|].
  exists (Ok tt), s', t. unfold andthen. rewrite Ep. done.
Qed.

Lemma ingest_peer_ok u e s t : wf s → bt_ok t → e ∈ map snd included → step_ok (λ _ _ _, True) (ingest_peer u e) s t.
Proof.
  intros Hs Ht He. unfold ingest_peer. destruct (bool_decide (entity_type e = TYPE_PEER)); [|apply step_returns; [done|done|exact I]].
  eapply step_mono; [exact (store_if_new_ok e s t Hs Ht He)|intros; exact I].
Qed.

Lemma signer_identity_ok signer s t : keyed → wf s → bt_ok t →
  step_ok (λ o s' t', t' = t ∧ o = store_get signer s' ∧ (o = None → bt_get signer included = None)) (signer_identity included signer) s t.
Proof.
  intros Hk Hs Ht. unfold signer_identity. apply step_asks.
  destruct (store_get signer s) as [e|] eqn:Eg; [by apply step_returns|].
  destruct (bt_get signer included) as [e|] eqn:Ei; [|by apply step_returns].
  destruct (get_keyed _ _ Hk Ei) as [-> He]. destruct (put_new s t e Hs Ht He Eg) as (s' & Ep & Hi & Hg).
  exists (Ok (Some e)), s', t. unfold andthen. rewrite Ep. split_and!; [done|done|done|by rewrite Hg|done].
Qed.

Lemma bind_signature_ok path h n s t : wf s → bt_ok t → signature_binding path h →
  step_ok (λ _ _ t', path_is_storable path = true → index_get t' path = Some h) (bind_signature path h n) s t.
Proof.
  intros Hs Ht Hb. unfold bind_signature. apply step_asks. cbn [li_get memory_index].
  destruct (index_get t path) as [h'|] eqn:Eg.
  - case_bool_decide as Hh; cbn [negb]; [by subst; apply step_returns|].
    exists (Err (SignaturePathConflict path h' h)), s, t. split_and!; [done|by apply ingested_refl|done|done|done].
  - exists (Ok (n + 1)), s, (index_set t path h). split_and!; [done|..].
    + unfold index_set, index_get in *. destruct (path_is_storable path) eqn:Ep; cbn [negb]; [|by apply ingested_refl].
      constructor; [done|by apply bt_insert_ok|done|congruence|..]; intros p h'; unfold index_get.
      * intros Hp. rewrite bt_get_insert_ne; [done|done|congruence].
      * destruct (decide (path = p)) as [<-|Hne]; [rewrite bt_get_insert_eq by done; by intros [= <-] _|].
        rewrite bt_get_insert_ne by done. congruence.
    + intros Hp. unfold index_set, index_get. rewrite Hp. by apply bt_get_insert_eq.
Qed.

Lemma signature_type e sig : signature_from_entity e = Ok sig → entity_type e = TYPE_SIGNATURE.
Proof. unfold signature_from_entity. by case_bool_decide. Qed.

Lemma ingest_signature_ok n e s t : keyed → wf s → bt_ok t → e ∈ map snd included →
  step_ok (λ _ s' t', bound e s' t') (ingest_signature included n e) s t.
Proof.
  intros Hk Hs Ht He. unfold ingest_signature. case_bool_decide as Hty; cbn [negb].
  2: { apply step_returns; [done|done|]. intros sig id peer Hsig. by apply signature_type in Hsig. }
  destruct (signature_from_entity e) as [sig|] eqn:Esig.
  2: { apply step_returns; [done|done|]. intros sig id peer Hsig. congruence. }
  eapply step_bind; [by apply signer_identity_ok|]. intros o s1 t1 Hi1 (-> & -> & Hnone).
  pose proof (in_store_wf _ _ _ _ Hi1) as Hs1.
  assert (Hid : ∀ id, store_get (sig_signer sig) s1 = Some id
    ∨ store_get (sig_signer sig) s1 = None ∧ bt_get (sig_signer sig) included = Some id → store_get (sig_signer sig) s1 = Some id).
  { intros id [Hid|[Hid Hin]]; [done|]. rewrite (Hnone Hid) in Hin. done. }
  destruct (store_get (sig_signer sig) s1) as [id|] eqn:Eid.
  2: { apply step_returns; [done|done|]. intros sig' id' peer Hsig' Hid'. replace sig' with sig in * by congruence.
       rewrite Eid in Hid'. apply Hid in Hid'. done. }
  destruct (bool_decide (entity_type id = TYPE_PEER)) eqn:Etp; cbn [negb].
  2: { apply step_returns; [done|done|]. intros sig' id' peer Hsig' Hid' Hp. replace sig' with sig in * by congruence.
       rewrite Eid in Hid'. apply Hid in Hid'. injection Hid' as <-. unfold peer_id_from_identity_entity, peer_from_entity in Hp. by rewrite Etp in Hp. }
  destruct (peer_id_from_identity_entity id) as [peer|] eqn:Epeer.
  2: { apply step_returns; [done|done|]. intros sig' id' peer Hsig' Hid' Hp. replace sig' with sig in * by congruence.
       rewrite Eid in Hid'. apply Hid in Hid'. congruence. }
  eapply step_bind; [by apply store_if_new_ok|]. intros [] s2 t2 Hi2 ->. eapply step_mono.
  { apply bind_signature_ok; [apply Hi2|done|]. by exists e, sig, id, peer. }
  intros m s3 t3 Hi3 Hb sig' id' peer' Hsig' Hid' Hp. replace sig' with sig in * by congruence.
  pose proof (ingested_trans _ _ _ _ _ _ Hi2 Hi3) as Hi23. pose proof (in_store_keeps _ _ _ _ Hi23 _ _ Eid) as Eid3.
  assert (id' = id) as -> by (destruct Hid' as [?|[? _]]; congruence). replace peer' with peer by congruence. exact Hb.
Qed.

Lemma fold_step {A B} (f : B → A → Code IngestError St PathMap B) (P : A → St → PathMap → Prop) l :
  (∀ b a s t, wf s → bt_ok t → a ∈ l → step_ok (λ _, P a) (f b a) s t) →
  (∀ a s t s' t', ingested s t s' t' → P a s t → P a s' t') →
  ∀ b s t, wf s → bt_ok t → step_ok (λ _ s' t', ∀ a, a ∈ l → P a s' t') (fold_run f b l) s t.
Proof.
  intros Hf Hkeep. assert (Hgen : ∀ k b s t, k ⊆ l → wf s → bt_ok t → step_ok (λ _ s' t', ∀ a, a ∈ k → P a s' t') (fold_run f b k) s t).
  { induction k as [|a k IH]; intros b s t Hk Hs Ht; cbn [fold_run].
    - apply step_returns; [done|done|]. intros ? []%elem_of_nil.
    - eapply step_bind; [apply Hf; [done|done|set_solver]|]. intros b' s1 t1 Hi1 Ha.
      eapply step_mono; [apply IH; [set_solver|apply Hi1|apply Hi1]|].
      intros b2 s2 t2 Hi2 Hl a' [->|Ha']%elem_of_cons; [by eapply Hkeep|by apply Hl]. }
  intros b s t. by apply Hgen.
Qed.

(** Ingestion binds every signature whose signer it can name, or stops at one whose path is bound to
    something else; in both cases it has only added. *)
Lemma ingest_envelope_ok s t : keyed → wf s → bt_ok t →
  step_ok (λ _ s' t', ∀ e, e ∈ map snd included → bound e s' t') (ingest_envelope_signatures included) s t.
Proof.
  intros Hk Hs Ht. unfold ingest_envelope_signatures. eapply step_bind.
  - apply (fold_step ingest_peer (λ _ _ _, True)); [|exact (λ _ _ _ _ _ _ _, I)|done|done]. intros. by apply ingest_peer_ok.
  - intros _ s1 t1 Hi1 _. apply (fold_step (ingest_signature included) bound); [|..|apply Hi1|apply Hi1].
    + intros. by apply ingest_signature_ok.
    + intros. by eapply bound_kept.
Qed.
End spec.
