(* ===== verification/Handler.v ===== *)
(** What handlers share ([core/handler/src/lib.rs]): the context they run in, their results, how
    the subject of a request is selected from its targets, and how a path finds its handler.

    A refusal is its status and its code; its text is left out.  [execute_fn], through which a
    handler calls another, is not part of the context here. *)
From S2P Require Import Prelude BTree Ecf Cbor ContentHash Entity Capability Store Trie Index.

Definition STATUS_OK : Z := 200.
Definition STATUS_MULTI_STATUS : Z := 207.
Definition STATUS_BAD_REQUEST : Z := 400.
Definition STATUS_FORBIDDEN : Z := 403.
Definition STATUS_NOT_FOUND : Z := 404.
Definition STATUS_CONFLICT : Z := 409.
Definition STATUS_PAYLOAD_TOO_LARGE : Z := 413.
Definition STATUS_NOT_SUPPORTED : Z := 501.

Definition TYPE_ERROR : list Z := lit "system/protocol/error".
Definition TYPE_HANDLER : list Z := lit "system/handler".

Inductive HandlerError := InvalidParams | NotSupported | Internal.

(** * Results *)

Record HandlerResult := mkHandlerResult { status : Z; result_entity : Entity; hr_included : gmap Hash Entity }.

Definition handler_ok (e : Entity) : HandlerResult := mkHandlerResult STATUS_OK e ∅.
Definition handler_error (st : Z) (e : Entity) : HandlerResult := mkHandlerResult st e ∅.
Definition ok_with_included (e : Entity) (included : gmap Hash Entity) : HandlerResult := mkHandlerResult STATUS_OK e included.

(** An answer, or a refusal with its status and its code. *)
Inductive Reply := Answered (r : HandlerResult) | Refused (st : Z) (code : list Z).

(** [None] is the panic of an error that cannot be built. *)
Definition error_entity `{Sha2} (home : Z) (code message : list Z) : option Entity :=
  ok (entity_new home TYPE_ERROR (to_ecf (VMap [(text (lit "code"), text code); (text (lit "message"), text message)]))).

(** A reply as the result that is sent; what cannot be built has no entity. *)
Definition answer_of `{Sha2} (home : Z) (reply : Reply) : HandlerResult :=
  match reply with
  | Answered r => r
  | Refused st code => handler_error st (default (mkEntity [] [] hash_zero) (error_entity home code []))
  end.

Definition error_field (acc : option (list Z) * option (list Z)) (kv : Value * Value) : option (list Z) * option (list Z) :=
  match kv.1, kv.2 with
  | VText k, VText s =>
      if bool_decide (k = lit "code") then (Some s, acc.2)
      else if bool_decide (k = lit "message") then (acc.1, Some s)
      else acc
  | _, _ => acc
  end.

Definition decode_error_entity `{Ciborium} (entity : Entity) : option (option (list Z) * option (list Z)) :=
  if negb (bool_decide (entity_type entity = TYPE_ERROR)) then None
  else match from_reader (data entity) with
       | Some (VMap m) => Some (foldl error_field (None, None) m)
       | _ => Some (None, None)
       end.

(** * Bounds *)

Record Bounds := mkBounds {
  ttl : option Z; budget : option Z; b_cascade_depth : option Z; chain_depth : option Z;
  b_chain_id : option (list Z); b_parent_chain_id : option (list Z); visited : list (list Z);
}.

Definition bounds_decrement (b : Bounds) : result HandlerError Bounds :=
  match ttl b with
  | Some n =>
      if n =? 0 then Err Internal
      else Ok (mkBounds (Some (n - 1)) (budget b) (b_cascade_depth b) (chain_depth b) (b_chain_id b)
                 (b_parent_chain_id b) (visited b))
  | None => Ok b
  end.

(** * The context of a request *)

Record HandlerContext := mkHandlerContext {
  hc_handler_grant : option CapabilityToken;
  hc_caller_capability : option CapabilityToken;
  hc_execute : Entity;
  hc_params : Entity;
  hc_pattern : list Z;
  hc_suffix : list Z;
  hc_resource_target : option ResourceTarget;
  hc_author : option Hash;
  hc_session_peer_id : option (list Z);
  hc_request_id : list Z;
  hc_operation : list Z;
  hc_included : gmap Hash Entity;
  hc_matching_grant : option GrantEntry;
  hc_capability_hash : option Hash;
  hc_handler_grant_hash : option Hash;
  hc_bounds : option Bounds;
  is_external : bool;
  reactive_trigger : bool;
}.

(** * The subject of a request *)

Inductive ResourceSubject := Absent | SelfExcluded | One (path : list Z).

Definition path_required {A} : Reply + A := inl (Refused STATUS_BAD_REQUEST (lit "path_required")).

(** The arity of the targets that the request does not itself exclude; the one that is left is
    made absolute. *)
Definition single_effective_target (resource_target : option ResourceTarget) (local_peer_id : list Z)
    : Reply + ResourceSubject :=
  let named_a_target := match resource_target with Some rt => negb (bool_decide (targets rt = [])) | None => false end in
  match effective_targets resource_target local_peer_id with
  | [] => inr (if named_a_target then SelfExcluded else Absent)
  | [target] => inr (One (canonicalize target local_peer_id))
  | _ => inl (Refused STATUS_BAD_REQUEST (lit "ambiguous_resource"))
  end.

Definition self_excluded_refusal : Reply := Refused STATUS_BAD_REQUEST (lit "path_required").

Definition optional_single_resource_path (resource_target : option ResourceTarget) (local_peer_id : list Z)
    : Reply + option (list Z) :=
  match single_effective_target resource_target local_peer_id with
  | inl r => inl r
  | inr Absent => inr None
  | inr SelfExcluded => inl self_excluded_refusal
  | inr (One path) =>
      if contains_byte ch_star path then inl (Refused STATUS_BAD_REQUEST (lit "malformed_resource")) else inr (Some path)
  end.

Definition require_single_resource_path (resource_target : option ResourceTarget) (local_peer_id : list Z)
    : Reply + list Z :=
  match optional_single_resource_path resource_target local_peer_id with
  | inl r => inl r
  | inr (Some path) => inr path
  | inr None => path_required
  end.

(** * Finding the handler *)

(** [segments.join(sep)] for one byte *)
Fixpoint join_with (c : Z) (l : list (list Z)) : list Z :=
  match l with
  | [] => []
  | [s] => s
  | s :: l => s ++ [c] ++ join_with c l
  end.

(** The handlers in memory, by their patterns. *)
Definition HandlerRegistry (H : Type) := list (list Z * H).

Definition registry_register {H} (pattern : list Z) (handler : H) (r : HandlerRegistry H) : HandlerRegistry H :=
  bt_insert pattern handler r.
Definition registry_unregister {H} (pattern : list Z) (r : HandlerRegistry H) : bool * HandlerRegistry H :=
  (bool_decide (is_Some (bt_get pattern r)), bt_remove pattern r).
Definition registry_get {H} (pattern : list Z) (r : HandlerRegistry H) : option H := bt_get pattern r.
Definition registry_patterns {H} (r : HandlerRegistry H) : list (list Z) := map fst r.

Record ResolvedHandler (H : Type) := mkResolved {
  rh_handler : option H; rh_manifest : option Entity; rh_pattern : list Z; rh_suffix : list Z;
}.
Arguments mkResolved {H}.
Arguments rh_handler {H}.
Arguments rh_manifest {H}.
Arguments rh_pattern {H}.
Arguments rh_suffix {H}.

Section resolve.
Context {St : Type} `{ContentStore St} {L : Type} `{LocationIndex L} {F : Type}.
Context (s : St) (t : L) (registry : HandlerRegistry F).

(** The manifest and the code at a path. *)
Definition manifest_at (prefix : list Z) : option Entity :=
  h ← li_get prefix t;
  e ← store_get h s;
  if bool_decide (entity_type e = TYPE_HANDLER) then Some e else None.

Definition resolve_at (path prefix : list Z) : option (ResolvedHandler F) :=
  match registry_get prefix registry, manifest_at prefix with
  | None, None => None
  | handler, manifest => Some (mkResolved handler manifest prefix (drop (length prefix) path))
  end.

Fixpoint resolve_from (path : list Z) (segments : list (list Z)) (i : nat) : option (ResolvedHandler F) :=
  match i with
  | O => None
  | S i' =>
      match resolve_at path (join_with ch_slash (take i segments)) with
      | Some r => Some r
      | None => resolve_from path segments i'
      end
  end.

Definition resolve_handler (path : list Z) : option (ResolvedHandler F) :=
  let segments := split_on ch_slash path in
  resolve_from path segments (length segments).
End resolve.

(** * Lemmas *)

(** ** Segments *)

(** A path that ends where a segment of the other ends. *)
Definition segment_prefix (q p : list Z) : Prop := q = p ∨ (q ++ [ch_slash]) `prefix_of` p.

Lemma segment_prefix_rest q p : segment_prefix q p → q ++ drop (length q) p = p.
Proof.
  intros [->|[r ->]]; [by rewrite drop_all, app_nil_r|]. by rewrite <- !app_assoc, drop_app_length.
Qed.

Lemma split_on_ne c s : split_on c s ≠ [].
Proof. induction s as [|b s IH]; cbn; [done|]. case_decide; [done|]. by destruct (split_on c s). Qed.

Lemma join_split c s : join_with c (split_on c s) = s.
Proof.
  induction s as [|b s IH]; [done|]. cbn [split_on]. pose proof (split_on_ne c s) as Hne. case_decide as Hb.
  - subst b. destruct (split_on c s) as [|x l]; [done|]. cbn [join_with app]. by rewrite <- IH.
  - destruct (split_on c s) as [|x l]; [done|]. cbn [join_with] in *. destruct l; cbn [app]; by rewrite <- IH.
Qed.

Lemma split_no_sep c s : Forall (λ w, c ∉ w) (split_on c s).
Proof.
  induction s as [|b s IH]; cbn [split_on]; [by constructor; [set_solver|]|]. case_decide as Hb; [by constructor; [set_solver|]|].
  destruct (split_on c s) as [|w l]; [constructor; [set_solver|constructor]|].
  inversion_clear IH as [|? ? Hw Hl]. constructor; [|done]. set_solver.
Qed.

Lemma join_cons c s l : l ≠ [] → join_with c (s :: l) = s ++ [c] ++ join_with c l.
Proof. by destruct l. Qed.

(** The first segments of a path end where a segment ends, and nothing else does. *)
Lemma cut_prefix l i : (1 ≤ i ≤ length l)%nat → segment_prefix (join_with ch_slash (take i l)) (join_with ch_slash l).
Proof.
  revert i. induction l as [|s l IH]; intros [|i] [? Hi]; [cbn in *; lia..|]. cbn [take length] in *.
  destruct (decide (l = [])) as [->|Hl]; [rewrite take_nil; by left|]. rewrite (join_cons _ s l) by done.
  destruct (decide (i = 0%nat)) as [->|Hi0]; [right; cbn [take join_with]; exists (join_with ch_slash l); by rewrite <- app_assoc|].
  rewrite join_cons by (destruct l; [done|]; by destruct i).
  destruct (IH i ltac:(lia)) as [Heq|[r Hr]]; [left; by rewrite Heq|right; exists r; rewrite Hr, <- !app_assoc; done].
Qed.

Lemma prefix_cut l q :
  l ≠ [] → Forall (λ w, ch_slash ∉ w) l → segment_prefix q (join_with ch_slash l) →
  ∃ i, (1 ≤ i ≤ length l)%nat ∧ q = join_with ch_slash (take i l).
Proof.
  intros Hne Hl. revert q. induction Hl as [|s l Hs Hl IH]; intros q Hq; [done|].
  destruct Hq as [->|Hq]; [exists (length (s :: l)); rewrite firstn_all; cbn; split; [lia|done]|].
  destruct (decide (l = [])) as [->|Hl0].
  { destruct Hq as [r Hr]. cbn [join_with] in Hr. destruct Hs. rewrite Hr. set_solver. }
  rewrite join_cons in Hq by done. rewrite app_assoc in Hq.
  destruct (prefix_weak_total (q ++ [ch_slash]) (s ++ [ch_slash]) _ Hq ltac:(by eexists)) as [[r Hr]|[r Hr]].
  - destruct r as [|x r] using rev_ind.
    + rewrite app_nil_r in Hr. apply app_inj_tail in Hr as [-> _]. exists 1%nat. cbn. split; [lia|by rewrite take_0].
    + rewrite app_assoc in Hr. apply app_inj_tail in Hr as [-> _]. destruct Hs. set_solver.
  - destruct r as [|x r _] using rev_ind.
    + rewrite app_nil_r in Hr. apply app_inj_tail in Hr as [-> _]. exists 1%nat. cbn. split; [lia|by rewrite take_0].
    + rewrite app_assoc in Hr. apply app_inj_tail in Hr as [-> <-].
      destruct (IH Hl0 r) as (i & Hi & ->).
      { right. destruct Hq as [z Hz]. exists z. rewrite <- !app_assoc in Hz. by simplify_list_eq. }
      exists (S i). cbn [length take]. split; [lia|]. rewrite join_cons; [by rewrite <- app_assoc|].
      destruct l; [done|]. destruct i; [lia|done].
Qed.

Lemma cut_length l i j : (1 ≤ i < j)%nat → (j ≤ length l)%nat →
  (length (join_with ch_slash (take i l)) < length (join_with ch_slash (take j l)))%nat.
Proof.
  intros Hij Hj. destruct (cut_prefix (take j l) i) as [Heq|[r Hr]]; [rewrite length_take; lia| |].
  - exfalso. rewrite take_take, Nat.min_l in Heq by lia. revert i j Hij Hj Heq. induction l as [|s l IH]; intros; [cbn in *; lia|].
    destruct i as [|i], j as [|j]; [lia..|]. cbn [take length] in *. destruct l as [|x l]; [cbn in *; lia|].
    destruct j as [|j]; [lia|]. rewrite (join_cons _ s (take (S j) (x :: l))) in Heq by done. destruct i as [|i].
    + rewrite take_0 in Heq. cbn [join_with] in Heq. apply (f_equal length) in Heq. rewrite !length_app in Heq. cbn in Heq. lia.
    + rewrite join_cons in Heq by done. apply app_inv_head, app_inv_head in Heq. apply (IH (S i) (S j)); [lia|lia|done].
  - rewrite take_take, Nat.min_l in Hr by lia. rewrite Hr, !length_app. cbn. lia.
Qed.

Section resolved.
Context {St : Type} `{ContentStore St} {L : Type} `{LocationIndex L} {F : Type}.
Context (s : St) (t : L) (registry : HandlerRegistry F) (path : list Z).

(** What serves a path itself. *)
Definition serves (q : list Z) : option F * option Entity := (registry_get q registry, manifest_at s t q).

Lemma resolve_at_spec q :
  match resolve_at s t registry path q with
  | Some r => serves q ≠ (None, None) ∧ r = mkResolved (serves q).1 (serves q).2 q (drop (length q) path)
  | None => serves q = (None, None)
  end.
Proof. unfold resolve_at, serves. by destruct (registry_get q registry), (manifest_at s t q). Qed.

Lemma resolve_from_spec l i :
  match resolve_from s t registry path l i with
  | Some r => ∃ j, (1 ≤ j ≤ i)%nat ∧ resolve_at s t registry path (join_with ch_slash (take j l)) = Some r
                   ∧ ∀ k, (j < k ≤ i)%nat → serves (join_with ch_slash (take k l)) = (None, None)
  | None => ∀ k, (1 ≤ k ≤ i)%nat → serves (join_with ch_slash (take k l)) = (None, None)
  end.
Proof.
  induction i as [|i IH]; [cbn; intros; lia|]. cbn [resolve_from].
  pose proof (resolve_at_spec (join_with ch_slash (take (S i) l))) as Ha.
  destruct (resolve_at _ _ _ _ _) as [r|] eqn:Er; [exists (S i); split_and!; [lia|lia|done|intros; lia]|].
  assert (Hlast : ∀ k, k = S i → serves (join_with ch_slash (take k l)) = (None, None)) by (by intros ? ->).
  destruct (resolve_from _ _ _ _ _ _) as [r|].
  - destruct IH as (j & Hj & Hat & Hk). exists j. split; [lia|]. split; [done|]. intros k ?.
    destruct (decide (k = S i)); [by apply Hlast|apply Hk; lia].
  - intros k ?. destruct (decide (k = S i)); [by apply Hlast|apply IH; lia].
Qed.
End resolved.

(** * Theorems *)

(** The handler of a path is found at its longest prefix of whole segments that has code in
    the registry or a manifest in the tree: the answer is both of that prefix, with the rest of the
    path as suffix; there is none only if no prefix has either. *)
Theorem resolve_handler_longest {St} `{ContentStore St} {L} `{LocationIndex L} {F : Type}
    (s : St) (t : L) (registry : HandlerRegistry F) path :
  match resolve_handler s t registry path with
  | Some r =>
      let q := rh_pattern r in
      segment_prefix q path ∧ q ++ rh_suffix r = path
      ∧ (rh_handler r, rh_manifest r) = serves s t registry q ∧ serves s t registry q ≠ (None, None)
      ∧ ∀ p, segment_prefix p path → (length q < length p)%nat → serves s t registry p = (None, None)
  | None => ∀ p, segment_prefix p path → serves s t registry p = (None, None)
  end.
Proof.
  unfold resolve_handler. pose proof (resolve_from_spec s t registry path (split_on ch_slash path) (length (split_on ch_slash path))) as Hr.
  assert (Hcut : ∀ p, segment_prefix p path → ∃ i, (1 ≤ i ≤ length (split_on ch_slash path))%nat
                   ∧ p = join_with ch_slash (take i (split_on ch_slash path))).
  { intros p Hp. apply prefix_cut; [apply split_on_ne|apply split_no_sep|by rewrite join_split]. }
  destruct (resolve_from _ _ _ _ _ _) as [r|]; [|intros p (i & Hi & ->)%Hcut; by apply Hr].
  destruct Hr as (j & Hj & Hat & Hk). pose proof (resolve_at_spec s t registry path (join_with ch_slash (take j (split_on ch_slash path)))) as Ha.
  rewrite Hat in Ha. destruct Ha as [Hne ->]. cbn [rh_pattern rh_suffix rh_handler rh_manifest]. cbv zeta.
  pose proof (cut_prefix (split_on ch_slash path) j Hj) as Hseg. rewrite join_split in Hseg. split_and!; [done| |done|done|].
  - by apply segment_prefix_rest.
  - intros p (i & Hi & ->)%Hcut Hlen. apply Hk. split; [|lia]. destruct (decide (j < i)%nat) as [|Hge]; [done|].
    exfalso. destruct (decide (i = j)) as [->|]; [lia|]. pose proof (cut_length (split_on ch_slash path) i j ltac:(lia) ltac:(lia)). lia.
Qed.
