(* ===== verification/Durability.v ===== *)
(** What a request may ask of durability ([extensions/durability/src/lib.rs]): the levels, the
    request's marker, and the verdict by which a peer answers it. *)
From S2P Require Import Prelude BTree Ecf Cbor Entity Handler.

Definition STATUS_ACCEPTED : Z := 202.
Definition STATUS_PRECONDITION_FAILED : Z := 412.

Definition REASON_NO_DURABLE_STORE : list Z := lit "no_durable_store".
Definition REASON_REQUIRED_UNMET : list Z := lit "durability_required_unmet".
Definition REASON_UNKNOWN_LEVEL : list Z := lit "unknown_level".
Definition REASON_DUPLICATE_REQUEST_ID : list Z := lit "duplicate_request_id".

(** [None] of the code is [Volatile]. *)
Inductive DurabilityLevel := Volatile | Stored | Replicated | UnknownLevel (s : list Z).

#[export] Instance DurabilityLevel_eq_dec : EqDecision DurabilityLevel.
Proof. solve_decision. Defined.

Definition level_parse (s : list Z) : DurabilityLevel :=
  if bool_decide (s = lit "none") then Volatile
  else if bool_decide (s = lit "stored") then Stored
  else if bool_decide (s = lit "replicated") then Replicated
  else UnknownLevel s.

Definition level_str (l : DurabilityLevel) : list Z :=
  match l with Volatile => lit "none" | Stored => lit "stored" | Replicated => lit "replicated" | UnknownLevel s => s end.

Definition level_rank (l : DurabilityLevel) : Z :=
  match l with Volatile => 0 | Stored => 1 | Replicated => 2 | UnknownLevel _ => 255 end.

Definition self_determinable (l : DurabilityLevel) : bool := match l with Volatile | Stored => true | _ => false end.

Record DurabilityPolicy := mkPolicy { max_self_determinable : DurabilityLevel }.
Definition default_policy : DurabilityPolicy := mkPolicy Stored.

Record DurabilityRequest := mkDurabilityRequest { dr_level : list Z; must_have : bool }.

Record DurabilityResult := mkDurability {
  requested : list Z; applied : list Z; committed : option (list Z); max_available : option (list Z);
  reason : option (list Z); handle_at : option (list Z);
}.

Definition text_entry (key : string) (o : option (list Z)) : list (Value * Value) :=
  match o with Some s => [(text (lit key), text s)] | None => [] end.

Definition durability_fields (r : DurabilityResult) : list (Value * Value) :=
  [(text (lit "requested"), text (requested r)); (text (lit "applied"), text (applied r))]
  ++ text_entry "committed" (committed r) ++ text_entry "max_available" (max_available r)
  ++ text_entry "reason" (reason r) ++ text_entry "handle" (handle_at r).

Definition durability_cbor (r : DurabilityResult) : list Z := to_ecf (VMap (durability_fields r)).

Record DurabilityVerdict := mkVerdict { dv_status : Z; dv_result : DurabilityResult }.

Definition verdict_refused (v : DurabilityVerdict) : bool := dv_status v =? STATUS_PRECONDITION_FAILED.
Definition verdict_preserve (v : DurabilityVerdict) : bool := level_rank Stored <=? level_rank (level_parse (applied (dv_result v))).

Definition verdict_200 (r : DurabilityResult) : DurabilityVerdict := mkVerdict STATUS_OK r.
Definition verdict_202 (r : DurabilityResult) : DurabilityVerdict := mkVerdict STATUS_ACCEPTED r.

(** [max_available] of a refusal *)
Definition best_offer (pmax : DurabilityLevel) : list Z :=
  if level_rank Volatile <? level_rank pmax then level_str pmax else lit "none".

Definition verdict_412 (level : list Z) (pmax : DurabilityLevel) (why : list Z) : DurabilityVerdict :=
  mkVerdict STATUS_PRECONDITION_FAILED (mkDurability level (lit "none") None (Some (best_offer pmax)) (Some why) None).

Definition is_unknown (l : DurabilityLevel) : bool := match l with UnknownLevel _ => true | _ => false end.

Definition reconcile (req : DurabilityRequest) (policy : DurabilityPolicy) (async_pathway : bool) : DurabilityVerdict :=
  let level := level_parse (dr_level req) in
  let pmax := max_self_determinable policy in
  let s := dr_level req in
  let nothing why := mkDurability s (lit "none") None None why None in
  if is_unknown level then
    if must_have req then verdict_412 s pmax REASON_UNKNOWN_LEVEL else verdict_200 (nothing (Some REASON_UNKNOWN_LEVEL))
  else if self_determinable level && (level_rank level <=? level_rank pmax) then
    if async_pathway then
      if level_rank Stored <=? level_rank level then verdict_202 (mkDurability s (lit "none") (Some s) None None None)
      else verdict_202 (nothing None)
    else verdict_200 (mkDurability s s None None None None)
  else if must_have req then verdict_412 s pmax REASON_REQUIRED_UNMET
  else
    let no_durable_store := level_rank pmax =? level_rank Volatile in
    if async_pathway then
      if no_durable_store then verdict_202 (nothing (Some REASON_NO_DURABLE_STORE))
      else verdict_202 (mkDurability s (lit "none") (Some (level_str pmax)) None None None)
    else if no_durable_store then verdict_200 (nothing (Some REASON_NO_DURABLE_STORE))
    else verdict_200 (mkDurability s (level_str pmax) None None None None).

Definition durability_step (acc : option (list Z) * bool) (kv : Value * Value) : option (list Z) * bool :=
  match as_str kv.1 with
  | Some k =>
      if bool_decide (k = lit "level") then (as_str kv.2, acc.2)
      else if bool_decide (k = lit "must_have") then (acc.1, match kv.2 with VBool b => b | _ => false end)
      else acc
  | None => acc
  end.

Definition extract_durability_request `{Ciborium} (execute : Entity) : option DurabilityRequest :=
  value ← from_reader (data execute);
  m ← as_map value;
  v ← get_entry m (lit "durability_request");
  dr ← as_map v;
  let '(level, must) := foldl durability_step (None, false) dr in
  l ← level;
  Some (mkDurabilityRequest l must).

(** * What a verdict says *)

(** A level that the peer has from its own configuration. *)
Definition met (req : DurabilityRequest) (policy : DurabilityPolicy) : Prop :=
  ∃ l, (l = Volatile ∨ l = Stored) ∧ dr_level req = level_str l ∧ level_rank l ≤ level_rank (max_self_determinable policy).

Lemma level_parse_str s : level_str (level_parse s) = s.
Proof. unfold level_parse. repeat case_bool_decide; by subst. Qed.

Lemma met_spec req policy :
  met req policy ↔
  is_unknown (level_parse (dr_level req)) = false ∧ self_determinable (level_parse (dr_level req)) = true
  ∧ level_rank (level_parse (dr_level req)) ≤ level_rank (max_self_determinable policy).
Proof.
  unfold met. split.
  - intros (l & [-> | ->] & -> & Hl); (split_and!; [done|done|exact Hl]).
  - intros (_ & Hs & Hr). exists (level_parse (dr_level req)). rewrite level_parse_str. split_and!; [|done|done].
    destruct (level_parse (dr_level req)); [by left|by right|done|done].
Qed.

(** A verdict is honest: a request is refused just when it must have what the peer has not; what is
    said to be in place is the level asked for or the best there is, and nothing is in place yet
    where the write is to come; only an acceptance commits to something, and only a refusal
    offers. *)
Record honest (req : DurabilityRequest) (policy : DurabilityPolicy) (async : bool) (v : DurabilityVerdict) : Prop := {
  honest_status : dv_status v ∈ [STATUS_OK; STATUS_ACCEPTED; STATUS_PRECONDITION_FAILED];
  honest_requested : requested (dv_result v) = dr_level req;
  honest_refused : verdict_refused v = true ↔ must_have req = true ∧ ¬ met req policy;
  honest_applied : applied (dv_result v) = lit "none"
    ∨ async = false ∧ level_rank (level_parse (applied (dv_result v))) ≤ level_rank (max_self_determinable policy);
  honest_met : async = false → met req policy → applied (dv_result v) = dr_level req;
  honest_committed : ∀ c, committed (dv_result v) = Some c →
    dv_status v = STATUS_ACCEPTED ∧ async = true ∧ level_rank (level_parse c) ≤ level_rank (max_self_determinable policy);
  honest_offer : is_Some (max_available (dv_result v)) ↔ verdict_refused v = true;
  honest_handle : handle_at (dv_result v) = None;
}.

Lemma rank_parse_str l : level_rank (level_parse (level_str l)) ≤ level_rank l.
Proof. destruct l as [| | |s]; [done..|]. cbn [level_str level_rank]. by destruct (level_parse s). Qed.

Lemma reconcile_honest req policy async : honest req policy async (reconcile req policy async).
Proof.
  pose proof (met_spec req policy) as Hmet. pose proof (rank_parse_str (max_self_determinable policy)) as Hmax.
  unfold reconcile. set (level := level_parse (dr_level req)) in *.
  assert (Hlevel : dr_level req = level_str level) by (unfold level; by rewrite level_parse_str).
  assert (Hnone : level_rank (level_parse (lit "none")) = 0) by done.
  destruct (is_unknown level) eqn:Eu; [|destruct (self_determinable level && (level_rank level <=? level_rank (max_self_determinable policy))) eqn:Em].
  - assert (¬ met req policy) by (rewrite Hmet; naive_solver).
    destruct (must_have req) eqn:Emust; constructor; cbn; try done; try (by left); try set_solver.
  - apply andb_true_iff in Em as [Es Er%Z.leb_le]. assert (Hm : met req policy) by (by rewrite Hmet).
    destruct async; [destruct (level_rank Stored <=? level_rank level)|]; constructor; cbn; try done; try (by left); try set_solver.
  - assert (Hm : ¬ met req policy).
    { rewrite Hmet. intros (_ & Hs & Hr). rewrite Hs, (proj2 (Z.leb_le _ _) Hr) in Em. done. }
    destruct (must_have req) eqn:Emust; [constructor; cbn; try done; try (by left); set_solver|].
    destruct async, (Z.eqb_spec (level_rank (max_self_determinable policy)) (level_rank Volatile)) as [E|E];
      constructor; cbn; try done; try (by left); try set_solver.
    all: first [intros c [= <-]; done | by right].
Qed.
