(* ===== verification/Response.v ===== *)
(** Responses ([core/protocol/src/response.rs]) and what an error says on the wire
    ([core/protocol/src/lib.rs]).

    A response is an envelope whose root holds the result entity inline, spliced in byte for
    byte; the reader takes the scalars from the decoded map and the entity from the raw slice. *)
From S2P Require Import Prelude BTree Ecf Cbor ContentHash Entity Handler Walker Wire CapabilityCodec Verify.

Definition TYPE_EXECUTE : list Z := lit "system/protocol/execute".
Definition TYPE_EXECUTE_RESPONSE : list Z := lit "system/protocol/execute/response".

Definition STATUS_BAD_REQUEST : Z := 400.
Definition STATUS_AUTH_FAILED : Z := 401.
Definition STATUS_FORBIDDEN : Z := 403.

(** * Errors on the wire *)

(** The registered code of an error, where it has one of its own. *)
Definition wire_error_code (e : ProtocolError) : option (list Z) :=
  match e with
  | PUnsupportedKeyType _ => Some (lit "unsupported_key_type")
  | UnsupportedContentHashFormat _ => Some (lit "unsupported_content_hash_format")
  | IncompatibleHashFormat => Some (lit "incompatible_hash_format")
  | IncompatibleProtocol => Some (lit "incompatible_protocol")
  | PInvalidRequest => Some (lit "invalid_request")
  | CapabilityRevoked => Some (lit "capability_revoked")
  | CapabilityExpired => Some (lit "capability_denied")
  | CapabilityNotYetValid => Some (lit "capability_not_yet_valid")
  | AuthenticationFailed => Some (lit "authentication_failed")
  | InvalidNonce => Some (lit "invalid_nonce")
  | IdentityMismatch => Some (lit "identity_mismatch")
  | CapabilityFormatCodeMismatch _ _ => Some (lit "capability_denied")
  | MissingEntity => Some (lit "capability_denied")
  | UnresolvableGrantee => Some (lit "unresolvable_grantee")
  | ChainTooDeep => Some (lit "chain_depth_exceeded")
  | PInvalidSignature => Some (lit "invalid_signature")
  | MissingSignature => Some (lit "missing_signature")
  | PHashMismatch => Some (lit "hash_mismatch")
  | _ => None
  end.

Definition wire_status_code (e : ProtocolError) : Z :=
  match e with
  | UnresolvableGrantee | AuthenticationFailed | InvalidNonce | IdentityMismatch => STATUS_AUTH_FAILED
  | CapabilityRevoked | MissingSignature | PInvalidSignature | SignerMismatch | GranteeMismatch
  | NotLocalPeer | MissingCapability | MissingCapabilityEntity | MissingEntity | CapabilityExpired
  | AttenuationViolation | PermissionDenied | CapabilityInvalid | CapabilityFormatCodeMismatch _ _
  | CapabilityNotYetValid => STATUS_FORBIDDEN
  | _ => STATUS_BAD_REQUEST
  end.

Definition is_auth_error (e : ProtocolError) : bool := negb (wire_status_code e =? STATUS_BAD_REQUEST).

(** * Building *)

Section build.
Context `{Sha2} (home : Z).

(** The bytes of the root's data; [durability] is a value already encoded. *)
Definition response_data (request_id : list Z) (status : Z) (result_entity : Entity)
    (durability : option (list Z)) : list Z :=
  [match durability with Some _ => 0xA4 | None => 0xA3 end]
  ++ encode_cbor_text (lit "result") ++ encode_entity result_entity
  ++ encode_cbor_text (lit "status") ++ encode_cbor_uint status
  ++ match durability with Some d => encode_cbor_text (lit "durability") ++ d | None => [] end
  ++ encode_cbor_text (lit "request_id") ++ encode_cbor_text request_id.

(** [extra] is the map of further entities in the order of its iteration. *)
Definition build_execute_response_full (request_id : list Z) (status : Z) (result_entity : Entity)
    (extra : list Entity) (durability : option (list Z)) : result ProtocolError Envelope :=
  response_entity ← map_err (λ _, PInvalid)
    (entity_new home TYPE_EXECUTE_RESPONSE (response_data request_id status result_entity durability));
  Ok (foldl include (include (envelope_new response_entity) result_entity) extra).

Definition build_execute_response_with_included (request_id : list Z) (status : Z) (result_entity : Entity)
    (extra : list Entity) : result ProtocolError Envelope :=
  build_execute_response_full request_id status result_entity extra None.

Definition build_execute_response (request_id : list Z) (status : Z) (result_entity : Entity)
    : result ProtocolError Envelope :=
  build_execute_response_with_included request_id status result_entity [].

Definition error_value (code message : list Z) (rejected_marker : option Hash) : Value :=
  VMap ([(text (lit "code"), text code); (text (lit "message"), text message)]
        ++ match rejected_marker with
           | Some h => [(text (lit "rejected_marker"), VBytes (to_bytes h))]
           | None => []
           end).

Definition build_error_response_with_marker (request_id : list Z) (status : Z) (code message : list Z)
    (rejected_marker : option Hash) : result ProtocolError Envelope :=
  error_entity ← map_err (λ _, PInvalid)
    (entity_new home TYPE_ERROR (to_ecf (error_value code message rejected_marker)));
  build_execute_response request_id status error_entity.

Definition build_error_response (request_id : list Z) (status : Z) (code message : list Z)
    : result ProtocolError Envelope :=
  build_error_response_with_marker request_id status code message None.

(** The [expect] panics on an error; [None] is that panic. *)
Definition null_result_entity : option Entity := ok (entity_new home (lit "primitive/null") [0xF6]).
End build.

(** * Reading *)

Record ParsedResponse := mkResponse {
  pr_request_id : list Z; pr_status : Z; pr_result : Entity; pr_durability : option Value;
  pr_included : list (Hash * Entity);
}.

Definition try_u32 (z : Z) : option Z := if (0 <=? z) && (z <=? u32_max) then Some z else None.

Definition response_step (st : option (list Z) * option Z * option Value) (kv : Value * Value)
    : option (list Z) * option Z * option Value :=
  let '(request_id, status, durability) := st in
  if key_is "request_id" kv.1 then (as_str kv.2, status, durability)
  else if key_is "status" kv.1 then (request_id, i ← as_integer kv.2; try_u32 i, durability)
  else if key_is "durability" kv.1 then (request_id, status, Some kv.2)
  else st.

Section read.
Context `{Sha2} `{Ciborium} (home : Z).

(** The first value under the key that is a text ends the search, whatever it is. *)
Fixpoint first_request_id (m : list (Value * Value)) : option (list Z) :=
  match m with
  | [] => None
  | (k, v) :: m => if key_is "request_id" k then as_str v else first_request_id m
  end.

Definition extract_request_id (env : Envelope) : option (list Z) :=
  value ← from_reader (data (root env)); m ← as_map value; first_request_id m.

Definition extract_response_request_id (env : Envelope) : option (list Z) :=
  if bool_decide (entity_type (root env) = TYPE_EXECUTE_RESPONSE) then extract_request_id env else None.

Fixpoint first_marker (m : list (Value * Value)) : option Hash :=
  match m with
  | [] => None
  | (k, v) :: m =>
      if key_is "rejected_marker" k then
        match v with VBytes b => ok (from_bytes b) | _ => first_marker m end
      else first_marker m
  end.

Definition extract_rejected_marker (error_entity : Entity) : option Hash :=
  if bool_decide (entity_type error_entity = TYPE_ERROR) then
    v ← from_reader (data error_entity); m ← as_map v; first_marker m
  else None.

(** The result entity, from the raw slice; a bare null is the entity of a null. *)
Definition response_result (d : list Z) : option (result ProtocolError (option Entity)) :=
  match cbor_map_field_raw d (lit "result") with
  | None => Some (Ok None)
  | Some raw =>
      if bool_decide (raw = [0xF6]) then e ← null_result_entity home; Some (Ok (Some e))
      else Some (e ← map_err (λ _, PInvalid) (decode_entity raw); Ok (Some e))
  end.

(** [None] is the panic of [null_result_entity]. *)
Definition parse_execute_response (env : Envelope) : option (result ProtocolError ParsedResponse) :=
  if negb (bool_decide (entity_type (root env) = TYPE_EXECUTE_RESPONSE)) then Some (Err PInvalid) else
  match from_reader (data (root env)) with
  | None => Some (Err PInvalid)
  | Some value =>
      match as_map value with
      | None => Some (Err PInvalid)
      | Some m =>
          let '(request_id, status, durability) := foldl response_step (None, None, None) m in
          result_entity ← response_result (data (root env));
          Some (result_entity ← result_entity;
                r ← ok_or PMissingField request_id;
                s ← ok_or PMissingField status;
                e ← ok_or PMissingField result_entity;
                Ok (mkResponse r s e durability (included env)))
      end
  end.
End read.

(** * Entities as values *)

(** The value an encoded entity is the encoding of, where its data is encoded canonically. *)
Definition entity_value (ty : list Z) (v : Value) (h : Hash) : Value :=
  VMap [(text (lit "data"), v); (text (lit "type"), text ty); (text (lit "content_hash"), VBytes (to_bytes h))].

Lemma encode_entity_value ty v h : encode_entity (mkEntity ty (to_ecf v) h) = to_ecf (entity_value ty v h).
Proof. unfold entity_value. rewrite to_ecf_fields by (vm_compute; reflexivity). cbn -[encode_head]. by rewrite app_nil_r, <-!app_assoc. Qed.

Definition response_fields (request_id : list Z) (status : Z) (res : Value) (durability : option Value)
    : list (Value * Value) :=
  [(text (lit "result"), res); (text (lit "status"), VInteger status)]
  ++ match durability with Some d => [(text (lit "durability"), d)] | None => [] end
  ++ [(text (lit "request_id"), text request_id)].

Lemma response_fields_sorted rid status res dur : in_key_order (response_fields rid status res dur) = true.
Proof. by destruct dur; vm_compute. Qed.

Lemma encode_integer_u64 i : 0 ≤ i ≤ u64_max → to_ecf (VInteger i) = encode_cbor_uint i.
Proof. intros Hi. cbn. unfold encode_integer. by rewrite (proj2 (try_u64_Some i i)) by done. Qed.

Lemma response_data_value rid status ty v h dur :
  0 ≤ status ≤ u32_max →
  response_data rid status (mkEntity ty (to_ecf v) h) (to_ecf <$> dur)
  = to_ecf (VMap (response_fields rid status (entity_value ty v h) dur)).
Proof.
  intros Hs. unfold response_data. rewrite encode_entity_value, to_ecf_fields by apply response_fields_sorted.
  rewrite <-encode_integer_u64 by (unfold u32_max, u64_max in *; lia).
  destruct dur; cbn -[encode_head to_ecf entity_value]; by rewrite ?app_nil_r, <-?app_assoc.
Qed.

(** An entity whose data is canonical and nested at most [d] deep. *)
Definition canonical_entity (d : nat) (e : Entity) : Prop :=
  utf8_valid (entity_type e) = true ∧ len_ok (entity_type e) = true ∧ hash_ok (content_hash e)
  ∧ ∃ v, data e = to_ecf v ∧ good d v.

Lemma canonical_entity_wire d e : canonical_entity d e → wire_entity_ok e.
Proof.
  intros (? & ? & ? & v & Hd & [Hv _]). split_and!; try done; rewrite Hd; [by apply to_ecf_ok|by apply to_ecf_item].
Qed.

Lemma text_good d s : (1 ≤ d)%nat → utf8_valid s && len_ok s = true → good d (text s).
Proof. by split. Qed.

Lemma field_good d (k : list Z) v : utf8_valid k && len_ok k = true → good (S d) v → good_pair (S d) (text k, v).
Proof. intros Hk Hv. split; [apply text_good; [lia|done]|done]. Qed.

Lemma hash_good d h : (1 ≤ d)%nat → hash_ok h → good d (VBytes (to_bytes h)).
Proof. intros Hd Hh. split; [by apply hash_bytes_ok|done]. Qed.

Lemma entity_value_good d e v : canonical_entity (S d) e → good (S d) v → good (S (S d)) (entity_value (entity_type e) v (content_hash e)).
Proof.
  intros (Hu & Hl & Hh & _) Hv. apply good_map; [done|].
  repeat (apply Forall_cons_2 || apply Forall_nil_2); (apply field_good; [vm_compute; reflexivity|]); [done| |].
  - apply text_good; [lia|]. by rewrite Hu, Hl.
  - apply hash_good; [lia|done].
Qed.

Lemma encode_entity_ok d e : canonical_entity (S d) e → bytes_ok (encode_entity e).
Proof.
  intros He. pose proof He as (_ & _ & _ & v & Hv & Hg). destruct e as [ty x h]. cbn [data] in Hv. subst x.
  rewrite encode_entity_value. by apply to_ecf_ok, (entity_value_good d (mkEntity ty (to_ecf v) h)).
Qed.

Definition response_raw (rid : list Z) (status : Z) (e : Entity) (dur : option Value) : list (list Z * list Z) :=
  [(lit "result", encode_entity e); (lit "status", encode_cbor_uint status)]
  ++ match dur with Some d => [(lit "durability", to_ecf d)] | None => [] end
  ++ [(lit "request_id", encode_cbor_text rid)].

Lemma response_data_raw rid status e dur :
  response_data rid status e (to_ecf <$> dur) = enc_fields (response_raw rid status e dur).
Proof.
  unfold response_data, response_raw, enc_fields, encode_entries.
  destruct dur; cbn -[encode_entity encode_cbor_uint encode_cbor_text to_ecf]; by rewrite ?app_nil_r, <-?app_assoc.
Qed.

(** Decide the tests of a scan over fields with known keys. *)
Ltac eval_keys :=
  repeat match goal with
  | |- context [key_is ?k (VText ?l)] =>
      let b := eval vm_compute in (key_is k (VText l)) in change (key_is k (VText l)) with b; cbv match
  end.

Section round_trip.
Context `{HS : Sha2} `{HC : Ciborium} `{!CiboriumDecodes} (home : Z).

Lemma fold_include_root extra : ∀ env, root (foldl include env extra) = root env.
Proof. induction extra as [|e extra IH]; intros env; cbn; [done|]. by rewrite IH. Qed.

Lemma fold_include_ok extra : ∀ env, bt_ok (included env) → bt_ok (included (foldl include env extra)).
Proof. induction extra as [|e extra IH]; intros env Henv; cbn; [done|]. apply IH. by apply bt_insert_ok. Qed.

Lemma fold_include_elem extra : ∀ env, bt_ok (included env) →
  ∀ k, (is_Some (bt_get k (included env)) ∨ k ∈ map include_key extra) → is_Some (bt_get k (included (foldl include env extra))).
Proof.
  induction extra as [|e extra IH]; intros env Henv k Hk; cbn; [destruct Hk as [?|[]%elem_of_nil]; done|].
  apply IH; [by apply bt_insert_ok|]. cbn [map] in Hk. rewrite elem_of_cons in Hk.
  cbn [include included]. rewrite bt_get_insert by done. destruct (cmp k (include_key e)) eqn:E; [by left|..];
    (destruct Hk as [?|[->|?]]; [by left|by rewrite cmp_refl in E|by right]).
Qed.

Lemma response_fields_good rid status e v dur :
  canonical_entity 253 e → good 253 v → utf8_valid rid && len_ok rid = true → 0 ≤ status ≤ u32_max →
  (∀ d, dur = Some d → good 255 d) →
  good 256 (VMap (response_fields rid status (entity_value (entity_type e) v (content_hash e)) dur)).
Proof.
  intros He Hv Hr Hs Hd. apply good_map; [by destruct dur|].
  assert (Hi : good 255 (VInteger status)).
  { split; [|cbn; lia]. apply andb_true_iff. unfold u32_max in Hs. split; [apply Z.leb_le|apply Z.ltb_lt]; lia. }
  assert (Hev : good 255 (entity_value (entity_type e) v (content_hash e)))
    by (eapply good_mono; [|by apply (entity_value_good 252)]; lia).
  unfold response_fields. repeat apply Forall_app_2; repeat (apply Forall_cons_2 || apply Forall_nil_2);
    try (apply field_good; [vm_compute; reflexivity|done]).
  - destruct dur as [d|]; [|constructor]. apply Forall_cons_2; [|constructor].
    apply field_good; [vm_compute; reflexivity|]. by apply Hd.
  - apply field_good; [vm_compute; reflexivity|]. apply text_good; [lia|done].
Qed.

Lemma response_scan rid status res dur :
  0 ≤ status ≤ u32_max →
  let m := map (λ kv, (ecf_norm kv.1, ecf_norm kv.2)) (response_fields rid status res dur) in
  foldl response_step (None, None, None) m = (Some rid, Some status, ecf_norm <$> dur) ∧ first_request_id m = Some rid.
Proof.
  intros Hs. assert (Ht : try_u32 status = Some status).
  { unfold try_u32. by rewrite (proj2 (Z.leb_le 0 status)), (proj2 (Z.leb_le status u32_max)) by lia. }
  rewrite <-Ht. unfold response_fields. destruct dur as [d|]; cbn [map app ecf_norm text fst snd foldl first_request_id];
    unfold response_step; cbn [fst snd]; eval_keys; done.
Qed.

Lemma response_raw_ok rid status e dur :
  wire_entity_ok e → utf8_valid rid && len_ok rid = true → 0 ≤ status ≤ u32_max → (∀ d, dur = Some d → good 255 d) →
  Forall field_ok (response_raw rid status e dur).
Proof.
  intros He [_ Hr]%andb_true_iff Hs Hd. assert (Hi : cbor_item (encode_cbor_uint status)).
  { rewrite <-encode_integer_u64 by (unfold u32_max, u64_max in *; lia). apply to_ecf_item, andb_true_iff.
    unfold u32_max in Hs. split; [apply Z.leb_le|apply Z.ltb_lt]; lia. }
  unfold response_raw. repeat apply Forall_app_2; repeat (apply Forall_cons_2 || apply Forall_nil_2);
    try (split_and!; [vm_compute; reflexivity|vm_compute; reflexivity|]).
  - by apply encode_entity_item.
  - done.
  - destruct dur as [d|]; [|constructor]. apply Forall_cons_2; [|constructor].
    split_and!; [vm_compute; reflexivity|vm_compute; reflexivity|]. destruct (Hd d) as [Hv _]; [done|]. by apply to_ecf_item.
  - by apply encode_cbor_text_item.
Qed.

Lemma response_data_ok rid status e dur :
  canonical_entity 253 e → utf8_valid rid && len_ok rid = true → 0 ≤ status ≤ u32_max → (∀ d, dur = Some d → good 255 d) →
  ∃ v, response_data rid status e (to_ecf <$> dur)
       = to_ecf (VMap (response_fields rid status (entity_value (entity_type e) v (content_hash e)) dur))
     ∧ good 256 (VMap (response_fields rid status (entity_value (entity_type e) v (content_hash e)) dur)).
Proof.
  intros He Hr Hs Hd. pose proof He as (_ & _ & _ & v & Hdat & Hv). exists v. split; [|by apply response_fields_good].
  rewrite <-response_data_value by done. rewrite <-Hdat. by destruct e.
Qed.

(** A response is read as it was built, by a peer of any home format.  Whatever map of further entities travels with it,
    the reader finds the identifier, the status, the result entity byte for byte and the
    durability verdict, and every entity is included under its hash. *)
Theorem response_round_trip home' rid status e extra dur env :
  canonical_entity 253 e → utf8_valid rid && len_ok rid = true → 0 ≤ status ≤ u32_max → (∀ d, dur = Some d → good 255 d) →
  Z.of_nat (length (response_data rid status e (to_ecf <$> dur))) ≤ u64_max →
  build_execute_response_full home rid status e extra (to_ecf <$> dur) = Ok env →
  parse_execute_response home' env = Some (Ok (mkResponse rid status e (ecf_norm <$> dur) (included env)))
  ∧ extract_response_request_id env = Some rid
  ∧ ∀ e', e' ∈ e :: extra → is_Some (find_included env (include_key e')).
Proof.
  intros He Hr Hs Hd Hlen. unfold build_execute_response_full.
  destruct (entity_new _ _ _) as [r|] eqn:En; cbn [map_err mbind result_bind]; [|done]. intros [= <-].
  apply new_with_format_Ok in En as (_ & _ & Ht & Hdat).
  set (env := foldl _ _ _). assert (Hroot : root env = r) by apply fold_include_root.
  destruct (response_data_ok rid status e dur He Hr Hs Hd) as (v & Hv & Hgood).
  assert (Hread : from_reader (data (root env)) = Some (VMap (map (λ kv, (ecf_norm kv.1, ecf_norm kv.2))
      (response_fields rid status (entity_value (entity_type e) v (content_hash e)) dur)))).
  { rewrite Hroot, Hdat, Hv, <-(app_nil_r (to_ecf _)), from_reader_ecf by apply Hgood.
    by rewrite ecf_norm_fields by apply response_fields_sorted. }
  destruct (response_scan rid status (entity_value (entity_type e) v (content_hash e)) dur Hs) as [Hscan Hfirst].
  assert (Hres : response_result home' (data (root env)) = Some (Ok (Some e))).
  { pose proof (canonical_entity_wire _ _ He) as Hw.
    unfold response_result. rewrite Hroot, Hdat, response_data_raw, <-(app_nil_r (enc_fields _)), cbor_map_field_raw_spec.
    - cbn [response_raw field_get app]. rewrite decide_True by done. rewrite bool_decide_eq_false_2 by (by destruct e).
      rewrite decode_entity_exact; [done|done|]. split.
      + by apply (encode_entity_ok 252).
      + etrans; [|exact Hlen]. unfold response_data. rewrite !length_app. lia.
    - rewrite app_nil_r, <-response_data_raw. split; [|done]. rewrite Hv. apply to_ecf_ok, Hgood.
    - by destruct dur.
    - by apply response_raw_ok. }
  split_and!.
  - unfold parse_execute_response. rewrite Hread, Hres, Hroot, Ht, bool_decide_eq_true_2 by done. cbn [negb as_map].
    rewrite Hscan. done.
  - unfold extract_response_request_id, extract_request_id. rewrite Hread, Hroot, Ht, bool_decide_eq_true_2 by done. done.
  - intros e' He'. unfold find_included, env. apply fold_include_elem; [cbn; by repeat constructor|]. apply elem_of_cons in He' as [->|He']; [left|right].
    + change (is_Some (bt_get (include_key e) (bt_insert (include_key e) e []))). by rewrite bt_get_insert_eq by constructor.
    + by apply (list_elem_of_fmap_2 include_key extra).
Qed.
End round_trip.

(** * Witnesses *)

Definition demo_result : Entity := sample_entity (lit "primitive/text") (text (lit "hi")) hash_zero.

Lemma demo_result_ok d : canonical_entity (S d) demo_result.
Proof.
  split_and!; [vm_compute; reflexivity|vm_compute; reflexivity|by apply (bool_decide_unpack _)|].
  exists (text (lit "hi")). split; [done|]. apply text_good; [lia|vm_compute; reflexivity].
Qed.

Lemma response_round_trip_witness :
  let S := checksum_sha2 in let C := ref_ciborium in
  let verdict := VMap [(text (lit "applied"), bool_val true)] in
  ∃ env, build_execute_response_full 0 (lit "r-1") 200 demo_result [] (Some (to_ecf verdict)) = Ok env
    ∧ parse_execute_response 0 env = Some (Ok (mkResponse (lit "r-1") 200 demo_result (Some verdict) (included env))).
Proof.
  intros S C verdict.
  destruct (build_execute_response_full 0 (lit "r-1") 200 demo_result [] (Some (to_ecf verdict))) as [env|] eqn:E;
    [|exfalso; vm_compute in E; discriminate].
  exists env. split; [reflexivity|].
  destruct (@response_round_trip S C ref_ciborium_decodes 0 0 (lit "r-1") 200 demo_result [] (Some verdict) env)
    as [H _]; [apply demo_result_ok|vm_compute; reflexivity|unfold u32_max; lia| | |exact E|exact H].
  - intros d [= <-]. split; [vm_compute; reflexivity|cbn; lia].
  - apply Z.leb_le. vm_compute. reflexivity.
Defined.

(** An error and its mirror pointer. *)
Example error_response_marker :
  let S := checksum_sha2 in let C := ref_ciborium in
  match build_error_response_with_marker 0 (lit "r-2") 403 (lit "capability_denied") (lit "no") (Some hash_zero) with
  | Ok env =>
      match parse_execute_response 0 env with
      | Some (Ok r) => (pr_status r, extract_rejected_marker (pr_result r))
      | _ => (0, None)
      end
  | Err _ => (0, None)
  end = (403, Some hash_zero).
Proof. vm_compute. reflexivity. Qed.

(** The reader takes a bare null for the entity of a null. *)
Example bare_null_result :
  let S := checksum_sha2 in let C := ref_ciborium in
  let d := [0xA3] ++ encode_cbor_text (lit "result") ++ [0xF6] ++ encode_cbor_text (lit "status") ++ encode_cbor_uint 202
           ++ encode_cbor_text (lit "request_id") ++ encode_cbor_text (lit "r") in
  match parse_execute_response 0 (envelope_new (mkEntity TYPE_EXECUTE_RESPONSE d hash_zero)) with
  | Some (Ok r) => Some (pr_result r) = null_result_entity 0
  | _ => False
  end.
Proof. vm_compute. reflexivity. Qed.
