(* ===== verification/Connect.v ===== *)
(** The connection handshake ([core/protocol/src/connect.rs]).

    Four messages: the hello of the initiator and its answer, then the initiator's proof that it
    holds the key it claims, and the answer to that.  The responder is a state machine over
    [Connection]; a function that takes [&mut self] returns the connection it leaves.  The
    random nonce is an argument.  Error texts are left out. *)
From S2P Require Import Prelude BTree Ecf Cbor ContentHash Paths Entity Walker Wire Identity.
From S2P Require Import CapabilityCodec Verify Response.

Definition CONNECT_PATH : list Z := lit "system/protocol/connect".
Definition NONCE_SIZE : nat := 32.
Definition TYPE_HELLO : list Z := lit "system/protocol/connect/hello".
Definition TYPE_AUTHENTICATE : list Z := lit "system/protocol/connect/authenticate".
Definition CONNECT_OPERATIONS : list (list Z) := [lit "authenticate"; lit "hello"; lit "ping"].

Inductive ConnectionState := AwaitingHello | AwaitingAuthenticate | Established.

#[export] Instance ConnectionState_eq_dec : EqDecision ConnectionState.
Proof. solve_decision. Defined.

(** * Hello *)

Record HelloData := mkHello {
  h_peer_id : list Z; h_nonce : list Z; protocols : list (list Z);
  hash_formats : list (list Z); key_types : list (list Z); timestamp : option Z;
}.

Record HelloScan := mkHelloScan {
  hs_peer_id : option (list Z); hs_nonce : option (list Z); hs_protocols : list (list Z);
  hs_hash_formats : option (list (list Z)); hs_key_types : option (list (list Z)); hs_timestamp : option Z;
}.

(** The texts of an array; nothing where there is no array. *)
Definition str_array (v : Value) : list (list Z) :=
  match as_array v with Some arr => omap as_str arr | None => [] end.

Definition hello_step (st : HelloScan) (kv : Value * Value) : HelloScan :=
  let '(mkHelloScan p n pr hf kt ts) := st in
  let '(k, v) := kv in
  if key_is "peer_id" k then mkHelloScan (as_str v) n pr hf kt ts
  else if key_is "nonce" k then mkHelloScan p (as_bytes v) pr hf kt ts
  else if key_is "protocols" k then mkHelloScan p n (str_array v) hf kt ts
  else if key_is "hash_formats" k then mkHelloScan p n pr (Some (str_array v)) kt ts
  else if key_is "key_types" k then mkHelloScan p n pr hf (Some (str_array v)) ts
  else if key_is "timestamp" k then mkHelloScan p n pr hf kt (i ← as_integer v; try_u64 i)
  else st.

Definition hello_from_entity `{Ciborium} (entity : Entity) : result ProtocolError HelloData :=
  if negb (bool_decide (entity_type entity = TYPE_HELLO)) then Err PInvalid else
  value ← ok_or PInvalid (from_reader (data entity));
  m ← ok_or PInvalid (as_map value);
  let st := foldl hello_step (mkHelloScan None None [] None None None) m in
  p ← ok_or PMissingField (hs_peer_id st);
  n ← ok_or PMissingField (hs_nonce st);
  Ok (mkHello p n (hs_protocols st) (default [lit "ecfv1-sha256"] (hs_hash_formats st))
        (default [lit "ed25519"] (hs_key_types st)) (hs_timestamp st)).

(** An empty list is not written. *)
Definition texts_field (key : string) (l : list (list Z)) : list (Value * Value) :=
  if bool_decide (l = []) then [] else [(text (lit key), VArray (map text l))].

Definition hello_value (h : HelloData) : Value :=
  VMap ([(text (lit "nonce"), VBytes (h_nonce h)); (text (lit "peer_id"), text (h_peer_id h))]
        ++ texts_field "protocols" (protocols h)
        ++ texts_field "hash_formats" (hash_formats h)
        ++ texts_field "key_types" (key_types h)
        ++ match timestamp h with Some ts => [(text (lit "timestamp"), integer (as_i64 ts))] | None => [] end).

Definition hello_to_entity `{Sha2} (home : Z) (h : HelloData) : result ProtocolError Entity :=
  map_err (λ _, PInvalid) (entity_new home TYPE_HELLO (to_ecf (hello_value h))).

(** * Authenticate *)

Record AuthenticateData := mkAuthenticate {
  au_peer_id : list Z; au_public_key : list Z; au_nonce : list Z; au_key_type : list Z;
}.

Record AuthScan := mkAuthScan {
  as_peer_id : option (list Z); as_public_key : option (list Z); as_nonce : option (list Z); as_key_type : option (list Z);
}.

Definition auth_step (st : AuthScan) (kv : Value * Value) : AuthScan :=
  let '(mkAuthScan p pk n kt) := st in
  let '(k, v) := kv in
  if key_is "peer_id" k then mkAuthScan (as_str v) pk n kt
  else if key_is "public_key" k then mkAuthScan p (as_bytes v) n kt
  else if key_is "nonce" k then mkAuthScan p pk (as_bytes v) kt
  else if key_is "key_type" k then mkAuthScan p pk n (as_str v)
  else st.

Definition auth_from_entity `{Ciborium} (entity : Entity) : result ProtocolError AuthenticateData :=
  if negb (bool_decide (entity_type entity = TYPE_AUTHENTICATE)) then Err PInvalid else
  value ← ok_or PInvalid (from_reader (data entity));
  m ← ok_or PInvalid (as_map value);
  let st := foldl auth_step (mkAuthScan None None None None) m in
  p ← ok_or PMissingField (as_peer_id st);
  pk ← ok_or PMissingField (as_public_key st);
  n ← ok_or PMissingField (as_nonce st);
  Ok (mkAuthenticate p pk n (default (lit "ed25519") (as_key_type st))).

(** * Negotiation *)

Definition default_advertised_hash_formats (home_format : Z) : list (list Z) :=
  if home_format =? HASH_ALGORITHM_SHA384 then [lit "ecfv1-sha384"; lit "ecfv1-sha256"] else [lit "ecfv1-sha256"].
Definition default_advertised_key_types : list (list Z) := [lit "ed25519"; lit "ed448"].
Definition default_advertised_protocols : list (list Z) := [lit "entity-core/1.0"].

Definition protocols_compatible (initiator responder : list (list Z)) : bool :=
  existsb (λ p, existsb (λ r, bool_decide (r = p)) responder) initiator.

Definition negotiate_active_format (initiator_order responder_set : list (list Z)) : option Z :=
  f ← find_first (λ f, existsb (λ r, bool_decide (r = f)) responder_set) initiator_order;
  format_code_for_string f.

(** * The connection *)

Record Connection := mkConnection {
  state : ConnectionState; local_peer_id : list Z; remote_peer_id : option (list Z);
  remote_public_key : option (list Z); local_nonce : list Z; remote_nonce : option (list Z);
  remote_identity_hash : option Hash; local_hash_formats : list (list Z); local_key_types : list (list Z);
  local_protocols : list (list Z); local_key_type : list Z; active_hash_format : Z;
}.

Definition connection_new (local_peer_id nonce : list Z) : Connection :=
  mkConnection AwaitingHello local_peer_id None None nonce None None
    (default_advertised_hash_formats HASH_ALGORITHM_SHA256) default_advertised_key_types
    default_advertised_protocols (label Ed25519) HASH_ALGORITHM_SHA256.

Definition set_local_advertisement (home_format : Z) (own_key_type : list Z) (c : Connection) : Connection :=
  mkConnection (state c) (local_peer_id c) (remote_peer_id c) (remote_public_key c) (local_nonce c) (remote_nonce c)
    (remote_identity_hash c) (default_advertised_hash_formats home_format) default_advertised_key_types
    (local_protocols c) own_key_type home_format.

Definition set_active_format (active : Z) (c : Connection) : Connection :=
  mkConnection (state c) (local_peer_id c) (remote_peer_id c) (remote_public_key c) (local_nonce c) (remote_nonce c)
    (remote_identity_hash c) (local_hash_formats c) (local_key_types c) (local_protocols c) (local_key_type c) active.

Definition negotiate_active_from_response (response : HelloData) (c : Connection) : result ProtocolError Z * Connection :=
  match negotiate_active_format (local_hash_formats c) (hash_formats response) with
  | Some active => (Ok active, set_active_format active c)
  | None => (Err IncompatibleHashFormat, c)
  end.

Definition is_established (c : Connection) : bool := bool_decide (state c = Established).

Definition is_connect_path (uri : list Z) : bool :=
  let path := normalize_path uri in
  bool_decide (path = CONNECT_PATH) || starts_with path (CONNECT_PATH ++ lit "/").

(** * EXECUTE *)

Record ConnectExecute := mkConnectExecute {
  ce_request_id : list Z; ce_uri : list Z; ce_operation : list Z; ce_params : Entity;
}.

Definition connect_step (st : option (list Z) * option (list Z) * option (list Z)) (kv : Value * Value)
    : option (list Z) * option (list Z) * option (list Z) :=
  let '(r, u, o) := st in
  if key_is "request_id" kv.1 then (as_str kv.2, u, o)
  else if key_is "uri" kv.1 then (r, as_str kv.2, o)
  else if key_is "operation" kv.1 then (r, u, as_str kv.2)
  else st.

Definition parse_connect_execute `{Ciborium} (execute : Entity) : result ProtocolError ConnectExecute :=
  if negb (bool_decide (entity_type execute = TYPE_EXECUTE)) then Err PInvalid else
  value ← ok_or PInvalid (from_reader (data execute));
  m ← ok_or PInvalid (as_map value);
  let '(r, u, o) := foldl connect_step (None, None, None) m in
  r ← ok_or PMissingField r;
  u ← ok_or PMissingField u;
  o ← ok_or PMissingField o;
  params_raw ← ok_or PMissingField (cbor_map_field_raw (data execute) (lit "params"));
  params ← map_err (λ _, PInvalid) (decode_entity params_raw);
  Ok (mkConnectExecute r u o params).

Definition connect_execute_data (uri request_id operation : list Z) (params_entity : Entity) : list Z :=
  [0xA4] ++ encode_cbor_text (lit "uri") ++ encode_cbor_text uri
  ++ encode_cbor_text (lit "params") ++ encode_entity params_entity
  ++ encode_cbor_text (lit "operation") ++ encode_cbor_text operation
  ++ encode_cbor_text (lit "request_id") ++ encode_cbor_text request_id.

Definition build_connect_execute_at `{Sha2} (home : Z) (uri request_id operation : list Z) (params_entity : Entity)
    : result ProtocolError Entity :=
  map_err (λ _, PInvalid) (entity_new home TYPE_EXECUTE (connect_execute_data uri request_id operation params_entity)).

Definition build_connect_execute `{Sha2} (home : Z) (request_id operation : list Z) (params_entity : Entity)
    : result ProtocolError Entity :=
  build_connect_execute_at home CONNECT_PATH request_id operation params_entity.

(** * The responder *)

Section responder.
Context `{Ciborium} `{Sha2} `{Base58} `{SignatureSchemes}.

(** [Err(e)] before the connection was touched. *)
Definition refuses {A} (e : ProtocolError) (c : Connection) : result ProtocolError A * Connection := (Err e, c).

Definition peer_id_error (e : CryptoError) : ProtocolError :=
  match e with UnsupportedKeyType b => PUnsupportedKeyType b | _ => ConnectionError end.

(** The connect EXECUTE of an operation. *)
Definition connect_request (operation : list Z) (env : Envelope) : result ProtocolError ConnectExecute :=
  exec ← parse_connect_execute (root env);
  if negb (bool_decide (ce_uri exec = CONNECT_PATH)) then Err PInvalid
  else if negb (bool_decide (ce_operation exec = operation)) then Err PInvalid
  else Ok exec.

(** The checks of a hello, up to the negotiation of the format. *)
Definition check_hello (env : Envelope) (c : Connection) : result ProtocolError (ConnectExecute * HelloData * Z) :=
  if negb (bool_decide (state c = AwaitingHello)) then Err ConnectionError else
  exec ← connect_request (lit "hello") env;
  hello ← hello_from_entity (ce_params exec);
  _ ← map_err peer_id_error (peer_id_validate (h_peer_id hello));
  if bool_decide (protocols hello = []) then Err PInvalidRequest
  else if negb (protocols_compatible (protocols hello) (local_protocols c)) then Err IncompatibleProtocol else
  active ← ok_or IncompatibleHashFormat (negotiate_active_format (hash_formats hello) (local_hash_formats c));
  Ok (exec, hello, active).

(** The active format is set before the last check. *)
Definition process_hello (env : Envelope) (c : Connection) : result ProtocolError (HelloData * list Z) * Connection :=
  match check_hello env c with
  | Err e => refuses e c
  | Ok (exec, hello, active) =>
      let c := set_active_format active c in
      if negb (existsb (λ k, bool_decide (k = local_key_type c)) (key_types hello)) then
        refuses (PUnsupportedKeyType (match key_type_from_label (local_key_type c) with Ok k => key_type_byte k | Err _ => 0xFE end)) c
      else
        (Ok (mkHello (local_peer_id c) (local_nonce c) (local_protocols c) (local_hash_formats c) (local_key_types c) None,
             ce_request_id exec),
         mkConnection AwaitingAuthenticate (local_peer_id c) (Some (h_peer_id hello)) (remote_public_key c) (local_nonce c)
           (Some (h_nonce hello)) (remote_identity_hash c) (local_hash_formats c) (local_key_types c) (local_protocols c)
           (local_key_type c) (active_hash_format c))
  end.

(** The proof of possession, in the numbered order of its steps: the key type is known, the nonce
    is this connection's, the signature verifies, the key is that of the peer id claimed, and that
    is the one of the hello. *)
Definition check_authenticate (env : Envelope) (c : Connection)
    : result ProtocolError (ConnectExecute * AuthenticateData * SignatureData) :=
  if negb (bool_decide (state c = AwaitingAuthenticate)) then Err ConnectionError else
  exec ← connect_request (lit "authenticate") env;
  auth ← auth_from_entity (ce_params exec);
  decoded ← map_err (λ _, PInvalid) (peer_id_decode (au_peer_id auth));
  kt ← map_err (λ _, PUnsupportedKeyType (dec_key_type decoded)) (key_type_from_byte (dec_key_type decoded));
  if negb (bool_decide (au_nonce auth = local_nonce c)) then Err InvalidNonce else
  let params_hash := content_hash (ce_params exec) in
  sig_entity ← ok_or AuthenticationFailed (find_signature_for env params_hash);
  sig ← map_err (λ _, AuthenticationFailed) (signature_from_entity sig_entity);
  _ ← map_err (λ _, AuthenticationFailed)
        (verify_for_key_type kt (au_public_key auth) (to_bytes params_hash) (sig_bytes sig));
  if negb (verify_public_key_bytes (au_peer_id auth) (au_public_key auth)) then Err IdentityMismatch
  else if match remote_peer_id c with Some p => negb (bool_decide (p = au_peer_id auth)) | None => false end
  then Err IdentityMismatch
  else Ok (exec, auth, sig).

Definition process_authenticate (env : Envelope) (c : Connection) : result ProtocolError (list Z * list Z) * Connection :=
  match check_authenticate env c with
  | Err e => refuses e c
  | Ok (exec, auth, sig) =>
      (Ok (au_peer_id auth, ce_request_id exec),
       mkConnection Established (local_peer_id c) (Some (au_peer_id auth)) (Some (au_public_key auth)) (local_nonce c)
         (remote_nonce c) (Some (sig_signer sig)) (local_hash_formats c) (local_key_types c) (local_protocols c)
         (local_key_type c) (active_hash_format c))
  end.
End responder.

(** * The initiator *)

(** A keypair of the crate's: its type, its public key, and signing. *)
Record IdentityKeypair := mkKeypair { kp_key_type : KeyType; kp_public : list Z; kp_sign : list Z → list Z }.

(** The crate's keys have the length of their type, so that this is never an error. *)
Definition kp_peer_id `{Sha2} `{Base58} (kp : IdentityKeypair) : list Z :=
  default [] (ok (from_public_key_with_key_type (kp_public kp) (kp_key_type kp))).

Definition kp_peer_entity `{Sha2} (kp : IdentityKeypair) : result CryptoError Entity :=
  peer_entity_from_components_with_key_type (kp_public kp) (kp_key_type kp).

Definition authenticate_value (a : AuthenticateData) : Value :=
  VMap [(text (lit "key_type"), text (au_key_type a)); (text (lit "nonce"), VBytes (au_nonce a));
        (text (lit "peer_id"), text (au_peer_id a)); (text (lit "public_key"), VBytes (au_public_key a))].

Definition build_authenticate_envelope `{Sha2} `{Base58} (home : Z) (kp : IdentityKeypair) (remote_nonce : list Z)
    (active_format : Z) : result ProtocolError Envelope :=
  let key_type_label := label (kp_key_type kp) in
  auth_entity ← map_err (λ _, PInvalid) (new_with_format TYPE_AUTHENTICATE
    (to_ecf (authenticate_value (mkAuthenticate (kp_peer_id kp) (kp_public kp) remote_nonce key_type_label))) active_format);
  identity ← map_err (λ _, PInvalid) (kp_peer_entity kp);
  let target := content_hash auth_entity in
  sig_entity ← map_err (λ _, PInvalid) (new_with_format TYPE_SIGNATURE
    (to_ecf (signature_value (mkSignature target (content_hash identity) key_type_label (kp_sign kp (to_bytes target)))))
    active_format);
  exec_entity ← build_connect_execute home (lit "connect-authenticate") (lit "authenticate") auth_entity;
  Ok (include (include (include (envelope_new exec_entity) auth_entity) identity) sig_entity).

(** * What an established connection has proved *)

(** A run of the responder: any envelopes in any order, refused or not. *)
Section soundness.
Context `{HC : Ciborium} `{HS : Sha2} `{HB : Base58} `{HK : SignatureSchemes}.

Inductive responds : Connection → Connection → Prop :=
  | responds_refl c : responds c c
  | responds_hello env c c' : responds c c' → responds c (process_hello env c').2
  | responds_authenticate env c c' : responds c c' → responds c (process_authenticate env c').2.

(** An envelope that proves a key: the signature in it is over the hash its parameters carry, and
    they name the nonce, the key, and the peer the key makes. *)
Definition proves_key (env : Envelope) (nonce peer pk : list Z) (identity : Hash) : Prop :=
  ∃ exec auth kt sig e,
    connect_request (lit "authenticate") env = Ok exec ∧ auth_from_entity (ce_params exec) = Ok auth
    ∧ au_nonce auth = nonce ∧ au_peer_id auth = peer ∧ au_public_key auth = pk
    ∧ (∃ d, peer_id_decode peer = Ok d ∧ key_type_from_byte (dec_key_type d) = Ok kt)
    ∧ verify_public_key_bytes peer pk = true
    ∧ e ∈ map snd (included env) ∧ signature_from_entity e = Ok sig ∧ sig_signer sig = identity
    ∧ verify_for_key_type kt pk (to_bytes (content_hash (ce_params exec))) (sig_bytes sig) = Ok tt.

Definition connection_inv (c0 c : Connection) : Prop :=
  local_nonce c = local_nonce c0 ∧ local_peer_id c = local_peer_id c0 ∧ local_key_type c = local_key_type c0
  ∧ local_hash_formats c = local_hash_formats c0 ∧ local_protocols c = local_protocols c0
  ∧ match state c with
    | AwaitingHello => remote_peer_id c = None ∧ remote_public_key c = None ∧ remote_identity_hash c = None
    | AwaitingAuthenticate =>
        (∃ p, remote_peer_id c = Some p ∧ peer_id_validate p = Ok tt)
        ∧ remote_public_key c = None ∧ remote_identity_hash c = None
    | Established =>
        ∃ env p pk h, remote_peer_id c = Some p ∧ remote_public_key c = Some pk ∧ remote_identity_hash c = Some h
          ∧ peer_id_validate p = Ok tt ∧ proves_key env (local_nonce c) p pk h
    end.

Lemma check_hello_Ok env c exec hello active :
  check_hello env c = Ok (exec, hello, active) →
  state c = AwaitingHello ∧ peer_id_validate (h_peer_id hello) = Ok tt
  ∧ negotiate_active_format (hash_formats hello) (local_hash_formats c) = Some active
  ∧ ∃ v, v ∈ protocols hello ∧ v ∈ local_protocols c.
Proof.
  unfold check_hello. case_bool_decide as Hs; [|done]. cbn [negb].
  destruct (connect_request _ _) as [x|]; cbn [mbind result_bind]; [|done].
  destruct (hello_from_entity _) as [h|]; cbn [mbind result_bind]; [|done].
  destruct (peer_id_validate _) as [[]|] eqn:Ev; cbn [map_err mbind result_bind]; [|done].
  case_bool_decide; [done|]. destruct (protocols_compatible _ _) eqn:Ep; cbn [negb]; [|done].
  destruct (negotiate_active_format _ _) eqn:En; cbn [ok_or mbind result_bind]; [|done]. intros [= <- <- <-].
  split_and!; [done|done|done|]. apply existsb_exists in Ep as (v & Hv & Hr). apply existsb_exists in Hr as (r & Hr & Hrv).
  apply bool_decide_eq_true in Hrv as ->. exists v. split; by apply list_elem_of_In.
Qed.

Lemma check_authenticate_Ok env c exec auth sig :
  check_authenticate env c = Ok (exec, auth, sig) →
  state c = AwaitingAuthenticate
  ∧ (∀ p, remote_peer_id c = Some p → p = au_peer_id auth)
  ∧ proves_key env (local_nonce c) (au_peer_id auth) (au_public_key auth) (sig_signer sig).
Proof.
  unfold check_authenticate. case_bool_decide as Hs; [|done]. cbn [negb].
  destruct (connect_request _ _) as [x|] eqn:Ex; cbn [mbind result_bind]; [|done].
  destruct (auth_from_entity _) as [a|] eqn:Ea; cbn [mbind result_bind]; [|done].
  destruct (peer_id_decode _) as [d|] eqn:Ed; cbn [map_err mbind result_bind]; [|done].
  destruct (key_type_from_byte _) as [kt|] eqn:Ek; cbn [map_err mbind result_bind]; [|done].
  case_bool_decide as Hn; [|done]. cbn [negb].
  destruct (find_signature_for _ _) as [e|] eqn:Ef; cbn [ok_or mbind result_bind]; [|done].
  destruct (signature_from_entity _) as [g|] eqn:Eg; cbn [map_err mbind result_bind]; [|done].
  destruct (verify_for_key_type _ _ _ _) as [[]|] eqn:Ev; cbn [map_err mbind result_bind]; [|done].
  destruct (verify_public_key_bytes _ _) eqn:Ep; [|done]. cbn [negb].
  destruct (match remote_peer_id c with Some p => _ | None => _ end) eqn:Er; [done|]. intros [= <- <- <-].
  split; [done|]. split.
  - intros p Hp. rewrite Hp in Er. apply negb_false_iff, bool_decide_eq_true in Er. done.
  - exists x, a, kt, g, e. split_and!; try done; [by exists d|]. unfold find_signature_for in Ef.
    apply find_first_Some in Ef as (l1 & l2 & -> & _). set_solver.
Qed.

Lemma hello_keeps env c0 c : connection_inv c0 c → connection_inv c0 (process_hello env c).2.
Proof.
  unfold process_hello. destruct (check_hello env c) as [[[exec hello] active]|] eqn:E; [|done].
  apply check_hello_Ok in E as (Hs & Hv & _). intros (H1 & H2 & H3 & H4 & H5 & H6). rewrite Hs in H6.
  destruct (negb _); cbn [refuses snd]; unfold connection_inv; cbn; (split_and!; try done); [by rewrite Hs|by eexists|..];
    by destruct H6 as (_ & ? & ?).
Qed.

Lemma authenticate_keeps env c0 c : connection_inv c0 c → connection_inv c0 (process_authenticate env c).2.
Proof.
  unfold process_authenticate. destruct (check_authenticate env c) as [[[exec auth] sig]|] eqn:E; [|done].
  apply check_authenticate_Ok in E as (Hs & Hp & Hk). intros (H1 & H2 & H3 & H4 & H5 & H6). rewrite Hs in H6.
  destruct H6 as ((p & Hr & Hv) & _). specialize (Hp p Hr) as ->.
  unfold connection_inv; cbn; split_and!; try done. by eexists env, _, _, _.
Qed.

Lemma responds_inv c0 c :
  state c0 = AwaitingHello → remote_peer_id c0 = None → remote_public_key c0 = None → remote_identity_hash c0 = None →
  responds c0 c → connection_inv c0 c.
Proof.
  intros Hs Hp Hk Hi. induction 1 as [c0|env c0 c Hr IH|env c0 c Hr IH]; [|by apply hello_keeps, IH|by apply authenticate_keeps, IH].
  unfold connection_inv. by rewrite Hs.
Qed.

(** C5. A connection is established only by a proof.  Whatever envelopes a responder has been
    sent, a connection it takes as established has a peer id that validates, a key that makes that
    peer id, and an authenticate that names both with the nonce this connection issued and comes
    with a signature of that key over the hash its parameters carry; where the parameters are what
    their hash says, that is a signature over this very nonce. *)
Theorem established_proves_key pid nonce home kt c :
  responds (set_local_advertisement home kt (connection_new pid nonce)) c → is_established c = true →
  ∃ env p pk h, remote_peer_id c = Some p ∧ remote_public_key c = Some pk ∧ remote_identity_hash c = Some h
    ∧ peer_id_validate p = Ok tt ∧ proves_key env nonce p pk h
    ∧ ∀ exec, connect_request (lit "authenticate") env = Ok exec → entity_validate (ce_params exec) = Ok tt →
        ∃ auth sig k, auth_from_entity (ce_params exec) = Ok auth ∧ au_nonce auth = nonce ∧ au_peer_id auth = p
          ∧ compute_format TYPE_AUTHENTICATE (data (ce_params exec)) (algorithm (content_hash (ce_params exec)))
            = Ok (content_hash (ce_params exec))
          ∧ verify_for_key_type k pk (to_bytes (content_hash (ce_params exec))) sig = Ok tt.
Proof.
  intros Hr He%bool_decide_eq_true. apply responds_inv in Hr; [|done..]. destruct Hr as (Hn & _ & _ & _ & _ & Hi).
  rewrite He in Hi. destruct Hi as (env & p & pk & h & Hp & Hk & Hh & Hv & Hprove). rewrite Hn in Hprove.
  exists env, p, pk, h. split_and!; try done. intros exec Hexec Hval.
  destruct Hprove as (exec' & auth & k & sig & e & Hx & Ha & Hno & Hpe & Hpk & _ & _ & _ & _ & _ & Hver).
  rewrite Hexec in Hx. injection Hx as <-. exists auth, (sig_bytes sig), k. split_and!; try done.
  apply entity_validate_Ok in Hval. rewrite <-Hval. f_equal.
  unfold auth_from_entity in Ha. by case_bool_decide as Ht.
Qed.
End soundness.

(** * What is sent is what is read *)

Definition text_ok (s : list Z) : Prop := utf8_valid s && len_ok s = true.
Definition bstr_ok (b : list Z) : Prop := bytes_ok b ∧ len_ok b = true.
Definition texts_ok (l : list (list Z)) : Prop := Forall text_ok l ∧ len_ok l = true.

Lemma good_bytes d b : (1 ≤ d)%nat → bstr_ok b → good d (VBytes b).
Proof. intros Hd [Hb Hl]. split; [|done]. cbn. by rewrite bool_decide_eq_true_2. Qed.

Lemma good_texts l : texts_ok l → good 2 (VArray (map text l)).
Proof.
  intros [Hl Hn]. apply good_array; [unfold len_ok in *; by rewrite length_map|].
  apply Forall_map. eapply Forall_impl; [exact Hl|]. intros s Hs. apply text_good; [lia|done].
Qed.

Lemma str_array_texts l : str_array (VArray (map text l)) = l.
Proof. unfold str_array, text. cbn [as_array]. induction l as [|s l IH]; [done|]. cbn. by rewrite IH. Qed.

Definition small (b : list Z) : Prop := Z.of_nat (length b) ≤ u32_max.

Lemma small_bstr b : bytes_ok b → small b → bstr_ok b.
Proof. unfold small, bstr_ok, len_ok, u32_max, u64_max. intros ? ?. split; [done|]. apply Z.leb_le. lia. Qed.

Section reading.
Context `{HC : Ciborium} `{!CiboriumDecodes} `{HS : Sha2} `{!Sha2Ok}.

(** An entity made of a value. *)
Lemma built_entity ty v fmt e :
  text_ok ty → good 250 v → digest_len_for_format fmt ≠ None → new_with_format ty (to_ecf v) fmt = Ok e →
  canonical_entity 250 e ∧ entity_type e = ty ∧ data e = to_ecf v ∧ from_reader (data e) = Some (ecf_norm v)
  ∧ algorithm (content_hash e) = fmt ∧ compute_format ty (to_ecf v) fmt = Ok (content_hash e).
Proof.
  intros Ht Hv Hf He. apply new_with_format_Ok in He as (_ & Hc & He & Hd).
  pose proof (compute_format_ok _ _ _ _ Hc) as [Hh Ha]. apply andb_true_iff in Ht as [? ?].
  assert (Hcan : canonical_entity 250 e).
  { unfold canonical_entity. split_and!; try congruence. exists v. by split. }
  split_and!; try done. rewrite Hd, <-(app_nil_r (to_ecf v)). apply from_reader_ecf; [apply Hv|]. destruct Hv. unfold ciborium_recursion_limit. lia.
Qed.

Definition hello_ok (h : HelloData) : Prop :=
  text_ok (h_peer_id h) ∧ bstr_ok (h_nonce h) ∧ texts_ok (protocols h) ∧ texts_ok (hash_formats h) ∧ texts_ok (key_types h)
  ∧ (∀ ts, timestamp h = Some ts → 0 ≤ ts ≤ i64_max).

Definition or_list (l d : list (list Z)) : list (list Z) := if bool_decide (l = []) then d else l.

(** What a hello is read as: an empty list was not sent. *)
Definition hello_read (h : HelloData) : HelloData :=
  mkHello (h_peer_id h) (h_nonce h) (protocols h) (or_list (hash_formats h) [lit "ecfv1-sha256"])
    (or_list (key_types h) [lit "ed25519"]) (timestamp h).

Lemma texts_field_good key l : text_ok (lit key) → texts_ok l → Forall (good_pair 2) (texts_field key l).
Proof.
  intros Hk Hl. unfold texts_field. case_bool_decide; [constructor|]. apply Forall_cons_2; [|constructor].
  apply field_good; [done|]. by apply good_texts.
Qed.

Lemma hello_value_good h : hello_ok h → good 3 (hello_value h).
Proof.
  intros (Hp & Hn & Hpr & Hf & Hk & Ht). apply good_map.
  { unfold texts_field. repeat case_bool_decide; by destruct (timestamp h). }
  repeat apply Forall_app_2; repeat (apply Forall_cons_2 || apply Forall_nil_2);
    try (apply texts_field_good; [vm_compute; reflexivity|done]); try (apply field_good; [vm_compute; reflexivity|]).
  - apply good_bytes; [lia|done].
  - apply text_good; [lia|done].
  - destruct (timestamp h) as [ts|]; [|constructor]. apply Forall_cons_2; [|constructor].
    apply field_good; [vm_compute; reflexivity|]. specialize (Ht ts eq_refl). unfold i64_max in Ht.
    rewrite as_i64_id by lia. split; [|cbn; lia]. apply andb_true_iff. split; [apply Z.leb_le|apply Z.ltb_lt]; lia.
Qed.

Definition texts_opt (l : list (list Z)) : option Value := if bool_decide (l = []) then None else Some (VArray (map text l)).

Lemma texts_field_opt key l : texts_field key l = entry_if key id (texts_opt l).
Proof. unfold texts_field, texts_opt. by case_bool_decide. Qed.

Lemma texts_opt_norm l : ecf_norm <$> texts_opt l = texts_opt l.
Proof. unfold texts_opt. case_bool_decide; [done|]. cbn. by rewrite map_map. Qed.

Lemma hello_fields_norm n p pr hf kt ts :
  ecf_norm (VMap ([(text (lit "nonce"), n); (text (lit "peer_id"), p)] ++ entry_if "protocols" id pr
    ++ entry_if "hash_formats" id hf ++ entry_if "key_types" id kt ++ entry_if "timestamp" id ts))
  = VMap ([(text (lit "nonce"), ecf_norm n); (text (lit "peer_id"), ecf_norm p)] ++ entry_if "key_types" id (ecf_norm <$> kt)
    ++ entry_if "protocols" id (ecf_norm <$> pr) ++ entry_if "timestamp" id (ecf_norm <$> ts)
    ++ entry_if "hash_formats" id (ecf_norm <$> hf)).
Proof. by destruct pr, hf, kt, ts. Qed.

Lemma hello_scan n p pr hf kt ts :
  foldl hello_step (mkHelloScan None None [] None None None)
    ([(text (lit "nonce"), VBytes n); (text (lit "peer_id"), text p)] ++ entry_if "key_types" id kt
     ++ entry_if "protocols" id pr ++ entry_if "timestamp" id ts ++ entry_if "hash_formats" id hf)
  = mkHelloScan (Some p) (Some n) (match pr with Some v => str_array v | None => [] end) (str_array <$> hf) (str_array <$> kt)
      (v ← ts; i ← as_integer v; try_u64 i).
Proof.
  destruct pr, hf, kt, ts; cbn [entry_if app foldl text]; unfold hello_step; eval_keys; done.
Qed.

Lemma texts_opt_list l d : default d (str_array <$> texts_opt l) = or_list l d.
Proof. unfold texts_opt, or_list. case_bool_decide; cbn; [done|]. apply str_array_texts. Qed.

Lemma hello_round_trip home h e :
  digest_len_for_format home ≠ None → hello_ok h → hello_to_entity home h = Ok e →
  canonical_entity 250 e ∧ hello_from_entity e = Ok (hello_read h).
Proof.
  intros Hhome Hh. unfold hello_to_entity. destruct (entity_new _ _ _) as [e'|] eqn:E; [|done]. intros [= ->].
  apply built_entity in E as (Hc & Ht & _ & Hr & _); [|vm_compute; reflexivity| |done].
  2:{ eapply good_mono; [|by apply hello_value_good]. lia. }
  split; [done|]. unfold hello_from_entity. rewrite Ht, Hr, bool_decide_eq_true_2 by done. cbn [negb ok_or mbind result_bind].
  unfold hello_value. rewrite !texts_field_opt.
  assert (Hts : match timestamp h with Some ts => [(text (lit "timestamp"), integer (as_i64 ts))] | None => [] end
                = entry_if "timestamp" id (integer ∘ as_i64 <$> timestamp h)) by (by destruct (timestamp h)).
  rewrite Hts, hello_fields_norm, !texts_opt_norm. cbn [as_map ok_or mbind result_bind].
  change (ecf_norm (VBytes (h_nonce h))) with (VBytes (h_nonce h)).
  change (ecf_norm (text (h_peer_id h))) with (text (h_peer_id h)). rewrite hello_scan.
  cbn [hs_peer_id hs_nonce hs_protocols hs_hash_formats hs_key_types hs_timestamp ok_or mbind result_bind].
  rewrite !texts_opt_list. unfold hello_read. f_equal. f_equal.
  - pose proof (texts_opt_list (protocols h) []) as Hp. unfold or_list in Hp. destruct (texts_opt (protocols h)); cbn in Hp; case_bool_decide; congruence.
  - destruct Hh as (_ & _ & _ & _ & _ & Hts'). destruct (timestamp h) as [ts|]; [|done]. specialize (Hts' ts eq_refl). unfold i64_max in Hts'.
    cbn. rewrite as_i64_id by lia. apply try_u64_Some. unfold u64_max. lia.
Qed.

(** ** EXECUTE *)

Definition execute_fields (uri rid op : list Z) (params : Value) : list (Value * Value) :=
  [(text (lit "uri"), text uri); (text (lit "params"), params); (text (lit "operation"), text op); (text (lit "request_id"), text rid)].

Definition execute_raw (uri rid op : list Z) (params : Entity) : list (list Z * list Z) :=
  [(lit "uri", encode_cbor_text uri); (lit "params", encode_entity params); (lit "operation", encode_cbor_text op);
   (lit "request_id", encode_cbor_text rid)].

Lemma execute_data_raw uri rid op params : connect_execute_data uri rid op params = enc_fields (execute_raw uri rid op params).
Proof. unfold connect_execute_data, enc_fields, encode_entries, execute_raw. cbn -[encode_entity encode_cbor_text]. by rewrite app_nil_r, <-?app_assoc. Qed.

Lemma execute_data_value uri rid op params v :
  data params = to_ecf v →
  connect_execute_data uri rid op params
  = to_ecf (VMap (execute_fields uri rid op (entity_value (entity_type params) v (content_hash params)))).
Proof.
  intros Hv. destruct params as [ty d h]. cbn [data entity_type content_hash] in *. subst d.
  unfold connect_execute_data. rewrite encode_entity_value, to_ecf_fields by (vm_compute; reflexivity).
  cbn -[encode_head to_ecf entity_value]. by rewrite ?app_nil_r, <-?app_assoc.
Qed.

Lemma execute_fields_good uri rid op v :
  text_ok uri → text_ok rid → text_ok op → good 252 v → good 253 (VMap (execute_fields uri rid op v)).
Proof.
  intros Hu Hr Ho Hv. apply good_map; [done|]. unfold execute_fields.
  repeat (apply Forall_cons_2 || apply Forall_nil_2); (apply field_good; [vm_compute; reflexivity|]);
    try done; (apply text_good; [lia|done]).
Qed.

Lemma execute_raw_ok uri rid op params :
  text_ok uri → text_ok rid → text_ok op → wire_entity_ok params → Forall field_ok (execute_raw uri rid op params).
Proof.
  unfold text_ok. rewrite !andb_true_iff. intros [_ Hu] [_ Hr] [_ Ho] Hp. unfold execute_raw.
  repeat (apply Forall_cons_2 || apply Forall_nil_2); (split_and!; [vm_compute; reflexivity|vm_compute; reflexivity|]);
    try (by apply encode_cbor_text_item). by apply encode_entity_item.
Qed.

Lemma execute_scan uri rid op v :
  foldl connect_step (None, None, None) (map (λ kv, (ecf_norm kv.1, ecf_norm kv.2)) (execute_fields uri rid op v))
  = (Some rid, Some uri, Some op).
Proof. unfold execute_fields. cbn [map ecf_norm text fst snd foldl]. unfold connect_step. cbn [fst snd]. eval_keys. done. Qed.

Lemma execute_round_trip home uri rid op params e :
  text_ok uri → text_ok rid → text_ok op → canonical_entity 250 params →
  Z.of_nat (length (connect_execute_data uri rid op params)) ≤ u64_max →
  build_connect_execute_at home uri rid op params = Ok e →
  parse_connect_execute e = Ok (mkConnectExecute rid uri op params).
Proof.
  intros Hu Hr Ho Hp Hlen. unfold build_connect_execute_at. destruct (entity_new _ _ _) as [e'|] eqn:E; [|done]. intros [= ->].
  apply new_with_format_Ok in E as (_ & _ & Ht & Hd). pose proof Hp as (_ & _ & _ & v & Hv & Hg).
  set (pv := entity_value (entity_type params) v (content_hash params)).
  assert (Hgood : good 253 (VMap (execute_fields uri rid op pv))).
  { apply execute_fields_good; try done. eapply good_mono; [|by apply (entity_value_good 249)]. lia. }
  assert (Hread : from_reader (data e) = Some (VMap (map (λ kv, (ecf_norm kv.1, ecf_norm kv.2)) (execute_fields uri rid op pv)))).
  { rewrite Hd, (execute_data_value uri rid op params v Hv), <-(app_nil_r (to_ecf _)), from_reader_ecf.
    - by rewrite ecf_norm_fields by (vm_compute; reflexivity).
    - apply Hgood.
    - etrans; [apply Hgood|]. unfold ciborium_recursion_limit. lia. }
  unfold parse_connect_execute. rewrite Ht, bool_decide_eq_true_2, Hread by done. cbn [negb ok_or mbind result_bind as_map].
  rewrite execute_scan. cbn [ok_or mbind result_bind].
  assert (Hraw : cbor_map_field_raw (data e) (lit "params") = Some (encode_entity params)).
  { rewrite Hd, execute_data_raw, <-(app_nil_r (enc_fields _)), cbor_map_field_raw_spec.
    - cbn [execute_raw field_get]. rewrite decide_False by (vm_compute; congruence). by rewrite decide_True.
    - rewrite app_nil_r, <-execute_data_raw. split; [|done]. rewrite (execute_data_value uri rid op params v Hv). apply to_ecf_ok, Hgood.
    - done.
    - apply execute_raw_ok; try done. by apply (canonical_entity_wire 250). }
  rewrite Hraw. cbn [ok_or mbind result_bind]. rewrite decode_entity_exact; [done|by apply (canonical_entity_wire 250)|].
  split; [by apply (encode_entity_ok 249)|]. etrans; [|exact Hlen]. unfold connect_execute_data. rewrite !length_app. lia.
Qed.

Lemma execute_fields_read uri rid op v :
  foldl execute_step (mkExecScan None None None None None) (map (λ kv, (ecf_norm kv.1, ecf_norm kv.2)) (execute_fields uri rid op v))
  = mkExecScan (Some rid) (Some uri) (Some op) None None.
Proof. unfold execute_fields. cbn [map ecf_norm text fst snd foldl]. unfold execute_step. eval_keys. done. Qed.

(** What a connect EXECUTE asks for, as the refusals read it. *)
Lemma execute_asks home uri rid op params e :
  text_ok uri → text_ok rid → text_ok op → canonical_entity 250 params →
  build_connect_execute_at home uri rid op params = Ok e →
  decode_execute_fields (data e) = Ok (mkExecute rid uri op None None).
Proof.
  intros Hu Hr Ho Hp. unfold build_connect_execute_at. destruct (entity_new _ _ _) as [e'|] eqn:E; [|done]. intros [= ->].
  apply new_with_format_Ok in E as (_ & _ & _ & Hd). pose proof Hp as (_ & _ & _ & v & Hv & Hg).
  assert (Hgood : good 253 (VMap (execute_fields uri rid op (entity_value (entity_type params) v (content_hash params))))).
  { apply execute_fields_good; try done. eapply good_mono; [|by apply (entity_value_good 249)]. lia. }
  unfold decode_execute_fields. rewrite Hd, (execute_data_value uri rid op params v Hv), <-(app_nil_r (to_ecf _)), from_reader_ecf.
  - rewrite ecf_norm_fields by (vm_compute; reflexivity). cbn [ok_or mbind result_bind as_map]. by rewrite execute_fields_read.
  - apply Hgood.
  - etrans; [apply Hgood|]. unfold ciborium_recursion_limit. lia.
Qed.

(** A connect EXECUTE whose parameters hold a value of bounded size. *)
Lemma execute_built home rid op ty v e :
  digest_len_for_format home ≠ None → text_ok rid → text_ok op → canonical_entity 250 e → entity_type e = ty → data e = to_ecf v →
  Z.of_nat (value_size v) ≤ 2 ^ 40 → small rid → small op → small ty →
  ∃ exec, build_connect_execute home rid op e = Ok exec
    ∧ parse_connect_execute exec = Ok (mkConnectExecute rid CONNECT_PATH op e)
    ∧ decode_execute_fields (data exec) = Ok (mkExecute rid CONNECT_PATH op None None).
Proof.
  intros Hhome Hr Ho He Hty Hv Hsize Hrs Hos Hts. unfold build_connect_execute.
  destruct (build_connect_execute_at home CONNECT_PATH rid op e) as [exec|] eqn:Ex.
  2:{ unfold build_connect_execute_at in Ex. rewrite (execute_data_value _ _ _ _ _ Hv) in Ex.
      destruct (entity_new_encoded home TYPE_EXECUTE (VMap (execute_fields CONNECT_PATH rid op
        (entity_value (entity_type e) v (content_hash e)))) Hhome) as (x & Hx & _); [done..|]. by rewrite Hx in Ex. }
  exists exec. split; [done|]. split; [|by apply (execute_asks home CONNECT_PATH rid op e)].
  apply (execute_round_trip home CONNECT_PATH rid op e exec); try done.
  rewrite (execute_data_value _ _ _ _ _ Hv), Hty. etrans; [apply inj_le, length_to_ecf|].
  assert (Hh : (length (to_bytes (content_hash e)) ≤ 100)%nat).
  { destruct He as (_ & _ & Hh & _). rewrite to_bytes_shape by done. destruct (hash_ok_cases _ Hh) as [[_ E]|[_ E]]; cbn; lia. }
  unfold small, u32_max, u64_max in *. unfold execute_fields, entity_value.
  cbn [value_size sum_list_with fst snd text].
  repeat match goal with |- context [length (lit ?k)] => let n := eval vm_compute in (length (lit k)) in change (length (lit k)) with n end.
  change (length CONNECT_PATH) with 23%nat. lia.
Qed.
End reading.

(** * Proofs of possession *)

(** What the crate promises of a keypair: a key of its type, and signatures that verify. *)
Definition keypair_ok `{SignatureSchemes} (kp : IdentityKeypair) : Prop :=
  key_ok (kp_key_type kp) (kp_public kp)
  ∧ ∀ m, verify_for_key_type (kp_key_type kp) (kp_public kp) m (kp_sign kp m) = Ok tt ∧ bstr_ok (kp_sign kp m).

Section proving.
Context `{HC : Ciborium} `{!CiboriumDecodes} `{HS : Sha2} `{!Sha2Ok} `{HB : Base58} `{!Base58Ok} `{HK : SignatureSchemes}.

Lemma kp_peer_id_ok kp : keypair_ok kp →
  peer_id_validate (kp_peer_id kp) = Ok tt
  ∧ peer_id_decode (kp_peer_id kp)
    = Ok (mkDecoded (key_type_byte (kp_key_type kp)) (canonical_hash_type (kp_key_type kp)) (canonical_digest (kp_key_type kp) (kp_public kp)))
  ∧ verify_public_key_bytes (kp_peer_id kp) (kp_public kp) = true.
Proof.
  intros [Hk _]. destruct (peer_id_canonical (kp_key_type kp) (kp_public kp) Hk) as (p & Hp & Hd & Hv & Hb & _).
  unfold kp_peer_id. rewrite Hp. done.
Qed.

Lemma kp_key_type_byte kt : key_type_from_byte (key_type_byte kt) = Ok kt.
Proof. by destruct kt. Qed.

Lemma kp_public_bstr kp : keypair_ok kp → bstr_ok (kp_public kp).
Proof. intros [[Hb Hl] _]. split; [done|]. unfold len_ok. rewrite Hl. by destruct (kp_key_type kp). Qed.

Lemma label_text kt : text_ok (label kt).
Proof. by destruct kt. Qed.

Lemma kp_peer_entity_ok kp : keypair_ok kp → ∃ e, kp_peer_entity kp = Ok e ∧ entity_type e = TYPE_PEER ∧ hash_ok (content_hash e).
Proof.
  intros Hkp. pose proof (kp_public_bstr kp Hkp) as [Hb Hlk]. destruct Hkp as [[_ Hl] _].
  set (v := VMap [(text (lit "key_type"), text (label (kp_key_type kp))); (text (lit "public_key"), VBytes (kp_public kp))]).
  set (p := mkEntity TYPE_PEER (to_ecf v) (compute TYPE_PEER (to_ecf v))).
  assert (Hp : new_with_format TYPE_PEER (to_ecf v) HASH_ALGORITHM_SHA256 = Ok p)
    by (apply new_with_format_Ok; by split_and!).
  exists p. split; [|split; [done|]].
  - unfold kp_peer_entity, peer_entity_from_components_with_key_type. rewrite Hl, Nat.eqb_refl. cbn [negb].
    change (map_err (λ _, IdentityError) (new_with_format TYPE_PEER (to_ecf v) HASH_ALGORITHM_SHA256) = Ok p). by rewrite Hp.
  - apply new_with_format_Ok in Hp as (_ & Hc & _). by apply compute_format_ok in Hc as [? _].
Qed.

Definition auth_ok (a : AuthenticateData) : Prop :=
  text_ok (au_peer_id a) ∧ text_ok (au_key_type a) ∧ bstr_ok (au_public_key a) ∧ bstr_ok (au_nonce a).

Lemma authenticate_value_good a : auth_ok a → good 2 (authenticate_value a).
Proof.
  intros (Hp & Hk & Hpk & Hn). apply good_map; [done|]. repeat (apply Forall_cons_2 || apply Forall_nil_2);
    (apply field_good; [vm_compute; reflexivity|]); (apply text_good; [lia|done]) || (apply good_bytes; [lia|done]).
Qed.

Lemma authenticate_round_trip a fmt e :
  auth_ok a → digest_len_for_format fmt ≠ None → new_with_format TYPE_AUTHENTICATE (to_ecf (authenticate_value a)) fmt = Ok e →
  canonical_entity 250 e ∧ auth_from_entity e = Ok a.
Proof.
  intros Ha Hf He. apply built_entity in He as (Hc & Ht & _ & Hr & _); [|vm_compute; reflexivity| |done].
  2:{ eapply good_mono; [|by apply authenticate_value_good]. lia. }
  split; [done|]. unfold auth_from_entity. rewrite Ht, Hr, bool_decide_eq_true_2 by done. by destruct a.
Qed.

Lemma signature_round_trip g fmt e :
  text_ok (sig_algorithm g) → bstr_ok (sig_bytes g) → hash_ok (sig_signer g) → hash_ok (sig_target g) →
  digest_len_for_format fmt ≠ None → new_with_format TYPE_SIGNATURE (to_ecf (signature_value g)) fmt = Ok e →
  signature_from_entity e = Ok g ∧ signs_target (sig_target g) e = true.
Proof.
  intros Ha [Hb Hbl] Hs Ht Hf He. pose proof Ha as [Ha1 Ha2]%andb_true_iff.
  destruct (signature_value_ok g Ha1 Ha2 Hb Hbl Hs Ht) as [Hv Hn].
  apply built_entity in He as (_ & Hty & _ & Hr & _); [|vm_compute; reflexivity| |done]; [|split; [done|cbn; lia]].
  rewrite Hn in Hr. split.
  - unfold signature_from_entity. rewrite Hty, Hr, bool_decide_eq_true_2 by done. cbn [negb ok_or mbind result_bind as_map].
    rewrite signature_fold by done. by destruct g.
  - unfold signs_target, decode_sig_target_signer. rewrite Hty, Hr, bool_decide_eq_true_2 by done.
    cbn [mbind option_bind as_map foldl].
    assert (Hf1 : ∀ h, hash_ok h → sig_field (VBytes (to_bytes h)) = Some h) by (intros h Hh; unfold sig_field; cbn [as_bytes mbind option_bind]; by rewrite from_bytes_to_bytes).
    change (sig_step (None, None) (text (lit "signer"), VBytes (to_bytes (sig_signer g)))) with ((None : option Hash), sig_field (VBytes (to_bytes (sig_signer g)))).
    rewrite Hf1 by done.
    change (sig_step (None, Some (sig_signer g)) (text (lit "target"), VBytes (to_bytes (sig_target g)))) with (sig_field (VBytes (to_bytes (sig_target g))), Some (sig_signer g)).
    rewrite Hf1 by done. cbn. by apply bool_decide_eq_true_2.
Qed.

(** The one signature among what is included is found. *)
Lemma find_only_signature (p : Entity → bool) l e :
  e ∈ l → p e = true → (∀ x, x ∈ l → p x = true → x = e) → find_first p l = Some e.
Proof.
  intros He Hp Hu. destruct (find_first p l) as [x|] eqn:E.
  - apply find_first_Some in E as (l1 & l2 & -> & Hx & _). f_equal. apply Hu; [set_solver|done].
  - rewrite find_first_None, Forall_forall in E. specialize (E e He). congruence.
Qed.

Lemma find_in_proof root auth identity sig target :
  entity_type auth ≠ TYPE_SIGNATURE → entity_type identity ≠ TYPE_SIGNATURE → signs_target target sig = true →
  find_signature_for (include (include (include (envelope_new root) auth) identity) sig) target = Some sig.
Proof.
  intros Ha Hi Hs. unfold find_signature_for, find_signature_for_target.
  set (m := included _). assert (Hm : bt_ok m) by (do 3 apply bt_insert_ok; constructor).
  assert (Hall : Forall (λ kv, kv.2 = sig ∨ kv.2 = identity ∨ kv.2 = auth) m).
  { apply bt_insert_Forall; [by left|]. apply bt_insert_Forall; [by right; left|]. apply bt_insert_Forall; [by right; right|constructor]. }
  apply find_only_signature; [|done|].
  - apply (list_elem_of_fmap_2 snd m (include_key sig, sig)), bt_get_elem; [done|].
    unfold m, include. cbn [included]. apply bt_get_insert_eq. do 2 apply bt_insert_ok. constructor.
  - intros x ([k y] & -> & Hin)%list_elem_of_fmap Hx. rewrite Forall_forall in Hall. cbn [snd] in *.
    unfold signs_target in Hx. apply andb_true_iff in Hx as [Hx%bool_decide_eq_true _].
    destruct (Hall _ Hin) as [?|[?|?]]; cbn [snd] in *; congruence.
Qed.

Lemma proof_built home kp nonce fmt :
  keypair_ok kp → digest_len_for_format home ≠ None → digest_len_for_format fmt ≠ None →
  text_ok (kp_peer_id kp) → small (kp_peer_id kp) → bytes_ok nonce → small nonce →
  ∃ env identity auth g e,
    build_authenticate_envelope home kp nonce fmt = Ok env ∧ kp_peer_entity kp = Ok identity
    ∧ connect_request (lit "authenticate") env
      = Ok (mkConnectExecute (lit "connect-authenticate") CONNECT_PATH (lit "authenticate") auth)
    ∧ decode_execute_fields (data (root env)) = Ok (mkExecute (lit "connect-authenticate") CONNECT_PATH (lit "authenticate") None None)
    ∧ auth_from_entity auth = Ok (mkAuthenticate (kp_peer_id kp) (kp_public kp) nonce (label (kp_key_type kp)))
    ∧ find_signature_for env (content_hash auth) = Some e ∧ signature_from_entity e = Ok g
    ∧ sig_signer g = content_hash identity ∧ sig_bytes g = kp_sign kp (to_bytes (content_hash auth))
    ∧ algorithm (content_hash auth) = fmt.
Proof.
  intros Hkp Hhome Hfmt Hp Hps Hn Hns. unfold build_authenticate_envelope.
  set (a := mkAuthenticate (kp_peer_id kp) (kp_public kp) nonce (label (kp_key_type kp))).
  assert (Ha : auth_ok a) by (split_and!; cbn; [done|apply label_text|by apply kp_public_bstr|by apply small_bstr]).
  destruct (entity_new_encoded fmt TYPE_AUTHENTICATE (authenticate_value a) Hfmt) as (auth & Eauth & Tauth & Dauth & Hauth & Aauth); [done..|].
  unfold entity_new in Eauth. rewrite Eauth. cbn [map_err mbind result_bind].
  destruct (kp_peer_entity_ok kp Hkp) as (identity & Eid & Tid & Hid). rewrite Eid. cbn [map_err mbind result_bind].
  set (g := mkSignature (content_hash auth) (content_hash identity) (label (kp_key_type kp)) (kp_sign kp (to_bytes (content_hash auth)))).
  destruct (entity_new_encoded fmt TYPE_SIGNATURE (signature_value g) Hfmt) as (e & Ee & _); [done..|].
  unfold entity_new in Ee. rewrite Ee. cbn [map_err mbind result_bind].
  destruct (authenticate_round_trip a fmt auth Ha Hfmt Eauth) as [Hcan Hread].
  destruct (signature_round_trip g fmt e) as [Hg Hsigns]; try done; [apply label_text|by apply Hkp|].
  destruct (execute_built home (lit "connect-authenticate") (lit "authenticate") TYPE_AUTHENTICATE (authenticate_value a) auth)
    as (exec & Ex & Exp & Exf); try done.
  { assert (Hk : length (kp_public kp) = public_key_len (kp_key_type kp)) by apply Hkp.
    unfold small, u32_max in *. unfold authenticate_value. cbn [value_size sum_list_with fst snd text a au_key_type au_nonce au_peer_id au_public_key].
    rewrite Hk. destruct (kp_key_type kp); cbn [public_key_len label];
    repeat match goal with |- context [length (lit ?k)] => let n := eval vm_compute in (length (lit k)) in change (length (lit k)) with n end;
    unfold ED25519_PUBLIC_KEY_LEN, ED448_PUBLIC_KEY_LEN, EXPERIMENTAL_TEST_PUBLIC_KEY_LEN; lia. }
  rewrite Ex. cbn [mbind result_bind].
  exists (include (include (include (envelope_new exec) auth) identity) e), identity, auth, g, e.
  split_and!; try done.
  - unfold connect_request. change (root (include _ e)) with exec. by rewrite Exp.
  - apply find_in_proof; [by rewrite Tauth|by rewrite Tid|done].
Qed.

(** The responder that issued the nonce accepts the proof. *)
Lemma proof_accepted home kp fmt c :
  keypair_ok kp → digest_len_for_format home ≠ None → digest_len_for_format fmt ≠ None →
  text_ok (kp_peer_id kp) → small (kp_peer_id kp) → bytes_ok (local_nonce c) → small (local_nonce c) →
  state c = AwaitingAuthenticate → remote_peer_id c = Some (kp_peer_id kp) →
  ∃ env identity c', build_authenticate_envelope home kp (local_nonce c) fmt = Ok env ∧ kp_peer_entity kp = Ok identity
    ∧ decode_execute_fields (data (root env)) = Ok (mkExecute (lit "connect-authenticate") CONNECT_PATH (lit "authenticate") None None)
    ∧ process_authenticate env c = (Ok (kp_peer_id kp, lit "connect-authenticate"), c')
    ∧ state c' = Established ∧ remote_peer_id c' = Some (kp_peer_id kp) ∧ remote_public_key c' = Some (kp_public kp)
    ∧ remote_identity_hash c' = Some (content_hash identity) ∧ active_hash_format c' = active_hash_format c.
Proof.
  intros Hkp Hhome Hfmt Hp Hps Hn Hns Hst Hrp.
  destruct (proof_built home kp (local_nonce c) fmt) as (env & identity & auth & g & e & Eb & Eid & Ec & Ex & Ea & Ef & Eg & Gs & Gb & _); [done..|].
  destruct (kp_peer_id_ok kp Hkp) as (_ & Hd & Hv).
  assert (Hc : check_authenticate env c = Ok (mkConnectExecute (lit "connect-authenticate") CONNECT_PATH (lit "authenticate") auth,
      mkAuthenticate (kp_peer_id kp) (kp_public kp) (local_nonce c) (label (kp_key_type kp)), g)).
  { unfold check_authenticate. rewrite Hst, bool_decide_eq_true_2, Ec by done. cbn [negb mbind result_bind ce_params].
    rewrite Ea. cbn [mbind result_bind au_peer_id au_public_key au_nonce]. rewrite Hd. cbn [map_err mbind result_bind dec_key_type].
    rewrite kp_key_type_byte. cbn [map_err mbind result_bind]. rewrite bool_decide_eq_true_2, Ef by done.
    cbn [negb ok_or mbind result_bind]. rewrite Eg. cbn [map_err mbind result_bind]. rewrite Gb.
    rewrite (proj1 (proj2 Hkp _)). cbn [map_err mbind result_bind]. rewrite Hv, Hrp, bool_decide_eq_true_2 by done. done. }
  eexists env, identity, _. split; [done|]. split; [done|]. split; [done|].
  unfold process_authenticate. rewrite Hc. split; [reflexivity|]. cbn. rewrite Gs. done.
Qed.
End proving.

(** * Witnesses *)

(** Signing for examples: a signature is a checksum of the key and the message. *)
Definition toy_signature (pk m : list Z) : list Z := checksum 64 (pk ++ m).
Definition toy_schemes : SignatureSchemes :=
  {| ed25519_key := λ _, true; ed25519_verify := λ pk m s, bool_decide (s = toy_signature pk m);
     ed448_key := λ _, false; ed448_signature := λ _, false; ed448_verify := λ _ _ _, false |}.
Definition toy_keypair (b : Z) : IdentityKeypair :=
  mkKeypair Ed25519 (replicate 32 b) (toy_signature (replicate 32 b)).

Section demo.
#[local] Existing Instances checksum_sha2 plain_base58 toy_schemes ref_ciborium.

Definition demo_connection (nonce : list Z) : Connection :=
  set_local_advertisement 0 (label Ed25519) (connection_new (kp_peer_id (toy_keypair 1)) nonce).

(** A peer's hello; the stand-in for Base58 gives peer ids that are bytes, here ASCII ones. *)
Definition demo_hello : HelloData :=
  mkHello (kp_peer_id (toy_keypair 2)) (replicate 32 7) default_advertised_protocols
    (default_advertised_hash_formats 0) default_advertised_key_types None.

Definition or_err {A} (o : result ProtocolError A) (a : A) : A := match o with Ok x => x | Err _ => a end.

Definition hello_envelope (h : HelloData) : Envelope :=
  envelope_new (or_err (e ← hello_to_entity 0 h; build_connect_execute 0 (lit "connect-hello") (lit "hello") e) demo_result).

Definition demo_proof (nonce : list Z) : Envelope :=
  or_err (build_authenticate_envelope 0 (toy_keypair 2) nonce 0) (envelope_new demo_result).

Definition established_by (nonce : list Z) (env : Envelope) : Connection :=
  (process_authenticate env (process_hello (hello_envelope demo_hello) (demo_connection nonce)).2).2.

Example honest_proof_accepted :
  state (established_by (replicate 32 5) (demo_proof (replicate 32 5))) = Established.
Proof. vm_compute. reflexivity. Qed.

Lemma established_proves_key_witness :
  let c := established_by (replicate 32 5) (demo_proof (replicate 32 5)) in
  ∃ env p pk h, remote_peer_id c = Some p ∧ remote_public_key c = Some pk ∧ pk = replicate 32 2
    ∧ proves_key env (replicate 32 5) p pk h.
Proof.
  intros c.
  destruct (established_proves_key (kp_peer_id (toy_keypair 1)) (replicate 32 5) 0 (label Ed25519) c)
    as (env & p & pk & h & Hp & Hk & _ & _ & Hprove & _).
  - apply responds_authenticate, responds_hello, responds_refl.
  - vm_compute. reflexivity.
  - exists env, p, pk, h. split; [exact Hp|]. split; [exact Hk|]. split; [|exact Hprove].
    assert (Hpk : remote_public_key c = Some (replicate 32 2)) by (vm_compute; reflexivity).
    rewrite Hpk in Hk. injection Hk as <-. reflexivity.
Defined.

(** The parameters of a proof made for another nonce, with this connection's nonce in their data
    and the hash they had. *)
Definition replayed_proof (captured : Envelope) (nonce : list Z) : Envelope :=
  match parse_connect_execute (root captured) with
  | Ok exec =>
      let forged := mkEntity TYPE_AUTHENTICATE
        (to_ecf (authenticate_value (mkAuthenticate (kp_peer_id (toy_keypair 2)) (kp_public (toy_keypair 2)) nonce (label Ed25519))))
        (content_hash (ce_params exec)) in
      with_included (or_err (build_connect_execute 0 (lit "x") (lit "authenticate") forged) demo_result) (included captured)
  | Err _ => captured
  end.

(** The signature covers the hash that the parameters claim, which nothing compares with their
    data: a captured proof is accepted with the nonce of another connection. *)
Example captured_proof_replayed :
  let env := replayed_proof (demo_proof (replicate 32 5)) (6 :: replicate 31 5) in
  (state (established_by (6 :: replicate 31 5) env), state (established_by (6 :: replicate 31 5) (demo_proof (replicate 32 5))),
   bool_decide (remote_peer_id (established_by (6 :: replicate 31 5) env) = Some (kp_peer_id (toy_keypair 2))),
   match parse_connect_execute (root env) with Ok exec => is_ok (entity_validate (ce_params exec)) | Err _ => true end)
  = (Established, AwaitingAuthenticate, true, false).
Proof. vm_compute. reflexivity. Qed.

(** A hello that is refused for its key types has moved the active format. *)
Example refused_hello_moves_format :
  let c := set_local_advertisement 1 (label Ed448) (connection_new (kp_peer_id (toy_keypair 1)) []) in
  let hello := hello_envelope (mkHello (kp_peer_id (toy_keypair 2)) [] default_advertised_protocols
                                 [lit "ecfv1-sha256"] [lit "ed25519"] None) in
  let '(r, c') := process_hello hello c in
  (is_ok r, active_hash_format c, active_hash_format c') = (false, 1, 0).
Proof. vm_compute. reflexivity. Qed.
End demo.
