(* ===== verification/Handshake.v ===== *)
(** The frames of the handshake: what the responder answers to each
    ([core/peer/src/connection.rs]), and the initiator ([core/peer/src/remote.rs]).

    A refusal is the identifier it answers to with its status and code; its text is left out.
    Only the two frames before a connection is established are here. *)
From S2P Require Import Prelude BTree Ecf Cbor ContentHash Paths Entity Handler Walker Wire Identity.
From S2P Require Import CapabilityCodec Verify Response Connect.

Record Refusal := mkRefusal { rf_request_id : list Z; rf_status : Z; rf_code : list Z }.

#[export] Instance Refusal_eq_dec : EqDecision Refusal.
Proof. solve_decision. Defined.

(** [PeerError]; what is built badly is a connection error. *)
Inductive PeerError := PEProtocol (e : ProtocolError) | PEConnection.

Definition in_connection {A} (r : result ProtocolError A) : result PeerError A := map_err (λ _, PEConnection) r.

(** * Before an envelope is decoded *)

Definition is_clean_eof (e : WireError) : bool := match e with Io UnexpectedEof => true | _ => false end.

Definition preadmission_disposition (e : WireError) : Z * list Z :=
  match e with
  | FrameTooLarge _ _ => (STATUS_PAYLOAD_TOO_LARGE, lit "payload_too_large")
  | CborTag _ => (STATUS_BAD_REQUEST, lit "non_canonical_ecf")
  | _ => (STATUS_BAD_REQUEST, lit "invalid_request")
  end.

(** * Refusals by what a frame asks for *)

Section refusals.
Context `{Ciborium}.

Definition connect_surface (uri local_pid : list Z) : bool :=
  bool_decide (qualify_path (extract_handler_path uri) local_pid = lit "/" ++ local_pid ++ lit "/" ++ CONNECT_PATH).

(** Another peer's namespace is refused as an address, anything but the connect surface as
    unauthenticated. *)
Definition pre_establishment_execute_refusal (env : Envelope) (local_pid : list Z) : option Refusal :=
  fields ← ok (decode_execute_fields (data (root env)));
  if negb (bool_decide (extract_peer (ef_uri fields) local_pid = local_pid)) then
    Some (mkRefusal (request_id fields) STATUS_BAD_REQUEST (lit "invalid_request"))
  else if connect_surface (ef_uri fields) local_pid then None
  else Some (mkRefusal (request_id fields) STATUS_AUTH_FAILED (lit "authentication_failed")).

Definition prehello_authenticate_refusal (env : Envelope) : option Refusal :=
  fields ← ok (decode_execute_fields (data (root env)));
  if negb (bool_decide (operation fields = lit "authenticate")) || negb (is_connect_path (ef_uri fields)) then None
  else Some (mkRefusal (request_id fields) STATUS_AUTH_FAILED (lit "invalid_nonce")).

Definition unknown_connect_operation_refusal (env : Envelope) (local_pid : list Z) : option Refusal :=
  fields ← ok (decode_execute_fields (data (root env)));
  if negb (connect_surface (ef_uri fields) local_pid) || bool_decide (operation fields ∈ CONNECT_OPERATIONS) then None
  else Some (mkRefusal (request_id fields) STATUS_BAD_REQUEST (lit "invalid_request")).

Definition out_of_order_connect_operation_refusal (env : Envelope) (local_pid expected : list Z) : option Refusal :=
  fields ← ok (decode_execute_fields (data (root env)));
  if negb (connect_surface (ef_uri fields) local_pid) || bool_decide (operation fields = expected)
     || negb (bool_decide (operation fields ∈ CONNECT_OPERATIONS)) then None
  else Some (mkRefusal (request_id fields) STATUS_CONFLICT (lit "connection_sequence_error")).

Definition handshake_error (inbound : Envelope) (err : PeerError) (default_code : list Z) : Refusal :=
  let rid := default (lit "unknown") (extract_request_id inbound) in
  match err with
  | PEProtocol pe => mkRefusal rid (wire_status_code pe) (default default_code (wire_error_code pe))
  | PEConnection => mkRefusal rid STATUS_BAD_REQUEST default_code
  end.
End refusals.

(** * The responder's two frames *)

Section responder.
Context `{Ciborium} `{Sha2} `{Base58} `{SignatureSchemes} (home : Z).

Definition build_hello_response_envelope (env : Envelope) (c : Connection) : result PeerError Envelope * Connection :=
  match process_hello env c with
  | (Err e, c) => (Err (PEProtocol e), c)
  | (Ok (our_hello, rid), c) =>
      (our_hello_entity ← in_connection (hello_to_entity home our_hello);
       in_connection (build_execute_response home rid 200 our_hello_entity), c)
  end.

Definition orelse {A} (o : option A) (k : option A) : option A := match o with Some a => Some a | None => k end.

(** The refusals of a frame by its address and its operation, in the order they are tried. *)
Definition hello_refusal (env : Envelope) (local_pid : list Z) : option Refusal :=
  orelse (pre_establishment_execute_refusal env local_pid)
  (orelse (unknown_connect_operation_refusal env local_pid)
  (orelse (prehello_authenticate_refusal env)
  (out_of_order_connect_operation_refusal env local_pid (lit "hello")))).

Definition authenticate_refusal (env : Envelope) (local_pid : list Z) : option Refusal :=
  orelse (pre_establishment_execute_refusal env local_pid)
  (orelse (unknown_connect_operation_refusal env local_pid)
  (out_of_order_connect_operation_refusal env local_pid (lit "authenticate"))).

(** The first frame: an answer, or a refusal and the end of the connection. *)
Definition hello_frame (env : Envelope) (c : Connection) : (Refusal + Envelope) * Connection :=
  match hello_refusal env (local_peer_id c) with
  | Some refusal => (inl refusal, c)
  | None =>
      match build_hello_response_envelope env c with
      | (Ok response, c) => (inr response, c)
      | (Err e, c) => (inl (handshake_error env e (lit "invalid_request")), c)
      end
  end.

(** The second frame, up to the connection being established. *)
Definition authenticate_frame (env : Envelope) (c : Connection) : (Refusal + list Z * list Z) * Connection :=
  match authenticate_refusal env (local_peer_id c) with
  | Some refusal => (inl refusal, c)
  | None =>
      match process_authenticate env c with
      | (Ok answer, c) => (inr answer, c)
      | (Err e, c) => (inl (handshake_error env (PEProtocol e) (lit "authentication_failed")), c)
      end
  end.
End responder.

(** * The initiator *)

Section initiator.
Context `{Ciborium} `{Sha2} `{Base58} (home home_format : Z).

Definition initiator_hello (kp : IdentityKeypair) (nonce : list Z) : result PeerError Envelope :=
  hello_entity ← in_connection (hello_to_entity home
    (mkHello (kp_peer_id kp) nonce [lit "entity-core/1.0"] (default_advertised_hash_formats home_format)
       default_advertised_key_types None));
  hello_execute ← in_connection (build_connect_execute home (lit "connect-hello") (lit "hello") hello_entity);
  Ok (envelope_new hello_execute).

(** The proof for the responder's nonce under the format both derive, with that format and the
    peer id the responder gave.  [None] is the panic of [parse_execute_response]. *)
Definition initiator_authenticate (kp : IdentityKeypair) (resp_envelope : Envelope)
    : option (result PeerError (Envelope * Z * list Z)) :=
  resp ← parse_execute_response home resp_envelope;
  Some (resp ← in_connection resp;
        if negb (pr_status resp =? 200) then Err PEConnection else
        remote_hello ← in_connection (hello_from_entity (pr_result resp));
        active_format ← ok_or PEConnection
          (negotiate_active_format (default_advertised_hash_formats home_format) (hash_formats remote_hello));
        auth_envelope ← in_connection (build_authenticate_envelope home kp (h_nonce remote_hello) active_format);
        Ok (auth_envelope, active_format, h_peer_id remote_hello)).

Definition granted_token_step (acc : option Hash) (kv : Value * Value) : option Hash :=
  if key_is "token" kv.1 then match as_bytes kv.2 with Some b => ok (from_bytes b) | None => acc end else acc.

(** The capability granted, from the envelope that answers the proof. *)
Definition initiator_capability (resp_envelope : Envelope) : option (result PeerError Entity) :=
  resp ← parse_execute_response home resp_envelope;
  Some (resp ← in_connection resp;
        if negb (pr_status resp =? 200) then Err PEConnection else
        grant ← ok_or PEConnection (from_reader (data (pr_result resp)));
        m ← ok_or PEConnection (as_map grant);
        cap_hash ← ok_or PEConnection (foldl granted_token_step None m);
        ok_or PEConnection (find_included resp_envelope cap_hash)).
End initiator.

(** * Refusals *)

Section refused.
Context `{HC : Ciborium} `{HS : Sha2} `{HB : Base58} `{HK : SignatureSchemes} (home : Z).

(** The address and the operation decide, in this order. *)
Definition frame_refusal (f : ExecuteFields) (local_pid expected : list Z) (prehello : bool) : option (Z * list Z) :=
  if negb (bool_decide (extract_peer (ef_uri f) local_pid = local_pid)) then Some (400, lit "invalid_request")
  else if negb (connect_surface (ef_uri f) local_pid) then Some (401, lit "authentication_failed")
  else if negb (bool_decide (operation f ∈ CONNECT_OPERATIONS)) then Some (400, lit "invalid_request")
  else if prehello && bool_decide (operation f = lit "authenticate") && is_connect_path (ef_uri f) then Some (401, lit "invalid_nonce")
  else if negb (bool_decide (operation f = expected)) then Some (409, lit "connection_sequence_error")
  else None.

(** The row that the comments give to a frame: they pin an authenticate before the hello to the
    nonce, by whichever of its two names the connect path is addressed. *)
Definition frame_row (f : ExecuteFields) (local_pid expected : list Z) (prehello : bool) : option (Z * list Z) :=
  if negb (bool_decide (extract_peer (ef_uri f) local_pid = local_pid)) then Some (400, lit "invalid_request")
  else if negb (connect_surface (ef_uri f) local_pid) then Some (401, lit "authentication_failed")
  else if negb (bool_decide (operation f ∈ CONNECT_OPERATIONS)) then Some (400, lit "invalid_request")
  else if prehello && bool_decide (operation f = lit "authenticate") then Some (401, lit "invalid_nonce")
  else if negb (bool_decide (operation f = expected)) then Some (409, lit "connection_sequence_error")
  else None.

(** The code is there but for one row: it knows the peer-relative name alone. *)
Lemma refusal_is_row f local_pid expected prehello :
  expected ≠ lit "authenticate" ∨ prehello = false →
  frame_refusal f local_pid expected prehello
  = if bool_decide (frame_row f local_pid expected prehello = Some (401, lit "invalid_nonce")) && negb (is_connect_path (ef_uri f))
    then Some (409, lit "connection_sequence_error") else frame_row f local_pid expected prehello.
Proof.
  intros He. unfold frame_refusal, frame_row. destruct (bool_decide (extract_peer _ _ = _)); cbn [negb]; [|done].
  destruct (connect_surface _ _); cbn [negb]; [|done]. destruct (bool_decide (operation f ∈ CONNECT_OPERATIONS)); cbn [negb]; [|done].
  destruct prehello; cbn [andb].
  - destruct (decide (operation f = lit "authenticate")) as [Ho|Hne].
    + rewrite Ho, !(bool_decide_eq_true_2 (lit "authenticate" = lit "authenticate")) by done. cbn [andb].
      rewrite (bool_decide_eq_true_2 (Some _ = Some _)) by done. destruct (is_connect_path _); [done|]. cbn [andb negb].
      destruct He as [He|?]; [|done]. by rewrite bool_decide_eq_false_2 by congruence.
    + rewrite (bool_decide_eq_false_2 (operation f = lit "authenticate")) by done. cbn [andb]. by destruct (bool_decide (operation f = expected)).
  - by destruct (bool_decide (operation f = expected)).
Qed.

Lemma refusals_exact env local_pid f :
  decode_execute_fields (data (root env)) = Ok f →
  hello_refusal env local_pid
    = (λ p, mkRefusal (request_id f) p.1 p.2) <$> frame_refusal f local_pid (lit "hello") true
  ∧ authenticate_refusal env local_pid
    = (λ p, mkRefusal (request_id f) p.1 p.2) <$> frame_refusal f local_pid (lit "authenticate") false.
Proof.
  intros Hf. unfold hello_refusal, authenticate_refusal, pre_establishment_execute_refusal, prehello_authenticate_refusal,
    unknown_connect_operation_refusal, out_of_order_connect_operation_refusal. rewrite Hf. cbn [ok mbind option_bind].
  unfold frame_refusal. destruct (bool_decide (extract_peer _ _ = _)); cbn [negb orelse]; [|done].
  destruct (connect_surface _ _); cbn [negb orelse orb]; [|done].
  destruct (bool_decide (operation f ∈ CONNECT_OPERATIONS)); cbn [negb orelse orb]; [|done].
  destruct (is_connect_path _); cbn [negb]; rewrite ?orb_false_r, ?orb_true_r, ?andb_true_r, ?andb_false_r;
    repeat case_bool_decide; cbn [negb orelse orb andb]; try done; try congruence.
Qed.

Definition hello_errors (e : ProtocolError) : Prop :=
  match e with
  | ConnectionError | PInvalid | PMissingField | PInvalidRequest | IncompatibleProtocol | IncompatibleHashFormat
  | PUnsupportedKeyType _ => True
  | _ => False
  end.

Definition authenticate_errors (e : ProtocolError) : Prop :=
  match e with
  | ConnectionError | PInvalid | PMissingField | PUnsupportedKeyType _ | InvalidNonce | AuthenticationFailed
  | IdentityMismatch => True
  | _ => False
  end.

Lemma check_hello_errors env c : errs hello_errors (check_hello env c).
Proof. unfold check_hello, connect_request, parse_connect_execute, hello_from_entity, peer_id_error. errs_run. Qed.

Lemma check_authenticate_errors env c : errs authenticate_errors (check_authenticate env c).
Proof. unfold check_authenticate, connect_request, parse_connect_execute, auth_from_entity. errs_run. Qed.

Definition hello_pairs : list (Z * list Z) :=
  [(400, lit "invalid_request"); (401, lit "authentication_failed"); (401, lit "invalid_nonce");
   (409, lit "connection_sequence_error"); (400, lit "unsupported_key_type"); (400, lit "incompatible_protocol");
   (400, lit "incompatible_hash_format")].

Definition authenticate_pairs : list (Z * list Z) :=
  [(400, lit "invalid_request"); (401, lit "authentication_failed"); (409, lit "connection_sequence_error");
   (400, lit "unsupported_key_type"); (401, lit "invalid_nonce"); (401, lit "identity_mismatch")].

(** An authenticate that is none, or lacks a field. *)
Definition malformed (e : ProtocolError) : Prop := e = ConnectionError ∨ e = PInvalid ∨ e = PMissingField.

Lemma refusal_pair env local_pid r :
  hello_refusal env local_pid = Some r → (rf_status r, rf_code r) ∈ hello_pairs.
Proof.
  destruct (decode_execute_fields (data (root env))) as [f|] eqn:E.
  - rewrite (proj1 (refusals_exact env local_pid f E)). unfold frame_refusal. repeat case_match; intros [= <-]; cbn; set_solver.
  - unfold hello_refusal, pre_establishment_execute_refusal, prehello_authenticate_refusal,
      unknown_connect_operation_refusal, out_of_order_connect_operation_refusal. by rewrite E.
Qed.

Lemma authenticate_refusal_pair env local_pid r :
  authenticate_refusal env local_pid = Some r → (rf_status r, rf_code r) ∈ authenticate_pairs.
Proof.
  destruct (decode_execute_fields (data (root env))) as [f|] eqn:E.
  - rewrite (proj2 (refusals_exact env local_pid f E)). unfold frame_refusal. cbn [andb]. repeat case_match; intros [= <-]; cbn; set_solver.
  - unfold authenticate_refusal, pre_establishment_execute_refusal,
      unknown_connect_operation_refusal, out_of_order_connect_operation_refusal. by rewrite E.
Qed.

Lemma entity_new_nonempty ty d : digest_len_for_format home ≠ None → ty ≠ [] → ty ≠ TYPE_PEER → d ≠ [] → ∃ e, entity_new home ty d = Ok e.
Proof.
  intros Hhome Ht Hp Hd. unfold entity_new, new_with_format. rewrite !bool_decide_eq_false_2 by done. cbn [andb].
  apply (compute_format_supported ty d) in Hhome. destruct (compute_format ty d home); [by eexists|done].
Qed.

Lemma hello_answered env c a c' :
  digest_len_for_format home ≠ None → process_hello env c = (Ok a, c') →
  ∃ response, build_hello_response_envelope home env c = (Ok response, c').
Proof.
  intros Hhome Hp. unfold build_hello_response_envelope. rewrite Hp. destruct a as [h rid]. unfold in_connection, hello_to_entity.
  destruct (entity_new_nonempty TYPE_HELLO (to_ecf (hello_value h)) Hhome) as [e He]; [done..|apply encode_value_ne|].
  rewrite He. cbn [map_err mbind result_bind]. unfold build_execute_response, build_execute_response_with_included, build_execute_response_full.
  destruct (entity_new_nonempty TYPE_EXECUTE_RESPONSE (response_data rid 200 e None) Hhome) as [r Hr]; [done..|].
  rewrite Hr. cbn. by eexists.
Qed.

(** C40. The responder answers every frame of a handshake that it does not accept with a pair
    that depends on the frame, and no refusal moves the state machine, so that a second attempt is
    judged like the first.  A frame it can decode is refused by its address and its operation, before
    the state machine sees it, as the row for it says, and reaches the state machine where no row
    does.  To this there is one exception, against the comments: an authenticate before the hello by
    the qualified name of the connect path is refused with 409 connection_sequence_error, where they
    pin it to 401 invalid_nonce.  Every other refusal of a hello carries a listed pair; every other
    refusal of an authenticate too, or, also against the comments, which call it a pair of no row,
    400 authentication_failed, for one that is malformed. *)
Theorem handshake_refusals env c :
  digest_len_for_format home ≠ None →
  (∀ f, decode_execute_fields (data (root env)) = Ok f →
     let row := frame_row f (local_peer_id c) (lit "hello") true in
     (∀ p, row = Some p → p ≠ (401, lit "invalid_nonce") ∨ is_connect_path (ef_uri f) = true →
        hello_frame home env c = (inl (mkRefusal (request_id f) p.1 p.2), c))
     ∧ (row = Some (401, lit "invalid_nonce") → is_connect_path (ef_uri f) = false →
        hello_frame home env c = (inl (mkRefusal (request_id f) 409 (lit "connection_sequence_error")), c))
     ∧ (row = None → hello_refusal env (local_peer_id c) = None)
     ∧ (∀ p, frame_row f (local_peer_id c) (lit "authenticate") false = Some p →
        authenticate_frame env c = (inl (mkRefusal (request_id f) p.1 p.2), c))
     ∧ (frame_row f (local_peer_id c) (lit "authenticate") false = None → authenticate_refusal env (local_peer_id c) = None))
  ∧ (∀ r c', hello_frame home env c = (inl r, c') →
       (rf_status r, rf_code r) ∈ hello_pairs ∧ state c' = state c ∧ remote_peer_id c' = remote_peer_id c)
  ∧ (∀ r c', authenticate_frame env c = (inl r, c') → c' = c
       ∧ ((rf_status r, rf_code r) ∈ authenticate_pairs
          ∨ (rf_status r, rf_code r) = (400, lit "authentication_failed") ∧ ∃ e, check_authenticate env c = Err e ∧ malformed e)).
Proof.
  intros Hhome. split; [|split].
  - intros f Hf row. destruct (refusals_exact env (local_peer_id c) f Hf) as [H1 H2].
    rewrite refusal_is_row in H1 by by left. rewrite refusal_is_row in H2 by by right. fold row in H1.
    assert (Hauth : frame_row f (local_peer_id c) (lit "authenticate") false ≠ Some (401, lit "invalid_nonce"))
      by (unfold frame_row; cbn [andb]; repeat case_match; apply (bool_decide_eq_true_1 _); vm_compute; reflexivity).
    rewrite (bool_decide_eq_false_2 _ Hauth) in H2. cbn [andb] in H2. split_and!.
    + intros p Hp Hd. unfold hello_frame. rewrite H1. rewrite Hp.
      replace (bool_decide (Some p = _) && _) with false; [done|]. symmetry. apply andb_false_iff.
      destruct Hd as [Hd|Hd]; [left; apply bool_decide_eq_false_2; congruence|right; by rewrite Hd].
    + intros Hp Hc. unfold hello_frame. by rewrite H1, Hp, bool_decide_eq_true_2, Hc.
    + intros Hp. by rewrite H1, Hp.
    + intros p Hp. unfold authenticate_frame. by rewrite H2, Hp.
    + intros Hp. by rewrite H2, Hp.
  - intros r c' Hr. unfold hello_frame in Hr. destruct (hello_refusal env _) as [x|] eqn:Ex.
    { injection Hr as -> ->. split; [by apply (refusal_pair env (local_peer_id c'))|done]. }
    destruct (process_hello env c) as [[a|e] c1] eqn:Ep.
    { destruct (hello_answered env c a c1 Hhome Ep) as [resp Hb]. by rewrite Hb in Hr. }
    unfold build_hello_response_envelope in Hr. rewrite Ep in Hr. injection Hr as <- <-.
    pose proof (check_hello_errors env c) as Hce. unfold process_hello in Ep.
    destruct (check_hello env c) as [[[exec hello] active]|e'].
    + destruct (negb _); [|done]. injection Ep as <- <-. split; [|done]. cbn. set_solver.
    + injection Ep as <- <-. split; [|done]. destruct e'; try done; cbn; set_solver.
  - intros r c' Hr. unfold authenticate_frame in Hr. destruct (authenticate_refusal env _) as [x|] eqn:Ex.
    { injection Hr as -> ->. split; [done|]. left. by apply (authenticate_refusal_pair env (local_peer_id c')). }
    pose proof (check_authenticate_errors env c) as Hce. unfold process_authenticate in Hr.
    destruct (check_authenticate env c) as [[[exec auth] sig]|e']; [done|]. injection Hr as <- <-.
    split; [done|]. destruct e'; try done; cbn.
    all: first [left; set_solver|right; split; [done|]; eexists; split; [done|]; unfold malformed; tauto].
Qed.
End refused.

(** * An honest handshake *)

Section honest.
Context `{HC : Ciborium} `{!CiboriumDecodes} `{HS : Sha2} `{!Sha2Ok} `{HB : Base58} `{!Base58Ok} `{HK : SignatureSchemes}.

(** The connect path is this peer's own, whoever it is. *)
Lemma connect_path_own local_pid :
  extract_peer CONNECT_PATH local_pid = local_pid ∧ connect_surface CONNECT_PATH local_pid = true.
Proof. split; [done|]. unfold connect_surface. by apply bool_decide_eq_true_2. Qed.

Lemma formats_supported home_format f :
  f ∈ default_advertised_hash_formats home_format → ∃ c, format_code_for_string f = Some c ∧ digest_len_for_format c ≠ None.
Proof.
  unfold default_advertised_hash_formats. case_match; rewrite ?elem_of_cons, elem_of_nil; intros Hf; destruct_or?; subst; try done;
    eexists; (split; [vm_compute; reflexivity|done]).
Qed.

(** Both sides know SHA-256. *)
Lemma formats_negotiate hi hr :
  ∃ active, negotiate_active_format (default_advertised_hash_formats hi) (default_advertised_hash_formats hr) = Some active
    ∧ digest_len_for_format active ≠ None.
Proof. unfold default_advertised_hash_formats. destruct (hi =? _), (hr =? _); eexists; (split; [vm_compute; reflexivity|done]). Qed.

(** A name of the inventory. *)
Ltac known_operation := apply (bool_decide_eq_true_1 _); vm_compute; reflexivity.

Lemma honest_not_refused rid op local_pid prehello :
  op ∈ CONNECT_OPERATIONS → prehello && bool_decide (op = lit "authenticate") = false →
  frame_refusal (mkExecute rid CONNECT_PATH op None None) local_pid op prehello = None.
Proof.
  intros Hop Hpre. unfold frame_refusal. cbn [ef_uri operation]. destruct (connect_path_own local_pid) as [Hown Hsurf].
  rewrite Hown, Hsurf, Hpre. rewrite !bool_decide_eq_true_2 by done. done.
Qed.

Lemma advertised_texts hf : texts_ok (default_advertised_hash_formats hf).
Proof. unfold default_advertised_hash_formats, texts_ok. case_match; (split; [|done]); repeat (apply Forall_cons_2 || apply Forall_nil_2); by vm_compute. Qed.

Lemma advertised_size hf : (value_size (hello_value (mkHello [] [] default_advertised_protocols (default_advertised_hash_formats hf) default_advertised_key_types None)) ≤ 1000)%nat.
Proof. unfold default_advertised_hash_formats. case_match; vm_compute; lia. Qed.

Lemma hello_size p n pr hf kt ts :
  value_size (hello_value (mkHello p n pr hf kt ts)) = (length p + length n + value_size (hello_value (mkHello [] [] pr hf kt ts)))%nat.
Proof. unfold hello_value. cbn -[lit texts_field]. lia. Qed.

(** A hello of a peer that advertises what this program does. *)
Definition own_hello (pid nonce : list Z) (home_format : Z) : HelloData :=
  mkHello pid nonce default_advertised_protocols (default_advertised_hash_formats home_format) default_advertised_key_types None.

Lemma own_hello_ok pid nonce hf : text_ok pid → bytes_ok nonce → small nonce → hello_ok (own_hello pid nonce hf).
Proof.
  intros Hp Hn Hs. pose proof (small_bstr nonce Hn Hs) as Hb.
  assert (Hproto : texts_ok default_advertised_protocols) by (split; [|done]; repeat (apply Forall_cons_2 || apply Forall_nil_2); by vm_compute).
  assert (Hkeys : texts_ok default_advertised_key_types) by (split; [|done]; repeat (apply Forall_cons_2 || apply Forall_nil_2); by vm_compute).
  unfold hello_ok, own_hello. cbn [h_peer_id h_nonce protocols hash_formats key_types timestamp].
  repeat (split; [done || apply advertised_texts|]). done.
Qed.

Lemma own_hello_read pid nonce hf : hello_read (own_hello pid nonce hf) = own_hello pid nonce hf.
Proof. unfold own_hello, default_advertised_hash_formats. by case_match. Qed.

Lemma own_hello_size pid nonce hf : small pid → small nonce → Z.of_nat (value_size (hello_value (own_hello pid nonce hf))) ≤ 2 ^ 40.
Proof.
  unfold small, u32_max. intros Hp Hn. unfold own_hello. rewrite hello_size. pose proof (advertised_size hf). lia.
Qed.

(** The entity of a hello, which reads back as it was. *)
Lemma own_hello_entity home pid nonce hf :
  digest_len_for_format home ≠ None → text_ok pid → bytes_ok nonce → small nonce →
  ∃ e, hello_to_entity home (own_hello pid nonce hf) = Ok e ∧ canonical_entity 250 e ∧ entity_type e = TYPE_HELLO
    ∧ data e = to_ecf (hello_value (own_hello pid nonce hf)) ∧ hello_from_entity e = Ok (own_hello pid nonce hf).
Proof.
  intros Hhome Hp Hn Hs.
  destruct (entity_new_encoded home TYPE_HELLO (hello_value (own_hello pid nonce hf)) Hhome) as (e & He & Ht & Hd & _); [done..|].
  exists e. assert (Hto : hello_to_entity home (own_hello pid nonce hf) = Ok e) by (unfold hello_to_entity; by rewrite He).
  destruct (hello_round_trip home (own_hello pid nonce hf) e Hhome) as [Hc Hr]; [by apply own_hello_ok|done|].
  rewrite own_hello_read in Hr. done.
Qed.

Lemma response_size rid status e v :
  0 ≤ status ≤ u32_max → canonical_entity 250 e → data e = to_ecf v → Z.of_nat (value_size v) ≤ 2 ^ 40 → small rid → small (entity_type e) →
  Z.of_nat (length (response_data rid status e None)) ≤ u64_max.
Proof.
  intros Hst (_ & _ & Hh & _) Hv Hs Hr Ht. destruct e as [ty d h]. cbn [data entity_type content_hash] in *. subst d.
  change None with (to_ecf <$> None). rewrite response_data_value by done. etrans; [apply inj_le, length_to_ecf|].
  assert (Hlen : (length (to_bytes h) ≤ 100)%nat).
  { rewrite to_bytes_shape by done. destruct (hash_ok_cases _ Hh) as [[_ E]|[_ E]]; cbn; lia. }
  unfold small, u32_max, u64_max in *. unfold response_fields, entity_value.
  cbn [value_size sum_list_with fst snd text app].
  repeat match goal with |- context [length (lit ?k)] => let n := eval vm_compute in (length (lit k)) in change (length (lit k)) with n end.
  lia.
Qed.

Lemma hello_accepted home_i home_r hi hr kp kt nonce pid nonce' :
  let c := set_local_advertisement hr (label kt) (connection_new pid nonce') in
  digest_len_for_format home_i ≠ None → digest_len_for_format home_r ≠ None → keypair_ok kp →
  text_ok (kp_peer_id kp) → small (kp_peer_id kp) → text_ok pid → small pid →
  bytes_ok nonce → small nonce → bytes_ok nonce' → small nonce' → label kt ∈ default_advertised_key_types →
  ∃ hello response c1 active,
    initiator_hello home_i hi kp nonce = Ok hello ∧ hello_frame home_r hello c = (inr response, c1)
    ∧ negotiate_active_format (default_advertised_hash_formats hi) (default_advertised_hash_formats hr) = Some active
    ∧ digest_len_for_format active ≠ None ∧ active_hash_format c1 = active ∧ state c1 = AwaitingAuthenticate
    ∧ local_nonce c1 = nonce' ∧ remote_peer_id c1 = Some (kp_peer_id kp) ∧ local_peer_id c1 = pid
    ∧ ∃ r, parse_execute_response home_i response = Some (Ok r) ∧ pr_status r = 200
        ∧ hello_from_entity (pr_result r) = Ok (own_hello pid nonce' hr).
Proof.
  intros c Hhi Hhr Hkp Hp Hps Hq Hqs Hn Hns Hn' Hns' Hkt.
  destruct (own_hello_entity home_i (kp_peer_id kp) nonce hi) as (e & He & Hec & Het & Hed & Her); [done..|].
  destruct (execute_built home_i (lit "connect-hello") (lit "hello") TYPE_HELLO (hello_value (own_hello (kp_peer_id kp) nonce hi)) e)
    as (exec & Hx & Hxp & Hxf); try done; [by apply own_hello_size|].
  destruct (formats_negotiate hi hr) as (active & Hneg & Hact).
  assert (Hch : check_hello (envelope_new exec) c
    = Ok (mkConnectExecute (lit "connect-hello") CONNECT_PATH (lit "hello") e, own_hello (kp_peer_id kp) nonce hi, active)).
  { unfold check_hello, connect_request. change (root (envelope_new exec)) with exec. rewrite Hxp.
    cbn [negb bool_decide mbind result_bind ce_uri ce_operation ce_params c state set_local_advertisement connection_new].
    rewrite !bool_decide_eq_true_2 by done. cbn [negb mbind result_bind ce_params]. rewrite Her. cbn [mbind result_bind own_hello h_peer_id].
    destruct (kp_peer_id_ok kp Hkp) as (Hval & _ & _). rewrite Hval. cbn [map_err mbind result_bind protocols local_protocols].
    rewrite bool_decide_eq_false_2 by done. change (negb (protocols_compatible _ _)) with false. cbv match.
    assert (Hneg' : negotiate_active_format (hash_formats (own_hello (kp_peer_id kp) nonce hi)) (local_hash_formats c) = Some active) by exact Hneg.
    by rewrite Hneg'. }
  destruct (own_hello_entity home_r pid nonce' hr) as (e' & He' & Hec' & Het' & Hed' & Her'); [done..|].
  assert (Hproc : ∃ c1, process_hello (envelope_new exec) c = (Ok (own_hello pid nonce' hr, lit "connect-hello"), c1)
    ∧ active_hash_format c1 = active ∧ state c1 = AwaitingAuthenticate
    ∧ local_nonce c1 = nonce' ∧ remote_peer_id c1 = Some (kp_peer_id kp) ∧ local_peer_id c1 = pid).
  { unfold process_hello. rewrite Hch. cbv zeta. cbn [own_hello key_types local_key_type set_active_format c set_local_advertisement].
    assert (Hex : existsb (λ k, bool_decide (k = label kt)) default_advertised_key_types = true).
    { apply existsb_exists. exists (label kt). split; [by apply list_elem_of_In|by apply bool_decide_eq_true_2]. }
    rewrite Hex. cbn [negb]. eexists. split; [reflexivity|]. done. }
  destruct Hproc as (c1 & Hproc & Hc1).
  destruct (build_execute_response home_r (lit "connect-hello") 200 e') as [response|] eqn:Hresp.
  2:{ unfold build_execute_response, build_execute_response_with_included, build_execute_response_full in Hresp.
      destruct (entity_new_nonempty home_r TYPE_EXECUTE_RESPONSE (response_data (lit "connect-hello") 200 e' None) Hhr) as [x Hx']; [done..|].
      by rewrite Hx' in Hresp. }
  exists (envelope_new exec), response, c1, active. split.
  { unfold initiator_hello, in_connection. change [lit "entity-core/1.0"] with default_advertised_protocols.
    fold (own_hello (kp_peer_id kp) nonce hi). rewrite He. cbn [map_err mbind result_bind]. by rewrite Hx. }
  split.
  { unfold hello_frame. rewrite (proj1 (refusals_exact (envelope_new exec) (local_peer_id c) _ Hxf)).
    rewrite honest_not_refused by (known_operation || reflexivity). cbn [fmap option_fmap option_map].
    unfold build_hello_response_envelope, in_connection. rewrite Hproc, He'. cbn [map_err mbind result_bind]. by rewrite Hresp. }
  split; [done|]. split; [done|]. destruct Hc1 as (? & ? & ? & ? & ?). repeat (split; [done|]).
  exists (mkResponse (lit "connect-hello") 200 e' None (included response)). split; [|done].
  apply (response_round_trip home_r home_i (lit "connect-hello") 200 e' [] None response); try done.
  - destruct Hec' as (? & ? & ? & v & ? & Hv). split_and!; try done. exists v. split; [done|]. eapply good_mono; [|exact Hv]. lia.
  - apply (response_size (lit "connect-hello") 200 e' (hello_value (own_hello pid nonce' hr))); try done.
    + by apply own_hello_size.
    + by rewrite Het'.
Qed.

(** C18. An honest handshake completes.  Whatever home formats two peers run this program with,
    the initiator's hello is answered, both derive the same active format, its proof is accepted,
    and the responder then holds the connection established with the initiator's peer id, key
    and identity, in that format. *)
Theorem honest_handshake_completes home_i home_r hi hr kp kt nonce pid nonce' :
  digest_len_for_format home_i ≠ None → digest_len_for_format home_r ≠ None → keypair_ok kp →
  text_ok (kp_peer_id kp) → small (kp_peer_id kp) → text_ok pid → small pid →
  bytes_ok nonce → small nonce → bytes_ok nonce' → small nonce' → label kt ∈ default_advertised_key_types →
  ∃ hello response c1 proof c2 identity,
    initiator_hello home_i hi kp nonce = Ok hello
    ∧ hello_frame home_r hello (set_local_advertisement hr (label kt) (connection_new pid nonce')) = (inr response, c1)
    ∧ initiator_authenticate home_i hi kp response = Some (Ok (proof, active_hash_format c2, pid))
    ∧ authenticate_frame proof c1 = (inr (kp_peer_id kp, lit "connect-authenticate"), c2)
    ∧ kp_peer_entity kp = Ok identity ∧ is_established c2 = true
    ∧ remote_peer_id c2 = Some (kp_peer_id kp) ∧ remote_public_key c2 = Some (kp_public kp)
    ∧ remote_identity_hash c2 = Some (content_hash identity).
Proof.
  intros Hhi Hhr Hkp Hp Hps Hq Hqs Hn Hns Hn' Hns' Hkt.
  destruct (hello_accepted home_i home_r hi hr kp kt nonce pid nonce')
    as (hello & response & c1 & active & Eh & Ef & Eneg & Hact & Hactive & Hst & Hln & Hrp & Hlp & r & Er & Es & Eo); [done..|].
  destruct (proof_accepted home_i kp active c1) as (proof & identity & c2 & Eb & Eid & Ex & Ea & Hst2 & Hrp2 & Hrk2 & Hri2 & Haf2);
    [done|done|done|done|done|by rewrite Hln|by rewrite Hln|done|done|].
  exists hello, response, c1, proof, c2, identity. split; [done|]. split; [done|]. split; [|split].
  - unfold initiator_authenticate, in_connection. rewrite Er. cbn [mbind option_bind result_bind map_err]. f_equal.
    rewrite Es, Eo. cbn [negb Z.eqb mbind result_bind map_err]. change (negb _) with false. cbv match.
    cbn [own_hello hash_formats h_nonce h_peer_id]. rewrite Eneg. cbn [ok_or mbind result_bind].
    rewrite Hln in Eb. rewrite Eb. cbn. by rewrite Haf2, Hactive.
  - unfold authenticate_frame. rewrite (proj2 (refusals_exact proof (local_peer_id c1) _ Ex)).
    rewrite honest_not_refused by (known_operation || reflexivity). cbn [fmap option_fmap option_map].
    by rewrite Ea.
  - split_and!; try done. by apply bool_decide_eq_true_2.
Qed.
End honest.

(** * Witnesses *)

Section demo.
#[local] Existing Instances checksum_sha2 plain_base58 toy_schemes ref_ciborium.

Lemma toy_signature_length pk m : length (toy_signature pk m) = 64%nat.
Proof. unfold toy_signature, checksum. by rewrite length_map, length_seq. Qed.

Lemma toy_keypair_ok b : byte_ok b → keypair_ok (toy_keypair b).
Proof.
  intros Hb. split; [split; [by apply Forall_replicate|done]|]. intros m. split.
  - unfold verify_for_key_type, keypair_verify. cbn [kp_key_type toy_keypair kp_public kp_sign].
    rewrite toy_signature_length. cbn -[toy_signature replicate]. by rewrite bool_decide_eq_true_2.
  - split; [apply checksum_bytes; lia|]. unfold len_ok. cbn [toy_keypair kp_sign]. by rewrite toy_signature_length.
Qed.

(** Two peers of different home formats. *)
Lemma honest_handshake_completes_witness :
  ∃ hello response c1 proof c2 identity,
    initiator_hello 1 1 (toy_keypair 2) (replicate 32 7) = Ok hello
    ∧ hello_frame 0 hello (demo_connection (replicate 32 5)) = (inr response, c1)
    ∧ initiator_authenticate 1 1 (toy_keypair 2) response = Some (Ok (proof, active_hash_format c2, kp_peer_id (toy_keypair 1)))
    ∧ authenticate_frame proof c1 = (inr (kp_peer_id (toy_keypair 2), lit "connect-authenticate"), c2)
    ∧ kp_peer_entity (toy_keypair 2) = Ok identity ∧ is_established c2 = true
    ∧ remote_peer_id c2 = Some (kp_peer_id (toy_keypair 2)) ∧ remote_public_key c2 = Some (kp_public (toy_keypair 2))
    ∧ remote_identity_hash c2 = Some (content_hash identity).
Proof.
  apply (@honest_handshake_completes ref_ciborium ref_ciborium_decodes checksum_sha2 checksum_sha2_ok plain_base58 plain_base58_ok toy_schemes
    1 0 1 0 (toy_keypair 2) Ed25519 (replicate 32 7) (kp_peer_id (toy_keypair 1)) (replicate 32 5)).
  - discriminate.
  - discriminate.
  - apply toy_keypair_ok. unfold byte_ok. lia.
  - vm_compute. reflexivity.
  - apply Z.leb_le. vm_compute. reflexivity.
  - vm_compute. reflexivity.
  - apply Z.leb_le. vm_compute. reflexivity.
  - apply (bool_decide_eq_true_1 _). vm_compute. reflexivity.
  - apply Z.leb_le. vm_compute. reflexivity.
  - apply (bool_decide_eq_true_1 _). vm_compute. reflexivity.
  - apply Z.leb_le. vm_compute. reflexivity.
  - apply (bool_decide_eq_true_1 _). vm_compute. reflexivity.
Defined.

(** An EXECUTE of the connect handler, by its path. *)
Definition demo_execute (uri : list Z) (op : list Z) : Envelope :=
  envelope_new (or_err (build_connect_execute_at 0 uri (lit "r") op demo_result) demo_result).

Lemma handshake_refusals_witness :
  hello_frame 0 (demo_execute (lit "system/tree") (lit "get")) (demo_connection [])
  = (inl (mkRefusal (lit "r") 401 (lit "authentication_failed")), demo_connection []).
Proof.
  destruct (@handshake_refusals ref_ciborium checksum_sha2 plain_base58 toy_schemes 0
    (demo_execute (lit "system/tree") (lit "get")) (demo_connection [])) as [H _]; [discriminate|].
  destruct (H (mkExecute (lit "r") (lit "system/tree") (lit "get") None None)) as [H1 _]; [vm_compute; reflexivity|].
  apply (H1 (401, lit "authentication_failed")); [vm_compute; reflexivity|].
  left. apply (bool_decide_eq_true_1 _). vm_compute. reflexivity.
Defined.

Definition pair_of {A} (r : (Refusal + A) * Connection) : Z * list Z :=
  match r.1 with inl r => (rf_status r, rf_code r) | inr _ => (200, []) end.

(** Before the hello, an authenticate by the path alone is refused for its nonce; spelled with
    this peer's id it is refused for its order. *)
Example qualified_authenticate_out_of_order :
  let pid := sample_peer "3" in let c := connection_new pid [] in
  (pair_of (hello_frame 0 (demo_execute CONNECT_PATH (lit "authenticate")) c),
   pair_of (hello_frame 0 (demo_execute (lit "/" ++ pid ++ lit "/" ++ CONNECT_PATH) (lit "authenticate")) c))
  = ((401, lit "invalid_nonce"), (409, lit "connection_sequence_error")).
Proof. vm_compute. reflexivity. Qed.

(** An authenticate that is no authenticate entity is refused with a pair of no row. *)
Example malformed_authenticate_pair :
  let c := (process_hello (hello_envelope demo_hello) (demo_connection (replicate 32 5))).2 in
  pair_of (authenticate_frame (demo_execute CONNECT_PATH (lit "authenticate")) c) = (400, lit "authentication_failed").
Proof. vm_compute. reflexivity. Qed.

(** A hello spelled with this peer's id passes every refusal and is then no hello. *)
Example qualified_hello_refused :
  let pid := sample_peer "3" in let c := connection_new pid [] in
  let hello := envelope_new (or_err (e ← hello_to_entity 0 demo_hello;
     build_connect_execute_at 0 (lit "/" ++ pid ++ lit "/" ++ CONNECT_PATH) (lit "connect-hello") (lit "hello") e) demo_result) in
  (pair_of (hello_frame 0 (hello_envelope demo_hello) c), pair_of (hello_frame 0 hello c)) = ((200, []), (400, lit "invalid_request")).
Proof. vm_compute. reflexivity. Qed.
End demo.
