(* ===== verification/TrieSpec.v ===== *)
(** The canonical form of tries (for Trie.v).

    A trie's nodes are determined by the bindings they hold: [canon] computes the node of a
    list of bindings at a level, and insertion and removal are shown to lead from canonical
    form to canonical form, so that a root hash depends on the bindings alone. *)
From S2P Require Import Prelude BTree Ecf Cbor ContentHash Entity Store Trie.

(** * Nodes as functions from slots *)

Definition is_some {A} (o : option A) : bool := match o with Some _ => true | None => false end.

Definition bits_of {A} (f : Z → option A) (l : list Z) : Z :=
  foldr (λ p m, if is_some (f p) then Z.lor (Z.shiftl 1 p) m else m) 0 l.

Definition slot_range : list Z := seqZ 0 32.

Definition node_of (f : Z → option Entry) : SnapshotNodeData :=
  mkNode (bits_of f slot_range) (omap f slot_range).

(** Slot [p] replaced. *)
Definition upd {A} (f : Z → option A) (p : Z) (x : option A) : Z → option A :=
  λ q, if decide (q = p) then x else f q.

Lemma testbit_shift p q : 0 ≤ p → 0 ≤ q → Z.testbit (Z.shiftl 1 p) q = bool_decide (p = q).
Proof.
  intros Hp Hq. rewrite Z.shiftl_1_l, Z.pow2_bits_eqb by done.
  case_bool_decide; [by apply Z.eqb_eq|by apply Z.eqb_neq].
Qed.

Lemma testbit_bits_of {A} (f : Z → option A) l q :
  0 ≤ q → Forall (λ p, 0 ≤ p) l → Z.testbit (bits_of f l) q = bool_decide (q ∈ l) && is_some (f q).
Proof.
  intros Hq. induction 1 as [|p l Hp Hl IH]; cbn [bits_of foldr]; [by rewrite Z.bits_0|].
  change (foldr _ 0 l) with (bits_of f l).
  assert (Hcons : bool_decide (q ∈ p :: l) = bool_decide (p = q) || bool_decide (q ∈ l)).
  { rewrite <-bool_decide_or. apply bool_decide_ext. rewrite elem_of_cons. naive_solver. }
  rewrite Hcons. destruct (decide (p = q)) as [<-|Hne].
  - rewrite (bool_decide_eq_true_2 (p = p)) by done. destruct (is_some (f p)) eqn:Ef.
    + by rewrite Z.lor_spec, testbit_shift, bool_decide_eq_true_2.
    + by rewrite IH, andb_false_r.
  - rewrite (bool_decide_eq_false_2 (p = q)) by done. destruct (is_some (f p)); [|by rewrite IH].
    by rewrite Z.lor_spec, testbit_shift, bool_decide_eq_false_2, IH.
Qed.

Lemma elem_of_slots p : p ∈ slot_range ↔ 0 ≤ p < 32.
Proof. unfold slot_range. rewrite elem_of_seqZ. lia. Qed.

Lemma slot_range_nonneg : Forall (λ p, 0 ≤ p) slot_range.
Proof. apply Forall_forall. intros p Hp%elem_of_seqZ. lia. Qed.

Lemma testbit_node_of {A} (f : Z → option A) q :
  0 ≤ q → Z.testbit (bits_of f slot_range) q = (q <? 32) && is_some (f q).
Proof.
  intros Hq. rewrite testbit_bits_of by (done || apply slot_range_nonneg). f_equal.
  case_bool_decide as Hin; unfold slot_range in Hin; rewrite elem_of_seqZ in Hin; symmetry;
    [apply Z.ltb_lt|apply Z.ltb_ge]; lia.
Qed.

Lemma slot_range_split p :
  0 ≤ p < 32 → slot_range = seqZ 0 p ++ p :: seqZ (p + 1) (31 - p).
Proof.
  intros Hp. unfold slot_range. replace 32 with (p + (1 + (31 - p))) by lia.
  rewrite seqZ_app by lia. f_equal. rewrite seqZ_app by lia. cbn. by rewrite Z.add_0_l.
Qed.

Lemma length_omap_filter {A B} (f : A → option B) l :
  length (omap f l) = length (filter (λ x, is_some (f x) = true) l).
Proof.
  induction l as [|x l IH]; [done|]. rewrite filter_cons. cbn [omap list_omap].
  destruct (f x) eqn:E.
  - rewrite decide_True by done. cbn [length]. by f_equal.
  - rewrite decide_False by done. exact IH.
Qed.

(** Where slot [p] is in the dense array. *)
Definition rank {A} (f : Z → option A) (p : Z) : nat := length (omap f (seqZ 0 p)).

Lemma bit_at m p : 0 ≤ p → (Z.land (Z.shiftr m p) 1 =? 1) = Z.testbit m p.
Proof.
  intros Hp. change 1 with (Z.ones 1) at 1. rewrite Z.land_ones by lia. change (2 ^ 1) with 2.
  rewrite <-Z.bit0_mod, Z.shiftr_spec, Z.add_0_l by lia. by destruct (Z.testbit m p).
Qed.

Lemma testbit_mask p q : 0 ≤ p → 0 ≤ q → Z.testbit (if p =? 0 then 0 else Z.shiftl 1 p - 1) q = (q <? p).
Proof.
  intros Hp Hq. destruct (Z.eqb_spec p 0) as [->|Hne].
  - rewrite Z.bits_0. symmetry. apply Z.ltb_ge. lia.
  - rewrite Z.shiftl_1_l. change (2 ^ p - 1) with (Z.pred (2 ^ p)). rewrite <-Z.ones_equiv.
    destruct (Z.ltb_spec q p); [apply Z.ones_spec_low|apply Z.ones_spec_high]; lia.
Qed.

Lemma filter_ext_in {A} (P Q : A → Prop) `{!∀ x, Decision (P x), !∀ x, Decision (Q x)} (l : list A) :
  (∀ x, x ∈ l → P x ↔ Q x) → filter P l = filter Q l.
Proof.
  induction l as [|x l IH]; intros Hpq; [done|]. rewrite !filter_cons.
  rewrite (decide_ext (P x) (Q x)) by (apply Hpq; by left).
  by rewrite IH by (intros y Hy; apply Hpq; by right).
Qed.

(** The position arithmetic on a node finds the slot. *)
Lemma position_node_of f p :
  0 ≤ p < 32 → Trie.position (bits_of f slot_range) p = (is_some (f p), rank (A := Entry) f p).
Proof.
  intros Hp. unfold Trie.position. f_equal.
  - rewrite bit_at, testbit_node_of by lia. by rewrite (proj2 (Z.ltb_lt p 32)) by lia.
  - unfold count_ones, rank. rewrite length_omap_filter. f_equal. change (seqZ 0 32) with slot_range.
    pose proof (testbit_node_of f) as Hm. set (m := bits_of f slot_range) in *. clearbody m.
    rewrite (slot_range_split p Hp), filter_app, filter_cons.
    rewrite (filter_ext_in _ (λ x, is_some (f x) = true) (seqZ 0 p)).
    + rewrite decide_False, (filter_none _ (seqZ (p + 1) _)), app_nil_r; [done|..].
      * intros x Hx%elem_of_seqZ. rewrite Z.land_spec, testbit_mask by lia.
        rewrite (proj2 (Z.ltb_ge x p)) by lia. by rewrite andb_false_r.
      * rewrite Z.land_spec, testbit_mask by lia. rewrite (proj2 (Z.ltb_ge p p)) by lia. by rewrite andb_false_r.
    + intros x Hx%elem_of_seqZ. rewrite Z.land_spec, testbit_mask, Hm by lia.
      rewrite (proj2 (Z.ltb_lt x 32)), (proj2 (Z.ltb_lt x p)) by lia. by rewrite andb_true_r.
Qed.

Lemma omap_ext_in {A B} (f g : A → option B) (l : list A) : (∀ x, x ∈ l → f x = g x) → omap f l = omap g l.
Proof.
  induction l as [|x l IH]; intros Hfg; [done|]. cbn. rewrite (Hfg x) by (by left).
  rewrite IH by (intros y Hy; apply Hfg; by right). done.
Qed.

Lemma bits_of_ext {A} (f g : Z → option A) l : (∀ x, x ∈ l → f x = g x) → bits_of f l = bits_of g l.
Proof.
  induction l as [|x l IH]; intros Hfg; [done|]. cbn [bits_of foldr]. rewrite (Hfg x) by (by left).
  change (foldr _ 0 l) with (bits_of f l) at 1 2. change (foldr _ 0 l) with (bits_of g l). by rewrite IH by (intros y Hy; apply Hfg; by right).
Qed.

Lemma node_of_ext f g : (∀ p, 0 ≤ p < 32 → f p = g p) → node_of f = node_of g.
Proof.
  intros Hfg. unfold node_of. f_equal; [apply bits_of_ext|apply omap_ext_in];
    intros x Hx%elem_of_seqZ; apply Hfg; lia.
Qed.

Definition to_entries {A} (x : option A) : list A := match x with Some e => [e] | None => [] end.

Lemma dense_upd {A} (f : Z → option A) p x :
  0 ≤ p < 32 →
  omap (upd f p x) slot_range = omap f (seqZ 0 p) ++ to_entries x ++ omap f (seqZ (p + 1) (31 - p)).
Proof.
  intros Hp. rewrite (slot_range_split p Hp), omap_app. f_equal.
  - apply omap_ext_in. intros q Hq%elem_of_seqZ. unfold upd. by rewrite decide_False by lia.
  - cbn. unfold upd at 1. rewrite decide_True by done.
    rewrite (omap_ext_in (upd f p x) f) by (intros q Hq%elem_of_seqZ; unfold upd; by rewrite decide_False by lia).
    by destruct x.
Qed.

Lemma dense_split {A} (f : Z → option A) p :
  0 ≤ p < 32 → omap f slot_range = omap f (seqZ 0 p) ++ to_entries (f p) ++ omap f (seqZ (p + 1) (31 - p)).
Proof.
  intros Hp. rewrite <-dense_upd by done. apply omap_ext_in. intros q _. unfold upd. by case_decide; subst.
Qed.

Section slot_ops.
Context {A : Type} (f : Z → option A) (p : Z) (Hp : 0 ≤ p < 32).

Lemma dense_lookup e : f p = Some e → omap f slot_range !! rank f p = Some e.
Proof.
  intros E. rewrite (dense_split f p Hp), E. unfold rank. by rewrite lookup_app_r, Nat.sub_diag by lia.
Qed.

Lemma dense_set e0 e : f p = Some e0 → vec_set (rank f p) e (omap f slot_range) = Some (omap (upd f p (Some e)) slot_range).
Proof.
  intros E. rewrite (dense_split f p Hp), (dense_upd f p _ Hp), E. unfold vec_set, rank. cbn [to_entries app].
  rewrite (proj2 (Nat.ltb_lt _ _)) by (rewrite length_app; cbn; lia).
  f_equal. rewrite <-(Nat.add_0_r (length _)) at 1. by rewrite insert_app_r.
Qed.

Lemma dense_insert e : f p = None → vec_insert (rank f p) e (omap f slot_range) = Some (omap (upd f p (Some e)) slot_range).
Proof.
  intros E. rewrite (dense_split f p Hp), (dense_upd f p _ Hp), E. unfold vec_insert, rank. cbn [to_entries app].
  rewrite (proj2 (Nat.leb_le _ _)) by (rewrite length_app; lia).
  by rewrite take_app_length, drop_app_length.
Qed.

Lemma dense_remove e : f p = Some e → vec_remove (rank f p) (omap f slot_range) = Some (omap (upd f p None) slot_range).
Proof.
  intros E. rewrite (dense_split f p Hp), (dense_upd f p _ Hp), E. unfold vec_remove, rank. cbn [to_entries app].
  rewrite (proj2 (Nat.ltb_lt _ _)) by (rewrite length_app; cbn; lia).
  rewrite take_app_length. f_equal. f_equal. rewrite <-Nat.add_1_r, <-drop_drop, drop_app_length. done.
Qed.

End slot_ops.

Lemma is_some_upd {A} (f : Z → option A) p x q :
  is_some (upd f p x q) = if decide (q = p) then is_some x else is_some (f q).
Proof. unfold upd. by case_decide. Qed.

(** Masks agree when their bits do. *)
Lemma mask_ext a b : (∀ q, 0 ≤ q → Z.testbit a q = Z.testbit b q) → a = b.
Proof. intros Hq. apply Z.bits_inj'. exact Hq. Qed.

Section slot_bits.
Context {A : Type} (f : Z → option A) (p : Z) (Hp : 0 ≤ p < 32).

Lemma bits_add e : Z.lor (bits_of f slot_range) (Z.shiftl 1 p) = bits_of (upd f p (Some e)) slot_range.
Proof.
  apply mask_ext. intros q Hq. rewrite Z.lor_spec, testbit_shift, !testbit_node_of, is_some_upd by lia.
  case_bool_decide; case_decide; try lia; [|by rewrite orb_false_r]. subst q. rewrite orb_true_r, andb_true_r.
  symmetry. apply Z.ltb_lt. lia.
Qed.

Lemma bits_same e0 e : f p = Some e0 → bits_of f slot_range = bits_of (upd f p (Some e)) slot_range.
Proof.
  intros E. apply mask_ext. intros q Hq. rewrite !testbit_node_of, is_some_upd by lia.
  case_decide; [subst q; by rewrite E|done].
Qed.

Lemma bits_clear : clear_bit (bits_of f slot_range) p = bits_of (upd f p None) slot_range.
Proof.
  apply mask_ext. intros q Hq. unfold clear_bit. change 0xFFFFFFFF with (Z.ones 32).
  rewrite Z.land_spec, Z.lxor_spec, testbit_shift, !testbit_node_of, is_some_upd by lia.
  destruct (Z.ltb_spec q 32); [rewrite Z.ones_spec_low by lia|done].
  case_bool_decide; case_decide; try lia; cbn; [by rewrite andb_false_r|by rewrite andb_true_r].
Qed.
End slot_bits.

(** * Buckets are maps *)

Notation bindings := (list (list Z * Hash)).

Lemma tuple_position_None key (m : bindings) : bt_ok m → tuple_position key m = None ↔ bt_get key m = None.
Proof.
  intros Hm. induction m as [|[k v] m IH]; [done|]. rewrite bt_get_cons by done.
  apply bt_ok_cons in Hm as [_ Hm]. cbn [tuple_position]. case_bool_decide as Hk.
  - subst k. rewrite cmp_refl. split; discriminate.
  - rewrite fmap_None, IH by done. destruct (cmp key k) eqn:E; [by apply cmp_eq in E|done..].
Qed.

Lemma tuple_position_Some key (m : bindings) pos v :
  bt_ok m → tuple_position key m = Some pos →
  set_value pos v m = bt_insert key v m ∧ delete pos m = bt_remove key m ∧ is_Some (bt_get key m).
Proof.
  intros Hm. revert pos. induction m as [|[k v0] m IH]; intros pos E; [discriminate|]. cbn in E.
  pose proof Hm as [Hall Hm']%bt_ok_cons. case_bool_decide as Hk.
  - injection E as <-. subst k. cbn [set_value alter list_alter delete list_delete bt_insert bt_remove bt_get].
    by rewrite cmp_refl.
  - apply fmap_Some in E as (pos' & E & ->). destruct (IH Hm' _ E) as (E1 & E2 & E3).
    assert (Hgt : cmp key k = Gt).
    { destruct E3 as [v1 E3]. apply bt_get_elem in E3; [|done]. rewrite Forall_forall in Hall.
      specialize (Hall _ E3). cbn in Hall. by apply cmp_gt_lt. }
    cbn [bt_insert bt_remove bt_get]. rewrite Hgt. split_and!; [|by rewrite <-E2|done]. by rewrite <-E1.
Qed.

Lemma by_key_flip a b : by_key a b = Gt → by_key b a ≠ Gt.
Proof. unfold by_key. intros Hab%cmp_gt_lt. by rewrite Hab. Qed.

Lemma by_key_trans a b c : by_key a b ≠ Gt → by_key b c ≠ Gt → by_key a c ≠ Gt.
Proof.
  unfold by_key. destruct (cmp a.1 b.1) eqn:E1; [apply cmp_eq in E1 as ->; done| |done].
  intros _. destruct (cmp b.1 c.1) eqn:E2; [apply cmp_eq in E2 as <-; by rewrite E1| |done].
  by rewrite (cmp_lt_trans _ _ _ E1 E2).
Qed.

(** Sorting the entries of a map, in whatever order they come, gives the map. *)
Lemma sort_by_key_map l (m : bindings) : bt_ok m → l ≡ₚ m → sort_by by_key l = m.
Proof.
  intros Hm Hp. assert (Hnd : NoDup (map fst l)).
  { change (NoDup (fst <$> l)). rewrite Hp. by apply bt_keys_NoDup. }
  rewrite (sort_by_ext by_key by_key_flip by_key_trans l m).
  - apply sort_by_id. clear Hp Hnd. induction Hm as [|x m Hs IH Hx]; constructor; [done|].
    eapply Forall_impl; [exact Hx|]. intros y. unfold key_lt, by_key. by intros ->.
  - intros [k1 v1] [k2 v2] H1' H2' G1 G2. unfold by_key in *. cbn in *.
    assert (k1 = k2) as ->.
    { destruct (cmp k1 k2) eqn:E; [by apply cmp_eq in E| |done]. apply cmp_gt_lt in E. done. }
    rewrite Hp in H1', H2'. apply (bt_get_elem m Hm) in H1', H2'. congruence.
  - done.
Qed.

(** * The bindings of a slot *)

Section parts.
Context `{Sha2Ok}.

(** The slot of a key at a level. *)
Definition slice (level : nat) (key : list Z) : option Z := bit_slice_at (key_hash key) level.

Definition part (level : nat) (p : Z) (M : bindings) : bindings := filter (λ kv, slice level kv.1 = Some p) M.

Lemma slice_defined level key : (level < MAX_LEVELS)%nat → ∃ p, slice level key = Some p ∧ 0 ≤ p < 32.
Proof.
  intros Hl. unfold MAX_LEVELS in Hl. unfold slice, bit_slice_at, BIT_WIDTH, key_hash.
  destruct (lookup_lt_is_Some_2 (sha256 key) (Z.to_nat (Z.of_nat level * 5 / 8))) as [b Hb].
  { rewrite sha256_length. apply Nat2Z.inj_lt. rewrite Z2Nat.id by (apply Z.div_pos; lia).
    apply Z.div_lt_upper_bound; lia. }
  rewrite Hb. cbn. eexists. split; [done|]. change 0x1F with (Z.ones 5). rewrite Z.land_ones by lia.
  apply Z.mod_pos_bound. lia.
Qed.

Lemma slice_undefined level key : (MAX_LEVELS ≤ level)%nat → slice level key = None.
Proof.
  intros Hl. unfold MAX_LEVELS in Hl. unfold slice, bit_slice_at, BIT_WIDTH, key_hash.
  rewrite (lookup_ge_None_2 (sha256 key) (Z.to_nat (Z.of_nat level * 5 / 8))); [reflexivity|].
  rewrite sha256_length. apply Nat2Z.inj_le.
  rewrite Z2Nat.id by (apply Z.div_pos; lia). apply Z.div_le_lower_bound; lia.
Qed.

Lemma part_ok level p M : bt_ok M → bt_ok (part level p M).
Proof. apply bt_filter_ok. Qed.

Lemma part_insert level p k v M q :
  bt_ok M → slice level k = Some p →
  part level q (bt_insert k v M) = if decide (q = p) then bt_insert k v (part level p M) else part level q M.
Proof.
  intros Hm Hs. etrans; [exact (bt_filter_insert (λ k, slice level k = Some q) M k v Hm)|].
 
  destruct (decide (q = p)) as [->|Hne]; [by rewrite decide_True|]. rewrite decide_False; [done|congruence].
Qed.

Lemma part_remove level p k M q :
  bt_ok M → slice level k = Some p →
  part level q (bt_remove k M) = if decide (q = p) then bt_remove k (part level p M) else part level q M.
Proof.
  intros Hm Hs. etrans; [exact (bt_filter_remove (λ k, slice level k = Some q) M k Hm)|].
 
  destruct (decide (q = p)) as [->|Hne]; [by rewrite decide_True|]. rewrite decide_False; [done|congruence].
Qed.

Lemma part_get level p k M : bt_ok M → slice level k = Some p → bt_get k (part level p M) = bt_get k M.
Proof.
  intros Hm Hs. etrans; [exact (bt_get_filter (λ k, slice level k = Some p) M k Hm)|]. by rewrite decide_True.
Qed.

(** The slots of a level share out the bindings. *)
Lemma parts_perm level M :
  (level < MAX_LEVELS)%nat → M ≡ₚ concat (map (λ p, part level p M) slot_range).
Proof.
  intros Hl. induction M as [|[k v] M IH].
  - by induction slot_range.
  - destruct (slice_defined level k Hl) as (p & Hs & Hp).
    assert (Hpart : ∀ q, part level q ((k, v) :: M) = if decide (q = p) then (k, v) :: part level q M else part level q M).
    { intros q. unfold part at 1. rewrite filter_cons. cbn [fst]. rewrite Hs.
      case_decide as Hq; case_decide as Hqp; (done || congruence). }
    rewrite (slot_range_split p Hp), map_app, concat_app in IH |- *. cbn [map concat] in IH |- *.
    rewrite Hpart, decide_True by done.
    rewrite (map_ext_in (λ q, part level q ((k, v) :: M)) (λ q, part level q M) (seqZ 0 p)).
    2: { intros q Hq%list_elem_of_In%elem_of_seqZ. rewrite Hpart. by rewrite decide_False by lia. }
    rewrite (map_ext_in (λ q, part level q ((k, v) :: M)) (λ q, part level q M) (seqZ (p + 1) (31 - p))).
    2: { intros q Hq%list_elem_of_In%elem_of_seqZ. rewrite Hpart. by rewrite decide_False by lia. }
    rewrite IH at 1. cbn. by rewrite Permutation_middle.
Qed.
End parts.

(** * The node codec *)

Definition key_ok (k : list Z) : Prop := utf8_valid k = true ∧ len_ok k = true.
Definition binding_ok (kv : list Z * Hash) : Prop := key_ok kv.1 ∧ hash_ok kv.2.

Definition entry_ok (e : Entry) : Prop :=
  match e with
  | Bucket b => (length b ≤ BUCKET_SIZE)%nat ∧ Forall binding_ok b
  | Link h => hash_ok h
  end.

Definition node_ok (node : SnapshotNodeData) : Prop :=
  0 ≤ node_map node < 2 ^ 32 ∧ (length (node_data node) ≤ 32)%nat ∧ Forall entry_ok (node_data node).

Lemma mapO_map {A B} (f : A → option B) (g : B → A) l :
  Forall (λ y, f (g y) = Some y) l → mapO f (map g l) = Some l.
Proof. induction 1 as [|y l Hy Hl IH]; [done|]. cbn. by rewrite Hy; cbn; rewrite IH. Qed.

Lemma decode_tuple_value kv : binding_ok kv → decode_tuple (tuple_value kv) = Some kv.
Proof.
  intros [_ Hh]. destruct kv as [k h]. unfold decode_tuple, tuple_value.
  cbn [as_array mbind option_bind as_str text as_bytes fst snd]. by rewrite from_bytes_to_bytes.
Qed.

Lemma decode_entry_value e : entry_ok e → decode_entry (entry_value e) = Some e.
Proof.
  destruct e as [b|h]; intros He; unfold decode_entry; cbn [as_array entry_value as_bytes mbind option_bind].
  - rewrite (mapO_map decode_tuple tuple_value); [done|]. eapply Forall_impl; [apply He|]. apply decode_tuple_value.
  - by rewrite from_bytes_to_bytes.
Qed.

Lemma tuple_value_good kv : binding_ok kv → good 2 (tuple_value kv).
Proof.
  intros [[Hu Hl] Hh]. apply good_array; [done|]. repeat constructor; cbn [value_ok text depth]; try lia.
  - by rewrite Hu, Hl.
  - by apply hash_bytes_ok.
Qed.

Lemma entry_value_good e : entry_ok e → good 3 (entry_value e).
Proof.
  destruct e as [b|h]; cbn [entry_ok entry_value].
  - intros [Hl Hb]. unfold BUCKET_SIZE in Hl. apply good_array; [apply len_ok_small; rewrite length_map; lia|].
    apply Forall_map. eapply Forall_impl; [exact Hb|]. apply tuple_value_good.
  - intros Hh. split; [by apply hash_bytes_ok|cbn; lia].
Qed.

Lemma map_ecf_norm_id {A} (f : A → Value) l : (∀ x, ecf_norm (f x) = f x) → map ecf_norm (map f l) = map f l.
Proof. intros Hf. rewrite map_map. by apply map_ext. Qed.

Lemma entry_value_norm e : ecf_norm (entry_value e) = entry_value e.
Proof. destruct e as [b|h]; [|done]. cbn [entry_value ecf_norm]. by rewrite (map_ecf_norm_id tuple_value). Qed.

(** What reading a node's encoding gives: its two fields in key order. *)
Lemma node_value_norm (b : list Z) d :
  ecf_norm (VMap [(text (lit "map"), VBytes b); (text (lit "data"), VArray (map entry_value d))])
  = VMap [(text (lit "map"), VBytes b); (text (lit "data"), VArray (map entry_value d))].
Proof.
  transitivity (VMap [(text (lit "map"), VBytes b); (text (lit "data"), ecf_norm (VArray (map entry_value d)))]);
    [reflexivity|].
  cbn [ecf_norm]. by rewrite (map_ecf_norm_id entry_value) by apply entry_value_norm.
Qed.

Lemma node_step_map bm d b :
  length b = BITMAP_BYTES → node_step (bm, d) (text (lit "map"), VBytes b) = Some (Some (be_value b), d).
Proof.
  intros Hb. unfold node_step. cbn [as_str text fst snd mbind option_bind as_bytes].
  by rewrite bool_decide_eq_true_2, Hb by done.
Qed.

Lemma node_step_data bm d l :
  Forall entry_ok l → node_step (bm, d) (text (lit "data"), VArray (map entry_value l)) = Some (bm, Some l).
Proof.
  intros Hl. unfold node_step. cbn [as_str text fst snd mbind option_bind as_array].
  rewrite bool_decide_eq_false_2, bool_decide_eq_true_2 by done.
  by rewrite (mapO_map decode_entry entry_value) by (eapply Forall_impl; [exact Hl|]; apply decode_entry_value).
Qed.

Lemma node_value_good node : node_ok node →
  good 5 (VMap [(text (lit "map"), VBytes (be_bytes BITMAP_BYTES (node_map node)));
                (text (lit "data"), VArray (map entry_value (node_data node)))]).
Proof.
  intros (Hm & Hl & Hd).
  apply (good_map 4); [done|]. rewrite !Forall_cons. split_and!; [split; split| split; [split|]| by constructor];
    cbn [fst snd]; try done; try (cbn; lia).
  - cbn [value_ok]. by rewrite bool_decide_eq_true_2 by apply be_bytes_ok.
  - apply good_array; [apply len_ok_small; rewrite length_map; lia|].
    apply Forall_map. eapply Forall_impl; [exact Hd|]. apply entry_value_good.
Qed.

Lemma node_round_trip `{CiboriumDecodes} node : node_ok node → node_from_cbor (to_ecf_bytes node) = Some node.
Proof.
  intros Hn. destruct (node_value_good node Hn) as [Hok Hdep]. pose proof Hn as (Hm & Hl & Hd). unfold node_from_cbor, to_ecf_bytes.
  rewrite <-(app_nil_r (to_ecf _)), from_reader_ecf by (done || unfold ciborium_recursion_limit; lia).
  rewrite node_value_norm. cbn [mbind option_bind as_map node_fields].
  rewrite node_step_map by (apply length_be_bytes). cbn [mbind option_bind].
  rewrite node_step_data by done. cbn [mbind option_bind]. rewrite be_value_bytes by exact Hm.
  by destruct node.
Qed.

(** * Canonical nodes *)

Definition bindings_ok (M : bindings) : Prop := bt_ok M ∧ Forall binding_ok M.

Section canonical.
Context `{HS : Sha2} `{!Sha2Ok} `{HC : Ciborium} `{!CiboriumDecodes} (home : Z).

(** A node's entity under a supported home format. *)
Definition the_entity (node : SnapshotNodeData) : Entity :=
  match node_entity home node with Ok e => e | Err _ => mkEntity [] [] hash_zero end.

Definition node_hash (node : SnapshotNodeData) : Hash := content_hash (the_entity node).

(** What a slot with bindings [Mp] holds, when [child] is the node one level down. *)
Definition slot_of (child : bindings → SnapshotNodeData) (Mp : bindings) : option Entry :=
  if bool_decide (Mp = []) then None
  else if (length Mp <=? BUCKET_SIZE)%nat then Some (Bucket Mp)
  else Some (Link (node_hash (child Mp))).

(** The canonical node of the bindings [M] at [level], with [n] levels left below the limit. *)
Fixpoint canon (n level : nat) (M : bindings) : SnapshotNodeData :=
  match n with
  | O => empty_node
  | S n => node_of (λ p, slot_of (canon n (S level)) (part level p M))
  end.

(** No four keys share all the bits there are from [level] on. *)
Fixpoint separable (n level : nat) (M : bindings) : bool :=
  match n with
  | O => false
  | S n => forallb (λ p, if (length (part level p M) <=? BUCKET_SIZE)%nat then true
                         else separable n (S level) (part level p M)) slot_range
  end.

(** The entities of the nodes strictly below the canonical node. *)
Fixpoint below (n level : nat) (M : bindings) : list Entity :=
  match n with
  | O => []
  | S n =>
      concat (map (λ p, let Mp := part level p M in
        if (length Mp <=? BUCKET_SIZE)%nat then []
        else the_entity (canon n (S level) Mp) :: below n (S level) Mp) slot_range)
  end.

Definition slot n level M p : option Entry := slot_of (canon n (S level)) (part level p M).

Lemma canon_S n level M : canon (S n) level M = node_of (slot n level M).
Proof. done. Qed.

Hypothesis Hhome : digest_len_for_format home ≠ None.

Lemma the_entity_spec node :
  node_entity home node = Ok (the_entity node) ∧ data (the_entity node) = to_ecf_bytes node
  ∧ hash_ok (node_hash node).
Proof.
  destruct (entity_new_encoded home TYPE_TREE_SNAPSHOT_NODE
              (VMap [(text (lit "map"), VBytes (be_bytes BITMAP_BYTES (node_map node)));
                     (text (lit "data"), VArray (map entry_value (node_data node)))])) as (e & He & _ & Hd & Hh & _);
    [done..|].
  unfold node_hash, the_entity, node_entity, to_ecf_bytes. by rewrite He.
Qed.

Lemma part_bindings_ok level p M : bindings_ok M → bindings_ok (part level p M).
Proof.
  intros [Hm Hb]. split; [by apply part_ok|]. rewrite Forall_forall in Hb |- *.
  intros kv [_ Hin]%list_elem_of_filter. by apply Hb.
Qed.

Lemma bindings_ok_insert M k v : bindings_ok M → key_ok k → hash_ok v → bindings_ok (bt_insert k v M).
Proof. intros [Hm Hb] Hk Hv. split; [by apply bt_insert_ok|by apply bt_insert_Forall]. Qed.

Lemma bindings_ok_remove M k : bindings_ok M → bindings_ok (bt_remove k M).
Proof. intros [Hm Hb]. split; [by apply bt_remove_ok|by apply bt_remove_Forall]. Qed.

Lemma canon_ok n level M : bindings_ok M → node_ok (canon n level M).
Proof.
  intros HM. destruct n as [|n]; [by split_and!; cbn; try lia; constructor|].
  rewrite canon_S. split; [|split]; cbn [node_of node_map node_data].
  - set (m := bits_of _ _). assert (Hm : m = Z.land m (Z.ones 32)).
    { apply mask_ext. intros q Hq. unfold m. rewrite Z.land_spec, testbit_node_of by done.
      destruct (Z.ltb_spec q 32); [by rewrite Z.ones_spec_low, andb_true_r by lia|done]. }
    rewrite Hm, Z.land_ones by lia. apply Z.mod_pos_bound. lia.
  - rewrite length_omap_filter. etransitivity; [apply length_filter|]. done.
  - rewrite Forall_forall. intros e (p & _ & Hp)%list_elem_of_omap. unfold slot, slot_of in Hp.
    case_bool_decide; [done|]. pose proof (part_bindings_ok level p M HM) as [_ Hb].
    destruct (Nat.leb_spec (length (part level p M)) BUCKET_SIZE); injection Hp as <-; cbn; [by split|].
    apply the_entity_spec.
Qed.

Lemma canon_empty n level : canon (S n) level [] = empty_node.
Proof.
  rewrite canon_S, (node_of_ext _ (λ _, None)) by done. reflexivity.
Qed.

Lemma separable_small n level M : (length M ≤ BUCKET_SIZE)%nat → separable (S n) level M = true.
Proof.
  intros Hl. cbn. apply forallb_elem. intros p _. rewrite (proj2 (Nat.leb_le _ _)); [done|].
  etransitivity; [apply length_filter|done].
Qed.

Lemma separable_part n level M p :
  0 ≤ p < 32 → separable (S n) level M = true → (BUCKET_SIZE < length (part level p M))%nat →
  separable n (S level) (part level p M) = true.
Proof.
  intros Hp Hs Hl. cbn in Hs. rewrite forallb_elem in Hs. specialize (Hs p (proj2 (elem_of_slots p) Hp)).
  cbn in Hs. by rewrite (proj2 (Nat.leb_gt _ _)) in Hs.
Qed.
End canonical.

(** From here on the 32 slots are never computed with. *)
Opaque slot_range.

(** * Tries in a store *)

Section stored.
Context {St : Type} `{HT : ContentStore St} (wf : St → Prop) `{!ContentStoreOk St wf}.

(** The store and the entities [E] have no two entities with one hash. *)
Definition fresh_for (E : list Entity) (s : St) : Prop :=
  (∀ e, e ∈ E → agrees s e) ∧ (∀ e e', e ∈ E → e' ∈ E → content_hash e = content_hash e' → e = e').

(** The store keeps what it has and gains entities of [E] only. *)
Definition grows (E : list Entity) (s s' : St) : Prop :=
  (∀ h e, store_get h s = Some e → store_get h s' = Some e)
  ∧ (∀ h e, store_get h s' = Some e → store_get h s = Some e ∨ (e ∈ E ∧ h = content_hash e)).

Definition holds (l : list Entity) (s : St) : Prop := ∀ e, e ∈ l → store_get (content_hash e) s = Some e.

Lemma grows_refl E s : grows E s s.
Proof. split; auto. Qed.

Lemma grows_trans E s1 s2 s3 : grows E s1 s2 → grows E s2 s3 → grows E s1 s3.
Proof.
  intros [A1 B1] [A2 B2]. split; [by auto|]. intros h e Hg. destruct (B2 h e Hg) as [Hg'|?]; [by apply B1|by right].
Qed.

Lemma grows_holds E s s' l : grows E s s' → holds l s → holds l s'.
Proof. intros [Hg _] Hl e He. by apply Hg, Hl. Qed.

Lemma fresh_grows E s s' : fresh_for E s → grows E s s' → fresh_for E s'.
Proof.
  intros [Ha Hi] [_ Hg]. split; [|done]. intros e He e' Hs'. destruct (Hg _ _ Hs') as [Hs|[He' Hh]].
  - by apply (Ha e He).
  - by apply (Hi e' e).
Qed.

Lemma fresh_sub E E' s : (∀ e, e ∈ E' → e ∈ E) → fresh_for E s → fresh_for E' s.
Proof. intros Hsub [Ha Hi]. split; auto. Qed.

(** A run that succeeds with a result satisfying [Q]. *)
Definition run_to (E : list Entity) {A} (m : Trie St A) (s : St) (Q : A → St → Prop) : Prop :=
  ∃ a s', m s = Returns (Ok a) s' ∧ wf s' ∧ grows E s s' ∧ Q a s'.

Lemma run_to_pure E {A} (a : A) s (Q : A → St → Prop) : wf s → Q a s → run_to E (pure a) s Q.
Proof. intros Hw HQ. exists a, s. split_and!; [done|done|apply grows_refl|done]. Qed.

Lemma run_to_bind E {A B} (m : Trie St A) (f : A → Trie St B) s Q R :
  run_to E m s Q → (∀ a s', wf s' → grows E s s' → Q a s' → run_to E (f a) s' R) → run_to E (bind m f) s R.
Proof.
  intros (a & s1 & E1 & Hw & Hg & HQ) Hf. destruct (Hf a s1 Hw Hg HQ) as (b & s2 & E2 & Hw2 & Hg2 & HR).
  exists b, s2. unfold bind. rewrite E1. split_and!; [done|done|by eapply grows_trans|done].
Qed.

Lemma run_to_eq E {A} (m m' : Trie St A) s Q : m s = m' s → run_to E m' s Q → run_to E m s Q.
Proof. intros Em (a & s' & E1 & H). exists a, s'. by rewrite Em. Qed.

Lemma bind_panics {A B} (m : Trie St A) (f : A → Trie St B) s : m s = Panics → bind m f s = Panics.
Proof. intros E. unfold bind. by rewrite E. Qed.

Lemma bind_some {A B} (a : A) (f : A → Trie St B) s : bind (or_panic (Some a)) f s = f a s.
Proof. done. Qed.

Lemma bind_run E {A B} (m : Trie St A) (f : A → Trie St B) s Q :
  run_to E m s Q → ∃ a s', bind m f s = f a s' ∧ wf s' ∧ grows E s s' ∧ Q a s'.
Proof. intros (a & s' & E1 & ? & ? & ?). exists a, s'. unfold bind. by rewrite E1. Qed.

Context `{HS : Sha2} `{!Sha2Ok} `{HC : Ciborium} `{!CiboriumDecodes} (home : Z).
Hypothesis Hhome : digest_len_for_format home ≠ None.

Lemma store_node E node s :
  wf s → fresh_for E s → the_entity home node ∈ E →
  run_to E (store_trie_node home node) s (λ h s', h = node_hash home node ∧ holds [the_entity home node] s').
Proof.
  intros Hw [Ha Hi] He. destruct (the_entity_spec home Hhome node) as (En & _ & _).
  destruct (store_put_get s (the_entity home node) Hw (Ha _ He)) as (s' & Ep & Hw' & Hg).
  exists (node_hash home node), s'. unfold store_trie_node. rewrite En, Ep.
  split_and!; [done|done| |done|].
  - split; intros h e Hs.
    + rewrite Hg. case_decide as Hh; [|done]. f_equal. subst h. symmetry. by apply (Ha _ He).
    + rewrite Hg in Hs. case_decide as Hh; [|by left]. injection Hs as <-. by right.
  - intros e ->%list_elem_of_singleton. by rewrite Hg, decide_True.
Qed.

Lemma load_node node s :
  node_ok node → store_get (node_hash home node) s = Some (the_entity home node) →
  load_trie_node (node_hash home node) s = Some node.
Proof.
  intros Hok Hg. unfold load_trie_node. rewrite Hg. cbn [mbind option_bind].
  destruct (the_entity_spec home Hhome node) as (_ & -> & _). by apply node_round_trip.
Qed.
End stored.

(** * Insertion *)

Section structure.
Context `{HS : Sha2} `{!Sha2Ok} (home : Z).
Notation canon := (canon home).
Notation below := (below home).
Notation slot := (slot home).

Lemma separable_S n level M :
  separable (S n) level M = true ↔
  ∀ p, 0 ≤ p < 32 → (BUCKET_SIZE < length (part level p M))%nat → separable n (S level) (part level p M) = true.
Proof.
  split; [intros Hs p Hp; by apply separable_part|]. intros Hs. cbn. apply forallb_elem. intros p Hp%elem_of_slots.
  destruct (Nat.leb_spec (length (part level p M)) BUCKET_SIZE); [done|by apply Hs].
Qed.

Lemma below_S n level M e :
  e ∈ below (S n) level M ↔
  ∃ p, 0 ≤ p < 32 ∧ (BUCKET_SIZE < length (part level p M))%nat
    ∧ (e = the_entity home (canon n (S level) (part level p M)) ∨ e ∈ below n (S level) (part level p M)).
Proof.
  cbn [TrieSpec.below]. rewrite list_elem_of_In, in_concat. split.
  - intros (l & (p & <- & Hp)%in_map_iff & He). apply list_elem_of_In, elem_of_slots in Hp.
    destruct (Nat.leb_spec (length (part level p M)) BUCKET_SIZE); [done|]. exists p.
    apply list_elem_of_In, elem_of_cons in He. split_and!; [lia|lia|done|done].
  - intros (p & Hp & Hl & He). eexists. split; [apply in_map, list_elem_of_In, elem_of_slots, Hp|].
    cbn. rewrite (proj2 (Nat.leb_gt _ _)) by done. by apply list_elem_of_In, elem_of_cons.
Qed.

(** Slots other than the key's are the same after an update of the key. *)
Definition part_upd level p M M' : Prop := ∀ q, q ≠ p → part level q M' = part level q M.

Lemma part_upd_insert level p k v M : bt_ok M → slice level k = Some p → part_upd level p M (bt_insert k v M).
Proof. intros Hm Hs q Hq. rewrite (part_insert _ p) by done. by rewrite decide_False. Qed.

Lemma part_upd_remove level p k M : bt_ok M → slice level k = Some p → part_upd level p M (bt_remove k M).
Proof. intros Hm Hs q Hq. rewrite (part_remove _ p) by done. by rewrite decide_False. Qed.

Lemma canon_upd n level p M M' x :
  part_upd level p M M' → slot n level M' p = x → canon (S n) level M' = node_of (upd (slot n level M) p x).
Proof.
  intros Hu Hx. rewrite canon_S. apply node_of_ext. intros q Hq. unfold upd. case_decide as Hqp; [by subst q|].
  unfold TrieSpec.slot. by rewrite Hu.
Qed.

Lemma separable_upd n level p M M' :
  0 ≤ p < 32 → part_upd level p M M' → separable (S n) level M = true →
  separable (S n) level M'
  = (length (part level p M') <=? BUCKET_SIZE)%nat || separable n (S level) (part level p M').
Proof.
  intros Hp Hu Hs. apply eq_iff_eq_true. rewrite separable_S, orb_true_iff, Nat.leb_le. rewrite separable_S in Hs.
  split.
  - intros Hs'. destruct (decide (length (part level p M') ≤ BUCKET_SIZE)%nat); [by left|right]. apply Hs'; lia.
  - intros Hd q Hq Hl. destruct (decide (q = p)) as [->|Hqp]; [destruct Hd; [lia|done]|].
    rewrite Hu in Hl |- * by done. by apply Hs.
Qed.

Context {St : Type} `{HT : ContentStore St}.

Lemma holds_below n level M (s : St) p :
  holds (below (S n) level M) s → 0 ≤ p < 32 → (BUCKET_SIZE < length (part level p M))%nat →
  store_get (node_hash home (canon n (S level) (part level p M))) s
    = Some (the_entity home (canon n (S level) (part level p M)))
  ∧ holds (below n (S level) (part level p M)) s.
Proof.
  intros Hh Hp Hl. split; [apply Hh, below_S|intros e He; apply Hh, below_S]; exists p; auto.
Qed.

(** What stays stored when one slot changes. *)
Lemma holds_upd n level p M M' (s : St) :
  part_upd level p M M' → holds (below (S n) level M) s →
  ((BUCKET_SIZE < length (part level p M'))%nat →
     holds (the_entity home (canon n (S level) (part level p M')) :: below n (S level) (part level p M')) s) →
  holds (below (S n) level M') s.
Proof.
  intros Hu Hh Hp e (q & Hq & Hl & He)%below_S. destruct (decide (q = p)) as [->|Hqp].
  - apply (Hp Hl). by apply elem_of_cons.
  - rewrite Hu in Hl, He by done. apply Hh, below_S. by exists q.
Qed.

Lemma below_child n level M p e :
  0 ≤ p < 32 → (BUCKET_SIZE < length (part level p M))%nat →
  e = the_entity home (canon n (S level) (part level p M)) ∨ e ∈ below n (S level) (part level p M) →
  e ∈ below (S n) level M.
Proof. intros. apply below_S. by exists p. Qed.

Lemma below_small n level M : (length M ≤ BUCKET_SIZE)%nat → below (S n) level M = [].
Proof.
  intros Hl. apply elem_of_nil_inv. intros e (p & _ & Hp & _)%below_S.
  assert (length (part level p M) ≤ length M)%nat by (apply length_filter). lia.
Qed.

(** The last step of an update of the entry in slot [p]. *)
Lemma set_entry {B} n level p M M' e0 e (f : list Entry → Trie St B) s :
  0 ≤ p < 32 → part_upd level p M M' → slot n level M p = Some e0 → slot n level M' p = Some e →
  bind (or_panic (vec_set (rank (slot n level M) p) e (node_data (canon (S n) level M)))) f s
    = f (node_data (canon (S n) level M')) s
  ∧ node_map (canon (S n) level M) = node_map (canon (S n) level M').
Proof.
  intros Hp Hu E0 E. rewrite (canon_upd n level p M M' (Some e) Hu E). cbn [canon_S node_of node_data node_map].
  rewrite canon_S. cbn [node_of node_data node_map]. rewrite (dense_set _ p Hp e0) by done.
  split; [done|]. by apply bits_same with e0.
Qed.
End structure.

Section put.
Context {St : Type} `{HT : ContentStore St} (wf : St → Prop) `{!ContentStoreOk St wf}.
Context `{HS : Sha2} `{!Sha2Ok} `{HC : Ciborium} `{!CiboriumDecodes} (home : Z).
Hypothesis Hhome : digest_len_for_format home ≠ None.
Notation canon := (canon home).
Notation below := (below home).
Notation slot := (slot home).

Lemma slot_none n level M p : part level p M = [] → slot n level M p = None.
Proof. intros Hp. unfold TrieSpec.slot, slot_of. by rewrite Hp. Qed.

Lemma slot_bucket n level M p :
  part level p M ≠ [] → (length (part level p M) ≤ BUCKET_SIZE)%nat →
  slot n level M p = Some (Bucket (part level p M)).
Proof.
  intros Hne Hl. unfold TrieSpec.slot, slot_of. rewrite bool_decide_eq_false_2 by done.
  by rewrite (proj2 (Nat.leb_le _ _)).
Qed.

Lemma slot_link n level M p :
  (BUCKET_SIZE < length (part level p M))%nat →
  slot n level M p = Some (Link (node_hash home (canon n (S level) (part level p M)))).
Proof.
  intros Hl. unfold TrieSpec.slot, slot_of. rewrite bool_decide_eq_false_2 by (intros E; rewrite E in Hl; cbn in Hl; lia).
  by rewrite (proj2 (Nat.leb_gt _ _)).
Qed.

Definition put_spec (n : nat) : Prop := ∀ level M k v s E,
  (level + n)%nat = MAX_LEVELS → bindings_ok M → key_ok k → hash_ok v → wf s →
  n = 0%nat ∨ separable n level M = true → holds (below n level M) s →
  (∀ e, e ∈ below n level (bt_insert k v M) → e ∈ E) → fresh_for E s →
  if separable n level (bt_insert k v M)
  then run_to wf E (put_at_node home (S n) (canon n level M) (key_hash k) level k v) s
         (λ nd s', nd = canon n level (bt_insert k v M) ∧ holds (below n level (bt_insert k v M)) s')
  else put_at_node home (S n) (canon n level M) (key_hash k) level k v s = Panics.

Lemma bt_ok_app_l (a b : bindings) : bt_ok (a ++ b) → bt_ok a.
Proof.
  induction a as [|[k v] a IH]; intros Hm; [constructor|]. cbn in Hm. apply bt_ok_cons in Hm as [Hall Hm].
  apply bt_ok_cons. split; [by apply Forall_app in Hall as [? _]|by apply IH].
Qed.

(** Three bindings at most go into an empty sub-node without storing anything. *)
Lemma put_few n level l : put_spec (S n) → (level + S n)%nat = MAX_LEVELS → ∀ acc s E,
  bindings_ok (acc ++ l) → (length (acc ++ l) ≤ BUCKET_SIZE)%nat → wf s → fresh_for E s →
  run_to wf E (fold_trie (λ sub kv, put_at_node home (S (S n)) sub (key_hash kv.1) level kv.1 kv.2)
                 (canon (S n) level acc) l) s
    (λ nd s', nd = canon (S n) level (acc ++ l)).
Proof.
  intros Hput Hlev. induction l as [|[k v] l IH]; intros acc s E [Hm Hb] Hl Hw Hf.
  - rewrite app_nil_r. by apply run_to_pure.
  - cbn [fold_trie fst snd]. rewrite (cons_middle (k, v) acc l), app_assoc in *.
    assert (Hacc : bindings_ok acc).
    { split; [by do 2 apply bt_ok_app_l in Hm|]. by apply Forall_app in Hb as [[? _]%Forall_app _]. }
    assert (Hins : bt_insert k v acc = acc ++ [(k, v)]).
    { apply (bt_fold_insert [(k, v)] acc). by apply bt_ok_app_l in Hm. }
    assert (Hkv : binding_ok (k, v)).
    { apply Forall_app in Hb as [[_ Hb]%Forall_app _]. by apply Forall_cons in Hb as [? _]. }
    rewrite !length_app in Hl. cbn in Hl.
    assert (Hs : separable (S n) level (bt_insert k v acc) = true).
    { rewrite Hins. apply separable_small. rewrite length_app. cbn. lia. }
    pose proof (Hput level acc k v s E) as Hp. rewrite Hs in Hp.
    eapply run_to_bind; [apply Hp|].
    + done.
    + done.
    + apply Hkv.
    + apply Hkv.
    + done.
    + right. apply separable_small. lia.
    + rewrite below_small by lia. intros e He. by apply elem_of_nil in He.
    + rewrite Hins, below_small by (rewrite length_app; cbn; lia). intros e He. by apply elem_of_nil in He.
    + done.
    + cbn. intros nd s' Hw' Hg [-> _]. rewrite Hins. apply IH; [by split|rewrite !length_app; cbn; lia|done|].
      by eapply fresh_grows.
Qed.

(** At level 52 there is no bit left. *)
Lemma put_spec_O : put_spec 0.
Proof.
  intros level M k v s E Hl _ _ _ _ _ _ _ _. cbn [separable put_at_node].
  pose proof (slice_undefined level k ltac:(lia)) as Hs. unfold slice in Hs. by rewrite Hs.
Qed.

(** A full bucket becomes a sub-node with one binding more. *)
Lemma put_overflow n level p M k v s E :
  put_spec n → (level + S n)%nat = MAX_LEVELS → bindings_ok M → key_ok k → hash_ok v → wf s → fresh_for E s →
  length M = BUCKET_SIZE → length (bt_insert k v M) = S BUCKET_SIZE →
  (∀ e, e = the_entity home (canon n (S level) (bt_insert k v M)) ∨ e ∈ below n (S level) (bt_insert k v M) → e ∈ E) →
  p = key_hash k →
  let m := bind (fold_trie (λ sub kv, put_at_node home (S n) sub (key_hash kv.1) (S level) kv.1 kv.2) empty_node M)
             (λ sub, bind (put_at_node home (S n) sub p (S level) k v) (store_trie_node home)) in
  if separable n (S level) (bt_insert k v M)
  then run_to wf E m s (λ h s', h = node_hash home (canon n (S level) (bt_insert k v M))
         ∧ holds (the_entity home (canon n (S level) (bt_insert k v M)) :: below n (S level) (bt_insert k v M)) s')
  else m s = Panics.
Proof.
  intros Hput Hlev HM Hk Hv Hw Hf Hl Hl' HE -> m. destruct n as [|n].
  - cbn [separable]. unfold m. destruct M as [|kv M]; [done|]. cbn [fold_trie].
    apply bind_panics, bind_panics. cbn [put_at_node].
    pose proof (slice_undefined (S level) kv.1 ltac:(lia)) as Hs. unfold slice in Hs. by rewrite Hs.
  - assert (Hlev' : (S level + S n)%nat = MAX_LEVELS) by lia.
    destruct (bind_run wf E _ (λ sub, bind (put_at_node home (S (S n)) sub (key_hash k) (S level) k v) (store_trie_node home))
                s _ (put_few n (S level) M Hput Hlev' [] s E HM ltac:(cbn; lia) Hw Hf)) as (nd & s1 & Em & Hw1 & Hg1 & ->).
    cbn [app] in *. rewrite canon_empty in Em.
    pose proof (Hput (S level) M k v s1 E Hlev' HM Hk Hv Hw1 (or_intror (separable_small n _ M ltac:(lia)))) as Hp.
    rewrite below_small in Hp by lia.
    specialize (Hp ltac:(intros e He; by apply elem_of_nil in He) ltac:(auto) ltac:(by eapply fresh_grows)).
    destruct (separable (S n) (S level) (bt_insert k v M)).
    + destruct (run_to_bind wf E _ (store_trie_node home) s1 _
        (λ h s', h = node_hash home (canon (S n) (S level) (bt_insert k v M))
         ∧ holds (the_entity home (canon (S n) (S level) (bt_insert k v M)) :: below (S n) (S level) (bt_insert k v M)) s')
        Hp) as (h & s3 & E3 & Hw3 & Hg3 & HQ).
      * intros nd s2 Hw2 Hg2 [-> Hh2].
        destruct (store_node wf home Hhome E (canon (S n) (S level) (bt_insert k v M)) s2 Hw2) as (h & s3 & E3 & Hw3 & Hg3 & -> & Hh3).
        { eapply fresh_grows, Hg2. by eapply fresh_grows. }
        { by auto. }
        exists (node_hash home (canon (S n) (S level) (bt_insert k v M))), s3. split_and!; [done|done|done|done|].
        intros e [->|He]%elem_of_cons; [by apply Hh3, list_elem_of_singleton|]. by eapply grows_holds.
      * exists h, s3. unfold m. rewrite Em. split_and!; [done|done|by eapply grows_trans|apply HQ|apply HQ].
    + unfold m. rewrite Em. by apply bind_panics.
Qed.

Lemma bind_ext {A B} (m : Trie St A) (f g : A → Trie St B) s :
  (∀ a s', f a s' = g a s') → bind m f s = bind m g s.
Proof. intros Hfg. unfold bind. by destruct (m s) as [[a|e] s'| |]. Qed.

Lemma bind_assoc2 {A B C D} (m : Trie St A) (f : A → Trie St B) (g : B → Trie St C) (h : C → Trie St D) s :
  bind (bind m (λ a, bind (f a) g)) h s = bind m (λ a, bind (f a) (λ b, bind (g b) h)) s.
Proof. unfold bind. destruct (m s) as [[a|e] s'| |]; try done. by destruct (f a s') as [[b|e] s2| |]. Qed.

Lemma bind_assoc {A B C} (m : Trie St A) (f : A → Trie St B) (g : B → Trie St C) s :
  bind (bind m f) g s = bind m (λ a, bind (f a) g) s.
Proof. unfold bind. by destruct (m s) as [[a|e] s'| |]. Qed.

(** [data[idx] = e], on a node given by its slots. *)
Definition set_slot (f : Z → option Entry) p (e : Entry) : Trie St SnapshotNodeData :=
  new_data <-- or_panic (vec_set (rank f p) e (omap f slot_range));; pure (mkNode (bits_of f slot_range) new_data).

Section put_equations.
Context (fuel level : nat) (f : Z → option Entry) (p : Z) (k : list Z) (v : Hash) (s : St).
Hypothesis Hs : slice level k = Some p.
Hypothesis Hp : 0 ≤ p < 32.
Notation put := (put_at_node home (S fuel) (node_of f) (key_hash k) level k v s).

Lemma put_empty : f p = None → put = pure (node_of (upd f p (Some (Bucket [(k, v)])))) s.
Proof.
  intros E0. unfold slice in Hs. cbn [put_at_node]. rewrite Hs, bind_some. cbn [node_of node_map node_data].
  rewrite position_node_of, E0 by done. cbn [is_some negb].
  rewrite (dense_insert _ p Hp), bind_some, (bits_add _ p Hp (Bucket [(k, v)])) by done. reflexivity.
Qed.

Lemma put_bucket_found b pos :
  f p = Some (Bucket b) → tuple_position k b = Some pos → put = set_slot f p (Bucket (set_value pos v b)) s.
Proof.
  intros E0 Epos. unfold slice in Hs. cbn [put_at_node]. rewrite Hs, bind_some. cbn [node_of node_map node_data].
  rewrite position_node_of, E0 by done. cbn [is_some negb].
  by rewrite (dense_lookup _ p Hp _ E0), bind_some, Epos.
Qed.

Lemma put_bucket_room b :
  f p = Some (Bucket b) → tuple_position k b = None → (length b < BUCKET_SIZE)%nat →
  put = set_slot f p (Bucket (sort_by by_key (b ++ [(k, v)]))) s.
Proof.
  intros E0 Epos Hl%Nat.ltb_lt. unfold slice in Hs. cbn [put_at_node]. rewrite Hs, bind_some.
  cbn [node_of node_map node_data]. rewrite position_node_of, E0 by done. cbn [is_some negb].
  by rewrite (dense_lookup _ p Hp _ E0), bind_some, Epos, Hl.
Qed.

Lemma put_bucket_full b :
  f p = Some (Bucket b) → tuple_position k b = None → (BUCKET_SIZE ≤ length b)%nat →
  put = bind (bind (fold_trie (λ sub kv, put_at_node home fuel sub (key_hash kv.1) (S level) kv.1 kv.2) empty_node b)
                (λ sub, bind (put_at_node home fuel sub (key_hash k) (S level) k v) (store_trie_node home)))
          (λ h, set_slot f p (Link h)) s.
Proof.
  intros E0 Epos Hl%Nat.ltb_ge. rewrite bind_assoc2. unfold slice in Hs. cbn [put_at_node]. rewrite Hs, bind_some.
  cbn [node_of node_map node_data]. rewrite position_node_of, E0 by done. cbn [is_some negb].
  by rewrite (dense_lookup _ p Hp _ E0), bind_some, Epos, Hl.
Qed.

Lemma put_link h :
  f p = Some (Link h) →
  put = bind (load_sub h) (λ sub, bind (bind (put_at_node home fuel sub (key_hash k) (S level) k v)
                                          (store_trie_node home)) (λ h, set_slot f p (Link h))) s.
Proof.
  intros E0. unfold slice in Hs. cbn [put_at_node]. rewrite Hs, bind_some.
  cbn [node_of node_map node_data]. rewrite position_node_of, E0 by done. cbn [is_some negb].
  rewrite (dense_lookup _ p Hp _ E0), bind_some. apply bind_ext. intros sub s'. by rewrite bind_assoc.
Qed.
End put_equations.

(** Storing the new sub-node and linking it. *)
Lemma link_step n level p M M' e0 h s (E : list Entity) :
  0 ≤ p < 32 → part_upd level p M M' → slot n level M p = Some e0 →
  (BUCKET_SIZE < length (part level p M'))%nat →
  h = node_hash home (canon n (S level) (part level p M')) → wf s →
  holds (below (S n) level M) s →
  holds (the_entity home (canon n (S level) (part level p M')) :: below n (S level) (part level p M')) s →
  run_to wf E (set_slot (slot n level M) p (Link h)) s
    (λ nd s', nd = canon (S n) level M' ∧ holds (below (S n) level M') s').
Proof.
  intros Hp Hu E0 Hl -> Hw Hh Hh'.
  pose proof (canon_upd home n level p M M' _ Hu (slot_link n level M' p Hl)) as Ec.
  exists (canon (S n) level M'), s. split_and!; [|done|apply grows_refl|done|].
  - unfold set_slot. rewrite (dense_set _ p Hp e0) by done. rewrite bind_some, Ec, (bits_same _ p e0 (Link (node_hash home (canon n (S level) (part level p M'))))) by done.
    reflexivity.
  - eapply holds_upd; [done|done|by intros _].
Qed.

(** Replacing a bucket by a bucket. *)
Lemma bucket_step n level p M M' e0 b s (E : list Entity) :
  0 ≤ p < 32 → part_upd level p M M' → slot n level M p = Some e0 →
  part level p M' ≠ [] → (length (part level p M') ≤ BUCKET_SIZE)%nat →
  b = part level p M' → wf s → holds (below (S n) level M) s →
  run_to wf E (set_slot (slot n level M) p (Bucket b)) s
    (λ nd s', nd = canon (S n) level M' ∧ holds (below (S n) level M') s').
Proof.
  intros Hp Hu E0 Hne Hl -> Hw Hh.
  pose proof (canon_upd home n level p M M' _ Hu (slot_bucket n level M' p Hne Hl)) as Ec.
  exists (canon (S n) level M'), s. split_and!; [|done|apply grows_refl|done|].
  - unfold set_slot. rewrite (dense_set _ p Hp e0) by done. rewrite bind_some, Ec, (bits_same _ p e0 (Bucket (part level p M'))) by done.
    reflexivity.
  - eapply holds_upd; [done|done|]. lia.
Qed.

Lemma bt_insert_ne {V} (k : list Z) (v : V) m : bt_insert k v m ≠ [].
Proof. destruct m as [|[k' v'] m]; [done|]. cbn [bt_insert]. by destruct (cmp k k'). Qed.

Section put_step.
Context (n level : nat) (p : Z) (M : bindings) (k : list Z) (v : Hash) (s : St) (E : list Entity).
Hypothesis Hput : put_spec n.
Hypothesis Hlev : (level + S n)%nat = MAX_LEVELS.
Hypothesis HM : bindings_ok M.
Hypothesis Hk : key_ok k.
Hypothesis Hv : hash_ok v.
Hypothesis Hw : wf s.
Hypothesis Hsep : separable (S n) level M = true.
Hypothesis Hh : holds (below (S n) level M) s.
Hypothesis HE : ∀ e, e ∈ below (S n) level (bt_insert k v M) → e ∈ E.
Hypothesis Hf : fresh_for E s.
Hypothesis Hs : slice level k = Some p.
Hypothesis Hp : 0 ≤ p < 32.
Notation M' := (bt_insert k v M).
Notation put := (put_at_node home (S (S n)) (node_of (slot n level M)) (key_hash k) level k v).
Notation ends_well m :=
  (run_to wf E m s (λ nd s', nd = canon (S n) level M' ∧ holds (below (S n) level M') s')).

Lemma step_upd : part_upd level p M M'.
Proof. apply part_upd_insert; [apply HM|done]. Qed.

Lemma step_part : part level p M' = bt_insert k v (part level p M).
Proof. rewrite (part_insert _ p) by (apply HM || done). by rewrite decide_True. Qed.

Lemma step_part_ok : bindings_ok (part level p M).
Proof. by apply part_bindings_ok. Qed.

Lemma step_length : length (part level p M')
  = if bt_get k (part level p M) then length (part level p M) else S (length (part level p M)).
Proof. rewrite step_part. apply length_bt_insert, step_part_ok. Qed.

Lemma step_ne : part level p M' ≠ [].
Proof. rewrite step_part. apply bt_insert_ne. Qed.

Lemma put_step_empty : part level p M = [] → ends_well put.
Proof.
  intros Hn. pose proof step_part as Hpt. rewrite Hn in Hpt. cbn [bt_insert] in Hpt.
  assert (Hl : (length (part level p M') ≤ BUCKET_SIZE)%nat) by (rewrite Hpt; cbn; unfold BUCKET_SIZE; lia).
  eapply run_to_eq; [apply (put_empty _ _ _ p); [done|done|by apply slot_none]|].
  rewrite <-(canon_upd home n level p M M' (Some (Bucket [(k, v)])) step_upd).
  - apply run_to_pure; [done|]. split; [done|]. eapply holds_upd; [apply step_upd|done|lia].
  - rewrite slot_bucket, Hpt; [done|by rewrite Hpt|done].
Qed.

Lemma put_step_small b :
  part level p M ≠ [] → (length (part level p M) ≤ BUCKET_SIZE)%nat → b = part level p M' →
  (length (part level p M') ≤ BUCKET_SIZE)%nat →
  put s = set_slot (slot n level M) p (Bucket b) s → ends_well put.
Proof.
  intros Hne Hl -> Hl' Eq. eapply run_to_eq; [exact Eq|].
  eapply (bucket_step n level p M M' (Bucket (part level p M)));
    [done|apply step_upd|by apply slot_bucket|apply step_ne|done|done|done|done].
Qed.

Lemma put_step_bucket :
  part level p M ≠ [] → (length (part level p M) ≤ BUCKET_SIZE)%nat →
  (length (part level p M') ≤ BUCKET_SIZE)%nat → ends_well put.
Proof.
  intros Hne Hl Hl'. pose proof (slot_bucket n level M p Hne Hl) as E0. pose proof step_part_ok as [Hmp _].
  destruct (tuple_position k (part level p M)) as [pos|] eqn:Epos.
  - destruct (tuple_position_Some k _ pos v Hmp Epos) as (Eset & _ & _).
    eapply put_step_small; [done|done| |done|by eapply put_bucket_found]. by rewrite step_part.
  - pose proof Epos as Eget. apply tuple_position_None in Eget; [|done].
    pose proof step_length as Hlen. rewrite Eget in Hlen.
    eapply put_step_small; [done|done| |done|apply put_bucket_room; [done|done|done|done|lia]].
    rewrite step_part. apply sort_by_key_map; [by apply bt_insert_ok|].
    by rewrite (bt_insert_perm _ _ _ Hmp Eget), Permutation_app_comm.
Qed.

(** The child a grown slot gets. *)
Notation child := (canon n (S level) (part level p M')).
Notation child_stored := (λ h s', h = node_hash home child ∧ holds (the_entity home child :: below n (S level) (part level p M')) s').

Lemma link_after (m : Trie St Hash) e0 :
  slot n level M p = Some e0 → (BUCKET_SIZE < length (part level p M'))%nat →
  run_to wf E m s child_stored →
  ends_well (bind m (λ h, set_slot (slot n level M) p (Link h))).
Proof.
  intros E0 Hl Hm. eapply run_to_bind; [exact Hm|]. intros h s' Hw' Hg [-> Hh'].
  eapply link_step; [done|apply step_upd|exact E0|done|done|done| |done]. by eapply grows_holds.
Qed.

Lemma put_step_overflow :
  part level p M ≠ [] → (length (part level p M) ≤ BUCKET_SIZE)%nat →
  (BUCKET_SIZE < length (part level p M'))%nat →
  if separable n (S level) (part level p M') then ends_well put else put s = Panics.
Proof.
  intros Hne Hl Hl'. pose proof (slot_bucket n level M p Hne Hl) as E0. pose proof step_part_ok as HMp.
  pose proof step_length as Hlen. destruct (bt_get k (part level p M)) eqn:Eget; [lia|].
  pose proof (put_bucket_full (S n) level _ p k v s Hs Hp _ E0
    (proj2 (tuple_position_None k _ (proj1 HMp)) Eget) ltac:(lia)) as Eq.
  pose proof (put_overflow n level _ (part level p M) k v s E Hput Hlev HMp Hk Hv Hw Hf ltac:(lia)
    ltac:(rewrite <-step_part; lia)
    ltac:(intros e He; apply HE; eapply (below_child home n level M' p); [done|lia|by rewrite step_part]) eq_refl) as Ho.
  cbn zeta in Ho. rewrite <-step_part in Ho. destruct (separable n (S level) (part level p M')).
  - eapply run_to_eq; [exact Eq|]. by eapply (link_after).
  - rewrite Eq. by apply bind_panics.
Qed.

Lemma put_step_link :
  (BUCKET_SIZE < length (part level p M))%nat →
  if separable n (S level) (part level p M') then ends_well put else put s = Panics.
Proof.
  intros Hl. pose proof (slot_link n level M p Hl) as E0. pose proof step_part_ok as HMp.
  assert (Hl' : (BUCKET_SIZE < length (part level p M'))%nat).
  { rewrite step_length. destruct (bt_get k _); lia. }
  destruct (holds_below home n level M s p Hh Hp Hl) as [Hget Hhp].
  pose proof (put_link (S n) level _ p k v s Hs Hp _ E0) as Eq.
  assert (Eload : load_sub (node_hash home (canon n (S level) (part level p M))) s
                  = Returns (Ok (canon n (S level) (part level p M))) s).
  { unfold load_sub. by rewrite (load_node home Hhome _ s (canon_ok home Hhome n (S level) _ HMp) Hget). }
  unfold bind at 1 in Eq. rewrite Eload in Eq.
  pose proof (Hput (S level) (part level p M) k v s E ltac:(lia) HMp Hk Hv Hw
    (or_intror (separable_part n level M p Hp Hsep Hl)) Hhp) as Hq.
  rewrite <-step_part in Hq.
  specialize (Hq ltac:(intros e He; apply HE, (below_child home n level M' p); auto) Hf).
  destruct (separable n (S level) (part level p M')).
  - eapply run_to_eq; [exact Eq|]. eapply (link_after); [done|done|].
    eapply run_to_bind; [exact Hq|]. intros nd s1 Hw1 Hg1 [-> Hh1].
    destruct (store_node wf home Hhome E child s1 Hw1) as (h & s2 & E2 & Hw2 & Hg2 & -> & Hh2).
    { by eapply fresh_grows. }
    { apply HE, (below_child home n level M' p); auto. }
    eexists _, s2. split_and!; [done|done|done|done|].
    intros e [->|He]%elem_of_cons; [by apply Hh2, list_elem_of_singleton|]. by eapply grows_holds.
  - rewrite Eq. by apply bind_panics, bind_panics.
Qed.
End put_step.

Lemma put_spec_S n : put_spec n → put_spec (S n).
Proof.
  intros Hput level M k v s E Hlev HM Hk Hv Hw Hsep Hh HE Hf. destruct Hsep as [?|Hsep]; [done|].
  destruct (slice_defined level k) as (p & Hs & Hp); [lia|].
  assert (Hu : part_upd level p M (bt_insert k v M)) by (apply part_upd_insert; [apply HM|done]).
  rewrite (separable_upd n level p M _ Hp Hu Hsep), canon_S.
  destruct (Nat.leb_spec (length (part level p (bt_insert k v M))) BUCKET_SIZE) as [Hl'|Hl']; cbn [orb].
  - assert (Hl : (length (part level p M) ≤ BUCKET_SIZE)%nat).
    { rewrite (step_length level p M k v HM Hs) in Hl'. destruct (bt_get k _); lia. }
    destruct (decide (part level p M = [])); [by eapply put_step_empty|by eapply put_step_bucket].
  - destruct (decide (length (part level p M) ≤ BUCKET_SIZE)%nat) as [Hl|Hl].
    + assert (part level p M ≠ []).
      { intros Hn. rewrite (step_length level p M k v HM Hs), Hn in Hl'. cbn in Hl'. unfold BUCKET_SIZE in Hl'. lia. }
      by eapply put_step_overflow.
    + eapply put_step_link; try done. lia.
Qed.

Lemma put_canon n : put_spec n.
Proof. induction n; [apply put_spec_O|by apply put_spec_S]. Qed.
End put.

(** * Walking a canonical trie *)

Section walks.
Context {St : Type} `{HT : ContentStore St} (wf : St → Prop) `{!ContentStoreOk St wf}.
Context `{HS : Sha2} `{!Sha2Ok} `{HC : Ciborium} `{!CiboriumDecodes} (home : Z).
Hypothesis Hhome : digest_len_for_format home ≠ None.
Notation canon := (canon home).
Notation below := (below home).
Notation slot := (slot home).

(** The bindings in the order of the slots. *)
Fixpoint flat (n level : nat) (M : bindings) : bindings :=
  match n with
  | O => []
  | S n =>
      concat (map (λ p, let Mp := part level p M in
        if (length Mp <=? BUCKET_SIZE)%nat then Mp else flat n (S level) Mp) slot_range)
  end.

Lemma concat_perm {A} (f g : Z → list A) l : (∀ p, p ∈ l → f p ≡ₚ g p) → concat (map f l) ≡ₚ concat (map g l).
Proof.
  induction l as [|p l IH]; intros Hfg; [done|]. cbn. rewrite (Hfg p) by (by left).
  by rewrite IH by (intros q Hq; apply Hfg; by right).
Qed.

Lemma flat_perm n : ∀ level M, (level + n)%nat = MAX_LEVELS → separable n level M = true → flat n level M ≡ₚ M.
Proof.
  induction n as [|n IH]; intros level M Hlev Hsep; [done|]. cbn [flat].
  etrans; [|symmetry; apply (parts_perm level M); lia]. apply concat_perm. intros p Hp%elem_of_slots.
  destruct (Nat.leb_spec (length (part level p M)) BUCKET_SIZE); [done|]. apply IH; [lia|].
  by apply (separable_part n level M p).
Qed.

Lemma fold_slots {B} (F : B → Entry → Trie St B) (g : B → Z → B) (f : Z → option Entry) s l : ∀ acc,
  (∀ b p, p ∈ l → match f p with Some e => F b e s = Returns (Ok (g b p)) s | None => g b p = b end) →
  fold_trie F acc (omap f l) s = Returns (Ok (foldl g acc l)) s.
Proof.
  induction l as [|p l IH]; intros acc Hl; [done|]. pose proof (Hl acc p ltac:(by left)) as Hp. cbn.
  destruct (f p) as [e|].
  - cbn [fold_trie]. unfold bind. rewrite Hp. apply IH. intros b q Hq. apply Hl. by right.
  - rewrite Hp. apply IH. intros b q Hq. apply Hl. by right.
Qed.

Lemma foldl_count {A} (h : Z → list A) l : ∀ acc, foldl (λ b p, (b + length (h p))%nat) acc l = (acc + length (concat (map h l)))%nat.
Proof. induction l as [|p l IH]; intros acc; cbn; [lia|]. rewrite IH, length_app. lia. Qed.

Lemma foldl_append {A} (h : Z → list A) l : ∀ acc, foldl (λ b p, b ++ h p) acc l = acc ++ concat (map h l).
Proof. induction l as [|p l IH]; intros acc; cbn; [by rewrite app_nil_r|]. by rewrite IH, (assoc_L (++)). Qed.

(** What the slot of a canonical, stored node gives to a walk. *)
Lemma slot_cases n level M p s :
  (level + S n)%nat = MAX_LEVELS → bindings_ok M → separable (S n) level M = true →
  holds (below (S n) level M) s → 0 ≤ p < 32 →
  (part level p M = [] ∧ slot n level M p = None)
  ∨ (part level p M ≠ [] ∧ (length (part level p M) ≤ BUCKET_SIZE)%nat ∧ slot n level M p = Some (Bucket (part level p M)))
  ∨ (∃ h, (BUCKET_SIZE < length (part level p M))%nat ∧ slot n level M p = Some (Link h)
      ∧ h = node_hash home (canon n (S level) (part level p M))
      ∧ load_trie_node h s = Some (canon n (S level) (part level p M))
      ∧ separable n (S level) (part level p M) = true ∧ holds (below n (S level) (part level p M)) s).
Proof.
  intros Hlev HM Hsep Hh Hp. destruct (decide (part level p M = [])) as [Hn|Hne]; [left; split; [done|by apply slot_none]|].
  right. destruct (decide (length (part level p M) ≤ BUCKET_SIZE)%nat) as [Hl|Hl].
  - left. split_and!; [done|done|by apply slot_bucket].
  - right. eexists. destruct (holds_below home n level M s p Hh Hp ltac:(lia)) as [Hg Hb].
    split_and!; [lia|apply slot_link; lia|done| |apply (separable_part n level M p); [done|done|lia]|done].
    apply (load_node home Hhome); [|done]. by apply canon_ok, part_bindings_ok.
Qed.

Lemma canon_data n level M : node_data (canon (S n) level M) = omap (slot n level M) slot_range.
Proof. done. Qed.

Lemma count_canon n : ∀ level M s fuel,
  (level + n)%nat = MAX_LEVELS → (n < fuel)%nat → bindings_ok M → separable n level M = true →
  holds (below n level M) s → count_entries fuel (canon n level M) s = Returns (Ok (length M)) s.
Proof.
  induction n as [|n IH]; intros level M s fuel Hlev Hf HM Hsep Hh; [done|].
  destruct fuel as [|fuel]; [lia|]. cbn [count_entries]. rewrite canon_data.
  rewrite (fold_slots _ (λ b p, (b + length (part level p M))%nat)).
  - rewrite foldl_count, <-(parts_perm level M) by lia. done.
  - intros b p Hp%elem_of_slots.
    destruct (slot_cases n level M p s Hlev HM Hsep Hh Hp) as [[En ->]|[(_ & _ & ->)|(h & _ & -> & _ & El & Hs & Hb)]].
    + rewrite En. cbn. lia.
    + done.
    + unfold bind, load_sub. rewrite El. cbn [ok_or].
      by rewrite (IH (S level)) by (done || lia || by apply part_bindings_ok).
Qed.

Lemma flatten_canon n : ∀ level M s fuel out,
  (level + n)%nat = MAX_LEVELS → (n < fuel)%nat → bindings_ok M → separable n level M = true →
  holds (below n level M) s →
  flatten_entries_into fuel (canon n level M) out s = Returns (Ok (out ++ flat n level M)) s.
Proof.
  induction n as [|n IH]; intros level M s fuel out Hlev Hf HM Hsep Hh; [done|].
  destruct fuel as [|fuel]; [lia|]. cbn [flatten_entries_into flat]. rewrite canon_data.
  rewrite (fold_slots _ (λ b p, b ++ (if (length (part level p M) <=? BUCKET_SIZE)%nat then part level p M
                                      else flat n (S level) (part level p M)))); [by rewrite foldl_append|].
  intros b p Hp%elem_of_slots.
  destruct (slot_cases n level M p s Hlev HM Hsep Hh Hp) as [[En ->]|[(_ & Hl & ->)|(h & Hl & -> & _ & El & Hs & Hb)]].
  - rewrite En. cbn. by rewrite app_nil_r.
  - by rewrite (proj2 (Nat.leb_le _ _) Hl).
  - rewrite (proj2 (Nat.leb_gt _ _) Hl). unfold bind, load_sub. rewrite El. cbn [ok_or].
    apply IH; [lia|lia|by apply part_bindings_ok|done|done].
Qed.
End walks.

(** * Removal *)

Section remove.
Context {St : Type} `{HT : ContentStore St} (wf : St → Prop) `{!ContentStoreOk St wf}.
Context `{HS : Sha2} `{!Sha2Ok} `{HC : Ciborium} `{!CiboriumDecodes} (home : Z).
Hypothesis Hhome : digest_len_for_format home ≠ None.
Notation canon := (canon home).
Notation below := (below home).
Notation slot := (slot home).

Lemma length_remove_le (M : bindings) k : (length (bt_remove k M) ≤ length M)%nat.
Proof.
  induction M as [|[k' v'] M IH]; [done|]. cbn [bt_remove]. destruct (cmp k k'); cbn [length]; lia.
Qed.

Lemma separable_remove n : ∀ level M k,
  (level + n)%nat = MAX_LEVELS → bt_ok M → separable n level M = true → separable n level (bt_remove k M) = true.
Proof.
  induction n as [|n IH]; intros level M k Hlev Hm Hsep; [done|].
  destruct (slice_defined level k) as (p & Hs & Hp); [lia|].
  rewrite (separable_upd n level p M) by (done || by apply part_upd_remove).
  destruct (Nat.leb_spec (length (part level p (bt_remove k M))) BUCKET_SIZE) as [|Hl]; [done|cbn].
  rewrite (part_remove _ p), decide_True in Hl |- * by done.
  apply IH; [lia|by apply part_ok|]. apply (separable_part n level M p Hp Hsep).
  pose proof (length_remove_le (part level p M) k). lia.
Qed.

(** What removing [k] from the canonical node of [M] answers. *)
Definition removed (n level : nat) (M : bindings) (k : list Z) (is_root : bool) (o : RemoveOutcome) (s' : St) : Prop :=
  let M' := bt_remove k M in
  holds (below n level M') s' ∧
  match bt_get k M with
  | None => o = Unchanged
  | Some _ =>
      if is_root || (BUCKET_SIZE <? length M')%nat then o = Modified (canon n level M')
      else ∃ l, o = Inline l ∧ l ≡ₚ M'
  end.

Lemma settle_canon n level M is_root s (E : list Entity) :
  (level + S n)%nat = MAX_LEVELS → bindings_ok M → separable (S n) level M = true → wf s →
  holds (below (S n) level M) s →
  run_to wf E (settle (S (S n)) is_root (canon (S n) level M)) s (λ o s',
    holds (below (S n) level M) s' ∧
    if is_root || (BUCKET_SIZE <? length M)%nat then o = Modified (canon (S n) level M)
    else ∃ l, o = Inline l ∧ l ≡ₚ M).
Proof.
  intros Hlev HM Hsep Hw Hh. unfold settle. destruct is_root; [by apply run_to_pure|]. cbn [orb].
  assert (Ec : count_entries (S (S n)) (canon (S n) level M) s = Returns (Ok (length M)) s).
  { by apply (count_canon home Hhome); [| lia | | |]. }
  assert (Ef : flatten_entries (S (S n)) (canon (S n) level M) s = Returns (Ok (flat (S n) level M)) s).
  { unfold flatten_entries. rewrite (flatten_canon home Hhome) by (done || lia). done. }
  destruct (Nat.ltb_spec BUCKET_SIZE (length M)) as [Hl|Hl].
  - exists (Modified (canon (S n) level M)), s. split_and!; [|done|apply grows_refl|done|done].
    unfold bind at 1. rewrite Ec. by rewrite (proj2 (Nat.ltb_ge _ _)) by lia.
  - exists (Inline (flat (S n) level M)), s. split_and!; [|done|apply grows_refl|done|].
    + unfold bind at 1. rewrite Ec. rewrite (proj2 (Nat.ltb_lt _ _)) by lia. unfold bind. by rewrite Ef.
    + eexists. split; [done|]. by apply flat_perm.
Qed.

Section remove_equations.
Context (fuel level : nat) (f : Z → option Entry) (p : Z) (k : list Z) (is_root : bool) (s : St).
Hypothesis Hs : slice level k = Some p.
Hypothesis Hp : 0 ≤ p < 32.
Notation remove := (remove_at_node home (S fuel) (node_of f) (key_hash k) level k is_root s).
Notation settled g := (settle (S fuel) is_root (node_of g)).

Ltac start E0 :=
  unfold slice in Hs; cbn [remove_at_node]; rewrite Hs, bind_some; cbn [node_of node_map node_data];
  rewrite position_node_of, E0 by done; cbn [is_some negb].

Lemma remove_empty : f p = None → remove = pure Unchanged s.
Proof. intros E0. by start E0. Qed.

Lemma remove_bucket_absent b : f p = Some (Bucket b) → tuple_position k b = None → remove = pure Unchanged s.
Proof. intros E0 Epos. start E0. by rewrite (dense_lookup _ p Hp _ E0), bind_some, Epos. Qed.

Lemma remove_bucket_last b pos :
  f p = Some (Bucket b) → tuple_position k b = Some pos → length b = 1%nat → remove = settled (upd f p None) s.
Proof.
  intros E0 Epos Hl. start E0. rewrite (dense_lookup _ p Hp _ E0), bind_some, Epos, Hl. cbn [Nat.eqb].
  by rewrite (dense_remove _ p Hp _ E0), bind_some, (bits_clear f p Hp).
Qed.

Lemma set_settled e0 e :
  f p = Some e0 →
  (new_data <-- or_panic (vec_set (rank f p) e (omap f slot_range));;
   settle (S fuel) is_root (mkNode (bits_of f slot_range) new_data)) s = settled (upd f p (Some e)) s.
Proof.
  intros E0. rewrite (dense_set _ p Hp e0) by done. rewrite bind_some.
  by rewrite (bits_same f p e0 e E0).
Qed.

Lemma remove_bucket b pos :
  f p = Some (Bucket b) → tuple_position k b = Some pos → length b ≠ 1%nat →
  remove = settled (upd f p (Some (Bucket (delete pos b)))) s.
Proof.
  intros E0 Epos Hl%Nat.eqb_neq. start E0. rewrite (dense_lookup _ p Hp _ E0), bind_some, Epos, Hl.
  by apply (set_settled (Bucket b)).
Qed.

(** What follows the removal below a link. *)
Definition after_child (o : RemoveOutcome) : Trie St RemoveOutcome :=
  match o with
  | Unchanged => pure Unchanged
  | Modified sub => h <-- store_trie_node home sub;; settled (upd f p (Some (Link h)))
  | Inline tuples =>
      if bool_decide (tuples = []) then settled (upd f p None)
      else settled (upd f p (Some (Bucket (sort_by by_key tuples))))
  end.

Lemma remove_link h sub :
  f p = Some (Link h) → load_trie_node h s = Some sub →
  remove = bind (remove_at_node home fuel sub (key_hash k) (S level) k false) after_child s.
Proof.
  intros E0 Eload. start E0. rewrite (dense_lookup _ p Hp _ E0), bind_some.
  unfold bind at 1, load_sub. rewrite Eload. cbn [ok_or]. apply bind_ext. intros o s'.
  destruct o as [|sub'|tuples]; [done| |]; cbn [after_child].
  - apply bind_ext. intros h' s2. rewrite (dense_set _ p Hp (Link h)) by done. rewrite bind_some.
    by rewrite (bits_same f p (Link h) (Link h') E0).
  - case_bool_decide.
    + by rewrite (dense_remove _ p Hp _ E0), bind_some, (bits_clear f p Hp).
    + rewrite (dense_set _ p Hp (Link h)) by done. rewrite bind_some.
      by rewrite (bits_same f p (Link h) (Bucket (sort_by by_key tuples)) E0).
Qed.
End remove_equations.

Definition remove_spec (n : nat) : Prop := ∀ level M k is_root s E,
  (level + n)%nat = MAX_LEVELS → bindings_ok M → wf s → separable n level M = true →
  holds (below n level M) s → (∀ e, e ∈ below n level (bt_remove k M) → e ∈ E) → fresh_for E s →
  run_to wf E (remove_at_node home (S n) (canon n level M) (key_hash k) level k is_root) s
    (removed n level M k is_root).

Section remove_step.
Context (n level : nat) (p : Z) (M : bindings) (k : list Z) (is_root : bool) (s : St) (E : list Entity).
Hypothesis Hremove : remove_spec n.
Hypothesis Hlev : (level + S n)%nat = MAX_LEVELS.
Hypothesis HM : bindings_ok M.
Hypothesis Hw : wf s.
Hypothesis Hsep : separable (S n) level M = true.
Hypothesis Hh : holds (below (S n) level M) s.
Hypothesis HE : ∀ e, e ∈ below (S n) level (bt_remove k M) → e ∈ E.
Hypothesis Hf : fresh_for E s.
Hypothesis Hs : slice level k = Some p.
Hypothesis Hp : 0 ≤ p < 32.
Notation M' := (bt_remove k M).
Notation remove := (remove_at_node home (S (S n)) (node_of (slot n level M)) (key_hash k) level k is_root).

Lemma rstep_upd : part_upd level p M M'.
Proof. apply part_upd_remove; [apply HM|done]. Qed.

Lemma rstep_part : part level p M' = bt_remove k (part level p M).
Proof. rewrite (part_remove _ p) by (apply HM || done). by rewrite decide_True. Qed.

Lemma rstep_get : bt_get k (part level p M) = bt_get k M.
Proof. apply part_get; [apply HM|done]. Qed.

Lemma unchanged_step : bt_get k M = None → remove s = pure Unchanged s → run_to wf E remove s (removed (S n) level M k is_root).
Proof.
  intros Hg Eq. eapply run_to_eq; [exact Eq|]. apply run_to_pure; [done|]. unfold removed. rewrite Hg.
  split; [|done]. by rewrite bt_remove_none by (apply HM || done).
Qed.

Lemma settle_step v0 x s' :
  bt_get k M = Some v0 → slot n level M' p = x → wf s' → holds (below (S n) level M') s' →
  run_to wf E (settle (S (S n)) is_root (node_of (upd (slot n level M) p x))) s' (removed (S n) level M k is_root).
Proof.
  intros Hg Ex Hw' Hh'. rewrite <-(canon_upd home n level p M M' x rstep_upd Ex). unfold removed. rewrite Hg.
  apply settle_canon; [done|by apply bindings_ok_remove|apply separable_remove; [done|apply HM|done]|done|done].
Qed.

(** Nothing new is stored when the slot stays small. *)
Lemma settle_small v0 x :
  bt_get k M = Some v0 → slot n level M' p = x → (length (part level p M') ≤ BUCKET_SIZE)%nat →
  remove s = settle (S (S n)) is_root (node_of (upd (slot n level M) p x)) s →
  run_to wf E remove s (removed (S n) level M k is_root).
Proof.
  intros Hg Ex Hl Eq. eapply run_to_eq; [exact Eq|]. eapply settle_step; [done|done|done|].
  eapply holds_upd; [apply rstep_upd|done|lia].
Qed.

Lemma remove_step_bucket :
  part level p M ≠ [] → (length (part level p M) ≤ BUCKET_SIZE)%nat → slot n level M p = Some (Bucket (part level p M)) →
  run_to wf E remove s (removed (S n) level M k is_root).
Proof.
  intros Hne Hl E0. pose proof (part_ok level p M (proj1 HM)) as Hmp.
  destruct (tuple_position k (part level p M)) as [pos|] eqn:Epos.
  - destruct (tuple_position_Some k _ pos hash_zero Hmp Epos) as (_ & Edel & [v0 Eget]).
    pose proof (length_bt_remove _ _ _ Eget) as Hlen. rewrite <-rstep_part in Hlen. rewrite rstep_get in Eget.
    destruct (decide (length (part level p M) = 1%nat)) as [H1|H1].
    + eapply settle_small; [exact Eget|apply slot_none, length_zero_iff_nil; lia|lia|].
      by apply (remove_bucket_last _ _ _ p k is_root s Hs Hp (part level p M) pos).
    + eapply settle_small; [exact Eget| |lia|by apply (remove_bucket _ _ _ p k is_root s Hs Hp (part level p M) pos)].
      rewrite Edel, <-rstep_part. apply slot_bucket; [|lia]. intros Hn. rewrite Hn in Hlen. cbn in Hlen. lia.
  - apply unchanged_step; [|by apply (remove_bucket_absent _ _ _ p k is_root s Hs Hp (part level p M))].
    rewrite <-rstep_get. by apply tuple_position_None.
Qed.

Lemma remove_step_link h :
  (BUCKET_SIZE < length (part level p M))%nat → slot n level M p = Some (Link h) →
  load_trie_node h s = Some (canon n (S level) (part level p M)) →
  separable n (S level) (part level p M) = true → holds (below n (S level) (part level p M)) s →
  run_to wf E remove s (removed (S n) level M k is_root).
Proof.
  intros Hl E0 Eload Hsp Hhp. pose proof (part_bindings_ok level p M HM) as HMp.
  eapply run_to_eq; [by apply (remove_link _ _ _ p k is_root s Hs Hp h)|].
  assert (Hsub : ∀ e, e ∈ below n (S level) (bt_remove k (part level p M)) → e ∈ E).
  { intros e He. rewrite <-rstep_part in He. apply HE.
    destruct (decide (BUCKET_SIZE < length (part level p M'))%nat); [by apply (below_child home n level M' p); auto|].
    destruct n; [done|]. rewrite below_small in He by lia. by apply elem_of_nil in He. }
  eapply run_to_bind; [by apply (Hremove (S level) (part level p M) k false s E ltac:(lia))|].
  intros o s1 Hw1 Hg1 [Hh1 Ho]. rewrite <-rstep_part in Hh1, Ho. rewrite rstep_get in Ho.
  assert (Hold : holds (below (S n) level M) s1) by (by eapply grows_holds).
  destruct (bt_get k M) as [v0|] eqn:Eget.
  - pose proof Eget as Egp. rewrite <-rstep_get in Egp. apply length_bt_remove in Egp. rewrite <-rstep_part in Egp.
    cbn [orb] in Ho. destruct (Nat.ltb_spec BUCKET_SIZE (length (part level p M'))) as [Hl'|Hl'].
    + subst o. cbn [after_child]. eapply run_to_bind.
      { apply (store_node wf home Hhome E); [done|by eapply fresh_grows|].
        apply HE, (below_child home n level M' p); [done|done|by left]. }
      intros h' s2 Hw2 Hg2 [-> Hh2]. eapply settle_step; [done|by apply slot_link|done|].
      eapply holds_upd; [apply rstep_upd|by eapply grows_holds|]. intros _ e [->|He]%elem_of_cons.
      * by apply Hh2, list_elem_of_singleton.
      * exact (grows_holds _ _ _ _ Hg2 Hh1 e He).
    + destruct Ho as (l & -> & Hperm). cbn [after_child]. unfold BUCKET_SIZE in Hl.
      rewrite bool_decide_eq_false_2.
      2: { intros ->. apply Permutation_length in Hperm. cbn in Hperm. lia. }
      eapply settle_step; [done| |done|eapply holds_upd; [apply rstep_upd|done|lia]].
      rewrite (sort_by_key_map l (part level p M')) by (done || apply part_ok, bt_remove_ok, HM).
      apply slot_bucket; [|done]. intros Hn. rewrite Hn in Egp. cbn in Egp. lia.
  - subst o. cbn [after_child]. apply run_to_pure; [done|]. unfold removed. rewrite Eget. split; [|done].
    by rewrite bt_remove_none by (apply HM || done).
Qed.
End remove_step.

Lemma remove_canon n : remove_spec n.
Proof.
  induction n as [|n IH]; intros level M k is_root s E Hlev HM Hw Hsep Hh HE Hf; [done|].
  destruct (slice_defined level k) as (p & Hs & Hp); [lia|]. rewrite canon_S.
  destruct (slot_cases home Hhome n level M p s Hlev HM Hsep Hh Hp)
    as [[En E0]|[(Hne & Hl & E0)|(h & Hl & E0 & _ & El & Hsp & Hb)]].
  - eapply unchanged_step; [done|done|done| |by apply (remove_empty _ _ _ p)].
    rewrite <-(part_get level p) by (apply HM || done). by rewrite En.
  - by eapply remove_step_bucket.
  - by eapply remove_step_link.
Qed.
End remove.

(** * The trie operations *)

(** A sequence of updates, each on the root the one before it returned. *)
Inductive TrieOp := TPut (k : list Z) (v : Hash) | TRemove (k : list Z).

Definition run_op `{Sha2} `{Ciborium} {St} `{ContentStore St} (home : Z) (root : option Hash) (op : TrieOp) : Trie St Hash :=
  match op with TPut k v => trie_put home root k v | TRemove k => trie_remove home root k end.

Fixpoint run_ops `{Sha2} `{Ciborium} {St} `{ContentStore St} (home : Z) (root : option Hash) (ops : list TrieOp)
    : Trie St (option Hash) :=
  match ops with
  | [] => pure root
  | op :: ops => h <-- run_op home root op;; run_ops home (Some h) ops
  end.

(** The same updates on the bindings themselves, and the bindings after each of them. *)
Definition apply_op (M : bindings) (op : TrieOp) : bindings :=
  match op with TPut k v => bt_insert k v M | TRemove k => bt_remove k M end.

Fixpoint states (M : bindings) (ops : list TrieOp) : list bindings :=
  match ops with [] => [] | op :: ops => apply_op M op :: states (apply_op M op) ops end.

Definition op_ok (op : TrieOp) : Prop :=
  match op with TPut k v => key_ok k ∧ hash_ok v | TRemove _ => True end.

Section tries.
Context {St : Type} `{HT : ContentStore St} (wf : St → Prop) `{!ContentStoreOk St wf}.
Context `{HS : Sha2} `{!Sha2Ok} `{HC : Ciborium} `{!CiboriumDecodes} (home : Z).
Hypothesis Hhome : digest_len_for_format home ≠ None.

(** The root hash the bindings determine, and all the nodes of their trie. *)
Definition root_node (M : bindings) : SnapshotNodeData := canon home MAX_LEVELS 0 M.
Definition trie_root (M : bindings) : Hash := node_hash home (root_node M).
Definition all_nodes (M : bindings) : list Entity := the_entity home (root_node M) :: below home MAX_LEVELS 0 M.

(** The store holds the canonical trie of [M] under [h]. *)
Definition trie_at (s : St) (h : Hash) (M : bindings) : Prop :=
  h = trie_root M ∧ bindings_ok M ∧ separable MAX_LEVELS 0 M = true ∧ holds (all_nodes M) s.

Lemma trie_root_ok s h M : trie_at s h M → hash_ok h.
Proof. intros [-> _]. apply (the_entity_spec home Hhome). Qed.

Lemma trie_at_grows En s s' h M : grows En s s' → trie_at s h M → trie_at s' h M.
Proof. intros Hg (? & ? & ? & Hh). split_and!; [done..|]. by eapply grows_holds. Qed.

Definition starts (s : St) (root : option Hash) (M : bindings) : Prop :=
  match root with None => M = [] | Some h => trie_at s h M end.

Lemma all_nodes_root M : the_entity home (root_node M) ∈ all_nodes M.
Proof. by left. Qed.

Lemma trie_at_load s h M : trie_at s h M → load_trie_node h s = Some (root_node M).
Proof.
  intros (-> & HM & _ & Hh). apply (load_node home Hhome); [by apply (canon_ok home Hhome)|]. apply Hh, all_nodes_root.
Qed.

Lemma starts_spec s root M :
  starts s root M →
  load_or_empty root s = root_node M ∧ bindings_ok M ∧ separable MAX_LEVELS 0 M = true
  ∧ holds (below home MAX_LEVELS 0 M) s.
Proof.
  destruct root as [h|]; cbn [starts].
  - intros Ha. unfold load_or_empty. cbn [mbind option_bind]. rewrite (trie_at_load s h M Ha).
    destruct Ha as (_ & HM & Hsep & Hh). split; [done|]. split; [done|]. split; [done|].
    intros e He. apply Hh. by right.
  - intros ->. unfold load_or_empty, root_node. cbn [mbind option_bind].
    split; [symmetry; exact (canon_empty home 51 0)|]. split; [by split; constructor|]. split; [apply (separable_small 51 0 []); cbn; lia|].
    intros e He. change MAX_LEVELS with 52%nat in He. rewrite (below_small home 51 0 []) in He by (cbn; lia).
    by apply elem_of_nil in He.
Qed.

(** Storing a root whose nodes below are stored. *)
Lemma store_root E M s :
  wf s → fresh_for E s → (∀ e, e ∈ all_nodes M → e ∈ E) → bindings_ok M → separable MAX_LEVELS 0 M = true →
  holds (below home MAX_LEVELS 0 M) s →
  run_to wf E (store_trie_node home (root_node M)) s (λ h s', trie_at s' h M).
Proof.
  intros Hw Hf HE HM Hsep Hh.
  destruct (store_node wf home Hhome E (root_node M) s Hw Hf (HE _ (all_nodes_root M))) as (h & s' & E1 & Hw' & Hg & -> & Hh').
  eexists _, s'. split; [done|]. split; [done|]. split; [done|]. split; [done|]. split; [done|]. split; [done|].
  intros e [->|He]%elem_of_cons; [by apply Hh', list_elem_of_singleton|]. exact (grows_holds _ _ _ _ Hg Hh e He).
Qed.

Lemma trie_put_canon root M k v s E :
  wf s → starts s root M → key_ok k → hash_ok v → (∀ e, e ∈ all_nodes (bt_insert k v M) → e ∈ E) → fresh_for E s →
  if separable MAX_LEVELS 0 (bt_insert k v M)
  then run_to wf E (trie_put home root k v) s (λ h s', trie_at s' h (bt_insert k v M))
  else trie_put home root k v s = Panics.
Proof.
  intros Hw Hst Hk Hv HE Hf. destruct (starts_spec s root M Hst) as (Eload & HM & Hsep & Hh).
  pose proof (put_canon wf home Hhome MAX_LEVELS 0%nat M k v s E eq_refl HM Hk Hv Hw (or_intror Hsep) Hh
    ltac:(intros e He; apply HE; by right) Hf) as Hp.
  assert (Eq : trie_put home root k v s
    = bind (put_at_node home trie_fuel (root_node M) (key_hash k) 0 k v) (store_trie_node home) s)
    by (unfold trie_put; by rewrite Eload).
  destruct (separable MAX_LEVELS 0 (bt_insert k v M)) eqn:Hsep'; [|rewrite Eq; by apply bind_panics].
  eapply run_to_eq; [exact Eq|]. eapply run_to_bind; [exact Hp|]. intros nd s' Hw' Hg [-> Hh'].
  apply store_root; [done|by eapply fresh_grows|done|by apply bindings_ok_insert|done|done].
Qed.

Lemma trie_remove_canon root M k s E :
  wf s → starts s root M → (∀ e, e ∈ all_nodes (bt_remove k M) → e ∈ E) → fresh_for E s →
  run_to wf E (trie_remove home root k) s (λ h s', trie_at s' h (bt_remove k M)).
Proof.
  intros Hw Hst HE Hf. destruct (starts_spec s root M Hst) as (Eload & HM & Hsep & Hh).
  pose proof (remove_canon wf home Hhome MAX_LEVELS 0%nat M k true s E eq_refl HM Hw Hsep Hh
    ltac:(intros e He; apply HE; by right) Hf) as Hr.
  eapply run_to_eq with (m' := bind (remove_at_node home trie_fuel (root_node M) (key_hash k) 0 k true) (λ o,
    match o with
    | Unchanged => store_trie_node home (root_node M)
    | Modified new_root => store_trie_node home new_root
    | Inline _ => λ _, Panics
    end)); [unfold trie_remove; by rewrite Eload|].
  eapply run_to_bind; [exact Hr|]. intros o s' Hw' Hg [Hh' Ho].
  assert (Hf' : fresh_for E s') by (by eapply fresh_grows). pose proof (proj1 HM) as Hm.
  pose proof (bindings_ok_remove M k HM) as HM'. pose proof (separable_remove MAX_LEVELS 0%nat M k eq_refl Hm Hsep) as Hsep'.
  destruct (bt_get k M) eqn:Eget; cbn [orb] in Ho; subst o.
  - by apply store_root.
  - rewrite (bt_remove_none M k Hm Eget) in *. by apply store_root.
Qed.

Lemma run_op_canon root M op s E :
  wf s → starts s root M → op_ok op → (∀ e, e ∈ all_nodes (apply_op M op) → e ∈ E) → fresh_for E s →
  separable MAX_LEVELS 0 (apply_op M op) = true →
  run_to wf E (run_op home root op) s (λ h s', trie_at s' h (apply_op M op)).
Proof.
  intros Hw Hst Hop HE Hf Hsep. destruct op as [k v|k]; cbn [run_op apply_op] in *.
  - pose proof (trie_put_canon root M k v s E Hw Hst (proj1 Hop) (proj2 Hop) HE Hf) as Hp. by rewrite Hsep in Hp.
  - by apply trie_remove_canon.
Qed.

Lemma run_ops_canon ops : ∀ root M s E,
  wf s → starts s root M → Forall op_ok ops →
  (∀ N e, N ∈ states M ops → e ∈ all_nodes N → e ∈ E) → fresh_for E s →
  Forall (λ M, separable MAX_LEVELS 0 M = true) (states M ops) →
  run_to wf E (run_ops home root ops) s (λ r s', starts s' r (foldl apply_op M ops) ∧ (ops ≠ [] → is_Some r)).
Proof.
  induction ops as [|op ops IH]; intros root M s E Hw Hst Hops HE Hf Hsep; cbn [run_ops foldl states] in *.
  - by apply run_to_pure.
  - apply Forall_cons in Hops as [Hop Hops]. apply Forall_cons in Hsep as [Hs1 Hsep].
    eapply run_to_bind; [apply (run_op_canon root M op s E); [done|done|done| |done|done]|].
    + intros e. apply HE. by left.
    + intros h s' Hw' Hg Ha. destruct (IH (Some h) (apply_op M op) s' E) as (r & s2 & E2 & Hw2 & Hg2 & Hst2 & Hr);
        [done|done|done| |by eapply fresh_grows|done|].
      * intros M2 e HM2. apply HE. by right.
      * exists r, s2. split_and!; [done|done|done|done|]. intros _. destruct ops; [|by apply Hr].
        cbn in E2. injection E2 as <- _. by eexists.
Qed.
End tries.

(** * Reading *)

Section reads.
Context {St : Type} `{HT : ContentStore St} (wf : St → Prop) `{!ContentStoreOk St wf}.
Context `{HS : Sha2} `{!Sha2Ok} `{HC : Ciborium} `{!CiboriumDecodes} (home : Z).
Hypothesis Hhome : digest_len_for_format home ≠ None.
Notation canon := (canon home).
Notation below := (below home).
Notation slot := (slot home).

Lemma find_first_bucket k (b : bindings) :
  bt_ok b →
  match find_first (λ kv, bool_decide (kv.1 = k)) b with Some kv => Found kv.2 | None => Absent end
  = match bt_get k b with Some v => Found v | None => Absent end.
Proof.
  induction b as [|[k' v] b IH]; intros Hb; [done|]. rewrite bt_get_cons by done.
  apply bt_ok_cons in Hb as [_ Hb]. cbn [find_first fst snd]. case_bool_decide as Hk.
  - subst k'. by rewrite cmp_refl.
  - rewrite IH by done. destruct (cmp k k') eqn:E; [by apply cmp_eq in E|done..].
Qed.

Lemma get_canon n : ∀ level M k s fuel,
  (level + n)%nat = MAX_LEVELS → (n < fuel)%nat → bindings_ok M → separable n level M = true →
  holds (below n level M) s → get_loop fuel (canon n level M) k level s = Some (bt_get k M).
Proof.
  induction n as [|n IH]; intros level M k s fuel Hlev Hf HM Hsep Hh; [done|].
  destruct fuel as [|fuel]; [lia|]. destruct (slice_defined level k) as (p & Hs & Hp); [lia|].
  pose proof Hs as Hs'. unfold slice in Hs'. cbn [get_loop]. unfold trie_step. rewrite Hs'. cbn [mbind option_bind].
  rewrite canon_S. cbn [node_of node_map node_data]. rewrite position_node_of by done.
  rewrite <-(part_get level p k M (proj1 HM) Hs). pose proof (part_bindings_ok level p M HM) as HMp.
  destruct (slot_cases home Hhome n level M p s Hlev HM Hsep Hh Hp)
    as [[En E0]|[(Hne & Hl & E0)|(h & Hl & E0 & _ & El & Hsp & Hb)]]; rewrite E0; cbn [is_some negb].
  - by rewrite En.
  - rewrite (dense_lookup _ p Hp _ E0). cbn [mbind option_bind]. rewrite find_first_bucket by apply HMp.
    by destruct (bt_get k (part level p M)).
  - rewrite (dense_lookup _ p Hp _ E0). cbn [mbind option_bind]. rewrite El. by apply IH; [lia|lia|..].
Qed.

Lemma fold_opt_slots {B} (F : B → Entry → option B) (g : B → Z → B) (f : Z → option Entry) l : ∀ acc,
  (∀ b p, p ∈ l → match f p with Some e => F b e = Some (g b p) | None => g b p = b end) →
  fold_opt F acc (omap f l) = Some (foldl g acc l).
Proof.
  induction l as [|p l IH]; intros acc Hl; [done|]. pose proof (Hl acc p ltac:(by left)) as Hp. cbn.
  destruct (f p) as [e|].
  - cbn [fold_opt]. rewrite Hp. cbn [mbind option_bind]. apply IH. intros b q Hq. apply Hl. by right.
  - rewrite Hp. apply IH. intros b q Hq. apply Hl. by right.
Qed.

Notation insert_all := (foldl (λ out kv, bt_insert kv.1 kv.2 out)).

Lemma foldl_concat {A B} (ins : B → A → B) (h : Z → list A) l : ∀ acc,
  foldl (λ b p, foldl ins b (h p)) acc l = foldl ins acc (concat (map h l)).
Proof. induction l as [|p l IH]; intros acc; [done|]. cbn. by rewrite foldl_app, IH. Qed.

Lemma collect_canon n : ∀ level M s fuel out,
  (level + n)%nat = MAX_LEVELS → (n < fuel)%nat → bindings_ok M → separable n level M = true →
  holds (below n level M) s →
  collect_bindings_into fuel s (canon n level M) out = Some (insert_all out (flat n level M)).
Proof.
  induction n as [|n IH]; intros level M s fuel out Hlev Hf HM Hsep Hh; [done|].
  destruct fuel as [|fuel]; [lia|]. cbn [collect_bindings_into flat]. rewrite canon_data.
  rewrite (fold_opt_slots _ (λ b p, insert_all b (if (length (part level p M) <=? BUCKET_SIZE)%nat then part level p M
                                      else flat n (S level) (part level p M)))); [by rewrite foldl_concat|].
  intros b p Hp%elem_of_slots.
  destruct (slot_cases home Hhome n level M p s Hlev HM Hsep Hh Hp) as [[En ->]|[(_ & Hl & ->)|(h & Hl & -> & _ & El & Hs & Hb)]].
  - by rewrite En.
  - by rewrite (proj2 (Nat.leb_le _ _) Hl).
  - rewrite (proj2 (Nat.leb_gt _ _) Hl), El. apply IH; [lia|lia|by apply part_bindings_ok|done|done].
Qed.

(** ** Building at once *)

Lemma separable_app n : ∀ level a b, separable n level (a ++ b) = true → separable n level a = true.
Proof.
  induction n as [|n IH]; intros level a b Hs; [done|]. apply separable_S. intros p Hp Hl.
  apply (IH _ _ (part level p b)). pose proof (proj1 (separable_S n level (a ++ b)) Hs p Hp) as Hq.
  unfold part in *. rewrite filter_app in Hq. apply Hq. rewrite length_app. lia.
Qed.

Lemma bindings_ok_app_l a b : bindings_ok (a ++ b) → bindings_ok a.
Proof. intros [Hm Hb]. split; [by apply bt_ok_app_l in Hm|]. by apply Forall_app in Hb as [? _]. Qed.

Lemma build_fold l : ∀ acc s E,
  bindings_ok (acc ++ l) → separable MAX_LEVELS 0 (acc ++ l) = true → wf s → fresh_for E s →
  holds (below MAX_LEVELS 0 acc) s →
  (∀ a b e, acc ++ l = a ++ b → e ∈ below MAX_LEVELS 0 a → e ∈ E) →
  run_to wf E (fold_trie (λ root kv, put_at_node home trie_fuel root (key_hash kv.1) 0 kv.1 kv.2) (root_node home acc) l) s
    (λ nd s', nd = root_node home (acc ++ l) ∧ holds (below MAX_LEVELS 0 (acc ++ l)) s').
Proof.
  induction l as [|[k v] l IH]; intros acc s E HM Hsep Hw Hf Hh HE.
  - rewrite app_nil_r. by apply run_to_pure.
  - cbn [fold_trie fst snd]. rewrite (cons_middle (k, v) acc l), app_assoc in *.
    pose proof (bindings_ok_app_l _ _ HM) as HM1. pose proof (bindings_ok_app_l _ _ HM1) as HM0.
    assert (Hins : bt_insert k v acc = acc ++ [(k, v)]) by (apply (bt_fold_insert [(k, v)] acc), HM1).
    assert (Hkv : binding_ok (k, v)) by (destruct HM1 as [_ [_ Hb]%Forall_app]; by apply Forall_cons in Hb as [? _]).
    pose proof (separable_app _ _ _ _ Hsep) as Hs1. pose proof (separable_app _ _ _ _ Hs1) as Hs0.
    pose proof (put_canon wf home Hhome MAX_LEVELS 0%nat acc k v s E eq_refl HM0 (proj1 Hkv) (proj2 Hkv) Hw (or_intror Hs0) Hh) as Hp.
    rewrite Hins, Hs1 in Hp. eapply run_to_bind; [apply Hp; [|done]|].
    + intros e. by apply (HE _ l).
    + intros nd s' Hw' Hg [-> Hh']. apply (IH (acc ++ [(k, v)]) s' E HM Hsep Hw'); [by eapply fresh_grows|exact Hh'|exact HE].
Qed.

Lemma trie_at_collect s h M fuel : trie_at home s h M → (MAX_LEVELS < fuel)%nat → collect_all_bindings fuel h s = Some M.
Proof.
  intros Ha Hfuel. pose proof Ha as (_ & HM & Hsep & Hh). unfold collect_all_bindings. rewrite (trie_at_load home Hhome s h M Ha).
  unfold root_node. rewrite (collect_canon MAX_LEVELS 0%nat M s fuel [] eq_refl Hfuel HM Hsep).
  - f_equal. apply bt_fold_insert_perm; [apply HM|]. by apply flat_perm.
  - intros e He. apply Hh. by right.
Qed.

Lemma root_empty : root_node home [] = empty_node.
Proof. unfold root_node, MAX_LEVELS. apply canon_empty. Qed.

Lemma build_canon M s E :
  bindings_ok M → separable MAX_LEVELS 0 M = true → wf s → fresh_for E s →
  (∀ a b e, M = a ++ b → e ∈ all_nodes home a → e ∈ E) →
  run_to wf E (build_trie home M) s (λ h s', trie_at home s' h M).
Proof.
  intros HM Hsep Hw Hf HE. pose proof (build_fold M [] s E HM Hsep Hw Hf) as Hb. cbn [app] in Hb.
  rewrite root_empty in Hb.
  unfold build_trie. eapply run_to_bind; [apply Hb|].
  - intros e He. change MAX_LEVELS with 52%nat in He. rewrite (below_small home 51 0 []) in He by (cbn; lia).
    by apply elem_of_nil in He.
  - intros a b e Hab He. apply (HE a b); [done|by right].
  - intros nd s' Hw' Hg [-> Hh]. apply (store_root wf home Hhome); [done|by eapply fresh_grows| |done|done|done].
    intros e. apply (HE M []). by rewrite app_nil_r.
Qed.
End reads.

Definition prefixes {A} (l : list A) : list (list A) := map (λ i, take i l) (seq 0 (S (length l))).

(** All nodes that running [ops] from the empty trie, or building its result at once, stores. *)
Definition history_nodes `{Sha2} (home : Z) (ops : list TrieOp) : list Entity :=
  concat (map (all_nodes home) (states [] ops ++ prefixes (foldl apply_op [] ops))).

Lemma prefix_in_prefixes {A} (l a b : list A) : l = a ++ b → a ∈ prefixes l.
Proof.
  intros ->. unfold prefixes. apply list_elem_of_In, in_map_iff. exists (length a).
  rewrite take_app_length. split; [done|]. apply in_seq. rewrite length_app. lia.
Qed.

Lemma in_history `{Sha2} home ops N e :
  N ∈ states [] ops ++ prefixes (foldl apply_op [] ops) → e ∈ all_nodes home N → e ∈ history_nodes home ops.
Proof.
  intros HN He. unfold history_nodes. apply list_elem_of_In, in_concat. exists (all_nodes home N).
  split; [by apply in_map, list_elem_of_In|by apply list_elem_of_In].
Qed.

(** * Properties *)

(** C10. A trie's root hash is a function of its bindings: whatever sequence of insertions and
    removals leads to them from the empty trie, through bucket overflows and collapses, the
    root is that of the canonical trie, the store then holds that trie whole, and building it
    from the bindings at once gives the same root.  Bindings of which no four share their whole
    key hash are assumed, and nodes without hash collisions. *)
Theorem trie_history_independent {St} `{HT : ContentStore St} (wf : St → Prop) `{!ContentStoreOk St wf}
    `{HS : Sha2} `{!Sha2Ok} `{HC : Ciborium} `{!CiboriumDecodes} (home : Z) (ops : list TrieOp) (s : St) :
  let M := foldl apply_op [] ops in
  digest_len_for_format home ≠ None → wf s → ops ≠ [] → Forall op_ok ops →
  Forall (λ N, separable MAX_LEVELS 0 N = true) (states [] ops) →
  fresh_for (history_nodes home ops) s →
  ∃ s' s'', run_ops home None ops s = Returns (Ok (Some (trie_root home M))) s'
    ∧ trie_at home s' (trie_root home M) M
    ∧ build_trie home M s' = Returns (Ok (trie_root home M)) s''.
Proof.
  intros M Hhome Hw Hne Hops Hsep Hf.
  destruct (run_ops_canon wf home Hhome ops None [] s (history_nodes home ops) Hw eq_refl Hops) as (r & s1 & E1 & Hw1 & Hg1 & Hst & Hr).
  { intros N e HN. apply in_history, elem_of_app. by left. }
  { done. }
  { done. }
  destruct (Hr Hne) as [h ->]. cbn [starts] in Hst. pose proof Hst as (-> & HM & Hs & _).
  destruct (build_canon wf home Hhome M s1 (history_nodes home ops) HM Hs Hw1) as (h & s2 & E2 & _ & _ & Ha).
  { by eapply fresh_grows. }
  { intros a b e Hab. apply in_history, elem_of_app. right. by eapply prefix_in_prefixes. }
  destruct Ha as (-> & _). by exists s1, s2.
Qed.

(** C32. Reading a stored trie gives its bindings back exactly: [trie_get] finds what is bound
    and nothing else, [collect_all_bindings] returns all of it in order; and one more
    insertion gives the trie of the extended bindings, or panics when four keys with one
    hash would need a fifty-third level. *)
Theorem trie_reads_and_put_exact {St} `{HT : ContentStore St} (wf : St → Prop) `{!ContentStoreOk St wf}
    `{HS : Sha2} `{!Sha2Ok} `{HC : Ciborium} `{!CiboriumDecodes} (home : Z) (s : St) h M fuel k v :
  digest_len_for_format home ≠ None → wf s → trie_at home s h M → (MAX_LEVELS < fuel)%nat →
  key_ok k → hash_ok v → fresh_for (all_nodes home (bt_insert k v M)) s →
  (∀ k', trie_get h k' s = Some (bt_get k' M))
  ∧ collect_all_bindings fuel h s = Some M
  ∧ if separable MAX_LEVELS 0 (bt_insert k v M)
    then ∃ s', trie_put home (Some h) k v s = Returns (Ok (trie_root home (bt_insert k v M))) s'
           ∧ trie_at home s' (trie_root home (bt_insert k v M)) (bt_insert k v M)
    else trie_put home (Some h) k v s = Panics.
Proof.
  intros Hhome Hw Ha Hfuel Hk Hv Hf. pose proof (trie_at_load home Hhome s h M Ha) as El.
  pose proof Ha as (_ & HM & Hsep & Hh).
  assert (Hb : holds (below home MAX_LEVELS 0 M) s) by (intros e He; apply Hh; by right).
  split_and!.
  - intros k'. unfold trie_get. rewrite El. unfold root_node.
    exact (get_canon home Hhome MAX_LEVELS 0%nat M k' s trie_fuel eq_refl (Nat.lt_succ_diag_r _) HM Hsep Hb).
  - by apply (trie_at_collect home Hhome).
  - pose proof (trie_put_canon wf home Hhome (Some h) M k v s _ Hw Ha Hk Hv (λ e He, He) Hf) as Hp.
    destruct (separable MAX_LEVELS 0 (bt_insert k v M)); [|exact Hp]. destruct Hp as (h' & s' & E' & _ & _ & Ha').
    exists s'. pose proof Ha' as [-> _]. split; [exact E'|exact Ha'].
Qed.

(** * Witnesses *)

Transparent slot_range.

(** A digest of two sums, enough to tell a handful of keys and nodes apart. *)
Definition sum_digest (n : nat) (m : list Z) : list Z :=
  let s := foldl (λ ab x, (ab.1 + x, ab.2 + ab.1 + x)) (0, 0) m in
  [s.1 mod 256; s.2 mod 256] ++ replicate (n - 2) 0.
Definition sum_sha2 : Sha2 := {| sha256 := sum_digest 32; sha384 := sum_digest 48 |}.

Lemma sum_digest_bytes n m : bytes_ok (sum_digest n m).
Proof.
  unfold sum_digest. do 2 (constructor; [unfold byte_ok; apply Z.mod_pos_bound; lia|]).
  apply Forall_replicate. unfold byte_ok. lia.
Qed.

Lemma sum_sha2_ok : @Sha2Ok sum_sha2.
Proof.
  split; intros m; try apply sum_digest_bytes; cbn [sha256 sha384 sum_sha2]; unfold sum_digest;
    by rewrite length_app, length_replicate.
Qed.

(** Equal hashes only on equal entities. *)
Definition hashes_distinguish (E : list Entity) : bool :=
  forallb (λ e, forallb (λ e', negb (bool_decide (content_hash e = content_hash e')) || bool_decide (e = e')) E) E.

Definition no_clash (E : list Entity) (m : ContentMap) : bool :=
  forallb (λ e, match bt_get (content_hash e) m with Some e' => bool_decide (e' = e) | None => true end) E
  && hashes_distinguish E.

Lemma no_clash_fresh E m : no_clash E m = true → fresh_for E m.
Proof.
  intros [Ha Hd]%andb_true_iff. split.
  - intros e He e' He'. rewrite forallb_elem in Ha. specialize (Ha e He). cbn in Ha, He'.
    unfold content_get in He'. rewrite He' in Ha. by apply bool_decide_eq_true in Ha.
  - intros e e' He He' Heq. unfold hashes_distinguish in Hd.
    rewrite forallb_elem in Hd. specialize (Hd e He). cbn in Hd. rewrite forallb_elem in Hd. specialize (Hd e' He').
    cbn in Hd. rewrite (bool_decide_eq_true_2 _ Heq) in Hd. by apply bool_decide_eq_true in Hd.
Qed.

Lemma key_ok_check k : utf8_valid k && len_ok k = true → key_ok k.
Proof. by intros [? ?]%andb_true_iff. Qed.

Definition demo_ops : list TrieOp :=
  [TPut (lit "a") (demo_hash 1); TPut (lit "b") (demo_hash 2); TPut (lit "c") (demo_hash 3);
   TPut (lit "d") (demo_hash 4); TRemove (lit "b")].

Lemma demo_ops_ok : Forall op_ok demo_ops.
Proof.
  repeat (apply Forall_cons_2 || apply Forall_nil_2); cbn [op_ok];
    try (split; [apply key_ok_check; reflexivity|apply demo_hash_ok; unfold byte_ok; lia]); done.
Qed.

Lemma trie_history_independent_witness :
  let S := sum_sha2 in let C := ref_ciborium in let M := foldl apply_op [] demo_ops in
  map fst M = [lit "a"; lit "c"; lit "d"]
  ∧ ∃ s' s'' : ContentMap, run_ops 0 None demo_ops [] = Returns (Ok (Some (trie_root 0 M))) s'
    ∧ trie_at 0 s' (trie_root 0 M) M ∧ build_trie 0 M s' = Returns (Ok (trie_root 0 M)) s''.
Proof.
  intros S C M. split; [vm_compute; reflexivity|].
  apply (@trie_history_independent ContentMap memory_store bt_ok memory_store_ok S sum_sha2_ok C
           ref_ciborium_decodes 0 demo_ops []).
  - discriminate.
  - constructor.
  - discriminate.
  - apply demo_ops_ok.
  - assert (Hb : forallb (λ N, @separable S MAX_LEVELS 0 N) (states [] demo_ops) = true) by (vm_compute; reflexivity).
    rewrite forallb_elem in Hb. rewrite Forall_forall. exact Hb.
  - apply no_clash_fresh. vm_compute. reflexivity.
Defined.

(** Three bindings in one bucket, and the store of their trie. *)
Definition demo_bindings : list (list Z * Hash) :=
  [(lit "a", demo_hash 1); (lit "b", demo_hash 2); (lit "c", demo_hash 3)].
Definition demo_store : ContentMap := Eval vm_compute in
  let e := @the_entity sum_sha2 0 (@root_node sum_sha2 0 demo_bindings) in [(content_hash e, e)].
Definition demo_root : Hash := Eval vm_compute in @trie_root sum_sha2 0 demo_bindings.

(** Deciding that a store has the trie of given bindings. *)
Definition trie_stored `{Sha2} (home : Z) (s : ContentMap) (h : Hash) (M : list (list Z * Hash)) : bool :=
  bool_decide (h = trie_root home M) && separable MAX_LEVELS 0 M
  && forallb (λ e, bool_decide (store_get (content_hash e) s = Some e)) (all_nodes home M).

Lemma trie_stored_sound `{Sha2} home (s : ContentMap) h M : bindings_ok M → trie_stored home s h M = true → trie_at home s h M.
Proof.
  intros HM [[Hh Hs]%andb_true_iff Hb]%andb_true_iff. apply bool_decide_eq_true in Hh. split_and!; [done..|].
  intros e He. rewrite forallb_elem in Hb. specialize (Hb e He). by apply bool_decide_eq_true in Hb.
Qed.

Lemma demo_trie : @trie_at ContentMap memory_store sum_sha2 0 demo_store demo_root demo_bindings.
Proof.
  apply trie_stored_sound; [|vm_compute; reflexivity]. split; [repeat constructor|].
  repeat (apply Forall_cons_2 || apply Forall_nil_2);
    (split; [apply key_ok_check; reflexivity|apply demo_hash_ok; unfold byte_ok; lia]).
Qed.

Lemma trie_reads_and_put_exact_witness :
  let S := sum_sha2 in let C := ref_ciborium in
  let M' := bt_insert (lit "d") (demo_hash 4) demo_bindings in
  (∀ k, trie_get demo_root k demo_store = Some (bt_get k demo_bindings))
  ∧ ∃ s', trie_put 0 (Some demo_root) (lit "d") (demo_hash 4) demo_store = Returns (Ok (trie_root 0 M')) s'
      ∧ trie_at 0 s' (trie_root 0 M') M'.
Proof.
  intros S C M'.
  destruct (@trie_reads_and_put_exact ContentMap memory_store bt_ok memory_store_ok S sum_sha2_ok C
           ref_ciborium_decodes 0 demo_store demo_root demo_bindings trie_fuel (lit "d") (demo_hash 4))
    as (Hget & _ & Hput).
  - discriminate.
  - repeat constructor.
  - apply demo_trie.
  - unfold trie_fuel. lia.
  - apply key_ok_check. reflexivity.
  - apply demo_hash_ok. unfold byte_ok. lia.
  - apply no_clash_fresh. vm_compute. reflexivity.
  - split; [exact Hget|].
    assert (Hs : @separable S MAX_LEVELS 0 M' = true) by (vm_compute; reflexivity).
    unfold M' in *. rewrite Hs in Hput. exact Hput.
Defined.

(** A node whose bitmap promises an entry that is not there is read without complaint, and a
    lookup that comes to it panics. *)
Example malformed_node_panics :
  let S := sum_sha2 in let C := ref_ciborium in
  let node := mkNode 0xFFFFFFFF [] in
  node_from_cbor (to_ecf_bytes node) = Some node ∧ trie_step node (lit "a") 0 = None.
Proof. split; vm_compute; reflexivity. Qed.

(** The walks mark value hashes as visited nodes: when a binding's value is the hash of a
    sub-node that comes later, that sub-node's own values are missing from the closure. *)
Example closure_misses_values :
  let S := sum_sha2 in let C := ref_ciborium in
  let four := bt_insert (lit "d") (demo_hash 4) demo_bindings in
  let sub := node_hash 0 (canon 0 51 1 four) in
  let ops := TPut (lit "A") sub :: map (λ kv, TPut kv.1 kv.2) four in
  match run_ops 0 None ops ([] : ContentMap) with
  | Returns (Ok (Some root)) s =>
      (trie_get root (lit "a") s, bool_decide (demo_hash 1 ∈ default ∅ (collect_node_closure trie_fuel root s)))
  | _ => (None, true)
  end = (Some (Some (demo_hash 1)), false).
Proof. vm_compute. reflexivity. Qed.
