(* ===== verification/RootTracker.v ===== *)
(** The incremental root tracker ([core/tree/src/root_tracker.rs]).

    For every enabled tracking configuration the tracker keeps, under [system/tree/root], the
    root of the trie of all bindings below the configured prefix: it rebuilds the trie when a
    configuration appears, and follows every change of the tree, guarding its own update of the
    root with a compare-and-set.  The interleaving of several trackers is in AutoVersion.v. *)
From S2P Require Import Prelude BTree Ecf Cbor ContentHash Paths Entity Store Trie Index TrieSpec.

Record TrackingConfig := mkTracking { tc_prefix : list Z; tc_enabled : bool }.

Definition PUBLISHED_ROOT_HANDLER_PATTERN : list Z := lit "system/peer/published-root".
Definition MAX_ROOT_CAS_RETRIES : nat := 64.

Definition is_feedback_loop_handler (pattern : list Z) : bool :=
  bool_decide (pattern = PUBLISHED_ROOT_HANDLER_PATTERN) || bool_decide (pattern = lit "system/history").

(** [s.trim_matches(c)] for an ASCII character. *)
Fixpoint trim_start (c : Z) (s : list Z) : list Z :=
  match s with
  | [] => []
  | b :: s' => if decide (b = c) then trim_start c s' else s
  end.
Definition trim_matches (c : Z) (s : list Z) : list Z := reverse (trim_start c (reverse (trim_start c s))).

Definition canonical_prefix (bare_prefix : list Z) : list Z := trim_matches ch_slash bare_prefix.

Definition tracking_config_value (prefix : list Z) (enabled : bool) : Value :=
  VMap [(text (lit "enabled"), bool_val enabled); (text (lit "prefix"), text prefix)].

Definition tracking_config_entity `{Sha2} (home : Z) (prefix : list Z) (enabled : bool) : option Entity :=
  ok (entity_new home (lit "system/tree/tracking-config") (to_ecf (tracking_config_value prefix enabled))).

Definition tracking_step (acc : option (list Z) * option bool) (kv : Value * Value)
    : option (option (list Z) * option bool) :=
  k ← as_str kv.1;
  if bool_decide (k = lit "prefix") then Some (as_str kv.2, acc.2)
  else if bool_decide (k = lit "enabled") then Some (acc.1, as_bool_val kv.2)
  else Some acc.

Definition decode_tracking_config `{Ciborium} (entity : Entity) : option TrackingConfig :=
  if negb (bool_decide (entity_type entity = lit "system/tree/tracking-config")) then None
  else
    value ← from_reader (data entity);
    m ← as_map value;
    '(prefix, enabled) ← fold_opt tracking_step (None, None) m;
    prefix ← prefix;
    if match strip_suffix [ch_slash] prefix with Some _ => false | None => true end then None
    else Some (mkTracking prefix (default false enabled)).

(** * Paths *)

Definition root_path_exact (local_peer_id : list Z) : list Z := lit "/" ++ local_peer_id ++ lit "/system/tree/root".
Definition root_path_prefix (local_peer_id : list Z) : list Z := root_path_exact local_peer_id ++ lit "/".
Definition config_path_prefix (local_peer_id : list Z) : list Z :=
  lit "/" ++ local_peer_id ++ lit "/system/tree/tracking-config/".

Definition qualified_root_path (local_peer_id bare_prefix : list Z) : list Z :=
  let p := canonical_prefix bare_prefix in
  if bool_decide (p = []) then root_path_exact local_peer_id else root_path_prefix local_peer_id ++ p.

Definition qualified_bare_prefix (local_peer_id bare_prefix : list Z) : list Z :=
  let p := canonical_prefix bare_prefix in
  if bool_decide (p = []) then lit "/" ++ local_peer_id ++ lit "/"
  else lit "/" ++ local_peer_id ++ lit "/" ++ p ++ lit "/".

Definition is_self_path (local_peer_id path : list Z) : bool :=
  bool_decide (path = root_path_exact local_peer_id) || starts_with path (root_path_prefix local_peer_id).

(** * The engine *)

Inductive TrackError := TrieFailed | LostRaces.

Section tracker.
Context `{Sha2} `{Ciborium} {St : Type} `{ContentStore St} {L : Type} `{LocationIndex L}.
Context (home : Z) (local_peer_id : list Z).

Notation run := (Code TrackError St L).

Definition load_tracked_root (bare_prefix : list Z) (t : L) : option Hash :=
  li_get (qualified_root_path local_peer_id bare_prefix) t.

Definition store_tracked_root (bare_prefix : list Z) (root_hash : Hash) (ctx : option ExecutionContext) (t : L) : L :=
  let path := qualified_root_path local_peer_id bare_prefix in
  match ctx with
  | Some c => (li_set_ctx path root_hash c t).2
  | None => li_set path root_hash t
  end.

Definition remove_tracked_root (bare_prefix : list Z) (ctx : option ExecutionContext) (t : L) : L :=
  let path := qualified_root_path local_peer_id bare_prefix in
  match ctx with
  | Some c => (li_remove_ctx path c t).2
  | None => (li_remove path t).2
  end.

(** The bindings below a qualified prefix, relative to it, without the tracker's own. *)
Definition tree_bindings (qualified : list Z) (t : L) : PathMap :=
  foldl (λ bindings e, if is_self_path local_peer_id (le_path e) then bindings
                       else bt_insert (drop (length qualified) (le_path e)) (le_hash e) bindings)
    [] (li_list qualified t).

(** A trie that cannot be built is logged and left. *)
Definition rebuild_prefix (bare_prefix : list Z) : run unit :=
  λ s t,
    let bindings := tree_bindings (qualified_bare_prefix local_peer_id bare_prefix) t in
    match build_trie home bindings s with
    | Returns (Ok root) s => Done (Ok tt) s (store_tracked_root bare_prefix root None t)
    | Returns (Err _) s => Done (Ok tt) s t
    | Panics | Deep => Stuck
    end.

Fixpoint apply_loop (attempts : nat) (path rel : list Z) (new : option Hash) (ctx : option ExecutionContext)
    : run unit :=
  match attempts with
  | O => throws LostRaces
  | S attempts =>
      current_root <~ asks (λ _ t, li_get path t);;
      new_root <~ in_store (λ _, TrieFailed)
                    match new with
                    | Some new => trie_put home current_root rel new
                    | None => trie_remove home current_root rel
                    end;;
      if bool_decide (current_root = Some new_root) then skip
      else
        outcome <~ updates match current_root with
                           | Some expected => li_swap path expected new_root ctx
                           | None => li_create path new_root ctx
                           end;;
        match outcome with
        | Ok _ => skip
        | Err _ => apply_loop attempts path rel new ctx
        end
  end.

Definition apply_event (bare_prefix : list Z) (event : TreeChangeEvent) (ctx : option ExecutionContext) : run unit :=
  let qualified := qualified_bare_prefix local_peer_id bare_prefix in
  if negb (starts_with (ev_path event) qualified) then skip
  else apply_loop MAX_ROOT_CAS_RETRIES (qualified_root_path local_peer_id bare_prefix)
         (drop (length qualified) (ev_path event)) (new_hash event) ctx.

Definition config_of (h : option Hash) (s : St) : option TrackingConfig :=
  h ← h; entity ← store_get h s; decode_tracking_config entity.

Definition handle_config_change (event : TreeChangeEvent) (ctx : option ExecutionContext) : run unit :=
  cfgs <~ asks (λ s _, (config_of (previous_hash event) s, config_of (new_hash event) s));;
  match cfgs with
  | (None, Some cfg) => if tc_enabled cfg then rebuild_prefix (tc_prefix cfg) else skip
  | (Some prev, Some cfg) =>
      if negb (bool_decide (tc_prefix prev = tc_prefix cfg)) then
        _ <~ writes (remove_tracked_root (tc_prefix prev) ctx);;
        if tc_enabled cfg then rebuild_prefix (tc_prefix cfg) else skip
      else if tc_enabled prev && negb (tc_enabled cfg) then writes (remove_tracked_root (tc_prefix cfg) ctx)
      else if negb (tc_enabled prev) && tc_enabled cfg then rebuild_prefix (tc_prefix cfg)
      else skip
  | (Some prev, None) => writes (remove_tracked_root (tc_prefix prev) ctx)
  | (None, None) => skip
  end.

Definition load_all_configs (s : St) (t : L) : list TrackingConfig :=
  omap (λ e, entity ← store_get (le_hash e) s; decode_tracking_config entity) (li_list (config_path_prefix local_peer_id) t).

Fixpoint for_each {A} (f : A → run unit) (l : list A) : run unit :=
  match l with [] => skip | x :: l' => _ <~ f x;; for_each f l' end.

(** [bootstrap] and [on_tree_change] return the cached configurations that they leave. *)
Definition bootstrap : run (list TrackingConfig) :=
  configs <~ asks load_all_configs;;
  _ <~ for_each (λ cfg, if tc_enabled cfg then rebuild_prefix (tc_prefix cfg) else skip) configs;;
  returns configs.

Definition from_feedback_loop (event : TreeChangeEvent) : bool :=
  match (c ← ev_context event; cx_handler_pattern c) with
  | Some pattern => is_feedback_loop_handler pattern
  | None => false
  end.

Definition on_tree_change (cached_configs : list TrackingConfig) (event : TreeChangeEvent) (ctx : ExecutionContext)
    : run (list TrackingConfig) :=
  if is_self_path local_peer_id (ev_path event) then returns cached_configs
  else if from_feedback_loop event then returns cached_configs
  else if starts_with (ev_path event) (config_path_prefix local_peer_id) then
    _ <~ handle_config_change event (Some ctx);;
    asks load_all_configs
  else
    _ <~ for_each (λ cfg, if tc_enabled cfg then apply_event (tc_prefix cfg) event (Some ctx) else skip) cached_configs;;
    returns cached_configs.
End tracker.

(** * Lemmas *)

Lemma tree_bindings_get id q (t : PathMap) :
  bt_ok t →
  bt_ok (tree_bindings id q t)
  ∧ ∀ rel, bt_get rel (tree_bindings id q t) = if is_self_path id (q ++ rel) then None else bt_get (q ++ rel) t.
Proof. apply (relative_bindings (is_self_path id) q t). Qed.

(** A change outside the tracker's own paths is a change of one binding. *)
Definition changed (path : list Z) (new : option Hash) (t : PathMap) : PathMap :=
  match new with Some h => index_set t path h | None => (index_remove t path).2 end.

Definition change_op (rel : list Z) (new : option Hash) : TrieOp :=
  match new with Some h => TPut rel h | None => TRemove rel end.

Lemma changed_get path new t :
  bt_ok t → (is_Some new → path_is_storable path = true) →
  bt_ok (changed path new t) ∧ ∀ p, bt_get p (changed path new t) = if decide (p = path) then new else bt_get p t.
Proof.
  intros Ht Hp. destruct new as [h|]; cbn [changed].
  - unfold index_set. rewrite Hp by by eexists. split; [by apply bt_insert_ok|]. intros p. case_decide as Hd.
    + subst. by apply bt_get_insert_eq.
    + by apply bt_get_insert_ne.
  - unfold index_remove. cbn [snd]. split; [by apply bt_remove_ok|]. intros p. rewrite bt_get_remove by done.
    case_decide as Hd; [subst; by rewrite cmp_refl|]. destruct (cmp p path) eqn:E; [by apply cmp_eq in E|done..].
Qed.

Lemma apply_op_get M rel new p :
  bt_ok M → bt_get p (apply_op M (change_op rel new)) = if decide (p = rel) then new else bt_get p M.
Proof.
  intros HM. destruct new as [h|]; cbn [change_op apply_op].
  - case_decide as Hd; [subst; by apply bt_get_insert_eq|by apply bt_get_insert_ne].
  - rewrite bt_get_remove by done. case_decide as Hd; [subst; by rewrite cmp_refl|].
    destruct (cmp p rel) eqn:E; [by apply cmp_eq in E|done..].
Qed.

Lemma tree_bindings_changed id q rel new t :
  bt_ok t → (is_Some new → path_is_storable (q ++ rel) = true) → is_self_path id (q ++ rel) = false →
  tree_bindings id q (changed (q ++ rel) new t) = apply_op (tree_bindings id q t) (change_op rel new).
Proof.
  intros Ht Hp Hs. destruct (changed_get (q ++ rel) new t Ht Hp) as [Ht' Hg].
  destruct (tree_bindings_get id q t Ht) as [HM HG]. destruct (tree_bindings_get id q _ Ht') as [HM' HG'].
  apply bt_ext; [done| |].
  - destruct new; cbn [change_op apply_op]; [by apply bt_insert_ok|by apply bt_remove_ok].
  - intros p. rewrite HG', Hg, apply_op_get, HG by done. case_decide as Hd.
    + apply app_inv_head in Hd. subst p. by rewrite Hs, decide_True.
    + rewrite (decide_False (P := p = rel)); [done|]. by intros ->.
Qed.

(** The tracker's own paths do not show. *)
Lemma tree_bindings_own id q (t t' : PathMap) p :
  bt_ok t → bt_ok t' → is_self_path id p = true → (∀ k, k ≠ p → bt_get k t' = bt_get k t) →
  tree_bindings id q t' = tree_bindings id q t.
Proof.
  intros Ht Ht' Hp Hk. destruct (tree_bindings_get id q t Ht) as [HM HG]. destruct (tree_bindings_get id q t' Ht') as [HM' HG'].
  apply bt_ext; [done|done|]. intros rel. rewrite HG, HG'. destruct (is_self_path id (q ++ rel)) eqn:E; [done|].
  apply Hk. intros <-. congruence.
Qed.

Lemma root_path_is_self id prefix : is_self_path id (qualified_root_path id prefix) = true.
Proof.
  unfold is_self_path, qualified_root_path. apply orb_true_iff. destruct (decide (canonical_prefix prefix = [])) as [Hp|Hp].
  - left. rewrite (bool_decide_eq_true_2 _ Hp). by apply bool_decide_eq_true.
  - right. rewrite (bool_decide_eq_false_2 _ Hp). apply starts_with_true. by eexists.
Qed.

Lemma andthen_Done {E St L A B} (m : Code E St L A) (f : A → Code E St L B) s t a s1 t1 :
  m s t = Done (Ok a) s1 t1 → (x <~ m;; f x) s t = f a s1 t1.
Proof. apply andthen_run. Qed.

(** Storing an entity that clashes with none. *)
Lemma stores_run {St E L} `{HT : ContentStore St} (wf : St → Prop) `{!ContentStoreOk St wf} (err : E) e (s : St) (t : L) En :
  wf s → fresh_for En s → e ∈ En →
  ∃ s', stores err e s t = Done (Ok (content_hash e)) s' t ∧ wf s' ∧ grows En s s' ∧ holds [e] s'.
Proof.
  intros Hw Hf Hin. destruct (store_put_get s e Hw (proj1 Hf e Hin)) as (s' & Hput & Hw' & Hget).
  exists s'. split; [unfold stores; by rewrite Hput|]. split_and!; [done| |].
  - split; intros h x; rewrite Hget; case_decide as Hh; auto.
    + subst h. intros Hs. f_equal. symmetry. by apply (proj1 Hf e Hin).
    + intros [= <-]. by right.
  - intros x ->%list_elem_of_singleton. rewrite Hget. by rewrite decide_True.
Qed.

Lemma in_store_run `{!ContentStore St} {E L A} wf En (e : TrieError → E) (m : Trie St A) s (t : L) Q :
  run_to wf En m s Q → ∃ a s', in_store e m s t = Done (Ok a) s' t ∧ wf s' ∧ grows En s s' ∧ Q a s'.
Proof. intros (a & s' & Hm & Hw & Hg & HQ). exists a, s'. unfold in_store. rewrite Hm. auto. Qed.

Section follow.
Context {St : Type} `{HT : ContentStore St} (wf : St → Prop) `{!ContentStoreOk St wf}.
Context `{HS : Sha2} `{!Sha2Ok} `{HC : Ciborium} `{!CiboriumDecodes} (home : Z).
Hypothesis Hhome : digest_len_for_format home ≠ None.
Context {L : Type} `{HL : LocationIndex L} (wft : L → Prop) `{!LocationIndexOk L wft}.

(** Alone, the loop needs one attempt: the root follows the bindings. *)
Lemma apply_loop_follows attempts path rel new ctx (s : St) (t : L) M E :
  wf s → wft t → starts home s (li_get path t) M →
  key_ok rel → (∀ h, new = Some h → hash_ok h) →
  let M' := apply_op M (change_op rel new) in
  separable MAX_LEVELS 0 M' = true → (∀ e, e ∈ all_nodes home M' → e ∈ E) → fresh_for E s →
  ∃ s' t', apply_loop home (S attempts) path rel new ctx s t = Done (Ok tt) s' t'
    ∧ wf s' ∧ grows E s s' ∧ wft t' ∧ trie_at home s' (trie_root home M') M'
    ∧ ∀ q, li_get q t' = if decide (q = path) then Some (trie_root home M') else li_get q t.
Proof.
  intros Hw Ht Hst Hk Hn M' Hsep HE Hf. cbn [apply_loop].
  rewrite (andthen_Done _ _ s t (li_get path t) s t) by done.
  assert (Hop : op_ok (change_op rel new)) by (destruct new as [h|]; cbn; [split; [done|by apply Hn]|done]).
  pose proof (run_op_canon wf home Hhome (li_get path t) M (change_op rel new) s E Hw Hst Hop HE Hf Hsep) as Hrun.
  destruct (in_store_run wf _ (λ _, TrieFailed) _ s t _ Hrun) as (h & s1 & Erun & Hw1 & Hg1 & Ha).
  pose proof Ha as [-> _]. fold M' in Ha.
  assert (E' : in_store (λ _, TrieFailed)
    match new with Some new => trie_put home (li_get path t) rel new | None => trie_remove home (li_get path t) rel end s t
    = Done (Ok (trie_root home M')) s1 t) by (by destruct new).
  rewrite (andthen_Done _ _ _ _ _ _ _ E').
  case_bool_decide as Hsame.
  - exists s1, t. split_and!; [done|done|done|done|done|]. intros q. case_decide as Hq; [by subst|done].
  - destruct (li_get path t) as [c|] eqn:Ec.
    + pose proof (li_swap_get path c (trie_root home M') ctx t Ht) as Hs. rewrite Ec, decide_True in Hs by done.
      destruct Hs as (t' & Es & Ht' & Hg'). exists s1, t'. split; [|done].
      rewrite (andthen_Done _ _ s1 t (Ok tt) s1 t'); [done|]. unfold updates. by rewrite Es.
    + pose proof (li_create_get path (trie_root home M') ctx t Ht) as Hs. rewrite Ec in Hs.
      destruct Hs as (t' & Es & Ht' & Hg'). exists s1, t'. split; [|done].
      rewrite (andthen_Done _ _ s1 t (Ok tt) s1 t'); [done|]. unfold updates. by rewrite Es.
Qed.
End follow.

(** * Properties *)

(** The nodes that building the trie of [M] binding by binding goes through. *)
Definition build_nodes `{Sha2} (home : Z) (M : PathMap) : list Entity := concat (map (all_nodes home) (prefixes M)).

Lemma build_nodes_prefix `{Sha2} home M a b e : M = a ++ b → e ∈ all_nodes home a → e ∈ build_nodes home M.
Proof.
  intros HM He. unfold build_nodes. apply list_elem_of_In, in_concat. exists (all_nodes home a).
  split; [apply in_map, list_elem_of_In; by eapply prefix_in_prefixes|by apply list_elem_of_In].
Qed.

Lemma build_nodes_whole `{Sha2} home M e : e ∈ all_nodes home M → e ∈ build_nodes home M.
Proof. apply (build_nodes_prefix home M M []). by rewrite app_nil_r. Qed.

(** C29. The tracked root follows the tree.  When the root is that of the bindings below the
    prefix (or there is neither root nor binding) and one of those bindings is set or removed,
    handling the event leaves the root of the new bindings, with its trie in the store, and a
    rebuild from the tree then arrives at the same root. *)
Theorem tracked_root_follows {St} `{HT : ContentStore St} (wf : St → Prop) `{!ContentStoreOk St wf}
    `{HS : Sha2} `{!Sha2Ok} `{HC : Ciborium} `{!CiboriumDecodes} (home : Z) id prefix rel event ctx (s : St) (t : PathMap) :
  let q := qualified_bare_prefix id prefix in
  let t1 := changed (q ++ rel) (new_hash event) t in
  let M := tree_bindings id q t1 in
  digest_len_for_format home ≠ None → wf s → bt_ok t → path_is_storable (qualified_root_path id prefix) = true →
  ev_path event = q ++ rel → is_self_path id (q ++ rel) = false →
  (is_Some (new_hash event) → path_is_storable (q ++ rel) = true) → (∀ h, new_hash event = Some h → hash_ok h) →
  key_ok rel → starts home s (load_tracked_root id prefix t) (tree_bindings id q t) →
  separable MAX_LEVELS 0 M = true → fresh_for (build_nodes home M) s →
  ∃ s' t', apply_event home id prefix event ctx s t1 = Done (Ok tt) s' t'
    ∧ tree_bindings id q t' = M ∧ load_tracked_root id prefix t' = Some (trie_root home M)
    ∧ trie_at home s' (trie_root home M) M
    ∧ ∃ s'' t'', rebuild_prefix home id prefix s' t' = Done (Ok tt) s'' t''
        ∧ load_tracked_root id prefix t'' = Some (trie_root home M).
Proof.
  intros q t1 M Hhome Hw Ht Hrs Hev Hself Hsto Hn Hk Hst Hsep Hf.
  destruct (changed_get (q ++ rel) (new_hash event) t Ht Hsto) as [Ht1 Hg1]. fold t1 in Ht1, Hg1.
  assert (HM : M = apply_op (tree_bindings id q t) (change_op rel (new_hash event))) by by apply tree_bindings_changed.
  set (root := qualified_root_path id prefix).
  assert (Hroot : li_get root t1 = load_tracked_root id prefix t).
  { unfold load_tracked_root. fold root. cbn. unfold index_get. rewrite Hg1. rewrite decide_False; [done|].
    intros Heq. unfold root in Heq. pose proof (root_path_is_self id prefix) as Hr. rewrite Heq in Hr. congruence. }
  destruct (apply_loop_follows wf home Hhome (L := PathMap) bt_ok (pred MAX_ROOT_CAS_RETRIES) root rel (new_hash event) ctx s t1
              (tree_bindings id q t) (build_nodes home M)) as (s' & t' & Erun & Hw' & Hgrow & Ht' & Ha & Hg');
    [exact Hw|exact Ht1|by rewrite Hroot|exact Hk|exact Hn|by rewrite <-HM|rewrite <-HM; apply build_nodes_whole|exact Hf|].
  rewrite <-HM in Ha, Hg'.
  assert (HM' : tree_bindings id q t' = M).
  { apply (tree_bindings_own id q t1 t' root); [done|done|apply root_path_is_self|].
    intros k Hne. specialize (Hg' k). rewrite decide_False in Hg' by done. exact Hg'. }
  exists s', t'. split; [|split; [exact HM'|split; [|split; [exact Ha|]]]].
  - unfold apply_event. fold q root. rewrite Hev, starts_with_app by apply starts_with_refl. cbn [negb].
    by rewrite drop_app_length.
  - unfold load_tracked_root. fold root. rewrite Hg'. by rewrite decide_True.
  - destruct (build_canon wf home Hhome M s' (build_nodes home M)) as (h & s2 & E2 & _ & _ & Hb);
      [apply Ha|exact Hsep|exact Hw'|by eapply fresh_grows|apply build_nodes_prefix|].
    pose proof Hb as [-> _]. exists s2, (index_set t' root (trie_root home M)). split.
    + unfold rebuild_prefix. fold q. rewrite HM', E2. done.
    + unfold load_tracked_root. fold root. cbn. unfold index_get, index_set, root. rewrite Hrs. by apply bt_get_insert_eq.
Qed.

(** * Witnesses *)

Definition demo_event (path : list Z) (new : option Hash) (pattern : option (list Z)) : TreeChangeEvent :=
  mkEvent path (default hash_zero new) None new Created
    (Some (with_per_write default_context None None pattern None)).

Definition demo_id : list Z := replicate 46 97.

Lemma tracked_root_follows_witness :
  let S := sum_sha2 in let C := ref_ciborium in
  let q := qualified_bare_prefix demo_id (lit "docs/") in
  ∃ (s' : ContentMap) t',
    apply_event 0 demo_id (lit "docs/") (demo_event (q ++ lit "a") (Some (demo_hash 1)) None) None []
      (index_set [] (q ++ lit "a") (demo_hash 1)) = Done (Ok tt) s' t'
    ∧ load_tracked_root demo_id (lit "docs/") t' = Some (trie_root 0 [(lit "a", demo_hash 1)]).
Proof.
  intros S C q.
  destruct (@tracked_root_follows ContentMap memory_store bt_ok memory_store_ok S sum_sha2_ok C ref_ciborium_decodes 0
              demo_id (lit "docs/") (lit "a") (demo_event (q ++ lit "a") (Some (demo_hash 1)) None) None [] [])
    as (s' & t' & Hrun & _ & Hroot & _).
  - discriminate.
  - constructor.
  - constructor.
  - vm_compute. reflexivity.
  - reflexivity.
  - vm_compute. reflexivity.
  - intros _. vm_compute. reflexivity.
  - intros h Hh. injection Hh as <-. apply demo_hash_ok. unfold byte_ok. lia.
  - apply key_ok_check. reflexivity.
  - reflexivity.
  - vm_compute. reflexivity.
  - apply no_clash_fresh. vm_compute. reflexivity.
  - exists s', t'. split; [exact Hrun|]. rewrite Hroot. vm_compute. reflexivity.
Defined.

(** A write by the history recorder below the universal prefix is not followed, but a rebuild,
    as at the next start, takes it in: the root changes though the tree did not. *)
Example restart_changes_root :
  let S := sum_sha2 in let C := ref_ciborium in
  let path := qualified_bare_prefix demo_id (lit "/") ++ lit "system/history/x" in
  let t := index_set [] path (demo_hash 1) in
  let e := demo_event path (Some (demo_hash 1)) (Some (lit "system/history")) in
  match on_tree_change 0 demo_id [mkTracking (lit "/") true] e default_context ([] : ContentMap) t with
  | Done (Ok _) s t =>
      match rebuild_prefix 0 demo_id (lit "/") s t with
      | Done (Ok tt) _ t' =>
          (load_tracked_root demo_id (lit "/") t, bool_decide (is_Some (load_tracked_root demo_id (lit "/") t')))
      | _ => (None, false)
      end
  | _ => (None, false)
  end = (None, true).
Proof. vm_compute. reflexivity. Qed.
