(* ===== verification/Tree.v ===== *)
(** The tree handler ([core/tree/src/lib.rs]): get, put, snapshot, diff, merge and extract over a
    content store and a location index.

    A refusal is its status and its code; texts are left out.  [fuel] bounds the walks over tries,
    which the code runs on its stack. *)
From S2P Require Import Prelude BTree Ecf Cbor ContentHash Paths Entity Walker Wire Identity Capability.
From S2P Require Import CapabilityCodec Store Trie Index Handler.

Definition TYPE_TREE_PUT_RESULT : list Z := lit "system/tree/put-result".
Definition TYPE_TREE_LISTING : list Z := lit "system/tree/listing".
Definition TYPE_TREE_SNAPSHOT : list Z := lit "system/tree/snapshot".
Definition TYPE_TREE_DIFF : list Z := lit "system/tree/diff".
Definition TYPE_TREE_MERGE_RESULT : list Z := lit "system/tree/merge-result".
Definition TYPE_TREE_PARTIAL_RESULT : list Z := lit "system/tree/partial-result".
Definition TYPE_ENVELOPE : list Z := lit "system/envelope".

(** * Parameters *)

Definition decode_params `{Ciborium} (ctx : HandlerContext) : option Value := from_reader (data (hc_params ctx)).

(** The first entry under a key. *)
Definition cbor_map_get (m : list (Value * Value)) (key : string) : option Value :=
  snd <$> find_first (λ kv, key_is key kv.1) m.
Definition map_get_text (m : list (Value * Value)) (key : string) : option (list Z) := v ← cbor_map_get m key; as_str v.
Definition map_get_bool (m : list (Value * Value)) (key : string) : option bool := v ← cbor_map_get m key; as_bool_val v.
Definition map_get_bytes (m : list (Value * Value)) (key : string) : option (list Z) := v ← cbor_map_get m key; as_bytes v.
Definition map_get_array (m : list (Value * Value)) (key : string) : option (list Value) := v ← cbor_map_get m key; as_array v.

(** [params.as_ref().and_then(|p| { let map = p.as_map()?; .. })] *)
Definition params_get {A} (params : option Value) (f : list (Value * Value) → option A) : option A :=
  p ← params; m ← as_map p; f m.

Definition validate_prefix (prefix : list Z) : bool :=
  bool_decide (prefix = []) || match strip_suffix [ch_slash] prefix with Some _ => true | None => false end.

Definition validate_extract_subpath (entry : list Z) : bool :=
  if bool_decide (entry = []) then false
  else if starts_with entry [ch_slash] then false
  else if has_control entry then false
  else is_ok (validate_path_input entry).

Definition validate_tree_boundary_path (path : list Z) : bool :=
  if has_control path then false else is_ok (validate_absolute_path path).

Definition first_illegal_path_byte (path : list Z) : option Z :=
  find_first (λ b, (b <? 0x20) || (b =? 0x7F)) path.

(** * Submitted entities *)

Inductive PutAdmission := NotAnEntity | UnsupportedContentHashFormat.

Definition PutScan : Type := option (list Z) * option (list Z) * option Hash.

Definition put_step `{CiboriumWrites} (st : PutScan) (kv : Value * Value) : result PutAdmission PutScan :=
  let '(ty, d, h) := st in
  let '(k, v) := kv in
  if key_is "type" k then
    s ← ok_or NotAnEntity (as_str v);
    if bool_decide (s = []) then Err NotAnEntity else Ok (Some s, d, h)
  else if key_is "data" k then
    buf ← ok_or NotAnEntity (into_writer v);
    Ok (ty, Some buf, h)
  else if key_is "content_hash" k then
    bytes ← ok_or NotAnEntity (as_bytes v);
    hash ← map_err (λ e, match e with
                         | UnsupportedAlgorithm _ | ReservedFormat _ => UnsupportedContentHashFormat
                         | _ => NotAnEntity
                         end) (from_bytes bytes);
    Ok (ty, d, Some hash)
  else Ok st.

Definition decode_entity_from_cbor `{Ciborium} `{CiboriumWrites} (raw : list Z) : result PutAdmission Entity :=
  value ← ok_or NotAnEntity (from_reader raw);
  m ← ok_or NotAnEntity (as_map value);
  st ← foldM put_step (None, None, None) m;
  let '(ty, d, h) := st in
  ty ← ok_or NotAnEntity ty;
  d ← ok_or NotAnEntity d;
  h ← ok_or NotAnEntity h;
  Ok (mkEntity ty d h).

(** * Listings *)

Record ChildInfo := mkChild { ch_hash : option Hash; has_children : bool }.

Definition child_step (prefix : list Z) (children : list (list Z * ChildInfo)) (entry : LocationEntry)
    : list (list Z * ChildInfo) :=
  let rel := default (le_path entry) (strip_prefix prefix (le_path entry)) in
  if bool_decide (rel = []) then children
  else
    let info name := default (mkChild None false) (bt_get name children) in
    match find_byte ch_slash rel with
    | Some slash_idx => let name := take slash_idx rel in bt_insert name (mkChild (ch_hash (info name)) true) children
    | None => bt_insert rel (mkChild (Some (le_hash entry)) (has_children (info rel))) children
    end.

Definition listing_entry (child : list Z * ChildInfo) : Value * Value :=
  (text child.1,
   VMap [(text (lit "has_children"), bool_val (has_children child.2));
         (text (lit "hash"), match ch_hash child.2 with Some h => VBytes (to_bytes h) | None => VNull end)]).

Definition listing_value (prefix : list Z) (children : list (list Z * ChildInfo)) : Value :=
  VMap [(text (lit "count"), integer (Z.of_nat (length children)));
        (text (lit "entries"), VMap (map listing_entry children));
        (text (lit "offset"), integer 0);
        (text (lit "path"), text prefix)].

(** * Differences *)

Record TreeDiff := mkTreeDiff {
  df_added : PathMap; df_changed : list (list Z * (Hash * Hash)); df_removed : PathMap; df_unchanged : Z;
}.

Definition diff_target (base : PathMap) (d : TreeDiff) (kv : list Z * Hash) : TreeDiff :=
  match bt_get kv.1 base with
  | None => mkTreeDiff (bt_insert kv.1 kv.2 (df_added d)) (df_changed d) (df_removed d) (df_unchanged d)
  | Some base_h =>
      if negb (bool_decide (base_h = kv.2)) then
        mkTreeDiff (df_added d) (bt_insert kv.1 (base_h, kv.2) (df_changed d)) (df_removed d) (df_unchanged d)
      else mkTreeDiff (df_added d) (df_changed d) (df_removed d) (df_unchanged d + 1)
  end.

Definition diff_base (target : PathMap) (d : TreeDiff) (kv : list Z * Hash) : TreeDiff :=
  if bool_decide (is_Some (bt_get kv.1 target)) then d
  else mkTreeDiff (df_added d) (df_changed d) (bt_insert kv.1 kv.2 (df_removed d)) (df_unchanged d).

Definition diff_bindings (base target : PathMap) : TreeDiff :=
  foldl (diff_base target) (foldl (diff_target base) (mkTreeDiff [] [] [] 0) target) base.

Definition hash_pair (kv : list Z * Hash) : Value * Value := (text kv.1, VBytes (to_bytes kv.2)).

Definition diff_value (base_hash target_hash : Hash) (d : TreeDiff) : Value :=
  VMap [(text (lit "added"), VMap (map hash_pair (df_added d)));
        (text (lit "base"), VBytes (to_bytes base_hash));
        (text (lit "changed"), VMap (map (λ c, (text c.1,
           VMap [(text (lit "base_hash"), VBytes (to_bytes c.2.1)); (text (lit "target_hash"), VBytes (to_bytes c.2.2))])) (df_changed d)));
        (text (lit "removed"), VMap (map hash_pair (df_removed d)));
        (text (lit "target"), VBytes (to_bytes target_hash));
        (text (lit "unchanged"), integer (df_unchanged d))].

(** * The handler *)

Section tree.
Context `{Sha2} `{Ciborium} `{CiboriumWrites} `{Base58} {St : Type} `{ContentStore St} {L : Type} `{LocationIndex L}.
Context (home : Z) (local_peer_id : list Z) (fuel : nat).

Notation run := (Code HandlerError St L).

Definition qualified_pattern : list Z := lit "/" ++ local_peer_id ++ lit "/system/tree".

Definition build_execution_context (ctx : HandlerContext) : ExecutionContext :=
  mkContext (b ← hc_bounds ctx; b_chain_id b) (hc_author ctx) (hc_capability_hash ctx) (Some (hc_request_id ctx)) 0
    (hc_capability_hash ctx) (hc_handler_grant_hash ctx) (Some (strip_peer_prefix (hc_pattern ctx)))
    (Some (hc_operation ctx)) (b ← hc_bounds ctx; b_parent_chain_id b) None.

(** [Some] is the refusal. *)
Definition authorize_path (ctx : HandlerContext) (base_permission path : list Z) : option Reply :=
  if negb (is_external ctx) then None
  else match hc_caller_capability ctx with
       | None => None
       | Some cap =>
           match resolve_granter_peer_id (granter cap) local_peer_id (λ h, hc_included ctx !! h) with
           | None => Some (Refused STATUS_FORBIDDEN (lit "capability_denied"))
           | Some granter_peer_id =>
               if check_path_permission base_permission path cap (hc_pattern ctx) local_peer_id granter_peer_id then None
               else Some (Refused STATUS_FORBIDDEN (lit "capability_denied"))
           end
       end.

Definition path_allowed (ctx : HandlerContext) (base_permission path : list Z) : bool :=
  bool_decide (authorize_path ctx base_permission path = None).

Definition cap_filter_active (ctx : HandlerContext) : bool :=
  is_external ctx && bool_decide (is_Some (hc_caller_capability ctx)).

(** ** The store behind paths *)

Definition tree_get (path : list Z) (s : St) (t : L) : option Entity := hash ← li_get path t; store_get hash s.
Definition get_by_hash (h : Hash) (s : St) : option Entity := store_get h s.
Definition tree_put (path : list Z) (entity : Entity) : run Hash :=
  hash <~ stores Internal entity;;
  _ <~ writes (li_set path hash);;
  returns hash.
Definition tree_list (prefix : list Z) (t : L) : list LocationEntry := li_list prefix t.
Definition tree_remove (path : list Z) : run (option Entity) :=
  removed <~ updates (li_remove path);;
  asks (λ s _, hash ← removed; store_get hash s).

(** [bare.trim_end_matches('/')] *)
Fixpoint trim_end_slashes (rev_path : list Z) : list Z :=
  match rev_path with
  | c :: l => if c =? ch_slash then trim_end_slashes l else rev_path
  | [] => []
  end.

Definition lookup_tracked_root (qualified_prefix : list Z) (t : L) : option Hash :=
  bare ← strip_prefix (lit "/" ++ local_peer_id ++ lit "/") qualified_prefix;
  li_get (lit "/" ++ local_peer_id ++ lit "/system/tree/root/" ++ reverse (trim_end_slashes (reverse bare))) t.

(** ** Replies *)

Definition reply_with (ty : list Z) (v : Value) : run Reply :=
  entity <~ tries (map_err (λ _, Internal) (entity_new home ty (to_ecf v)));;
  returns (Answered (handler_ok entity)).

Definition refuses (st : Z) (code : string) : run Reply := returns (Refused st (lit code)).

Definition partial_value (cr : CascadeResult) : Value :=
  VMap [(text (lit "binding_committed"), bool_val (binding_committed cr));
        (text (lit "cascade_depth"), VInteger (cascade_depth cr));
        (text (lit "consumers_completed"), VArray (map text (consumers_completed cr)));
        (text (lit "consumers_halted"), VArray (map (λ h,
           VMap [(text (lit "name"), text (consumer_name h));
                 (text (lit "error"), VMap [(text (lit "code"), text (error_message h)); (text (lit "status"), VInteger (error_code h))])])
           (consumers_halted cr)));
        (text (lit "consumers_skipped"), VArray (map text (consumers_skipped cr)))].

(** [expect] on its entity *)
Definition build_partial_result (cr : CascadeResult) : run Reply :=
  entity <~ unwraps (ok (entity_new home TYPE_TREE_PARTIAL_RESULT (to_ecf (partial_value cr))));;
  returns (Answered (handler_error STATUS_MULTI_STATUS entity)).

(** ** Get *)

(** A child whose binding is a deletion marker loses it. *)
Definition unmarked (s : St) (info : ChildInfo) : ChildInfo :=
  if match h ← ch_hash info; store_get h s with
     | Some e => bool_decide (entity_type e = TYPE_DELETION_MARKER)
     | None => false
     end
  then mkChild None (has_children info) else info.

Definition listed (info : ChildInfo) : bool := bool_decide (is_Some (ch_hash info)) || has_children info.

Definition listing_children (prefix : list Z) (ctx : option HandlerContext) (s : St) (t : L) : list (list Z * ChildInfo) :=
  let children := foldl (child_step prefix) [] (li_list prefix t) in
  let children := filter (λ c, listed c.2 = true) (map (λ c, (c.1, unmarked s c.2)) children) in
  match ctx with
  | Some ctx => filter (λ c, path_allowed ctx (lit "get") (prefix ++ c.1) = true) children
  | None => children
  end.

Definition listing_inner (prefix : list Z) (ctx : option HandlerContext) : run Reply :=
  children <~ asks (listing_children prefix ctx);;
  reply_with TYPE_TREE_LISTING (listing_value prefix children).

Definition handle_listing_filtered (ctx : HandlerContext) (prefix : list Z) : run Reply := listing_inner prefix (Some ctx).
Definition handle_listing (prefix : list Z) : run Reply := listing_inner prefix None.

Definition handle_get (ctx : HandlerContext) : run Reply :=
  match single_effective_target (hc_resource_target ctx) local_peer_id with
  | inl refusal => returns refusal
  | inr SelfExcluded => returns self_excluded_refusal
  | inr subject =>
      let target_path := match subject with One p => p | _ => hc_pattern ctx ++ hc_suffix ctx end in
      match authorize_path ctx (lit "get") target_path with
      | Some refusal => returns refusal
      | None =>
          if validate_prefix target_path then handle_listing_filtered ctx target_path
          else
            entity <~ asks (tree_get target_path);;
            match entity with
            | Some entity => returns (Answered (handler_ok entity))
            | None => refuses STATUS_NOT_FOUND "not_found"
            end
      end
  end.

(** ** Put *)

(** The precondition of a request: no hash, bytes that are one, or something else. *)
Definition expected_hash (params : option Value) : result HandlerError (Reply + option Hash) :=
  match params_get params (λ m, cbor_map_get m "expected_hash") with
  | None | Some VNull => Ok (inr None)
  | Some v =>
      match as_bytes v with
      | Some bytes => h ← map_err (λ _, InvalidParams) (from_bytes bytes); Ok (inr (Some h))
      | None => Ok (inl (Refused STATUS_BAD_REQUEST (lit "invalid_params")))
      end
  end.

Definition is_remove (entity_value : option Value) : bool :=
  match entity_value with
  | None | Some VNull | Some (VBytes []) => true
  | _ => false
  end.

Definition hash_mismatch : run Reply := refuses STATUS_CONFLICT "hash_mismatch".

Definition removed_value (removed : bool) : Value := VMap [(text (lit "removed"), bool_val removed)].

Definition remove_binding (ctx : HandlerContext) (path : list Z) (expected : option Hash) : run Reply :=
  let emit_ctx := build_execution_context ctx in
  outcome <~
    match expected with
    | Some expected =>
        outcome <~ updates (li_cas_remove_ctx path expected emit_ctx);;
        returns (r ← outcome; Ok (Some r.1, r.2))
    | None =>
        outcome <~ updates (li_remove_ctx path emit_ctx);;
        returns (Ok outcome)
    end;;
  match outcome with
  | Ok (Some _, cascade) =>
      if negb (is_complete cascade) then build_partial_result cascade
      else reply_with TYPE_TREE_PUT_RESULT (removed_value true)
  | Ok (None, _) => refuses STATUS_NOT_FOUND "not_found"
  | Err _ => hash_mismatch
  end.

(** An expected hash of zeroes asks for no binding at all. *)
Definition put_remove (ctx : HandlerContext) (path : list Z) (expected : option Hash) : run Reply :=
  if match expected with Some e => is_zero e | None => false end then
    actual <~ asks (λ _ t, li_get path t);;
    match actual with
    | None => reply_with TYPE_TREE_PUT_RESULT (removed_value false)
    | Some _ => hash_mismatch
    end
  else remove_binding ctx path expected.

Definition put_bind (ctx : HandlerContext) (path : list Z) (expected : option Hash) (entity : Entity) : run Reply :=
  stored_hash <~ stores Internal entity;;
  let emit_ctx := build_execution_context ctx in
  outcome <~
    match expected with
    | Some expected =>
        if is_zero expected then updates (li_create_ctx path stored_hash emit_ctx)
        else updates (li_swap_ctx path expected stored_hash emit_ctx)
    | None =>
        cascade <~ updates (li_set_ctx path stored_hash emit_ctx);;
        returns (Ok cascade)
    end;;
  match outcome with
  | Err _ => hash_mismatch
  | Ok cascade =>
      if negb (is_complete cascade) then build_partial_result cascade
      else reply_with TYPE_TREE_PUT_RESULT (VMap [(text (lit "content_hash"), VBytes (to_bytes stored_hash))])
  end.

(** What is submitted is an entity first, and then its hash is right. *)
Definition admit_entity (entity_value : Value) : result HandlerError (Reply + Entity) :=
  raw ← ok_or Internal (into_writer entity_value);
  match decode_entity_from_cbor raw with
  | Err NotAnEntity => Ok (inl (Refused STATUS_BAD_REQUEST (lit "invalid_request")))
  | Err UnsupportedContentHashFormat => Ok (inl (Refused STATUS_BAD_REQUEST (lit "unsupported_content_hash_format")))
  | Ok entity =>
      match entity_validate entity with
      | Ok _ => Ok (inr entity)
      | Err (EntityHashMismatch _ _) => Ok (inl (Refused STATUS_BAD_REQUEST (lit "hash_mismatch")))
      | Err _ => Ok (inl (Refused STATUS_BAD_REQUEST (lit "invalid_request")))
      end
  end.

(** What a request asks for: under which precondition, and what to bind, if anything. *)
Definition put_request (ctx : HandlerContext) : result HandlerError (Reply + option Hash * option Entity) :=
  let params := decode_params ctx in
  let entity_value := params_get params (λ m, cbor_map_get m "entity") in
  expected ← expected_hash params;
  match expected with
  | inl refusal => Ok (inl refusal)
  | inr expected =>
      match entity_value with
      | Some v =>
          if is_remove entity_value then Ok (inr (expected, None))
          else
            entity ← admit_entity v;
            Ok match entity with inl refusal => inl refusal | inr entity => inr (expected, Some entity) end
      | None => Ok (inr (expected, None))
      end
  end.

(** The path it may write to. *)
Definition put_path (ctx : HandlerContext) : Reply + list Z :=
  match require_single_resource_path (hc_resource_target ctx) local_peer_id with
  | inl refusal => inl refusal
  | inr path =>
      match authorize_path ctx (lit "put") path with
      | Some refusal => inl refusal
      | None =>
          match first_illegal_path_byte path with
          | Some _ => inl (Refused STATUS_BAD_REQUEST (lit "invalid_path"))
          | None => inr path
          end
      end
  end.

Definition handle_put (ctx : HandlerContext) : run Reply :=
  match put_path ctx with
  | inl refusal => returns refusal
  | inr path =>
      request <~ tries (put_request ctx);;
      match request with
      | inl refusal => returns refusal
      | inr (expected, None) => put_remove ctx path expected
      | inr (expected, Some entity) => put_bind ctx path expected entity
      end
  end.

(** ** Snapshot *)

Definition snapshot_value (root_hash : Hash) : Value := VMap [(text (lit "root"), VBytes (to_bytes root_hash))].

(** The subject of an operation whose resource is optional: its target, or what the parameters say. *)
Definition subject_or (ctx : HandlerContext) (fallback : list Z) : Reply + list Z :=
  match single_effective_target (hc_resource_target ctx) local_peer_id with
  | inl refusal => inl refusal
  | inr (One p) => inr p
  | inr SelfExcluded => inl self_excluded_refusal
  | inr Absent => inr fallback
  end.

(** The entries under a prefix, relative to it, that the capability may get. *)
Definition snapshot_bindings (ctx : HandlerContext) (prefix : list Z) (t : L) : PathMap :=
  foldl (λ bindings entry,
    if cap_filter_active ctx && negb (path_allowed ctx (lit "get") (le_path entry)) then bindings
    else bt_insert (default (le_path entry) (strip_prefix prefix (le_path entry))) (le_hash entry) bindings)
    [] (li_list prefix t).

Definition build_in_store (bindings : PathMap) : run Hash := in_store (λ _, Internal) (build_trie home bindings).

Definition snapshot_of (ctx : HandlerContext) (prefix : list Z) : run Reply :=
  tracked <~ asks (λ _ t, if cap_filter_active ctx then None else lookup_tracked_root prefix t);;
  match tracked with
  | Some tracked => reply_with TYPE_TREE_SNAPSHOT (snapshot_value tracked)
  | None =>
      bindings <~ asks (λ _ t, snapshot_bindings ctx prefix t);;
      root_hash <~ build_in_store bindings;;
      reply_with TYPE_TREE_SNAPSHOT (snapshot_value root_hash)
  end.

(** The prefix a request may take a snapshot of. *)
Definition snapshot_request (ctx : HandlerContext) : Reply + list Z :=
  match subject_or ctx (default [] (params_get (decode_params ctx) (λ m, map_get_text m "prefix"))) with
  | inl refusal => inl refusal
  | inr prefix =>
      if negb (validate_prefix prefix) then inl (Refused STATUS_BAD_REQUEST (lit "invalid_prefix"))
      else match authorize_path ctx (lit "get") prefix with Some refusal => inl refusal | None => inr prefix end
  end.

Definition handle_snapshot (ctx : HandlerContext) : run Reply :=
  match snapshot_request ctx with inl refusal => returns refusal | inr prefix => snapshot_of ctx prefix end.

(** ** Diff *)

(** The legacy form, with its bindings inline. *)
Definition flat_bindings (m : list (Value * Value)) : option PathMap :=
  fold_opt (λ acc kv, path ← as_str kv.1; b ← as_bytes kv.2; h ← ok (from_bytes b); Some (bt_insert path h acc)) [] m.

Definition decode_snapshot_bindings_with_store (d : list Z) : run (option PathMap) :=
  match v ← from_reader d; as_map v with
  | None => returns None
  | Some m =>
      match b ← cbor_map_get m "root"; b ← as_bytes b; ok (from_bytes b) with
      | Some root_hash =>
          collected <~ asks (λ s _, collect_all_bindings fuel root_hash s);;
          bindings <~ unwraps collected;;
          returns (Some bindings)
      | None => returns (b ← cbor_map_get m "bindings"; b ← as_map b; flat_bindings b)
      end
  end.

Definition params_of (ctx : HandlerContext) : result HandlerError (list (Value * Value)) :=
  params ← ok_or InvalidParams (decode_params ctx); ok_or InvalidParams (as_map params).

Definition hash_param (m : list (Value * Value)) (key : string) : result HandlerError Hash :=
  b ← ok_or InvalidParams (map_get_bytes m key); map_err (λ _, InvalidParams) (from_bytes b).

Definition resolve_snapshot (ctx : HandlerContext) (h : Hash) (s : St) : option Entity :=
  match store_get h s with Some e => Some e | None => hc_included ctx !! h end.

Definition handle_diff (ctx : HandlerContext) : run Reply :=
  m <~ tries (params_of ctx);;
  base_hash <~ tries (hash_param m "base");;
  target_hash <~ tries (hash_param m "target");;
  base_entity <~ asks (λ s _, resolve_snapshot ctx base_hash s);;
  match base_entity with
  | None => refuses STATUS_NOT_FOUND "snapshot_not_found"
  | Some base_entity =>
      target_entity <~ asks (λ s _, resolve_snapshot ctx target_hash s);;
      match target_entity with
      | None => refuses STATUS_NOT_FOUND "snapshot_not_found"
      | Some target_entity =>
          base_bindings <~ decode_snapshot_bindings_with_store (data base_entity);;
          base_bindings <~ tries (ok_or InvalidParams base_bindings);;
          target_bindings <~ decode_snapshot_bindings_with_store (data target_entity);;
          target_bindings <~ tries (ok_or InvalidParams target_bindings);;
          reply_with TYPE_TREE_DIFF (diff_value base_hash target_hash (diff_bindings base_bindings target_bindings))
      end
  end.

(** ** Merge *)

Definition bad_envelope : Reply := Refused STATUS_BAD_REQUEST (lit "hash_mismatch").

(** Each entity is checked, then stored, before the next. *)
Fixpoint ingest_included (l : list Entity) : run (option Reply) :=
  match l with
  | [] => returns None
  | entity :: l =>
      if is_ok (entity_validate entity) then _ <~ stores Internal entity;; ingest_included l
      else returns (Some bad_envelope)
  end.

(** The envelope itself, or an entity whose data it is. *)
Definition envelope_bytes (raw : list Z) : list Z :=
  match cbor_map_field_raw raw (lit "type"), cbor_map_field_raw raw (lit "data") with
  | Some _, Some d => d
  | _, _ => raw
  end.

(** The envelope of the parameters, from their bytes, and the hash of its root. *)
Definition ingest_source_envelope (ctx : HandlerContext) : run (Reply + Hash) :=
  raw <~ tries (ok_or InvalidParams (cbor_map_field_raw (data (hc_params ctx)) (lit "source_envelope")));;
  match decode_envelope (envelope_bytes raw) with
  | Err (IncludedKeyMismatch _ _) => returns (inl bad_envelope)
  | Err _ => returns (inl (Refused STATUS_BAD_REQUEST (lit "invalid_params")))
  | Ok envelope =>
      refused <~ ingest_included (map snd (included envelope));;
      match refused with
      | Some refusal => returns (inl refusal)
      | None =>
          if is_ok (entity_validate (root envelope)) then
            root_hash <~ stores Internal (root envelope);;
            returns (inr root_hash)
          else returns (inl bad_envelope)
      end
  end.

(** The hash of the source: the one given unless it is zero, or that of the envelope. *)
Definition merge_source (ctx : HandlerContext) (m : list (Value * Value)) : run (Reply + Hash) :=
  source_hash <~ tries (match map_get_bytes m "source" with
                        | Some b => h ← map_err (λ _, InvalidParams) (from_bytes b);
                                    Ok (if is_zero h then None else Some h)
                        | None => Ok None
                        end);;
  match source_hash with
  | Some h => returns (inr h)
  | None =>
      if bool_decide (is_Some (cbor_map_get m "source_envelope")) then ingest_source_envelope ctx
      else throws InvalidParams
  end.

Definition STRATEGIES : list (list Z) := [lit "no-overwrite"; lit "source-wins"; lit "target-wins"].

(** The peer's segment of the handler's pattern. *)
Definition pattern_namespace (ctx : HandlerContext) : list Z :=
  first_segment (default (hc_pattern ctx) (strip_prefix [ch_slash] (hc_pattern ctx))).

Definition merge_qualify (ctx : HandlerContext) (p : list Z) : list Z :=
  if bool_decide (p = []) || negb (is_peer_id (pattern_namespace ctx)) then p
  else if starts_with p [ch_slash] || starts_with p (lit "entity://") then p
  else lit "/" ++ pattern_namespace ctx ++ lit "/" ++ p.

Definition apply_prefix (ctx : HandlerContext) (source_prefix target_prefix : list Z) : list Z :=
  if negb (bool_decide (target_prefix = [])) then merge_qualify ctx target_prefix
  else if negb (bool_decide (source_prefix = [])) then merge_qualify ctx source_prefix
  else [].

Record TreeMerge := mkTreeMerge {
  mg_applied : Z; mg_skipped : Z; mg_conflicts : list (list Z * (Hash * Hash * list Z));
}.

(** One binding of the source against the live tree. *)
Definition merge_binding (ctx : HandlerContext) (prefix strategy : list Z) (dry : bool) (m : TreeMerge) (kv : list Z * Hash)
    : run TreeMerge :=
  let target_path := prefix ++ kv.1 in
  let bind_source : run unit :=
    if dry then skip
    else _ <~ updates (li_set_ctx target_path kv.2 (build_execution_context ctx));; skip in
  let conflict existing resolution := bt_insert target_path (existing, kv.2, lit resolution) (mg_conflicts m) in
  existing <~ asks (λ _ t, li_get target_path t);;
  match existing with
  | None => _ <~ bind_source;; returns (mkTreeMerge (mg_applied m + 1) (mg_skipped m) (mg_conflicts m))
  | Some existing_h =>
      if bool_decide (existing_h = kv.2) then returns (mkTreeMerge (mg_applied m) (mg_skipped m + 1) (mg_conflicts m))
      else if bool_decide (strategy = lit "source-wins") then
        _ <~ bind_source;;
        returns (mkTreeMerge (mg_applied m + 1) (mg_skipped m) (conflict existing_h "used-incoming"))
      else if bool_decide (strategy = lit "target-wins") then
        returns (mkTreeMerge (mg_applied m) (mg_skipped m + 1) (conflict existing_h "kept-existing"))
      else returns (mkTreeMerge (mg_applied m) (mg_skipped m + 1) (conflict existing_h "unresolved"))
  end.

Definition merge_value (strategy : list Z) (m : TreeMerge) : Value :=
  VMap [(text (lit "applied"), integer (mg_applied m));
        (text (lit "conflicts"), VMap (map (λ c, (text c.1,
           VMap [(text (lit "existing_hash"), VBytes (to_bytes c.2.1.1));
                 (text (lit "incoming_hash"), VBytes (to_bytes c.2.1.2));
                 (text (lit "resolution"), text c.2.2)])) (mg_conflicts m)));
        (text (lit "skipped"), integer (mg_skipped m));
        (text (lit "strategy"), text strategy)].

(** Every path is checked, and then authorized, before any is written. *)
Definition merge_refusal (ctx : HandlerContext) (merge_targets : list (list Z)) : option Reply :=
  if is_peer_id (pattern_namespace ctx) && negb (forallb validate_tree_boundary_path merge_targets)
  then Some (Refused STATUS_BAD_REQUEST (lit "invalid_path"))
  else head (omap (authorize_path ctx (lit "put")) merge_targets).

Definition merge_bindings (ctx : HandlerContext) (prefix strategy : list Z) (dry : bool) (source_bindings : PathMap) : run Reply :=
  match merge_refusal ctx (map (λ kv, prefix ++ kv.1) source_bindings) with
  | Some refusal => returns refusal
  | None =>
      merged <~ fold_run (merge_binding ctx prefix strategy dry) (mkTreeMerge 0 0 []) source_bindings;;
      reply_with TYPE_TREE_MERGE_RESULT (merge_value strategy merged)
  end.

Definition handle_merge (ctx : HandlerContext) : run Reply :=
  m <~ tries (params_of ctx);;
  source_hash <~ merge_source ctx m;;
  match source_hash with
  | inl refusal => returns refusal
  | inr source_hash =>
      let strategy := default (lit "no-overwrite") (map_get_text m "strategy") in
      if negb (bool_decide (strategy ∈ STRATEGIES)) then refuses STATUS_BAD_REQUEST "invalid_params"
      else
        source_entity <~ asks (λ s _, resolve_snapshot ctx source_hash s);;
        match source_entity with
        | None => refuses STATUS_NOT_FOUND "snapshot_not_found"
        | Some source_entity =>
            source_bindings <~ decode_snapshot_bindings_with_store (data source_entity);;
            source_bindings <~ tries (ok_or InvalidParams source_bindings);;
            merge_bindings ctx
              (apply_prefix ctx (default [] (map_get_text m "source_prefix")) (default [] (map_get_text m "target_prefix")))
              strategy (default false (map_get_bool m "dry_run")) source_bindings
        end
  end.

(** ** Extract *)

(** [None] without a filter, or with one that names no text. *)
Definition paths_filter (params : option Value) : option (list (list Z)) :=
  paths ← params_get params (λ m, map_get_array m "paths");
  let paths := omap as_str paths in
  if bool_decide (paths = []) then None else Some paths.

Definition extract_bindings (ctx : HandlerContext) (prefix : list Z) (paths : option (list (list Z))) (t : L) : PathMap :=
  let bindings :=
    match paths with
    | Some paths =>
        foldl (λ acc rel_path, match li_get (prefix ++ rel_path) t with
                               | Some hash => bt_insert rel_path hash acc
                               | None => acc
                               end) [] paths
    | None =>
        foldl (λ acc e, bt_insert (default (le_path e) (strip_prefix prefix (le_path e))) (le_hash e) acc) [] (li_list prefix t)
    end in
  filter (λ kv, path_allowed ctx (lit "get") (prefix ++ kv.1) = true) bindings.

(** The snapshot, the nodes of its trie, and the entities it binds. *)
Definition extract_envelope (snapshot : Entity) (bindings : PathMap) (trie_hashes : list Hash) (s : St) : Envelope :=
  let node_hashes := filter (λ h, h ∉ map snd bindings ∧ h ≠ content_hash snapshot) trie_hashes in
  foldl include (include (envelope_new snapshot) snapshot)
    (omap (λ h, store_get h s) (node_hashes ++ map snd bindings)).

Definition extract_at (ctx : HandlerContext) (prefix : list Z) (paths : option (list (list Z))) : run Reply :=
  bindings <~ asks (λ _ t, extract_bindings ctx prefix paths t);;
  root_hash <~ build_in_store bindings;;
  snapshot <~ tries (map_err (λ _, Internal) (entity_new home TYPE_TREE_SNAPSHOT (to_ecf (snapshot_value root_hash))));;
  hashes <~ asks (λ s _, collect_all_hashes fuel root_hash s);;
  hashes <~ unwraps hashes;;
  envelope <~ asks (λ s _, extract_envelope snapshot bindings (elements hashes) s);;
  entity <~ tries (map_err (λ _, Internal) (entity_new home TYPE_ENVELOPE (encode_envelope envelope)));;
  returns (Answered (handler_ok entity)).

(** The prefix a request may extract, and its filter, of which every entry is checked first. *)
Definition extract_request (ctx : HandlerContext) : Reply + list Z * option (list (list Z)) :=
  let params := decode_params ctx in
  match subject_or ctx (default [] (raw ← params_get params (λ m, map_get_text m "prefix"); Some (qualify_path raw local_peer_id))) with
  | inl refusal => inl refusal
  | inr prefix =>
      if negb (validate_prefix prefix) then inl (Refused STATUS_BAD_REQUEST (lit "invalid_prefix"))
      else match authorize_path ctx (lit "get") prefix with
           | Some refusal => inl refusal
           | None =>
               let paths := paths_filter params in
               if match paths with Some l => negb (forallb validate_extract_subpath l) | None => false end
               then inl (Refused STATUS_BAD_REQUEST (lit "invalid_path"))
               else inr (prefix, paths)
           end
  end.

Definition handle_extract (ctx : HandlerContext) : run Reply :=
  match extract_request ctx with inl refusal => returns refusal | inr (prefix, paths) => extract_at ctx prefix paths end.

(** * Dispatch *)

Definition handle (ctx : HandlerContext) : run Reply :=
  let op := hc_operation ctx in
  if bool_decide (op = lit "get") then handle_get ctx
  else if bool_decide (op = lit "put") then handle_put ctx
  else if bool_decide (op = lit "snapshot") then handle_snapshot ctx
  else if bool_decide (op = lit "diff") then handle_diff ctx
  else if bool_decide (op = lit "merge") then handle_merge ctx
  else if bool_decide (op = lit "extract") then handle_extract ctx
  else refuses STATUS_NOT_SUPPORTED "unsupported_operation".
End tree.
