(* ===== verification/TreeOps.v ===== *)
(** What the operations of the tree handler do to the tree and what they show of it. *)
From S2P Require Import Prelude BTree Ecf Cbor ContentHash Paths Entity Walker Wire Identity Capability.
From S2P Require Import CapabilityCodec Store Trie Index Handler TrieSpec RootTracker Tree.

(** * Bindings a caller may see *)

Section visible.
Context `{Sha2} `{Ciborium} `{Base58} (local_peer_id : list Z).

Notation allowed := (path_allowed local_peer_id).

(** Without an active filter everything is allowed. *)
Lemma allowed_unfiltered ctx perm p : cap_filter_active ctx = false → allowed ctx perm p = true.
Proof.
  unfold cap_filter_active, path_allowed, authorize_path. destruct (is_external ctx); [|done].
  by destruct (hc_caller_capability ctx).
Qed.

Lemma relative_entry (t : PathMap) q e : e ∈ index_list t q → default (le_path e) (strip_prefix q (le_path e)) = drop (length q) (le_path e).
Proof.
  unfold index_list. intros ([k v] & -> & Hin)%list_elem_of_fmap. cbn [le_path fst].
  assert (Hq : q `prefix_of` k).
  { revert Hin. unfold prefix_range. induction (range_from q t) as [|[k' v'] l IH]; cbn [take_while]; [by intros ?%elem_of_nil|].
    cbn [fst]. destruct (starts_with k' q) eqn:E; [|by intros ?%elem_of_nil]. intros [[= -> ->]|]%elem_of_cons; [by apply starts_with_true|auto]. }
  destruct Hq as [r ->]. by rewrite strip_prefix_app, drop_app_length.
Qed.

Lemma foldl_ext_in {A B} (f g : B → A → B) l : (∀ x b, x ∈ l → f b x = g b x) → ∀ b, foldl f b l = foldl g b l.
Proof.
  induction l as [|x l IH]; intros Hfg b; [done|]. cbn. rewrite Hfg by by left. apply IH. intros y c Hy. apply Hfg. by right.
Qed.

(** A snapshot is taken of the bindings the caller may get. *)
Lemma snapshot_bindings_get ctx q (t : PathMap) :
  bt_ok t →
  bt_ok (snapshot_bindings local_peer_id ctx q t)
  ∧ ∀ rel, bt_get rel (snapshot_bindings local_peer_id ctx q t)
           = if allowed ctx (lit "get") (q ++ rel) then bt_get (q ++ rel) t else None.
Proof.
  intros Ht. destruct (relative_bindings (λ p, negb (allowed ctx (lit "get") p)) q t Ht) as [Hok Hget].
  assert (Heq : snapshot_bindings local_peer_id ctx q t
    = foldl (λ b e, if negb (allowed ctx (lit "get") (le_path e)) then b
                    else bt_insert (drop (length q) (le_path e)) (le_hash e) b) [] (index_list t q)).
  { unfold snapshot_bindings. apply foldl_ext_in. intros e b He. rewrite (relative_entry t q e He).
    destruct (cap_filter_active ctx) eqn:Ec; [done|]. by rewrite (allowed_unfiltered _ _ _ Ec). }
  rewrite Heq. split; [exact Hok|]. intros rel. rewrite Hget. by destruct (allowed _ _ _).
Qed.

(** So is an extract, of those its filter names. *)
Definition asked (paths : option (list (list Z))) (rel : list Z) : bool :=
  match paths with Some l => bool_decide (rel ∈ l) | None => true end.

Lemma named_bindings_get q (t : PathMap) l : ∀ acc, bt_ok acc →
  let r := foldl (λ acc rel_path, match li_get (q ++ rel_path) t with
                                  | Some hash => bt_insert rel_path hash acc
                                  | None => acc
                                  end) acc l in
  bt_ok r ∧ ∀ rel, bt_get rel r = if bool_decide (rel ∈ l) then match bt_get (q ++ rel) t with Some h => Some h | None => bt_get rel acc end
                                  else bt_get rel acc.
Proof.
  induction l as [|x l IH]; intros acc Hacc; cbn [foldl]; [split; [done|]; intros rel; by rewrite bool_decide_eq_false_2 by apply not_elem_of_nil|].
  set (acc' := match li_get (q ++ x) t with Some hash => bt_insert x hash acc | None => acc end).
  assert (Hacc' : bt_ok acc' ∧ ∀ rel, bt_get rel acc' = if decide (rel = x) then match bt_get (q ++ x) t with Some h => Some h | None => bt_get x acc end else bt_get rel acc).
  { unfold acc'. change (li_get (q ++ x) t) with (bt_get (q ++ x) t). destruct (bt_get (q ++ x) t) as [h|].
    - split; [by apply bt_insert_ok|]. intros rel. case_decide as Hd; [subst; by apply bt_get_insert_eq|by apply bt_get_insert_ne].
    - split; [done|]. intros rel. case_decide as Hd; by subst. }
  destruct Hacc' as [Hok Hg]. destruct (IH acc' Hok) as [Hr Hget]. split; [exact Hr|]. intros rel. rewrite Hget, Hg.
  destruct (decide (rel = x)) as [->|Hne].
  - rewrite (bool_decide_eq_true_2 (x ∈ x :: l)) by left. destruct (bt_get (q ++ x) t); [by destruct (bool_decide _)|by destruct (bool_decide _)].
  - case_bool_decide as Hl; [by rewrite bool_decide_eq_true_2 by by right|]. rewrite bool_decide_eq_false_2; [done|].
    by intros [?|?]%elem_of_cons.
Qed.

Lemma extract_bindings_get ctx q paths (t : PathMap) :
  bt_ok t →
  bt_ok (extract_bindings local_peer_id ctx q paths t)
  ∧ ∀ rel, bt_get rel (extract_bindings local_peer_id ctx q paths t)
           = if allowed ctx (lit "get") (q ++ rel) && asked paths rel then bt_get (q ++ rel) t else None.
Proof.
  intros Ht. unfold extract_bindings.
  set (all := match paths with Some paths => _ | None => _ end).
  assert (Hall : bt_ok all ∧ ∀ rel, bt_get rel all = if asked paths rel then bt_get (q ++ rel) t else None).
  { unfold all, asked. destruct paths as [l|].
    - destruct (named_bindings_get q t l [] ltac:(constructor)) as [Hok Hg]. split; [exact Hok|]. intros rel. rewrite Hg.
      case_bool_decide; [by destruct (bt_get _ t)|done].
    - destruct (relative_bindings (λ _, false) q t Ht) as [Hok Hg].
      assert (Heq : foldl (λ acc e, bt_insert (default (le_path e) (strip_prefix q (le_path e))) (le_hash e) acc) [] (li_list q t)
        = foldl (λ b e, if false then b else bt_insert (drop (length q) (le_path e)) (le_hash e) b) [] (index_list t q)).
      { apply foldl_ext_in. intros e b He. by rewrite (relative_entry t q e He). }
      rewrite Heq. by split. }
  destruct Hall as [Hok Hg]. split; [by apply bt_filter_ok|]. intros rel.
  pose proof (bt_get_filter (λ k, allowed ctx (lit "get") (q ++ k) = true) all rel Hok) as Hf.
  etrans; [exact Hf|]. rewrite Hg.
  case_decide as Ha; [by rewrite Ha|]. by rewrite (not_true_is_false _ Ha).
Qed.
End visible.

(** * Listings *)

(** Mapping the values keeps the order of the keys. *)
Lemma bt_map_ok {V W} (g : V → W) (m : list (list Z * V)) : bt_ok m → bt_ok (map (λ c, (c.1, g c.2)) m).
Proof.
  induction 1 as [|p m Hm IH Hp]; [constructor|]. cbn [map]. constructor; [exact IH|]. apply Forall_forall.
  intros q (c & -> & Hc)%list_elem_of_fmap. exact (proj1 (Forall_forall _ _) Hp c Hc).
Qed.

Section listings.
Context (prefix : list Z).

Notation children := (list (list Z * ChildInfo)).

(** What is known of a name: its own hash, and whether there is something below it. *)
Definition known (m : children) (name : list Z) : option Hash * bool :=
  match bt_get name m with Some i => (ch_hash i, has_children i) | None => (None, false) end.

Definition children_of (l : list LocationEntry) (m : children) : Prop :=
  bt_ok m ∧ (∀ name i, bt_get name m = Some i → listed i = true)
  ∧ (∀ name h, (known m name).1 = Some h ↔ name ≠ [] ∧ ch_slash ∉ name ∧ mkLocation (prefix ++ name) h ∈ l)
  ∧ (∀ name, (known m name).2 = true ↔ ch_slash ∉ name ∧ ∃ rest h, mkLocation (prefix ++ name ++ ch_slash :: rest) h ∈ l).

Lemma known_insert m name name' i : bt_ok m →
  known (bt_insert name i m) name' = if decide (name' = name) then (ch_hash i, has_children i) else known m name'.
Proof.
  intros Hm. unfold known. case_decide as Hd; [subst; by rewrite bt_get_insert_eq|]. by rewrite bt_get_insert_ne by congruence.
Qed.

Lemma slash_split a b (x y : list Z) : ch_slash ∉ a → ch_slash ∉ b → a ++ ch_slash :: x = b ++ ch_slash :: y → a = b ∧ x = y.
Proof.
  revert b. induction a as [|c a IH]; intros [|d b] Ha Hb Heq; cbn in Heq.
  - by simplify_eq.
  - destruct Hb. injection Heq as -> _. by left.
  - destruct Ha. injection Heq as -> _. by left.
  - injection Heq as -> Heq. apply IH in Heq as [-> ->]; [done|set_solver..].
Qed.

Lemma child_step_of l rel h m :
  children_of l m → (∀ h', mkLocation (prefix ++ rel) h' ∉ l) →
  children_of (l ++ [mkLocation (prefix ++ rel) h]) (child_step prefix m (mkLocation (prefix ++ rel) h)).
Proof.
  intros (Hok & Hl & Hh & Hd) Hnew. unfold child_step. cbn [le_path le_hash]. rewrite strip_prefix_app. cbn [default]. unfold id.
  assert (Hmem : ∀ q h', mkLocation (prefix ++ q) h' ∈ l ++ [mkLocation (prefix ++ rel) h]
                         ↔ mkLocation (prefix ++ q) h' ∈ l ∨ q = rel ∧ h' = h).
  { intros q h'. rewrite elem_of_app, list_elem_of_singleton. split; intros [?|Heq]; [by left| |by left|right; by destruct Heq as [-> ->]].
    right. injection Heq as Heq ->. by apply app_inv_head in Heq. }
  case_bool_decide as Hrel.
  { subst rel. split_and!; [done|done| |].
    - intros name h'. rewrite Hh, Hmem. naive_solver.
    - intros name. rewrite Hd. split; intros [? (rest & h' & Hx)]; (split; [done|]); exists rest, h'; [by apply Hmem; left|].
      apply Hmem in Hx as [?|[Hx _]]; [done|]. by destruct name. }
  set (info name := default (mkChild None false) (bt_get name m)).
  assert (Hinfo : ∀ name, (ch_hash (info name), has_children (info name)) = known m name)
    by (intros name; unfold info, known; by destruct (bt_get name m)).
  destruct (find_byte ch_slash rel) as [i|] eqn:Ei.
  - destruct (find_byte_Some _ _ _ Ei) as (Hrs & Hni & _). set (n := take i rel) in *.
    set (c := mkChild (ch_hash (info n)) true). change (children_of (l ++ [mkLocation (prefix ++ rel) h]) (bt_insert n c m)).
    split_and!; [by apply bt_insert_ok| | |].
    + intros name j. destruct (decide (name = n)) as [->|Hne].
      * rewrite bt_get_insert_eq by done. intros [= <-]. unfold listed. cbn. apply orb_true_r.
      * rewrite bt_get_insert_ne by congruence. apply Hl.
    + intros name h'. rewrite known_insert, Hmem by done.
      assert (Heq : (if decide (name = n) then (ch_hash c, has_children c) else known m name).1 = (known m name).1) by (case_decide; [subst; by rewrite <- Hinfo|done]).
      rewrite Heq, Hh. split; [tauto|]. intros (? & Hs & [?|[-> _]]); [done|]. destruct Hs. rewrite Hrs. set_solver.
    + intros name. rewrite known_insert by done. case_decide as Hn.
      * subst name. split; [|done]. intros _. split; [done|]. exists (drop (S i) rel), h. apply Hmem. right. by rewrite <- Hrs.
      * rewrite Hd. split; intros [Hs (rest & h' & Hx)]; (split; [done|]); exists rest, h'; [by apply Hmem; left|].
        apply Hmem in Hx as [?|[Hx _]]; [done|]. rewrite Hrs in Hx. destruct Hn. by apply (slash_split _ _ rest (drop (S i) rel)).
  - assert (Hni : ch_slash ∉ rel) by by apply find_byte_None.
    set (c := mkChild (Some h) (has_children (info rel))). change (children_of (l ++ [mkLocation (prefix ++ rel) h]) (bt_insert rel c m)).
    split_and!; [by apply bt_insert_ok| | |].
    + intros name j. destruct (decide (name = rel)) as [->|Hne].
      * rewrite bt_get_insert_eq by done. intros [= <-]. done.
      * rewrite bt_get_insert_ne by congruence. apply Hl.
    + intros name h'. rewrite known_insert, Hmem by done. case_decide as Hn.
      * subst name. cbn [fst ch_hash]. split; [intros [= <-]; by auto|]. intros (_ & _ & [Hx|[_ ->]]); [|done]. by destruct (Hnew h').
      * rewrite Hh. naive_solver.
    + intros name. rewrite known_insert by done.
      assert (Heq : (if decide (name = rel) then (ch_hash c, has_children c) else known m name).2 = (known m name).2) by (case_decide; [subst; by rewrite <- Hinfo|done]).
      rewrite Heq, Hd. split; intros [Hs (rest & h' & Hx)]; (split; [done|]); exists rest, h'; [by apply Hmem; left|].
      apply Hmem in Hx as [?|[Hx _]]; [done|]. destruct Hni. rewrite <- Hx. set_solver.
Qed.

(** Every child of the listed path is found, with what is known of it. *)
Lemma children_get (t : PathMap) : bt_ok t → children_of (index_list t prefix) (foldl (child_step prefix) [] (index_list t prefix)).
Proof.
  intros Ht. pose proof (bt_keys_NoDup _ (prefix_range_ok t prefix Ht)) as Hnd.
  assert (Hp : Forall (λ kv, prefix `prefix_of` kv.1) (prefix_range t prefix)).
  { apply Forall_forall. intros [k v] Hin. by apply prefix_range_elem in Hin as [_ ?]. }
  unfold index_list. induction (prefix_range t prefix) as [|[k v] l IH] using rev_ind.
  - split_and!; [constructor|done| |]; intros name; unfold known; cbn; [intros h; split; [done|by intros (_ & _ & []%elem_of_nil)]|].
    split; [done|]. by intros (_ & rest & h & []%elem_of_nil).
  - rewrite map_app in Hnd |- *. rewrite foldl_app. cbn [map foldl fst snd]. apply Forall_app in Hp as [Hp Hk].
    apply NoDup_app in Hnd as (Hnd & Hdis & _). apply Forall_cons_1 in Hk as [[rel Hk] _]. cbn [fst] in Hk. subst k.
    apply child_step_of; [by apply IH|]. intros h' ([k' v'] & Heq & Hin)%list_elem_of_fmap. cbn in Heq. injection Heq as <- <-.
    apply (Hdis (prefix ++ rel)); [by apply (list_elem_of_fmap_2 fst l (prefix ++ rel, h'))|]. by left.
Qed.

Lemma index_list_elem (t : PathMap) rel h : bt_ok t → mkLocation (prefix ++ rel) h ∈ index_list t prefix ↔ bt_get (prefix ++ rel) t = Some h.
Proof.
  intros Ht. unfold index_list. rewrite list_elem_of_fmap. split.
  - intros ([k v] & Heq & Hin). cbn in Heq. injection Heq as <- <-. apply prefix_range_elem in Hin as [Hin _]; [|done]. by rewrite path_abs_lookup in Hin.
  - intros Hg. exists (prefix ++ rel, h). split; [done|]. apply prefix_range_elem; [done|]. rewrite path_abs_lookup by done. split; [done|]. by eexists.
Qed.

(** Something is bound below the path. *)
Definition occupied (t : PathMap) (path : list Z) : Prop := ∃ rest, is_Some (index_get t (path ++ ch_slash :: rest)).

Lemma known_children (t : PathMap) : bt_ok t →
  let m := foldl (child_step prefix) [] (index_list t prefix) in
  bt_ok m ∧ (∀ name i, bt_get name m = Some i → listed i = true ∧ ch_slash ∉ name)
  ∧ ∀ name, ch_slash ∉ name →
      (∀ h, (known m name).1 = Some h ↔ name ≠ [] ∧ index_get t (prefix ++ name) = Some h)
      ∧ ((known m name).2 = true ↔ occupied t (prefix ++ name)).
Proof.
  intros Ht m. destruct (children_get t Ht) as (Hok & Hl & Hh & Hd). fold m in Hok, Hl, Hh, Hd. split_and!; [done| |].
  - intros name i Hi. pose proof (Hl name i Hi) as Hli. split; [done|]. unfold listed in Hli. apply orb_true_iff in Hli as [Hx%bool_decide_eq_true|Hx].
    + destruct Hx as [h Hx]. apply (Hh name h). unfold known. by rewrite Hi.
    + apply (Hd name). unfold known. by rewrite Hi.
  - intros name Hs. split.
    + intros h. rewrite Hh, index_list_elem by done. unfold index_get. tauto.
    + rewrite Hd. unfold occupied, index_get. setoid_rewrite <- app_assoc. split.
      * intros (_ & rest & h & Hx). rewrite index_list_elem in Hx by done. exists rest. by eexists.
      * intros (rest & h & Hx). split; [done|]. exists rest, h. by apply index_list_elem.
Qed.
End listings.

(** * The walk over a trie's hashes *)

(** From here on the 32 slots are never computed with. *)
Opaque slot_range.

Section reach.
Context `{HS : Sha2} `{!Sha2Ok} `{HC : Ciborium} `{!CiboriumDecodes} (home : Z).
Hypothesis Hhome : digest_len_for_format home ≠ None.

Definition add_values (c : gset Hash) (M : bindings) : gset Hash := foldl (λ c kv, {[kv.2]} ∪ c) c M.

(** What the walk from the canonical node of [M] adds to what was visited before. *)
Fixpoint reach (n level : nat) (M : bindings) (c : gset Hash) : gset Hash :=
  let h := node_hash home (canon home n level M) in
  if bool_decide (h ∈ c) then c
  else match n with
       | O => {[h]} ∪ c
       | S n =>
           foldl (λ c p, let Mp := part level p M in
                         if (length Mp <=? BUCKET_SIZE)%nat then add_values c Mp else reach n (S level) Mp c)
             ({[h]} ∪ c) slot_range
       end.

Lemma collect_reach {St} `{HT : ContentStore St} n : ∀ level M (s : St) fuel c,
  (level + n)%nat = MAX_LEVELS → (n < fuel)%nat → bindings_ok M → separable n level M = true →
  holds (the_entity home (canon home n level M) :: below home n level M) s →
  collect_reachable_hashes fuel s (node_hash home (canon home n level M)) c = Some (reach n level M c).
Proof.
  induction n as [|n IH]; intros level M s fuel c Hlev Hf HM Hsep Hh; [done|].
  destruct fuel as [|fuel]; [lia|]. cbn [collect_reachable_hashes reach]. case_bool_decide as Hc; [done|].
  rewrite (load_node home Hhome) by (by apply (canon_ok home Hhome) || (apply Hh; by left)). rewrite canon_data.
  apply fold_opt_slots. intros b p Hp%elem_of_slots.
  destruct (slot_cases home Hhome n level M p s Hlev HM Hsep) as [[En ->]|[(_ & Hl & ->)|(h & Hl & -> & -> & _ & Hs & Hb)]].
  - intros e He. apply Hh. by right.
  - done.
  - by rewrite En.
  - by rewrite (proj2 (Nat.leb_le _ _) Hl).
  - cbv zeta. rewrite (proj2 (Nat.leb_gt _ _) Hl). apply IH; [lia|lia|by apply part_bindings_ok|done|].
    intros e [->|He]%elem_of_cons; [|by apply Hb]. apply Hh. right. apply below_S. exists p. auto.
Qed.

Lemma elem_add_values M : ∀ c x, x ∈ add_values c M ↔ x ∈ c ∨ x ∈ map snd M.
Proof.
  unfold add_values. induction M as [|kv M IH]; intros c x; cbn [foldl map]; [set_solver|]. rewrite IH. set_solver.
Qed.

(** Only the trie's nodes and its values. *)
Lemma reach_sound n : ∀ level M c x, x ∈ reach n level M c →
  x ∈ c ∨ x ∈ map snd M ∨ x ∈ map content_hash (the_entity home (canon home n level M) :: below home n level M).
Proof.
  induction n as [|n IH]; intros level M c x; cbn [reach]; (case_bool_decide as Hc; [by left|]); [intros Hx; set_solver|].
  assert (Hfold : ∀ l, (∀ p, p ∈ l → p ∈ slot_range) → ∀ c, 
    x ∈ foldl (λ c p, let Mp := part level p M in
           if (length Mp <=? BUCKET_SIZE)%nat then add_values c Mp else reach n (S level) Mp c) c l →
    x ∈ c ∨ x ∈ map snd M ∨ x ∈ map content_hash (below home (S n) level M)).
  { clear c Hc. induction l as [|p l IHl]; intros Hl c; [by left|]. cbn [foldl]. intros [Hx|Hx]%IHl; [|by right|intros q Hq; apply Hl; by right].
    pose proof (Hl p ltac:(by left)) as Hp%elem_of_slots.
    assert (Hval : x ∈ map snd (part level p M) → x ∈ map snd M).
    { intros ([k v] & -> & Hkv)%list_elem_of_fmap. unfold part in Hkv. apply list_elem_of_filter in Hkv as [_ Hkv].
      by apply (list_elem_of_fmap_2 snd) in Hkv. }
    cbv zeta in Hx. destruct (Nat.leb_spec (length (part level p M)) BUCKET_SIZE) as [Hb|Hb].
    - apply elem_add_values in Hx as [?|?]; auto.
    - apply IH in Hx as [?|[?|(e & -> & He)%list_elem_of_fmap]]; [auto|auto|]. right; right. apply list_elem_of_fmap. exists e. split; [done|].
      apply below_S. exists p. apply elem_of_cons in He. auto. }
  intros [Hx|[?|Hx]]%Hfold; [|by right; left|right; right; rewrite map_cons; by right|done].
  apply elem_of_union in Hx as [->%elem_of_singleton|?]; [right; right; by left|by left].
Qed.

Lemma reach_mono n : ∀ level M c, c ⊆ reach n level M c.
Proof.
  induction n as [|n IH]; intros level M c; cbn [reach]; (case_bool_decide; [done|]); [set_solver|].
  assert (Hfold : ∀ l c, c ⊆ foldl (λ c p, let Mp := part level p M in
           if (length Mp <=? BUCKET_SIZE)%nat then add_values c Mp else reach n (S level) Mp c) c l).
  { induction l as [|p l IHl]; intros d; [done|]. cbn [foldl]. etrans; [|apply IHl]. cbv zeta. destruct (_ <=? _)%nat; [|apply IH].
    intros y Hy. apply elem_add_values. by left. }
  etrans; [|apply Hfold]. set_solver.
Qed.

(** The entities below a slot, and what visiting it does. *)
Definition below_at n level M p : list Entity :=
  let Mp := part level p M in
  if (length Mp <=? BUCKET_SIZE)%nat then []
  else the_entity home (canon home n (S level) Mp) :: below home n (S level) Mp.

Definition visit n level M (c : gset Hash) p : gset Hash :=
  let Mp := part level p M in
  if (length Mp <=? BUCKET_SIZE)%nat then add_values c Mp else reach n (S level) Mp c.

Definition hashes_of (l : list Entity) : list Hash := map content_hash l.

(** Nothing is hidden by what was visited before. *)
Definition apart (l : list Entity) (M : bindings) (c : gset Hash) : Prop :=
  NoDup (hashes_of l) ∧ ∀ x, x ∈ hashes_of l → x ∉ c ∧ x ∉ map snd M.

Lemma part_values level p M x : x ∈ map snd (part level p M) → x ∈ map snd M.
Proof.
  intros ([k v] & -> & Hkv)%list_elem_of_fmap. unfold part in Hkv. apply list_elem_of_filter in Hkv as [_ Hkv].
  by apply (list_elem_of_fmap_2 snd) in Hkv.
Qed.

Lemma visit_mono n level M p c : c ⊆ visit n level M c p.
Proof. unfold visit. cbv zeta. destruct (_ <=? _)%nat; [|apply reach_mono]. intros y Hy. apply elem_add_values. by left. Qed.

Lemma visits_mono n level M l : ∀ c, c ⊆ foldl (visit n level M) c l.
Proof. induction l as [|p l IH]; intros c; [done|]. cbn [foldl]. etrans; [apply (visit_mono n level M p)|apply IH]. Qed.

Lemma visit_sound n level M p c x : x ∈ visit n level M c p → x ∈ c ∨ x ∈ map snd M ∨ x ∈ hashes_of (below_at n level M p).
Proof.
  unfold visit, below_at. cbv zeta. destruct (_ <=? _)%nat.
  - intros [?|?%part_values]%elem_add_values; auto.
  - intros [?|[?%part_values|?]]%reach_sound; auto.
Qed.

Lemma visits_complete n level M :
  (∀ p c, p ∈ slot_range → apart (below_at n level M p) M c → ∀ x, x ∈ hashes_of (below_at n level M p) → x ∈ visit n level M c p) →
  ∀ l c, (∀ p, p ∈ l → p ∈ slot_range) → apart (concat (map (below_at n level M) l)) M c →
  ∀ x, x ∈ hashes_of (concat (map (below_at n level M) l)) → x ∈ foldl (visit n level M) c l.
Proof.
  intros Hv. induction l as [|p l IH]; intros c Hl [Hnd Hd] x Hx; [by apply elem_of_nil in Hx|].
  cbn [map concat foldl] in *. unfold hashes_of in *. rewrite map_app in Hx, Hnd. apply NoDup_app in Hnd as (Hnd1 & Hdis & Hnd2).
  assert (Hd1 : ∀ y, y ∈ map content_hash (below_at n level M p) → y ∉ c ∧ y ∉ map snd M) by (intros y Hy; apply Hd; rewrite map_app; set_solver).
  apply elem_of_app in Hx as [Hx|Hx].
  - apply (visits_mono n level M l). apply Hv; [apply Hl; by left|by split|done].
  - apply IH; [intros q Hq; apply Hl; by right| |done]. split; [done|]. intros y Hy.
    destruct (Hd y ltac:(rewrite map_app; set_solver)) as [Hy1 Hy2]. split; [|done].
    intros [?|[?|Hy3]]%visit_sound; [done|done|]. by apply (Hdis y).
Qed.

Lemma reach_complete n : ∀ level M c,
  apart (the_entity home (canon home n level M) :: below home n level M) M c →
  ∀ x, x ∈ hashes_of (the_entity home (canon home n level M) :: below home n level M) → x ∈ reach n level M c.
Proof.
  induction n as [|n IH]; intros level M c [Hnd Hd] x Hx; cbn [reach].
  - rewrite bool_decide_eq_false_2 by (apply Hd; by left). apply elem_of_union_l, elem_of_singleton.
    by apply list_elem_of_singleton in Hx.
  - rewrite bool_decide_eq_false_2 by (apply Hd; by left). change (x ∈ foldl (visit n level M) ({[node_hash home (canon home (S n) level M)]} ∪ c) slot_range).
    unfold hashes_of in *. rewrite map_cons in Hx, Hnd. apply NoDup_cons in Hnd as [Hroot Hnd]. apply elem_of_cons in Hx as [->|Hx].
    { apply visits_mono, elem_of_union_l. by apply elem_of_singleton. }
    apply visits_complete; [|done| |exact Hx].
    + intros p d Hp [Hnd' Hd'] y Hy. unfold below_at, visit in *. cbv zeta in *.
      destruct (Nat.leb_spec (length (part level p M)) BUCKET_SIZE); [by apply elem_of_nil in Hy|].
      apply IH; [|done]. split; [done|]. intros z Hz. destruct (Hd' z Hz) as [? Hv]. split; [done|]. by intros ?%part_values.
    + split; [done|]. intros y Hy. destruct (Hd y ltac:(rewrite map_cons; by right)) as [? ?]. split; [|done].
      intros [->%elem_of_singleton|?]%elem_of_union; [by apply Hroot|done].
Qed.

(** All the hashes from a root. *)
Lemma collect_all {St} `{HT : ContentStore St} M (s : St) h fuel :
  trie_at home s h M → (MAX_LEVELS < fuel)%nat →
  collect_all_hashes fuel h s = Some (reach MAX_LEVELS 0 M ∅).
Proof.
  intros (-> & HM & Hsep & Hh) Hf. unfold collect_all_hashes, trie_root, root_node. by apply collect_reach.
Qed.
End reach.

(** * Snapshots and extracts *)

Section reads.
Context {St : Type} `{HT : ContentStore St} (wf : St → Prop) `{!ContentStoreOk St wf}.
Context `{HS : Sha2} `{!Sha2Ok} `{HC : Ciborium} `{!CiboriumDecodes} `{HW : CiboriumWrites} `{HB : Base58}.
Context (home : Z) (local_peer_id : list Z) (fuel : nat).
Hypothesis Hhome : digest_len_for_format home ≠ None.
Hypothesis Hfuel : (MAX_LEVELS < fuel)%nat.

(** The trie of [M] can be built in [s]. *)
Definition buildable (M : PathMap) (s : St) : Prop :=
  bindings_ok M ∧ separable MAX_LEVELS 0 M = true ∧ fresh_for (build_nodes home M) s.

Lemma build_runs M s (t : PathMap) :
  wf s → buildable M s →
  ∃ s', build_in_store home M s t = Done (Ok (trie_root home M)) s' t
    ∧ wf s' ∧ grows (build_nodes home M) s s' ∧ trie_at home s' (trie_root home M) M.
Proof.
  intros Hw (HM & Hsep & Hf).
  destruct (in_store_run wf _ (λ _, Internal) _ s t _ (build_canon wf home Hhome M s (build_nodes home M) HM Hsep Hw Hf (λ a b e, build_nodes_prefix home M a b e)))
    as (h & s' & Erun & Hw' & Hg & Ha).
  pose proof (proj1 Ha) as ->. by exists s'.
Qed.

Definition reply_of (ty d : list Z) : result HandlerError Reply :=
  e ← map_err (λ _, Internal) (entity_new home ty d); Ok (Answered (handler_ok e)).

Lemma reply_with_run ty v (s : St) (t : PathMap) : reply_with home ty v s t = Done (reply_of ty (to_ecf v)) s t.
Proof. unfold reply_with, andthen, tries, reply_of. by destruct (entity_new _ _ _). Qed.

Definition snapshot_reply (M : PathMap) : result HandlerError Reply :=
  reply_of TYPE_TREE_SNAPSHOT (to_ecf (snapshot_value (trie_root home M))).

(** The root of the trie of what may be seen, unless the tracker's root stands in for it. *)
Lemma snapshot_of_run ctx q s (t : PathMap) :
  let M := snapshot_bindings local_peer_id ctx q t in
  cap_filter_active ctx = true ∨ lookup_tracked_root local_peer_id q t = None → wf s → buildable M s →
  ∃ s', snapshot_of home local_peer_id ctx q s t = Done (snapshot_reply M) s' t
    ∧ wf s' ∧ grows (build_nodes home M) s s' ∧ trie_at home s' (trie_root home M) M.
Proof.
  intros M Hc Hw Hb. destruct (build_runs M s t Hw Hb) as (s' & Erun & Hw' & Hg & Ha). exists s'. split; [|done].
  unfold snapshot_of. erewrite andthen_run by done.
  assert (Hn : (if cap_filter_active ctx then None else lookup_tracked_root local_peer_id q t) = None) by (destruct Hc as [->| ->]; [done|by destruct (cap_filter_active ctx)]).
  rewrite Hn. erewrite andthen_run by done. erewrite andthen_run by exact Erun. apply reply_with_run.
Qed.

Definition extract_reply (M : PathMap) (s : St) : result HandlerError Reply :=
  snapshot ← map_err (λ _, Internal) (entity_new home TYPE_TREE_SNAPSHOT (to_ecf (snapshot_value (trie_root home M))));
  reply_of TYPE_ENVELOPE (encode_envelope (extract_envelope snapshot M (elements (reach home MAX_LEVELS 0 M ∅)) s)).

Lemma extract_at_run ctx q paths s (t : PathMap) :
  let M := extract_bindings local_peer_id ctx q paths t in
  wf s → buildable M s →
  ∃ s', extract_at home local_peer_id fuel ctx q paths s t = Done (extract_reply M s') s' t
    ∧ wf s' ∧ grows (build_nodes home M) s s' ∧ trie_at home s' (trie_root home M) M.
Proof.
  intros M Hw Hb. destruct (build_runs M s t Hw Hb) as (s' & Erun & Hw' & Hg & Ha). exists s'. split; [|done].
  unfold extract_at. erewrite andthen_run by done. erewrite andthen_run by exact Erun. unfold extract_reply.
  destruct (entity_new home TYPE_TREE_SNAPSHOT _) as [snapshot|]; [|done].
  erewrite andthen_run by done. erewrite andthen_run by done.
  rewrite (collect_all home Hhome M s' _ fuel Ha Hfuel). erewrite andthen_run by done. erewrite andthen_run by done.
  unfold andthen, tries, reply_of. cbn [map_err mbind result_bind]. fold M. by destruct (entity_new home TYPE_ENVELOPE _).
Qed.

(** What an extract takes from the store. *)
Lemma extract_envelope_agree snapshot M (s1 s2 : St) :
  trie_at home s1 (trie_root home M) M → trie_at home s2 (trie_root home M) M →
  (∀ h, h ∈ map snd M → store_get h s1 = store_get h s2) →
  extract_envelope snapshot M (elements (reach home MAX_LEVELS 0 M ∅)) s1
  = extract_envelope snapshot M (elements (reach home MAX_LEVELS 0 M ∅)) s2.
Proof.
  intros (_ & _ & _ & H1) (_ & _ & _ & H2) Hv. unfold extract_envelope. f_equal. apply omap_ext_in. intros h [Hh|Hh]%elem_of_app; [|by apply Hv].
  apply list_elem_of_filter in Hh as [[Hnv _] Hh%elem_of_elements]. destruct (reach_sound home Hhome MAX_LEVELS 0 M ∅ h Hh) as [?%elem_of_empty|[?|(e & -> & He)%list_elem_of_fmap]]; [done|done|].
  by rewrite (H1 e He), (H2 e He).
Qed.
End reads.

(** * What reads show *)

(** The bindings a snapshot or an extract is built on. *)
Definition read_bindings `{Ciborium} `{Sha2} `{Base58} (local_peer_id : list Z) (ctx : HandlerContext) (t : PathMap) : option PathMap :=
  if bool_decide (hc_operation ctx = lit "snapshot") then
    match snapshot_request local_peer_id ctx with
    | inl _ => None
    | inr q => Some (snapshot_bindings local_peer_id ctx q t)
    end
  else if bool_decide (hc_operation ctx = lit "extract") then
    match extract_request local_peer_id ctx with
    | inl _ => None
    | inr (q, paths) => Some (extract_bindings local_peer_id ctx q paths t)
    end
  else None.

(** The operations that read. *)
Definition reads (ctx : HandlerContext) : Prop := hc_operation ctx ∈ [lit "get"; lit "snapshot"; lit "extract"].

(** The path that a get asks for. *)
Definition get_target `{Base58} (local_peer_id : list Z) (ctx : HandlerContext) : option (list Z) :=
  match single_effective_target (hc_resource_target ctx) local_peer_id with
  | inr (One p) => Some p
  | inr Absent => Some (hc_pattern ctx ++ hc_suffix ctx)
  | _ => None
  end.

Section alike.
Context {St : Type} `{HT : ContentStore St} (wf : St → Prop) `{!ContentStoreOk St wf}.
Context `{HS : Sha2} `{!Sha2Ok} `{HC : Ciborium} `{!CiboriumDecodes} `{HW : CiboriumWrites} `{HB : Base58}.
Context (home : Z) (local_peer_id : list Z) (fuel : nat) (ctx : HandlerContext) (s1 s2 : St) (t1 t2 : PathMap).
Hypothesis (Hhome : digest_len_for_format home ≠ None) (Hfuel : (MAX_LEVELS < fuel)%nat).

Notation allowed := (path_allowed local_peer_id ctx (lit "get")).

(** The same bindings to the same entities wherever the capability lets the caller look. *)
Definition same_where_allowed : Prop :=
  ∀ p, allowed p = true →
    index_get t1 p = index_get t2 p
    ∧ ∀ h, index_get t1 p = Some h → ∃ e, store_get h s1 = Some e ∧ store_get h s2 = Some e.

(** The same children of a listed path, of those that the capability lets the caller get, have
    something bound below them. *)
Definition same_occupied (p : list Z) : Prop :=
  ∀ name, ch_slash ∉ name → allowed (p ++ name) = true → (occupied t1 (p ++ name) ↔ occupied t2 (p ++ name)).

(** Two runs with one answer, each leaving its tree. *)
Definition alike (m : Code HandlerError St PathMap Reply) : Prop :=
  ∃ r s1' s2', m s1 t1 = Done r s1' t1 ∧ m s2 t2 = Done r s2' t2.

Lemma alike_returns r : alike (returns r).
Proof. by eexists _, _, _. Qed.

Hypothesis (Hw1 : wf s1) (Hw2 : wf s2) (Ht1 : bt_ok t1) (Ht2 : bt_ok t2) (Hall : same_where_allowed).

Lemma snapshot_bindings_alike q : snapshot_bindings local_peer_id ctx q t2 = snapshot_bindings local_peer_id ctx q t1.
Proof.
  destruct (snapshot_bindings_get local_peer_id ctx q t1 Ht1) as [Hok1 Hg1], (snapshot_bindings_get local_peer_id ctx q t2 Ht2) as [Hok2 Hg2].
  apply bt_ext; [done..|]. intros rel. rewrite Hg1, Hg2. destruct (allowed _) eqn:Ea; [|done]. symmetry. apply (Hall _ Ea).
Qed.

Lemma extract_bindings_alike q paths : extract_bindings local_peer_id ctx q paths t2 = extract_bindings local_peer_id ctx q paths t1.
Proof.
  destruct (extract_bindings_get local_peer_id ctx q paths t1 Ht1) as [Hok1 Hg1], (extract_bindings_get local_peer_id ctx q paths t2 Ht2) as [Hok2 Hg2].
  apply bt_ext; [done..|]. intros rel. rewrite Hg1, Hg2. destruct (allowed _) eqn:Ea; [|done]. destruct (asked paths rel); [|done].
  symmetry. apply (Hall _ Ea).
Qed.

Lemma snapshot_alike q :
  let M := snapshot_bindings local_peer_id ctx q t1 in
  cap_filter_active ctx = true → buildable home M s1 → buildable home M s2 → alike (snapshot_of home local_peer_id ctx q).
Proof.
  intros M Hc Hb1 Hb2. pose proof (snapshot_of_run wf home local_peer_id Hhome ctx q s2 t2 (or_introl Hc) Hw2) as H2.
  cbv zeta in H2. rewrite (snapshot_bindings_alike q) in H2. destruct (H2 Hb2) as (s2' & E2 & _).
  destruct (snapshot_of_run wf home local_peer_id Hhome ctx q s1 t1 (or_introl Hc) Hw1 Hb1) as (s1' & E1 & _). by exists (snapshot_reply home M), s1', s2'.
Qed.

(** The entities that the envelope takes are the same in both stores. *)
Lemma extract_alike q paths :
  let M := extract_bindings local_peer_id ctx q paths t1 in
  buildable home M s1 → buildable home M s2 → alike (extract_at home local_peer_id fuel ctx q paths).
Proof.
  intros M Hb1 Hb2. pose proof (extract_at_run wf home local_peer_id fuel Hhome Hfuel ctx q paths s2 t2 Hw2) as H2.
  cbv zeta in H2. rewrite (extract_bindings_alike q paths) in H2. destruct (H2 Hb2) as (s2' & E2 & _ & Hgr2 & Ha2).
  destruct (extract_at_run wf home local_peer_id fuel Hhome Hfuel ctx q paths s1 t1 Hw1 Hb1) as (s1' & E1 & _ & Hgr1 & Ha1).
  fold M in E1, E2, Hgr1, Hgr2, Ha1, Ha2. exists (extract_reply home M s1'), s1', s2'. split; [done|]. rewrite E2. f_equal. unfold extract_reply.
  destruct (map_err _ (entity_new home TYPE_TREE_SNAPSHOT _)) as [snapshot|]; [|done]. cbn [mbind result_bind]. do 2 f_equal.
  apply (extract_envelope_agree home Hhome); [done|done|]. intros h ([rel v] & -> & Hin)%list_elem_of_fmap. cbn [snd].
  destruct (extract_bindings_get local_peer_id ctx q paths t1 Ht1) as [Hok Hg]. apply bt_get_elem in Hin; [|done]. rewrite Hg in Hin.
  destruct (allowed _) eqn:Ea; [|done]. destruct (asked paths rel); [|done]. destruct (proj2 (Hall _ Ea) v Hin) as (e & He1 & He2).
  by rewrite (proj1 Hgr1 _ _ He1), (proj1 Hgr2 _ _ He2).
Qed.

(** A child that may be got, and what is known of it. *)
Lemma known_alike p name i :
  same_occupied p → allowed (p ++ name) = true →
  bt_get name (foldl (child_step p) [] (index_list t1 p)) = Some i → bt_get name (foldl (child_step p) [] (index_list t2 p)) = Some i.
Proof.
  intros Hocc Ha Hi. destruct (known_children p t1 Ht1) as (_ & Hl1 & Hk1), (known_children p t2 Ht2) as (_ & _ & Hk2).
  destruct (Hl1 name i Hi) as [Hli Hs]. destruct (Hk1 name Hs) as [Hh1 Hd1], (Hk2 name Hs) as [Hh2 Hd2].
  assert (Heq : known (foldl (child_step p) [] (index_list t2 p)) name = known (foldl (child_step p) [] (index_list t1 p)) name).
  { apply injective_projections.
    - apply option_eq. intros h. rewrite Hh1, Hh2. by rewrite (proj1 (Hall _ Ha)).
    - apply eq_true_iff_eq. rewrite Hd1, Hd2. symmetry. by apply Hocc. }
  unfold known in Heq. rewrite Hi in Heq. destruct i as [ih ic]. destruct (bt_get name (foldl _ _ (index_list t2 p))) as [[jh jc]|];
    cbn in Heq; injection Heq as ? ?; subst; [done|]. done.
Qed.

(** The marker check looks at entities that both stores have. *)
Lemma unmarked_alike p name i :
  allowed (p ++ name) = true → bt_get name (foldl (child_step p) [] (index_list t1 p)) = Some i → unmarked s2 i = unmarked s1 i.
Proof.
  intros Ha Hi. unfold unmarked. destruct (ch_hash i) as [h|] eqn:Eh; [|done]. cbn [mbind option_bind].
  destruct (known_children p t1 Ht1) as (_ & Hl1 & Hk1). destruct (Hl1 name i Hi) as [_ Hs]. destruct (Hk1 name Hs) as [Hh _].
  destruct (proj1 (Hh h)) as [_ Hg]; [unfold known; by rewrite Hi|]. destruct (proj2 (Hall _ Ha) h Hg) as (e & -> & ->). done.
Qed.
End alike.

(** The children that a listing shows. *)
Section listing.
Context {St : Type} `{HT : ContentStore St} `{HS : Sha2} `{HC : Ciborium} `{HW : CiboriumWrites} `{HB : Base58}.
Context (local_peer_id : list Z) (ctx : HandlerContext).

Notation allowed := (path_allowed local_peer_id ctx (lit "get")).
Notation shown := (λ p s t, listing_children (L := PathMap) local_peer_id p (Some ctx) s t).

Lemma shown_ok p (s : St) (t : PathMap) : bt_ok t → bt_ok (shown p s t).
Proof. intros Ht. unfold listing_children. apply bt_filter_ok, bt_filter_ok, bt_map_ok. by apply (known_children p t). Qed.

Lemma shown_elem p (s : St) (t : PathMap) name j : bt_ok t →
  (name, j) ∈ shown p s t
  ↔ allowed (p ++ name) = true ∧ listed j = true
    ∧ ∃ i, bt_get name (foldl (child_step p) [] (index_list t p)) = Some i ∧ j = unmarked s i.
Proof.
  intros Ht. unfold listing_children. rewrite !list_elem_of_filter, list_elem_of_fmap. cbn [fst snd]. split.
  - intros (Ha & Hl & ([n i] & Heq & Hi)). cbn in Heq. injection Heq as -> ->. split_and!; [done|done|]. exists i. split; [|done].
    apply bt_get_elem; [by apply (known_children p t)|done].
  - intros (Ha & Hl & i & Hi & ->). split_and!; [done|done|]. exists (name, i). split; [done|].
    apply bt_get_elem in Hi; [done|by apply (known_children p t)].
Qed.

Lemma shown_within p (s1 s2 : St) (t1 t2 : PathMap) : bt_ok t1 → bt_ok t2 →
  same_where_allowed local_peer_id ctx s1 s2 t1 t2 → same_occupied local_peer_id ctx t1 t2 p →
  ∀ c, c ∈ shown p s1 t1 → c ∈ shown p s2 t2.
Proof.
  intros Ht1 Ht2 Hall Hocc [name j] (Ha & Hl & i & Hi & ->)%shown_elem; [|done]. apply shown_elem; [done|].
  split_and!; [done|done|]. exists i. split.
  - by eapply known_alike with (t1 := t1).
  - symmetry. by eapply unmarked_alike with (t1 := t1).
Qed.

Lemma same_where_sym (s1 s2 : St) t1 t2 :
  same_where_allowed local_peer_id ctx s1 s2 t1 t2 → same_where_allowed local_peer_id ctx s2 s1 t2 t1.
Proof.
  intros Hall p Ha. destruct (Hall p Ha) as [Hi Hs]. split; [done|]. intros h Hh. rewrite <- Hi in Hh. destruct (Hs h Hh) as (e & ? & ?). by exists e.
Qed.

Lemma shown_alike p (s1 s2 : St) (t1 t2 : PathMap) : bt_ok t1 → bt_ok t2 →
  same_where_allowed local_peer_id ctx s1 s2 t1 t2 → same_occupied local_peer_id ctx t1 t2 p → shown p s2 t2 = shown p s1 t1.
Proof.
  intros Ht1 Ht2 Hall Hocc. apply bt_ext; [by apply shown_ok..|]. intros name. apply option_eq. intros j.
  rewrite !bt_get_elem by by apply shown_ok. split.
  - apply shown_within; [done|done|by apply same_where_sym|]. intros n Hn Ha. symmetry. by apply Hocc.
  - by apply shown_within.
Qed.

Lemma get_alike home p (s1 s2 : St) (t1 t2 : PathMap) :
  bt_ok t1 → bt_ok t2 → same_where_allowed local_peer_id ctx s1 s2 t1 t2 →
  (validate_prefix p = true → same_occupied local_peer_id ctx t1 t2 p) →
  alike s1 s2 t1 t2 (match authorize_path local_peer_id ctx (lit "get") p with
         | Some refusal => returns refusal
         | None => if validate_prefix p then handle_listing_filtered home local_peer_id ctx p
                   else entity <~ asks (tree_get p);;
                        match entity with
                        | Some entity => returns (Answered (handler_ok entity))
                        | None => refuses STATUS_NOT_FOUND "not_found"
                        end
         end).
Proof.
  intros Ht1 Ht2 Hall Hocc. destruct (authorize_path _ _ _ _) eqn:Ea; [apply alike_returns|]. destruct (validate_prefix p).
  - pose proof (shown_alike p s1 s2 t1 t2 Ht1 Ht2 Hall (Hocc eq_refl)) as Hs. cbv beta in Hs. unfold alike, handle_listing_filtered, listing_inner.
    eexists _, _, _. split; [erewrite andthen_run by done; apply reply_with_run|]. erewrite andthen_run by done. rewrite Hs. apply reply_with_run.
  - destruct (Hall p) as [Hi Hs]; [unfold path_allowed; by rewrite Ea|]. unfold alike, andthen, asks, tree_get. cbn. rewrite <- Hi.
    destruct (index_get t1 p) as [h|]; [|by eexists _, _, _]. destruct (Hs h eq_refl) as (e & He1 & He2). cbn. rewrite He1, He2. by eexists _, _, _.
Qed.
End listing.

(** C7. A read shows only what the caller's capability allows.  Take two peers whose trees have the
    same bindings, to the same entities, at every path the capability lets the caller get, and differ
    elsewhere as they may; for a listing, the same children that may be got have something bound
    below them.  They answer a get of a path or of a listing, a snapshot and an extract alike, byte
    for byte, and leave their trees as they were.  So of a path that may not be got a get, a snapshot
    and an extract tell nothing, and a listing only that something is bound below a child. *)
Theorem reads_show_only_allowed {St} `{HT : ContentStore St} (wf : St → Prop) `{!ContentStoreOk St wf}
    `{HS : Sha2} `{!Sha2Ok} `{HC : Ciborium} `{!CiboriumDecodes} `{HW : CiboriumWrites} `{HB : Base58}
    (home : Z) (local_peer_id : list Z) (fuel : nat) ctx (s1 s2 : St) (t1 t2 : PathMap) :
  digest_len_for_format home ≠ None → (MAX_LEVELS < fuel)%nat → cap_filter_active ctx = true →
  wf s1 → wf s2 → bt_ok t1 → bt_ok t2 →
  same_where_allowed local_peer_id ctx s1 s2 t1 t2 →
  (∀ M, read_bindings local_peer_id ctx t1 = Some M → buildable home M s1 ∧ buildable home M s2) →
  reads ctx →
  (∀ p, hc_operation ctx = lit "get" → get_target local_peer_id ctx = Some p → validate_prefix p = true →
     same_occupied local_peer_id ctx t1 t2 p) →
  alike s1 s2 t1 t2 (handle home local_peer_id fuel ctx).
Proof.
  intros Hhome Hfuel Hc Hw1 Hw2 Ht1 Ht2 Hall HM Hread Hocc. unfold handle.
  unfold reads in Hread. rewrite !elem_of_cons in Hread. destruct Hread as [Hop|[Hop|[Hop|[]%elem_of_nil]]]; unfold read_bindings in HM; rewrite Hop in HM |- *.
  - change (alike s1 s2 t1 t2 (handle_get home local_peer_id ctx)). unfold handle_get. specialize (λ p, Hocc p Hop). unfold get_target in Hocc.
    destruct (single_effective_target _ _) as [refusal|[| |p]]; [apply alike_returns|apply get_alike; auto|apply alike_returns|apply get_alike; auto].
  - change (alike s1 s2 t1 t2 (handle_snapshot home local_peer_id ctx)). unfold handle_snapshot.
    change (∀ M, match snapshot_request local_peer_id ctx with inl _ => None | inr q => Some (snapshot_bindings local_peer_id ctx q t1) end = Some M → buildable home M s1 ∧ buildable home M s2) in HM.
    destruct (snapshot_request local_peer_id ctx) as [refusal|q]; [apply alike_returns|]. destruct (HM _ eq_refl). by apply (snapshot_alike wf).
  - change (alike s1 s2 t1 t2 (handle_extract home local_peer_id fuel ctx)). unfold handle_extract.
    change (∀ M, match extract_request local_peer_id ctx with inl _ => None | inr (q, paths) => Some (extract_bindings local_peer_id ctx q paths t1) end = Some M → buildable home M s1 ∧ buildable home M s2) in HM.
    destruct (extract_request local_peer_id ctx) as [refusal|[q paths]]; [apply alike_returns|]. destruct (HM _ eq_refl). by apply (extract_alike wf).
Qed.

(** * The tracked root *)

Lemma trim_end_stop l x : x ≠ ch_slash → trim_end_slashes (ch_slash :: x :: l) = x :: l.
Proof. intros Hx. cbn. by rewrite (proj2 (Z.eqb_neq _ _) Hx). Qed.

Lemma trim_start_stop c s : trim_start c s = [] ∨ ∃ x l, trim_start c s = x :: l ∧ x ≠ c.
Proof. induction s as [|b s IH]; cbn; [by left|]. case_decide; [done|]. right. by eexists _, _. Qed.

(** The handler looks for the root where the tracker keeps it. *)
Lemma lookup_is_load {L} `{LocationIndex L} id prefix (t : L) :
  canonical_prefix prefix ≠ [] →
  lookup_tracked_root id (qualified_bare_prefix id prefix) t = load_tracked_root id prefix t.
Proof.
  intros Hne. unfold lookup_tracked_root, load_tracked_root, qualified_bare_prefix, qualified_root_path.
  rewrite !(bool_decide_eq_false_2 _ Hne). set (p := canonical_prefix prefix) in *.
  assert (Hq : lit "/" ++ id ++ lit "/" ++ p ++ lit "/" = (lit "/" ++ id ++ lit "/") ++ (p ++ lit "/")) by by rewrite <- !app_assoc.
  rewrite Hq, strip_prefix_app. cbn [mbind option_bind].
  assert (Hp : reverse (trim_end_slashes (reverse (p ++ lit "/"))) = p).
  { rewrite reverse_app. change (reverse (lit "/")) with [ch_slash]. cbn [app].
    destruct (trim_start_stop ch_slash (reverse (trim_start ch_slash prefix))) as [He|(x & l & He & Hx)].
    - destruct Hne. unfold p, canonical_prefix, trim_matches. by rewrite He.
    - assert (Hr : reverse p = x :: l) by (unfold p, canonical_prefix, trim_matches; by rewrite reverse_involutive).
      rewrite Hr, trim_end_stop by done. by rewrite <- Hr, reverse_involutive. }
  rewrite Hp. unfold root_path_prefix, root_path_exact. by rewrite <- !app_assoc.
Qed.

(** A snapshot is the root of the trie of the bindings below its prefix that the caller may
    get, whether it is built or the tracker's root is taken for it, when the tracker's root is that
    of the bindings it tracks, as the tracker keeps it, and none of the tracker's own paths is below
    the prefix; nothing of the tree changes. *)
Theorem snapshot_exact {St} `{HT : ContentStore St} (wf : St → Prop) `{!ContentStoreOk St wf}
    `{HS : Sha2} `{!Sha2Ok} `{HC : Ciborium} `{!CiboriumDecodes} `{HB : Base58}
    (home : Z) (local_peer_id : list Z) ctx prefix (s : St) (t : PathMap) :
  let q := qualified_bare_prefix local_peer_id prefix in
  let M := snapshot_bindings local_peer_id ctx q t in
  digest_len_for_format home ≠ None → wf s → bt_ok t → buildable home M s →
  canonical_prefix prefix ≠ [] → (∀ rel, is_self_path local_peer_id (q ++ rel) = false) →
  (∀ h, load_tracked_root local_peer_id prefix t = Some h → h = trie_root home (tree_bindings local_peer_id q t)) →
  (∃ s', snapshot_of home local_peer_id ctx q s t = Done (snapshot_reply home M) s' t)
  ∧ ∀ rel, bt_get rel M = if path_allowed local_peer_id ctx (lit "get") (q ++ rel) then bt_get (q ++ rel) t else None.
Proof.
  intros q M Hhome Hw Ht Hb Hne Hself Hsync. destruct (snapshot_bindings_get local_peer_id ctx q t Ht) as [HM Hget].
  split; [|exact Hget]. destruct (cap_filter_active ctx) eqn:Ec.
  { destruct (snapshot_of_run wf home local_peer_id Hhome ctx q s t (or_introl Ec) Hw Hb) as (s' & E & _). by exists s'. }
  destruct (lookup_tracked_root local_peer_id q t) as [h|] eqn:El.
  - assert (Heq : tree_bindings local_peer_id q t = M).
    { destruct (tree_bindings_get local_peer_id q t Ht) as [HM' Hget']. apply bt_ext; [done..|]. intros rel.
      rewrite Hget', Hget, Hself. by rewrite allowed_unfiltered. }
    exists s. unfold snapshot_of. erewrite andthen_run by done. rewrite Ec, El, reply_with_run. unfold snapshot_reply.
    by rewrite (Hsync h), Heq by (by rewrite <- lookup_is_load).
  - destruct (snapshot_of_run wf home local_peer_id Hhome ctx q s t (or_intror El) Hw Hb) as (s' & E & _). by exists s'.
Qed.

(** * Witnesses *)

Transparent slot_range.

Section demo.
#[local] Existing Instances sum_sha2 sum_sha2_ok ref_ciborium ref_ciborium_decodes ref_writer plain_base58.

Definition app_path (n : list Z) : list Z := lit "/" ++ demo_id ++ lit "/app/" ++ n.

(** An external caller who may get and put below [app], but for [secret] and what is below it. *)
Definition app_grant : GrantEntry :=
  mkGrant (path_scope_new [lit "system/tree"]) (mkPathScope [lit "app/*"] [lit "app/secret"; lit "app/secret/*"])
    id_scope_all None None None.

Definition app_request (op : string) (target : option ResourceTarget) (params : list Z) : HandlerContext :=
  mkHandlerContext None (Some (mkToken [app_grant] (Multi (mkMulti [] 0)) (demo_hash 0) None 0 None None None))
    (mkEntity [] [] hash_zero) (mkEntity (lit "params") params hash_zero)
    (lit "/" ++ demo_id ++ lit "/system/tree") [] target None None (lit "r1") (lit op) ∅
    None None None None true false.

Definition app_ctx (op : string) (target : list Z) (params : Value) : HandlerContext :=
  app_request op (Some (mkTarget [target] [])) (to_ecf params).

Definition app_entity (n : Z) : Entity :=
  match entity_new 0 (lit "doc") (to_ecf (integer n)) with Ok e => e | Err _ => mkEntity [] [] hash_zero end.

Definition app_store : ContentMap := Eval vm_compute in
  foldl (λ s e, (content_put s e).2) [] [app_entity 1; app_entity 2; app_entity 3].

Definition app_tree : PathMap := Eval vm_compute in
  [(app_path (lit "a"), content_hash (app_entity 1)); (app_path (lit "b"), content_hash (app_entity 2))].

Definition app_secret_tree : PathMap := Eval vm_compute in
  bt_insert (app_path (lit "secret")) (content_hash (app_entity 3)) app_tree.

Definition app_bindings : PathMap := Eval vm_compute in
  [(lit "a", content_hash (app_entity 1)); (lit "b", content_hash (app_entity 2))].

Lemma app_buildable : buildable 0 app_bindings app_store.
Proof.
  split; [|split; [vm_compute; reflexivity|apply no_clash_fresh; vm_compute; reflexivity]].
  split; [apply (bool_decide_eq_true_1 _); vm_compute; reflexivity|].
  repeat (apply Forall_cons_2 || apply Forall_nil_2);
    (split; [apply key_ok_check; reflexivity|split; [vm_compute; reflexivity|apply (bool_decide_eq_true_1 _); vm_compute; reflexivity]]).
Qed.

Lemma app_trees_same ctx :
  path_allowed demo_id ctx (lit "get") (app_path (lit "secret")) = false →
  same_where_allowed demo_id ctx app_store app_store app_tree app_secret_tree.
Proof.
  intros Hsecret p Hp. split.
  - unfold index_get. change app_secret_tree with (bt_insert (app_path (lit "secret")) (content_hash (app_entity 3)) app_tree).
    rewrite bt_get_insert_ne; [done|apply (bool_decide_eq_true_1 _); vm_compute; reflexivity|]. intros <-. congruence.
  - intros h Hh. apply bt_get_elem in Hh; [|apply (bool_decide_eq_true_1 _); vm_compute; reflexivity].
    repeat (apply elem_of_cons in Hh as [Heq|Hh]; [injection Heq as -> ->; eexists; split; vm_compute; reflexivity|]).
    by apply elem_of_nil in Hh.
Qed.

Definition app_secret_ctx : HandlerContext := app_ctx "extract" (lit "app/") VNull.
Definition app_list_ctx : HandlerContext := app_ctx "get" (lit "app/") VNull.

(** A path below which the bindings lie flat. *)
Definition flat (p : list Z) (t : PathMap) : bool :=
  forallb (λ kv, match strip_prefix p kv.1 with Some rel => bool_decide (ch_slash ∉ rel) | None => true end) t.

Lemma flat_unoccupied p t name : bt_ok t → flat p t = true → ¬ occupied t (p ++ name).
Proof.
  unfold flat. rewrite forallb_forall. intros Ht Hf (rest & h & Hh). unfold index_get in Hh. rewrite <- app_assoc in Hh.
  apply bt_get_elem in Hh; [|done]. apply list_elem_of_In, Hf in Hh. cbn [fst] in Hh. rewrite strip_prefix_app in Hh.
  apply bool_decide_eq_true in Hh. set_solver.
Qed.

(** The premises of a read by this caller of these two trees. *)
Lemma app_reads_built ctx M :
  read_bindings demo_id ctx app_tree = M → default app_bindings M = app_bindings →
  ∀ M', read_bindings demo_id ctx app_tree = Some M' → buildable 0 M' app_store ∧ buildable 0 M' app_store.
Proof. intros -> Hd M' ->. cbn in Hd. subst M'. split; exact app_buildable. Qed.

Lemma app_occupied ctx p :
  flat p app_tree && flat p app_secret_tree = true → same_occupied demo_id ctx app_tree app_secret_tree p.
Proof.
  intros [H1 H2]%andb_true_iff name _ _.
  split; intros Ho; exfalso; revert Ho; apply flat_unoccupied; try done; apply (bool_decide_eq_true_1 _); vm_compute; reflexivity.
Qed.

Lemma reads_show_only_allowed_witness :
  index_get app_tree (app_path (lit "secret")) = None ∧ is_Some (index_get app_secret_tree (app_path (lit "secret")))
  ∧ (∃ r s1' s2', handle 0 demo_id 60 app_secret_ctx app_store app_tree = Done r s1' app_tree
      ∧ handle 0 demo_id 60 app_secret_ctx app_store app_secret_tree = Done r s2' app_secret_tree)
  ∧ ∃ r s1' s2', handle 0 demo_id 60 app_list_ctx app_store app_tree = Done r s1' app_tree
      ∧ handle 0 demo_id 60 app_list_ctx app_store app_secret_tree = Done r s2' app_secret_tree.
Proof.
  split; [vm_compute; reflexivity|]. split; [apply (bool_decide_eq_true_1 _); vm_compute; reflexivity|]. split.
  - apply (reads_show_only_allowed (HT := memory_store) bt_ok 0 demo_id 60 app_secret_ctx app_store app_store app_tree app_secret_tree).
    + discriminate.
    + apply Nat.ltb_lt. reflexivity.
    + reflexivity.
    + apply (bool_decide_eq_true_1 _). vm_compute. reflexivity.
    + apply (bool_decide_eq_true_1 _). vm_compute. reflexivity.
    + apply (bool_decide_eq_true_1 _). vm_compute. reflexivity.
    + apply (bool_decide_eq_true_1 _). vm_compute. reflexivity.
    + apply app_trees_same. vm_compute. reflexivity.
    + apply (app_reads_built _ (Some app_bindings)); [vm_compute; reflexivity|reflexivity].
    + apply (bool_decide_eq_true_1 _). vm_compute. reflexivity.
    + intros p Hop _ _. exfalso. revert Hop. apply (bool_decide_eq_false_1 _). vm_compute. reflexivity.
  - apply (reads_show_only_allowed (HT := memory_store) bt_ok 0 demo_id 60 app_list_ctx app_store app_store app_tree app_secret_tree).
    + discriminate.
    + apply Nat.ltb_lt. reflexivity.
    + reflexivity.
    + apply (bool_decide_eq_true_1 _). vm_compute. reflexivity.
    + apply (bool_decide_eq_true_1 _). vm_compute. reflexivity.
    + apply (bool_decide_eq_true_1 _). vm_compute. reflexivity.
    + apply (bool_decide_eq_true_1 _). vm_compute. reflexivity.
    + apply app_trees_same. vm_compute. reflexivity.
    + apply (app_reads_built _ None); [vm_compute; reflexivity|reflexivity].
    + apply (bool_decide_eq_true_1 _). vm_compute. reflexivity.
    + intros p _ Hp _. assert (Ht : get_target demo_id app_list_ctx = Some (app_path [])) by (vm_compute; reflexivity).
      rewrite Ht in Hp. injection Hp as <-. apply app_occupied. vm_compute. reflexivity.
Defined.

(** What a listing tells of what may not be got: a child that is known only from a binding below
    it, which the capability excludes, is named, and said to have children. *)
Definition below_only_tree : PathMap := Eval vm_compute in
  bt_insert (app_path (lit "hidden/x")) (content_hash (app_entity 3)) app_tree.

Definition below_only_ctx : HandlerContext :=
  mkHandlerContext None (Some (mkToken [mkGrant (path_scope_new [lit "system/tree"]) (mkPathScope [lit "app/*"] [lit "app/hidden/*"])
                                          id_scope_all None None None] (Multi (mkMulti [] 0)) (demo_hash 0) None 0 None None None))
    (mkEntity [] [] hash_zero) (mkEntity (lit "params") (to_ecf VNull) hash_zero)
    (lit "/" ++ demo_id ++ lit "/system/tree") [] (Some (mkTarget [lit "app/"] [])) None None (lit "r1") (lit "get") ∅
    None None None None true false.

Example listing_names_excluded_parent :
  path_allowed demo_id below_only_ctx (lit "get") (app_path (lit "hidden/x")) = false
  ∧ map fst (listing_children (L := PathMap) demo_id (app_path []) (Some below_only_ctx) app_store app_tree) = [lit "a"; lit "b"]
  ∧ map fst (listing_children (L := PathMap) demo_id (app_path []) (Some below_only_ctx) app_store below_only_tree) = [lit "a"; lit "b"; lit "hidden"].
Proof. vm_compute. split_and!; reflexivity. Qed.

Lemma snapshot_exact_witness :
  let ctx := app_ctx "snapshot" (lit "app/") VNull in
  let q := qualified_bare_prefix demo_id (lit "app/") in
  let M := snapshot_bindings demo_id ctx q app_secret_tree in
  M = app_bindings ∧ (∃ s', snapshot_of 0 demo_id ctx q app_store app_secret_tree = Done (snapshot_reply 0 app_bindings) s' app_secret_tree)
  ∧ bt_get (lit "secret") M = None ∧ bt_get (lit "a") M = Some (content_hash (app_entity 1)).
Proof.
  intros ctx q M. assert (HM : M = app_bindings) by (vm_compute; reflexivity).
  destruct (snapshot_exact (HT := memory_store) bt_ok 0 demo_id ctx (lit "app/") app_store app_secret_tree) as [Hrun Hget].
  - discriminate.
  - apply (bool_decide_eq_true_1 _). vm_compute. reflexivity.
  - apply (bool_decide_eq_true_1 _). vm_compute. reflexivity.
  - fold q. fold M. rewrite HM. exact app_buildable.
  - discriminate.
  - intros rel. reflexivity.
  - intros h. vm_compute. discriminate.
  - fold q in Hrun, Hget. fold M in Hrun, Hget. split; [exact HM|]. split; [by rewrite HM in Hrun|].
    split; rewrite Hget; vm_compute; reflexivity.
Defined.
End demo.
