(* ===== verification/TreeWrites.v ===== *)
(** What the operations of the tree handler that change the tree do to it: put and merge. *)
From S2P Require Import Prelude BTree Ecf Cbor ContentHash Paths Entity Walker Wire Identity Capability.
From S2P Require Import CapabilityCodec Store Trie Index Handler TrieSpec RootTracker Tree TreeOps.

(** * Put *)

Definition reply_status (r : Reply) : Z := match r with Answered a => status a | Refused st _ => st end.

(** The status of a put and the binding it leaves.  Without an expected hash a binding goes through
    [set], which leaves a path that it does not take ([storable]) as it was and says nothing; the
    compare-and-set operations take every path. *)
Definition put_table (storable : bool) (expected new current : option Hash) : Z * option Hash :=
  match expected with
  | None => match new, current with
            | None, None => (STATUS_NOT_FOUND, None)
            | None, Some _ => (STATUS_OK, None)
            | Some h, _ => (STATUS_OK, if storable then Some h else current)
            end
  | Some x =>
      match current with
      | None => if is_zero x then (STATUS_OK, new) else (STATUS_CONFLICT, None)
      | Some c => if negb (is_zero x) && bool_decide (c = x) then (STATUS_OK, new) else (STATUS_CONFLICT, Some c)
      end
  end.

Section puts.
Context {St : Type} `{HT : ContentStore St} (wf : St → Prop) `{!ContentStoreOk St wf}.
Context `{HS : Sha2} `{!Sha2Ok} (home : Z).
Hypothesis Hhome : digest_len_for_format home ≠ None.

Lemma reply_of_ok ty v : ty ≠ [] → ty ≠ TYPE_PEER → ∃ r, reply_of home ty (to_ecf v) = Ok r ∧ reply_status r = STATUS_OK.
Proof.
  intros Hty Hp. destruct (entity_new_encoded home ty v) as (e & He & _); [done..|]. exists (Answered (handler_ok e)).
  unfold reply_of. by rewrite He.
Qed.

Lemma replies ty v (s : St) (t : PathMap) : ty ≠ [] → ty ≠ TYPE_PEER →
  ∃ r, reply_with home ty v s t = Done (Ok r) s t ∧ reply_status r = STATUS_OK.
Proof.
  intros Hty Hp. destruct (reply_of_ok ty v Hty Hp) as (r & Hr & Hs). exists r. by rewrite reply_with_run, Hr.
Qed.

(** A run of a put, with its status and what it leaves at its path. *)
Definition puts (m : Code HandlerError St PathMap Reply) (s : St) (t : PathMap) (path : list Z) (row : Z * option Hash) : Prop :=
  ∃ r s' t', m s t = Done (Ok r) s' t' ∧ bt_ok t' ∧ reply_status r = row.1
    ∧ (∀ p, index_get t' p = if decide (p = path) then row.2 else index_get t p).

Lemma puts_reply (m : Code HandlerError St PathMap Reply) s t path st after ty v s' t' :
  m s t = reply_with home ty v s' t' → ty ≠ [] → ty ≠ TYPE_PEER → st = STATUS_OK → bt_ok t' →
  (∀ p, index_get t' p = if decide (p = path) then after else index_get t p) → puts m s t path (st, after).
Proof. intros Em Hty Hp -> Ht Hg. destruct (replies ty v s' t' Hty Hp) as (r & Er & Hr). exists r, s', t'. by rewrite Em, Er. Qed.

Lemma puts_refused (m : Code HandlerError St PathMap Reply) s t path st code after s' :
  m s t = Done (Ok (Refused st code)) s' t → bt_ok t → index_get t path = after → puts m s t path (st, after).
Proof. intros Em Ht <-. exists (Refused st code), s', t. split_and!; [done|done|done|]. intros p. case_decide as Hp; [by subst|done]. Qed.

Lemma kept_at (t : PathMap) path c : index_get t path = c → ∀ p, index_get t p = if decide (p = path) then c else index_get t p.
Proof. intros <- p. case_decide as Hp; [by subst|done]. Qed.

Lemma removed_at (t : PathMap) path : bt_ok t →
  bt_ok (bt_remove path t) ∧ ∀ p, index_get (bt_remove path t) p = if decide (p = path) then None else index_get t p.
Proof. intros Ht. exact (changed_get path None t Ht (λ H, match is_Some_None H with end)). Qed.

Lemma set_at (t : PathMap) path h : bt_ok t →
  bt_ok (bt_insert path h t) ∧ ∀ p, index_get (bt_insert path h t) p = if decide (p = path) then Some h else index_get t p.
Proof.
  intros Ht. split; [by apply bt_insert_ok|]. intros p. unfold index_get.
  case_decide as Hp; [subst; by apply bt_get_insert_eq|by apply bt_get_insert_ne].
Qed.

#[local] Opaque reply_with.

(** Runs the stores under a put. *)
Local Ltac put_run :=
  unfold put_remove, remove_binding, put_bind, andthen, updates, asks, writes, returns; cbn;
  unfold compare_and_remove, compare_and_swap, compare_and_create, index_remove, quietly, index_get; cbn.

Lemma put_remove_puts ctx path expected (s : St) (t : PathMap) :
  bt_ok t → puts (put_remove home ctx path expected) s t path (put_table (path_is_storable path) expected None (index_get t path)).
Proof.
  intros Ht. destruct (removed_at t path Ht) as [Hr Hg].
  destruct expected as [x|]; cbn [put_table]; [destruct (is_zero x) eqn:Ez|]; destruct (index_get t path) as [c|] eqn:Ec; unfold index_get in Ec; cbn [negb andb].
  - eapply puts_refused; [put_run; by rewrite Ez, Ec|done|done].
  - eapply puts_reply; [put_run; by rewrite Ez, Ec|done|done|done|exact Ht|by apply kept_at].
  - case_bool_decide as Hc.
    + eapply puts_reply; [put_run; by rewrite Ez, Ec, bool_decide_eq_true_2|done|done|done|exact Hr|exact Hg].
    + eapply puts_refused; [put_run; by rewrite Ez, Ec, bool_decide_eq_false_2|done|done].
  - eapply puts_refused; [put_run; by rewrite Ez, Ec|done|done].
  - eapply puts_reply; [put_run; by rewrite Ec|done|done|done|exact Hr|exact Hg].
  - exists (Refused STATUS_NOT_FOUND (lit "not_found")), s, (bt_remove path t). split; [put_run; by rewrite Ec|done].
Qed.

Lemma put_bind_puts ctx path expected e s (t : PathMap) :
  wf s → agrees s e → bt_ok t →
  puts (put_bind home ctx path expected e) s t path (put_table (path_is_storable path) expected (Some (content_hash e)) (index_get t path)).
Proof.
  intros Hw Hag Ht. destruct (store_put_get s e Hw Hag) as (s' & Eput & _). destruct (set_at t path (content_hash e) Ht) as [Hi Hg].
  destruct expected as [x|]; cbn [put_table]; [destruct (is_zero x) eqn:Ez|]; destruct (index_get t path) as [c|] eqn:Ec; unfold index_get in Ec; cbn [negb andb].
  - eapply (puts_refused _ _ _ _ _ _ _ s'); [put_run; unfold stores; by rewrite Eput, Ez, Ec|done|done].
  - eapply (puts_reply _ _ _ _ _ _ _ _ s'); [put_run; unfold stores; by rewrite Eput, Ez, Ec|done|done|done|exact Hi|exact Hg].
  - case_bool_decide as Hc.
    + eapply (puts_reply _ _ _ _ _ _ _ _ s'); [put_run; unfold stores; rewrite Eput, Ez, Ec, bool_decide_eq_true_2 by done; done|done|done|done|exact Hi|exact Hg].
    + eapply (puts_refused _ _ _ _ _ _ _ s'); [put_run; unfold stores; by rewrite Eput, Ez, Ec, bool_decide_eq_false_2|done|done].
  - eapply (puts_refused _ _ _ _ _ _ _ s'); [put_run; unfold stores; by rewrite Eput, Ez, Ec|done|done].
  - destruct (path_is_storable path) eqn:Hp; (eapply (puts_reply _ _ _ _ _ _ _ _ s'); [put_run; unfold stores, index_set; by rewrite Eput, Hp|done|done|done|..]);
      [exact Hi|exact Hg|exact Ht|by apply kept_at].
  - destruct (path_is_storable path) eqn:Hp; (eapply (puts_reply _ _ _ _ _ _ _ _ s'); [put_run; unfold stores, index_set; by rewrite Eput, Hp|done|done|done|..]);
      [exact Hi|exact Hg|exact Ht|by apply kept_at].
Qed.
End puts.


(** * Merge *)

(** What a binding of the source makes of the one that is there. *)
Definition merged (strategy : list Z) (source current : option Hash) : option Hash :=
  match source, current with
  | Some h, Some c => if bool_decide (strategy = lit "source-wins") then Some h else Some c
  | Some h, None => Some h
  | None, _ => current
  end.

Definition resolution (strategy : list Z) : list Z :=
  if bool_decide (strategy = lit "source-wins") then lit "used-incoming"
  else if bool_decide (strategy = lit "target-wins") then lit "kept-existing" else lit "unresolved".

Definition conflict_of (strategy : list Z) (source current : option Hash) : option (Hash * Hash * list Z) :=
  match source, current with
  | Some h, Some c => if bool_decide (c = h) then None else Some (c, h, resolution strategy)
  | _, _ => None
  end.

(** Whether a binding of the source counts as applied. *)
Definition applies (strategy : list Z) (source : Hash) (current : option Hash) : bool :=
  match current with
  | None => true
  | Some c => negb (bool_decide (c = source)) && bool_decide (strategy = lit "source-wins")
  end.

(** The binding of a source at a path below the prefix. *)
Definition source_at (prefix : list Z) (M : PathMap) (p : list Z) : option Hash :=
  match strip_prefix prefix p with Some rel => bt_get rel M | None => None end.

Section merges.
Context {St : Type} (ctx : HandlerContext) (prefix strategy : list Z) (dry : bool).

Definition after_merge (M : PathMap) (t : PathMap) (p : list Z) : option Hash :=
  if dry || negb (path_is_storable p) then index_get t p else merged strategy (source_at prefix M p) (index_get t p).

Definition applied_to (t : PathMap) (kv : list Z * Hash) : bool := applies strategy kv.2 (index_get t (prefix ++ kv.1)).

Lemma source_at_cons k h M p : bt_ok ((k, h) :: M) →
  source_at prefix ((k, h) :: M) p = if decide (p = prefix ++ k) then Some h else source_at prefix M p.
Proof.
  intros HM. unfold source_at. destruct (strip_prefix prefix p) as [rel|] eqn:E.
  - apply strip_prefix_Some in E as ->. rewrite bt_get_cons by done. case_decide as Hd.
    + apply app_inv_head in Hd as ->. by rewrite cmp_refl.
    + destruct (cmp rel k) eqn:Ec; [|done..]. apply cmp_eq in Ec. by subst.
  - rewrite decide_False; [done|]. intros ->. by rewrite strip_prefix_app in E.
Qed.

Lemma source_at_head k h M : bt_ok ((k, h) :: M) → source_at prefix M (prefix ++ k) = None.
Proof. intros [Hall _]%bt_ok_cons. unfold source_at. rewrite strip_prefix_app. by apply bt_get_below. Qed.

(** One binding: the tree, the counts and the conflicts. *)
Definition step_tree (k : list Z) (h : Hash) (t : PathMap) : PathMap :=
  if negb dry && path_is_storable (prefix ++ k) && applied_to t (k, h) then bt_insert (prefix ++ k) h t else t.

Definition step_merge (k : list Z) (h : Hash) (t : PathMap) (m : TreeMerge) : TreeMerge :=
  mkTreeMerge (mg_applied m + Z.b2z (applied_to t (k, h))) (mg_skipped m + Z.b2z (negb (applied_to t (k, h))))
    match conflict_of strategy (Some h) (index_get t (prefix ++ k)) with
    | Some c => bt_insert (prefix ++ k) c (mg_conflicts m)
    | None => mg_conflicts m
    end.

Lemma merge_binding_run k h m (s : St) (t : PathMap) :
  merge_binding ctx prefix strategy dry m (k, h) s t = Done (Ok (step_merge k h t m)) s (step_tree k h t).
Proof.
  unfold merge_binding, step_merge, step_tree, applied_to, applies, conflict_of, resolution.
  unfold andthen, asks, updates, skip, returns, index_get. cbn -[bt_insert bt_get app path_is_storable].
  change (index_get t (prefix ++ k)) with (bt_get (prefix ++ k) t). unfold index_set.
  destruct (bt_get (prefix ++ k) t) as [c|]; cbn -[bt_insert bt_get app path_is_storable].
  - case_bool_decide as Hc; cbn -[bt_insert bt_get app path_is_storable]; [by rewrite andb_false_r, !Z.add_0_r|].
    case_bool_decide as Hw; cbn -[bt_insert bt_get app path_is_storable].
    + destruct dry; cbn -[bt_insert bt_get app path_is_storable]; [by rewrite Z.add_0_r|].
      by destruct (path_is_storable _); rewrite Z.add_0_r.
    + rewrite andb_false_r. case_bool_decide; by rewrite Z.add_0_r.
  - destruct dry; cbn -[bt_insert bt_get app path_is_storable]; [by rewrite Z.add_0_r|].
    by destruct (path_is_storable _); rewrite Z.add_0_r.
Qed.

Lemma step_tree_get k h t p : bt_ok t →
  bt_ok (step_tree k h t)
  ∧ index_get (step_tree k h t) p = if dry || negb (path_is_storable p) then index_get t p else
      if decide (p = prefix ++ k) then merged strategy (Some h) (index_get t p) else index_get t p.
Proof.
  intros Ht. unfold step_tree, applied_to, applies. cbn [fst snd]. destruct (set_at t (prefix ++ k) h Ht) as [Hok Hg].
  destruct dry; [done|]. cbn [negb andb orb].
  destruct (path_is_storable (prefix ++ k)) eqn:Es; cbn [andb]; cycle 1.
  { split; [done|]. destruct (negb _) eqn:En; [done|]. case_decide; [|done]. subst. by rewrite Es in En. }
  destruct (index_get t (prefix ++ k)) as [c|] eqn:Ec; [case_bool_decide as Hc; [|case_bool_decide as Hw]|]; cbn [negb andb];
    (split; [done|]); rewrite ?Hg; case_decide as Hp; try (by destruct (negb _)); subst; rewrite ?Es, Ec; cbn; try done.
  all: repeat case_bool_decide; congruence.
Qed.
Definition count (P : list Z * Hash → bool) (M : list (list Z * Hash)) : Z := Z.of_nat (length (filter (λ kv, P kv = true) M)).

Lemma count_cons P kv M : count P (kv :: M) = Z.b2z (P kv) + count P M.
Proof.
  unfold count. destruct (P kv) eqn:E; [rewrite filter_cons_True by done|rewrite filter_cons_False by congruence]; cbn [length Z.b2z]; lia.
Qed.

Lemma count_ext P Q M : (∀ kv, kv ∈ M → P kv = Q kv) → count P M = count Q M.
Proof.
  induction M as [|kv M IH]; intros Heq; [done|]. rewrite !count_cons, (Heq kv), IH; [done| |by left].
  intros kv' Hin. apply Heq. by right.
Qed.

(** A whole merge: the tree it leaves, its counts and its conflicts. *)
Definition merges_to (M : PathMap) (t t' : PathMap) (m m' : TreeMerge) : Prop :=
  bt_ok t' ∧ (∀ p, index_get t' p = after_merge M t p)
  ∧ mg_applied m' = mg_applied m + count (applied_to t) M
  ∧ mg_skipped m' = mg_skipped m + count (λ kv, negb (applied_to t kv)) M
  ∧ bt_ok (mg_conflicts m')
  ∧ ∀ p, bt_get p (mg_conflicts m') = match conflict_of strategy (source_at prefix M p) (index_get t p) with
                                      | Some c => Some c
                                      | None => bt_get p (mg_conflicts m)
                                      end.

Lemma step_merge_conflicts k h t m p :
  bt_ok (mg_conflicts m) →
  bt_ok (mg_conflicts (step_merge k h t m))
  ∧ bt_get p (mg_conflicts (step_merge k h t m)) =
      if decide (p = prefix ++ k) then
        match conflict_of strategy (Some h) (index_get t p) with Some c => Some c | None => bt_get p (mg_conflicts m) end
      else bt_get p (mg_conflicts m).
Proof.
  intros Hm. cbn [mg_conflicts step_merge]. case_decide as Hp.
  - subst. destruct (conflict_of _ _ _); [|done]. split; [by apply bt_insert_ok|by apply bt_get_insert_eq].
  - destruct (conflict_of _ _ _); [|done]. split; [by apply bt_insert_ok|by apply bt_get_insert_ne].
Qed.

Lemma merge_fold M : ∀ m (s : St) t,
  bt_ok M → bt_ok t → bt_ok (mg_conflicts m) →
  ∃ m' t', fold_run (merge_binding ctx prefix strategy dry) m M s t = Done (Ok m') s t' ∧ merges_to M t t' m m'.
Proof.
  induction M as [|[k h] M IH]; intros m s t HM Ht Hc.
  { exists m, t. split; [done|]. split_and!; [done| |unfold count; cbn; lia|unfold count; cbn; lia|done|].
    - intros p. unfold after_merge, source_at. cbn. destruct (dry || _); [done|]. by destruct (strip_prefix prefix p).
    - intros p. unfold source_at. by destruct (strip_prefix prefix p). }
  pose proof HM as [Hbelow HM']%bt_ok_cons.
  assert (Hne : ∀ kv, kv ∈ M → prefix ++ kv.1 ≠ prefix ++ k).
  { intros kv Hin Heq%app_inv_head. rewrite Forall_forall in Hbelow. pose proof (Hbelow kv Hin : cmp k kv.1 = Lt) as Hlt.
    rewrite Heq in Hlt. by rewrite cmp_refl in Hlt. }
  destruct (IH (step_merge k h t m) s (step_tree k h t)) as (m' & t' & Erun & Ht' & Hg & Ha & Hsk & Hc' & Hcf);
    [done|by apply (step_tree_get k h t [])|by apply (step_merge_conflicts k h t m [])|].
  exists m', t'. cbn [fold_run]. erewrite andthen_run by apply merge_binding_run.
  split; [done|].
  assert (Happ : ∀ kv, kv ∈ M → applied_to (step_tree k h t) kv = applied_to t kv).
  { intros kv Hin. unfold applied_to. rewrite (proj2 (step_tree_get k h t _ Ht)). rewrite decide_False by by apply Hne. by destruct (dry || _). }
  split_and!; [done| | | |done|].
  - intros p. rewrite Hg. unfold after_merge. rewrite source_at_cons by done. rewrite (proj2 (step_tree_get k h t p Ht)).
    destruct (dry || _); [done|]. case_decide as Hp; [|done]. subst. by rewrite (source_at_head k h M HM).
  - rewrite Ha, count_cons, (count_ext _ _ _ Happ). cbn [step_merge mg_applied]. lia.
  - rewrite Hsk, count_cons, (count_ext _ (λ kv, negb (applied_to t kv)) M) by (intros kv Hin; by rewrite Happ).
    cbn [step_merge mg_skipped]. lia.
  - intros p. rewrite Hcf, source_at_cons by done. rewrite (proj2 (step_tree_get k h t p Ht)), (proj2 (step_merge_conflicts k h t m p Hc)).
    case_decide as Hp; [subst; by rewrite (source_at_head k h M HM)|]. by destruct (dry || _).
Qed.
End merges.


(** ** A whole merge *)

Section merge_runs.
Context {St : Type} `{HT : ContentStore St} `{HS : Sha2} `{!Sha2Ok} `{HC : Ciborium} `{!CiboriumDecodes} `{HB : Base58}.
Context (home : Z) (fuel : nat).
Hypothesis Hhome : digest_len_for_format home ≠ None.
Hypothesis Hfuel : (MAX_LEVELS < fuel)%nat.

(** The bindings of a snapshot are those of the trie at its root. *)
Lemma snapshot_decodes r M d (s : St) (t : PathMap) :
  d = to_ecf (snapshot_value r) → trie_at home s r M →
  decode_snapshot_bindings_with_store fuel d s t = Done (Ok (Some M)) s t.
Proof.
  intros -> Ha. pose proof (trie_root_ok home Hhome s r M Ha) as Hr.
  unfold decode_snapshot_bindings_with_store.
  rewrite <- (app_nil_r (to_ecf _)), from_reader_ecf;
    [|unfold snapshot_value; cbn [value_ok forallb fst snd text]; by rewrite (hash_bytes_ok r Hr)|cbn; unfold ciborium_recursion_limit; lia].
  unfold snapshot_value. rewrite ecf_norm_fields by reflexivity.
  cbn [map fst snd ecf_norm text mbind option_bind as_map].
  assert (Hf : (b ← cbor_map_get [(text (lit "root"), VBytes (to_bytes r))] "root"; b ← as_bytes b; ok (from_bytes b)) = Some r).
  { cbn [mbind option_bind]. change (cbor_map_get [(text (lit "root"), VBytes (to_bytes r))] "root") with (Some (VBytes (to_bytes r))).
    cbn [mbind option_bind as_bytes]. by rewrite from_bytes_to_bytes. }
  change (VText (lit "root")) with (text (lit "root")). rewrite Hf.
  erewrite andthen_run by done. rewrite (trie_at_collect home Hhome s r M fuel Ha Hfuel). by erewrite andthen_run by done.
Qed.
Lemma merge_refusal_none (local_peer_id : list Z) ctx targets p :
  merge_refusal local_peer_id ctx targets = None → p ∈ targets → authorize_path local_peer_id ctx (lit "put") p = None.
Proof.
  unfold merge_refusal. destruct (_ && _); [done|]. intros Hn Hp. destruct (authorize_path _ _ _ p) as [r|] eqn:E; [|done].
  assert (Hin : r ∈ omap (authorize_path local_peer_id ctx (lit "put")) targets) by (apply list_elem_of_omap; eauto).
  destruct (omap _ _); [by apply elem_of_nil in Hin|done].
Qed.
End merge_runs.

(** C21. A merge writes all of its bindings or none.  When any path is refused, or the strategy is
    not one of the three, the tree is as it was.  Otherwise the caller may put every path, and after
    the merge each path has what the strategy makes of the source's binding and the one that was
    there, a path the source does not bind or the index does not store is as it was, a dry run leaves
    everything, the counts are those of the bindings the strategy applies and of the others, and the
    conflicts are the paths bound to another hash, each with both hashes and its resolution. *)
Theorem merge_exact {St} `{HT : ContentStore St} `{HS : Sha2} `{!Sha2Ok} `{HC : Ciborium} `{!CiboriumDecodes} `{HB : Base58}
    (home source_home : Z) (local_peer_id : list Z) (fuel : nat) ctx m h e r M (s s1 : St) (t : PathMap) :
  digest_len_for_format source_home ≠ None → (MAX_LEVELS < fuel)%nat → bt_ok t →
  params_of ctx = Ok m → merge_source ctx m s t = Done (Ok (inr h)) s1 t →
  resolve_snapshot ctx h s1 = Some e → data e = to_ecf (snapshot_value r) → trie_at source_home s1 r M →
  let strategy := default (lit "no-overwrite") (map_get_text m "strategy") in
  let prefix := apply_prefix ctx (default [] (map_get_text m "source_prefix")) (default [] (map_get_text m "target_prefix")) in
  let dry := default false (map_get_bool m "dry_run") in
  let run := handle_merge home local_peer_id fuel ctx s t in
  if bool_decide (strategy ∈ STRATEGIES) then
    match merge_refusal local_peer_id ctx (map (λ kv, prefix ++ kv.1) M) with
    | Some refusal => run = Done (Ok refusal) s1 t
    | None =>
        (∀ kv, kv ∈ M → authorize_path local_peer_id ctx (lit "put") (prefix ++ kv.1) = None)
        ∧ ∃ merge t', run = Done (reply_of home TYPE_TREE_MERGE_RESULT (to_ecf (merge_value strategy merge))) s1 t'
            ∧ merges_to prefix strategy dry M t t' (mkTreeMerge 0 0 []) merge
    end
  else run = Done (Ok (Refused STATUS_BAD_REQUEST (lit "invalid_params"))) s1 t.
Proof.
  intros Hhome Hfuel Ht Hm Hsrc Hres Hdata Ha strategy prefix dry run. unfold run, handle_merge.
  erewrite andthen_run by (unfold tries; by rewrite Hm). erewrite andthen_run by exact Hsrc. fold strategy prefix dry.
  case_bool_decide as Hst; cbn [negb]; [|done].
  erewrite andthen_run by done. rewrite Hres.
  erewrite andthen_run by (by apply (snapshot_decodes source_home fuel Hhome Hfuel r M)). erewrite andthen_run by done.
  unfold merge_bindings. destruct (merge_refusal _ _ _) as [refusal|] eqn:Er; [done|]. split.
  - intros kv Hkv. apply (merge_refusal_none local_peer_id ctx _ _ Er). by apply (list_elem_of_fmap_2 (λ kv, prefix ++ kv.1)).
  - destruct (merge_fold (St := St) ctx prefix strategy dry M (mkTreeMerge 0 0 []) s1 t (proj1 (proj1 (proj2 Ha))) Ht) as (mg & t' & Erun & Hto);
      [apply (bool_decide_eq_true_1 _); reflexivity|].
    exists mg, t'. split; [|done]. erewrite andthen_run by exact Erun. apply reply_with_run.
Qed.

(** * Diff *)

Section diffs.

(** What a diff says of a path. *)
Definition added_at (base target : option Hash) : option Hash := match base with None => target | Some _ => None end.

Definition changed_at (base target : option Hash) : option (Hash * Hash) :=
  match base, target with
  | Some a, Some b => if bool_decide (a = b) then None else Some (a, b)
  | _, _ => None
  end.

Definition same_at (base : PathMap) (kv : list Z * Hash) : bool := bool_decide (bt_get kv.1 base = Some kv.2).

Lemma diff_target_fold base l : ∀ d, foldl (diff_target base) d l =
  mkTreeDiff
    (foldl (λ acc kv, match added_at (bt_get kv.1 base) (Some kv.2) with Some w => bt_insert kv.1 w acc | None => acc end) (df_added d) l)
    (foldl (λ acc kv, match changed_at (bt_get kv.1 base) (Some kv.2) with Some w => bt_insert kv.1 w acc | None => acc end) (df_changed d) l)
    (df_removed d) (df_unchanged d + count (same_at base) l).
Proof.
  induction l as [|kv l IH]; intros d; [destruct d; cbn; f_equal; unfold count; cbn; lia|].
  cbn [foldl]. rewrite IH, count_cons. unfold diff_target, changed_at, same_at. destruct (bt_get kv.1 base) as [b|] eqn:E; cbn [added_at].
  - destruct (decide (b = kv.2)) as [->|Hne].
    + rewrite !bool_decide_eq_true_2 by done. cbn. f_equal. lia.
    + rewrite !bool_decide_eq_false_2 by congruence. cbn. done.
  - rewrite bool_decide_eq_false_2 by done. cbn. done.
Qed.

Lemma diff_base_fold target l : ∀ d, foldl (diff_base target) d l =
  mkTreeDiff (df_added d) (df_changed d)
    (foldl (λ acc kv, match added_at (bt_get kv.1 target) (Some kv.2) with Some w => bt_insert kv.1 w acc | None => acc end) (df_removed d) l)
    (df_unchanged d).
Proof.
  induction l as [|kv l IH]; intros d; [by destruct d|]. cbn [foldl]. rewrite IH. unfold diff_base.
  by destruct (bt_get kv.1 target).
Qed.

(** The four parts of a diff, path by path. *)
Lemma diff_parts base target :
  bt_ok base → bt_ok target →
  let d := diff_bindings base target in
  bt_ok (df_added d) ∧ bt_ok (df_changed d) ∧ bt_ok (df_removed d)
  ∧ (∀ p, bt_get p (df_added d) = added_at (bt_get p base) (bt_get p target)
        ∧ bt_get p (df_changed d) = changed_at (bt_get p base) (bt_get p target)
        ∧ bt_get p (df_removed d) = added_at (bt_get p target) (bt_get p base))
  ∧ df_unchanged d = count (same_at base) target.
Proof.
  intros Hb Ht d. unfold d, diff_bindings. rewrite diff_target_fold, diff_base_fold. cbn [df_added df_changed df_removed df_unchanged].
  assert (Hnil : ∀ {V}, bt_ok (K := list Z) (V := V) []) by (intros; by constructor).
  destruct (bt_get_fill (λ kv, added_at (bt_get kv.1 base) (Some kv.2)) target [] Ht (Hnil _)) as [Ha1 Ha2].
  destruct (bt_get_fill (λ kv, changed_at (bt_get kv.1 base) (Some kv.2)) target [] Ht (Hnil _)) as [Hc1 Hc2].
  destruct (bt_get_fill (λ kv, added_at (bt_get kv.1 target) (Some kv.2)) base [] Hb (Hnil _)) as [Hr1 Hr2].
  split_and!; [done..| |lia]. intros p. rewrite Ha2, Hc2, Hr2. cbn [fst snd].
  by destruct (bt_get p base), (bt_get p target); cbn; try case_bool_decide.
Qed.
End diffs.

(** The binding that a diff makes of one of the base. *)
Definition patched (d : TreeDiff) (base : PathMap) (p : list Z) : option Hash :=
  match bt_get p (df_added d), bt_get p (df_changed d), bt_get p (df_removed d) with
  | Some h, _, _ | None, Some (_, h), _ => Some h
  | None, None, Some _ => None
  | None, None, None => bt_get p base
  end.

Lemma patched_base base target p : bt_ok base → bt_ok target → patched (diff_bindings base target) base p = bt_get p target.
Proof.
  intros Hb Ht. destruct (diff_parts base target Hb Ht) as (_ & _ & _ & Hp & _). destruct (Hp p) as (Ha & Hc & Hr).
  unfold patched. rewrite Ha, Hc, Hr. destruct (bt_get p base) as [a|], (bt_get p target) as [b|]; cbn; try done.
  by case_bool_decide as Hab; [rewrite Hab|].
Qed.

(** The diff of two snapshots: the reply is that of the difference of the bindings of the two
    tries, in which a path only the target binds is added, one only the base binds is removed, one
    both bind to different hashes is changed, and the others the target binds are counted; it makes
    the target of the base.  Neither the tree nor the store changes. *)
Theorem diff_exact {St} `{HT : ContentStore St} `{HS : Sha2} `{!Sha2Ok} `{HC : Ciborium} `{!CiboriumDecodes} `{HB : Base58}
    (home : Z) (fuel : nat) ctx m base_hash base_entity base_root base target_hash target_entity target_root target (s : St) (t : PathMap) :
  digest_len_for_format home ≠ None → (MAX_LEVELS < fuel)%nat →
  params_of ctx = Ok m → hash_param m "base" = Ok base_hash → hash_param m "target" = Ok target_hash →
  resolve_snapshot ctx base_hash s = Some base_entity → resolve_snapshot ctx target_hash s = Some target_entity →
  data base_entity = to_ecf (snapshot_value base_root) → trie_at home s base_root base →
  data target_entity = to_ecf (snapshot_value target_root) → trie_at home s target_root target →
  let d := diff_bindings base target in
  handle_diff home fuel ctx s t = Done (reply_of home TYPE_TREE_DIFF (to_ecf (diff_value base_hash target_hash d))) s t
  ∧ (∀ p, bt_get p (df_added d) = added_at (bt_get p base) (bt_get p target)
        ∧ bt_get p (df_changed d) = changed_at (bt_get p base) (bt_get p target)
        ∧ bt_get p (df_removed d) = added_at (bt_get p target) (bt_get p base))
  ∧ df_unchanged d = count (same_at base) target
  ∧ ∀ p, patched d base p = bt_get p target.
Proof.
  intros Hhome Hfuel Hm Hbh Hth Hbe Hte Hbd Hba Htd Hta d.
  pose proof (proj1 (proj1 (proj2 Hba))) as Hb. pose proof (proj1 (proj1 (proj2 Hta))) as Ht.
  destruct (diff_parts base target Hb Ht) as (_ & _ & _ & Hp & Hu). split_and!; [|done|done|intros p; by apply patched_base].
  unfold handle_diff. erewrite andthen_run by (unfold tries; by rewrite Hm). erewrite andthen_run by (unfold tries; by rewrite Hbh).
  erewrite andthen_run by (unfold tries; by rewrite Hth). erewrite andthen_run by done. rewrite Hbe.
  erewrite andthen_run by done. rewrite Hte.
  erewrite andthen_run by (by apply (snapshot_decodes home fuel Hhome Hfuel base_root base)). erewrite andthen_run by done.
  erewrite andthen_run by (by apply (snapshot_decodes home fuel Hhome Hfuel target_root target)). erewrite andthen_run by done.
  apply reply_with_run.
Qed.

(** * Witnesses *)

Transparent slot_range.

Section demo.
#[local] Existing Instances sum_sha2 sum_sha2_ok ref_ciborium ref_ciborium_decodes ref_writer plain_base58.

(** A put of the third entity at [app/a], if the first is bound there. *)
Definition app_put_ctx (target expected : list Z) : HandlerContext :=
  app_ctx "put" target (VMap [
    (text (lit "entity"), VMap [(text (lit "data"), integer 3); (text (lit "type"), text (lit "doc"));
                                (text (lit "content_hash"), VBytes (to_bytes (content_hash (app_entity 3))))]);
    (text (lit "expected_hash"), VBytes expected)]).

(** A put of it at a path with a [..] segment, whatever is bound there. *)
Definition app_dots_ctx : HandlerContext :=
  app_ctx "put" (lit "app/x/../y") (VMap [
    (text (lit "entity"), VMap [(text (lit "data"), integer 3); (text (lit "type"), text (lit "doc"));
                                (text (lit "content_hash"), VBytes (to_bytes (content_hash (app_entity 3))))])]).

(** It is answered as bound, with its hash, and is not: the index drops the write and relies on
    the handler's check, which looks for control characters alone. *)
Example put_answers_unbound :
  handle_put 0 demo_id app_dots_ctx app_store app_tree
  = Done (reply_of 0 TYPE_TREE_PUT_RESULT (to_ecf (VMap [(text (lit "content_hash"), VBytes (to_bytes (content_hash (app_entity 3))))]))) app_store app_tree.
Proof. vm_compute. reflexivity. Qed.


(** A store with the tries and the snapshots of two states of [app]. *)
Definition app_later_bindings : PathMap := Eval vm_compute in
  [(lit "b", content_hash (app_entity 3)); (lit "c", content_hash (app_entity 1))].

Definition app_snapshot (M : PathMap) : Entity :=
  match entity_new 0 TYPE_TREE_SNAPSHOT (to_ecf (snapshot_value (trie_root 0 M))) with Ok e => e | Err _ => mkEntity [] [] hash_zero end.

Definition app_full_store : ContentMap := Eval vm_compute in
  foldl (λ s e, (content_put s e).2) app_store
    (app_snapshot app_bindings :: app_snapshot app_later_bindings :: all_nodes 0 app_bindings ++ all_nodes 0 app_later_bindings).

Lemma app_trie_at M : M = app_bindings ∨ M = app_later_bindings → trie_at 0 app_full_store (trie_root 0 M) M.
Proof.
  intros HM. apply trie_stored_sound.
  - destruct HM as [-> | ->]; (split; [apply (bool_decide_eq_true_1 _); vm_compute; reflexivity|]);
      repeat (apply Forall_cons_2 || apply Forall_nil_2);
      (split; [apply key_ok_check; reflexivity|split; [vm_compute; reflexivity|apply (bool_decide_eq_true_1 _); vm_compute; reflexivity]]).
  - destruct HM as [-> | ->]; vm_compute; reflexivity.
Qed.

Definition app_merge_ctx : HandlerContext := app_request "merge" None (to_ecf (VMap [
  (text (lit "source"), VBytes (to_bytes (content_hash (app_snapshot app_later_bindings))));
  (text (lit "strategy"), text (lit "target-wins")); (text (lit "target_prefix"), text (lit "app/"))])).

Lemma merge_exact_witness :
  ∃ merge t', handle_merge 0 demo_id 60 app_merge_ctx app_full_store app_tree
    = Done (reply_of 0 TYPE_TREE_MERGE_RESULT (to_ecf (merge_value (lit "target-wins") merge))) app_full_store t'
  ∧ index_get t' (app_path (lit "c")) = Some (content_hash (app_entity 1))
  ∧ index_get t' (app_path (lit "b")) = Some (content_hash (app_entity 2))
  ∧ mg_applied merge = 1 ∧ mg_skipped merge = 1
  ∧ bt_get (app_path (lit "b")) (mg_conflicts merge)
    = Some (content_hash (app_entity 2), content_hash (app_entity 3), lit "kept-existing").
Proof.
  pose (m := match params_of app_merge_ctx with Ok m => m | Err _ => [] end).
  pose proof (merge_exact (HT := memory_store) 0 0 demo_id 60 app_merge_ctx m (content_hash (app_snapshot app_later_bindings))
    (app_snapshot app_later_bindings) (trie_root 0 app_later_bindings) app_later_bindings app_full_store app_full_store app_tree
    ltac:(discriminate) ltac:(apply Nat.ltb_lt; reflexivity) ltac:(apply (bool_decide_eq_true_1 _); vm_compute; reflexivity)
    ltac:(vm_compute; reflexivity) ltac:(vm_compute; reflexivity) ltac:(vm_compute; reflexivity) ltac:(vm_compute; reflexivity)
    (app_trie_at app_later_bindings (or_intror eq_refl))) as Hm.
  cbv zeta in Hm.
  assert (Es : default (lit "no-overwrite") (map_get_text m "strategy") = lit "target-wins") by (vm_compute; reflexivity).
  assert (Ed : default false (map_get_bool m "dry_run") = false) by (vm_compute; reflexivity).
  assert (Ep : apply_prefix app_merge_ctx (default [] (map_get_text m "source_prefix")) (default [] (map_get_text m "target_prefix")) = app_path [])
    by (vm_compute; reflexivity).
  assert (Er : merge_refusal demo_id app_merge_ctx (map (λ kv, app_path [] ++ kv.1) app_later_bindings) = None) by (vm_compute; reflexivity).
  rewrite Es, Ed, Ep, Er, bool_decide_eq_true_2 in Hm by (apply (bool_decide_eq_true_1 _); vm_compute; reflexivity).
  destruct Hm as (_ & merge & t' & Erun & _ & Hget & Ha & Hsk & _ & Hc). exists merge, t'. split; [exact Erun|].
  rewrite !Hget, Hc, Ha, Hsk. split_and!; vm_compute; reflexivity.
Defined.

Definition app_diff_ctx : HandlerContext := app_request "diff" None (to_ecf (VMap [
  (text (lit "base"), VBytes (to_bytes (content_hash (app_snapshot app_bindings))));
  (text (lit "target"), VBytes (to_bytes (content_hash (app_snapshot app_later_bindings))))])).

Lemma diff_exact_witness :
  let d := diff_bindings app_bindings app_later_bindings in
  handle_diff 0 60 app_diff_ctx app_full_store app_tree
  = Done (reply_of 0 TYPE_TREE_DIFF (to_ecf (diff_value (content_hash (app_snapshot app_bindings)) (content_hash (app_snapshot app_later_bindings)) d))) app_full_store app_tree
  ∧ bt_get (lit "a") (df_removed d) = Some (content_hash (app_entity 1))
  ∧ bt_get (lit "b") (df_changed d) = Some (content_hash (app_entity 2), content_hash (app_entity 3))
  ∧ bt_get (lit "c") (df_added d) = Some (content_hash (app_entity 1)) ∧ df_unchanged d = 0.
Proof.
  intros d.
  destruct (diff_exact (HT := memory_store) 0 60 app_diff_ctx (match params_of app_diff_ctx with Ok m => m | Err _ => [] end)
    (content_hash (app_snapshot app_bindings)) (app_snapshot app_bindings) (trie_root 0 app_bindings) app_bindings
    (content_hash (app_snapshot app_later_bindings)) (app_snapshot app_later_bindings) (trie_root 0 app_later_bindings) app_later_bindings
    app_full_store app_tree) as (Hrun & Hp & Hu & _).
  - discriminate.
  - apply Nat.ltb_lt. reflexivity.
  - vm_compute. reflexivity.
  - vm_compute. reflexivity.
  - vm_compute. reflexivity.
  - vm_compute. reflexivity.
  - vm_compute. reflexivity.
  - vm_compute. reflexivity.
  - exact (app_trie_at app_bindings (or_introl eq_refl)).
  - vm_compute. reflexivity.
  - exact (app_trie_at app_later_bindings (or_intror eq_refl)).
  - split; [exact Hrun|]. unfold d. split_and!; [rewrite (proj2 (proj2 (Hp _)))|rewrite (proj1 (proj2 (Hp _)))|rewrite (proj1 (Hp _))|rewrite Hu];
      vm_compute; reflexivity.
Defined.

(** ** Behaviours worth knowing *)

(** A get without a target reads the handler's own path instead of listing the tree. *)
Example get_without_target :
  let ctx := mkHandlerContext None None (mkEntity [] [] hash_zero) (mkEntity (lit "params") [] hash_zero)
    (lit "/" ++ demo_id ++ lit "/system/tree") [] None None None (lit "r1") (lit "get") ∅ None None None None false false in
  handle_get 0 demo_id ctx app_store app_tree = Done (Ok (Refused STATUS_NOT_FOUND (lit "not_found"))) app_store app_tree.
Proof. vm_compute. reflexivity. Qed.

(** An entity whose data is not in the shortest form. *)
Definition app_long_entity : Entity := Eval vm_compute in
  match new_with_format (lit "doc") [0x18; 3] 0 with Ok e => e | Err _ => mkEntity [] [] hash_zero end.

(** It is what its hash says and is refused: a put encodes the data anew before it checks the hash. *)
Example put_reencodes_data :
  entity_validate app_long_entity = Ok tt
  ∧ handle_put 0 demo_id (app_request "put" (Some (mkTarget [lit "app/a"] []))
        (encode_head MAJOR_MAP 1 ++ encode_cbor_text (lit "entity") ++ encode_entity app_long_entity)) app_store app_tree
    = Done (Ok (Refused STATUS_BAD_REQUEST (lit "hash_mismatch"))) app_store app_tree.
Proof. split; vm_compute; reflexivity. Qed.

(** A snapshot with a path of dots. *)
Definition app_dots : PathMap := Eval vm_compute in [(lit "../x", content_hash (app_entity 1))].

(** A merge counts as applied a path that the index does not store. *)
Example merge_counts_unstored :
  let ctx := app_request "merge" None (to_ecf (VMap [
    (text (lit "source"), VBytes (to_bytes (content_hash (app_snapshot app_dots)))); (text (lit "target_prefix"), text (lit "app/"))])) in
  let s := foldl (λ s e, (content_put s e).2) app_store (app_snapshot app_dots :: all_nodes 0 app_dots) in
  handle_merge 0 demo_id 60 ctx s app_tree
  = Done (reply_of 0 TYPE_TREE_MERGE_RESULT (to_ecf (merge_value (lit "no-overwrite") (mkTreeMerge 1 0 [])))) s app_tree.
Proof. vm_compute. reflexivity. Qed.

(** Without prefixes a merge on a peer's tree refuses what it says it binds at relative paths. *)
Example merge_without_prefix_refused :
  let ctx := app_request "merge" None (to_ecf (VMap [
    (text (lit "source"), VBytes (to_bytes (content_hash (app_snapshot app_later_bindings))))])) in
  handle_merge 0 demo_id 60 ctx app_full_store app_tree
  = Done (Ok (Refused STATUS_BAD_REQUEST (lit "invalid_path"))) app_full_store app_tree.
Proof. vm_compute. reflexivity. Qed.
End demo.
