(* ===== verification/TreeTransfer.v ===== *)
(** Bindings extracted on one peer and merged into the tree of another. *)
From S2P Require Import Prelude BTree Ecf Cbor ContentHash Paths Entity Walker Wire Identity Capability.
From S2P Require Import CapabilityCodec Store Trie Index Handler Response TrieSpec RootTracker Tree TreeOps TreeWrites.

(** * Envelopes of sound entities *)

Definition sound `{Sha2} (e : Entity) : Prop := wire_entity_ok e ∧ entity_validate e = Ok tt.

Section envelopes.
Context `{HS : Sha2}.

(** Including entities, each under its own hash. *)
Lemma include_all l : ∀ env,
  bt_ok (included env) → Forall sound l →
  let env' := foldl include env l in
  root env' = root env ∧ bt_ok (included env')
  ∧ (∀ h e, find_included env' h = Some e → find_included env h = Some e ∨ (e ∈ l ∧ content_hash e = h))
  ∧ (∀ h, is_Some (find_included env h) ∨ h ∈ map content_hash l → is_Some (find_included env' h)).
Proof.
  induction l as [|e l IH]; intros env Hok Hl; cbn [foldl map].
  { split_and!; [done|done|auto|]. by intros h [?|?%elem_of_nil]. }
  apply Forall_cons in Hl as [[_ Hv] Hl].
  assert (He : include env e = mkEnvelope (root env) (bt_insert (content_hash e) e (included env))).
  { unfold include. by rewrite include_key_valid. }
  rewrite He.
  destruct (IH (mkEnvelope (root env) (bt_insert (content_hash e) e (included env)))) as (Hr & Hok' & Hin & Hto);
    [by apply bt_insert_ok|done|].
  assert (Hget : ∀ h, find_included (mkEnvelope (root env) (bt_insert (content_hash e) e (included env))) h
    = if decide (h = content_hash e) then Some e else find_included env h).
  { intros h. unfold find_included. cbn [included]. case_decide as Hd; [subst; by apply bt_get_insert_eq|by apply bt_get_insert_ne]. }
  split_and!; [done|done| |].
  - intros h x Hx. destruct (Hin h x Hx) as [Hf|[? ?]]; [|by right; split; [right|]].
    rewrite Hget in Hf. case_decide; [|by left]. injection Hf as ->. right. by split; [left|].
  - intros h Hh. apply Hto. rewrite Hget. case_decide as Hd; [by left; eexists|].
    destruct Hh as [?|[?|?]%elem_of_cons]; [by left|done|by right].
Qed.

(** An envelope of sound entities, all of which are of [E]. *)
Definition carries (E : list Entity) (env : Envelope) : Prop :=
  sound (root env) ∧ root env ∈ E ∧ bt_ok (included env)
  ∧ ∀ h e, find_included env h = Some e → sound e ∧ content_hash e = h ∧ e ∈ E.

Lemma carries_wire E env : carries E env → len_ok (included env) = true → env_wire_ok env.
Proof.
  intros ([Hr _] & _ & Hok & Hall) Hl. split_and!; [done|done| |done]. apply Forall_forall. intros [h e] Hin.
  apply bt_get_elem in Hin; [|done]. destruct (Hall h e Hin) as ([? _] & ? & _). by split.
Qed.
End envelopes.

(** * Receiving *)

Section receive.
Context {St : Type} `{HT : ContentStore St} (wf : St → Prop) `{!ContentStoreOk St wf}.
Context `{HS : Sha2} `{HC : Ciborium}.

Lemma ingest_run {L} En l : ∀ (s : St) (t : L),
  wf s → fresh_for En s → (∀ e, e ∈ l → sound e ∧ e ∈ En) →
  ∃ s', ingest_included l s t = Done (Ok None) s' t ∧ wf s' ∧ grows En s s' ∧ holds l s'.
Proof.
  induction l as [|e l IH]; intros s t Hw Hf Hl.
  { exists s. split_and!; [done|done|apply grows_refl|]. by intros e ?%elem_of_nil. }
  destruct (Hl e ltac:(by left)) as [[_ Hv] Hin].
  destruct (stores_run wf Internal e s t En Hw Hf Hin) as (s1 & Er & Hw1 & Hg1 & Hh1).
  destruct (IH s1 t Hw1) as (s2 & Er2 & Hw2 & Hg2 & Hh2); [by eapply fresh_grows|intros x Hx; apply Hl; by right|].
  exists s2. cbn [ingest_included]. rewrite Hv. cbn [is_ok]. erewrite andthen_run by exact Er. split_and!; [done|done|by eapply grows_trans|].
  intros x [->|Hx]%elem_of_cons; [|by apply Hh2]. eapply grows_holds; [exact Hg2|exact Hh1|by left].
Qed.

(** A merge whose source is an envelope puts the envelope's entities into the store. *)
Lemma merge_source_run {L} En ctx m raw env (s : St) (t : L) :
  wf s → fresh_for En s → carries En env → len_ok (included env) = true → data_ok (encode_envelope env) →
  map_get_bytes m "source" = None → is_Some (cbor_map_get m "source_envelope") →
  cbor_map_field_raw (data (hc_params ctx)) (lit "source_envelope") = Some raw → envelope_bytes raw = encode_envelope env →
  ∃ s', merge_source ctx m s t = Done (Ok (inr (content_hash (root env)))) s' t
    ∧ wf s' ∧ grows En s s' ∧ holds (root env :: map snd (included env)) s'.
Proof.
  intros Hw Hf Hc Hl Hd Hsrc Hsome Hraw Hbytes. pose proof Hc as ([_ Hv] & Hin & Hok & Hall).
  destruct (decode_envelope_encode env []) as [Hdec _]; [by eapply carries_wire|by rewrite app_nil_r|]. rewrite app_nil_r in Hdec.
  destruct (ingest_run En (map snd (included env)) s t Hw Hf) as (s1 & Er1 & Hw1 & Hg1 & Hh1).
  { intros e (h & He)%included_values; [|done]. by destruct (Hall h e He) as (? & _ & ?). }
  destruct (stores_run wf Internal (root env) s1 t En Hw1) as (s2 & Er2 & Hw2 & Hg2 & Hh2); [by eapply fresh_grows|done|].
  exists s2. split_and!; [|done|by eapply grows_trans|].
  - unfold merge_source. erewrite andthen_run by (unfold tries; by rewrite Hsrc).
    rewrite (bool_decide_eq_true_2 _ Hsome). unfold ingest_source_envelope.
    erewrite andthen_run by (unfold tries; by rewrite Hraw). rewrite Hbytes, Hdec.
    erewrite andthen_run by exact Er1. rewrite Hv. cbn [is_ok]. by erewrite andthen_run by exact Er2.
  - intros x [->|Hx]%elem_of_cons; [apply Hh2; by left|]. eapply grows_holds; [exact Hg2|exact Hh1|done].
Qed.
End receive.

(** * Sending *)

(** From here on the 32 slots are never computed with. *)
Opaque slot_range.

Section send.
Context {St : Type} `{HT : ContentStore St}.
Context `{HS : Sha2} `{!Sha2Ok} `{HC : Ciborium} `{!CiboriumDecodes} `{HB : Base58} (home : Z).
Hypothesis Hhome : digest_len_for_format home ≠ None.

Lemma encoded_sound ty v d e :
  entity_new home ty (to_ecf v) = Ok e → utf8_valid ty && len_ok ty = true → ty ≠ [] → ty ≠ TYPE_PEER → good d v → sound e.
Proof.
  intros He [Hu Hl]%andb_true_iff Hne Hp [Hv _]. 
  destruct (new_supported ty (to_ecf v) home) as (e' & He' & Hty & Hd & Hh & Hval); [done|apply encode_value_ne|done|done|].
  unfold entity_new in He. rewrite He in He'. injection He' as <-. split; [|done].
  split_and!; rewrite ?Hty, ?Hd; [done..|by apply to_ecf_ok|by apply to_ecf_item|done].
Qed.

Lemma node_sound node : node_ok node → sound (the_entity home node).
Proof.
  intros Hn. destruct (the_entity_spec home Hhome node) as (He & _ & _).
  apply (encoded_sound TYPE_TREE_SNAPSHOT_NODE _ 5 _ He); [vm_compute; reflexivity|done|done|by apply node_value_good].
Qed.

Lemma below_sound n : ∀ level M e, bindings_ok M → e ∈ below home n level M → sound e.
Proof.
  induction n as [|n IH]; intros level M e HM He; [by apply elem_of_nil in He|].
  apply below_S in He as (p & _ & _ & [->|He]); [by apply node_sound, canon_ok, part_bindings_ok|].
  eapply IH; [|exact He]. by apply part_bindings_ok.
Qed.

Lemma nodes_sound M e : bindings_ok M → e ∈ all_nodes home M → sound e.
Proof. intros HM [->|He]%elem_of_cons; [by apply node_sound, canon_ok|by eapply below_sound]. Qed.

(** The entity of a snapshot of [M]. *)
Definition snapshot_entity (M : PathMap) : Entity :=
  match entity_new home TYPE_TREE_SNAPSHOT (to_ecf (snapshot_value (trie_root home M))) with
  | Ok e => e
  | Err _ => mkEntity [] [] hash_zero
  end.

Lemma snapshot_entity_spec M :
  entity_new home TYPE_TREE_SNAPSHOT (to_ecf (snapshot_value (trie_root home M))) = Ok (snapshot_entity M)
  ∧ data (snapshot_entity M) = to_ecf (snapshot_value (trie_root home M)) ∧ sound (snapshot_entity M).
Proof.
  destruct (entity_new_encoded home TYPE_TREE_SNAPSHOT (snapshot_value (trie_root home M))) as (e & He & _ & Hd & _); [done..|].
  unfold snapshot_entity. rewrite He. split_and!; [done|done|].
  apply (encoded_sound _ _ 2 _ He); [vm_compute; reflexivity|done|done|].
  apply good_map; [done|]. apply Forall_cons. split; [|by constructor].
  apply field_good; [vm_compute; reflexivity|]. apply hash_good; [lia|]. apply (the_entity_spec home Hhome).
Qed.

(** What an extract of [M] has to send. *)
Definition cargo (M : PathMap) (s : St) : list Entity :=
  snapshot_entity M :: all_nodes home M ++ omap (λ h, store_get h s) (map snd M).

(** Every binding's entity is in the store, and no node of the trie stands for another entity. *)
Definition sendable (M : PathMap) (s : St) : Prop :=
  (∀ h, h ∈ map snd M → ∃ e, store_get h s = Some e ∧ content_hash e = h ∧ sound e)
  ∧ fresh_for (snapshot_entity M :: build_nodes home M) s
  ∧ apart (all_nodes home M) M ∅ ∧ content_hash (snapshot_entity M) ∉ hashes_of (all_nodes home M).

Lemma extract_envelope_fold snapshot (M : PathMap) hs (s : St) :
  extract_envelope snapshot M hs s = foldl include (envelope_new snapshot)
    (snapshot :: omap (λ h, store_get h s) (filter (λ h, h ∉ map snd M ∧ h ≠ content_hash snapshot) hs ++ map snd M)).
Proof. reflexivity. Qed.

(** The envelope of an extract has all of it, and nothing else. *)
Lemma envelope_carries M s s' E :
  sendable M s → grows E s s' → agrees s' (snapshot_entity M) → trie_at home s' (trie_root home M) M →
  let env := extract_envelope (snapshot_entity M) M (elements (reach home MAX_LEVELS 0 M ∅)) s' in
  root env = snapshot_entity M ∧ carries (cargo M s) env
  ∧ (∀ e, e ∈ all_nodes home M → find_included env (content_hash e) = Some e)
  ∧ (∀ h, h ∈ map snd M → find_included env h = store_get h s).
Proof.
  intros (Hval & _ & Hapart & Hsnap) Hg Hag Ha. pose proof Ha as (_ & HM & _ & Hheld).
  destruct (snapshot_entity_spec M) as (_ & _ & Hs).
  pose proof (λ h, reach_sound home Hhome MAX_LEVELS 0 M ∅ h) as Hsound.
  pose proof (reach_complete home Hhome MAX_LEVELS 0 M ∅ Hapart) as Hcomplete.
  change (the_entity home (canon home MAX_LEVELS 0 M) :: below home MAX_LEVELS 0 M) with (all_nodes home M) in Hsound, Hcomplete.
  revert Hsound Hcomplete. generalize (reach home MAX_LEVELS 0 M ∅). intros reached Hsound Hcomplete.
  rewrite extract_envelope_fold.
  set (nodes := filter (λ h, h ∉ map snd M ∧ h ≠ content_hash (snapshot_entity M)) (elements reached)).
  assert (Hnode : ∀ h, h ∈ nodes → ∃ e, e ∈ all_nodes home M ∧ h = content_hash e ∧ store_get h s' = Some e).
  { intros h [[Hv _] Hr%elem_of_elements]%list_elem_of_filter.
    destruct (Hsound h Hr) as [?%elem_of_empty|[?|(e & -> & He)%list_elem_of_fmap]]; [done|done|].
    exists e. split_and!; [done|done|by apply Hheld]. }
  set (l := omap (λ h, store_get h s') (nodes ++ map snd M)). intros env.
  assert (Hl : ∀ e, e ∈ l → sound e ∧ store_get (content_hash e) s' = Some e ∧ e ∈ cargo M s).
  { intros e (h & [Hh|Hh]%elem_of_app & He)%list_elem_of_omap.
    - destruct (Hnode h Hh) as (e' & Hin & -> & He'). rewrite He' in He. injection He as ->.
      split_and!; [by eapply nodes_sound|done|]. unfold cargo. right. apply elem_of_app. by left.
    - destruct (Hval h Hh) as (e' & He' & Hc & Hsd). pose proof (proj1 Hg h e' He') as Hs'. rewrite Hs' in He. injection He as ->.
      rewrite Hc. split_and!; [done|done|]. right. apply elem_of_app. right. apply list_elem_of_omap. by exists h. }
  destruct (include_all (snapshot_entity M :: l) (envelope_new (snapshot_entity M))) as (Hr & Hok & Hin & Hto).
  { by constructor. }
  { constructor; [done|]. apply Forall_forall. intros e He. by apply Hl. }
  fold env in Hr, Hok, Hin, Hto. cbn [envelope_new root] in Hr.
  assert (Hc : carries (cargo M s) env).
  { split_and!; [by rewrite Hr|rewrite Hr; by left|done|]. intros h e [?|[[->|He]%elem_of_cons <-]]%Hin; [done|split_and!; [done|done|by left]|].
    by destruct (Hl e He) as (? & _ & ?). }
  assert (Hfind : ∀ h e, h ∈ nodes ++ map snd M → store_get h s' = Some e → content_hash e = h → find_included env h = Some e).
  { intros h e Hh He Hce. destruct (Hto h) as [x Hx].
    { right. right. apply list_elem_of_fmap. exists e. split; [done|]. apply list_elem_of_omap. by exists h. }
    rewrite Hx. f_equal. destruct (Hin h x Hx) as [?|[[->|Hxl]%elem_of_cons Hhx]]; [done| |].
    - symmetry. apply Hag. by rewrite Hhx.
    - destruct (Hl x Hxl) as (_ & Hsx & _). rewrite Hhx in Hsx. congruence. }
  split_and!; [done|done| |].
  - intros e He. apply Hfind; [|by apply Hheld|done]. apply elem_of_app. left. apply list_elem_of_filter. split.
    + destruct Hapart as [_ Hd]. destruct (Hd (content_hash e)) as [_ ?]; [by apply list_elem_of_fmap_2|]. split; [done|].
      intros Heq. apply Hsnap. rewrite <- Heq. by apply list_elem_of_fmap_2.
    + apply elem_of_elements, Hcomplete. by apply list_elem_of_fmap_2.
  - intros h Hh. destruct (Hval h Hh) as (e & He & Hce & _). rewrite He. apply Hfind; [apply elem_of_app; by right|by apply Hg|done].
Qed.
End send.

Lemma carries_len `{Sha2} E env : carries E env → len_ok E = true → len_ok (included env) = true.
Proof.
  intros (_ & _ & Hok & Hall) Hl. unfold len_ok in *. apply Z.leb_le in Hl. apply Z.leb_le.
  assert (Hle : (length (map fst (included env)) ≤ length (map content_hash E))%nat).
  { apply NoDup_incl_length; [apply NoDup_ListNoDup; by apply bt_keys_NoDup|]. intros h Hh. apply list_elem_of_In.
    apply list_elem_of_In, list_elem_of_fmap in Hh as ([k e] & -> & Hin). cbn. apply bt_get_elem in Hin; [|done].
    destruct (Hall k e Hin) as (_ & <- & ?). by apply list_elem_of_fmap_2. }
  rewrite !length_map in Hle. lia.
Qed.

(** * The transfer *)

(** C8. What one peer extracts, another merges.  The reply to an extract is the envelope of the
    snapshot, the nodes of its trie and the entities bound, as far as they can be told apart by
    their hashes; when that envelope, as it was encoded, is the source of a merge on another peer,
    and the caller may put every path, the merge has the source's bindings: every path has what the
    strategy makes of the binding extracted and the one that was there, and the store resolves every
    hash extracted to the entity it was bound to. *)
Theorem extract_merge_round_trip {St} `{HT : ContentStore St} (wf : St → Prop) `{!ContentStoreOk St wf}
    `{HS : Sha2} `{!Sha2Ok} `{HC : Ciborium} `{!CiboriumDecodes} `{HW : CiboriumWrites} `{HB : Base58}
    (home : Z) (local_peer_id : list Z) (fuel : nat) ctx q paths (s : St) (t : PathMap) :
  let M := extract_bindings local_peer_id ctx q paths t in
  digest_len_for_format home ≠ None → (MAX_LEVELS < fuel)%nat → wf s →
  bindings_ok M → separable MAX_LEVELS 0 M = true → sendable home M s → len_ok (cargo home M s) = true →
  ∃ r s', extract_at home local_peer_id fuel ctx q paths s t = Done (Ok (Answered (handler_ok r))) s' t
    ∧ entity_type r = TYPE_ENVELOPE
    ∧ ∀ home2 local_peer_id2 ctx2 m raw (s2 : St) (t2 : PathMap),
        digest_len_for_format home2 ≠ None → wf s2 → bt_ok t2 → data_ok (data r) →
        params_of ctx2 = Ok m → map_get_bytes m "source" = None → is_Some (cbor_map_get m "source_envelope") →
        cbor_map_field_raw (data (hc_params ctx2)) (lit "source_envelope") = Some raw → envelope_bytes raw = data r →
        fresh_for (cargo home M s) s2 →
        let strategy := default (lit "no-overwrite") (map_get_text m "strategy") in
        let prefix := apply_prefix ctx2 (default [] (map_get_text m "source_prefix")) (default [] (map_get_text m "target_prefix")) in
        let dry := default false (map_get_bool m "dry_run") in
        strategy ∈ STRATEGIES → merge_refusal local_peer_id2 ctx2 (map (λ kv, prefix ++ kv.1) M) = None →
        ∃ reply s2' t2', handle_merge home2 local_peer_id2 fuel ctx2 s2 t2 = Done (Ok reply) s2' t2'
          ∧ reply_status reply = STATUS_OK
          ∧ (∀ p, index_get t2' p = after_merge prefix strategy dry M t2 p)
          ∧ ∀ h, h ∈ map snd M → store_get h s2' = store_get h s.
Proof.
  intros M Hhome Hfuel Hw HM Hsep Hsend Hlen. pose proof Hsend as (Hval & Hfresh & _ & _).
  destruct (extract_at_run wf home local_peer_id fuel Hhome Hfuel ctx q paths s t Hw) as (s' & Erun & Hw' & Hg & Ha).
  { split_and!; [done|done|]. eapply fresh_sub; [|exact Hfresh]. intros e He. by right. }
  fold M in Erun, Hg, Ha.
  assert (Hag : agrees s' (snapshot_entity home M)).
  { intros e He. destruct Hfresh as [Hf1 Hf2]. destruct (proj2 Hg _ _ He) as [He'|[He' Hc]].
    - apply Hf1; [by left|done].
    - apply Hf2; [by right|by left|done]. }
  destruct (envelope_carries home Hhome M s s' _ Hsend Hg Hag Ha) as (Hroot & Hc & Hnodes & Hvals).
  revert Erun Hroot Hc Hnodes Hvals. unfold extract_reply. destruct (snapshot_entity_spec home Hhome M) as (-> & Hsd & Hss).
  cbn [map_err mbind result_bind]. generalize (extract_envelope (snapshot_entity home M) M (elements (reach home MAX_LEVELS 0 M ∅)) s').
  intros env Erun Hroot Hc Hnodes Hvals.
  destruct (new_supported TYPE_ENVELOPE (encode_envelope env) home) as (r & Hr & Hty & Hd & _); [done| |done|done|].
  { by rewrite encode_envelope_shape. }
  exists r, s'. split; [|split; [done|]].
  { rewrite Erun. unfold reply_of, entity_new. by rewrite Hr. }
  intros home2 local_peer_id2 ctx2 m raw s2 t2 Hhome2 Hw2 Ht2 Hdata Hm Hsrc Hsome Hraw Hbytes Hf2 Hst Href.
  rewrite Hd in Hdata, Hbytes.
  destruct (merge_source_run wf (cargo home M s) ctx2 m raw env s2 t2) as (s2' & Emerge & Hw2' & Hg2 & Hh2);
    [done..|by eapply carries_len|done|done|done|done|done|].
  assert (Hinc : ∀ h e, find_included env h = Some e → store_get h s2' = Some e).
  { intros h e He. destruct Hc as (_ & _ & Hok & Hall). destruct (Hall h e He) as (_ & <- & _). apply Hh2. right.
    apply included_values; [done|]. by eexists. }
  assert (Ha2 : trie_at home s2' (trie_root home M) M).
  { split_and!; [done..|]. intros e He. by apply Hinc, Hnodes. }
  assert (Hres : resolve_snapshot ctx2 (content_hash (root env)) s2' = Some (root env)).
  { unfold resolve_snapshot. by rewrite (Hh2 (root env)) by by left. }
  pose proof (merge_exact home2 home local_peer_id2 fuel ctx2 m _ (root env) (trie_root home M) M s2 s2' t2 Hhome Hfuel Ht2 Hm Emerge Hres
    ltac:(by rewrite Hroot) Ha2) as Hmerge.
  cbv zeta in Hmerge. rewrite (bool_decide_eq_true_2 _ Hst), Href in Hmerge.
  destruct Hmerge as (_ & merge & t2' & Erun2 & _ & Hget & _).
  destruct (reply_of_ok home2 Hhome2 TYPE_TREE_MERGE_RESULT (merge_value (default (lit "no-overwrite") (map_get_text m "strategy")) merge))
    as (reply & Ereply & Hstatus); [done..|].
  exists reply, s2', t2'. split_and!; [by rewrite Erun2, Ereply|done|done|].
  intros h Hh. destruct (Hval h Hh) as (e & He & _). rewrite He. apply Hinc. by rewrite Hvals.
Qed.

(** * Witnesses *)

Transparent slot_range.

Section demo.
#[local] Existing Instances sum_sha2 sum_sha2_ok ref_ciborium ref_ciborium_decodes ref_writer plain_base58.

Definition app_prefix : list Z := app_path [].
Definition app_extract_ctx : HandlerContext := app_ctx "extract" (lit "app/") VNull.

Definition app_envelope : Entity := Eval vm_compute in
  match extract_at 0 demo_id 60 app_extract_ctx app_prefix None app_store app_tree with
  | Done (Ok (Answered a)) _ _ => result_entity a
  | _ => mkEntity [] [] hash_zero
  end.

(** The parameters of a merge of that envelope under [app/copy], its bytes as they are. *)
Definition app_receive_params : list Z := Eval vm_compute in
  encode_head MAJOR_MAP 3 ++ encode_cbor_text (lit "strategy") ++ encode_cbor_text (lit "source-wins")
  ++ encode_cbor_text (lit "target_prefix") ++ encode_cbor_text (lit "app/copy/")
  ++ encode_cbor_text (lit "source_envelope") ++ data app_envelope.

Definition app_receive_ctx : HandlerContext := app_request "merge" None app_receive_params.

Definition app_receive_map : list (Value * Value) := Eval vm_compute in
  match params_of app_receive_ctx with Ok m => m | Err _ => [] end.

Lemma app_entity_sound n e : e = app_entity n → is_ok (entity_new 0 (lit "doc") (to_ecf (integer n))) = true → 0 ≤ n < 24 → sound e.
Proof.
  intros -> Hok Hn. unfold app_entity. destruct (entity_new 0 (lit "doc") (to_ecf (integer n))) as [e|] eqn:E; [|done].
  apply (encoded_sound 0 ltac:(discriminate) _ _ 1 _ E); [vm_compute; reflexivity|discriminate|discriminate|].
  split; [|done]. cbn. apply andb_true_iff. split; [apply Z.leb_le|apply Z.ltb_lt]; lia.
Qed.

Lemma app_sendable : sendable 0 app_bindings app_store.
Proof.
  split_and!.
  - intros h Hh. repeat (apply elem_of_cons in Hh as [->|Hh]; [eexists; split_and!; [vm_compute; reflexivity|vm_compute; reflexivity|]|]);
      [..|by apply elem_of_nil in Hh].
    + apply (app_entity_sound 1); [vm_compute; reflexivity|vm_compute; reflexivity|lia].
    + apply (app_entity_sound 2); [vm_compute; reflexivity|vm_compute; reflexivity|lia].
  - apply no_clash_fresh. vm_compute. reflexivity.
  - split; [apply (bool_decide_eq_true_1 _); vm_compute; reflexivity|].
    intros x Hx. revert x Hx. apply Forall_forall. apply (bool_decide_eq_true_1 _). vm_compute. reflexivity.
  - apply (bool_decide_eq_true_1 _). vm_compute. reflexivity.
Qed.

Lemma extract_merge_round_trip_witness :
  ∃ s', extract_at 0 demo_id 60 app_extract_ctx app_prefix None app_store app_tree = Done (Ok (Answered (handler_ok app_envelope))) s' app_tree
  ∧ ∃ reply s2 t2, handle_merge 0 demo_id 60 app_receive_ctx [] [] = Done (Ok reply) s2 t2
      ∧ index_get t2 (app_path (lit "copy/a")) = Some (content_hash (app_entity 1))
      ∧ index_get t2 (app_path (lit "copy/secret")) = None
      ∧ store_get (content_hash (app_entity 2)) s2 = Some (app_entity 2).
Proof.
  assert (HM : extract_bindings demo_id app_extract_ctx app_prefix None app_tree = app_bindings) by (vm_compute; reflexivity).
  destruct (extract_merge_round_trip (HT := memory_store) bt_ok 0 demo_id 60 app_extract_ctx app_prefix None app_store app_tree)
    as (r & s' & Erun & _ & Hmerge).
  - discriminate.
  - apply Nat.ltb_lt. reflexivity.
  - apply (bool_decide_eq_true_1 _). vm_compute. reflexivity.
  - rewrite HM. apply app_buildable.
  - rewrite HM. apply app_buildable.
  - rewrite HM. apply app_sendable.
  - vm_compute. reflexivity.
  - assert (r = app_envelope) as ->.
    { assert (Hc : match extract_at 0 demo_id 60 app_extract_ctx app_prefix None app_store app_tree with
                   | Done (Ok (Answered a)) _ _ => result_entity a | _ => mkEntity [] [] hash_zero end = app_envelope) by (vm_compute; reflexivity).
      by rewrite Erun in Hc. }
    exists s'. split; [exact Erun|]. rewrite HM in Hmerge.
    destruct (Hmerge 0 demo_id app_receive_ctx app_receive_map (data app_envelope) [] []) as (reply & s2 & t2 & Em & _ & Ht2 & Hs2).
    + discriminate.
    + apply (bool_decide_eq_true_1 _). vm_compute. reflexivity.
    + apply (bool_decide_eq_true_1 _). vm_compute. reflexivity.
    + apply (bool_decide_eq_true_1 _). vm_compute. reflexivity.
    + vm_compute. reflexivity.
    + vm_compute. reflexivity.
    + apply (bool_decide_eq_true_1 _). vm_compute. reflexivity.
    + vm_compute. reflexivity.
    + vm_compute. reflexivity.
    + apply no_clash_fresh. vm_compute. reflexivity.
    + apply (bool_decide_eq_true_1 _). vm_compute. reflexivity.
    + vm_compute. reflexivity.
    + exists reply, s2, t2. split_and!; [exact Em|rewrite Ht2; vm_compute; reflexivity|rewrite Ht2; vm_compute; reflexivity|].
      rewrite Hs2; [vm_compute; reflexivity|]. apply (bool_decide_eq_true_1 _). vm_compute. reflexivity.
Defined.
End demo.
