(* ===== verification/Content.v ===== *)
(** Content blobs ([extensions/content/src]: [fastcdc.rs], [chunker.rs], [verify.rs], [closure.rs]):
    bytes cut into chunks, the blob that lists them, putting them together again, and fetching
    what of a blob is missing.

    Sizes and offsets are [usize]; that a sum of an offset and a size of the parameters overflows
    would need a buffer of more than 2^60 bytes and is left out.  The shifts of [from_target] are
    checked: [None] is their panic. *)
From S2P Require Import Prelude BTree Ecf Cbor ContentHash Entity Capability Store Trie Index Handler.

Definition TYPE_CONTENT_BLOB : list Z := lit "system/content/blob".
Definition TYPE_CONTENT_CHUNK : list Z := lit "system/content/chunk".
Definition CONTENT_CHUNKING_FIXED : Z := 0.
Definition CONTENT_CHUNKING_FASTCDC : Z := 1.

(** * Boundaries ([fastcdc.rs]) *)

Fixpoint from_le_bytes (l : list Z) : Z := match l with [] => 0 | b :: l => b + 256 * from_le_bytes l end.

Definition gear_entry `{Sha2} (i : Z) : Z := from_le_bytes (take 8 (sha256 (lit "FastCDC" ++ [i]))).
Definition compute_gear_table `{Sha2} : list Z := map gear_entry (seqZ 0 256).

Record CdcParams := mkCdcParams { target_size : Z; min_size : Z; max_size : Z; mask_s : Z; mask_l : Z }.

Inductive ChunkerError := Invalid | StoreFailed | EntityFailed.

Definition USIZE_BITS : Z := 64.

(** [usize::BITS - 1 - target.leading_zeros()] of a positive target *)
Definition size_bits (target : Z) : Z := Z.log2 target.

(** [(1u64 << bits) - 1] *)
Definition checked_mask (bits : Z) : option Z := if bits <? USIZE_BITS then Some (Z.shiftl 1 bits - 1) else None.

Definition from_target (target : Z) : option (result ChunkerError CdcParams) :=
  if target =? 0 then Some (Err Invalid)
  else
    let bits := size_bits target in
    mask_s ← checked_mask (bits + 2);
    mask_l ← checked_mask (saturating_sub bits 2);
    Some (Ok (mkCdcParams target (target / 4) (Z.min (2 * target) u64_max) mask_s mask_l)).

(** [(fp << 1).wrapping_add(gear[b])] *)
Definition roll (gear : list Z) (fp b : Z) : Z := as_u64 (as_u64 (Z.shiftl fp 1) + nth (Z.to_nat b) gear 0).

(** One phase: from [i] up to [limit], the end of the chunk or the fingerprint so far and [i]. *)
Fixpoint phase (gear : list Z) (mask : Z) (data : list Z) (limit : nat) (fuel : nat) (fp : Z) (i : nat) : Z * nat + nat :=
  match fuel with
  | O => inl (fp, i)
  | S fuel =>
      if (i <? limit)%nat then
        let fp := roll gear fp (nth i data 0) in
        if Z.land fp mask =? 0 then inr (S i) else phase gear mask data limit fuel fp (S i)
      else inl (fp, i)
  end.

Definition find_boundary (gear : list Z) (data : list Z) (offset : Z) (params : CdcParams) : Z :=
  let len := Z.of_nat (length data) in
  let i := Z.to_nat (offset + min_size params) in
  let limit1 := Z.to_nat (Z.min (offset + target_size params) len) in
  match phase gear (mask_s params) data limit1 (limit1 - i) 0 i with
  | inr i => Z.of_nat i
  | inl (fp, i) =>
      let limit2 := Z.to_nat (Z.min (offset + max_size params) len) in
      match phase gear (mask_l params) data limit2 (limit2 - i) fp i with
      | inr i | inl (_, i) => Z.of_nat i
      end
  end.

(** * Cutting ([chunker.rs]) *)

Definition hash_to_bstr (h : Hash) : Value := VBytes (to_bytes h).

(** [&raw[a..b]], which panics outside the slice *)
Definition slice (raw : list Z) (a b : Z) : option (list Z) :=
  if (0 <=? a) && (a <=? b) && (b <=? Z.of_nat (length raw)) then Some (take (Z.to_nat (b - a)) (drop (Z.to_nat a) raw)) else None.

(** [std::io::Read] *)
Inductive ReadResult := ReadOk (bytes : list Z) | Interrupted | ReadFailed.
Class Read (R : Type) := read : Z → R → ReadResult * R.

Section chunker.
Context `{Sha2} {St : Type} `{ContentStore St} {L : Type} (home : Z).

Notation run := (Code ChunkerError St L).

Definition chunk_value (payload : list Z) : Value := VMap [(text (lit "payload"), VBytes payload)].

Definition put_chunk (payload : list Z) : run Hash :=
  chunk <~ tries (map_err (λ _, EntityFailed) (entity_new home TYPE_CONTENT_CHUNK (to_ecf (chunk_value payload))));;
  stores StoreFailed chunk.

Definition blob_value (total_size chunk_size chunking : Z) (chunks : list Hash) : Value :=
  VMap [(text (lit "total_size"), VInteger total_size); (text (lit "chunk_size"), VInteger chunk_size);
        (text (lit "chunking"), VInteger chunking); (text (lit "chunks"), VArray (map hash_to_bstr chunks))].

Definition put_blob (total_size chunk_size chunking : Z) (chunks : list Hash) : run Hash :=
  blob <~ tries (map_err (λ _, EntityFailed) (entity_new home TYPE_CONTENT_BLOB (to_ecf (blob_value total_size chunk_size chunking chunks))));;
  stores StoreFailed blob.

(** The loop both chunkers over a buffer share, each with its own next boundary. *)
Fixpoint cut_loop (boundary : Z → Z) (raw : list Z) (fuel : nat) (offset : Z) (chunks : list Hash) : run (list Hash) :=
  match fuel with
  | O => λ _ _, Stuck
  | S fuel =>
      if offset <? Z.of_nat (length raw) then
        let end_ := boundary offset in
        payload <~ unwraps (slice raw offset end_);;
        chunk_hash <~ put_chunk payload;;
        cut_loop boundary raw fuel end_ (chunks ++ [chunk_hash])
      else returns chunks
  end.

Definition fixed_boundary (raw : list Z) (chunk_size offset : Z) : Z := Z.min (offset + chunk_size) (Z.of_nat (length raw)).

Definition create_blob_fixed (raw : list Z) (chunk_size : Z) : run Hash :=
  if chunk_size =? 0 then throws Invalid
  else
    chunks <~ cut_loop (fixed_boundary raw chunk_size) raw (S (length raw)) 0 [];;
    put_blob (Z.of_nat (length raw)) chunk_size CONTENT_CHUNKING_FIXED chunks.

Definition cdc_boundary (raw : list Z) (params : CdcParams) (offset : Z) : Z :=
  let remaining := Z.of_nat (length raw) - offset in
  if remaining <=? min_size params then offset + remaining else find_boundary compute_gear_table raw offset params.

Definition create_blob_fastcdc (raw : list Z) (target_size : Z) : run Hash :=
  params <~ unwraps (from_target target_size);;
  params <~ tries params;;
  chunks <~ cut_loop (cdc_boundary raw params) raw (S (length raw)) 0 [];;
  put_blob (Z.of_nat (length raw)) target_size CONTENT_CHUNKING_FASTCDC chunks.

(** ** From a reader *)

Context {R : Type} `{Read R}.

(** Reads until [want] bytes are there or the reader has no more; whether it has is the flag. *)
Fixpoint fill (fuel : nat) (want : Z) (filled : list Z) (reader : R) : option (result ChunkerError (list Z * bool) * R) :=
  match fuel with
  | O => None
  | S fuel =>
      if Z.of_nat (length filled) <? want then
        match read (want - Z.of_nat (length filled)) reader with
        | (ReadOk [], reader) => Some (Ok (filled, true), reader)
        | (ReadOk bytes, reader) => fill fuel want (filled ++ bytes) reader
        | (Interrupted, reader) => fill fuel want filled reader
        | (ReadFailed, reader) => Some (Err EntityFailed, reader)
        end
      else Some (Ok (filled, false), reader)
  end.

Definition fill_buffer (fuel : nat) (params : CdcParams) (buf : list Z) (eof : bool) (reader : R)
    : option (result ChunkerError (list Z * bool) * R) :=
  if negb eof && (Z.of_nat (length buf) <? max_size params) then
    '(r, reader) ← fill fuel (max_size params - Z.of_nat (length buf)) [] reader;
    Some ('(bytes, eof) ← r; Ok (buf ++ bytes, eof), reader)
  else Some (Ok (buf, eof), reader).

Fixpoint stream_loop (params : CdcParams) (reads fuel : nat) (buf : list Z) (eof : bool) (reader : R)
    (chunks : list Hash) (total_size : Z) : run (list Hash * Z) :=
  match fuel with
  | O => λ _ _, Stuck
  | S fuel =>
      if negb eof || negb (bool_decide (buf = [])) then
        filled <~ unwraps (fill_buffer reads params buf eof reader);;
        let '(r, reader) := filled in
        r <~ tries r;;
        let '(buf, eof) := r in
        if bool_decide (buf = []) then returns (chunks, total_size)
        else
          let len := Z.of_nat (length buf) in
          let end_ := if len <=? min_size params then len else find_boundary compute_gear_table buf 0 params in
          payload <~ unwraps (slice buf 0 end_);;
          chunk_hash <~ put_chunk payload;;
          let chunks := chunks ++ [chunk_hash] in
          let total_size := total_size + end_ in
          let buf := drop (Z.to_nat end_) buf in
          if eof && bool_decide (buf = []) then returns (chunks, total_size)
          else stream_loop params reads fuel buf eof reader chunks total_size
      else returns (chunks, total_size)
  end.

Definition create_blob_fastcdc_stream (reads fuel : nat) (reader : R) (target_size : Z) : run Hash :=
  params <~ unwraps (from_target target_size);;
  params <~ tries params;;
  cut <~ stream_loop params reads fuel [] false reader [] 0;;
  put_blob cut.2 target_size CONTENT_CHUNKING_FASTCDC cut.1.
End chunker.

(** * Reading back ([verify.rs]) *)

Inductive VerifyError :=
  | BlobMissing (h : Hash) | NotABlob | BadBlob | ChunkMissing (h : Hash) | EmptyChunk (h : Hash)
  | SizeMismatch (declared actual : Z).

Definition value_to_u64 (v : Value) : option Z := match v with VInteger i => try_u64 i | _ => None end.

Definition decode_hash_record (v : Value) : option Hash := b ← as_bytes v; ok (from_bytes b).

Section verify.
Context `{Ciborium} {St : Type} `{ContentStore St}.

Definition decode_blob (blob_hash : Hash) (s : St) : result VerifyError (Z * list Hash) :=
  blob ← ok_or (BlobMissing blob_hash) (store_get blob_hash s);
  if negb (bool_decide (entity_type blob = TYPE_CONTENT_BLOB)) then Err NotABlob
  else
    v ← ok_or BadBlob (from_reader (data blob));
    total_size ← ok_or BadBlob (x ← value_get v (lit "total_size"); value_to_u64 x);
    chunks ← ok_or BadBlob (x ← value_get v (lit "chunks"); as_array x);
    hashes ← ok_or BadBlob (mapO decode_hash_record chunks);
    Ok (total_size, hashes).

Definition blob_chunk_hashes : Hash → St → result VerifyError (Z * list Hash) := decode_blob.

Definition blob_chunk_size (blob : Entity) : result VerifyError Z :=
  if negb (bool_decide (entity_type blob = TYPE_CONTENT_BLOB)) then Err NotABlob
  else
    v ← ok_or BadBlob (from_reader (data blob));
    ok_or BadBlob (x ← value_get v (lit "chunk_size"); value_to_u64 x).

(** No payload, or one that is not bytes, is an empty one. *)
Definition chunk_payload_bytes (chunk : Entity) : option (list Z) :=
  v ← from_reader (data chunk);
  Some (default [] (p ← value_get v (lit "payload"); as_bytes p)).

Definition chunk_payload_len (chunk : Entity) : option Z :=
  v ← from_reader (data chunk);
  Some (default 0 (p ← value_get v (lit "payload"); b ← as_bytes p; Some (Z.of_nat (length b)))).

Definition saturating_add (a b : Z) : Z := Z.min (a + b) u64_max.

Definition verify_step (s : St) (actual : Z) (h : Hash) : result VerifyError Z :=
  chunk ← ok_or (ChunkMissing h) (store_get h s);
  payload_len ← ok_or BadBlob (chunk_payload_len chunk);
  if payload_len =? 0 then Err (EmptyChunk h) else Ok (saturating_add actual payload_len).

Definition verify_content (blob_hash : Hash) (s : St) : result VerifyError unit :=
  '(declared, hashes) ← decode_blob blob_hash s;
  actual ← foldM (verify_step s) 0 hashes;
  if negb (actual =? declared) then Err (SizeMismatch declared actual) else Ok tt.

Definition payload_of (s : St) (h : Hash) : result VerifyError (list Z) :=
  chunk ← ok_or (ChunkMissing h) (store_get h s); ok_or BadBlob (chunk_payload_bytes chunk).

(** [Vec::with_capacity] of the declared size panics above [isize::MAX]: [None]. *)
Definition reassemble (blob_hash : Hash) (s : St) : option (result VerifyError (list Z)) :=
  match decode_blob blob_hash s with
  | Err e => Some (Err e)
  | Ok (total_size, hashes) =>
      if i64_max <? total_size then None
      else Some (foldM (λ out h, payload ← payload_of s h; Ok (out ++ payload)) [] hashes)
  end.

(** [std::io::Write]: what [write_all] makes of the sink, if it does not fail *)
Context {W : Type} (write_all : list Z → W → option W).

Definition reassemble_stream (blob_hash : Hash) (s : St) (writer : W) : result VerifyError (Z * W) :=
  '(_, hashes) ← decode_blob blob_hash s;
  foldM (λ '(written, writer) h,
    payload ← payload_of s h;
    writer ← ok_or BadBlob (write_all payload writer);
    Ok (written + Z.of_nat (length payload), writer)) (0, writer) hashes.
End verify.

(** * Fetching what is missing ([closure.rs]) *)

Definition GET_BATCH_SIZE : nat := 16.
Definition MAX_PENDING_SYNC_RETRIES : Z := 8.
Definition STATUS_UNAVAILABLE : Z := 503.

Inductive EnsureClosureError :=
  | Forbidden | NotFoundHere (h : Hash) | PendingSync (retries : Z) | Dispatch (st : Z) | StoreRefused | Decode
  | Verify (e : VerifyError).

(** [slice.chunks(n)] *)
Fixpoint windows {A} (n : nat) (fuel : nat) (l : list A) : list (list A) :=
  match fuel, l with
  | S fuel, _ :: _ => take n l :: windows n fuel (drop n l)
  | _, _ => []
  end.

Section closure.
Context `{Sha2} `{Ciborium} {St : Type} `{ContentStore St} {L : Type} (home : Z).
(** [Dispatcher::execute], of a handler's path, an operation, its parameters and a resource *)
Context (execute : list Z → list Z → Entity → ResourceTarget → Code HandlerError St L HandlerResult).

Notation run := (Code EnsureClosureError St L).

Definition get_request_value (hashes : list Hash) : Value := VMap [(text (lit "hashes"), VArray (map hash_to_bstr hashes))].

(** [None] is the panic of an entity that cannot be built. *)
Definition build_get_request (hashes : list Hash) : option Entity :=
  ok (entity_new home (lit "system/content/get-request") (to_ecf (get_request_value hashes))).

(** A run with its failures under another name. *)
Definition renames {E E' A} (e : E → E') (m : Code E St L A) : Code E' St L A :=
  λ s t, match m s t with
         | Done r s t => Done (map_err e r) s t
         | Stuck => Stuck
         end.

Definition store_all (entities : list Entity) : run unit :=
  fold_run (λ _ entity, _ <~ stores StoreRefused entity;; skip) tt entities.

Definition fetch_and_store (namespace : list Z) (hashes : list Hash) : run unit :=
  params <~ unwraps (build_get_request hashes);;
  r <~ renames (λ _, Decode) (execute namespace (lit "get") params (mkTarget [namespace] []));;
  if status r =? STATUS_OK then store_all (map snd (map_to_list (hr_included r)))
  else if status r =? STATUS_FORBIDDEN then throws Forbidden
  else if status r =? STATUS_NOT_FOUND then throws (NotFoundHere (default hash_zero (head hashes)))
  else if status r =? STATUS_UNAVAILABLE then skip
  else throws (Dispatch (status r)).

Fixpoint fetch_blob (namespace : list Z) (blob_hash : Hash) (fuel : nat) (retries : Z) : run unit :=
  match fuel with
  | O => λ _ _, Stuck
  | S fuel =>
      here <~ asks (λ s _, store_get blob_hash s);;
      match here with
      | Some _ => skip
      | None =>
          _ <~ fetch_and_store namespace [blob_hash];;
          here <~ asks (λ s _, store_get blob_hash s);;
          match here with
          | Some _ => skip
          | None =>
              let retries := retries + 1 in
              if MAX_PENDING_SYNC_RETRIES <? retries then throws (PendingSync retries)
              else fetch_blob namespace blob_hash fuel retries
          end
      end
  end.

Definition missing_here (hashes : list Hash) (s : St) : list Hash := filter (λ h, store_get h s = None) hashes.

Fixpoint fetch_chunks (namespace : list Z) (fuel : nat) (missing : list Hash) (retries : Z) : run unit :=
  match fuel with
  | O => λ _ _, Stuck
  | S fuel =>
      if bool_decide (missing = []) then skip
      else
        _ <~ fold_run (λ _ window, fetch_and_store namespace window) tt (windows GET_BATCH_SIZE (length missing) missing);;
        still_missing <~ asks (λ s _, missing_here missing s);;
        if bool_decide (still_missing = []) then skip
        else
          let retries := retries + 1 in
          if MAX_PENDING_SYNC_RETRIES <? retries then throws (PendingSync retries)
          else fetch_chunks namespace fuel still_missing retries
  end.

(** Ten turns: the first and one for each retry. *)
Definition closure_fuel : nat := 10.

Definition ensure_closure (blob_hash : Hash) (namespace : list Z) : run unit :=
  _ <~ fetch_blob namespace blob_hash closure_fuel 0;;
  blob <~ asks (λ s _, blob_chunk_hashes blob_hash s);;
  blob <~ tries (map_err Verify blob);;
  missing <~ asks (λ s _, missing_here blob.2 s);;
  fetch_chunks namespace closure_fuel missing 0.
End closure.
