(* ===== verification/ContentSpec.v ===== *)
(** What chunking promises: where the chunks end, that a reader gives the chunks of the buffer,
    and that a blob gives back what it was made of. *)
From S2P Require Import Prelude BTree Ecf Cbor ContentHash Entity Walker Wire Capability CapabilityCodec Store Trie Index Handler.
From S2P Require Import Response TrieSpec RootTracker Content.

(** * Boundaries *)

Section boundaries.
Context (gear : list Z).

(** A phase over the bytes ahead, at most [n] of them. *)
Fixpoint scan (mask fp : Z) (n : nat) (l : list Z) (i : nat) : Z * nat + nat :=
  match n, l with
  | S n, b :: l => let fp := roll gear fp b in if Z.land fp mask =? 0 then inr (S i) else scan mask fp n l (S i)
  | _, _ => inl (fp, i)
  end.

Lemma phase_scan mask data limit fuel : ∀ fp i,
  (limit ≤ length data)%nat → fuel = (limit - i)%nat →
  phase gear mask data limit fuel fp i = scan mask fp fuel (drop i data) i.
Proof.
  induction fuel as [|fuel IH]; intros fp i Hl Hf; [by destruct (drop i data)|]. cbn [phase].
  rewrite (proj2 (Nat.ltb_lt i limit)) by lia.
  destruct (lookup_lt_is_Some_2 data i ltac:(lia)) as [b Hb]. rewrite (drop_S _ _ _ Hb). cbn [scan].
  rewrite (nth_lookup_Some _ _ _ _ Hb). destruct (_ =? 0); [done|]. apply IH; [done|lia].
Qed.

Lemma scan_take mask n : ∀ fp l i, scan mask fp n l i = scan mask fp n (take n l) i.
Proof. induction n as [|n IH]; intros fp l i; [done|]. destruct l as [|b l]; [done|]. cbn [scan take]. destruct (_ =? 0); [done|]. apply IH. Qed.

Lemma scan_min mask n : ∀ fp l i, scan mask fp n l i = scan mask fp (n `min` length l) l i.
Proof. induction n as [|n IH]; intros fp l i; [done|]. destruct l as [|b l]; [done|]. cbn [scan length Nat.min]. destruct (_ =? 0); [done|]. apply IH. Qed.

Lemma scan_spec mask n : ∀ fp l i,
  match scan mask fp n l i with
  | inr j => (i < j ≤ i + n `min` length l)%nat
  | inl (_, j) => j = (i + n `min` length l)%nat
  end.
Proof.
  induction n as [|n IH]; intros fp l i; [cbn; lia|]. destruct l as [|b l]; [cbn; lia|]. cbn [scan].
  destruct (_ =? 0); [cbn; lia|]. specialize (IH (roll gear fp b) l (S i)). destruct (scan _ _ _ _ _) as [[fp' j]|j]; cbn [length]; lia.
Qed.

(** What is found is found whatever follows. *)
Lemma scan_app mask n e : ∀ fp l i,
  match scan mask fp n l i with
  | inr j => scan mask fp n (l ++ e) i = inr j
  | inl r => (n ≤ length l)%nat → scan mask fp n (l ++ e) i = inl r
  end.
Proof.
  induction n as [|n IH]; intros fp l i; [cbn; by destruct (l ++ e)|]. destruct l as [|b l]; [cbn; lia|]. cbn [scan app length].
  destruct (_ =? 0); [done|]. specialize (IH (roll gear fp b) l (S i)). destruct (scan _ _ _ _ _); [|done]. intros. apply IH. lia.
Qed.

Lemma scan_shift mask n off : ∀ fp l i,
  scan mask fp n l (off + i) =
    match scan mask fp n l i with inl (fp, j) => inl (fp, (off + j)%nat) | inr j => inr (off + j)%nat end.
Proof.
  induction n as [|n IH]; intros fp l i; [done|]. destruct l as [|b l]; [done|]. cbn [scan].
  destruct (_ =? 0); [f_equal; lia|]. by rewrite <- IH, Nat.add_succ_r.
Qed.

(** ** Where a chunk ends, from the bytes from its start on *)

Definition params_ok (p : CdcParams) : Prop :=
  0 ≤ min_size p ≤ target_size p ∧ target_size p ≤ max_size p ∧ min_size p < max_size p.

Definition cut (p : CdcParams) (l : list Z) : nat :=
  let a := Z.to_nat (min_size p) in
  match scan (mask_s p) 0 (Z.to_nat (target_size p) - a) (drop a l) a with
  | inr i => i
  | inl (fp, i) => match scan (mask_l p) fp (Z.to_nat (max_size p) - i) (drop i l) i with inr i | inl (_, i) => i end
  end.

Lemma limit_left off size (i len : nat) : 0 ≤ off → 0 ≤ size →
  ((Z.to_nat (Z.min (off + size) (Z.of_nat len)) - (Z.to_nat off + i)) `min` (len - (Z.to_nat off + i))
   = (Z.to_nat size - i) `min` (len - (Z.to_nat off + i)))%nat.
Proof. lia. Qed.

Lemma find_boundary_cut p data off :
  params_ok p → 0 ≤ off → off + min_size p ≤ Z.of_nat (length data) →
  find_boundary gear data off p = off + Z.of_nat (cut p (drop (Z.to_nat off) data)).
Proof.
  intros (Hmin & Htarget & _) Hoff Hlen. unfold find_boundary, cut.
  set (len := Z.of_nat (length data)) in *. set (o := Z.to_nat off). set (a := Z.to_nat (min_size p)).
  assert (Ha : Z.to_nat (off + min_size p) = (o + a)%nat) by (unfold o, a; lia). rewrite Ha.
  rewrite phase_scan by (unfold len; lia). rewrite drop_drop.
  set (l := drop (o + a) data). assert (Hl : length l = (length data - (o + a))%nat) by (unfold l; by rewrite length_drop).
  assert (E1 : scan (mask_s p) 0 (Z.to_nat (Z.min (off + target_size p) len) - (o + a)) l (o + a)
    = match scan (mask_s p) 0 (Z.to_nat (target_size p) - a) l a with inl (fp, j) => inl (fp, (o + j)%nat) | inr j => inr (o + j)%nat end).
  { rewrite scan_shift, scan_min, (scan_min _ (Z.to_nat (target_size p) - a)).
    rewrite Hl. unfold len, o. by rewrite limit_left by lia. }
  rewrite E1. pose proof (scan_spec (mask_s p) (Z.to_nat (target_size p) - a) 0 l a) as Hs.
  destruct (scan (mask_s p) 0 (Z.to_nat (target_size p) - a) l a) as [[fp i]|i]; [|lia].
  rewrite phase_scan by (unfold len; lia). rewrite drop_drop.
  assert (E2 : scan (mask_l p) fp (Z.to_nat (Z.min (off + max_size p) len) - (o + i)) (drop (o + i) data) (o + i)
    = match scan (mask_l p) fp (Z.to_nat (max_size p) - i) (drop (o + i) data) i with inl (fp, j) => inl (fp, (o + j)%nat) | inr j => inr (o + j)%nat end).
  { rewrite scan_shift, scan_min, (scan_min _ (Z.to_nat (max_size p) - i)). rewrite length_drop.
    unfold len, o. by rewrite limit_left by lia. }
  rewrite E2. destruct (scan (mask_l p) fp _ _ i) as [[fp' j]|j]; lia.
Qed.

(** A chunk that ends at a boundary is longer than the minimum and not longer than the maximum. *)
Lemma cut_bounds p l :
  params_ok p → min_size p < Z.of_nat (length l) →
  min_size p < Z.of_nat (cut p l) ≤ Z.min (max_size p) (Z.of_nat (length l)).
Proof.
  intros (Hmin & Htarget & Hmax) Hlen. unfold cut. set (a := Z.to_nat (min_size p)).
  pose proof (scan_spec (mask_s p) (Z.to_nat (target_size p) - a) 0 (drop a l) a) as Hs. rewrite length_drop in Hs.
  destruct (scan (mask_s p) _ _ _ a) as [[fp i]|i]; [|lia].
  pose proof (scan_spec (mask_l p) (Z.to_nat (max_size p) - i) fp (drop i l) i) as Hs2. rewrite length_drop in Hs2.
  destruct (scan (mask_l p) _ _ _ i) as [[fp' j]|j]; lia.
Qed.

(** What follows a chunk that ends at a boundary does not matter. *)
Lemma cut_app p l e :
  params_ok p → min_size p < Z.of_nat (length l) → (cut p l < length l)%nat ∨ max_size p ≤ Z.of_nat (length l) →
  cut p (l ++ e) = cut p l.
Proof.
  intros (Hmin & Htarget & Hmax) Hlen Hc. unfold cut in *. set (a := Z.to_nat (min_size p)) in *.
  rewrite (drop_app_le l e a) by lia.
  pose proof (scan_app (mask_s p) (Z.to_nat (target_size p) - a) e 0 (drop a l) a) as Happ. rewrite length_drop in Happ.
  pose proof (scan_spec (mask_s p) (Z.to_nat (target_size p) - a) 0 (drop a l) a) as Hs. rewrite length_drop in Hs.
  destruct (scan (mask_s p) _ _ (drop a l) a) as [[fp i]|i]; [|by rewrite Happ].
  pose proof (scan_app (mask_l p) (Z.to_nat (max_size p) - i) e fp (drop i l) i) as Happ2. rewrite length_drop in Happ2.
  pose proof (scan_spec (mask_l p) (Z.to_nat (max_size p) - i) fp (drop i l) i) as Hs2. rewrite length_drop in Hs2.
  rewrite Happ by (destruct (scan (mask_l p) _ _ (drop i l) i) as [[? ?]|?]; lia).
  rewrite (drop_app_le l e i) by lia.
  destruct (scan (mask_l p) _ _ (drop i l) i) as [[fp' j]|j]; [rewrite Happ2 by lia; done|by rewrite Happ2].
Qed.
End boundaries.

Lemma from_target_ok target p : 0 ≤ target ≤ u64_max → from_target target = Some (Ok p) → params_ok p ∧ target_size p = target.
Proof.
  intros Ht. unfold from_target. destruct (Z.eqb_spec target 0) as [->|Hne]; [done|].
  destruct (checked_mask (size_bits target + 2)); cbn [mbind option_bind]; [|done].
  destruct (checked_mask (saturating_sub (size_bits target) 2)); cbn [mbind option_bind]; [|done].
  intros [= <-]. unfold params_ok. cbn [min_size target_size max_size]. unfold u64_max in *.
  pose proof (Z.div_le_upper_bound target 4 target ltac:(lia) ltac:(lia)).
  pose proof (Z.div_pos target 4 ltac:(lia) ltac:(lia)). pose proof (Z.div_lt target 4 ltac:(lia) ltac:(lia)). lia.
Qed.

(** * Pieces *)

(** A chunker: from the bytes left, how many make the next chunk. *)
Definition advances (next : list Z → nat) : Prop := ∀ l, l ≠ [] → (0 < next l ≤ length l)%nat.

Fixpoint pieces_from (next : list Z → nat) (fuel : nat) (l : list Z) : list (list Z) :=
  match fuel, l with
  | S fuel, _ :: _ => take (next l) l :: pieces_from next fuel (drop (next l) l)
  | _, _ => []
  end.

Definition pieces (next : list Z → nat) (l : list Z) : list (list Z) := pieces_from next (length l) l.

Section pieces.
Context (next : list Z → nat).
Hypothesis Hnext : advances next.

Lemma next_shrinks l : l ≠ [] → (length (drop (next l) l) < length l)%nat.
Proof. intros Hl. specialize (Hnext l Hl). rewrite length_drop. lia. Qed.

Lemma pieces_fuel n : ∀ m l, (length l ≤ n)%nat → (length l ≤ m)%nat → pieces_from next n l = pieces_from next m l.
Proof.
  induction n as [|n IH]; intros m l Hn Hm; [destruct l; [by destruct m|cbn in Hn; lia]|].
  destruct l as [|b l]; [by destruct m|]. destruct m as [|m]; [cbn in Hm; lia|]. cbn [pieces_from].
  pose proof (next_shrinks (b :: l) ltac:(done)) as Hd. f_equal. apply IH; cbn [length] in *; lia.
Qed.

Lemma pieces_cons l : l ≠ [] → pieces next l = take (next l) l :: pieces next (drop (next l) l).
Proof.
  intros Hl. pose proof (next_shrinks l Hl) as Hd. unfold pieces. destruct l as [|b l]; [done|]. cbn [length pieces_from]. f_equal.
  apply pieces_fuel; cbn [length] in Hd; lia.
Qed.

(** Induction along the pieces. *)
Lemma pieces_ind (P : list Z → Prop) : P [] → (∀ l, l ≠ [] → P (drop (next l) l) → P l) → ∀ l, P l.
Proof.
  intros H0 Hs l. induction (length l) as [k IH] eqn:Ek using (well_founded_induction lt_wf) in l |- *.
  destruct l as [|b l']; [done|]. apply Hs; [done|]. eapply IH; [|done]. pose proof (next_shrinks (b :: l') ltac:(done)). lia.
Qed.

Lemma concat_pieces l : concat (pieces next l) = l.
Proof.
  induction l as [|l Hl IH] using pieces_ind; [done|]. rewrite pieces_cons by done. cbn [concat]. by rewrite IH, take_drop.
Qed.

Lemma pieces_nonempty l : Forall (λ q, q ≠ []) (pieces next l).
Proof.
  induction l as [|l Hl IH] using pieces_ind; [constructor|]. rewrite pieces_cons by done. constructor; [|done].
  specialize (Hnext l Hl). intros Ht%(f_equal length). rewrite length_take in Ht. cbn in Ht. lia.
Qed.
End pieces.

(** ** The two chunkers *)

Definition next_fixed (n : nat) (l : list Z) : nat := n `min` length l.

Lemma fixed_advances n : (0 < n)%nat → advances (next_fixed n).
Proof. intros Hn l Hl. unfold next_fixed. destruct l; [done|]. cbn [length]. lia. Qed.

(** All of a rest that is too short to be split, or up to the next boundary. *)
Definition next_cdc (gear : list Z) (p : CdcParams) (l : list Z) : nat :=
  if Z.of_nat (length l) <=? min_size p then length l else cut gear p l.

Lemma cdc_advances gear p : params_ok p → advances (next_cdc gear p).
Proof.
  intros Hp l Hl. unfold next_cdc. destruct (Z.leb_spec (Z.of_nat (length l)) (min_size p)) as [Hle|Hlt].
  - destruct l; [done|]. cbn [length]. lia.
  - pose proof (cut_bounds gear p l Hp Hlt) as Hb. destruct Hp as (? & ? & ?). lia.
Qed.

(** A chunk that is not the last is longer than the minimum; none is longer than the maximum. *)
Lemma next_cdc_bounds gear p l : params_ok p → l ≠ [] →
  Z.of_nat (next_cdc gear p l) ≤ max_size p ∧ ((next_cdc gear p l < length l)%nat → min_size p < Z.of_nat (next_cdc gear p l)).
Proof.
  intros Hp Hl. unfold next_cdc. destruct (Z.leb_spec (Z.of_nat (length l)) (min_size p)) as [Hle|Hlt].
  - destruct Hp as (? & ? & ?). lia.
  - pose proof (cut_bounds gear p l Hp Hlt). lia.
Qed.

(** A chunk with something after it does not depend on what. *)
Lemma next_cdc_app gear p l e : params_ok p → (next_cdc gear p l < length l)%nat → next_cdc gear p (l ++ e) = next_cdc gear p l.
Proof.
  intros Hp. unfold next_cdc. rewrite length_app. destruct (Z.leb_spec (Z.of_nat (length l)) (min_size p)) as [Hle|Hlt]; [lia|].
  intros Hc. rewrite (proj2 (Z.leb_gt _ _)) by lia. apply cut_app; auto.
Qed.

(** A window of the maximal size is all that is looked at. *)
Lemma next_cdc_window gear p l e : params_ok p → Z.of_nat (length l) = max_size p → next_cdc gear p (l ++ e) = next_cdc gear p l.
Proof.
  intros Hp Hlen. pose proof Hp as (_ & _ & Hlt). unfold next_cdc. rewrite length_app.
  rewrite !(proj2 (Z.leb_gt _ _)) by lia. apply cut_app; [done|lia|right; lia].
Qed.

Fixpoint all_but_last {A} (P : A → Prop) (l : list A) : Prop :=
  match l with x :: (_ :: _) as l => P x ∧ all_but_last P l | _ => True end.

Lemma cdc_pieces_sizes gear p l : params_ok p →
  Forall (λ q, 0 < Z.of_nat (length q) ≤ max_size p) (pieces (next_cdc gear p) l)
  ∧ all_but_last (λ q, min_size p < Z.of_nat (length q)) (pieces (next_cdc gear p) l).
Proof.
  intros Hp. pose proof (cdc_advances gear p Hp) as Hadv. induction l as [|l Hl IH] using (pieces_ind _ Hadv); [split; [constructor|done]|].
  rewrite pieces_cons by done. pose proof (Hadv l Hl) as Ha. pose proof (next_cdc_bounds gear p l Hp Hl) as [Hmax Hmin].
  assert (Hlen : length (take (next_cdc gear p l) l) = next_cdc gear p l) by (rewrite length_take; lia). destruct IH as [IH1 IH2]. split.
  - constructor; [rewrite Hlen; lia|done].
  - set (rest := drop (next_cdc gear p l) l) in *. destruct (decide (rest = [])) as [->|Hr]; [done|].
    rewrite (pieces_cons _ Hadv rest Hr) in IH2 |- *. split; [|done]. rewrite Hlen. apply Hmin.
    assert (length rest ≠ 0%nat) by (by intros ?%length_zero_iff_nil). unfold rest in *. rewrite length_drop in *. lia.
Qed.

(** Bytes added at the end leave all chunks but the last as they were. *)
Lemma cdc_pieces_stable gear p l e : params_ok p →
  removelast (pieces (next_cdc gear p) l) `prefix_of` pieces (next_cdc gear p) (l ++ e).
Proof.
  intros Hp. pose proof (cdc_advances gear p Hp) as Hadv. induction l as [|l Hl IH] using (pieces_ind _ Hadv); [apply prefix_nil|].
  rewrite (pieces_cons _ Hadv l Hl). set (n := next_cdc gear p l) in *. destruct (decide (drop n l = [])) as [->|Hr]; [apply prefix_nil|].
  assert (Hn : (n < length l)%nat).
  { assert (length (drop n l) ≠ 0%nat) by (by intros ?%length_zero_iff_nil). rewrite length_drop in *. lia. }
  rewrite (pieces_cons _ Hadv (l ++ e)) by (by destruct l). rewrite (next_cdc_app gear p l e Hp Hn). fold n.
  rewrite take_app_le, drop_app_le by lia. rewrite (pieces_cons _ Hadv (drop n l) Hr) in IH |- *. cbn [removelast] in *. by apply prefix_cons.
Qed.

(** * The loops store the pieces *)

Lemma andthen_cong {E St L A B} (m m' : Code E St L A) (f g : A → Code E St L B) s t :
  m s t = m' s t → (∀ a s t, f a s t = g a s t) → andthen m f s t = andthen m' g s t.
Proof. unfold andthen. intros -> Hf. destruct (m' s t) as [[a|e] s' t'|]; [apply Hf|done|done]. Qed.

Lemma unwraps_Some {E St L A B} (a : A) (f : A → Code E St L B) s t : andthen (unwraps (Some a)) f s t = f a s t.
Proof. done. Qed.

Section loops.
Context `{HS : Sha2} {St : Type} `{HT : ContentStore St} {L : Type} (home : Z).

Fixpoint put_pieces (ps : list (list Z)) (chunks : list Hash) : Code ChunkerError St L (list Hash) :=
  match ps with
  | [] => returns chunks
  | q :: ps => chunk_hash <~ put_chunk home q;; put_pieces ps (chunks ++ [chunk_hash])
  end.

Lemma slice_next next raw off :
  advances next → 0 ≤ off < Z.of_nat (length raw) →
  let rest := drop (Z.to_nat off) raw in
  slice raw off (off + Z.of_nat (next rest)) = Some (take (next rest) rest)
  ∧ drop (Z.to_nat (off + Z.of_nat (next rest))) raw = drop (next rest) rest
  ∧ (0 < next rest ≤ length raw - Z.to_nat off)%nat.
Proof.
  intros Hadv Hoff rest. assert (Hlen : length rest = (length raw - Z.to_nat off)%nat) by (unfold rest; by rewrite length_drop).
  assert (Hne : rest ≠ []) by (intros He; rewrite He in Hlen; cbn in Hlen; lia). pose proof (Hadv rest Hne) as Hn.
  split_and!; [|unfold rest; rewrite drop_drop; f_equal; lia|lia|lia]. unfold slice.
  rewrite (proj2 (andb_true_iff _ _)).
  - do 2 f_equal. lia.
  - split; [apply andb_true_iff; split|]; apply Z.leb_le; lia.
Qed.

Lemma cut_loop_pieces next boundary raw :
  advances next →
  (∀ off, 0 ≤ off < Z.of_nat (length raw) → boundary off = off + Z.of_nat (next (drop (Z.to_nat off) raw))) →
  ∀ fuel off chunks s t, 0 ≤ off → (length raw - Z.to_nat off < fuel)%nat →
    cut_loop home boundary raw fuel off chunks s t = put_pieces (pieces next (drop (Z.to_nat off) raw)) chunks s t.
Proof.
  intros Hadv Hb. induction fuel as [|fuel IH]; intros off chunks s t Hoff Hf; [lia|]. cbn [cut_loop].
  destruct (Z.ltb_spec off (Z.of_nat (length raw))) as [Hlt|Hge].
  - destruct (slice_next next raw off Hadv ltac:(lia)) as (Hs & Hd & Hn).
    cbv zeta. rewrite Hb by lia. rewrite Hs, unwraps_Some, pieces_cons.
    + cbn [put_pieces]. apply andthen_cong; [done|]. intros h s' t'. rewrite IH, Hd by lia. done.
    + done.
    + intros He%(f_equal length). rewrite length_drop in He. cbn in He. lia.
  - by rewrite drop_ge by lia.
Qed.

(** ** Buffers *)

(** A blob of the pieces, under the discriminator and the size given. *)
Definition put_blob_of (ps : list (list Z)) (chunk_size chunking : Z) : Code ChunkerError St L Hash :=
  chunks <~ put_pieces ps [];; put_blob home (Z.of_nat (length (concat ps))) chunk_size chunking chunks.

Lemma create_blob_fixed_pieces raw n s t : 0 < n →
  create_blob_fixed home raw n s t = put_blob_of (pieces (next_fixed (Z.to_nat n)) raw) n CONTENT_CHUNKING_FIXED s t.
Proof.
  intros Hn. unfold create_blob_fixed, put_blob_of. rewrite (proj2 (Z.eqb_neq n 0)) by lia.
  assert (Hadv : advances (next_fixed (Z.to_nat n))) by (apply fixed_advances; lia). rewrite (concat_pieces _ Hadv).
  apply andthen_cong; [|done]. rewrite (cut_loop_pieces _ _ _ Hadv) by (unfold fixed_boundary, next_fixed; intros; rewrite ?length_drop; lia).
  by rewrite drop_0.
Qed.

Lemma cdc_boundary_next p raw off : params_ok p → 0 ≤ off < Z.of_nat (length raw) →
  cdc_boundary raw p off = off + Z.of_nat (next_cdc compute_gear_table p (drop (Z.to_nat off) raw)).
Proof.
  intros Hp Hoff. unfold cdc_boundary, next_cdc. rewrite length_drop.
  replace (Z.of_nat (length raw - Z.to_nat off)) with (Z.of_nat (length raw) - off) by lia.
  destruct (Z.leb_spec (Z.of_nat (length raw) - off) (min_size p)); [lia|]. rewrite find_boundary_cut; [done|done|lia|lia].
Qed.

Lemma create_blob_fastcdc_pieces raw target p s t :
  0 ≤ target ≤ u64_max → from_target target = Some (Ok p) →
  create_blob_fastcdc home raw target s t = put_blob_of (pieces (next_cdc compute_gear_table p) raw) target CONTENT_CHUNKING_FASTCDC s t.
Proof.
  intros Ht Hf. destruct (from_target_ok target p Ht Hf) as [Hp _]. pose proof (cdc_advances compute_gear_table p Hp) as Hadv.
  unfold create_blob_fastcdc, put_blob_of. rewrite Hf, unwraps_Some. erewrite andthen_run by done. rewrite (concat_pieces _ Hadv).
  apply andthen_cong; [|done]. rewrite (cut_loop_pieces _ _ _ Hadv) by (intros; by apply cdc_boundary_next || lia). by rewrite drop_0.
Qed.

(** ** Readers *)

Context {R : Type} `{HR : Read R}.

(** In [n] reads the reader gives these bytes and then says that it has no more, whatever is asked
    of it in each. *)
Fixpoint delivers (n : nat) (r : R) (bs : list Z) : Prop :=
  match n with
  | O => False
  | S n => ∀ want, 0 < want →
      match read want r with
      | (ReadOk [], _) => bs = []
      | (ReadOk l, r) => Z.of_nat (length l) ≤ want ∧ ∃ rest, bs = l ++ rest ∧ delivers n r rest
      | (Interrupted, r) => delivers n r bs
      | (ReadFailed, _) => False
      end
  end.

Lemma delivers_mono n : ∀ m r bs, (n ≤ m)%nat → delivers n r bs → delivers m r bs.
Proof.
  induction n as [|n IH]; intros m r bs Hm Hd; [done|]. destruct m as [|m]; [lia|]. intros want Hw. specialize (Hd want Hw).
  destruct (read want r) as [[[|b l]| |] r']; [done| | |done].
  - destruct Hd as (? & rest & -> & ?). split; [done|]. exists rest. split; [done|]. apply IH; [lia|done].
  - apply IH; [lia|done].
Qed.

Lemma fill_delivers n : ∀ fuel want filled r bs,
  delivers n r bs → (n < fuel)%nat → Z.of_nat (length filled) ≤ want →
  ∃ got eof r' rest, fill fuel want filled r = Some (Ok (filled ++ got, eof), r') ∧ bs = got ++ rest
    ∧ if eof then rest = [] ∧ Z.of_nat (length (filled ++ got)) ≤ want
      else Z.of_nat (length (filled ++ got)) = want ∧ delivers n r' rest.
Proof.
  induction n as [|n IH]; intros fuel want filled r bs Hd Hf Hw; [done|]. destruct fuel as [|fuel]; [lia|]. cbn [fill].
  destruct (Z.ltb_spec (Z.of_nat (length filled)) want) as [Hlt|Hge]; cycle 1.
  { exists [], false, r, bs. rewrite app_nil_r. split_and!; [done|done|lia|done]. }
  pose proof (Hd (want - Z.of_nat (length filled)) ltac:(lia)) as Hr.
  destruct (read (want - Z.of_nat (length filled)) r) as [[[|b l]| |] r1]; [| | |done].
  - exists [], true, r1, []. rewrite app_nil_r, app_nil_r. by split_and!.
  - destruct Hr as (Hl & rest & -> & Hr).
    destruct (IH fuel want (filled ++ b :: l) r1 rest Hr) as (got & eof & r2 & rest' & Ef & -> & He); [lia|rewrite length_app; lia|].
    exists ((b :: l) ++ got), eof, r2, rest'. rewrite app_assoc. split_and!; [exact Ef|by rewrite app_assoc|].
    destruct eof; [done|]. destruct He as [? ?]. split; [done|]. by apply (delivers_mono n); [lia|].
  - destruct (IH fuel want filled r1 bs Hr) as (got & eof & r2 & rest' & Ef & -> & He); [lia|done|].
    exists got, eof, r2, rest'. split_and!; [done|done|]. destruct eof; [done|]. destruct He as [? ?]. split; [done|]. by apply (delivers_mono n); [lia|].
Qed.

(** What is left to cut: what the buffer has, and what the reader still gives unless it has ended. *)
Definition left_over (n : nat) (buf : list Z) (eof : bool) (r : R) (bs : list Z) : Prop :=
  ∃ rest, bs = buf ++ rest ∧ if eof then rest = [] else delivers n r rest.

Lemma fill_buffer_left reads n p buf eof r bs :
  left_over n buf eof r bs → (n < reads)%nat → Z.of_nat (length buf) ≤ max_size p →
  ∃ buf' eof' r', fill_buffer reads p buf eof r = Some (Ok (buf', eof'), r') ∧ left_over n buf' eof' r' bs
    ∧ Z.of_nat (length buf') ≤ max_size p ∧ (eof' = false → Z.of_nat (length buf') = max_size p).
Proof.
  intros (rest & -> & Hl) Hn Hb. unfold fill_buffer. destruct eof; cbn [negb andb].
  { exists buf, true, r. split_and!; [done|by exists rest|done|done]. }
  destruct (Z.ltb_spec (Z.of_nat (length buf)) (max_size p)) as [Hlt|Hge]; cycle 1.
  { exists buf, false, r. split_and!; [done|by exists rest|done|lia]. }
  destruct (fill_delivers n reads (max_size p - Z.of_nat (length buf)) [] r rest Hl Hn ltac:(cbn; lia)) as (got & eof & r' & rest' & Ef & -> & He).
  rewrite Ef. cbn [mbind option_bind result_bind app] in He |- *. exists (buf ++ got), eof, r'. rewrite length_app.
  split_and!; [done| |destruct eof; lia|destruct eof; [done|]; lia].
  exists rest'. rewrite app_assoc. split; [done|]. by destruct eof, He.
Qed.

Lemma stream_pieces p reads n : params_ok p → (n < reads)%nat → ∀ fuel buf eof r bs chunks total s t,
  left_over n buf eof r bs → Z.of_nat (length buf) ≤ max_size p → (length bs < fuel)%nat →
  stream_loop home p reads fuel buf eof r chunks total s t
  = andthen (put_pieces (pieces (next_cdc compute_gear_table p) bs) chunks) (λ c, returns (c, total + Z.of_nat (length bs))) s t.
Proof.
  intros Hp Hn. pose proof (cdc_advances compute_gear_table p Hp) as Hadv. pose proof Hp as (_ & _ & Hmax).
  induction fuel as [|fuel IH]; intros buf eof r bs chunks total s t Hl Hb Hf; [lia|]. cbn [stream_loop].
  destruct (negb eof || negb (bool_decide (buf = []))) eqn:Eg; cycle 1.
  { apply orb_false_iff in Eg as [He%negb_false_iff Hbuf%negb_false_iff%bool_decide_eq_true]. subst.
    destruct Hl as (rest & -> & ->). cbn. by rewrite Z.add_0_r. }
  destruct (fill_buffer_left reads n p buf eof r bs Hl Hn Hb) as (buf' & eof' & r' & Ef & Hl' & Hb' & Hfull).
  rewrite Ef, unwraps_Some. cbv zeta. erewrite andthen_run by done. cbn [fst snd].
  destruct Hl' as (rest & -> & Hrest). clear Eg. case_bool_decide as Hnil.
  { subst. destruct eof'; [subst; cbn; by rewrite Z.add_0_r|]. specialize (Hfull eq_refl). cbn in Hfull. destruct Hp as (? & ? & ?). lia. }
  assert (Hne : buf' ++ rest ≠ []) by (by destruct buf').
  (* the boundary in the window is the boundary *)
  set (k := next_cdc compute_gear_table p (buf' ++ rest)).
  assert (Hwin : next_cdc compute_gear_table p buf' = k).
  { destruct eof'; [subst rest; unfold k; by rewrite app_nil_r|]. unfold k. symmetry. apply next_cdc_window; auto. }
  assert (Hend : (if Z.of_nat (length buf') <=? min_size p then Z.of_nat (length buf') else find_boundary compute_gear_table buf' 0 p) = Z.of_nat k).
  { rewrite <- Hwin. unfold next_cdc. destruct (Z.leb_spec (Z.of_nat (length buf')) (min_size p)); [done|].
    rewrite find_boundary_cut by (done || lia). by rewrite drop_0. }
  pose proof (Hadv buf' Hnil) as Hk. rewrite Hwin in Hk. rewrite Hend.
  assert (Hs : slice buf' 0 (Z.of_nat k) = Some (take k buf')).
  { unfold slice. rewrite (proj2 (Z.leb_le 0 (Z.of_nat k))), (proj2 (Z.leb_le (Z.of_nat k) _)) by lia. cbn [andb Z.leb Z.compare]. by rewrite drop_0, Z.sub_0_r, Nat2Z.id. }
  rewrite Hs, unwraps_Some, Nat2Z.id. rewrite (pieces_cons _ Hadv) by done. fold k. rewrite take_app_le, drop_app_le by lia. cbn [put_pieces].
  unfold andthen at 1 2 3. destruct (put_chunk home (take k buf') s t) as [[h|e] s1 t1|]; [|done|done].
  assert (Htot : total + Z.of_nat (length (buf' ++ rest)) = (total + Z.of_nat k) + Z.of_nat (length (drop k buf' ++ rest))).
  { rewrite !length_app, length_drop. lia. }
  rewrite Htot. destruct (eof' && bool_decide (drop k buf' = [])) eqn:Ed.
  - apply andb_true_iff in Ed as [He Hd%bool_decide_eq_true]. subst eof'. rewrite Hrest, Hd. cbn. by rewrite Z.add_0_r.
  - rewrite (IH _ _ _ (drop k buf' ++ rest)); [done|by exists rest|rewrite length_drop; lia|].
    revert Hf. rewrite !length_app, length_drop. lia.
Qed.
End loops.

(** * What a blob gives back *)

(** How a blob is made of some bytes: its chunks, its size parameter, its discriminator, the run. *)
Inductive chunking `{Sha2} {St L : Type} `{ContentStore St} (home : Z) (raw : list Z)
    : list (list Z) → Z → Z → Code ChunkerError St L Hash → Prop :=
  | by_size n : 0 < n ≤ u64_max →
      chunking home raw (pieces (next_fixed (Z.to_nat n)) raw) n CONTENT_CHUNKING_FIXED (create_blob_fixed home raw n)
  | by_content target p : 0 ≤ target ≤ u64_max → from_target target = Some (Ok p) →
      chunking home raw (pieces (next_cdc compute_gear_table p) raw) target CONTENT_CHUNKING_FASTCDC (create_blob_fastcdc home raw target).

Section blobs.
Context {St : Type} `{HT : ContentStore St} (wf : St → Prop) `{!ContentStoreOk St wf}.
Context `{HS : Sha2} `{!Sha2Ok} `{HC : Ciborium} `{!CiboriumDecodes} (home : Z).
Hypothesis Hhome : digest_len_for_format home ≠ None.

Definition content_entity (ty : list Z) (v : Value) : Entity :=
  match entity_new home ty (to_ecf v) with Ok e => e | Err _ => mkEntity [] [] hash_zero end.

Lemma content_entity_spec ty v : ty ≠ [] → ty ≠ TYPE_PEER →
  entity_new home ty (to_ecf v) = Ok (content_entity ty v)
  ∧ entity_type (content_entity ty v) = ty ∧ data (content_entity ty v) = to_ecf v ∧ hash_ok (content_hash (content_entity ty v)).
Proof.
  intros Ht Hp. destruct (entity_new_encoded home ty v Hhome Ht Hp) as (e & He & Hty & Hd & Hh & _).
  unfold content_entity. by rewrite He.
Qed.

Definition chunk_entity (q : list Z) : Entity := content_entity TYPE_CONTENT_CHUNK (chunk_value q).
Definition chunk_hashes (ps : list (list Z)) : list Hash := map (λ q, content_hash (chunk_entity q)) ps.
Definition blob_entity (ps : list (list Z)) (size kind : Z) : Entity :=
  content_entity TYPE_CONTENT_BLOB (blob_value (Z.of_nat (length (concat ps))) size kind (chunk_hashes ps)).
Definition blob_entities (ps : list (list Z)) (size kind : Z) : list Entity := blob_entity ps size kind :: map chunk_entity ps.

Lemma put_pieces_run {L} En ps : ∀ chunks (s : St) (t : L),
  wf s → fresh_for En s → (∀ q, q ∈ ps → chunk_entity q ∈ En) →
  ∃ s', put_pieces home ps chunks s t = Done (Ok (chunks ++ chunk_hashes ps)) s' t
    ∧ wf s' ∧ grows En s s' ∧ holds (map chunk_entity ps) s'.
Proof.
  induction ps as [|q ps IH]; intros chunks s t Hw Hf HE.
  { exists s. cbn. rewrite app_nil_r. split_and!; [done|done|apply grows_refl|]. by intros e ?%elem_of_nil. }
  destruct (stores_run wf StoreFailed (chunk_entity q) s t En Hw Hf (HE q ltac:(by left))) as (s1 & Er & Hw1 & Hg1 & Hh1).
  destruct (IH (chunks ++ [content_hash (chunk_entity q)]) s1 t Hw1) as (s2 & Er2 & Hw2 & Hg2 & Hh2);
    [by eapply fresh_grows|intros q' Hq'; apply HE; by right|].
  exists s2. split_and!; [|done|by eapply grows_trans|].
  - cbn [put_pieces]. unfold put_chunk. destruct (content_entity_spec TYPE_CONTENT_CHUNK (chunk_value q)) as (He & _); [done..|].
    rewrite He. erewrite andthen_run by (erewrite andthen_run by done; exact Er). rewrite Er2. cbn. by rewrite <- app_assoc.
  - intros e [->|He]%elem_of_cons; [|by apply Hh2]. eapply grows_holds; [exact Hg2|exact Hh1|by left].
Qed.

Definition payload_ok (q : list Z) : Prop := bytes_ok q ∧ len_ok q = true ∧ q ≠ [].

Lemma chunk_reads q : payload_ok q →
  chunk_payload_bytes (chunk_entity q) = Some q ∧ chunk_payload_len (chunk_entity q) = Some (Z.of_nat (length q)).
Proof.
  intros (Hb & Hl & _). destruct (content_entity_spec TYPE_CONTENT_CHUNK (chunk_value q)) as (_ & _ & Hd & _); [done..|].
  assert (Hr : from_reader (data (chunk_entity q)) = Some (VMap [(VText (lit "payload"), VBytes q)])).
  { unfold chunk_entity. rewrite Hd, <- (app_nil_r (to_ecf _)), from_reader_ecf; [reflexivity| |cbn; unfold ciborium_recursion_limit; lia].
    unfold chunk_value. cbn [value_ok forallb fst snd text]. rewrite bool_decide_eq_true_2, Hl by done. reflexivity. }
  unfold chunk_payload_bytes, chunk_payload_len. rewrite Hr. by split.
Qed.

Lemma chunk_hashes_ok ps : Forall hash_ok (chunk_hashes ps).
Proof.
  apply Forall_map, Forall_forall. intros q _. by destruct (content_entity_spec TYPE_CONTENT_CHUNK (chunk_value q)) as (_ & _ & _ & ?).
Qed.

Lemma hashes_read l : Forall hash_ok l → mapO decode_hash_record (map ecf_norm (map hash_to_bstr l)) = Some l.
Proof.
  induction 1 as [|h l Hh Hl IH]; [done|]. cbn [map mapO].
  assert (Hr : decode_hash_record (ecf_norm (hash_to_bstr h)) = Some h).
  { change (decode_hash_record (ecf_norm (hash_to_bstr h))) with (ok (from_bytes (to_bytes h))). by rewrite from_bytes_to_bytes. }
  rewrite Hr. cbn [mbind option_bind]. by rewrite IH.
Qed.

Lemma blob_value_good total size kind l :
  0 ≤ total ≤ u64_max → 0 ≤ size ≤ u64_max → 0 ≤ kind ≤ u64_max → Forall hash_ok l → len_ok l = true →
  good 3 (blob_value total size kind l).
Proof.
  intros Ht Hs Hk Hh Hl. unfold u64_max in *. apply good_map; [done|].
  repeat (apply Forall_cons_2 || apply Forall_nil_2); (apply field_good; [vm_compute; reflexivity|]); [apply good_int; lia..|].
  apply good_array; [by unfold len_ok in *; rewrite length_map|]. apply Forall_map. eapply Forall_impl; [exact Hh|]. intros h ?. by apply hash_good.
Qed.

Lemma blob_reads total size kind l s h :
  0 ≤ total ≤ u64_max → 0 ≤ size ≤ u64_max → 0 ≤ kind ≤ u64_max → Forall hash_ok l → len_ok l = true →
  store_get h s = Some (content_entity TYPE_CONTENT_BLOB (blob_value total size kind l)) →
  decode_blob h s = Ok (total, l) ∧ blob_chunk_size (content_entity TYPE_CONTENT_BLOB (blob_value total size kind l)) = Ok size.
Proof.
  intros Ht Hs Hk Hh Hl Hget. destruct (content_entity_spec TYPE_CONTENT_BLOB (blob_value total size kind l)) as (_ & Hty & Hd & _); [done..|].
  destruct (blob_value_good total size kind l Ht Hs Hk Hh Hl) as [Hv Hdep].
  assert (Hr : from_reader (data (content_entity TYPE_CONTENT_BLOB (blob_value total size kind l)))
    = Some (VMap [(text (lit "chunks"), VArray (map ecf_norm (map hash_to_bstr l))); (text (lit "chunking"), VInteger kind);
                  (text (lit "chunk_size"), VInteger size); (text (lit "total_size"), VInteger total)])).
  { rewrite Hd, <- (app_nil_r (to_ecf _)), from_reader_ecf by (done || unfold ciborium_recursion_limit; lia). reflexivity. }
  unfold decode_blob, blob_chunk_size. rewrite Hget. cbn [ok_or mbind result_bind].
  rewrite Hty, bool_decide_eq_true_2, Hr by done. cbn [negb ok_or mbind result_bind option_bind].
  match goal with |- context [value_get ?m (lit "total_size")] =>
    change (value_get m (lit "total_size")) with (Some (VInteger total)); change (value_get m (lit "chunks")) with (Some (VArray (map ecf_norm (map hash_to_bstr l))));
    change (value_get m (lit "chunk_size")) with (Some (VInteger size)) end.
  cbn [mbind option_bind value_to_u64 as_array ok_or result_bind].
  rewrite (proj2 (try_u64_Some total total)), (proj2 (try_u64_Some size size)) by done.
  cbn [ok_or mbind result_bind]. by rewrite hashes_read.
Qed.

(** Everything of the blob is in the store. *)
Lemma foldM_payloads ps s : Forall payload_ok ps → holds (map chunk_entity ps) s → ∀ out,
  foldM (λ out h, payload ← payload_of s h; Ok (out ++ payload)) out (chunk_hashes ps) = Ok (out ++ concat ps).
Proof.
  induction 1 as [|q ps Hq Hps IH]; intros Hh out; [cbn; by rewrite app_nil_r|]. cbn [chunk_hashes map foldM concat].
  assert (Hp : payload_of s (content_hash (chunk_entity q)) = Ok q).
  { unfold payload_of. rewrite (Hh (chunk_entity q)) by by left. cbn [ok_or mbind result_bind]. by rewrite (proj1 (chunk_reads q Hq)). }
  rewrite Hp. cbn [mbind result_bind]. fold (chunk_hashes ps). rewrite IH, app_assoc; [done|]. intros e He. apply Hh. by right.
Qed.

Lemma foldM_verified ps s : Forall payload_ok ps → holds (map chunk_entity ps) s → ∀ acc,
  0 ≤ acc → acc + Z.of_nat (length (concat ps)) ≤ u64_max →
  foldM (verify_step s) acc (chunk_hashes ps) = Ok (acc + Z.of_nat (length (concat ps))).
Proof.
  induction 1 as [|q ps Hq Hps IH]; intros Hh acc Ha Hl; [cbn; by rewrite Z.add_0_r|]. cbn [chunk_hashes map foldM concat] in *.
  rewrite length_app in *.
  assert (Hp : verify_step s acc (content_hash (chunk_entity q)) = Ok (acc + Z.of_nat (length q))).
  { unfold verify_step. rewrite (Hh (chunk_entity q)) by by left. cbn [ok_or mbind result_bind]. rewrite (proj2 (chunk_reads q Hq)). cbn [ok_or mbind result_bind].
    rewrite (proj2 (Z.eqb_neq _ 0)); [unfold saturating_add; f_equal; lia|]. destruct Hq as (_ & _ & Hne). destruct q; [done|cbn [length]; lia]. }
  rewrite Hp. cbn [mbind result_bind]. fold (chunk_hashes ps). rewrite IH by (try lia; intros e He; apply Hh; by right). f_equal. lia.
Qed.

Lemma put_blob_reads {L} ps size kind (s : St) (t : L) :
  Forall payload_ok ps → 0 ≤ size ≤ u64_max → 0 ≤ kind ≤ u64_max → Z.of_nat (length (concat ps)) ≤ i64_max → len_ok ps = true →
  wf s → fresh_for (blob_entities ps size kind) s →
  let h := content_hash (blob_entity ps size kind) in
  ∃ s', put_blob_of home ps size kind s t = Done (Ok h) s' t
    ∧ wf s' ∧ grows (blob_entities ps size kind) s s' ∧ holds (blob_entities ps size kind) s'
    ∧ decode_blob h s' = Ok (Z.of_nat (length (concat ps)), chunk_hashes ps)
    ∧ blob_chunk_size (blob_entity ps size kind) = Ok size
    ∧ verify_content h s' = Ok tt ∧ reassemble h s' = Some (Ok (concat ps)).
Proof.
  intros Hps Hs Hk Hl Hn Hw Hf h. assert (Hmax : i64_max ≤ u64_max) by (unfold i64_max, u64_max; lia).
  destruct (put_pieces_run (blob_entities ps size kind) ps [] s t Hw Hf) as (s1 & Er1 & Hw1 & Hg1 & Hh1).
  { intros q Hq. right. by apply list_elem_of_fmap_2. }
  destruct (stores_run wf StoreFailed (blob_entity ps size kind) s1 t (blob_entities ps size kind) Hw1) as (s2 & Er2 & Hw2 & Hg2 & Hh2);
    [by eapply fresh_grows|by left|].
  assert (Hh : holds (map chunk_entity ps) s2) by by eapply grows_holds.
  destruct (blob_reads (Z.of_nat (length (concat ps))) size kind (chunk_hashes ps) s2 h) as [Hd Hc];
    [lia|done|done|apply chunk_hashes_ok|by unfold len_ok, chunk_hashes in *; rewrite length_map|by apply Hh2; left|].
  exists s2. split_and!; [|done|by eapply grows_trans| |done|done| |].
  - unfold put_blob_of. erewrite andthen_run by exact Er1. unfold put_blob. rewrite app_nil_l.
    destruct (content_entity_spec TYPE_CONTENT_BLOB (blob_value (Z.of_nat (length (concat ps))) size kind (chunk_hashes ps))) as (He & _); [done..|].
    rewrite He. erewrite andthen_run by done. exact Er2.
  - intros e [->|He]%elem_of_cons; [apply Hh2; by left|by apply Hh].
  - unfold verify_content. rewrite Hd. cbn [mbind result_bind]. rewrite foldM_verified by (done || lia). cbn [mbind result_bind].
    by rewrite Z.add_0_l, Z.eqb_refl.
  - unfold reassemble. rewrite Hd, (proj2 (Z.ltb_ge _ _)) by lia. by rewrite foldM_payloads.
Qed.
End blobs.

Lemma length_pieces_le (ps : list (list Z)) : Forall (λ q, q ≠ []) ps → (length ps ≤ length (concat ps))%nat.
Proof.
  induction 1 as [|q ps Hq Hps IH]; [done|]. cbn [length concat]. rewrite length_app. destruct q; [done|cbn [length]; lia].
Qed.

Lemma pieces_payloads next raw : advances next → bytes_ok raw → len_ok raw = true → Forall payload_ok (pieces next raw).
Proof.
  intros Hadv Hb Hl. apply Forall_forall. intros q Hq. pose proof (concat_pieces next Hadv raw) as Hc.
  pose proof (pieces_nonempty next Hadv raw) as Hne. rewrite Forall_forall in Hne.
  apply list_elem_of_split in Hq as (l1 & l2 & Hs). rewrite Hs, concat_app in Hc. cbn [concat] in Hc. split_and!.
  - unfold bytes_ok in *. rewrite <- Hc in Hb. apply Forall_app in Hb as [_ Hb]. by apply Forall_app in Hb as [? _].
  - unfold len_ok in *. apply Z.leb_le in Hl. apply Z.leb_le. rewrite <- Hc, !length_app in Hl. lia.
  - apply Hne. rewrite Hs. apply elem_of_app. right. by left.
Qed.

Lemma chunking_pieces `{HS : Sha2} {St L : Type} `{HT : ContentStore St} home raw ps size kind (create : Code ChunkerError St L Hash) :
  chunking home raw ps size kind create →
  (∃ next, advances next ∧ ps = pieces next raw) ∧ 0 ≤ size ≤ u64_max ∧ 0 ≤ kind ≤ u64_max
  ∧ ∀ s t, create s t = put_blob_of home ps size kind s t.
Proof.
  intros [n Hn|target p Ht Hf].
  - split_and!; [exists (next_fixed (Z.to_nat n)); split; [apply fixed_advances; lia|done]|lia|lia|done|done|].
    intros s t. apply create_blob_fixed_pieces. lia.
  - pose proof (proj1 (from_target_ok target p Ht Hf)) as Hp.
    split_and!; [exists (next_cdc compute_gear_table p); split; [by apply cdc_advances|done]|lia|lia|done|done|].
    intros s t. by apply create_blob_fastcdc_pieces.
Qed.

(** The chunks are the slices of the bytes from an offset on, each up to the boundary after it. *)
Fixpoint cut_at (boundary : Z → Z) (raw : list Z) (off : Z) (chunks : list (list Z)) : Prop :=
  match chunks with
  | [] => off = Z.of_nat (length raw)
  | q :: chunks => slice raw off (boundary off) = Some q ∧ cut_at boundary raw (boundary off) chunks
  end.

Lemma pieces_cut_at next boundary raw :
  advances next →
  (∀ off, 0 ≤ off < Z.of_nat (length raw) → boundary off = off + Z.of_nat (next (drop (Z.to_nat off) raw))) →
  ∀ off, 0 ≤ off ≤ Z.of_nat (length raw) → cut_at boundary raw off (pieces next (drop (Z.to_nat off) raw)).
Proof.
  intros Hadv Hb off. induction (length raw - Z.to_nat off)%nat as [k IH] eqn:Ek using (well_founded_induction lt_wf) in off |- *.
  intros Hoff. destruct (Z.eq_dec off (Z.of_nat (length raw))) as [->|Hne]; [by rewrite drop_ge by lia|].
  destruct (slice_next next raw off Hadv ltac:(lia)) as (Hs & Hd & Hn). cbv zeta in Hs, Hd, Hn.
  rewrite pieces_cons; [|done|intros He%(f_equal length); rewrite length_drop in He; cbn in He; lia].
  cbn [cut_at]. rewrite Hb by lia. split; [exact Hs|]. rewrite <- Hd. eapply IH; [|reflexivity|]; lia.
Qed.

(** A boundary: how far from the offset it is, and that what follows it does not matter. *)
Lemma cdc_boundary_bounds `{HS : Sha2} raw p off added : params_ok p → 0 ≤ off < Z.of_nat (length raw) →
  off < cdc_boundary raw p off ≤ Z.of_nat (length raw) ∧ cdc_boundary raw p off - off ≤ max_size p
  ∧ (cdc_boundary raw p off < Z.of_nat (length raw) →
       min_size p < cdc_boundary raw p off - off ∧ cdc_boundary (raw ++ added) p off = cdc_boundary raw p off).
Proof.
  intros Hp Hoff. rewrite !cdc_boundary_next by (rewrite ?length_app; done || lia). set (rest := drop (Z.to_nat off) raw).
  assert (Hlen : length rest = (length raw - Z.to_nat off)%nat) by (unfold rest; by rewrite length_drop).
  assert (Hne : rest ≠ []) by (intros He; rewrite He in Hlen; cbn in Hlen; lia).
  pose proof (cdc_advances compute_gear_table p Hp rest Hne) as Ha. destruct (next_cdc_bounds compute_gear_table p rest Hp Hne) as [Hx Hm].
  split_and!; [lia|lia|lia|]. intros Hlt. split; [lia|].
  rewrite drop_app_le by lia. fold rest. rewrite next_cdc_app by (done || lia). done.
Qed.

Lemma from_target_sizes target p : from_target target = Some (Ok p) → min_size p = target / 4 ∧ max_size p ≤ 2 * target.
Proof.
  unfold from_target. destruct (target =? 0); [done|]. destruct (checked_mask (size_bits target + 2)); [|done].
  destruct (checked_mask (saturating_sub _ 2)); [|done]. intros [= <-]. cbn [min_size max_size]. lia.
Qed.

(** * Properties *)

(** C9. A blob gives back the bytes it was made of, by either chunker: making it succeeds, it
    verifies, it is put together to the same bytes, and it records its size parameter.  The store
    keeps what it had and gains the blob and its chunks alone. *)
Theorem content_round_trip {St L : Type} `{HT : ContentStore St} (wf : St → Prop) `{!ContentStoreOk St wf}
    `{HS : Sha2} `{!Sha2Ok} `{HC : Ciborium} `{!CiboriumDecodes} (home : Z) raw ps size kind create (s : St) (t : L) :
  digest_len_for_format home ≠ None → chunking home raw ps size kind create →
  bytes_ok raw → Z.of_nat (length raw) ≤ i64_max → wf s → fresh_for (blob_entities home ps size kind) s →
  ∃ h s' blob, create s t = Done (Ok h) s' t ∧ store_get h s' = Some blob
    ∧ verify_content h s' = Ok tt ∧ reassemble h s' = Some (Ok raw) ∧ blob_chunk_size blob = Ok size
    ∧ wf s' ∧ grows (blob_entities home ps size kind) s s'.
Proof.
  intros Hhome Hc Hb Hl Hw Hf. destruct (chunking_pieces home raw ps size kind create Hc) as ((next & Hadv & ->) & Hs & Hk & Hrun).
  pose proof (concat_pieces next Hadv raw) as Hcat. pose proof (length_pieces_le _ (pieces_nonempty next Hadv raw)) as Hlen.
  assert (Hlok : len_ok raw = true) by (unfold len_ok, i64_max, u64_max in *; apply Z.leb_le; lia).
  destruct (put_blob_reads wf home Hhome (pieces next raw) size kind s t) as (s' & Erun & Hw' & Hg & Hh & _ & Hcs & Hv & Hr);
    [by apply pieces_payloads|done|done|by rewrite Hcat|unfold len_ok, i64_max, u64_max in *; apply Z.leb_le; rewrite Hcat in Hlen; lia|done|done|].
  eexists _, s', _. rewrite Hrun. split_and!; [exact Erun|by apply Hh; left|exact Hv|by rewrite Hr, Hcat|exact Hcs|done|done].
Qed.

(** C19. Cutting a stream is cutting its bytes: for every reader that delivers some bytes, in
    reads of any sizes, interrupted or not, the streaming chunker does to the store what the
    buffered one does with all of them, with the same result. *)
Theorem stream_is_buffered {St L : Type} `{HT : ContentStore St} `{HS : Sha2} {R : Type} `{HR : Read R}
    (home : Z) (n reads fuel : nat) (reader : R) raw target (s : St) (t : L) :
  0 ≤ target ≤ u64_max → delivers n reader raw → (n < reads)%nat → (length raw < fuel)%nat →
  create_blob_fastcdc_stream home reads fuel reader target s t = create_blob_fastcdc home raw target s t.
Proof.
  intros Ht Hd Hn Hf. destruct (from_target target) as [[p|e]|] eqn:Ep; [|by unfold create_blob_fastcdc_stream, create_blob_fastcdc; rewrite Ep..].
  destruct (from_target_ok target p Ht Ep) as [Hp _]. rewrite (create_blob_fastcdc_pieces home raw target p s t Ht Ep).
  unfold create_blob_fastcdc_stream, put_blob_of. rewrite Ep, unwraps_Some. erewrite andthen_run by done.
  pose proof (cdc_advances compute_gear_table p Hp) as Hadv. rewrite (concat_pieces _ Hadv).
  unfold andthen at 1. rewrite (stream_pieces home p reads n Hp Hn fuel [] false reader raw [] 0 s t);
    [|by exists raw|destruct Hp as (? & ? & ?); cbn; lia|done].
  unfold andthen. by destruct (put_pieces home _ [] s t) as [[c|e] s1 t1|].
Qed.

(** C26. Where the content-defined chunker cuts, how large the chunks are, and how stable they
    are.  From any offset of the bytes a boundary lies after it and not after their end, at most
    the maximal size away; where it is not the end it is more than the minimal size away, and
    bytes added after the end leave it where it is.  Making a blob stores, in order, the slices
    from each boundary to the next, and so together the bytes; each has at least one and at most
    [2 * target] bytes, each but the last more than [target / 4], and bytes added at the end change
    the last chunk alone. *)
Theorem cdc_chunks_bounded {St L : Type} `{HT : ContentStore St} `{HS : Sha2} (home : Z) target p raw added :
  0 ≤ target ≤ u64_max → from_target target = Some (Ok p) →
  (∀ off, 0 ≤ off < Z.of_nat (length raw) →
     let e := cdc_boundary raw p off in
     off < e ≤ Z.of_nat (length raw) ∧ e - off ≤ 2 * target
     ∧ (e < Z.of_nat (length raw) → target / 4 < e - off ∧ cdc_boundary (raw ++ added) p off = e))
  ∧ ∃ chunks longer,
      cut_at (cdc_boundary raw p) raw 0 chunks
      ∧ (∀ (s : St) (t : L), create_blob_fastcdc home raw target s t = put_blob_of home chunks target CONTENT_CHUNKING_FASTCDC s t)
      ∧ (∀ (s : St) (t : L), create_blob_fastcdc home (raw ++ added) target s t = put_blob_of home longer target CONTENT_CHUNKING_FASTCDC s t)
      ∧ concat chunks = raw
      ∧ Forall (λ q, 0 < Z.of_nat (length q) ≤ 2 * target) chunks
      ∧ all_but_last (λ q, target / 4 < Z.of_nat (length q)) chunks
      ∧ removelast chunks `prefix_of` longer.
Proof.
  intros Ht Hf. destruct (from_target_ok target p Ht Hf) as [Hp _]. destruct (from_target_sizes target p Hf) as [Hmin Hmax].
  pose proof (cdc_advances compute_gear_table p Hp) as Hadv. split.
  - intros off Hoff e. destruct (cdc_boundary_bounds raw p off added Hp Hoff) as (He & Hle & Hlt). fold e in He, Hle, Hlt.
    split_and!; [lia|lia|lia|]. intros Hend. destruct (Hlt Hend) as [Hm Ha]. split; [lia|exact Ha].
  - exists (pieces (next_cdc compute_gear_table p) raw), (pieces (next_cdc compute_gear_table p) (raw ++ added)).
    destruct (cdc_pieces_sizes compute_gear_table p raw Hp) as [Hall Hbut]. split_and!.
    + rewrite <- (drop_0 raw) at 3. apply (pieces_cut_at _ _ _ Hadv); [intros; by apply cdc_boundary_next|lia].
    + intros s t. by apply create_blob_fastcdc_pieces.
    + intros s t. by apply create_blob_fastcdc_pieces.
    + by apply concat_pieces.
    + eapply Forall_impl; [exact Hall|]. cbn. lia.
    + by rewrite <- Hmin.
    + by apply cdc_pieces_stable.
Qed.

(** * Concrete runs *)

Section demo.
#[local] Existing Instances sum_sha2 sum_sha2_ok ref_ciborium ref_ciborium_decodes.

Definition demo_bytes : list Z := lit "the quick brown fox jumps over the lazy dog".

Definition demo_params : CdcParams := Eval vm_compute in
  match from_target 8 with Some (Ok p) => p | _ => mkCdcParams 0 0 0 0 0 end.

Definition demo_pieces : list (list Z) := Eval vm_compute in pieces (next_cdc compute_gear_table demo_params) demo_bytes.

Lemma content_round_trip_witness :
  map (λ q : list Z, length q) demo_pieces = [10; 5; 9; 7; 9; 3]%nat
  ∧ ∃ h (s' : ContentMap), create_blob_fastcdc 0 demo_bytes 8 [] tt = Done (Ok h) s' tt ∧ reassemble h s' = Some (Ok demo_bytes).
Proof.
  split; [vm_compute; reflexivity|].
  assert (Hp : demo_pieces = pieces (next_cdc compute_gear_table demo_params) demo_bytes) by (vm_compute; reflexivity).
  destruct (content_round_trip (HT := memory_store) bt_ok 0 demo_bytes demo_pieces 8 CONTENT_CHUNKING_FASTCDC
              (create_blob_fastcdc 0 demo_bytes 8) [] tt) as (h & s' & blob & Erun & _ & _ & Hr & _).
  - discriminate.
  - rewrite Hp. apply by_content; [by split|vm_compute; reflexivity].
  - apply (bool_decide_eq_true_1 _). vm_compute. reflexivity.
  - apply Z.leb_le. vm_compute. reflexivity.
  - apply (bool_decide_eq_true_1 _). vm_compute. reflexivity.
  - apply no_clash_fresh. vm_compute. reflexivity.
  - exists h, s'. split; [exact Erun|exact Hr].
Defined.

(** A reader of a script: bytes one at a time, interruptions in between. *)
#[local] Instance script_reader : Read (list (option Z)) :=
  λ _ r, match r with [] => (ReadOk [], []) | Some b :: r => (ReadOk [b], r) | None :: r => (Interrupted, r) end.

Lemma script_delivers r : delivers (S (length r)) r (omap id r).
Proof.
  induction r as [|[b|] r IH]; intros want Hw; cbn.
  - done.
  - split; [lia|]. exists (omap id r). by split.
  - exact IH.
Qed.

Definition demo_script : list (option Z) := Eval vm_compute in concat (map (λ b, [None; Some b]) demo_bytes).

Lemma stream_is_buffered_witness :
  create_blob_fastcdc_stream (H1 := script_reader) 0 100 100 demo_script 8 ([] : ContentMap) tt = create_blob_fastcdc 0 demo_bytes 8 [] tt.
Proof.
  apply (stream_is_buffered (HT := memory_store) 0 87 100 100 demo_script demo_bytes 8 [] tt).
  - by split.
  - exact (script_delivers demo_script).
  - apply Nat.ltb_lt. reflexivity.
  - apply Nat.ltb_lt. reflexivity.
Defined.

Lemma cdc_chunks_bounded_witness :
  map (λ q : list Z, length q) demo_pieces = [10; 5; 9; 7; 9; 3]%nat
  ∧ cdc_boundary demo_bytes demo_params 10 = 15 ∧ cdc_boundary (demo_bytes ++ lit "s") demo_params 10 = 15
  ∧ ∃ chunks, cut_at (cdc_boundary demo_bytes demo_params) demo_bytes 0 chunks ∧ concat chunks = demo_bytes.
Proof.
  split; [vm_compute; reflexivity|]. split; [vm_compute; reflexivity|].
  destruct (cdc_chunks_bounded (HT := memory_store) (L := ()) 0 8 demo_params demo_bytes (lit "s"))
    as (Hb & chunks & longer & Hcut & _ & _ & Hc & _).
  - by split.
  - vm_compute. reflexivity.
  - destruct (Hb 10) as (_ & _ & Hlt); [by split|]. split; [|by exists chunks].
    assert (E : cdc_boundary demo_bytes demo_params 10 = 15) by (vm_compute; reflexivity).
    assert (Hl : cdc_boundary demo_bytes demo_params 10 < Z.of_nat (length demo_bytes)) by (rewrite E; vm_compute; reflexivity).
    exact (eq_trans (proj2 (Hlt Hl)) E).
Defined.

End demo.
