(* ===== verification/ContentClosure.v ===== *)
(** Fetching what of a blob is missing ([extensions/content/src/closure.rs]): over a store that
    writes an entity once, a run ends and, when it succeeds, the blob and all of its chunks are
    there. *)
From S2P Require Import Prelude BTree Ecf Cbor ContentHash Entity Capability Store Trie Index TrieSpec Handler RootTracker Content ContentSpec.

(** * Stores that write once *)

Definition extends `{ContentStore St} (s s' : St) : Prop := ∀ h e, store_get h s = Some e → store_get h s' = Some e.

#[export] Instance extends_preorder `{ContentStore St} : PreOrder extends.
Proof. split; [by intros s h e|]. intros s1 s2 s3 H1 H2 h e He. by apply H2, H1. Qed.

(** The promise: storing an entity, a failure included, changes none that is there. *)
Class WriteOnce St `{ContentStore St} (wf : St → Prop) : Prop :=
  write_once s e : wf s → wf (store_put e s).2 ∧ extends s (store_put e s).2.

#[export] Instance notifying_store_write_once hooks :
  @WriteOnce ContentWorld (notifying_store hooks) (λ w, bt_ok (entities w)).
Proof.
  intros w e Hw. cbn. unfold notifying_put, content_has. case_bool_decide as Hh; [by split|].
  assert (Hnew : ∀ bs, @extends ContentWorld (notifying_store hooks) w (mkContentWorld (bt_insert (content_hash e) e (entities w)) bs)).
  { intros bs h e' He'. cbn in *. unfold content_get in *. rewrite bt_get_insert_ne; [done|done|]. intros <-. rewrite He' in Hh. by apply Hh. }
  unfold content_put. match goal with |- context [existsb ?f hooks] => destruct (existsb f hooks) end;
    (split; [by apply bt_insert_ok|apply Hnew]).
Qed.

(** * Runs that end and only add *)

Section adds.
Context {St : Type} `{HT : ContentStore St} (wf : St → Prop) {L : Type}.

Definition adds {E A} (m : Code E St L A) (s : St) (t : L) (Q : result E A → St → Prop) : Prop :=
  ∃ r s' t', m s t = Done r s' t' ∧ wf s' ∧ extends s s' ∧ Q r s'.

Lemma adds_bind {E A B} (m : Code E St L A) (f : A → Code E St L B) s t Q R :
  adds m s t Q →
  (∀ e s', Q (Err e) s' → R (Err e) s') →
  (∀ a s' t', wf s' → extends s s' → Q (Ok a) s' → adds (f a) s' t' R) → adds (andthen m f) s t R.
Proof.
  intros ([a|e] & s1 & t1 & Em & Hw & Hx & HQ) He Ha; unfold adds, andthen; rewrite Em.
  - destruct (Ha a s1 t1 Hw Hx HQ) as (r & s2 & t2 & Ef & Hw2 & Hx2 & HR). exists r, s2, t2. split_and!; [done|done|by etrans|done].
  - exists (Err e), s1, t1. auto.
Qed.

Lemma adds_pure {E A} (m : Code E St L A) (r : result E A) s t (Q : result E A → St → Prop) :
  m s t = Done r s t → wf s → Q r s → adds m s t Q.
Proof. intros Em Hw HQ. exists r, s, t. by split_and!. Qed.

Lemma adds_mono {E A} (m : Code E St L A) s t (Q R : result E A → St → Prop) :
  adds m s t Q → (∀ r s', Q r s' → R r s') → adds m s t R.
Proof. intros (r & s1 & t1 & ? & ? & ? & ?) HR. exists r, s1, t1. auto. Qed.

(** Nothing but a failure of this kind. *)
Definition fails_as {E A} (P : E → Prop) (r : result E A) (s : St) : Prop := match r with Ok _ => True | Err e => P e end.

Lemma adds_fold {E A B} (P : E → Prop) (f : B → A → Code E St L B) l :
  (∀ b x s t, wf s → adds (f b x) s t (fails_as P)) → ∀ b s t, wf s → adds (fold_run f b l) s t (fails_as P).
Proof.
  intros Hf. induction l as [|x l IH]; intros b s t Hw; [by eapply adds_pure|]. cbn [fold_run].
  apply (adds_bind _ _ s t (fails_as P)); auto.
Qed.
End adds.

(** * The closure *)

Section closure.
Context {St : Type} `{HT : ContentStore St} (wf : St → Prop) `{!WriteOnce St wf} `{HS : Sha2} `{!Sha2Ok} `{HC : Ciborium} {L : Type} (home : Z).
Hypothesis Hhome : digest_len_for_format home ≠ None.
Context (execute : list Z → list Z → Entity → ResourceTarget → Code HandlerError St L HandlerResult).
Hypothesis Hexecute : ∀ path op params target s t, wf s → adds wf (execute path op params target) s t (λ _ _, True).

(** The retries a run gives up after *)
Definition given_up (e : EnsureClosureError) : Prop := match e with PendingSync n => n = MAX_PENDING_SYNC_RETRIES + 1 | _ => True end.

Lemma stores_adds e entity s t : wf s → given_up e → adds wf (L := L) (stores e entity) s t (fails_as given_up).
Proof.
  intros Hw He. destruct (write_once s entity Hw) as [Hw' Hx]. unfold adds, stores.
  destruct (store_put entity s) as [[h|x] s'] eqn:Ep; cbn in Hw', Hx |- *; eexists _, s', t; by split_and!.
Qed.

Lemma fetch_and_store_adds ns hashes s t : wf s → adds wf (fetch_and_store home execute ns hashes) s t (fails_as given_up).
Proof.
  intros Hw. unfold fetch_and_store.
  destruct (entity_new_encoded home (lit "system/content/get-request") (get_request_value hashes) Hhome) as (e & He & _); [done..|].
  apply (adds_bind _ _ _ _ _ (λ r _, r = Ok e)).
  - eapply adds_pure; [by unfold build_get_request, unwraps; rewrite He|done|done].
  - by intros.
  - intros a s1 t1 Hw1 _ _. apply (adds_bind _ _ _ _ _ (fails_as given_up)).
    + destruct (Hexecute ns (lit "get") a (mkTarget [ns] []) s1 t1 Hw1) as (r & s2 & t2 & Er & Hw2 & Hx2 & _).
      exists (map_err (λ _, Decode) r), s2, t2. unfold renames. rewrite Er. split_and!; [done|done|done|by destruct r].
    + done.
    + intros r s2 t2 Hw2 _ _.
      repeat match goal with |- context [if ?b then _ else _] => destruct b end; try (by eapply adds_pure).
      apply adds_fold; [|done]. intros _ x s3 t3 Hw3. apply (adds_bind _ _ _ _ _ (fails_as given_up)); [by apply stores_adds|done|].
      intros. by eapply adds_pure.
Qed.

Lemma fetch_blob_adds ns blob fuel : ∀ retries s t, wf s → 0 ≤ retries ≤ 8 → 9 - retries ≤ Z.of_nat fuel →
  adds wf (fetch_blob home execute ns blob fuel retries) s t
    (λ r s', match r with Ok _ => is_Some (store_get blob s') | Err e => given_up e end).
Proof.
  induction fuel as [|fuel IH]; intros retries s t Hw Hr Hf; [lia|]. cbn [fetch_blob].
  eapply adds_bind; [by eapply (adds_pure _ _ _ _ _ (λ r s', r = Ok (store_get blob s')))|done|].
  intros here s1 t1 Hw1 _ [= ->]. destruct (store_get blob s1) as [e|] eqn:Eb; [by eapply adds_pure; [done|done|exists e]|].
  eapply adds_bind; [by apply fetch_and_store_adds|done|]. intros _ s2 t2 Hw2 _ _.
  eapply adds_bind; [by eapply (adds_pure _ _ _ _ _ (λ r s', r = Ok (store_get blob s')))|done|].
  intros here s3 t3 Hw3 _ [= ->]. destruct (store_get blob s3) as [e|] eqn:Eb3; [by eapply adds_pure; [done|done|exists e]|].
  unfold MAX_PENDING_SYNC_RETRIES. destruct (Z.ltb_spec 8 (retries + 1)).
  - eapply adds_pure; [done|done|]. cbn. unfold MAX_PENDING_SYNC_RETRIES. lia.
  - apply IH; [done|lia|lia].
Qed.

Lemma missing_here_spec l s x : x ∈ l → x ∉ missing_here l s → is_Some (store_get x s).
Proof. intros Hx Hn. apply not_eq_None_Some. intros He. apply Hn. unfold missing_here. by apply list_elem_of_filter. Qed.

Lemma fetch_chunks_adds ns fuel : ∀ missing retries s t, wf s → 0 ≤ retries ≤ 8 → 9 - retries ≤ Z.of_nat fuel →
  adds wf (fetch_chunks home execute ns fuel missing retries) s t
    (λ r s', match r with Ok _ => ∀ x, x ∈ missing → is_Some (store_get x s') | Err e => given_up e end).
Proof.
  induction fuel as [|fuel IH]; intros missing retries s t Hw Hr Hf; [lia|]. cbn [fetch_chunks].
  case_bool_decide as Hm; [by eapply adds_pure; [done|done|]; subst; intros x ?%elem_of_nil|].
  eapply adds_bind; [apply (adds_fold wf given_up); [|exact Hw]; intros; by apply fetch_and_store_adds|done|].
  intros _ s2 t2 Hw2 _ _.
  eapply adds_bind; [by eapply (adds_pure _ _ _ _ _ (λ r s', r = Ok (missing_here missing s')))|done|].
  intros still s3 t3 Hw3 _ [= ->]. case_bool_decide as Hs.
  { eapply adds_pure; [done|done|]. intros x Hx. apply (missing_here_spec missing); [done|]. rewrite Hs. apply not_elem_of_nil. }
  unfold MAX_PENDING_SYNC_RETRIES. destruct (Z.ltb_spec 8 (retries + 1)).
  { eapply adds_pure; [done|done|]. cbn. unfold MAX_PENDING_SYNC_RETRIES. lia. }
  destruct (IH (missing_here missing s3) (retries + 1) s3 t3 Hw3 ltac:(lia) ltac:(lia)) as (r & s4 & t4 & Er & Hw4 & Hx4 & HQ).
  exists r, s4, t4. split_and!; [done..|]. destruct r as [[]|e]; [|done]. intros x Hx.
  destruct (decide (x ∈ missing_here missing s3)) as [Hi|Hi]; [by apply HQ|].
  destruct (missing_here_spec _ _ _ Hx Hi) as [e He]. exists e. by apply Hx4.
Qed.
End closure.

(** C16. Completing a closure ends, whatever is at the other side, and keeps every entity there
    was.  When it succeeds the blob is there, it decodes, and so is every chunk that it names;
    when it gives up it has retried as often as it may. *)
Theorem ensure_closure_complete {St : Type} `{HT : ContentStore St} (wf : St → Prop) `{!WriteOnce St wf}
    `{HS : Sha2} `{!Sha2Ok} `{HC : Ciborium} {L : Type} (home : Z) execute (blob : Hash) (namespace : list Z) (s : St) (t : L) :
  digest_len_for_format home ≠ None →
  (∀ path op params target s t, wf s → adds wf (execute path op params target) s t (λ _ _, True)) → wf s →
  ∃ r s' t', ensure_closure home execute blob namespace s t = Done r s' t' ∧ wf s' ∧ extends s s'
    ∧ match r with
      | Ok _ => ∃ total hashes, decode_blob blob s' = Ok (total, hashes) ∧ ∀ h, h ∈ hashes → is_Some (store_get h s')
      | Err (PendingSync n) => n = MAX_PENDING_SYNC_RETRIES + 1
      | Err _ => True
      end.
Proof.
  intros Hhome Hex Hw.
  apply (adds_mono wf _ _ _ (λ r s', match r with
      | Ok _ => ∃ total hashes, decode_blob blob s' = Ok (total, hashes) ∧ ∀ h, h ∈ hashes → is_Some (store_get h s')
      | Err e => given_up e end)); [|by intros [[]|[]] s']. unfold ensure_closure.
  eapply adds_bind; [by apply (fetch_blob_adds wf home Hhome execute Hex); [done|lia|unfold closure_fuel; lia]|done|].
  intros _ s1 t1 Hw1 _ _.
  eapply adds_bind; [by eapply (adds_pure wf _ _ _ _ (λ r s', r = Ok (decode_blob blob s')))|done|].
  intros d s2 t2 Hw2 _ [= ->].
  destruct (decode_blob blob s2) as [[total hashes]|e] eqn:Ed; [|by exists (Err (Verify e)), s2, t2; split_and!; [|done|apply extends_preorder|]].
  eapply adds_bind; [by eapply (adds_pure wf _ _ _ _ (λ r s', r = Ok (total, hashes) ∧ s' = s2))|by intros ? ? [? ?]|].
  intros d s3 t3 Hw3 _ [[= ->] ->].
  eapply adds_bind; [by eapply (adds_pure wf _ _ _ _ (λ r s', r = Ok (missing_here hashes s') ∧ s' = s2))|by intros ? ? [? ?]|].
  intros d s4 t4 Hw4 _ [[= ->] ->]. cbn [snd].
  destruct (fetch_chunks_adds wf home Hhome execute Hex namespace closure_fuel (missing_here hashes s2) 0 s2 t4 Hw3) as (r & s5 & t5 & Er & Hw5 & Hx5 & HQ);
    [lia|unfold closure_fuel; lia|].
  exists r, s5, t5. split_and!; [exact Er|done|done|]. destruct r as [[]|e]; [|done]. exists total, hashes. split.
  - revert Ed. unfold decode_blob. destruct (store_get blob s2) as [b|] eqn:Eb; [|done]. by rewrite (Hx5 _ _ Eb).
  - intros h Hh. destruct (decide (h ∈ missing_here hashes s2)) as [Hi|Hi]; [by apply HQ|].
    destruct (missing_here_spec _ _ _ Hh Hi) as [e He]. exists e. by apply Hx5.
Qed.

(** * A concrete run *)

Section demo.
#[local] Existing Instances sum_sha2 sum_sha2_ok ref_ciborium ref_ciborium_decodes.

(** A dispatcher that answers every request with the entities of one store. *)
Definition answers_from (m : ContentMap) : list Z → list Z → Entity → ResourceTarget → Code HandlerError ContentWorld unit HandlerResult :=
  λ _ _ _ _, returns (ok_with_included (mkEntity [] [] hash_zero) (list_to_map m)).

Definition demo_source : ContentMap * Hash := Eval vm_compute in
  match create_blob_fastcdc 0 demo_bytes 8 ([] : ContentMap) tt with Done (Ok h) s _ => (s, h) | _ => ([], hash_zero) end.

Lemma ensure_closure_complete_witness :
  ∃ s' : ContentWorld, ensure_closure (H1 := notifying_store []) 0 (answers_from demo_source.1) demo_source.2 [] (mkContentWorld [] []) tt = Done (Ok tt) s' tt
    ∧ ∃ total hashes, decode_blob (H0 := notifying_store []) demo_source.2 s' = Ok (total, hashes)
      ∧ ∀ h, h ∈ hashes → is_Some (store_get (ContentStore := notifying_store []) h s').
Proof.
  destruct (ensure_closure_complete (HT := notifying_store []) (λ w, bt_ok (entities w)) 0 (answers_from demo_source.1) demo_source.2 []
              (mkContentWorld [] []) tt) as (r & s' & t' & Erun & _ & _ & Hr).
  - discriminate.
  - intros path op params target s t Hw. by eapply adds_pure.
  - apply (bool_decide_eq_true_1 _). vm_compute. reflexivity.
  - assert (Hc : (match ensure_closure (H1 := notifying_store []) 0 (answers_from demo_source.1) demo_source.2 [] (mkContentWorld [] []) tt with
                  | Done r _ _ => r | Stuck => Ok tt end) = Ok tt) by (vm_compute; reflexivity).
    rewrite Erun in Hc. subst r. destruct Hr as (total & hashes & Hd & Hhere). exists s'. split; [destruct t'; exact Erun|].
    exists total, hashes. split; [exact Hd|exact Hhere].
Defined.
End demo.
