(* ===== verification/ContentHandler.v ===== *)
(** The content handler ([extensions/content/src/handler.rs]): entities by their hashes within the
    budget of a frame, and entities taken in under a namespace. *)
From S2P Require Import Prelude BTree Ecf Cbor ContentHash Paths Entity Capability CapabilityCodec Store Trie Index Handler Content.

(** 16 MiB less 64 KiB *)
Definition DEFAULT_GET_FRAME_BUDGET : Z := 16 * 1024 * 1024 - 64 * 1024.

Definition included_entry_cost (entity : Entity) : Z :=
  saturating_add (saturating_add 65 (Z.of_nat (length (entity_type entity)))) (Z.of_nat (length (data entity))).

Definition content_response_value (found missing : list Hash) : Value :=
  VMap [(text (lit "found"), VArray (map hash_to_bstr found)); (text (lit "missing"), VArray (map hash_to_bstr missing))].

Definition encode_content_response (found missing : list Hash) : list Z := to_ecf (content_response_value found missing).

(** The last [type] and the last [data] of the map. *)
Definition core_entity_step (acc : option (list Z) * option Value) (kv : Value * Value) : option (list Z) * option Value :=
  if key_is "type" kv.1 then (as_str kv.2, acc.2)
  else if key_is "data" kv.1 then (acc.1, Some kv.2)
  else acc.

Definition bad_request (code : string) : Reply := Refused STATUS_BAD_REQUEST (lit code).
Definition unsupported_operation : Reply := Refused STATUS_NOT_SUPPORTED (lit "unsupported_operation").

Section handler.
Context `{Sha2} `{Ciborium} {St : Type} `{ContentStore St} {L : Type} `{LocationIndex L}.
Context (home : Z) (local_peer_id : list Z).
(** [has_index]: an index is wired; [get_frame_budget]: the configured budget *)
Context (has_index : bool) (get_frame_budget : Z).

Notation run := (Code HandlerError St L).

(** [MissResolver::resolve_miss] with the execute function of the request, where both are there *)
Context (resolve_miss : option (Hash → option Hash → option CapabilityToken → option ResourceTarget → run (option Entity))).

Definition decode_core_entity (value : Value) : option Entity :=
  m ← as_map value;
  let '(etype, edata) := foldl core_entity_step (None, None) m in
  etype ← etype;
  ok (entity_new home etype (to_ecf (default (VMap []) edata))).

Definition ingest_result_value (root : option Entity) (root_hash : Hash) (count : Z) : Value :=
  VMap (match root with
        | Some r =>
            [(text (lit "root"),
              VMap [(text (lit "type"), text (entity_type r)); (text (lit "data"), default (VMap []) (from_reader (data r)));
                    (text (lit "content_hash"), hash_to_bstr (content_hash r))])]
        | None => []
        end
        ++ [(text (lit "root_hash"), hash_to_bstr root_hash); (text (lit "ingested_count"), VInteger count)]).

Definition encode_ingest_result (root : option Entity) (root_hash : Hash) (count : Z) : list Z :=
  to_ecf (ingest_result_value root root_hash count).

(** An entity that cannot be built is refused as [encode_failed]. *)
Definition answer_with (ty d : list Z) (included : gmap Hash Entity) : Reply :=
  match entity_new home ty d with
  | Ok e => Answered (ok_with_included e included)
  | Err _ => bad_request "encode_failed"
  end.

(** ** get *)

Record GetState := mkGet {
  found : list Hash; missing : list Hash; get_included : gmap Hash Entity; used : Z; budget_exhausted : bool;
}.

Definition get_miss (h : Hash) (st : GetState) : GetState :=
  mkGet (found st) (missing st ++ [h]) (get_included st) (used st) (budget_exhausted st).

Definition try_substitute_resolve (h : Hash) (claimed_source : option Hash) (ctx : HandlerContext) : run (option Entity) :=
  match resolve_miss with
  | Some resolver => resolver h claimed_source (hc_caller_capability ctx) (hc_resource_target ctx)
  | None => returns None
  end.

(** One requested hash; an entry that is none refuses the request. *)
Definition get_step (ctx : HandlerContext) (st : Reply + GetState) (entry : Value) : run (Reply + GetState) :=
  match st with
  | inl refusal => returns (inl refusal)
  | inr st =>
      match decode_hash_record entry with
      | None => returns (inl (bad_request "invalid_params"))
      | Some h =>
          if budget_exhausted st then returns (inr (get_miss h st))
          else
            here <~ asks (λ s _, store_get h s);;
            resolved_entity <~ match here with
                               | Some entity => returns (Some entity)
                               | None => try_substitute_resolve h None ctx
                               end;;
            match resolved_entity with
            | Some entity =>
                let next := saturating_add (used st) (included_entry_cost entity) in
                if (get_frame_budget <? next) && negb (bool_decide (get_included st = ∅)) then
                  returns (inr (mkGet (found st) (missing st ++ [h]) (get_included st) (used st) true))
                else
                  returns (inr (mkGet (found st ++ [h]) (missing st) (<[h := entity]> (get_included st)) next (budget_exhausted st)))
            | None => returns (inr (get_miss h st))
            end
      end
  end.

Definition handle_get (ctx : HandlerContext) : run Reply :=
  match require_single_resource_path (hc_resource_target ctx) local_peer_id with
  | inl refusal => returns refusal
  | inr _ =>
      match from_reader (data (hc_params ctx)) with
      | None => returns (bad_request "invalid_params")
      | Some params =>
          match (x ← value_get params (lit "hashes"); as_array x) with
          | None => returns (bad_request "invalid_params")
          | Some hashes_v =>
              st <~ fold_run (get_step ctx) (inr (mkGet [] [] ∅ 0 false)) hashes_v;;
              match st with
              | inl refusal => returns refusal
              | inr st =>
                  returns (answer_with (lit "system/content/content-response")
                             (encode_content_response (found st) (missing st)) (get_included st))
              end
          end
      end
  end.

(** ** ingest *)

Definition binding_path (namespace_uri : list Z) (h : Hash) : list Z := namespace_uri ++ [ch_slash] ++ to_hex h.

Definition write_namespace_binding (namespace_uri : list Z) (h : Hash) : run unit :=
  if has_index then writes (li_set (binding_path namespace_uri h) h) else skip.

(** A put; its failure is a refusal. *)
Definition put_or_refuse (entity : Entity) : run (Reply + Hash) :=
  λ s t, match store_put entity s with
         | (Ok h, s) => Done (Ok (inr h)) s t
         | (Err _, s) => Done (Ok (inl (bad_request "store_failed"))) s t
         end.

Definition ingest_one (namespace_uri : list Z) (count : Reply + Z) (kv : Value * Value) : run (Reply + Z) :=
  match count with
  | inl refusal => returns (inl refusal)
  | inr count =>
      match decode_hash_record kv.1, decode_core_entity kv.2 with
      | Some key_hash, Some entity =>
          if negb (bool_decide (content_hash entity = key_hash)) then returns (inl (bad_request "hash_mismatch"))
          else
            stored <~ put_or_refuse entity;;
            match stored with
            | inl refusal => returns (inl refusal)
            | inr _ => _ <~ write_namespace_binding namespace_uri key_hash;; returns (inr (count + 1))
            end
      | _, _ => returns (inl (bad_request "invalid_envelope"))
      end
  end.

(** A value that is there and not null. *)
Definition present (v : option Value) : option Value := match v with Some VNull | None => None | Some v => Some v end.

Definition ingest_root (root_entity : option Entity) (namespace_uri : list Z) : run (Reply + Hash * Z) :=
  match root_entity with
  | Some root =>
      stored <~ put_or_refuse root;;
      match stored with
      | inl refusal => returns (inl refusal)
      | inr h => _ <~ write_namespace_binding namespace_uri h;; returns (inr (h, 1))
      end
  | None => returns (inr (hash_zero, 0))
  end.

Definition ingest_envelope (envelope : Value) (namespace_uri : list Z) : run Reply :=
  let root_v := present (value_get envelope (lit "root")) in
  let root_entity := decode_core_entity <$> root_v in
  match root_entity with
  | Some None => returns (bad_request "invalid_envelope")
  | _ =>
      let root_entity := mjoin root_entity in
      rooted <~ ingest_root root_entity namespace_uri;;
      match rooted with
      | inl refusal => returns refusal
      | inr (root_hash, count) =>
          let included_map := default [] (x ← value_get envelope (lit "included"); as_map x) in
          count <~ fold_run (ingest_one namespace_uri) (inr count) included_map;;
          match count with
          | inl refusal => returns refusal
          | inr count => returns (answer_with (lit "system/content/ingest-result") (encode_ingest_result root_entity root_hash count) ∅)
          end
      end
  end.

Definition ingest_entity (entity_v : Value) (namespace_uri : list Z) : run Reply :=
  match decode_core_entity entity_v with
  | None => returns (bad_request "invalid_request")
  | Some entity =>
      stored <~ put_or_refuse entity;;
      match stored with
      | inl refusal => returns refusal
      | inr _ =>
          _ <~ write_namespace_binding namespace_uri (content_hash entity);;
          returns (answer_with (lit "system/content/ingest-result") (encode_ingest_result None (content_hash entity) 1) ∅)
      end
  end.

Definition handle_ingest (ctx : HandlerContext) : run Reply :=
  match require_single_resource_path (hc_resource_target ctx) local_peer_id with
  | inl refusal => returns refusal
  | inr namespace_uri =>
      match from_reader (data (hc_params ctx)) with
      | None => returns (bad_request "invalid_params")
      | Some params =>
          match present (value_get params (lit "envelope")), present (value_get params (lit "entity")) with
          | Some _, Some _ => returns (bad_request "ambiguous_input")
          | None, None => returns (bad_request "missing_input")
          | Some envelope, None => ingest_envelope envelope namespace_uri
          | None, Some entity_v => ingest_entity entity_v namespace_uri
          end
      end
  end.

Definition handle (ctx : HandlerContext) : run Reply :=
  if bool_decide (hc_operation ctx = lit "get") then handle_get ctx
  else if bool_decide (hc_operation ctx = lit "ingest") then handle_ingest ctx
  else returns unsupported_operation.
End handler.
