(* ===== verification/ContentServe.v ===== *)
(** What the content handler promises: which entities a [get] answers with, what it thinks their
    frame costs, and that a client that completes a closure against it ends up with the blob. *)
From S2P Require Import Prelude BTree Ecf Cbor ContentHash Paths Entity Walker Wire Capability CapabilityCodec Store Trie Index TrieSpec Handler.
From S2P Require Import Response RootTracker Content ContentSpec ContentHandler.

Definition total_cost (l : list Entity) : Z := foldr Z.add 0 (map included_entry_cost l).

Lemma cost_positive e : 65 ≤ included_entry_cost e.
Proof. unfold included_entry_cost, saturating_add, u64_max. lia. Qed.

Lemma total_cost_app l k : total_cost (l ++ k) = total_cost l + total_cost k.
Proof. unfold total_cost. induction l as [|e l IH]; cbn [app map foldr]; lia. Qed.

(** * The loop of get *)

Section get.
Context {St : Type} `{HT : ContentStore St} (budget : Z) (s : St).
Hypothesis Hbudget : 0 ≤ budget < u64_max.

Definition here (h : Hash) : Prop := is_Some (store_get h s).
#[export] Instance here_dec h : Decision (here h).
Proof. unfold here. apply _. Defined.

(** The entities of some hashes *)
Definition entities_of (l : list Hash) : list Entity := omap (λ h, store_get h s) l.

(** One turn of the loop over a hash, no resolver there. *)
Definition serve (st : GetState) (h : Hash) : GetState :=
  if budget_exhausted st then get_miss h st
  else
    match store_get h s with
    | Some entity =>
        let next := saturating_add (used st) (included_entry_cost entity) in
        if (budget <? next) && negb (bool_decide (get_included st = ∅)) then
          mkGet (found st) (missing st ++ [h]) (get_included st) (used st) true
        else mkGet (found st ++ [h]) (missing st) (<[h := entity]> (get_included st)) next (budget_exhausted st)
    | None => get_miss h st
    end.

(** What the loop has after the hashes of [asked]: it looked at the first [n]. *)
Definition served (n : nat) (asked : list Hash) (st : GetState) : Prop :=
  (n ≤ length asked)%nat
  ∧ found st = filter here (take n asked)
  ∧ missing st = filter (λ h, ¬ here h) (take n asked) ++ drop n asked
  ∧ (∀ h, get_included st !! h = if decide (h ∈ found st) then store_get h s else None)
  ∧ (total_cost (entities_of (found st)) ≤ budget ∨ length (found st) = 1%nat)
  ∧ ((n < length asked)%nat → ∃ h e, asked !! n = Some h ∧ store_get h s = Some e ∧ found st ≠ []
      ∧ budget < total_cost (entities_of (found st)) + included_entry_cost e).

Lemma serve_served h asked st n :
  served n asked st → used st = Z.min (total_cost (entities_of (found st))) u64_max →
  budget_exhausted st = negb (n =? length asked)%nat →
  let st' := serve st h in
  let n' := if budget_exhausted st' then n else S n in
  served n' (asked ++ [h]) st' ∧ used st' = Z.min (total_cost (entities_of (found st'))) u64_max
  ∧ budget_exhausted st' = negb (n' =? length (asked ++ [h]))%nat.
Proof.
  intros (Hn & Hf & Hm & Hi & Hc & Hstop) Hu Hx. rewrite length_app. cbn [length].
  destruct (Nat.eqb_spec n (length asked)) as [->|Hne]; cbn [negb] in Hx; cbv zeta; unfold serve; rewrite Hx.
  - rewrite take_ge, drop_ge, app_nil_r in * by lia. clear Hstop.
    assert (Hnil : get_included st = ∅ ↔ found st = []).
    { split; intros He.
      - destruct (found st) as [|h' l] eqn:Ef; [done|]. specialize (Hi h'). rewrite He, lookup_empty, decide_True in Hi by left.
        assert (Hh : h' ∈ filter here asked) by (rewrite <- Hf; left). apply list_elem_of_filter in Hh as [[e Hh] _]. congruence.
      - apply map_eq. intros h'. by rewrite Hi, He, lookup_empty. }
    destruct (store_get h s) as [e|] eqn:Eh; cycle 1.
    { cbn [get_miss budget_exhausted]. rewrite Hx. assert (Hh : ¬ here h) by (unfold here; rewrite Eh; by intros [? ?]).
      unfold served, get_miss. cbn [found missing get_included used budget_exhausted]. rewrite !take_ge, !drop_ge, !length_app by (rewrite length_app; cbn; lia). cbn [length].
      rewrite !filter_app, Hm, app_nil_r, filter_cons_False, filter_nil, app_nil_r by done.
      rewrite (filter_cons_True (λ h, ¬ here h)), filter_nil by done.
      split_and!; [lia|done|done|done|done|lia|done|]. rewrite Nat.add_1_r. cbn. by rewrite Nat.eqb_refl. }
    assert (Hh : here h) by (by exists e). pose proof (cost_positive e) as Hpos.
    case_bool_decide as He; cbn [negb andb].
    + rewrite andb_false_r. apply Hnil in He. unfold served. cbn [found missing get_included used budget_exhausted].
      rewrite !take_ge, !drop_ge, !length_app by (rewrite length_app; cbn; lia). cbn [length].
      rewrite !filter_app, Hm, app_nil_r, filter_cons_True, filter_nil, <- Hf, He by done.
      rewrite (filter_cons_False (λ h, ¬ here h)), filter_nil by (intros ?; tauto). rewrite He in Hu. cbn in Hu |- *. rewrite Eh. cbn.
      split_and!; [lia|done|by rewrite app_nil_r| |by right|lia|unfold saturating_add, u64_max in *; lia|].
      * intros h'. rewrite lookup_insert, Hi, He. destruct (decide (h = h')) as [<-|Hn']; [by rewrite decide_True by left|].
        rewrite decide_False by (intros ?%elem_of_nil; done). rewrite decide_False; [done|]. intros ->%list_elem_of_singleton. done.
      * rewrite Nat.add_1_r. cbn. by rewrite Nat.eqb_refl.
    + rewrite andb_true_r. assert (Hne : found st ≠ []) by tauto.
      destruct (Z.ltb_spec budget (saturating_add (used st) (included_entry_cost e))) as [Hlt|Hge].
      * unfold served. cbn [found missing get_included used budget_exhausted]. rewrite take_app_length, drop_app_length, length_app. cbn [length].
        split_and!; [lia|done|by rewrite Hm|done|done| |done|].
        -- intros _. exists h, e. rewrite list_lookup_middle by done. split_and!; [done|done|done|]. unfold saturating_add in Hlt. lia.
        -- destruct (Nat.eqb_spec (length asked) (length asked + 1)); [lia|done].
      * unfold served. cbn [found missing get_included used budget_exhausted].
        rewrite !take_ge, !drop_ge, !length_app by (rewrite length_app; cbn; lia). cbn [length].
        rewrite !filter_app, Hm, app_nil_r, filter_cons_True, filter_nil, <- Hf by done.
        rewrite (filter_cons_False (λ h, ¬ here h)), filter_nil by (intros ?; tauto).
        assert (Hsum : total_cost (entities_of (found st ++ [h])) = total_cost (entities_of (found st)) + included_entry_cost e).
        { unfold entities_of. rewrite omap_app, total_cost_app. cbn. rewrite Eh. cbn. lia. }
        rewrite Hsum. unfold saturating_add in *. split_and!; [lia|done|by rewrite app_nil_r| |left; lia|lia|lia|].
        -- intros h'. rewrite lookup_insert, Hi. destruct (decide (h = h')) as [<-|Hn']; [rewrite decide_True; [done|apply elem_of_app; right; by left]|].
           apply decide_ext. rewrite elem_of_app, list_elem_of_singleton. split; [auto|]. intros [?|?]; [done|congruence].
        -- rewrite Nat.add_1_r. cbn. by rewrite Nat.eqb_refl.
  - cbn [get_miss budget_exhausted]. rewrite Hx. unfold served, get_miss. cbn [found missing get_included used budget_exhausted]. rewrite length_app. cbn [length].
    rewrite take_app_le, drop_app_le by lia. split_and!; [lia|done|by rewrite Hm, <- app_assoc|done|done| |done|].
    + intros _. destruct (Hstop ltac:(lia)) as (h' & e & Hl & ?). exists h', e. rewrite lookup_app_l by lia. by split.
    + destruct (Nat.eqb_spec n (length asked + 1)); [lia|done].
Qed.

Lemma serve_all l : ∃ n, served n l (foldl serve (mkGet [] [] ∅ 0 false) l).
Proof.
  enough (∃ n, served n l (foldl serve (mkGet [] [] ∅ 0 false) l)
    ∧ used (foldl serve (mkGet [] [] ∅ 0 false) l) = Z.min (total_cost (entities_of (found (foldl serve (mkGet [] [] ∅ 0 false) l)))) u64_max
    ∧ budget_exhausted (foldl serve (mkGet [] [] ∅ 0 false) l) = negb (n =? length l)%nat) as (n & ? & _) by eauto.
  induction l as [|h l (n & Hs & Hu & Hx)] using rev_ind.
  - exists O. cbn. split_and!; [|done|done]. unfold served. cbn. split_and!; [lia|done|done|done|left; lia|lia].
  - rewrite foldl_app. cbn [foldl]. pose proof (serve_served h l _ n Hs Hu Hx) as Hst. cbv zeta in Hst. eauto.
Qed.
End get.

(** * Answers *)

Section answers.
Context `{HS : Sha2} `{HC : Ciborium} {St : Type} `{HT : ContentStore St} {L : Type} (home : Z) (local_peer_id : list Z).

Lemma get_steps_run budget ctx entries : ∀ hashes st (s : St) (t : L), mapO decode_hash_record entries = Some hashes →
  fold_run (get_step budget None ctx) (inr st) entries s t = Done (Ok (inr (foldl (serve budget s) st hashes))) s t.
Proof.
  induction entries as [|v entries IH]; intros hashes st s t Hd; [by injection Hd as <-|]. cbn [mapO] in Hd.
  destruct (decode_hash_record v) as [h|] eqn:Ev; [|done]. cbn [mbind option_bind] in Hd.
  destruct (mapO decode_hash_record entries) as [l|] eqn:El; [|done]. injection Hd as <-.
  cbn [fold_run foldl]. erewrite andthen_run; [by apply IH|]. unfold get_step. rewrite Ev. unfold serve.
  destruct (budget_exhausted st); [done|]. unfold try_substitute_resolve, andthen, asks.
  destruct (store_get h s) as [e|]; [|done]. unfold returns. by destruct (_ && _).
Qed.

Lemma get_steps_stop budget resolve ctx entries r (s : St) (t : L) :
  fold_run (get_step budget resolve ctx) (inl r) entries s t = Done (Ok (inl r)) s t.
Proof. induction entries as [|v entries IH]; [done|]. cbn [fold_run]. by erewrite andthen_run by reflexivity. Qed.

(** An entry that is no hash refuses the whole request. *)
Lemma get_steps_invalid budget ctx entries : ∀ st (s : St) (t : L), mapO decode_hash_record entries = None →
  fold_run (get_step budget None ctx) (inr st) entries s t = Done (Ok (inl (bad_request "invalid_params"))) s t.
Proof.
  induction entries as [|v entries IH]; intros st s t Hd; [done|]. cbn [mapO] in Hd. cbn [fold_run].
  destruct (decode_hash_record v) as [h|] eqn:Ev; cycle 1.
  { erewrite andthen_run by (unfold get_step; by rewrite Ev). apply get_steps_stop. }
  cbn [mbind option_bind] in Hd. destruct (mapO decode_hash_record entries) as [l|] eqn:El; [done|].
  erewrite andthen_run; [by apply IH|]. rewrite <- (get_steps_run budget ctx [v] [h] st s t); [|cbn; by rewrite Ev].
  cbn [fold_run]. unfold andthen. by destruct (get_step budget None ctx (inr st) v s t) as [[?|?] ? ?|].
Qed.

(** The hashes that the parameters of a request ask for, when they are what they should be. *)
Definition requested (ctx : HandlerContext) : option (list Hash) :=
  params ← from_reader (data (hc_params ctx));
  entries ← (x ← value_get params (lit "hashes"); as_array x);
  mapO decode_hash_record entries.

Lemma handle_get_run budget ctx namespace hashes (s : St) (t : L) :
  require_single_resource_path (hc_resource_target ctx) local_peer_id = inr namespace → requested ctx = Some hashes →
  let st := foldl (serve budget s) (mkGet [] [] ∅ 0 false) hashes in
  handle_get home local_peer_id budget None ctx s t
  = Done (Ok (answer_with home (lit "system/content/content-response") (encode_content_response (found st) (missing st)) (get_included st))) s t.
Proof.
  intros Hn. unfold requested, handle_get. rewrite Hn. destruct (from_reader (data (hc_params ctx))) as [params|]; [|done]. cbn [mbind option_bind].
  destruct (x ← value_get params (lit "hashes"); as_array x) as [entries|]; [|done]. cbn [mbind option_bind]. intros Hd.
  by erewrite andthen_run by (by apply get_steps_run).
Qed.

Lemma handle_get_refused budget ctx namespace (s : St) (t : L) :
  require_single_resource_path (hc_resource_target ctx) local_peer_id = inr namespace → requested ctx = None →
  handle_get home local_peer_id budget None ctx s t = Done (Ok (bad_request "invalid_params")) s t.
Proof.
  intros Hn. unfold requested, handle_get. rewrite Hn. destruct (from_reader (data (hc_params ctx))) as [params|]; [|done]. cbn [mbind option_bind].
  destruct (x ← value_get params (lit "hashes"); as_array x) as [entries|]; [|done]. cbn [mbind option_bind]. intros Hd.
  by erewrite andthen_run by (by apply get_steps_invalid).
Qed.

(** What a client asks for is what the handler reads. *)
Lemma get_request_reads `{!CiboriumDecodes} hashes request : Forall hash_ok hashes → len_ok hashes = true →
  data request = to_ecf (get_request_value hashes) →
  (params ← from_reader (data request); entries ← (x ← value_get params (lit "hashes"); as_array x); mapO decode_hash_record entries) = Some hashes.
Proof.
  intros Hh Hl Hd. assert (Hg : good 3 (get_request_value hashes)).
  { apply good_map; [done|]. apply Forall_cons_2; [|by apply Forall_nil_2]. apply field_good; [vm_compute; reflexivity|].
    apply good_array; [by unfold len_ok in *; rewrite length_map|]. apply Forall_map. eapply Forall_impl; [exact Hh|]. intros h ?. by apply hash_good. }
  destruct Hg as [Hv Hdep].
  assert (Hr : from_reader (data request) = Some (VMap [(text (lit "hashes"), VArray (map ecf_norm (map hash_to_bstr hashes)))])).
  { rewrite Hd, <- (app_nil_r (to_ecf _)), from_reader_ecf by (done || unfold ciborium_recursion_limit; lia). reflexivity. }
  rewrite Hr. cbn [mbind option_bind].
  match goal with |- context [value_get ?m (lit "hashes")] => change (value_get m (lit "hashes")) with (Some (VArray (map ecf_norm (map hash_to_bstr hashes)))) end.
  cbn [mbind option_bind as_array]. by apply hashes_read.
Qed.
End answers.

(** * What an included entity costs on the wire *)

Lemma length_encode_head_pos m n : (1 ≤ length (encode_head m n))%nat.
Proof. unfold encode_head. repeat case_match; cbn; lia. Qed.

Lemma length_encode_hash h : hash_ok h → (35 ≤ length (encode_cbor_bstr (to_bytes h)))%nat.
Proof.
  intros Hh. rewrite to_bytes_shape by done. unfold encode_cbor_bstr. rewrite length_app. cbn [length].
  destruct (hash_ok_cases h Hh) as [[_ ->]|[_ ->]]; [change (length (encode_head MAJOR_BYTES (Z.of_nat 33))) with 2%nat|change (length (encode_head MAJOR_BYTES (Z.of_nat 49))) with 2%nat]; lia.
Qed.

Lemma length_encode_entity e : hash_ok (content_hash e) →
  (60 + length (entity_type e) + length (data e) ≤ length (encode_entity e))%nat.
Proof.
  intros Hh. pose proof (length_encode_hash _ Hh). unfold encode_entity. rewrite !length_app.
  assert (S (length (entity_type e)) ≤ length (encode_cbor_text (entity_type e)))%nat.
  { unfold encode_cbor_text. rewrite length_app. pose proof (length_encode_head_pos MAJOR_TEXT (Z.of_nat (length (entity_type e)))). lia. }
  change (length [0xA3]) with 1%nat. change (length (encode_cbor_text (lit "data"))) with 5%nat.
  change (length (encode_cbor_text (lit "type"))) with 5%nat. change (length (encode_cbor_text (lit "content_hash"))) with 13%nat. lia.
Qed.

(** * A client and a server *)

Lemma windows_concat {A} n fuel : ∀ l : list A, (0 < n)%nat → (length l ≤ fuel)%nat → concat (windows n fuel l) = l.
Proof.
  induction fuel as [|fuel IH]; intros l Hn Hl; [destruct l; [done|cbn in Hl; lia]|]. destruct l as [|x l]; [done|]. cbn [windows concat].
  rewrite IH; [apply take_drop|done|]. rewrite length_drop. cbn [length] in *. lia.
Qed.

Lemma windows_sizes {A} n fuel : ∀ l : list A, Forall (λ w, (length w ≤ n)%nat) (windows n fuel l).
Proof.
  induction fuel as [|fuel IH]; intros [|x l]; try apply Forall_nil_2. cbn [windows]. apply Forall_cons_2; [|apply IH]. rewrite length_take. lia.
Qed.

Lemma foldM_ext {E A B} (f g : B → A → result E B) l : (∀ b x, x ∈ l → f b x = g b x) → ∀ b, foldM f b l = foldM g b l.
Proof.
  induction l as [|x l IH]; intros Hfg b; [done|]. cbn [foldM]. rewrite Hfg by left. destruct (g b x) as [b'|]; [|done]. cbn [mbind result_bind].
  apply IH. intros. apply Hfg. by right.
Qed.

(** Stores that agree on a blob and on its chunks put it together alike. *)
Lemma reassemble_same `{Ciborium} {S1 S2 : Type} `{H1 : ContentStore S1} `{H2 : ContentStore S2} blob total hashes (s1 : S1) (s2 : S2) :
  decode_blob blob s2 = Ok (total, hashes) → (∀ h, h ∈ blob :: hashes → store_get h s1 = store_get h s2) →
  decode_blob blob s1 = Ok (total, hashes) ∧ reassemble blob s1 = reassemble blob s2.
Proof.
  intros Hd Hs. assert (Hd1 : decode_blob blob s1 = decode_blob blob s2) by (unfold decode_blob; by rewrite Hs by left).
  split; [by rewrite Hd1|]. unfold reassemble. rewrite Hd1, Hd. destruct (i64_max <? total); [done|]. f_equal. apply foldM_ext.
  intros out h Hh. unfold payload_of. by rewrite Hs by (by right).
Qed.

Lemma store_all_run {St L} `{HT : ContentStore St} (wf : St → Prop) `{!ContentStoreOk St wf} En l : ∀ (s : St) (t : L),
  wf s → fresh_for En s → (∀ e, e ∈ l → e ∈ En) →
  ∃ s', store_all l s t = Done (Ok tt) s' t ∧ wf s' ∧ grows En s s' ∧ holds l s'.
Proof.
  unfold store_all. induction l as [|e l IH]; intros s t Hw Hf Hl.
  { exists s. split_and!; [done|done|apply grows_refl|]. by intros e ?%elem_of_nil. }
  destruct (stores_run wf StoreRefused e s t En Hw Hf (Hl e ltac:(by left))) as (s1 & E1 & Hw1 & Hg1 & Hh1).
  destruct (IH s1 t Hw1) as (s2 & E2 & Hw2 & Hg2 & Hh2); [by eapply fresh_grows|intros x Hx; apply Hl; by right|].
  exists s2. split_and!; [|done|by eapply grows_trans|].
  - cbn [fold_run]. erewrite andthen_run by (erewrite andthen_run by exact E1; reflexivity). exact E2.
  - intros x [->|Hx]%elem_of_cons; [|by apply Hh2]. eapply grows_holds; [exact Hg2|exact Hh1|by left].
Qed.

(** A dispatcher that brings every request, in some context, to the handler of a peer with a store. *)
Definition asks_server `{Sha2} `{Ciborium} {Sv : Type} `{ContentStore Sv} {St L : Type} (home : Z) (peer : list Z) (budget : Z)
    (context : Entity → ResourceTarget → HandlerContext) (sv : Sv)
    : list Z → list Z → Entity → ResourceTarget → Code HandlerError St L HandlerResult :=
  λ _ _ params target s t,
    match handle_get home peer budget None (context params target) sv tt with
    | Done (Ok reply) _ _ => Done (Ok (answer_of home reply)) s t
    | Done (Err e) _ _ => Done (Err e) s t
    | Stuck => Stuck
    end.

Section served.
Context {St : Type} `{HT : ContentStore St} (wf : St → Prop) `{!ContentStoreOk St wf} {Sv : Type} `{HV : ContentStore Sv} (sv : Sv) {L : Type}.
Context `{HS : Sha2} `{!Sha2Ok} `{HC : Ciborium} `{!CiboriumDecodes} (home home' : Z) (peer : list Z) (budget : Z).
Context (context : Entity → ResourceTarget → HandlerContext) (ns path : list Z) (wanted : list Hash).
Hypothesis Hhome : digest_len_for_format home ≠ None.
Hypothesis Hhome' : digest_len_for_format home' ≠ None.
Hypothesis Hbudget : 0 ≤ budget < u64_max.
Hypothesis Hparams : ∀ p tg, hc_params (context p tg) = p.
Hypothesis Htarget : ∀ p tg, hc_resource_target (context p tg) = Some tg.
Hypothesis Hpath : require_single_resource_path (Some (mkTarget [ns] [])) peer = inr path.

(** The server has what is wanted, and sixteen of it fit in a frame. *)
Definition has_wanted : Prop := ∀ h, h ∈ wanted →
  ∃ e, store_get h sv = Some e ∧ content_hash e = h ∧ hash_ok h ∧ Z.of_nat GET_BATCH_SIZE * included_entry_cost e ≤ budget.
Hypothesis Hwanted : has_wanted.

Notation execute := (asks_server (St := St) (L := L) home' peer budget context sv).
Notation En := (entities_of sv wanted).

Lemma total_cost_bounded l : (∀ h, h ∈ l → h ∈ wanted) → Z.of_nat GET_BATCH_SIZE * total_cost (entities_of sv l) ≤ Z.of_nat (length l) * budget.
Proof.
  induction l as [|h l IH]; intros Hl; [cbn; lia|]. destruct (Hwanted h (Hl h ltac:(by left))) as (e & He & _ & _ & Hc).
  unfold entities_of. cbn [omap list_omap]. rewrite He. specialize (IH ltac:(intros x Hx; apply Hl; by right)). unfold entities_of in IH.
  unfold total_cost in *. cbn [map foldr length]. unfold GET_BATCH_SIZE in *. lia.
Qed.

(** A batch is answered in full. *)
Lemma batch_served batch : (length batch ≤ GET_BATCH_SIZE)%nat → (∀ h, h ∈ batch → h ∈ wanted) →
  ∀ h, get_included (foldl (serve budget sv) (mkGet [] [] ∅ 0 false) batch) !! h = if decide (h ∈ batch) then store_get h sv else None.
Proof.
  intros Hlen Hb h. destruct (serve_all budget sv Hbudget batch) as (n & Hn & Hf & _ & Hi & _ & Hstop). rewrite Hi.
  assert (Hall : ∀ l : list Hash, (∀ x, x ∈ l → x ∈ wanted) → filter (here sv) l = l).
  { induction l as [|x l IHl]; intros Hl; [done|]. rewrite filter_cons_True, IHl; [done|intros; apply Hl; by right|].
    destruct (Hwanted x (Hl x ltac:(by left))) as (e & He & _). by exists e. }
  assert (Htake : ∀ x, x ∈ take n batch → x ∈ wanted) by (intros x Hx; apply Hb; apply elem_of_take in Hx as (? & Hx & _); by eapply list_elem_of_lookup_2).
  rewrite Hall in Hf by done. destruct (decide (n < length batch)%nat) as [Hlt|Hge].
  - destruct (Hstop Hlt) as (x & e & Hx & He & _ & Hover). exfalso.
    assert (Hs : take (S n) batch = found (foldl (serve budget sv) (mkGet [] [] ∅ 0 false) batch) ++ [x]) by (rewrite Hf; by apply take_S_r).
    pose proof (total_cost_bounded (take (S n) batch)) as Hc. rewrite length_take, Hs in Hc.
    unfold entities_of in Hc, Hover. rewrite omap_app, total_cost_app in Hc. cbn [omap list_omap] in Hc. rewrite He in Hc.
    assert (Hsub : ∀ y, y ∈ found (foldl (serve budget sv) (mkGet [] [] ∅ 0 false) batch) ++ [x] → y ∈ wanted).
    { rewrite <- Hs. intros y Hy. apply Hb. apply elem_of_take in Hy as (? & Hy & _); by eapply list_elem_of_lookup_2. }
    specialize (Hc Hsub). unfold total_cost at 2 in Hc. cbn [map foldr] in Hc. unfold GET_BATCH_SIZE in *. nia.
  - rewrite Hf, take_ge by lia. done.
Qed.

Lemma fetch_run batch (s : St) (t : L) :
  (length batch ≤ GET_BATCH_SIZE)%nat → (∀ h, h ∈ batch → h ∈ wanted) → wf s → fresh_for En s →
  ∃ s', fetch_and_store home execute ns batch s t = Done (Ok tt) s' t ∧ wf s' ∧ grows En s s'
    ∧ ∀ h, h ∈ batch → store_get h s' = store_get h sv.
Proof.
  intros Hlen Hb Hw Hf. unfold fetch_and_store, build_get_request.
  destruct (entity_new_encoded home (lit "system/content/get-request") (get_request_value batch) Hhome) as (request & Hnew & _ & Hd & _); [done..|].
  rewrite Hnew. cbn [ok]. rewrite unwraps_Some. unfold renames.
  assert (Hreq : requested (context request (mkTarget [ns] [])) = Some batch).
  { unfold requested. rewrite Hparams. apply get_request_reads; [| |done].
    - apply Forall_forall. intros h Hh. by destruct (Hwanted h (Hb h Hh)) as (? & _ & _ & ? & _).
    - unfold len_ok. apply Z.leb_le. unfold GET_BATCH_SIZE, u64_max in *. lia. }
  unfold andthen at 1. unfold asks_server at 1.
  rewrite (handle_get_run home' peer budget _ path batch sv tt) by (done || by rewrite Htarget).
  pose proof (batch_served batch Hlen Hb) as Hinc. set (st := foldl (serve budget sv) (mkGet [] [] ∅ 0 false) batch) in *. clearbody st.
  unfold answer_with. destruct (content_entity_spec home' Hhome' (lit "system/content/content-response") (content_response_value (found st) (missing st))) as (Ha & _); [done..|].
  unfold encode_content_response. rewrite Ha. cbn [answer_of map_err status ok_with_included hr_included Z.eqb STATUS_OK Pos.eqb].
  assert (Hin : ∀ e, e ∈ map snd (map_to_list (get_included st)) ↔ ∃ h, h ∈ batch ∧ store_get h sv = Some e).
  { intros e. split.
    - intros ([h e'] & -> & Hm)%list_elem_of_fmap. apply elem_of_map_to_list in Hm. rewrite Hinc in Hm. case_decide; [|done]. by exists h.
    - intros (h & Hh & He). apply list_elem_of_fmap. exists (h, e). split; [done|]. apply elem_of_map_to_list. by rewrite Hinc, decide_True. }
  destruct (store_all_run wf En (map snd (map_to_list (get_included st))) s t Hw Hf) as (s' & Er & Hw' & Hg & Hh).
  { intros e (h & Hh & He)%Hin. apply list_elem_of_omap. exists h. by split; [apply Hb|]. }
  exists s'. split_and!; [exact Er|done|done|]. intros h Hhb. destruct (Hwanted h (Hb h Hhb)) as (e & He & Hch & _).
  rewrite He. rewrite <- Hch at 1. apply Hh, Hin. by exists h.
Qed.

Lemma fetch_windows_run ws : ∀ (s : St) (t : L),
  Forall (λ w, (length w ≤ GET_BATCH_SIZE)%nat) ws → (∀ h, h ∈ concat ws → h ∈ wanted) → wf s → fresh_for En s →
  ∃ s', fold_run (λ _ window, fetch_and_store home execute ns window) tt ws s t = Done (Ok tt) s' t ∧ wf s' ∧ grows En s s'
    ∧ ∀ h, h ∈ concat ws → store_get h s' = store_get h sv.
Proof.
  induction ws as [|w ws IH]; intros s t Hl Hc Hw Hf.
  { exists s. split_and!; [done|done|apply grows_refl|]. by intros h ?%elem_of_nil. }
  apply Forall_cons in Hl as [Hlw Hl]. cbn [concat] in Hc |- *.
  destruct (fetch_run w s t Hlw) as (s1 & E1 & Hw1 & Hg1 & Hs1); [intros; apply Hc, elem_of_app; by left|done|done|].
  destruct (IH s1 t Hl) as (s2 & E2 & Hw2 & Hg2 & Hs2); [intros; apply Hc, elem_of_app; by right|done|by eapply fresh_grows|].
  exists s2. split_and!; [cbn [fold_run]; erewrite andthen_run by exact E1; exact E2|done|by eapply grows_trans|].
  intros h [Hh|Hh]%elem_of_app; [|by apply Hs2]. destruct (Hwanted h (Hc h ltac:(apply elem_of_app; by left))) as (e & He & _).
  rewrite He. apply (proj1 Hg2). by rewrite Hs1.
Qed.
(** What the client has of it already is what the server has. *)
Lemma held_same h x (s : St) : fresh_for En s → h ∈ wanted → store_get h s = Some x → store_get h s = store_get h sv.
Proof.
  intros Hf Hh Hx. destruct (Hwanted h Hh) as (e & He & Hch & _). rewrite He, Hx. f_equal. apply (proj1 Hf e); [|by rewrite Hch].
  apply list_elem_of_omap. by exists h.
Qed.

Lemma fetch_blob_run blob (s : St) (t : L) : blob ∈ wanted → wf s → fresh_for En s →
  ∃ s1, fetch_blob home execute ns blob closure_fuel 0 s t = Done (Ok tt) s1 t ∧ wf s1 ∧ grows En s s1
    ∧ store_get blob s1 = store_get blob sv.
Proof.
  intros Hin Hw Hf. destruct (Hwanted blob Hin) as (eb & Heb & _). cbn [closure_fuel fetch_blob]. unfold andthen at 1, asks at 1.
  destruct (store_get blob s) as [x|] eqn:Ex.
  { exists s. rewrite <- (held_same blob x s Hf Hin Ex). by split_and!; [|done|apply grows_refl|]. }
  destruct (fetch_run [blob] s t) as (s1 & E1 & Hw1 & Hg1 & Hs1);
    [cbn; unfold GET_BATCH_SIZE; lia|by intros h ->%list_elem_of_singleton|done|done|].
  exists s1. specialize (Hs1 blob ltac:(by left)). split_and!; [|done|done|done].
  erewrite andthen_run by exact E1. unfold andthen, asks. by rewrite Hs1, Heb.
Qed.

Lemma fetch_chunks_run hashes (s : St) (t : L) : (∀ h, h ∈ hashes → h ∈ wanted) → wf s → fresh_for En s →
  ∃ s2, fetch_chunks home execute ns closure_fuel (missing_here hashes s) 0 s t = Done (Ok tt) s2 t ∧ wf s2 ∧ grows En s s2
    ∧ ∀ h, h ∈ hashes → store_get h s2 = store_get h sv.
Proof.
  intros Hin Hw Hf. cbn [closure_fuel fetch_chunks]. set (gone := missing_here hashes s).
  assert (Hgone : ∀ h, h ∈ gone → h ∈ hashes) by (by intros h [_ ?]%list_elem_of_filter).
  assert (Hrest : ∀ h s2, grows En s s2 → h ∈ hashes → h ∉ gone → store_get h s2 = store_get h sv).
  { intros h s2 Hg Hh Hn. destruct (store_get h s) as [x|] eqn:Ex; [|by destruct Hn; apply list_elem_of_filter].
    rewrite (proj1 Hg h x Ex), <- Ex. apply (held_same h x); auto. }
  case_bool_decide as Hm.
  { exists s. split_and!; [done|done|apply grows_refl|]. intros h Hh. apply Hrest; [apply grows_refl|done|rewrite Hm; apply not_elem_of_nil]. }
  destruct (fetch_windows_run (windows GET_BATCH_SIZE (length gone) gone) s t) as (s2 & E2 & Hw2 & Hg2 & Hs2);
    [apply windows_sizes|rewrite windows_concat by (unfold GET_BATCH_SIZE; lia); auto|done|done|].
  rewrite windows_concat in Hs2 by (unfold GET_BATCH_SIZE; lia). exists s2.
  split_and!; [|done|done|intros h Hh; destruct (decide (h ∈ gone)); auto].
  erewrite andthen_run by exact E2. unfold andthen, asks. rewrite bool_decide_eq_true_2; [done|].
  apply elem_of_nil_inv. intros h [Hno Hh]%list_elem_of_filter. rewrite (Hs2 h Hh) in Hno.
  destruct (Hwanted h (Hin h (Hgone h Hh))) as (e & He & _). by rewrite He in Hno.
Qed.
End served.

(** * Properties *)

(** The answer to a [get], no resolver there: the handler looks at a prefix of the requested
    hashes, finds those of them the store has, in the order of the request, with their entities
    alongside, and calls the rest missing; what it sends is within the budget but for a first
    entity that is not, and it stops only at an entity that would pass the budget, one found
    already.  Parameters that are none are refused; the store is not touched. *)
Theorem content_get_exact {St : Type} `{HT : ContentStore St} `{HS : Sha2} `{!Sha2Ok} `{HC : Ciborium} {L : Type}
    (home : Z) peer budget ctx namespace (s : St) (t : L) :
  digest_len_for_format home ≠ None → 0 ≤ budget < u64_max →
  require_single_resource_path (hc_resource_target ctx) peer = inr namespace →
  match requested ctx with
  | Some hashes => ∃ n st,
      handle_get home peer budget None ctx s t
      = Done (Ok (Answered (ok_with_included (content_entity home (lit "system/content/content-response")
                                                (content_response_value (found st) (missing st))) (get_included st)))) s t
      ∧ served budget s n hashes st
  | None => handle_get home peer budget None ctx s t = Done (Ok (Refused STATUS_BAD_REQUEST (lit "invalid_params"))) s t
  end.
Proof.
  intros Hhome Hb Hp. destruct (requested ctx) as [hashes|] eqn:Er; [|by apply (handle_get_refused home peer budget ctx namespace)].
  destruct (serve_all budget s Hb hashes) as (n & Hs). eexists n, _. split; [|exact Hs].
  rewrite (handle_get_run home peer budget ctx namespace hashes s t Hp Er). unfold answer_with, encode_content_response.
  destruct (content_entity_spec home Hhome (lit "system/content/content-response")
    (content_response_value (found (foldl (serve budget s) (mkGet [] [] ∅ 0 false) hashes)) (missing (foldl (serve budget s) (mkGet [] [] ∅ 0 false) hashes)))) as (-> & _); done.
Qed.

(** The budget counts less than the frame takes: the entities of an answer are at least
    thirty bytes longer, each, than their counted cost, so that with more than 64 KiB / 30 of
    them the headroom of the default budget is not enough. *)
Theorem included_cost_short inc :
  Forall (λ p, hash_ok p.1 ∧ hash_ok (content_hash p.2)) inc →
  total_cost (map snd inc) + 30 * Z.of_nat (length inc) ≤ Z.of_nat (length (encode_included inc)).
Proof.
  unfold encode_included, total_cost. induction 1 as [|[h e] inc [Hh He] Hinc IH]; [done|]. cbn [map foldr concat length fst snd] in *.
  rewrite !length_app. pose proof (length_encode_hash h Hh). pose proof (length_encode_entity e He).
  assert (included_entry_cost e ≤ 65 + Z.of_nat (length (entity_type e)) + Z.of_nat (length (data e))) by (unfold included_entry_cost, saturating_add; lia).
  lia.
Qed.


(** * Concrete runs *)

Section demo.
#[local] Existing Instances sum_sha2 sum_sha2_ok ref_ciborium ref_ciborium_decodes.

Definition serve_peer : list Z := lit "peer".
Definition serve_ns : list Z := lit "system/content/public".

Definition serve_context (params : Entity) (target : ResourceTarget) : HandlerContext :=
  mkHandlerContext None None (mkEntity [] [] hash_zero) params (lit "/peer/system/content") [] (Some target) None None (lit "r1") (lit "get") ∅
    None None None None true false.

(** A blob of six chunks and where it is. *)
Definition serve_source : ContentMap * Hash := Eval vm_compute in
  match create_blob_fastcdc 0 demo_bytes 8 ([] : ContentMap) tt with Done (Ok h) s _ => (s, h) | _ => ([], hash_zero) end.

Definition serve_wanted : list Hash := Eval vm_compute in
  match decode_blob serve_source.2 serve_source.1 with Ok (_, l) => l | Err _ => [] end.

Definition serve_request (hashes : list Hash) : Entity :=
  default (mkEntity [] [] hash_zero) (build_get_request 0 hashes).

(** Three chunks are asked for and one hash that is none; the budget ends after the second. *)
Definition get_ctx : HandlerContext := Eval vm_compute in
  serve_context (serve_request (take 2 serve_wanted ++ hash_zero :: take 1 (drop 2 serve_wanted))) (mkTarget [serve_ns] []).

Lemma content_get_exact_witness :
  ∃ st, handle_get 0 serve_peer 250 None get_ctx serve_source.1 tt
    = Done (Ok (Answered (ok_with_included (content_entity 0 (lit "system/content/content-response")
        (content_response_value (found st) (missing st))) (get_included st)))) serve_source.1 tt
    ∧ ∃ n, served 250 serve_source.1 n (default [] (requested get_ctx)) st.
Proof.
  assert (Hr : is_Some (requested get_ctx)) by (apply (bool_decide_eq_true_1 _); vm_compute; reflexivity).
  pose proof (content_get_exact (HT := memory_store) 0 serve_peer 250 get_ctx (lit "/peer/system/content/public") serve_source.1 tt) as H.
  destruct (requested get_ctx) as [hashes|]; [|by destruct Hr]. destruct H as (n & st & Hrun & Hs).
  - discriminate.
  - by split.
  - vm_compute. reflexivity.
  - exists st. split; [exact Hrun|]. exists n. exact Hs.
Defined.

Definition short_entries : list (Hash * Entity) := Eval vm_compute in take 3 serve_source.1.

Lemma included_cost_short_witness :
  length short_entries = 3%nat
  ∧ total_cost (map snd short_entries) + 30 * Z.of_nat (length short_entries) ≤ Z.of_nat (length (encode_included short_entries)).
Proof.
  split; [vm_compute; reflexivity|]. apply included_cost_short. apply (bool_decide_eq_true_1 _). vm_compute. reflexivity.
Defined.


(** Chunks of which one alone fits in a frame: every turn brings one, and after nine turns the
    client gives up although the server has all eleven. *)
Definition slow_source : ContentMap * Hash := Eval vm_compute in
  match create_blob_fixed 0 (lit "abcdefghijklmnopqrstuv") 2 ([] : ContentMap) tt with Done (Ok h) s _ => (s, h) | _ => ([], hash_zero) end.

Lemma slow_server_gives_up :
  (∃ l, decode_blob slow_source.2 slow_source.1 = Ok (22, l) ∧ length l = 11%nat ∧ forallb (λ h, bool_decide (is_Some (store_get h slow_source.1))) l = true)
  ∧ (match ensure_closure 0 (asks_server 0 serve_peer 100 serve_context slow_source.1) slow_source.2 serve_ns ([] : ContentMap) tt with
     | Done r s' _ => Some (r, length s') | Stuck => None end) = Some (Err (PendingSync 9), 10%nat).
Proof.
  split; [|vm_compute; reflexivity].
  exists (match decode_blob slow_source.2 slow_source.1 with Ok (_, l) => l | Err _ => [] end).
  split_and!; vm_compute; reflexivity.
Qed.
End demo.
