(* ===== verification/ContentIngest.v ===== *)
(** What an ingest promises: the entities of an envelope up to the first that is refused are
    stored and bound by their hashes under the namespace, and nothing else changes. *)
From S2P Require Import Prelude BTree Ecf Cbor ContentHash Paths Entity Walker Wire Capability CapabilityCodec Store Trie Index TrieSpec Handler.
From S2P Require Import Response RootTracker Content ContentSpec ContentHandler.

(** * Paths of hashes *)

Lemma hex_digit_inj a b : 0 ≤ a → 0 ≤ b → a < 16 → b < 16 → hex_digit a = hex_digit b → a = b.
Proof. unfold hex_digit. intros. repeat case_match; lia. Qed.

Lemma hex_str_inj l : ∀ l', bytes_ok l → bytes_ok l' → hex_str l = hex_str l' → l = l'.
Proof.
  induction l as [|a l IH]; intros [|b l'] Hl Hl'; [done|done|done|].
  apply Forall_cons in Hl as [Ha Hl], Hl' as [Hb Hl']. unfold byte_ok in *. intros Heq.
  change (hex_str (a :: l)) with (hex_digit (a / 16) :: hex_digit (a mod 16) :: hex_str l) in Heq.
  change (hex_str (b :: l')) with (hex_digit (b / 16) :: hex_digit (b mod 16) :: hex_str l') in Heq.
  injection Heq as Hhi Hlo Hrest. f_equal; [|by apply IH].
  pose proof (Z.div_mod a 16). pose proof (Z.div_mod b 16). pose proof (Z.mod_pos_bound a 16). pose proof (Z.mod_pos_bound b 16).
  apply hex_digit_inj in Hhi; [|lia..]. apply hex_digit_inj in Hlo; lia.
Qed.

Lemma to_hex_inj h h' : hash_ok h → hash_ok h' → to_hex h = to_hex h' → h = h'.
Proof.
  intros Hh Hh' He. apply hex_str_inj in He;
    [|by apply (bool_decide_eq_true_1 _); destruct (andb_prop _ _ (hash_bytes_ok h Hh))|by apply (bool_decide_eq_true_1 _); destruct (andb_prop _ _ (hash_bytes_ok h' Hh'))].
  pose proof (from_bytes_to_bytes h Hh) as H1. rewrite He, from_bytes_to_bytes in H1 by done. by injection H1.
Qed.

Lemma binding_path_inj ns h h' : hash_ok h → hash_ok h' → binding_path ns h = binding_path ns h' → h = h'.
Proof. intros Hh Hh' He. apply app_inv_head, app_inv_head in He. by apply to_hex_inj. Qed.

(** * Taking in *)

Section ingest.
Context {St : Type} `{HT : ContentStore St} (wf : St → Prop) `{!ContentStoreOk St wf}.
Context {L : Type} `{HL : LocationIndex L} (wfl : L → Prop) `{!LocationIndexOk L wfl}.
Context `{HS : Sha2} `{!Sha2Ok} `{HC : Ciborium} (home : Z) (ns : list Z).
Hypothesis Hhome : digest_len_for_format home ≠ None.

(** The entity of an entry, or why it is refused. *)
Definition admitted (kv : Value * Value) : string + Entity :=
  match decode_hash_record kv.1, decode_core_entity home kv.2 with
  | Some h, Some e => if bool_decide (content_hash e = h) then inr e else inl "hash_mismatch"
  | _, _ => inl "invalid_envelope"
  end.

(** The entities before the first entry that is refused, and why that is. *)
Fixpoint admitted_prefix (m : list (Value * Value)) : list Entity * option string :=
  match m with
  | [] => ([], None)
  | kv :: m =>
      match admitted kv with
      | inl code => ([], Some code)
      | inr e => let '(es, stop) := admitted_prefix m in (e :: es, stop)
      end
  end.

(** The index binds some entities under the namespace, and is otherwise as it was. *)
Definition binds (es : list Entity) (t t' : L) : Prop :=
  wfl t' ∧ (∀ e, e ∈ es → li_get (binding_path ns (content_hash e)) t' = Some (content_hash e))
  ∧ ∀ q, (∀ e, e ∈ es → q ≠ binding_path ns (content_hash e)) → li_get q t' = li_get q t.

(** An entity that can be taken in. *)
Definition ingestible (En : list Entity) (e : Entity) : Prop :=
  e ∈ En ∧ hash_ok (content_hash e) ∧ path_is_storable (binding_path ns (content_hash e)) = true.

Lemma binds_nil t : wfl t → binds [] t t.
Proof. intros Ht. split_and!; [done|by intros e ?%elem_of_nil|done]. Qed.

Lemma binds_one En e t : ingestible En e → wfl t → binds [e] t (li_set (binding_path ns (content_hash e)) (content_hash e) t).
Proof.
  intros (_ & _ & Hs) Ht. destruct (li_set_get _ (content_hash e) t Ht Hs) as [Hw Hget]. split_and!; [done| |].
  - intros x ->%list_elem_of_singleton. by rewrite Hget, decide_True.
  - intros q Hq. rewrite Hget, decide_False; [done|]. apply Hq. by left.
Qed.

Lemma binds_trans En es es' t t1 t2 : Forall (ingestible En) (es ++ es') → binds es t t1 → binds es' t1 t2 → binds (es ++ es') t t2.
Proof.
  intros Hin (Hw1 & Hb1 & Hr1) (Hw2 & Hb2 & Hr2). rewrite Forall_forall in Hin. split_and!; [done| |].
  - intros e He. destruct (decide (e ∈ es')) as [He'|He']; [by apply Hb2|].
    assert (Hes : e ∈ es) by (apply elem_of_app in He as [?|?]; [done|by destruct He']).
    destruct (decide (Exists (λ e', content_hash e' = content_hash e) es')) as [Hx|Hx].
    + apply Exists_exists in Hx as (e' & He2 & Heq). rewrite <- Heq. by apply Hb2.
    + rewrite Hr2; [by apply Hb1|]. intros e' He2 Heq. apply Hx, Exists_exists. exists e'. split; [done|]. symmetry.
      apply (binding_path_inj ns); [apply Hin, elem_of_app; by left|apply Hin, elem_of_app; by right|done].
  - intros q Hq. rewrite Hr2, Hr1; [done|..]; intros e He; apply Hq, elem_of_app; auto.
Qed.

(** One entity is stored; then it is bound. *)
Lemma put_or_refuse_run En e s t : wf s → fresh_for En s → ingestible En e →
  ∃ s', put_or_refuse (L := L) e s t = Done (Ok (inr (content_hash e))) s' t ∧ wf s' ∧ grows En s s' ∧ holds [e] s'.
Proof.
  intros Hw Hf (Hin & _). destruct (stores_run wf tt e s t En Hw Hf Hin) as (s' & Er & Hw' & Hg & Hh).
  exists s'. split; [|done]. revert Er. unfold stores, put_or_refuse. destruct (store_put e s) as [[h|x] s1]; cbn; [by intros [= -> ->]|done].
Qed.

Lemma decoded_hash_ok v e : decode_core_entity home v = Some e → hash_ok (content_hash e).
Proof.
  unfold decode_core_entity. destruct (as_map v) as [m|]; [|done]. cbn [mbind option_bind]. destruct (foldl core_entity_step (None, None) m) as [[ty|] d]; [|done].
  cbn [mbind option_bind]. unfold entity_new. destruct (new_with_format ty _ home) as [e'|] eqn:E; [|done]. intros [= ->].
  apply new_with_format_Ok in E as (_ & Hc & _). by apply compute_format_ok in Hc as [? _].
Qed.

Lemma ingest_stop r m (s : St) (t : L) : fold_run (ingest_one home true ns) (inl r) m s t = Done (Ok (inl r)) s t.
Proof. induction m as [|kv m IH]; [done|]. cbn [fold_run]. by erewrite andthen_run by reflexivity. Qed.

Lemma ingest_entries_run En m : ∀ count s t, wf s → wfl t → fresh_for En s → Forall (ingestible En) (admitted_prefix m).1 →
  ∃ s' t', fold_run (ingest_one home true ns) (inr count) m s t
    = Done (Ok (match (admitted_prefix m).2 with
                | None => inr (count + Z.of_nat (length (admitted_prefix m).1))
                | Some code => inl (bad_request code)
                end)) s' t'
    ∧ wf s' ∧ grows En s s' ∧ holds (admitted_prefix m).1 s' ∧ binds (admitted_prefix m).1 t t'.
Proof.
  induction m as [|kv m IH]; intros count s t Hw Ht Hf Hall.
  { exists s, t. cbn. rewrite Z.add_0_r. split_and!; [done|done|apply grows_refl|by intros e ?%elem_of_nil|by apply binds_nil]. }
  cbn [admitted_prefix] in *. assert (Hstop : ∀ code, admitted kv = inl code →
    ingest_one home true ns (inr count) kv s t = Done (Ok (inl (bad_request code))) s t).
  { intros code. unfold admitted, ingest_one. destruct (decode_hash_record kv.1), (decode_core_entity home kv.2); [|by intros [= <-]..].
    case_bool_decide; [done|]. by intros [= <-]. }
  destruct (admitted kv) as [code|e] eqn:Ea.
  { exists s, t. cbn [fst snd fold_run]. erewrite andthen_run by (by apply Hstop). rewrite ingest_stop.
    split_and!; [done|done|apply grows_refl|by intros e ?%elem_of_nil|by apply binds_nil]. }
  destruct (admitted_prefix m) as [es stop] eqn:Ep. cbn [fst snd] in *. apply Forall_cons in Hall as [He Hall].
  destruct (put_or_refuse_run En e s t Hw Hf He) as (s1 & Eput & Hw1 & Hg1 & Hh1).
  pose proof (binds_one En e t He Ht) as Hb1.
  destruct (IH (count + 1) s1 _ Hw1 (proj1 Hb1)) as (s2 & t2 & Er & Hw2 & Hg2 & Hh2 & Hb2); [by eapply fresh_grows|done|].
  exists s2, t2. split_and!; [|done|by eapply grows_trans| |].
  - cbn [fold_run]. erewrite andthen_run; [rewrite Er; do 2 f_equal; destruct stop; [done|cbn [length]; f_equal; lia]|].
    revert Ea. unfold admitted, ingest_one. destruct (decode_hash_record kv.1) as [h|]; [|done]. destruct (decode_core_entity home kv.2) as [e'|]; [|done].
    case_bool_decide as Hh; [|done]. intros [= ->]. cbn [negb]. erewrite andthen_run by exact Eput. rewrite <- Hh.
    by erewrite andthen_run by reflexivity.
  - intros x [->|Hx]%elem_of_cons; [|by apply Hh2]. eapply grows_holds; [exact Hg2|exact Hh1|by left].
  - eapply (binds_trans En [e] es); [by apply Forall_cons|exact Hb1|done].
Qed.

(** The root of an envelope, if it has one, if it is an entity. *)
Definition root_of (envelope : Value) : option (option Entity) := decode_core_entity home <$> present (value_get envelope (lit "root")).

Definition included_of (envelope : Value) : list (Value * Value) := default [] (x ← value_get envelope (lit "included"); as_map x).

(** What an envelope brings in: its root and its entries before the first that is refused. *)
Definition brought (envelope : Value) : list Entity := option_list (mjoin (root_of envelope)) ++ (admitted_prefix (included_of envelope)).1.

Definition ingest_reply (envelope : Value) : Reply :=
  match (admitted_prefix (included_of envelope)).2 with
  | Some code => bad_request code
  | None =>
      let root := mjoin (root_of envelope) in
      Answered (handler_ok (content_entity home (lit "system/content/ingest-result")
        (ingest_result_value root (default hash_zero (content_hash <$> root)) (Z.of_nat (length (brought envelope))))))
  end.

Lemma ingest_root_run En root (s : St) (t : L) : wf s → wfl t → fresh_for En s → Forall (ingestible En) (option_list root) →
  ∃ s' t', ingest_root true root ns s t = Done (Ok (inr (default hash_zero (content_hash <$> root), Z.of_nat (length (option_list root))))) s' t'
    ∧ wf s' ∧ grows En s s' ∧ holds (option_list root) s' ∧ binds (option_list root) t t'.
Proof.
  intros Hw Ht Hf Hall. destruct root as [e|]; cbn [option_list ingest_root] in *; cycle 1.
  { exists s, t. split_and!; [done|done|apply grows_refl|by intros e ?%elem_of_nil|by apply binds_nil]. }
  apply Forall_cons in Hall as [He _]. destruct (put_or_refuse_run En e s t Hw Hf He) as (s1 & Eput & Hw1 & Hg1 & Hh1).
  exists s1, (li_set (binding_path ns (content_hash e)) (content_hash e) t). split_and!; [|done|done|done|by eapply binds_one].
  erewrite andthen_run by exact Eput. cbv beta iota. by erewrite andthen_run by reflexivity.
Qed.

Lemma ingest_envelope_run envelope (s : St) (t : L) : root_of envelope ≠ Some None →
  wf s → wfl t → fresh_for (brought envelope) s → Forall (ingestible (brought envelope)) (brought envelope) →
  ∃ s' t', ingest_envelope home true envelope ns s t = Done (Ok (ingest_reply envelope)) s' t'
    ∧ wf s' ∧ grows (brought envelope) s s' ∧ holds (brought envelope) s' ∧ binds (brought envelope) t t'.
Proof.
  intros Hroot Hw Ht Hf Hall. pose proof Hall as [Hr Ha]%Forall_app.
  destruct (ingest_root_run (brought envelope) (mjoin (root_of envelope)) s t Hw Ht Hf Hr) as (s1 & t1 & E1 & Hw1 & Hg1 & Hh1 & Hb1).
  destruct (ingest_entries_run (brought envelope) (included_of envelope) (Z.of_nat (length (option_list (mjoin (root_of envelope))))) s1 t1 Hw1 (proj1 Hb1))
    as (s2 & t2 & E2 & Hw2 & Hg2 & Hh2 & Hb2); [by eapply fresh_grows|done|].
  exists s2, t2. split_and!; [|done|by eapply grows_trans| |by eapply binds_trans].
  - unfold ingest_envelope. fold (root_of envelope).
    assert (Hmatch : ∀ (X : Type) (a b : X), match root_of envelope with Some None => a | _ => b end = b) by (intros; by destruct (root_of envelope) as [[?|]|]).
    rewrite Hmatch. erewrite andthen_run by exact E1. cbv beta iota. fold (included_of envelope). erewrite andthen_run by exact E2.
    unfold ingest_reply. destruct (admitted_prefix (included_of envelope)).2; [done|]. unfold answer_with, encode_ingest_result.
    rewrite <- Nat2Z.inj_add, <- length_app. fold (brought envelope).
    by destruct (content_entity_spec home Hhome (lit "system/content/ingest-result") (ingest_result_value (mjoin (root_of envelope))
      (default hash_zero (content_hash <$> mjoin (root_of envelope))) (Z.of_nat (length (brought envelope))))) as (-> & _).
  - intros e [He|He]%elem_of_app; [by apply (grows_holds _ _ _ _ Hg2 Hh1)|by apply Hh2].
Qed.

Lemma ingest_entity_run v e (s : St) (t : L) : decode_core_entity home v = Some e →
  wf s → wfl t → fresh_for [e] s → ingestible [e] e →
  ∃ s' t', ingest_entity home true v ns s t
      = Done (Ok (Answered (handler_ok (content_entity home (lit "system/content/ingest-result") (ingest_result_value None (content_hash e) 1))))) s' t'
    ∧ wf s' ∧ grows [e] s s' ∧ holds [e] s' ∧ binds [e] t t'.
Proof.
  intros Hd Hw Ht Hf He. destruct (put_or_refuse_run [e] e s t Hw Hf He) as (s1 & Eput & Hw1 & Hg1 & Hh1).
  exists s1, (li_set (binding_path ns (content_hash e)) (content_hash e) t). split_and!; [|done|done|done|by eapply binds_one].
  unfold ingest_entity. rewrite Hd. erewrite andthen_run by exact Eput. cbv beta iota. erewrite andthen_run by reflexivity.
  unfold answer_with, encode_ingest_result.
  by destruct (content_entity_spec home Hhome (lit "system/content/ingest-result") (ingest_result_value None (content_hash e) 1)) as (-> & _).
Qed.
End ingest.

(** * Properties *)

(** C36. What an ingest of an envelope takes in: its root and the entries up to the first that is
    refused, one that is no entity or not the entity of its key; each of them is in the store and
    bound by its hash under the namespace, nothing else is, and the reply counts them or says why
    the ingest stopped.  A root that is no entity, an envelope together with an entity, or neither,
    changes nothing. *)
Theorem ingest_exact {St : Type} `{HT : ContentStore St} (wf : St → Prop) `{!ContentStoreOk St wf}
    {L : Type} `{HL : LocationIndex L} (wfl : L → Prop) `{!LocationIndexOk L wfl} `{HS : Sha2} `{!Sha2Ok} `{HC : Ciborium}
    (home : Z) peer ctx ns params (s : St) (t : L) :
  digest_len_for_format home ≠ None → require_single_resource_path (hc_resource_target ctx) peer = inr ns →
  from_reader (data (hc_params ctx)) = Some params →
  match present (value_get params (lit "envelope")), present (value_get params (lit "entity")) with
  | Some envelope, None =>
      if bool_decide (root_of home envelope = Some None)
      then handle_ingest home peer true ctx s t = Done (Ok (Refused STATUS_BAD_REQUEST (lit "invalid_envelope"))) s t
      else
        wf s → wfl t → fresh_for (brought home envelope) s → Forall (ingestible ns (brought home envelope)) (brought home envelope) →
        ∃ s' t', handle_ingest home peer true ctx s t = Done (Ok (ingest_reply home envelope)) s' t'
          ∧ wf s' ∧ grows (brought home envelope) s s' ∧ holds (brought home envelope) s' ∧ binds wfl ns (brought home envelope) t t'
  | None, Some v =>
      match decode_core_entity home v with
      | None => handle_ingest home peer true ctx s t = Done (Ok (Refused STATUS_BAD_REQUEST (lit "invalid_request"))) s t
      | Some e =>
          wf s → wfl t → fresh_for [e] s → ingestible ns [e] e →
          ∃ s' t', handle_ingest home peer true ctx s t
              = Done (Ok (Answered (handler_ok (content_entity home (lit "system/content/ingest-result") (ingest_result_value None (content_hash e) 1))))) s' t'
            ∧ wf s' ∧ grows [e] s s' ∧ holds [e] s' ∧ binds wfl ns [e] t t'
      end
  | _, _ => ∃ code, handle_ingest home peer true ctx s t = Done (Ok (Refused STATUS_BAD_REQUEST code)) s t
  end.
Proof.
  intros Hhome Hns Hp. unfold handle_ingest. rewrite Hns, Hp.
  destruct (present (value_get params (lit "envelope"))) as [envelope|], (present (value_get params (lit "entity"))) as [v|]; [by eexists| | |by eexists]; cycle 1.
  { destruct (decode_core_entity home v) as [e|] eqn:Ed; [intros; by apply ingest_entity_run|]. unfold ingest_entity. by rewrite Ed. }
  case_bool_decide as Hr; [|intros Hw Ht Hf Ha; by apply ingest_envelope_run].
  unfold ingest_envelope. fold (root_of home envelope). by rewrite Hr.
Qed.

(** * A concrete run *)

Section demo.
#[local] Existing Instances sum_sha2 sum_sha2_ok ref_ciborium ref_ciborium_decodes.

Definition ingest_note (n : Z) : Entity := content_entity 0 (lit "app/note") (VMap [(text (lit "n"), VInteger n)]).

Definition core_value (n : Z) : Value :=
  VMap [(text (lit "type"), text (lit "app/note")); (text (lit "data"), VMap [(text (lit "n"), VInteger n)])].

(** A root, an entry, and one that is not the entity of its key. *)
Definition ingest_params_value : Value :=
  VMap [(text (lit "envelope"),
         VMap [(text (lit "root"), core_value 1);
               (text (lit "included"),
                VMap [(VBytes (to_bytes (content_hash (ingest_note 2))), core_value 2);
                      (VBytes (to_bytes (content_hash (ingest_note 3))), core_value 4)])])].

Definition ingest_ctx : HandlerContext := Eval vm_compute in
  mkHandlerContext None None (mkEntity [] [] hash_zero) (mkEntity (lit "params") (to_ecf ingest_params_value) hash_zero)
    (lit "/peer/system/content") [] (Some (mkTarget [lit "system/content/public"] [])) None None (lit "r1") (lit "ingest") ∅
    None None None None true false.

Definition ingest_ns : list Z := lit "/peer/system/content/public".

Definition ingest_params : Value := Eval vm_compute in default VNull (from_reader (data (hc_params ingest_ctx))).
Definition ingest_env : Value := Eval vm_compute in default VNull (value_get ingest_params (lit "envelope")).

Lemma ingest_exact_witness :
  ∃ (s' : ContentMap) (t' : PathMap),
    handle_ingest 0 (lit "peer") true ingest_ctx [] [] = Done (Ok (Refused STATUS_BAD_REQUEST (lit "hash_mismatch"))) s' t'
    ∧ holds [ingest_note 1; ingest_note 2] s' ∧ binds bt_ok ingest_ns [ingest_note 1; ingest_note 2] [] t'.
Proof.
  pose proof (ingest_exact (HT := memory_store) (HL := memory_index) bt_ok bt_ok 0 (lit "peer") ingest_ctx ingest_ns ingest_params [] []) as H.
  assert (He : present (value_get ingest_params (lit "envelope")) = Some ingest_env) by (vm_compute; reflexivity).
  assert (Hn : present (value_get ingest_params (lit "entity")) = None) by (vm_compute; reflexivity).
  rewrite He, Hn in H. rewrite bool_decide_eq_false_2 in H by (apply (bool_decide_eq_false_1 _); vm_compute; reflexivity).
  assert (Hb : brought 0 ingest_env = [ingest_note 1; ingest_note 2]) by (vm_compute; reflexivity).
  assert (Hr : ingest_reply 0 ingest_env = Refused STATUS_BAD_REQUEST (lit "hash_mismatch")) by (vm_compute; reflexivity).
  rewrite Hb, Hr in H. destruct H as (s' & t' & Erun & _ & _ & Hh & Hbi).
  - discriminate.
  - vm_compute. reflexivity.
  - vm_compute. reflexivity.
  - apply (bool_decide_eq_true_1 _). vm_compute. reflexivity.
  - apply (bool_decide_eq_true_1 _). vm_compute. reflexivity.
  - apply no_clash_fresh. vm_compute. reflexivity.
  - repeat (apply Forall_cons_2; [split; [apply (bool_decide_eq_true_1 _); vm_compute; reflexivity|
      split; [apply (bool_decide_eq_true_1 _); vm_compute; reflexivity|vm_compute; reflexivity]]|]). apply Forall_nil_2.
  - exists s', t'. split; [exact Erun|]. split; [exact Hh|exact Hbi].
Defined.
End demo.
