(* ===== verification/TypeConstraint.v ===== *)
(** The standard constraints ([extensions/type-system/src]: [constraint.rs], [format.rs],
    [type_pattern.rs]): each kind's verdict on a value, and the handler that gives it.

    [None] is a panic.  A regular expression is what the [regex] crate makes of its text, and a
    64-bit float in a message is what the formatter makes of it. *)
From stdpp Require Import pretty.
From S2P Require Import Prelude BTree Ecf Cbor ContentHash Entity Identity Capability CapabilityCodec Store Trie Index Handler.

Definition TYPE_CONSTRAINT_MIN : list Z := lit "system/type/constraint/min".
Definition TYPE_CONSTRAINT_MAX : list Z := lit "system/type/constraint/max".
Definition TYPE_CONSTRAINT_MIN_LENGTH : list Z := lit "system/type/constraint/min-length".
Definition TYPE_CONSTRAINT_MAX_LENGTH : list Z := lit "system/type/constraint/max-length".
Definition TYPE_CONSTRAINT_MIN_COUNT : list Z := lit "system/type/constraint/min-count".
Definition TYPE_CONSTRAINT_MAX_COUNT : list Z := lit "system/type/constraint/max-count".
Definition TYPE_CONSTRAINT_PATTERN : list Z := lit "system/type/constraint/pattern".
Definition TYPE_CONSTRAINT_ONE_OF : list Z := lit "system/type/constraint/one-of".
Definition TYPE_CONSTRAINT_NOT_ONE_OF : list Z := lit "system/type/constraint/not-one-of".
Definition TYPE_CONSTRAINT_FORMAT : list Z := lit "system/type/constraint/format".
Definition TYPE_CONSTRAINT_TYPE_PATTERN : list Z := lit "system/type/constraint/type-pattern".
Definition TYPE_CONSTRAINT_VALIDATE_REQ : list Z := lit "system/type/constraint/validate-request".
Definition TYPE_CONSTRAINT_VALIDATE_RES : list Z := lit "system/type/constraint/validate-result".
Definition STATUS_INTERNAL_ERROR : Z := 500.

(** [regex::Regex]: what a text compiles to, if it does, as the test [is_match] *)
Class Regex := regex_new : list Z → option (list Z → bool).

(** [Display] of [f64] *)
Class DisplayF64 := display_f64 : Z → list Z.

(** [Display] of [u64] *)
Definition display_u64 (n : Z) : list Z := lit (pretty (Z.to_N n)).

(** * Numbers *)

(** [n as f64] of an [i128]: to the nearest, ties to even *)
Definition int_to_f64 (n : Z) : Z :=
  if n =? 0 then 0
  else
    let sign := if n <? 0 then 1 else 0 in
    let m := Z.abs n in
    let k := Z.log2 m in
    if k <=? 52 then f64_make sign (k + 1023) (Z.shiftl (m - Z.shiftl 1 k) (52 - k))
    else
      let shift := k - 52 in
      let q := Z.shiftr m shift in
      let r := m - Z.shiftl q shift in
      let half := Z.shiftl 1 (shift - 1) in
      let q := if (half <? r) || ((r =? half) && Z.odd q) then q + 1 else q in
      if q =? 2 ^ 53 then f64_make sign (k + 1 + 1023) 0 else f64_make sign (k + 1023) (q - 2 ^ 52).

(** The order of the numbers among the bit patterns: the magnitude, with its sign. *)
Definition f64_order (f : Z) : Z := let m := Z.land f (2 ^ 63 - 1) in if f64_sign f =? 1 then - m else m.

(** [a <= b] on [f64] *)
Definition f64_leb (a b : Z) : bool := negb (is_nan a) && negb (is_nan b) && (f64_order a <=? f64_order b).

Definition value_as_f64 (v : option Value) : option Z :=
  match v with
  | Some (VFloat f) => Some f
  | Some (VInteger i) => Some (int_to_f64 i)
  | _ => None
  end.

Definition value_as_u64 (v : option Value) : option Z := match v with Some (VInteger i) => try_u64 i | _ => None end.

(** [s.chars().count()]: the bytes of the text that start a character *)
Definition is_continuation (b : Z) : bool := Z.land b 0xC0 =? 0x80.
Definition count_chars (s : list Z) : Z := Z.of_nat (length (filter (λ b, is_continuation b = false) s)).

Definition measure_length (value : Value) : option Z :=
  match value with
  | VText s => Some (count_chars s)
  | VBytes b => Some (Z.of_nat (length b))
  | _ => None
  end.

Definition collection_size (value : Value) : option Z :=
  match value with
  | VArray a => Some (Z.of_nat (length a))
  | VMap m => Some (Z.of_nat (length m))
  | _ => None
  end.

(** * Formats ([format.rs]) *)

Definition is_ascii_digit (b : Z) : bool := (48 <=? b) && (b <=? 57).
Definition is_ascii_alphabetic (b : Z) : bool := ((65 <=? b) && (b <=? 90)) || ((97 <=? b) && (b <=? 122)).
Definition is_ascii_alphanumeric (b : Z) : bool := is_ascii_digit b || is_ascii_alphabetic b.
Definition is_ascii_hexdigit (b : Z) : bool := is_ascii_digit b || ((65 <=? b) && (b <=? 70)) || ((97 <=? b) && (b <=? 102)).

(** The scheme up to the colon, and something after it. *)
Fixpoint uri_rest (s : list Z) : bool :=
  match s with
  | [] => false
  | c :: s =>
      if c =? 58 then negb (bool_decide (s = []))
      else if negb (is_ascii_alphanumeric c || (c =? 43) || (c =? 45) || (c =? 46)) then false
      else uri_rest s
  end.

Definition is_uri (s : list Z) : bool :=
  match s with [] => false | b0 :: s => if negb (is_ascii_alphabetic b0) then false else uri_rest s end.

Definition parse_uint_step (v : option Z) (ch : Z) : option Z :=
  v ← v;
  if negb (is_ascii_digit ch) then None
  else
    let v := 10 * v in
    if u64_max <? v then None else let v := v + (ch - 48) in if u64_max <? v then None else Some v.

Definition parse_uint (b : list Z) : option Z :=
  if bool_decide (b = []) then None else foldl parse_uint_step (Some 0) b.

(** [b[i]], which is there where it is read *)
Definition byte_at (b : list Z) (i : nat) : Z := nth i b 0.
Definition bytes_from (b : list Z) (i j : nat) : list Z := take (j - i) (drop i b).

Definition days_in_month (month year : Z) : option Z :=
  if bool_decide (month ∈ [1; 3; 5; 7; 8; 10; 12]) then Some 31
  else if bool_decide (month ∈ [4; 6; 9; 11]) then Some 30
  else if month =? 2 then
    let leap := ((year mod 4 =? 0) && negb (year mod 100 =? 0)) || (year mod 400 =? 0) in
    Some (if leap then 29 else 28)
  else None.

Definition valid_date (month day year : Z) : bool :=
  if negb ((1 <=? month) && (month <=? 12)) || (day =? 0) then false
  else match days_in_month month year with Some dim => day <=? dim | None => false end.

Definition is_rfc3339_date (s : list Z) : bool :=
  if negb (Z.of_nat (length s) =? 10) then false
  else if negb (byte_at s 4 =? 45) || negb (byte_at s 7 =? 45) then false
  else
    match parse_uint (bytes_from s 0 4), parse_uint (bytes_from s 5 7), parse_uint (bytes_from s 8 10) with
    | Some year, Some month, Some day => valid_date month day year
    | _, _, _ => false
    end.

Fixpoint skip_digits (s : list Z) : list Z :=
  match s with [] => [] | c :: rest => if is_ascii_digit c then skip_digits rest else s end.

(** The fraction after a dot, which has a digit; [None] when it has none. *)
Definition skip_fraction (s : list Z) : option (list Z) :=
  match s with
  | c :: rest =>
      if c =? 46 then
        let after := skip_digits rest in
        if bool_decide (length after = length rest) then None else Some after
      else Some s
  | [] => Some []
  end.

(** [Z] or an offset, and nothing after it *)
Definition is_offset (s : list Z) : bool :=
  match s with
  | [] => false
  | c :: rest =>
      if (c =? 90) || (c =? 122) then bool_decide (rest = [])
      else if negb (c =? 43) && negb (c =? 45) then false
      else if negb (Z.of_nat (length s) =? 6) || negb (byte_at s 3 =? 58) then false
      else
        match parse_uint (bytes_from s 1 3), parse_uint (bytes_from s 4 6) with
        | Some oh, Some om => (oh <=? 23) && (om <=? 59)
        | _, _ => false
        end
  end.

(** [&s[..10]] panics inside a character. *)
Definition is_rfc3339_datetime (s : list Z) : option bool :=
  if Z.of_nat (length s) <? 20 then Some false
  else if is_continuation (byte_at s 10) then None
  else Some (
    if negb (is_rfc3339_date (take 10 s)) then false
    else if negb (byte_at s 10 =? 84) && negb (byte_at s 10 =? 116) then false
    else if negb (byte_at s 13 =? 58) || negb (byte_at s 16 =? 58) then false
    else
      match parse_uint (bytes_from s 11 13), parse_uint (bytes_from s 14 16), parse_uint (bytes_from s 17 19) with
      | Some hour, Some minute, Some second =>
          if (23 <? hour) || (59 <? minute) || (60 <? second) then false
          else match skip_fraction (drop 19 s) with Some s => is_offset s | None => false end
      | _, _, _ => false
      end).

Definition is_uuid (s : list Z) : bool :=
  if negb (Z.of_nat (length s) =? 36) then false
  else forallb (λ p : nat * Z,
    if bool_decide (p.1 ∈ [8; 13; 18; 23]%nat) then p.2 =? 45 else is_ascii_hexdigit p.2) (imap (λ i b, (i, b)) s).

Section formats.
Context `{Regex} `{Base58}.

Definition is_base58 (s : list Z) : bool := negb (bool_decide (s = [])) && bool_decide (is_Some (b58_decode s)).

Definition validate_format (value format : list Z) : option (result (list Z) bool) :=
  if bool_decide (format = lit "uri") then Some (Ok (is_uri value))
  else if bool_decide (format = lit "date-time") then b ← is_rfc3339_datetime value; Some (Ok b)
  else if bool_decide (format = lit "date") then Some (Ok (is_rfc3339_date value))
  else if bool_decide (format = lit "uuid") then Some (Ok (is_uuid value))
  else if bool_decide (format = lit "base58") then Some (Ok (is_base58 value))
  else if bool_decide (format = lit "re2") then Some (Ok (bool_decide (is_Some (regex_new value))))
  else Some (Err format).
End formats.

(** * Type patterns ([type_pattern.rs]) *)

Definition type_pattern_matches (pattern type_name : list Z) : bool := matches_pattern type_name pattern.

(** * Verdicts ([constraint.rs]) *)

Record ConstraintRequest := mkConstraintRequest { cr_value : Value; constraint_type : list Z; constraint_data : Value }.

Record ConstraintResult := mkConstraintResult { valid : bool; reason : option (list Z) }.

Definition valid_result : ConstraintResult := mkConstraintResult true None.
Definition invalid (reason : list Z) : ConstraintResult := mkConstraintResult false (Some reason).
Definition invalid_text (reason : string) : ConstraintResult := invalid (lit reason).

(** The last of each key, the value and the data null where they are not there. *)
Definition request_step (st : option Value * option (list Z) * option Value) (kv : Value * Value)
    : option Value * option (list Z) * option Value :=
  let '(value, ty, d) := st in
  if key_is "value" kv.1 then (Some kv.2, ty, d)
  else if key_is "constraint_type" kv.1 then (value, as_str kv.2, d)
  else if key_is "constraint_data" kv.1 then (value, ty, Some kv.2)
  else st.

Definition constraint_request `{Ciborium} (entity : Entity) : option ConstraintRequest :=
  value ← from_reader (data entity);
  entries ← as_map value;
  let '(value, ty, d) := foldl request_step (None, None, None) entries in
  ty ← ty;
  Some (mkConstraintRequest (default VNull value) ty (default VNull d)).

Definition constraint_result_value (r : ConstraintResult) : Value :=
  VMap ([(text (lit "valid"), bool_val (valid r))]
        ++ match reason r with Some s => [(text (lit "reason"), text s)] | None => [] end).

Section evaluate.
Context `{Regex} `{Base58} `{DisplayF64}.

Definition eval_min (value d : Value) : ConstraintResult :=
  match value_as_f64 (value_get d (lit "min")) with
  | None => invalid_text "min: missing or non-numeric min"
  | Some min =>
      match value_as_f64 (Some value) with
      | None => invalid_text "min: not numeric"
      | Some v =>
          if is_nan v || is_nan min then invalid (lit "must be >= " ++ display_f64 min)
          else if f64_leb min v then valid_result
          else invalid (lit "must be >= " ++ display_f64 min)
      end
  end.

Definition eval_max (value d : Value) : ConstraintResult :=
  match value_as_f64 (value_get d (lit "max")) with
  | None => invalid_text "max: missing or non-numeric max"
  | Some max =>
      match value_as_f64 (Some value) with
      | None => invalid_text "max: not numeric"
      | Some v =>
          if is_nan v || is_nan max then invalid (lit "must be <= " ++ display_f64 max)
          else if f64_leb v max then valid_result
          else invalid (lit "must be <= " ++ display_f64 max)
      end
  end.

Definition eval_min_length (value d : Value) : ConstraintResult :=
  match value_as_u64 (value_get d (lit "min_length")) with
  | None => invalid_text "min_length: missing or non-uint"
  | Some min =>
      match measure_length value with
      | None => invalid_text "min_length: not string or bytes"
      | Some len => if min <=? len then valid_result else invalid (lit "length must be >= " ++ display_u64 min)
      end
  end.

Definition eval_max_length (value d : Value) : ConstraintResult :=
  match value_as_u64 (value_get d (lit "max_length")) with
  | None => invalid_text "max_length: missing or non-uint"
  | Some max =>
      match measure_length value with
      | None => invalid_text "max_length: not string or bytes"
      | Some len => if len <=? max then valid_result else invalid (lit "length must be <= " ++ display_u64 max)
      end
  end.

Definition eval_min_count (value d : Value) : ConstraintResult :=
  match value_as_u64 (value_get d (lit "min_count")) with
  | None => invalid_text "min_count: missing or non-uint"
  | Some min =>
      match collection_size value with
      | None => invalid_text "min_count: not array or map"
      | Some count => if min <=? count then valid_result else invalid (lit "count must be >= " ++ display_u64 min)
      end
  end.

Definition eval_max_count (value d : Value) : ConstraintResult :=
  match value_as_u64 (value_get d (lit "max_count")) with
  | None => invalid_text "max_count: missing or non-uint"
  | Some max =>
      match collection_size value with
      | None => invalid_text "max_count: not array or map"
      | Some count => if count <=? max then valid_result else invalid (lit "count must be <= " ++ display_u64 max)
      end
  end.

Definition text_field (v : Value) (key : string) : option (list Z) := x ← value_get v (lit key); as_str x.

Definition eval_pattern (value d : Value) : ConstraintResult :=
  match text_field d "pattern" with
  | None => invalid_text "pattern: missing pattern field"
  | Some pattern =>
      match as_str value with
      | None => invalid_text "pattern: not a string"
      | Some s =>
          match regex_new (lit "^(?:" ++ pattern ++ lit ")$") with
          | None => invalid (lit "invalid RE2 pattern: " ++ pattern)
          | Some is_match => if is_match s then valid_result else invalid (lit "must match pattern: " ++ pattern)
          end
      end
  end.

Definition eval_one_of (value d : Value) (negate : bool) : ConstraintResult :=
  match (x ← value_get d (lit "values"); as_array x) with
  | None => invalid_text "one_of: missing values field"
  | Some values =>
      let target := to_ecf value in
      let found := existsb (λ candidate, bool_decide (to_ecf candidate = target)) values in
      if (if negate then negb found else found) then valid_result
      else if negate then invalid_text "must not be one of the listed values"
      else invalid_text "must be one of the listed values"
  end.

Definition eval_format (value d : Value) : option ConstraintResult :=
  match text_field d "format" with
  | None => Some (invalid_text "format: missing format field")
  | Some format =>
      match as_str value with
      | None => Some (invalid_text "format: not a string")
      | Some s =>
          verdict ← validate_format s format;
          Some match verdict with
               | Ok true => valid_result
               | Ok false => invalid (lit "invalid " ++ format ++ lit " format")
               | Err name => invalid (lit "unknown format: " ++ name)
               end
      end
  end.

Context `{Sha2} `{Ciborium} {St : Type} `{ContentStore St} {L : Type} `{LocationIndex L}.
(** [tree_access]: the stores are there *)
Context (home : Z) (local_peer_id : list Z) (tree_access : bool).

Definition resolve_hash (bytes : list Z) (s : St) : option (list Z) :=
  if negb tree_access then None
  else hash ← ok (from_bytes bytes); entity ← store_get hash s; Some (entity_type entity).

Definition qualified_path (path : list Z) : list Z :=
  if starts_with path [ch_slash] then path else [ch_slash] ++ local_peer_id ++ [ch_slash] ++ path.

Definition resolve_path (path : list Z) (s : St) (t : L) : option (list Z) :=
  if negb tree_access then None
  else hash ← li_get (qualified_path path) t; entity ← store_get hash s; Some (entity_type entity).

(** What is not resolved passes. *)
Definition eval_type_pattern (value d : Value) (s : St) (t : L) : ConstraintResult :=
  match text_field d "pattern" with
  | None => invalid_text "type_pattern: missing pattern field"
  | Some pattern =>
      let verdict resolved_type :=
        match resolved_type with
        | Some ty =>
            if type_pattern_matches pattern ty then valid_result
            else invalid (lit "type " ++ ty ++ lit " does not match pattern " ++ pattern)
        | None => valid_result
        end in
      match as_bytes value, as_str value with
      | Some b, _ => verdict (resolve_hash b s)
      | None, Some path => verdict (resolve_path path s t)
      | None, None => invalid_text "type_pattern: value not hash or path"
      end
  end.

Definition evaluate (req : ConstraintRequest) (s : St) (t : L) : option ConstraintResult :=
  let value := cr_value req in
  let d := constraint_data req in
  let kind := constraint_type req in
  if bool_decide (kind = TYPE_CONSTRAINT_MIN) then Some (eval_min value d)
  else if bool_decide (kind = TYPE_CONSTRAINT_MAX) then Some (eval_max value d)
  else if bool_decide (kind = TYPE_CONSTRAINT_MIN_LENGTH) then Some (eval_min_length value d)
  else if bool_decide (kind = TYPE_CONSTRAINT_MAX_LENGTH) then Some (eval_max_length value d)
  else if bool_decide (kind = TYPE_CONSTRAINT_MIN_COUNT) then Some (eval_min_count value d)
  else if bool_decide (kind = TYPE_CONSTRAINT_MAX_COUNT) then Some (eval_max_count value d)
  else if bool_decide (kind = TYPE_CONSTRAINT_PATTERN) then Some (eval_pattern value d)
  else if bool_decide (kind = TYPE_CONSTRAINT_ONE_OF) then Some (eval_one_of value d false)
  else if bool_decide (kind = TYPE_CONSTRAINT_NOT_ONE_OF) then Some (eval_one_of value d true)
  else if bool_decide (kind = TYPE_CONSTRAINT_FORMAT) then eval_format value d
  else if bool_decide (kind = TYPE_CONSTRAINT_TYPE_PATTERN) then Some (eval_type_pattern value d s t)
  else Some (invalid (lit "unknown constraint type: " ++ kind)).

Definition constraint_handle (ctx : HandlerContext) : Code HandlerError St L Reply :=
  if negb (bool_decide (hc_operation ctx = lit "validate")) then returns (Refused STATUS_NOT_SUPPORTED (lit "unsupported_operation"))
  else
    match constraint_request (hc_params ctx) with
    | None => returns (Refused STATUS_BAD_REQUEST (lit "invalid_request"))
    | Some req =>
        res <~ (λ s t, unwraps (evaluate req s t) s t);;
        match entity_new home TYPE_CONSTRAINT_VALIDATE_RES (to_ecf (constraint_result_value res)) with
        | Ok e => returns (Answered (handler_ok e))
        | Err _ => returns (Refused STATUS_INTERNAL_ERROR (lit "internal_error"))
        end
    end.
End evaluate.
