(* ===== verification/Narrowing.v ===== *)
(** Narrowing ([extensions/type-system/src/narrowing.rs]): whether a type's constraints are at least
    those of the types it extends. *)
From S2P Require Import Prelude BTree Ecf Cbor ContentHash Entity Identity Capability CapabilityCodec Store Trie Index Handler TypeConstraint.

Record NarrowingViolation := mkNarrowing { nv_field : list Z; nv_constraint : list Z; nv_reason : list Z }.

Definition constraints_of (field_spec : Value) : list Value := default [] (x ← value_get field_spec (lit "constraints"); as_array x).
Definition constraint_type_of (c : Value) : list Z := default [] (text_field c "type").
Definition constraint_data_of (c : Value) : Value := default VNull (value_get c (lit "data")).

Section narrower.
Context `{DisplayF64}.

(** [Ok] or the reason *)
Definition narrow_by {A} (read : option Value → option A) (holds : A → A → bool) (display : A → list Z)
    (child parent : Value) (key : string) : result (list Z) unit :=
  c ← ok_or (lit "missing " ++ lit key ++ lit " on child") (read (value_get child (lit key)));
  p ← ok_or (lit "missing " ++ lit key ++ lit " on parent") (read (value_get parent (lit key)));
  if holds c p then Ok tt
  else Err (lit "child " ++ lit key ++ lit " (" ++ display c ++ lit ") widens parent (" ++ display p ++ lit ")").

Definition narrow_ge : Value → Value → string → result (list Z) unit := narrow_by value_as_f64 (λ c p, f64_leb p c) display_f64.
Definition narrow_le : Value → Value → string → result (list Z) unit := narrow_by value_as_f64 f64_leb display_f64.
Definition narrow_ge_uint : Value → Value → string → result (list Z) unit := narrow_by value_as_u64 (λ c p, p <=? c) display_u64.
Definition narrow_le_uint : Value → Value → string → result (list Z) unit := narrow_by value_as_u64 Z.leb display_u64.

Definition narrow_equal (child parent : Value) (key : string) (reason : string) : result (list Z) unit :=
  if bool_decide (default [] (text_field child key) = default [] (text_field parent key)) then Ok tt else Err (lit reason).

Definition values_of (d : Value) : list Value := default [] (x ← value_get d (lit "values"); as_array x).

(** Every value of the first is, as it is encoded, among those of the second. *)
Definition among (l l' : list Value) : bool := forallb (λ v, existsb (λ v', bool_decide (to_ecf v' = to_ecf v)) l') l.

Definition check_narrower (kind : list Z) (child parent : Value) : result (list Z) unit :=
  let cd := constraint_data_of child in
  let pd := constraint_data_of parent in
  if bool_decide (kind = TYPE_CONSTRAINT_MIN) then narrow_ge cd pd "min"
  else if bool_decide (kind = TYPE_CONSTRAINT_MAX) then narrow_le cd pd "max"
  else if bool_decide (kind = TYPE_CONSTRAINT_MIN_LENGTH) then narrow_ge_uint cd pd "min_length"
  else if bool_decide (kind = TYPE_CONSTRAINT_MAX_LENGTH) then narrow_le_uint cd pd "max_length"
  else if bool_decide (kind = TYPE_CONSTRAINT_MIN_COUNT) then narrow_ge_uint cd pd "min_count"
  else if bool_decide (kind = TYPE_CONSTRAINT_MAX_COUNT) then narrow_le_uint cd pd "max_count"
  else if bool_decide (kind = TYPE_CONSTRAINT_PATTERN) then narrow_equal cd pd "pattern" "non-equal patterns are incomparable"
  else if bool_decide (kind = TYPE_CONSTRAINT_FORMAT) then narrow_equal cd pd "format" "non-equal formats are incomparable"
  else if bool_decide (kind = TYPE_CONSTRAINT_TYPE_PATTERN) then
    narrow_equal cd pd "pattern" "non-equal type_patterns are incomparable (v1.1 baseline)"
  else if bool_decide (kind = TYPE_CONSTRAINT_ONE_OF) then
    if among (values_of cd) (values_of pd) then Ok tt else Err (lit "child one_of contains value not in parent")
  else if bool_decide (kind = TYPE_CONSTRAINT_NOT_ONE_OF) then
    if among (values_of pd) (values_of cd) then Ok tt else Err (lit "child not_one_of missing value present in parent")
  else Ok tt.

(** The first field of a name *)
Definition field_named (name : list Z) (fields : list (Value * Value)) : option Value := get_entry fields name.

Definition fields_map (def : Value) : option (list (Value * Value)) := x ← value_get def (lit "fields"); as_map x.

Definition narrow_constraint (field_name : list Z) (child_constraints : list Value) (parent_c : Value) : list NarrowingViolation :=
  let kind := constraint_type_of parent_c in
  match list_find (λ c, constraint_type_of c = kind) child_constraints with
  | None => [mkNarrowing field_name kind (lit "child removed parent constraint")]
  | Some (_, matching) =>
      match check_narrower kind matching parent_c with
      | Ok _ => []
      | Err msg => [mkNarrowing field_name kind msg]
      end
  end.

Definition narrow_field (child_fields : list (Value * Value)) (entry : Value * Value) : list NarrowingViolation :=
  match as_str entry.1 with
  | None => []
  | Some field_name =>
      let child_constraints := default [] (constraints_of <$> field_named field_name child_fields) in
      concat (map (narrow_constraint field_name child_constraints) (constraints_of entry.2))
  end.

Definition verify_step (child parent : Value) : list NarrowingViolation :=
  match fields_map parent with
  | None => []
  | Some parent_fields => concat (map (narrow_field (default [] (fields_map child))) parent_fields)
  end.

Context `{Ciborium} {St : Type} `{ContentStore St} {L : Type} `{LocationIndex L} (local_peer_id : list Z).

Definition type_path (name : list Z) : list Z := [ch_slash] ++ local_peer_id ++ lit "/system/type/" ++ name.

Definition type_at (path : list Z) (s : St) (t : L) : option Value :=
  hash ← li_get path t;
  entity ← store_get hash s;
  if negb (bool_decide (entity_type entity = lit "system/type")) then None else from_reader (data entity).

Definition resolve_type (name : list Z) (s : St) (t : L) : option Value := type_at (type_path name) s t.

(** The type that a type extends, if it names one. *)
Definition extends_name (def : Value) : option (list Z) :=
  name ← text_field def "extends"; if bool_decide (name = []) then None else Some name.

(** The walk up; [None] when the fuel is spent. *)
Fixpoint narrowing_loop (fuel : nat) (visited : list (list Z)) (current : Value) (s : St) (t : L) : option (list NarrowingViolation) :=
  match extends_name current with
  | None => Some []
  | Some parent_name =>
      match fuel with
      | O => None
      | S fuel =>
          if bool_decide (parent_name ∈ visited) then Some [mkNarrowing [] [] (lit "extends cycle detected at " ++ parent_name)]
          else
            match resolve_type parent_name s t with
            | None => Some [mkNarrowing [] [] (lit "parent type not resolved: " ++ parent_name)]
            | Some parent_def =>
                rest ← narrowing_loop fuel (parent_name :: visited) parent_def s t;
                Some (verify_step current parent_def ++ rest)
            end
      end
  end.

Definition verify_narrowing (fuel : nat) (child_def : Value) (s : St) (t : L) : option (list NarrowingViolation) :=
  narrowing_loop fuel [default [] (text_field child_def "name")] child_def s t.
End narrower.
