(* ===== verification/TypeCheck.v ===== *)
(** Validation and comparison of types ([extensions/type-system/src]: [validate.rs], [compare.rs]). *)
From S2P Require Import Prelude BTree Ecf Cbor ContentHash Entity Identity Capability CapabilityCodec Store Trie Index Handler.
From S2P Require Import TypeConstraint Narrowing.

Definition TYPE_VALIDATE_RES : list Z := lit "system/type/validate-result".
Definition TYPE_VIOLATION : list Z := lit "system/type/violation".
Definition TYPE_COMPARE_RES : list Z := lit "system/type/compare-result".
Definition TYPE_COMPATIBILITY_REPORT : list Z := lit "system/type/compatibility-report".

(** * Comparing ([compare.rs]) *)

Definition fields_of (def : Value) : list (list Z * Value) :=
  omap (λ kv, name ← as_str kv.1; Some (name, kv.2)) (default [] (fields_map def)).

Definition type_ref (spec : Value) : list Z := default [] (text_field spec "type_ref").
Definition is_optional (spec : Value) : bool := default false (x ← value_get spec (lit "optional"); as_bool_val x).
Definition constraints (spec : Value) : Value := default (VArray []) (value_get spec (lit "constraints")).

Definition field_comparison (type_match constraint_match a_optional b_optional : bool) : Value :=
  VMap [(text (lit "type_match"), bool_val type_match); (text (lit "constraint_match"), bool_val constraint_match);
        (text (lit "a_optional"), bool_val a_optional); (text (lit "b_optional"), bool_val b_optional)].

Definition field_incompatibility (field_name a_type b_type : list Z) : Value :=
  VMap [(text (lit "field_name"), text field_name); (text (lit "a_type"), text a_type); (text (lit "b_type"), text b_type);
        (text (lit "reason"), text (lit "different type_ref between A and B"))].

(** [iter().find(|(n, _)| n == name)] *)
Definition spec_of (name : list Z) (fields : list (list Z * Value)) : option Value :=
  '(_, p) ← list_find (λ p : list Z * Value, p.1 = name) fields; Some p.2.

Record CompareSets := mkCompareSets {
  cs_shared : list (list Z * Value); cs_only_a : list (list Z); cs_incompatible : list Value;
}.

Definition compare_step (fields_b : list (list Z * Value)) (acc : CompareSets) (field : list Z * Value) : CompareSets :=
  let '(name, spec_a) := field in
  match spec_of name fields_b with
  | Some spec_b =>
      if bool_decide (type_ref spec_a = type_ref spec_b) then
        mkCompareSets (cs_shared acc ++ [(name,
          field_comparison true (bool_decide (to_ecf (constraints spec_a) = to_ecf (constraints spec_b)))
            (is_optional spec_a) (is_optional spec_b))]) (cs_only_a acc) (cs_incompatible acc)
      else mkCompareSets (cs_shared acc) (cs_only_a acc)
             (cs_incompatible acc ++ [field_incompatibility name (type_ref spec_a) (type_ref spec_b)])
  | None => mkCompareSets (cs_shared acc) (cs_only_a acc ++ [name]) (cs_incompatible acc)
  end.

(** The names of the first list's fields that the second has none of *)
Definition names_missing (fields others : list (list Z * Value)) : list (list Z) :=
  map fst (filter (λ p, spec_of p.1 others = None) fields).

Record CompatSets := mkCompatSets {
  shared_fields : list (list Z); incompatible_fields : list Value; missing_required_b : list (list Z);
}.

Definition compatible_step (fields_b : list (list Z * Value)) (acc : CompatSets) (field : list Z * Value) : CompatSets :=
  let '(name, spec_a) := field in
  match spec_of name fields_b with
  | Some spec_b =>
      if bool_decide (type_ref spec_a = type_ref spec_b) then
        mkCompatSets (shared_fields acc ++ [name]) (incompatible_fields acc) (missing_required_b acc)
      else mkCompatSets (shared_fields acc)
             (incompatible_fields acc ++ [field_incompatibility name (type_ref spec_a) (type_ref spec_b)]) (missing_required_b acc)
  | None =>
      if negb (is_optional spec_a) then mkCompatSets (shared_fields acc) (incompatible_fields acc) (missing_required_b acc ++ [name])
      else acc
  end.

Definition compat_sets (fields_a fields_b : list (list Z * Value)) : CompatSets := foldl (compatible_step fields_b) (mkCompatSets [] [] []) fields_a.

Definition missing_required_a (fields_a fields_b : list (list Z * Value)) : list (list Z) :=
  map fst (filter (λ p, spec_of p.1 fields_a = None ∧ is_optional p.2 = false) fields_b).

Definition compatibility_level (fields_a fields_b : list (list Z * Value)) : string :=
  let sets := compat_sets fields_a fields_b in
  let incompatible := negb (bool_decide (incompatible_fields sets = [])) in
  let forward_ok := bool_decide (missing_required_a fields_a fields_b = []) && negb incompatible in
  let backward_ok := bool_decide (missing_required_b sets = []) && negb incompatible in
  match forward_ok, backward_ok with
  | true, true => "fully_compatible"
  | true, false => "forward_only"
  | false, true => "backward_only"
  | false, false =>
      if negb (bool_decide (shared_fields sets = [])) && negb incompatible then "partially_compatible" else "incompatible"
  end.

(** An entry of a list, when the list has anything *)
Definition unless_empty (key : string) (l : list Value) : list (Value * Value) :=
  if bool_decide (l = []) then [] else [(text (lit key), VArray l)].

Definition compare_value (type_a_path type_b_path : list Z) (def_a def_b : Value) : Value :=
  let fields_a := fields_of def_a in
  let fields_b := fields_of def_b in
  let sets := foldl (compare_step fields_b) (mkCompareSets [] [] []) fields_a in
  VMap ([(text (lit "type_a_path"), text type_a_path); (text (lit "type_b_path"), text type_b_path);
         (text (lit "shared"), VMap (map (λ p, (text p.1, p.2)) (cs_shared sets)));
         (text (lit "only_a"), VArray (map text (cs_only_a sets)));
         (text (lit "only_b"), VArray (map text (names_missing fields_b fields_a)))]
        ++ unless_empty "incompatible" (cs_incompatible sets)).

Definition compatible_value (type_a_path type_b_path direction : list Z) (def_a def_b : Value) : Value :=
  let fields_a := fields_of def_a in
  let fields_b := fields_of def_b in
  let sets := compat_sets fields_a fields_b in
  VMap ([(text (lit "type_a_path"), text type_a_path); (text (lit "type_b_path"), text type_b_path);
         (text (lit "direction"), text (if bool_decide (direction = []) then lit "bidirectional" else direction));
         (text (lit "level"), text (lit (compatibility_level fields_a fields_b)));
         (text (lit "shared_fields"), VArray (map text (shared_fields sets)))]
        ++ unless_empty "incompatible_fields" (incompatible_fields sets)
        ++ unless_empty "missing_required_a" (map text (missing_required_a fields_a fields_b))
        ++ unless_empty "missing_required_b" (map text (missing_required_b sets))).

Inductive CompareError := TypeNotFound | EncodeFailed.

Section compare.
Context `{Sha2} `{Ciborium} {St : Type} `{ContentStore St} {L : Type} `{LocationIndex L} (home : Z) (local_peer_id : list Z).

Definition resolve (path : list Z) (s : St) (t : L) : option Value := type_at (qualified_path local_peer_id path) s t.

Definition compare (type_a_path type_b_path : list Z) (s : St) (t : L) : result CompareError Entity :=
  def_a ← ok_or TypeNotFound (resolve type_a_path s t);
  def_b ← ok_or TypeNotFound (resolve type_b_path s t);
  map_err (λ _, EncodeFailed) (entity_new home TYPE_COMPARE_RES (to_ecf (compare_value type_a_path type_b_path def_a def_b))).

Definition compatible (type_a_path type_b_path direction : list Z) (s : St) (t : L) : result CompareError Entity :=
  def_a ← ok_or TypeNotFound (resolve type_a_path s t);
  def_b ← ok_or TypeNotFound (resolve type_b_path s t);
  map_err (λ _, EncodeFailed)
    (entity_new home TYPE_COMPATIBILITY_REPORT (to_ecf (compatible_value type_a_path type_b_path direction def_a def_b))).

Definition compare_error_result (e : CompareError) : Reply :=
  match e with
  | TypeNotFound => Refused STATUS_NOT_FOUND (lit "type_not_found")
  | EncodeFailed => Refused STATUS_INTERNAL_ERROR (lit "internal_error")
  end.

Definition compare_reply (r : result CompareError Entity) : Reply :=
  match r with Ok e => Answered (handler_ok e) | Err e => compare_error_result e end.

Definition invalid_request : Reply := Refused STATUS_BAD_REQUEST (lit "invalid_request").

(** The types that the parameters name *)
Definition compared_types (value : Value) : option (list Z * list Z) :=
  let type_a := default [] (text_field value "type_a") in
  let type_b := default [] (text_field value "type_b") in
  if bool_decide (type_a = []) || bool_decide (type_b = []) then None else Some (type_a, type_b).

Definition handle_compare (ctx : HandlerContext) (s : St) (t : L) : Reply :=
  match from_reader (data (hc_params ctx)) with
  | None => invalid_request
  | Some value =>
      match compared_types value with
      | None => invalid_request
      | Some (type_a, type_b) => compare_reply (compare type_a type_b s t)
      end
  end.

Definition handle_compatible (ctx : HandlerContext) (s : St) (t : L) : Reply :=
  match from_reader (data (hc_params ctx)) with
  | None => invalid_request
  | Some value =>
      match compared_types value with
      | None => invalid_request
      | Some (type_a, type_b) => compare_reply (compatible type_a type_b (default (lit "bidirectional") (text_field value "direction")) s t)
      end
  end.
End compare.

(** * Validating ([validate.rs]) *)

Record Violation := mkViolation { vi_field : list Z; vi_kind : list Z; vi_constraint : option (list Z); vi_reason : list Z }.

Record ValidationResult := mkValidation { vr_valid : bool; violations : list Violation; unevaluated_fields : list (list Z) }.

Inductive DispatchOutcome := Valid | Invalid (reason : list Z) | DispatchFailed (reason : list Z).

Definition violation_value (v : Violation) : Value :=
  VMap ([(text (lit "field"), text (vi_field v)); (text (lit "kind"), text (vi_kind v)); (text (lit "reason"), text (vi_reason v))]
        ++ match vi_constraint v with Some c => [(text (lit "constraint"), text c)] | None => [] end).

Definition request_entry (st : option Value * option (list Z)) (kv : Value * Value) : option Value * option (list Z) :=
  if key_is "entity" kv.1 then (Some kv.2, st.2)
  else if key_is "type_path" kv.1 then (st.1, as_str kv.2)
  else st.

Definition parse_validate_request (value : Value) : option (Value * option (list Z)) :=
  m ← as_map value;
  let '(entity_v, type_path) := foldl request_entry (None, None) m in
  entity_v ← entity_v;
  Some (entity_v, type_path).

Definition constraint_entry (st : option (list Z) * option Value) (kv : Value * Value) : option (list Z) * option Value :=
  if key_is "type" kv.1 then (as_str kv.2, st.2)
  else if key_is "data" kv.1 then (st.1, Some kv.2)
  else st.

Definition decode_constraint (value : Value) : option (list Z * Value) :=
  m ← as_map value;
  let '(c_type, c_data) := foldl constraint_entry (None, None) m in
  c_type ← c_type;
  Some (c_type, default VNull c_data).

Definition classify_reason (reason : list Z) : list Z :=
  if starts_with reason (lit "unknown constraint type:") || starts_with reason (lit "unknown format:")
  then lit "unknown_constraint" else lit "constraint".

Section validate.
Context `{DisplayF64} `{Sha2} `{Ciborium} {St : Type} `{ContentStore St} {L : Type} `{LocationIndex L} (home : Z) (local_peer_id : list Z).
(** [execute_fn], of a path, an operation and parameters; [None] when the context has none.  The
    failure of an execute is its text. *)
Context (execute_fn : option (list Z → list Z → Entity → Code (list Z) St L HandlerResult)).

(** Violations are read back from their encoding; an entity that cannot be built is a panic. *)
Definition violation_entity (v : Violation) : option Entity := ok (entity_new home TYPE_VIOLATION (to_ecf (violation_value v))).
Definition violation_inner (v : Violation) : option Value :=
  e ← violation_entity v; Some (default (VMap []) (from_reader (data e))).

Definition validation_entity (r : ValidationResult) : option Entity :=
  inner ← mapO violation_inner (violations r);
  ok (entity_new home TYPE_VALIDATE_RES (to_ecf (VMap (
    [(text (lit "valid"), bool_val (vr_valid r))]
    ++ unless_empty "violations" inner
    ++ unless_empty "unevaluated_fields" (map text (unevaluated_fields r)))))).

Definition parse_dispatch_result (entity : Entity) : DispatchOutcome :=
  match from_reader (data entity) with
  | None => DispatchFailed (lit "decode")
  | Some value =>
      if default false (x ← value_get value (lit "valid"); as_bool_val x) then Valid
      else Invalid (default [] (text_field value "reason"))
  end.

Definition validate_request_value (value : Value) (c_type : list Z) (c_data : Value) : Value :=
  VMap [(text (lit "value"), value); (text (lit "constraint_type"), text c_type); (text (lit "constraint_data"), c_data)].

(** What a result other than 200 is reported as *)
Definition failed_status (r : HandlerResult) : list Z :=
  lit "handler status " ++ display_u64 (status r)
  ++ match decode_error_entity (result_entity r) with Some (Some code, _) => lit " " ++ code | _ => [] end.

Definition dispatch_constraint (value : Value) (c_type : list Z) (c_data : Value) : Code HandlerError St L DispatchOutcome :=
  λ s t,
    match execute_fn with
    | None => Done (Ok (DispatchFailed (lit "no execute_fn"))) s t
    | Some execute =>
        match entity_new home TYPE_CONSTRAINT_VALIDATE_REQ (to_ecf (validate_request_value value c_type c_data)) with
        | Err _ => Done (Ok (DispatchFailed (lit "build request"))) s t
        | Ok req =>
            match execute c_type (lit "validate") req s t with
            | Done (Ok res) s t =>
                Done (Ok (if negb (status res =? STATUS_OK) then DispatchFailed (failed_status res)
                          else parse_dispatch_result (result_entity res))) s t
            | Done (Err e) s t => Done (Ok (DispatchFailed e)) s t
            | Stuck => Stuck
            end
        end
    end.

Definition outcome_violation (field c_type : list Z) (o : DispatchOutcome) : list Violation :=
  match o with
  | Valid => []
  | Invalid reason => [mkViolation field (classify_reason reason) (Some c_type) reason]
  | DispatchFailed reason => [mkViolation field (lit "unknown_constraint") (Some c_type) (lit "constraint_dispatch_failed: " ++ reason)]
  end.

Definition validate_constraint (field : list Z) (value : Value) (acc : list Violation) (c : Value) : Code HandlerError St L (list Violation) :=
  match decode_constraint c with
  | None => returns acc
  | Some (c_type, c_data) =>
      o <~ dispatch_constraint value c_type c_data;;
      returns (acc ++ outcome_violation field c_type o)
  end.

Definition validate_field (entity_fields : list (Value * Value)) (acc : list Violation) (entry : Value * Value) : Code HandlerError St L (list Violation) :=
  match as_str entry.1 with
  | None => returns acc
  | Some field_name =>
      match field_named field_name entity_fields with
      | None =>
          returns (if is_optional entry.2 then acc
                   else acc ++ [mkViolation field_name (lit "structural") None (lit "required field missing")])
      | Some value => fold_run (validate_constraint field_name value) acc (constraints_of entry.2)
      end
  end.

Definition narrowing_violation (nv : NarrowingViolation) : Violation :=
  mkViolation (nv_field nv) (lit "structural") (if bool_decide (nv_constraint nv = []) then None else Some (nv_constraint nv))
    (lit "narrowing violation: " ++ nv_reason nv).

(** The violations of an entity of a type, the type resolved *)
Definition violations_of (fuel : nat) (entity_type_name : list Z) (entity_data type_def : Value) : Code HandlerError St L (list Violation) :=
  vs <~ fold_run (validate_field (default [] (as_map entity_data))) [] (default [] (fields_map type_def));;
  nvs <~ (λ s t, unwraps (if bool_decide (entity_type_name = lit "system/type") then verify_narrowing local_peer_id fuel entity_data s t
                          else Some []) s t);;
  returns (vs ++ map narrowing_violation nvs).

Definition answer_validation (vs : list Violation) : Code HandlerError St L Reply :=
  e <~ unwraps (validation_entity (mkValidation (bool_decide (vs = [])) vs []));;
  returns (Answered (handler_ok e)).

Definition handle_validate (fuel : nat) (ctx : HandlerContext) : Code HandlerError St L Reply :=
  match from_reader (data (hc_params ctx)) with
  | None => returns invalid_request
  | Some params_value =>
      match parse_validate_request params_value with
      | None => returns invalid_request
      | Some (entity_value, type_path_override) =>
          match text_field entity_value "type" with
          | None => returns invalid_request
          | Some entity_type_name =>
              let entity_data := default (VMap []) (value_get entity_value (lit "data")) in
              let type_name := default entity_type_name type_path_override in
              resolved <~ asks (λ s t, resolve_type local_peer_id type_name s t);;
              match resolved with
              | None => answer_validation [mkViolation [] (lit "structural") None (lit "type not resolved: " ++ type_name)]
              | Some type_def =>
                  vs <~ violations_of fuel entity_type_name entity_data type_def;;
                  answer_validation vs
              end
          end
      end
  end.

Definition type_handle (fuel : nat) (ctx : HandlerContext) : Code HandlerError St L Reply :=
  if bool_decide (hc_operation ctx = lit "validate") then handle_validate fuel ctx
  else if bool_decide (hc_operation ctx = lit "compare") then asks (handle_compare home local_peer_id ctx)
  else if bool_decide (hc_operation ctx = lit "compatible") then asks (handle_compatible home local_peer_id ctx)
  else returns (Refused STATUS_NOT_SUPPORTED (lit "unsupported_operation")).
End validate.
