(* ===== verification/TypeSpec.v ===== *)
(** What the type system promises: a type that narrows those it extends accepts no value that they
    refuse, the walk to them ends, and a validation says exactly what is wrong. *)
From S2P Require Import Prelude BTree Ecf Cbor ContentHash Entity Identity Capability CapabilityCodec Store Trie Index Handler.
From S2P Require Import TrieSpec TypeConstraint Narrowing TypeCheck.

(** * Narrower constraints *)

Section verdicts.
Context `{HR : Regex} `{HB : Base58} `{HD : DisplayF64} `{HS : Sha2} `{HC : Ciborium} {St : Type} `{HT : ContentStore St} {L : Type} `{HL : LocationIndex L}.
Context (peer : list Z) (tree_access : bool) (s : St) (t : L).

(** A value passes a constraint; an entry that is none is not looked at. *)
Definition accepts (c value : Value) : Prop :=
  match decode_constraint c with
  | None => True
  | Some (kind, d) => ∃ r, evaluate peer tree_access (mkConstraintRequest value kind d) s t = Some r ∧ valid r = true
  end.

(** An entry that says what it constrains, or is none: its type and its data are there once, and it
    has the field without which it refuses everything. *)
Definition well_formed (c : Value) : Prop :=
  match decode_constraint c with
  | None => constraint_type_of c = []
  | Some (kind, d) =>
      kind = constraint_type_of c ∧ d = constraint_data_of c ∧ kind ≠ []
      ∧ (kind ≠ TYPE_CONSTRAINT_NOT_ONE_OF ∨ is_Some (x ← value_get d (lit "values"); as_array x))
      ∧ ((kind ≠ TYPE_CONSTRAINT_PATTERN ∧ kind ≠ TYPE_CONSTRAINT_TYPE_PATTERN) ∨ is_Some (text_field d "pattern"))
  end.

Lemma f64_leb_trans a b c : f64_leb a b = true → f64_leb b c = true → f64_leb a c = true.
Proof.
  unfold f64_leb. intros [[Ha Hb]%andb_true_iff H1%Z.leb_le]%andb_true_iff [[_ Hc]%andb_true_iff H2%Z.leb_le]%andb_true_iff.
  rewrite Ha, Hc. apply Z.leb_le. lia.
Qed.

Lemma f64_leb_nan a b : f64_leb a b = true → is_nan a = false ∧ is_nan b = false.
Proof. unfold f64_leb. by destruct (is_nan a), (is_nan b). Qed.

Lemma narrow_by_Ok {A} (read : option Value → option A) holds display c p key :
  narrow_by read holds display c p key = Ok tt →
  ∃ x y, read (value_get c (lit key)) = Some x ∧ read (value_get p (lit key)) = Some y ∧ holds x y = true.
Proof.
  unfold narrow_by. destruct (read (value_get c (lit key))) as [x|]; [|done]. destruct (read (value_get p (lit key))) as [y|]; [|done].
  cbn [ok_or mbind result_bind]. destruct (holds x y) eqn:E; [|done]. intros _. by exists x, y.
Qed.

(** A bound read as [read] of what [measure] makes of the value, either way up. *)
Lemma min_narrows v c p : narrow_ge c p "min" = Ok tt → valid (eval_min v c) = true → valid (eval_min v p) = true.
Proof.
  intros (x & y & Hx & Hy & Hh)%narrow_by_Ok. unfold eval_min. rewrite Hx, Hy. destruct (value_as_f64 (Some v)) as [n|]; [|done].
  destruct (f64_leb_nan _ _ Hh) as [Hny Hnx]. rewrite Hnx, Hny, !orb_false_r. destruct (is_nan n) eqn:En; [done|].
  destruct (f64_leb x n) eqn:E; [|done]. by rewrite (f64_leb_trans y x n).
Qed.

Lemma max_narrows v c p : narrow_le c p "max" = Ok tt → valid (eval_max v c) = true → valid (eval_max v p) = true.
Proof.
  intros (x & y & Hx & Hy & Hh)%narrow_by_Ok. unfold eval_max. rewrite Hx, Hy. destruct (value_as_f64 (Some v)) as [n|]; [|done].
  destruct (f64_leb_nan _ _ Hh) as [Hnx Hny]. rewrite Hnx, Hny, !orb_false_r. destruct (is_nan n) eqn:En; [done|].
  destruct (f64_leb n x) eqn:E; [|done]. by rewrite (f64_leb_trans n x y).
Qed.

Ltac narrow_uint ev measure :=
  let x := fresh "x" in let y := fresh "y" in let Hx := fresh in let Hy := fresh in let Hh := fresh in
  intros (x & y & Hx & Hy & Hh)%narrow_by_Ok; unfold ev; rewrite Hx, Hy;
  match goal with |- context [measure ?v] => destruct (measure v) as [n|]; [|done] end;
  apply Z.leb_le in Hh;
  match goal with |- context [if ?a <=? ?b then _ else _] => destruct (Z.leb_spec a b); [intros _|done] end;
  match goal with |- context [if ?a <=? ?b then _ else _] => destruct (Z.leb_spec a b); [done|lia] end.

Lemma min_length_narrows v c p : narrow_ge_uint c p "min_length" = Ok tt → valid (eval_min_length v c) = true → valid (eval_min_length v p) = true.
Proof. narrow_uint eval_min_length measure_length. Qed.
Lemma max_length_narrows v c p : narrow_le_uint c p "max_length" = Ok tt → valid (eval_max_length v c) = true → valid (eval_max_length v p) = true.
Proof. narrow_uint eval_max_length measure_length. Qed.
Lemma min_count_narrows v c p : narrow_ge_uint c p "min_count" = Ok tt → valid (eval_min_count v c) = true → valid (eval_min_count v p) = true.
Proof. narrow_uint eval_min_count collection_size. Qed.
Lemma max_count_narrows v c p : narrow_le_uint c p "max_count" = Ok tt → valid (eval_max_count v c) = true → valid (eval_max_count v p) = true.
Proof. narrow_uint eval_max_count collection_size. Qed.

Lemma among_found l l' (b : list Z) : among l l' = true →
  existsb (λ c, bool_decide (to_ecf c = b)) l = true → existsb (λ c, bool_decide (to_ecf c = b)) l' = true.
Proof.
  unfold among. rewrite forallb_forall, !existsb_exists. intros Ha (x & Hx & Hb). apply bool_decide_eq_true in Hb. subst b.
  specialize (Ha x Hx). by apply existsb_exists in Ha.
Qed.

Lemma one_of_narrows v c p : among (values_of c) (values_of p) = true → valid (eval_one_of v c false) = true → valid (eval_one_of v p false) = true.
Proof.
  unfold values_of, eval_one_of. intros Ha. destruct (x ← value_get c (lit "values"); as_array x) as [cv|]; [|done].
  destruct (existsb _ cv) eqn:E; [intros _|done]. pose proof (among_found _ _ _ Ha E) as Hp.
  destruct (x ← value_get p (lit "values"); as_array x) as [pv|]; cbn in Hp; [|done]. by rewrite Hp.
Qed.

Lemma not_one_of_narrows v c p : is_Some (x ← value_get p (lit "values"); as_array x) → among (values_of p) (values_of c) = true →
  valid (eval_one_of v c true) = true → valid (eval_one_of v p true) = true.
Proof.
  unfold values_of, eval_one_of. intros [pv Hp]. rewrite Hp. unfold default, from_option, id. intros Ha.
  destruct (x ← value_get c (lit "values"); as_array x) as [cv|]; [|done].
  destruct (existsb _ pv) eqn:E; [|done]. by rewrite (among_found _ _ _ Ha E).
Qed.

Lemma narrow_equal_Ok c p key why : narrow_equal c p key why = Ok tt → default [] (text_field c key) = default [] (text_field p key).
Proof. unfold narrow_equal. by case_bool_decide. Qed.

Lemma pattern_narrows v c p : is_Some (text_field p "pattern") → default [] (text_field c "pattern") = default [] (text_field p "pattern") →
  valid (eval_pattern v c) = true → valid (eval_pattern v p) = true.
Proof.
  intros [x Hp]. unfold eval_pattern. rewrite Hp. destruct (text_field c "pattern") as [y|]; [|done]. unfold default, from_option, id. by intros ->.
Qed.

Lemma type_pattern_narrows v c p : is_Some (text_field p "pattern") → default [] (text_field c "pattern") = default [] (text_field p "pattern") →
  valid (eval_type_pattern peer tree_access v c s t) = true → valid (eval_type_pattern peer tree_access v p s t) = true.
Proof.
  intros [x Hp]. unfold eval_type_pattern. rewrite Hp. destruct (text_field c "pattern") as [y|]; [|done]. unfold default, from_option, id. by intros ->.
Qed.

Lemma format_narrows v c p r : default [] (text_field c "format") = default [] (text_field p "format") →
  eval_format v c = Some r → valid r = true → eval_format v p = Some r.
Proof.
  unfold eval_format. destruct (text_field c "format") as [x|], (text_field p "format") as [y|]; unfold default, from_option, id; [by intros ->| |by intros _ [= <-]..].
  intros ->. destruct (as_str v); [|by intros [= <-]]. unfold validate_format. cbn. by intros [= <-].
Qed.

(** What a child's constraint accepts, a parent's of the same kind that it narrows accepts. *)
Lemma check_narrower_sound kind c p v :
  well_formed c → well_formed p → constraint_type_of c = kind → constraint_type_of p = kind →
  check_narrower kind c p = Ok tt → accepts c v → accepts p v.
Proof.
  unfold well_formed, accepts. intros Hc Hp Hkc Hkp Hn. destruct (decode_constraint p) as [[kp dp]|]; [|done].
  destruct Hp as (-> & -> & Hne & Hno & Hpat). rewrite Hkp in *. destruct (decode_constraint c) as [[kc dc]|]; [|congruence].
  destruct Hc as (-> & -> & _). rewrite Hkc. intros (r & Hr & Hv). revert Hr Hn Hno Hpat.
  clear Hkc Hkp. unfold check_narrower, evaluate. cbn [cr_value constraint_data constraint_type].
  generalize (constraint_data_of c) (constraint_data_of p). clear c p. intros c p.
  repeat (case_bool_decide as Hk; [subst kind|clear Hk]); try (intros [= <-]; clear Hne; intros Hn Hno Hpat; eexists; split; [reflexivity|]).
  all: try (by eauto using min_narrows, max_narrows, min_length_narrows, max_length_narrows, min_count_narrows, max_count_narrows).
  all: try (destruct Hpat as [[Hq1 Hq2]|Hpat]; [by destruct Hq1 || by destruct Hq2|]).
  all: try (destruct Hno as [Hq|Hno]; [by destruct Hq|]).
  - by apply (pattern_narrows v c); [|eapply narrow_equal_Ok|].
  - apply (one_of_narrows v c); [|done]. cbn in Hn. destruct (among (values_of c) (values_of p)); done.
  - apply (not_one_of_narrows v c); [done| |done]. cbn in Hn. destruct (among (values_of p) (values_of c)); done.
  - intros Hr Hn _ _. exists r. split; [|done]. eapply format_narrows; [by eapply narrow_equal_Ok|done|done].
  - by apply (type_pattern_narrows v c); [|eapply narrow_equal_Ok|].
Qed.
End verdicts.

(** * The chain of a type *)

Section chain.
Context `{HR : Regex} `{HB : Base58} `{HD : DisplayF64} `{HS : Sha2} `{HC : Ciborium} {St : Type} `{HT : ContentStore St} {L : Type} `{HL : LocationIndex L}.
Context (peer : list Z) (tree_access : bool) (s : St) (t : L).

(** The types that a type extends, directly or not. *)
Inductive ancestor : Value → Value → Prop :=
  | anc_parent def name parent : extends_name def = Some name → resolve_type peer name s t = Some parent → ancestor def parent
  | anc_above def name parent above : extends_name def = Some name → resolve_type peer name s t = Some parent →
      ancestor parent above → ancestor def above.

Definition in_field (def : Value) (field : list Z) (c : Value) : Prop :=
  ∃ k spec, (k, spec) ∈ default [] (fields_map def) ∧ as_str k = Some field ∧ c ∈ constraints_of spec.

(** A value passes what a type says of a field. *)
Definition field_accepts (def : Value) (field : list Z) (value : Value) : Prop :=
  ∀ c, in_field def field c → accepts peer tree_access s t c value.

Definition well_formed_type (def : Value) : Prop := ∀ field c, in_field def field c → well_formed c.

Lemma get_entry_elem name m v : get_entry m name = Some v → (VText name, v) ∈ m.
Proof.
  induction m as [|[k x] m IH]; [done|]. cbn [get_entry]. intros Hg.
  destruct k as [| | |k| | | | |]; try (right; by apply IH). case_decide as Hk; [subst; injection Hg as ->; by left|right; by apply IH].
Qed.

Lemma narrow_constraint_sound field cs p v :
  narrow_constraint field cs p = [] → well_formed p → (∀ c, c ∈ cs → well_formed c ∧ accepts peer tree_access s t c v) → accepts peer tree_access s t p v.
Proof.
  intros Hn Hp Hcs. unfold narrow_constraint in Hn. destruct (list_find _ cs) as [[i c]|] eqn:Ef; [|done].
  apply list_find_Some in Ef as (Hl & Hk & _). destruct (Hcs c (list_elem_of_lookup_2 _ _ _ Hl)) as [Hc Ha].
  destruct (check_narrower _ c p) as [[]|] eqn:En; [|done]. by eapply check_narrower_sound.
Qed.

Lemma concat_map_nil {A B} (f : A → list B) l x : concat (map f l) = [] → x ∈ l → f x = [].
Proof.
  induction l as [|y l IH]; [by intros _ ?%elem_of_nil|]. cbn [map concat]. intros [Hy Hl]%app_eq_nil [->|Hx]%elem_of_cons; auto.
Qed.

Lemma verify_step_sound child parent field v :
  verify_step child parent = [] → well_formed_type child → well_formed_type parent →
  field_accepts child field v → field_accepts parent field v.
Proof.
  intros Hv Hwc Hwp Hc p (k & spec & Hk & Hf & Hp). unfold verify_step in Hv.
  destruct (fields_map parent) as [fields|] eqn:Efs; [|by apply elem_of_nil in Hk].
  pose proof (concat_map_nil _ _ _ Hv Hk) as Hfield. unfold narrow_field in Hfield. cbn [fst snd] in Hfield. rewrite Hf in Hfield.
  pose proof (concat_map_nil _ _ _ Hfield Hp) as Hone. eapply narrow_constraint_sound; [exact Hone| |].
  - apply (Hwp field). exists k, spec. by rewrite Efs.
  - intros c Hin. destruct (field_named field (default [] (fields_map child))) as [cspec|] eqn:En; [|by apply elem_of_nil in Hin].
    apply get_entry_elem in En. assert (in_field child field c) by (by exists (VText field), cspec). split; [by apply (Hwc field)|by apply Hc].
Qed.

(** No violations: every step up has none, and the walk comes to a type that extends no other. *)
Lemma narrowing_loop_sound fuel : ∀ visited def, narrowing_loop peer fuel visited def s t = Some [] →
  (∀ above, ancestor def above → well_formed_type above) → well_formed_type def →
  ∀ above field v, ancestor def above → field_accepts def field v → field_accepts above field v.
Proof.
  induction fuel as [|fuel IH]; intros visited def Hl Hwa Hw above field v Ha Hd; cbn [narrowing_loop] in Hl.
  - destruct (extends_name def) eqn:Ee; [done|]. inversion Ha; congruence.
  - destruct (extends_name def) as [name|] eqn:Ee; [|inversion Ha; congruence]. case_bool_decide; [done|].
    destruct (resolve_type peer name s t) as [parent|] eqn:Er; [|done].
    destruct (narrowing_loop peer fuel (name :: visited) parent s t) as [rest|] eqn:El; [|done]. cbn [mbind option_bind] in Hl.
    injection Hl as [Hstep ->]%app_eq_nil.
    assert (Hp : ancestor def parent) by (by eapply anc_parent).
    assert (Hup : field_accepts parent field v) by (by eapply verify_step_sound; [..|exact Hd]; auto).
    inversion Ha as [? name' parent' Hn Hr|? name' parent' ? Hn Hr Hrest]; subst;
      rewrite Ee in Hn; injection Hn as <-; rewrite Er in Hr; injection Hr as <-; [done|].
    eapply IH; [exact El| |by apply Hwa|exact Hrest|exact Hup]. intros above' Ha'. apply Hwa. by eapply anc_above.
Qed.

(** The names that can still be visited *)
Lemma narrowing_loop_ends names fuel : ∀ visited def,
  (∀ n, is_Some (resolve_type peer n s t) → n ∈ names) → (length (filter (λ n, n ∉ visited) names) < fuel)%nat →
  is_Some (narrowing_loop peer fuel visited def s t).
Proof.
  induction fuel as [|fuel IH]; intros visited def Hn Hf; [lia|]. cbn [narrowing_loop].
  destruct (extends_name def) as [name|]; [|by eexists]. case_bool_decide as Hv; [by eexists|].
  destruct (resolve_type peer name s t) as [parent|] eqn:Er; [|by eexists].
  destruct (IH (name :: visited) parent Hn) as [rest Hr]; [|rewrite Hr; by eexists].
  assert (Hin : name ∈ names) by (apply Hn; by rewrite Er).
  apply (Nat.lt_le_trans _ (length (filter (λ n, n ∉ visited) names))); [|lia]. clear -Hin Hv.
  assert (Hle : ∀ l : list (list Z), (length (filter (λ n, n ∉ name :: visited) l) ≤ length (filter (λ n, n ∉ visited) l))%nat).
  { induction l as [|x l IHl]; [done|]. rewrite !filter_cons. case_decide as H1; case_decide as H2; cbn [length]; try lia.
    exfalso. apply H1. by right. }
  apply list_elem_of_split in Hin as (l1 & l2 & ->). rewrite !filter_app, !length_app, !filter_cons.
  rewrite decide_False by (intros Hx; apply Hx; by left). rewrite decide_True by done. cbn [length].
  pose proof (Hle l1). pose proof (Hle l2). lia.
Qed.
End chain.

(** * Validation over the standard constraints *)

Section validation.
Context `{HR : Regex} `{HB : Base58} `{HD : DisplayF64} `{HS : Sha2} `{!Sha2Ok} `{HC : Ciborium} `{!CiboriumDecodes}.
Context {St : Type} `{HT : ContentStore St} {L : Type} `{HL : LocationIndex L} (home : Z) (peer : list Z) (tree_access : bool) (s : St) (t : L).
Hypothesis Hhome : digest_len_for_format home ≠ None.

(** An execute function that brings what is below [system/type/constraint] to the standard handler. *)
Definition reaches_standard (execute : list Z → list Z → Entity → Code (list Z) St L HandlerResult) : Prop :=
  ∀ kind req, starts_with kind (lit "system/type/constraint/") = true →
    ∃ ctx, hc_operation ctx = lit "validate" ∧ hc_params ctx = req
      ∧ execute kind (lit "validate") req s t
        = match constraint_handle home peer tree_access ctx s t with
          | Done (Ok reply) s t => Done (Ok (answer_of home reply)) s t
          | Done (Err _) s t => Done (Err []) s t
          | Stuck => Stuck
          end.

(** The verdict on a value, as it is sent, of a constraint. *)
Definition judged (value c : Value) (r : ConstraintResult) : Prop :=
  ∃ kind d, decode_constraint c = Some (kind, d) ∧ starts_with kind (lit "system/type/constraint/") = true
    ∧ good 100 (validate_request_value value kind d) ∧ good 100 (constraint_result_value r)
    ∧ evaluate peer tree_access (mkConstraintRequest (ecf_norm value) kind (ecf_norm d)) s t = Some r.

Definition judgeable (value c : Value) : Prop := decode_constraint c = None ∨ ∃ r, judged value c r.

Lemma dispatch_judged execute value c kind d r :
  reaches_standard execute → decode_constraint c = Some (kind, d) → judged value c r →
  dispatch_constraint home (Some execute) value kind d s t
  = Done (Ok (if valid r then Valid else Invalid (default [] (reason r)))) s t.
Proof.
  intros Hex Hdc (kind' & d' & Hdc' & Hk & [Hreq Hdep] & [Hres Hdepr] & Hev). rewrite Hdc in Hdc'. injection Hdc' as <- <-.
  unfold dispatch_constraint.
  destruct (entity_new_encoded home TYPE_CONSTRAINT_VALIDATE_REQ (validate_request_value value kind d) Hhome) as (req & -> & _ & Hd & _); [done..|].
  destruct (Hex kind req Hk) as (ctx & Hop & Hp & ->). unfold constraint_handle. rewrite Hop, bool_decide_eq_true_2, Hp by done. cbn [negb].
  assert (Hread : constraint_request req = Some (mkConstraintRequest (ecf_norm value) kind (ecf_norm d))).
  { unfold constraint_request. rewrite Hd, <- (app_nil_r (to_ecf _)), from_reader_ecf by (done || unfold ciborium_recursion_limit; lia). reflexivity. }
  rewrite Hread. unfold andthen, unwraps. rewrite Hev.
  destruct (entity_new_encoded home TYPE_CONSTRAINT_VALIDATE_RES (constraint_result_value r) Hhome) as (res & -> & _ & Hdr & _); [done..|].
  unfold returns. cbn [answer_of handler_ok status result_entity Z.eqb STATUS_OK Pos.eqb negb].
  unfold parse_dispatch_result. rewrite Hdr, <- (app_nil_r (to_ecf _)), from_reader_ecf by (done || unfold ciborium_recursion_limit; lia).
  by destruct r as [[] [x|]].
Qed.

(** A value, as it is sent, passes a constraint. *)
Definition passes (value c : Value) : Prop :=
  match decode_constraint c with
  | None => True
  | Some (kind, d) => ∃ r, evaluate peer tree_access (mkConstraintRequest (ecf_norm value) kind (ecf_norm d)) s t = Some r ∧ valid r = true
  end.

(** What a type says of a field of some data: a required one is there, one that is there passes. *)
Definition field_conforms (fields : list (Value * Value)) (entry : Value * Value) : Prop :=
  ∀ name, as_str entry.1 = Some name →
    match field_named name fields with
    | None => is_optional entry.2 = true
    | Some value => ∀ c, c ∈ constraints_of entry.2 → passes value c
    end.

(** Every verdict that a validation asks for is one. *)
Definition field_judgeable (fields : list (Value * Value)) (entry : Value * Value) : Prop :=
  ∀ name value c, as_str entry.1 = Some name → field_named name fields = Some value → c ∈ constraints_of entry.2 → judgeable value c.

Lemma violations_inner_there vs : is_Some (mapO (violation_inner home) vs).
Proof.
  induction vs as [|v vs [l Hl]]; [by eexists|]. cbn [mapO]. rewrite Hl. unfold violation_inner, violation_entity.
  destruct (entity_new_encoded home TYPE_VIOLATION (violation_value v) Hhome) as (x & -> & _); [done..|]. by eexists.
Qed.

(** A run that reads, and adds violations just when this does not hold. *)
Definition reports (m : Code HandlerError St L (list Violation)) (acc : list Violation) (P : Prop) : Prop :=
  ∃ vs, m s t = Done (Ok (acc ++ vs)) s t ∧ (vs = [] ↔ P).

Lemma reports_fold {A} (f : list Violation → A → Code HandlerError St L (list Violation)) (P : A → Prop) l :
  (∀ acc x, x ∈ l → reports (f acc x) acc (P x)) → ∀ acc, reports (fold_run f acc l) acc (∀ x, x ∈ l → P x).
Proof.
  induction l as [|x l IH]; intros Hf acc.
  { exists []. rewrite app_nil_r. split; [done|]. split; [|done]. by intros _ x ?%elem_of_nil. }
  destruct (Hf acc x ltac:(by left)) as (vs & Er & Hvs). destruct (IH ltac:(intros; apply Hf; by right) (acc ++ vs)) as (vs' & Er' & Hvs').
  exists (vs ++ vs'). cbn [fold_run]. erewrite andthen_run by exact Er. rewrite app_assoc. split; [done|]. split.
  - intros [-> ->]%app_eq_nil y [->|Hy]%elem_of_cons; [by apply Hvs|by apply Hvs'].
  - intros Hall. rewrite (proj2 Hvs), (proj2 Hvs'); [done|..]; [intros; apply Hall; by right|apply Hall; by left].
Qed.

Lemma validate_constraint_reports execute field value acc c :
  reaches_standard execute → judgeable value c →
  reports (validate_constraint home (Some execute) field value acc c) acc (passes value c).
Proof.
  intros Hex Hj. unfold validate_constraint, passes. destruct (decode_constraint c) as [[kind d]|] eqn:Ed; cycle 1.
  { exists []. rewrite app_nil_r. by split. }
  destruct Hj as [?|[r Hj]]; [congruence|]. exists (outcome_violation field kind (if valid r then Valid else Invalid (default [] (reason r)))).
  split; [by erewrite andthen_run by (by eapply dispatch_judged)|].
  destruct Hj as (kind' & d' & Hd & _ & _ & _ & Hev). rewrite Ed in Hd. injection Hd as <- <-. rewrite Hev. destruct (valid r) eqn:Ev; cbn.
  - split; [|done]. intros _. by exists r.
  - split; [done|]. intros (r' & [= <-] & Hv). congruence.
Qed.

Lemma validate_field_reports execute fields acc entry :
  reaches_standard execute → field_judgeable fields entry →
  reports (validate_field home (Some execute) fields acc entry) acc (field_conforms fields entry).
Proof.
  intros Hex Hj. unfold validate_field, field_conforms. destruct (as_str entry.1) as [name|] eqn:En; cycle 1.
  { exists []. rewrite app_nil_r. by split. }
  destruct (field_named name fields) as [value|] eqn:Ef.
  - destruct (reports_fold (validate_constraint home (Some execute) name value) (passes value) (constraints_of entry.2)
      ltac:(intros; apply validate_constraint_reports; [done|by eapply Hj]) acc) as (vs & Er & Hvs).
    exists vs. split; [done|]. rewrite Hvs. split; [|intros Hn; specialize (Hn name eq_refl); by rewrite Ef in Hn].
    intros Hp name' [= <-]. by rewrite Ef.
  - destruct (is_optional entry.2) eqn:Eo.
    + exists []. rewrite app_nil_r. split; [done|]. split; [|done]. intros _ name' [= <-]. by rewrite Ef.
    + eexists. split; [done|]. split; [done|]. intros Hn. specialize (Hn name eq_refl). rewrite Ef in Hn. congruence.
Qed.

Lemma violations_of_reports execute fuel ty entity_data type_def nvs :
  reaches_standard execute → (∀ entry, entry ∈ default [] (fields_map type_def) → field_judgeable (default [] (as_map entity_data)) entry) →
  (ty = lit "system/type" → verify_narrowing peer fuel entity_data s t = Some nvs) →
  reports (violations_of home peer (Some execute) fuel ty entity_data type_def) []
    ((∀ entry, entry ∈ default [] (fields_map type_def) → field_conforms (default [] (as_map entity_data)) entry)
     ∧ (ty = lit "system/type" → nvs = [])).
Proof.
  intros Hex Hj Hn.
  destruct (reports_fold (validate_field home (Some execute) (default [] (as_map entity_data))) (field_conforms (default [] (as_map entity_data)))
    (default [] (fields_map type_def)) ltac:(intros; apply validate_field_reports; [done|by apply Hj]) []) as (vs & Er & Hvs).
  unfold violations_of, reports. erewrite andthen_run by exact Er. case_bool_decide as Hty.
  - exists (vs ++ map narrowing_violation nvs). erewrite andthen_run by (unfold unwraps; by rewrite Hn). split; [done|].
    rewrite <- Hvs. split; [intros [-> Hm]%app_eq_nil; split; [done|]; intros _; by destruct nvs|]. intros [-> Hnil]. by rewrite Hnil.
  - exists vs. erewrite andthen_run by done. unfold returns. cbn [app map]. rewrite app_nil_r. split; [done|].
    rewrite <- Hvs. split; [by intros ->|by intros [-> _]].
Qed.
End validation.

(** * Properties *)

(** C11. Narrowing is sound for well-formed types: when a type is found to narrow all it extends,
    and every constraint of the type and of each of its ancestors is well formed ([well_formed]: its
    type and data are there once, a not-one-of has an array of values, a pattern and a type-pattern
    a text), a value that passes what the type says of a field passes what each of its ancestors
    says of that field.  [missing_values_narrowed] is a constraint that is not well formed, for
    which this fails. *)
Theorem narrowing_sound `{HR : Regex} `{HB : Base58} `{HD : DisplayF64} `{HS : Sha2} `{HC : Ciborium}
    {St : Type} `{HT : ContentStore St} {L : Type} `{HL : LocationIndex L} (peer : list Z) (tree_access : bool) fuel def (s : St) (t : L) :
  verify_narrowing peer fuel def s t = Some [] →
  well_formed_type def → (∀ above, ancestor peer s t def above → well_formed_type above) →
  ∀ above field value, ancestor peer s t def above →
    field_accepts peer tree_access s t def field value → field_accepts peer tree_access s t above field value.
Proof. intros Hv Hw Hwa above field value. by eapply narrowing_loop_sound. Qed.

(** C31. The walk to the types a type extends ends, cycles among them or not: it visits no name
    twice, so that one step for each name that resolves, and one more, are enough. *)
Theorem narrowing_ends `{HD : DisplayF64} `{HC : Ciborium}
    {St : Type} `{HT : ContentStore St} {L : Type} `{HL : LocationIndex L} (peer : list Z) names fuel def (s : St) (t : L) :
  (∀ name, is_Some (resolve_type peer name s t) → name ∈ names) → (length names < fuel)%nat →
  is_Some (verify_narrowing peer fuel def s t).
Proof.
  intros Hn Hf. apply (narrowing_loop_ends peer s t names); [done|]. eapply Nat.le_lt_trans; [|exact Hf]. apply length_filter.
Qed.

(** C23. A validation over the standard constraints answers that an entity is valid just when it
    conforms: its type resolves, every required field is there, each value that is there passes
    each constraint of its field, and a type narrows those it extends. *)
Theorem validate_exact `{HR : Regex} `{HB : Base58} `{HD : DisplayF64} `{HS : Sha2} `{!Sha2Ok} `{HC : Ciborium} `{!CiboriumDecodes}
    {St : Type} `{HT : ContentStore St} {L : Type} `{HL : LocationIndex L} (home : Z) (peer : list Z) (tree_access : bool)
    execute fuel ctx params entity_v override ty nvs (s : St) (t : L) :
  digest_len_for_format home ≠ None → reaches_standard home peer tree_access s t execute →
  from_reader (data (hc_params ctx)) = Some params → parse_validate_request params = Some (entity_v, override) →
  text_field entity_v "type" = Some ty →
  let entity_data := default (VMap []) (value_get entity_v (lit "data")) in
  let fields := default [] (as_map entity_data) in
  (∀ def entry, resolve_type peer (default ty override) s t = Some def → entry ∈ default [] (fields_map def) →
     field_judgeable peer tree_access s t fields entry) →
  (ty = lit "system/type" → verify_narrowing peer fuel entity_data s t = Some nvs) →
  ∃ vs e, handle_validate home peer (Some execute) fuel ctx s t = Done (Ok (Answered (handler_ok e))) s t
    ∧ validation_entity home (mkValidation (bool_decide (vs = [])) vs []) = Some e
    ∧ (vs = [] ↔ ∃ def, resolve_type peer (default ty override) s t = Some def
        ∧ (∀ entry, entry ∈ default [] (fields_map def) → field_conforms peer tree_access s t fields entry)
        ∧ (ty = lit "system/type" → nvs = [])).
Proof.
  intros Hhome Hex Hp Hr Hty entity_data fields Hj Hn.
  assert (Hanswer : ∀ vs, ∃ e, answer_validation home vs s t = Done (Ok (Answered (handler_ok e))) s t
    ∧ validation_entity home (mkValidation (bool_decide (vs = [])) vs []) = Some e).
  { intros vs. unfold answer_validation. destruct (validation_entity home _) as [e|] eqn:Ee; [by exists e|]. exfalso. revert Ee.
    unfold validation_entity. cbn [violations]. assert (Hin : is_Some (mapO (violation_inner home) vs)).
    { by apply violations_inner_there. }
    destruct Hin as [l ->]. cbn [mbind option_bind]. match goal with |- context [to_ecf ?v] => set (w := v) end.
    by destruct (entity_new_encoded home TYPE_VALIDATE_RES w Hhome) as (x & -> & _); [done..|]. }
  unfold handle_validate. rewrite Hp, Hr, Hty. cbv zeta. unfold andthen at 1, asks at 1.
  destruct (resolve_type peer (default ty override) s t) as [def|] eqn:Ed; cycle 1.
  { edestruct Hanswer as (e & He & Hv). eexists _, e. split; [exact He|]. split; [exact Hv|]. split; [done|]. by intros (? & ? & _). }
  destruct (violations_of_reports home peer tree_access s t Hhome execute fuel ty entity_data def nvs Hex) as (vs & Er & Hvs);
    [intros entry He; by apply (Hj def)|done|].
  destruct (Hanswer vs) as (e & He & Hv). exists vs, e. split_and!; [by erewrite andthen_run by exact Er|done|].
  rewrite Hvs. split; [intros ?; by exists def|]. by intros (? & [= <-] & ?).
Qed.

(** * Concrete runs *)

Section demo.
#[local] Existing Instances sum_sha2 sum_sha2_ok ref_ciborium ref_ciborium_decodes plain_base58.

(** Every text is a pattern and matches itself; a float prints as nothing. *)
#[local] Instance plain_regex : Regex := λ p, Some (λ s, bool_decide (s = p)).
#[local] Instance blank_display : DisplayF64 := λ _, [].

Definition bound (kind key : string) (n : Z) : Value :=
  VMap [(text (lit "type"), text (lit "system/type/constraint/" ++ lit kind)); (text (lit "data"), VMap [(text (lit key), VInteger n)])].

Definition type_value (name : string) (parent : option string) (cs : list Value) : Value :=
  VMap ([(text (lit "name"), text (lit name)); (text (lit "fields"), VMap [(text (lit "n"), VMap [(text (lit "constraints"), VArray cs)])])]
        ++ match parent with Some p => [(text (lit "extends"), text (lit p))] | None => [] end).

Definition type_entity (v : Value) : Entity :=
  match entity_new 0 (lit "system/type") (to_ecf v) with Ok e => e | Err _ => mkEntity [] [] hash_zero end.

Definition base_type : Value := type_value "base" None [bound "min" "min" 0; bound "max" "max" 100].
Definition small_type : Value := type_value "small" (Some "base") [bound "max" "max" 10; bound "min" "min" 5].

Definition type_store : ContentMap := Eval vm_compute in
  foldl (λ s e, (content_put s e).2) [] [type_entity base_type; type_entity small_type].
Definition type_tree : PathMap := Eval vm_compute in
  [(type_path (lit "peer") (lit "base"), content_hash (type_entity base_type));
   (type_path (lit "peer") (lit "small"), content_hash (type_entity small_type))].

(** The types as they are read. *)
Definition base_read : Value := Eval vm_compute in default VNull (resolve_type (lit "peer") (lit "base") type_store type_tree).
Definition small_read : Value := Eval vm_compute in default VNull (resolve_type (lit "peer") (lit "small") type_store type_tree).

Lemma small_ancestor above : ancestor (lit "peer") type_store type_tree small_read above → above = base_read.
Proof.
  assert (He : extends_name small_read = Some (lit "base")) by (vm_compute; reflexivity).
  assert (Hr : resolve_type (lit "peer") (lit "base") type_store type_tree = Some base_read) by (vm_compute; reflexivity).
  assert (Hb : extends_name base_read = None) by (vm_compute; reflexivity).
  inversion 1 as [? ? ? Hn Hp|? ? ? ? Hn Hp Hup]; subst; rewrite He in Hn; injection Hn as <-; rewrite Hr in Hp; injection Hp as <-; [done|].
  inversion Hup; congruence.
Qed.

(** What the field [n] of a type with one field says. *)
Lemma one_field v k spec cs (P : Value → Prop) field :
  fields_map v = Some [(k, spec)] → constraints_of spec = cs → Forall P cs → ∀ c, in_field v field c → P c.
Proof.
  intros Hf Hc Hall c (k' & spec' & Hin & _ & Hci). rewrite Hf in Hin. apply list_elem_of_singleton in Hin. injection Hin as -> ->.
  rewrite Hc in Hci. by eapply Forall_forall in Hall.
Qed.

Lemma narrowing_sound_witness :
  verify_narrowing (lit "peer") 3 small_read type_store type_tree = Some []
  ∧ field_accepts (lit "peer") true type_store type_tree base_read (lit "n") (VInteger 7).
Proof.
  assert (Hv : verify_narrowing (lit "peer") 3 small_read type_store type_tree = Some []) by (vm_compute; reflexivity). split; [exact Hv|].
  assert (Hwf : ∀ v, v = base_read ∨ v = small_read → well_formed_type v).
  { intros v [-> | ->] field; (eapply one_field; [vm_compute; reflexivity|vm_compute; reflexivity|]);
      repeat (apply Forall_cons_2; [split_and!; [vm_compute; reflexivity|vm_compute; reflexivity|discriminate|left; discriminate|left; split; discriminate]|]); apply Forall_nil_2. }
  apply (narrowing_sound (lit "peer") true 3 small_read type_store type_tree Hv).
  - apply Hwf. by right.
  - intros above Ha. apply Hwf. left. by apply small_ancestor.
  - apply (anc_parent (lit "peer") type_store type_tree small_read (lit "base") base_read); vm_compute; reflexivity.
  - intros c. revert c. eapply one_field; [vm_compute; reflexivity|vm_compute; reflexivity|].
    repeat (apply Forall_cons_2; [exists valid_result; split; [vm_compute; reflexivity|reflexivity]|]). apply Forall_nil_2.
Defined.

(** A type that extends itself, through another. *)
Definition loop_type : Value := type_value "loop" (Some "back") [].
Definition back_type : Value := type_value "back" (Some "loop") [].
Definition loop_store : ContentMap := Eval vm_compute in foldl (λ s e, (content_put s e).2) [] [type_entity loop_type; type_entity back_type].
Definition loop_tree : PathMap := Eval vm_compute in
  [(type_path (lit "peer") (lit "back"), content_hash (type_entity back_type));
   (type_path (lit "peer") (lit "loop"), content_hash (type_entity loop_type))].

Lemma narrowing_ends_witness :
  (length [lit "back"; lit "loop"] < 3)%nat ∧ is_Some (verify_narrowing (lit "peer") 3 loop_type loop_store loop_tree)
  ∧ verify_narrowing (lit "peer") 3 loop_type loop_store loop_tree = Some [mkNarrowing [] [] (lit "extends cycle detected at loop")].
Proof.
  split; [cbn; lia|]. split; [|vm_compute; reflexivity].
  apply (narrowing_ends (lit "peer") [lit "back"; lit "loop"]); [|cbn; lia].
  intros name [v Hv]. revert Hv. unfold resolve_type, type_at. destruct (li_get (type_path (lit "peer") name) loop_tree) as [h|] eqn:Eg; [intros _|done].
  apply bt_get_elem in Eg; [|apply (bool_decide_eq_true_1 _); vm_compute; reflexivity].
  apply elem_of_cons in Eg as [Hn|Eg]; [|apply elem_of_cons in Eg as [Hn|Eg]; [|by apply elem_of_nil in Eg]]; injection Hn as Hn _.
  - rewrite Hn. apply (bool_decide_eq_true_1 _). vm_compute. reflexivity.
  - rewrite Hn. apply (bool_decide_eq_true_1 _). vm_compute. reflexivity.
Defined.

(** An entity of the narrower type, with the standard handler behind the execute function. *)
Definition type_ctx (op : string) (params : Entity) : HandlerContext :=
  mkHandlerContext None None (mkEntity [] [] hash_zero) params (lit "/peer/system/type") [] None None None (lit "r1") (lit op) ∅
    None None None None true false.

Definition standard_execute : list Z → list Z → Entity → Code (list Z) ContentMap PathMap HandlerResult :=
  λ _ _ req s t,
    match constraint_handle 0 (lit "peer") true (type_ctx "validate" req) s t with
    | Done (Ok reply) s t => Done (Ok (answer_of 0 reply)) s t
    | Done (Err _) s t => Done (Err []) s t
    | Stuck => Stuck
    end.

Definition small_entity : Value := VMap [(text (lit "type"), text (lit "small")); (text (lit "data"), VMap [(text (lit "n"), VInteger 7)])].

Definition validate_ctx : HandlerContext := Eval vm_compute in
  type_ctx "validate" (mkEntity (lit "params") (to_ecf (VMap [(text (lit "entity"), small_entity)])) hash_zero).
Definition validate_params : Value := Eval vm_compute in default VNull (from_reader (data (hc_params validate_ctx))).
Definition validate_entity : Value := Eval vm_compute in default VNull (value_get validate_params (lit "entity")).

Lemma small_judgeable entry : entry ∈ default [] (fields_map small_read) →
  field_judgeable (lit "peer") true type_store type_tree [(text (lit "n"), VInteger 7)] entry.
Proof.
  intros He name value c Hn Hf Hc.
  assert (Hin : in_field small_read name c) by (destruct entry as [k spec]; by exists k, spec).
  assert (Hv : value = VInteger 7).
  { cbn [field_named get_entry text] in Hf. case_decide; [by injection Hf as <-|done]. }
  subst value. right. exists valid_result. clear Hc. revert c Hin. eapply one_field; [vm_compute; reflexivity|vm_compute; reflexivity|].
  repeat (apply Forall_cons_2; [match goal with |- judged _ _ _ _ _ ?c _ => exists (constraint_type_of c), (constraint_data_of c) end;
    split_and!; [vm_compute; reflexivity|vm_compute; reflexivity|split; [vm_compute; reflexivity|apply Nat.leb_le; vm_compute; reflexivity]|
      split; [vm_compute; reflexivity|apply Nat.leb_le; vm_compute; reflexivity]|vm_compute; reflexivity]|]). apply Forall_nil_2.
Qed.

Lemma validate_exact_witness :
  ∃ vs e, handle_validate 0 (lit "peer") (Some standard_execute) 3 validate_ctx type_store type_tree
      = Done (Ok (Answered (handler_ok e))) type_store type_tree
    ∧ validation_entity 0 (mkValidation (bool_decide (vs = [])) vs []) = Some e
    ∧ (vs = [] ↔ ∃ def, resolve_type (lit "peer") (lit "small") type_store type_tree = Some def
        ∧ (∀ entry, entry ∈ default [] (fields_map def) →
             field_conforms (lit "peer") true type_store type_tree [(text (lit "n"), VInteger 7)] entry)
        ∧ (lit "small" = lit "system/type" → [] = ([] : list NarrowingViolation))).
Proof.
  apply (validate_exact 0 (lit "peer") true standard_execute 3 validate_ctx validate_params validate_entity None (lit "small") []).
  - discriminate.
  - intros kind req _. exists (type_ctx "validate" req). by split_and!.
  - vm_compute. reflexivity.
  - vm_compute. reflexivity.
  - vm_compute. reflexivity.
  - intros def entry Hd. assert (Hs : Some def = Some small_read) by (rewrite <- Hd; vm_compute; reflexivity). injection Hs as ->. apply small_judgeable.
  - discriminate.
Defined.

(** A text with a character across its tenth byte makes the date-time test panic. *)
Lemma date_time_panics : utf8_valid (lit "202605289" ++ [0xC3; 0xA9] ++ lit "T00:00:00Z") = true
  ∧ validate_format (lit "202605289" ++ [0xC3; 0xA9] ++ lit "T00:00:00Z") (lit "date-time") = None.
Proof. split; vm_compute; reflexivity. Qed.

(** Integers are compared as floats: one above the maximum passes it. *)
Lemma max_admits_greater :
  valid (eval_max (VInteger (2 ^ 53 + 1)) (VMap [(text (lit "max"), VInteger (2 ^ 53))])) = true.
Proof. vm_compute. reflexivity. Qed.

(** A child without a field that its parent requires narrows it. *)
Lemma required_field_dropped :
  let parent := VMap [(text (lit "fields"), VMap [(text (lit "n"), VMap [(text (lit "type_ref"), text (lit "primitive/uint"))])])] in
  verify_step (VMap [(text (lit "extends"), text (lit "p"))]) parent = []
  ∧ ∀ spec, spec_of (lit "n") (fields_of parent) = Some spec → is_optional spec = false.
Proof. split; [vm_compute; reflexivity|]. intros spec. vm_compute. by intros [= <-]. Qed.

(** A list of refused values that is missing refuses every value, and is narrowed by one that does not. *)
Lemma missing_values_narrowed :
  let parent := VMap [(text (lit "type"), text TYPE_CONSTRAINT_NOT_ONE_OF); (text (lit "data"), VMap [])] in
  let child := VMap [(text (lit "type"), text TYPE_CONSTRAINT_NOT_ONE_OF); (text (lit "data"), VMap [(text (lit "values"), VArray [])])] in
  check_narrower TYPE_CONSTRAINT_NOT_ONE_OF child parent = Ok tt
  ∧ valid (eval_one_of (VInteger 1) (constraint_data_of child) true) = true
  ∧ valid (eval_one_of (VInteger 1) (constraint_data_of parent) true) = false.
Proof. split_and!; vm_compute; reflexivity. Qed.
End demo.
