(* ===== verification/RevisionDag.v ===== *)
(** Revision history ([extensions/revision/src/dag.rs]).

    A version is an entity naming a trie root and the parent versions it was made from.  The
    operations walk the graph of parents breadth first over the interface [ContentStore]: a
    version that is missing or does not decode has no parents.  Nothing keeps that graph finite
    or free of cycles but the store, so the walks take fuel; [dag_fuel] counts the edges the
    store holds, and with that much no walk runs out. *)
From S2P Require Import Prelude BTree Ecf Cbor ContentHash Entity Store Trie.

Definition TYPE_REVISION_ENTRY : list Z := lit "system/revision/entry".

Record RevisionEntryData := mkRevision { root : Hash; parents : list Hash }.

#[export] Instance RevisionEntryData_eq_dec : EqDecision RevisionEntryData.
Proof. solve_decision. Defined.

(** * Wire form *)

(** An element of the array that is not the bytes of a hash is passed over. *)
Definition parent_item (item : Value) : option Hash :=
  b ← as_bytes item; ok (from_bytes b).

Definition revision_step (acc : option Hash * option (list Hash)) (kv : Value * Value)
    : option (option Hash * option (list Hash)) :=
  k ← as_str kv.1;
  if bool_decide (k = lit "root") then
    Some (match kv.2 with VBytes b => ok (from_bytes b) | _ => acc.1 end, acc.2)
  else if bool_decide (k = lit "parents") then
    Some (acc.1, match kv.2 with VArray arr => Some (omap parent_item arr) | _ => acc.2 end)
  else Some acc.

Definition decode_revision_entry `{Ciborium} (entity : Entity) : option RevisionEntryData :=
  val ← from_reader (data entity);
  m ← as_map val;
  '(r, ps) ← fold_opt revision_step (None, None) m;
  r ← r; ps ← ps;
  Some (mkRevision r ps).

(** The text of a key, empty for the keys that are not texts. *)
Definition key_text (kv : Value * Value) : list Z :=
  match kv.1 with VText s => s | _ => [] end.

(** Shorter keys first, keys of one length in byte order. *)
Definition field_order (x y : Value * Value) : comparison := shortlex (key_text x) (key_text y).

Definition revision_fields (d : RevisionEntryData) : list (Value * Value) :=
  [(text (lit "parents"), VArray (map (λ h, VBytes (to_bytes h)) (parents d)));
   (text (lit "root"), VBytes (to_bytes (root d)))].

Definition build_revision_entry `{Sha2} (home : Z) (d : RevisionEntryData) : result EntityError Entity :=
  entity_new home TYPE_REVISION_ENTRY (to_ecf (VMap (sort_by field_order (revision_fields d)))).

(** * Walks *)

Section dag.
Context `{Ciborium} {St : Type} `{ContentStore St} (store : St).

Definition entry_of (h : Hash) : option RevisionEntryData :=
  entity ← store_get h store; decode_revision_entry entity.

(** [if let Some(entity) .. if let Some(entry) .. for parent in &entry.parents] *)
Definition parents_of (h : Hash) : list Hash :=
  match entry_of h with Some entry => parents entry | None => [] end.

Fixpoint walk_loop (fuel limit : nat) (stop_at : option Hash) (result queue : list Hash) (visited : gset Hash)
    : option (list Hash) :=
  match fuel with
  | O => None
  | S fuel =>
      match queue with
      | [] => Some result
      | current :: queue =>
          if (limit <=? length result)%nat then Some result
          else if bool_decide (current ∈ visited) then walk_loop fuel limit stop_at result queue visited
          else
            let visited := {[current]} ∪ visited in
            if bool_decide (stop_at = Some current) then Some result
            else match entry_of current with
                 | None => walk_loop fuel limit stop_at result queue visited
                 | Some entry =>
                     walk_loop fuel limit stop_at (result ++ [current])
                       (queue ++ filter (λ p, p ∉ visited) (parents entry)) visited
                 end
      end
  end.

Definition walk_history (fuel : nat) (head : Hash) (limit : nat) (stop_at : option Hash) : option (list Hash) :=
  walk_loop fuel limit stop_at [] [head] ∅.

(** One turn of one side: it meets the other side, or grows. *)
Inductive Turn :=
  | Meets (h : Hash)
  | Grows (ancestors : gmap Hash nat) (queue : list (Hash * nat)).

Definition expand (mine theirs : gmap Hash nat) (queue : list (Hash * nat)) : Turn :=
  match queue with
  | [] => Grows mine []
  | (current, depth) :: queue =>
      if bool_decide (is_Some (theirs !! current)) then Meets current
      else if bool_decide (is_Some (mine !! current)) then Grows mine queue
      else Grows (<[current := depth]> mine)
                 (queue ++ map (λ parent, (parent, S depth)) (parents_of current))
  end.

Fixpoint ancestor_loop (fuel : nat) (ancestors_a ancestors_b : gmap Hash nat) (queue_a queue_b : list (Hash * nat))
    : option (option Hash) :=
  match fuel with
  | O => None
  | S fuel =>
      match queue_a, queue_b with
      | [], [] => Some None
      | _, _ =>
          match expand ancestors_a ancestors_b queue_a with
          | Meets h => Some (Some h)
          | Grows ancestors_a queue_a =>
              match expand ancestors_b ancestors_a queue_b with
              | Meets h => Some (Some h)
              | Grows ancestors_b queue_b => ancestor_loop fuel ancestors_a ancestors_b queue_a queue_b
              end
          end
      end
  end.

Definition find_common_ancestor (fuel : nat) (a b : Hash) : option (option Hash) :=
  ancestor_loop fuel ∅ ∅ [(a, 0%nat)] [(b, 0%nat)].

Fixpoint is_ancestor_loop (fuel : nat) (potential_ancestor : Hash) (visited : gset Hash) (queue : list Hash)
    : option bool :=
  match fuel with
  | O => None
  | S fuel =>
      match queue with
      | [] => Some false
      | current :: queue =>
          if bool_decide (current = potential_ancestor) then Some true
          else if bool_decide (current ∈ visited) then is_ancestor_loop fuel potential_ancestor visited queue
          else is_ancestor_loop fuel potential_ancestor ({[current]} ∪ visited) (queue ++ parents_of current)
      end
  end.

Definition is_ancestor (fuel : nat) (potential_ancestor descendant : Hash) : option bool :=
  is_ancestor_loop fuel potential_ancestor ∅ [descendant].

Inductive Relationship := InSync | Behind | Ahead | Diverged.

Definition relationship_as_str (r : Relationship) : list Z :=
  match r with
  | InSync => lit "in_sync"
  | Behind => lit "behind"
  | Ahead => lit "ahead"
  | Diverged => lit "diverged"
  end.

Definition check_relationship (fuel : nat) (local remote : Hash) : option Relationship :=
  if bool_decide (local = remote) then Some InSync
  else
    behind ← is_ancestor fuel local remote;
    if behind : bool then Some Behind
    else
      ahead ← is_ancestor fuel remote local;
      Some (if ahead : bool then Ahead else Diverged).

Definition same_identity (proposed_root : Hash) (proposed : list Hash) (version_hash : Hash) : bool :=
  match entry_of version_hash with
  | Some entry => bool_decide (root entry = proposed_root) && bool_decide (sorted_parents (parents entry) = proposed)
  | None => false
  end.

Definition detect_oscillation (fuel : nat) (proposed_root : Hash) (proposed_parents : list Hash) (head : Hash)
    (depth_limit : nat) : option bool :=
  let proposed := sorted_parents proposed_parents in
  versions ← walk_history fuel head depth_limit None;
  Some (existsb (same_identity proposed_root proposed) versions).
End dag.

(** * What the walks are to decide *)

(** A store holds finitely many entities. *)
Class StoreSupport (St : Type) `{ContentStore St} := {
  store_support : St → gset Hash;
  store_support_get : ∀ s h e, store_get h s = Some e → h ∈ store_support s;
}.

(** Parent versions, and the versions a version descends from, itself included. *)
Definition parent_of `{Ciborium} `{ContentStore St} (s : St) (h p : Hash) : Prop := p ∈ parents_of s h.
Definition descends `{Ciborium} `{ContentStore St} (s : St) : Hash → Hash → Prop := rtc (parent_of s).

(** The edges out of the stored versions that a walk has not been to. *)
Definition edges_left `{Ciborium} `{StoreSupport St} (s : St) (visited : gset Hash) : nat :=
  sum_list_with (λ h, length (parents_of s h)) (elements (store_support s ∖ visited)).

Definition dag_fuel `{Ciborium} `{StoreSupport St} (s : St) : nat := 3 + 2 * edges_left s ∅.

(** * Lemmas *)

Lemma bt_get_fst {K V} `{Ord K} (k : K) (v : V) m : bt_get k m = Some v → k ∈ map fst m.
Proof.
  induction m as [|[k' v'] m IH]; cbn [bt_get map fst]; [done|].
  destruct (cmp k k') eqn:E; [|done|].
  - apply cmp_eq in E as ->. intros _. by left.
  - intros Hk. right. by apply IH.
Qed.

#[export] Instance memory_support : StoreSupport ContentMap.
Proof.
  refine {| store_support m := list_to_set (map fst m) |}.
  intros m h e He. apply elem_of_list_to_set. by apply (bt_get_fst h e).
Defined.

#[export] Instance notifying_support hooks : @StoreSupport ContentWorld (notifying_store hooks).
Proof.
  refine {| store_support (w : ContentWorld) := list_to_set (map fst (entities w)) |}.
  intros w h e He. apply elem_of_list_to_set. by apply (bt_get_fst h e).
Defined.

Section walks.
Context `{HC : Ciborium} {St : Type} `{HT : ContentStore St} `{!StoreSupport St} (store : St).
Implicit Types (V : gset Hash).

(** ** Fuel *)

Lemma parents_of_support h : h ∉ store_support store → parents_of store h = [].
Proof.
  intros Hh. unfold parents_of, entry_of. destruct (store_get h store) as [e|] eqn:E; [|done].
  destruct Hh. by apply (store_support_get store h e).
Qed.

(** Visiting a version takes its parents out of the edges that are left. *)
Lemma edges_left_visit V h :
  h ∉ V → edges_left store V = (length (parents_of store h) + edges_left store ({[h]} ∪ V))%nat.
Proof.
  intros Hh. unfold edges_left. destruct (decide (h ∈ store_support store)) as [Hs|Hs].
  - assert (Heq : store_support store ∖ V = {[h]} ∪ store_support store ∖ ({[h]} ∪ V)).
    { apply set_eq. intros x. destruct (decide (x = h)); set_solver. }
    rewrite Heq, elements_union_singleton by set_solver. done.
  - rewrite parents_of_support by done. cbn [length Nat.add]. f_equal. f_equal. set_solver.
Qed.

(** ** The frontier of a walk

    Of a walk from [d] that has been to [V] and has [Q] before it: what descends from [d] has
    been visited or descends from something in the queue. *)

Definition frontier (d : Hash) V (Q : list Hash) : Prop :=
  (d ∈ V ∨ d ∈ Q) ∧ (∀ v p, v ∈ V → parent_of store v p → p ∈ V ∨ p ∈ Q)
  ∧ (∀ x, x ∈ V ∨ x ∈ Q → descends store d x).

Lemma frontier_start d : frontier d ∅ [d].
Proof.
  split_and!; [right; by left|set_solver|]. intros x [Hx|Hx%list_elem_of_singleton]; [set_solver|].
  subst. apply rtc_refl.
Qed.

Lemma frontier_skip d V c Q : c ∈ V → frontier d V (c :: Q) → frontier d V Q.
Proof.
  intros Hc (Hd & Hp & Hs). split_and!.
  - set_solver.
  - intros v p Hv Hvp. destruct (Hp v p Hv Hvp); set_solver.
  - intros x Hx. apply Hs. set_solver.
Qed.

Lemma frontier_visit d V c Q Q' :
  frontier d V (c :: Q) → (∀ p, parent_of store c p → p ∈ {[c]} ∪ V ∨ p ∈ Q') →
  (∀ p, p ∈ Q' → parent_of store c p) → frontier d ({[c]} ∪ V) (Q ++ Q').
Proof.
  intros (Hd & Hp & Hs) Hin Hout.
  assert (Hc : descends store d c) by (apply Hs; right; by left). split_and!.
  - set_solver.
  - intros v p Hv Hvp. apply elem_of_union in Hv as [Hv%elem_of_singleton|Hv].
    + subst v. destruct (Hin p Hvp); set_solver.
    + destruct (Hp v p Hv Hvp); set_solver.
  - intros x [[Hx%elem_of_singleton|Hx]%elem_of_union|[Hx|Hx]%elem_of_app].
    + by subst.
    + apply Hs. by left.
    + apply Hs. right. by right.
    + eapply rtc_r; [exact Hc|]. by apply Hout.
Qed.

Lemma frontier_expand d V c Q :
  frontier d V (c :: Q) → frontier d ({[c]} ∪ V) (Q ++ parents_of store c).
Proof. intros Hf. apply (frontier_visit d V c); [done|by right|done]. Qed.

Lemma frontier_covers d V Q x :
  frontier d V Q → descends store d x → x ∈ V ∨ ∃ q, q ∈ Q ∧ descends store q x.
Proof.
  intros (Hd & Hp & _). revert x. apply rtc_ind_r; [|intros x p Hx Hxp IH].
  - destruct Hd; [by left|right; exists d; split; [done|apply rtc_refl]].
  - destruct IH as [Hv|(q & Hq & Hqx)].
    + destruct (Hp x p Hv Hxp); [by left|right; exists p; split; [done|apply rtc_refl]].
    + right. exists q. split; [done|]. eapply rtc_r; done.
Qed.

(** ** Ancestry *)

Lemma is_ancestor_loop_spec anc d : ∀ fuel V Q,
  (length Q + edges_left store V < fuel)%nat → frontier d V Q → anc ∉ V →
  ∃ b, is_ancestor_loop store fuel anc V Q = Some b ∧ (b = true ↔ descends store d anc).
Proof.
  induction fuel as [|fuel IH]; intros V Q Hf HQ HV; [lia|]. cbn [is_ancestor_loop].
  destruct Q as [|c Q]; cbn [length] in Hf.
  - exists false. split; [done|]. split; [done|]. intros Hr.
    destruct (frontier_covers d V [] anc HQ Hr) as [?|(q & Hq & _)]; set_solver.
  - case_bool_decide as Hc; [|case_bool_decide as Hv].
    + subst c. exists true. split; [done|]. split; [|done]. intros _. apply HQ. right. by left.
    + apply IH; [lia| |done]. by apply (frontier_skip d V c).
    + apply IH; [|by apply frontier_expand|set_solver].
      rewrite (edges_left_visit V c) in Hf by done. rewrite length_app. lia.
Qed.

Lemma is_ancestor_exact fuel anc d :
  (dag_fuel store ≤ fuel)%nat →
  ∃ b, is_ancestor store fuel anc d = Some b ∧ (b = true ↔ descends store d anc).
Proof.
  intros Hf. apply is_ancestor_loop_spec; [unfold dag_fuel in Hf; cbn [length]; lia|apply frontier_start|set_solver].
Qed.

(** ** History *)

(** Every version but the head is listed after one of its children. *)
Definition child_first (head : Hash) (l : list Hash) : Prop :=
  ∀ l1 v l2, l = l1 ++ v :: l2 → v = head ∨ ∃ c, c ∈ l1 ∧ parent_of store c v.

Lemma child_first_snoc head l v :
  child_first head l → (v = head ∨ ∃ c, c ∈ l ∧ parent_of store c v) → child_first head (l ++ [v]).
Proof.
  intros Hl Hv l1 w l2 Heq. destruct l2 as [|y l2 _] using rev_ind.
  - apply app_inj_tail in Heq as [<- <-]. done.
  - rewrite app_comm_cons, app_assoc in Heq. apply app_inj_tail in Heq as [-> _]. by apply (Hl l1 w l2).
Qed.

Record walked (head : Hash) (limit : nat) (stop_at : option Hash) (R : list Hash) : Prop := {
  walked_NoDup : NoDup R;
  walked_limit : (length R ≤ limit)%nat;
  walked_entry : ∀ v, v ∈ R → is_Some (entry_of store v) ∧ stop_at ≠ Some v;
  walked_order : child_first head R;
}.

Record walking (head : Hash) (limit : nat) (stop_at : option Hash) (R Q : list Hash) V : Prop := {
  walking_list : walked head limit stop_at R;
  walking_frontier : frontier head V Q;
  walking_visited : ∀ v, v ∈ R → v ∈ V;
  walking_missing : ∀ v, v ∈ V → v ∈ R ∨ entry_of store v = None;
  walking_queue : ∀ q, q ∈ Q → q = head ∨ ∃ c, c ∈ R ∧ parent_of store c q;
}.

Lemma walking_skip head limit stop_at R c Q V :
  c ∈ V → walking head limit stop_at R (c :: Q) V → walking head limit stop_at R Q V.
Proof.
  intros Hc [HL HF HV HM HQ]. constructor; try done.
  - by apply (frontier_skip head V c).
  - intros q Hq. apply HQ. by right.
Qed.

Lemma walking_miss head limit stop_at R c Q V :
  entry_of store c = None → walking head limit stop_at R (c :: Q) V →
  walking head limit stop_at R Q ({[c]} ∪ V).
Proof.
  intros Hc [HL HF HV HM HQ]. constructor; try done.
  - apply frontier_expand in HF. unfold parents_of in HF. by rewrite Hc, app_nil_r in HF.
  - set_solver.
  - intros v [Hv%elem_of_singleton|Hv]%elem_of_union; [subst; by right|by apply HM].
  - intros q Hq. apply HQ. by right.
Qed.

Lemma walking_list_next head limit stop_at R c Q V entry :
  entry_of store c = Some entry → c ∉ V → stop_at ≠ Some c → (length R < limit)%nat →
  walking head limit stop_at R (c :: Q) V →
  walking head limit stop_at (R ++ [c]) (Q ++ filter (λ p, p ∉ {[c]} ∪ V) (parents entry)) ({[c]} ∪ V).
Proof.
  intros Hc Hv Hstop Hlim [[HN HL HE HO] HF HV HM HQ].
  assert (Hpar : ∀ p, parent_of store c p ↔ p ∈ parents entry) by (intros p; unfold parent_of, parents_of; by rewrite Hc).
  constructor; [constructor| | | |].
  - apply NoDup_app. split_and!; [done| |apply NoDup_singleton]. intros x Hx%HV Hx'%list_elem_of_singleton. by subst.
  - rewrite length_app. cbn [length]. lia.
  - intros v [Hx|Hx%list_elem_of_singleton]%elem_of_app; [by apply HE|]. subst v. by rewrite Hc.
  - apply child_first_snoc; [done|]. apply HQ. by left.
  - apply (frontier_visit head V c); [done| |].
    + intros p Hp%Hpar. destruct (decide (p ∈ {[c]} ∪ V)); [by left|right]. by apply list_elem_of_filter.
    + intros p [_ Hp]%list_elem_of_filter. by apply Hpar.
  - intros v [Hx|Hx%list_elem_of_singleton]%elem_of_app; set_solver.
  - intros v [Hx%elem_of_singleton|Hx]%elem_of_union; [subst; left; set_solver|].
    destruct (HM v Hx); [left; set_solver|by right].
  - intros q [Hq|[_ Hq]%list_elem_of_filter]%elem_of_app.
    + destruct (HQ q ltac:(by right)) as [->|(d & Hd & Hdq)]; [by left|right]. exists d. set_solver.
    + right. exists c. split; [set_solver|]. by apply Hpar.
Qed.

Lemma walk_loop_spec head limit stop_at : ∀ fuel R Q V,
  (length Q + edges_left store V < fuel)%nat → walking head limit stop_at R Q V →
  ∃ R', walk_loop store fuel limit stop_at R Q V = Some R' ∧ walked head limit stop_at R'
    ∧ (∀ v, v ∈ R' → descends store head v)
    ∧ ((length R' < limit)%nat → (∀ v, stop_at = Some v → ¬ descends store head v) →
       ∀ v, descends store head v → is_Some (entry_of store v) → v ∈ R').
Proof.
  induction fuel as [|fuel IH]; intros R Q V Hf HW; [lia|]. cbn [walk_loop].
  assert (Hdesc : ∀ v, v ∈ R → descends store head v).
  { intros v Hv. apply (walking_frontier _ _ _ _ _ _ HW). left. by apply (walking_visited _ _ _ _ _ _ HW). }
  destruct Q as [|c Q]; cbn [length] in Hf.
  - exists R. split_and!; [done|apply HW|done|]. intros _ _ v Hv [e He].
    destruct (frontier_covers head V [] v (walking_frontier _ _ _ _ _ _ HW) Hv) as [Hx|(q & Hq & _)]; [|set_solver].
    destruct (walking_missing _ _ _ _ _ _ HW v Hx); congruence.
  - case_match eqn:El.
    { exists R. split_and!; [done|apply HW|done|]. apply Nat.leb_le in El. lia. }
    apply Nat.leb_gt in El. case_bool_decide as Hv.
    { apply IH; [lia|]. by apply (walking_skip _ _ _ _ c). }
    case_bool_decide as Hs.
    { exists R. split_and!; [done|apply HW|done|]. intros _ Hno. destruct (Hno c Hs).
      apply (walking_frontier _ _ _ _ _ _ HW). right. by left. }
    rewrite (edges_left_visit V c) in Hf by done. unfold parents_of in Hf.
    destruct (entry_of store c) as [entry|] eqn:Ee.
    + apply IH; [|by apply walking_list_next].
      rewrite length_app. pose proof (length_filter (λ p, p ∉ {[c]} ∪ V) (parents entry)). lia.
    + apply IH; [cbn [length] in Hf; lia|by apply walking_miss].
Qed.

Lemma walk_history_spec fuel head limit stop_at :
  (dag_fuel store ≤ fuel)%nat →
  ∃ R, walk_history store fuel head limit stop_at = Some R ∧ walked head limit stop_at R
    ∧ (∀ v, v ∈ R → descends store head v)
    ∧ ((length R < limit)%nat → (∀ v, stop_at = Some v → ¬ descends store head v) →
       ∀ v, descends store head v → is_Some (entry_of store v) → v ∈ R).
Proof.
  intros Hf. apply walk_loop_spec; [unfold dag_fuel in Hf; cbn [length]; lia|]. constructor; [constructor| | | |].
  - constructor.
  - cbn. lia.
  - set_solver.
  - intros [|x l1] v l2; discriminate.
  - apply frontier_start.
  - set_solver.
  - set_solver.
  - intros q Hq%list_elem_of_singleton. by left.
Qed.

(** ** Common ancestors *)

Definition common_ancestor (a b x : Hash) : Prop := descends store a x ∧ descends store b x.

(** Nothing was merged: a version has one parent or none. *)
Definition linear_history : Prop := ∀ h, (length (parents_of store h) ≤ 1)%nat.

(** One side of the search: its frontier, and, in a linear history, that what the side has not
    been to lies below everything it has. *)
Record side (d : Hash) (mine : gmap Hash nat) (Q : list (Hash * nat)) : Prop := {
  side_frontier : frontier d (dom mine) (map fst Q);
  side_queue : linear_history → (length Q ≤ 1)%nat;
  side_below : linear_history → ∀ v x, is_Some (mine !! v) → descends store d x → is_Some (mine !! x) ∨ descends store v x;
}.

Definition left_to_do (mine : gmap Hash nat) (Q : list (Hash * nat)) : nat := length Q + edges_left store (dom mine).

Lemma side_start d : side d ∅ [(d, 0%nat)].
Proof.
  constructor; cbn [map fst].
  - rewrite dom_empty_L. apply frontier_start.
  - cbn. lia.
  - intros _ v x [n Hn]. by rewrite lookup_empty in Hn.
Qed.

Lemma side_covers d mine Q x :
  side d mine Q → descends store d x → is_Some (mine !! x) ∨ ∃ q, q ∈ map fst Q ∧ descends store q x.
Proof.
  intros HS Hx. destruct (frontier_covers d _ _ x (side_frontier _ _ _ HS) Hx) as [Hv|Hq]; [left|by right].
  by apply elem_of_dom.
Qed.

Lemma side_grow d mine c n Q :
  mine !! c = None → side d mine ((c, n) :: Q) →
  side d (<[c := n]> mine) (Q ++ map (λ p, (p, S n)) (parents_of store c)).
Proof.
  intros Hc [HF HQ HB]. constructor.
  - rewrite dom_insert_L, map_app, map_map. cbn [fst]. rewrite map_id. by apply frontier_expand.
  - intros Hl. specialize (HQ Hl). cbn [length] in HQ. rewrite length_app, length_map. specialize (Hl c). lia.
  - intros Hl v x Hv Hx. specialize (HQ Hl). destruct Q; [|cbn [length] in HQ; lia].
    assert (Hcov : is_Some (mine !! x) ∨ descends store c x).
    { destruct (frontier_covers d _ _ x HF Hx) as [Hm|(q & Hq%list_elem_of_singleton & Hqx)]; cbn [map fst] in *.
      - left. by apply elem_of_dom.
      - right. by subst. }
    destruct (decide (v = c)) as [->|Hne].
    + destruct Hcov as [Hm|Hd]; [left; by apply lookup_insert_is_Some'; right|by right].
    + rewrite lookup_insert_ne in Hv by congruence. destruct (HB Hl v x Hv Hx) as [Hm|Hd]; [left|by right].
      apply lookup_insert_is_Some'. by right.
Qed.

(** A turn: a meeting is with something the other side has been to, and growing keeps the
    sides apart and brings the end nearer. *)
Lemma expand_spec d mine theirs Q :
  side d mine Q → dom mine ## dom theirs →
  match expand store mine theirs Q with
  | Meets c => (∃ Q', map fst Q = c :: Q') ∧ is_Some (theirs !! c)
  | Grows mine' Q' => side d mine' Q' ∧ dom mine' ## dom theirs ∧ (left_to_do mine' Q' ≤ left_to_do mine Q)%nat
      ∧ (Q ≠ [] → (left_to_do mine' Q' < left_to_do mine Q)%nat)
  end.
Proof.
  intros HS Hd. destruct Q as [|[c n] Q]; cbn [expand]; [done|].
  case_bool_decide as Ht; [split; [by exists (map fst Q)|done]|]. unfold left_to_do.
  case_bool_decide as Hm.
  - destruct HS as [HF HQ HB]. split_and!; [constructor| |..]; try done.
    + apply (frontier_skip d _ c); [by apply elem_of_dom|done].
    + intros Hl. specialize (HQ Hl). cbn [length] in HQ. lia.
    + cbn [length]. lia.
    + cbn [length]. lia.
  - apply eq_None_not_Some in Hm. apply eq_None_not_Some in Ht.
    assert (Hlt : (length (Q ++ map (λ p, (p, S n)) (parents_of store c)) + edges_left store (dom (<[c:=n]> mine))
                   < length ((c, n) :: Q) + edges_left store (dom mine))%nat).
    { rewrite (edges_left_visit (dom mine) c) by by apply not_elem_of_dom.
      rewrite dom_insert_L, length_app, length_map. cbn [length]. lia. }
    split_and!; [by apply side_grow| |lia|done].
    rewrite dom_insert_L. apply not_elem_of_dom in Ht. set_solver.
Qed.

Definition ancestor_found (a b : Hash) (r : option Hash) : Prop :=
  match r with
  | Some c => common_ancestor a b c ∧ (linear_history → ∀ x, common_ancestor a b x → descends store c x)
  | None => ∀ x, ¬ common_ancestor a b x
  end.

Lemma ancestor_found_sym a b r : ancestor_found a b r → ancestor_found b a r.
Proof. unfold ancestor_found, common_ancestor. destruct r; naive_solver. Qed.

(** Where the sides meet. *)
Lemma meeting a b mine theirs Q Q' c L :
  side a mine Q → side b theirs Q' → dom mine ## dom theirs → map fst Q = c :: L → is_Some (theirs !! c) →
  ancestor_found a b (Some c).
Proof.
  intros HA HB Hd HQ Hc. split.
  - split.
    + apply (side_frontier _ _ _ HA). right. rewrite HQ. by left.
    + apply (side_frontier _ _ _ HB). left. by apply elem_of_dom.
  - intros Hl x [Hax Hbx].
    assert (HL : L = []).
    { pose proof (side_queue _ _ _ HA Hl) as Hle. apply (f_equal length) in HQ. rewrite length_map in HQ.
      destruct L; [done|cbn [length] in HQ; lia]. }
    destruct (side_covers a mine Q x HA Hax) as [Hm|(q & Hq & Hqx)].
    + destruct (side_below _ _ _ HB Hl c x Hc Hbx) as [Ht|?]; [|done].
      apply elem_of_dom in Hm, Ht. set_solver.
    + rewrite HQ, HL in Hq. apply list_elem_of_singleton in Hq. by subst.
Qed.

(** Both queues are empty: each side has been everywhere, and they are apart. *)
Lemma no_meeting a b mine theirs :
  side a mine [] → side b theirs [] → dom mine ## dom theirs → ancestor_found a b None.
Proof.
  intros HA HB Hd x [Hax Hbx].
  destruct (side_covers a mine [] x HA Hax) as [Hm|(q & Hq & _)]; [|by apply not_elem_of_nil in Hq].
  destruct (side_covers b theirs [] x HB Hbx) as [Ht|(q & Hq & _)]; [|by apply not_elem_of_nil in Hq].
  apply elem_of_dom in Hm, Ht. set_solver.
Qed.

Lemma ancestor_loop_spec a b : ∀ fuel mine theirs Qa Qb,
  (left_to_do mine Qa + left_to_do theirs Qb < fuel)%nat →
  side a mine Qa → side b theirs Qb → dom mine ## dom theirs →
  ∃ r, ancestor_loop store fuel mine theirs Qa Qb = Some r ∧ ancestor_found a b r.
Proof.
  induction fuel as [|fuel IH]; intros mine theirs Qa Qb Hf HA HB Hd; [lia|].
  assert (Hturns : Qa ≠ [] ∨ Qb ≠ [] →
    ∃ r, match expand store mine theirs Qa with
         | Meets h => Some (Some h)
         | Grows mine Qa => match expand store theirs mine Qb with
                            | Meets h => Some (Some h)
                            | Grows theirs Qb => ancestor_loop store fuel mine theirs Qa Qb
                            end
         end = Some r ∧ ancestor_found a b r).
  { intros Hne. pose proof (expand_spec a mine theirs Qa HA Hd) as H1.
    destruct (expand store mine theirs Qa) as [c|mine' Qa'].
    { destruct H1 as [[L HL] Hc]. exists (Some c). split; [done|]. by apply (meeting a b mine theirs Qa Qb c L). }
    destruct H1 as (HA' & Hd' & Hle & Hlt).
    pose proof (expand_spec b theirs mine' Qb HB (symmetry Hd')) as H2.
    destruct (expand store theirs mine' Qb) as [c|theirs' Qb'].
    { destruct H2 as [[L HL] Hc]. exists (Some c). split; [done|]. apply ancestor_found_sym.
      by apply (meeting b a theirs mine' Qb Qa' c L). }
    destruct H2 as (HB' & Hd'' & Hle' & Hlt'). apply IH; [|done|done|by symmetry].
    destruct Hne as [Hne|Hne]; [specialize (Hlt Hne)|specialize (Hlt' Hne)]; lia. }
  cbn [ancestor_loop]. destruct Qa as [|qa Qa], Qb as [|qb Qb]; [|by apply Hturns; auto..].
  exists None. split; [done|]. by apply (no_meeting a b mine theirs).
Qed.

Lemma find_common_ancestor_spec fuel a b :
  (dag_fuel store ≤ fuel)%nat → ∃ r, find_common_ancestor store fuel a b = Some r ∧ ancestor_found a b r.
Proof.
  intros Hf. apply ancestor_loop_spec; [|apply side_start..|rewrite dom_empty_L; set_solver].
  unfold left_to_do, dag_fuel in *. rewrite dom_empty_L. cbn [length]. lia.
Qed.
End walks.

(** ** Entries survive their encoding *)

Lemma omap_parent_item l :
  Forall hash_ok l → omap parent_item (map (λ h, VBytes (to_bytes h)) l) = l.
Proof.
  induction 1 as [|h l Hh Hl IH]; [done|]. cbn [map omap list_omap parent_item].
  change (parent_item (VBytes (to_bytes h))) with (ok (from_bytes (to_bytes h))).
  rewrite from_bytes_to_bytes by done. cbn [ok]. by rewrite IH.
Qed.

Definition revision_ok (d : RevisionEntryData) : Prop :=
  hash_ok (root d) ∧ Forall hash_ok (parents d) ∧ len_ok (parents d) = true.

Definition revision_value (d : RevisionEntryData) : Value :=
  VMap [(text (lit "root"), VBytes (to_bytes (root d)));
        (text (lit "parents"), VArray (map (λ h, VBytes (to_bytes h)) (parents d)))].

Lemma revision_fields_sorted d : VMap (sort_by field_order (revision_fields d)) = revision_value d.
Proof. done. Qed.

Lemma revision_value_norm d : ecf_norm (revision_value d) = revision_value d.
Proof.
  transitivity (VMap [(text (lit "root"), VBytes (to_bytes (root d)));
    (text (lit "parents"), ecf_norm (VArray (map (λ h, VBytes (to_bytes h)) (parents d))))]); [reflexivity|].
  unfold revision_value. cbn [ecf_norm]. rewrite map_map. reflexivity.
Qed.

Lemma revision_value_good d : revision_ok d → good 3 (revision_value d).
Proof.
  intros (Hr & Hp & Hl). apply (good_map 2); [done|]. rewrite !Forall_cons.
  split_and!; [split; split|split; [split|]|by constructor]; cbn [fst snd]; try done; try (cbn; lia).
  - by apply hash_bytes_ok.
  - apply good_array; [unfold len_ok in *; by rewrite length_map|].
    apply Forall_map. eapply Forall_impl; [exact Hp|]. intros h Hh. split; [by apply hash_bytes_ok|cbn; lia].
Qed.

Lemma decode_revision_value `{CiboriumDecodes} d e :
  revision_ok d → data e = to_ecf (revision_value d) → decode_revision_entry e = Some d.
Proof.
  intros Hd He. pose proof Hd as (Hr & Hp & Hl). unfold decode_revision_entry.
  destruct (revision_value_good d Hd) as [Hok Hdep].
  rewrite He, <-(app_nil_r (to_ecf _)), from_reader_ecf by (done || unfold ciborium_recursion_limit; lia).
  rewrite revision_value_norm. cbn [mbind option_bind as_map revision_value fold_opt].
  change (revision_step (None, None) (text (lit "root"), VBytes (to_bytes (root d))))
    with (Some (ok (from_bytes (to_bytes (root d))), @None (list Hash))).
  rewrite from_bytes_to_bytes by done. cbn [ok mbind option_bind fold_opt].
  change (revision_step (Some (root d), None) (text (lit "parents"), VArray (map (λ h, VBytes (to_bytes h)) (parents d))))
    with (Some (Some (root d), Some (omap parent_item (map (λ h, VBytes (to_bytes h)) (parents d))))).
  rewrite omap_parent_item by done. by destruct d.
Qed.

(** * Properties *)

(** Histories are exact.  Whatever the store holds, a walk from [head] ends; it lists
    distinct versions that [head] descends from and that can be read, never [stop_at] and at most
    [limit] of them, and every version but [head] after one of its children.  When it stopped
    short of the limit and [stop_at] is not in the history, it lists all of them. *)
Theorem walk_history_exact `{Ciborium} {St} `{ContentStore St} `{!StoreSupport St} (store : St)
    fuel head limit stop_at :
  (dag_fuel store ≤ fuel)%nat →
  ∃ versions, walk_history store fuel head limit stop_at = Some versions
    ∧ NoDup versions ∧ (length versions ≤ limit)%nat ∧ child_first store head versions
    ∧ (∀ v, v ∈ versions → descends store head v ∧ is_Some (entry_of store v) ∧ stop_at ≠ Some v)
    ∧ ((length versions < limit)%nat → (∀ v, stop_at = Some v → ¬ descends store head v) →
       ∀ v, v ∈ versions ↔ descends store head v ∧ is_Some (entry_of store v)).
Proof.
  intros Hf. destruct (walk_history_spec store fuel head limit stop_at Hf) as (R & -> & [HN HL HE HO] & Hd & Hall).
  exists R. split_and!; [done..| |].
  - intros v Hv. split; [by apply Hd|by apply HE].
  - intros Hlt Hstop v. split; [intros Hv; split; [by apply Hd|by apply HE]|]. intros [Hv He]. by apply Hall.
Qed.

(** C24. The search for a common ancestor ends, finds one exactly when there is one, and in a
    history without merges the one it finds is the lowest: every other common ancestor is an
    ancestor of it.  (With merges it need not be, see [criss_cross_not_lowest].) *)
Theorem find_common_ancestor_exact `{Ciborium} {St} `{ContentStore St} `{!StoreSupport St} (store : St)
    fuel a b :
  (dag_fuel store ≤ fuel)%nat →
  ∃ r, find_common_ancestor store fuel a b = Some r
    ∧ (r = None ↔ ¬ ∃ x, descends store a x ∧ descends store b x)
    ∧ ∀ c, r = Some c →
        descends store a c ∧ descends store b c
        ∧ (linear_history store → ∀ x, descends store a x → descends store b x → descends store c x).
Proof.
  intros Hf. destruct (find_common_ancestor_spec store fuel a b Hf) as (r & -> & Hr). exists r.
  split; [done|]. unfold ancestor_found, common_ancestor in Hr. destruct r as [c|].
  - destruct Hr as [[Ha Hb] Hlow]. split; [split; [done|intros []; by exists c]|]. intros ? [= <-]. eauto.
  - split; [split; [intros _ [x Hx]; by apply (Hr x)|done]|done].
Qed.

(** How the relationship looks from the other side. *)
Definition other_side (r : Relationship) : Relationship :=
  match r with Behind => Ahead | Ahead => Behind | r => r end.

(** The relationship of two heads is decided: they are one version, the remote descends from
    the local, the local from the remote, or neither.  When no two versions descend from each
    other, the two peers come to opposite answers. *)
Theorem check_relationship_exact `{Ciborium} {St} `{ContentStore St} `{!StoreSupport St} (store : St)
    fuel local remote :
  (dag_fuel store ≤ fuel)%nat →
  ∃ r, check_relationship store fuel local remote = Some r
    ∧ match r with
      | InSync => local = remote
      | Behind => local ≠ remote ∧ descends store remote local
      | Ahead => local ≠ remote ∧ ¬ descends store remote local ∧ descends store local remote
      | Diverged => ¬ descends store remote local ∧ ¬ descends store local remote
      end
    ∧ ((∀ x y, descends store x y → descends store y x → x = y) →
       check_relationship store fuel remote local = Some (other_side r)).
Proof.
  intros Hf. unfold check_relationship. rewrite (bool_decide_ext (remote = local) (local = remote)) by done.
  case_bool_decide as Heq; [by exists InSync|].
  destruct (is_ancestor_exact store fuel local remote Hf) as (b1 & -> & H1).
  destruct (is_ancestor_exact store fuel remote local Hf) as (b2 & -> & H2). cbn [mbind option_bind].
  destruct b1, b2; eexists; (split; [reflexivity|]); (split; [naive_solver|]); intros Hacyc; cbn [other_side]; try done.
  destruct Heq. symmetry. apply Hacyc; naive_solver.
Qed.

(** An oscillation is reported exactly when a version among those walked has the proposed
    root and, up to order, the proposed parents; when the history is shorter than the depth, that
    is any version that [head] descends from. *)
Theorem detect_oscillation_exact `{Ciborium} {St} `{ContentStore St} `{!StoreSupport St} (store : St)
    fuel proposed_root proposed_parents head depth :
  (dag_fuel store ≤ fuel)%nat →
  let repeats v := ∃ entry, entry_of store v = Some entry ∧ root entry = proposed_root
                            ∧ parents entry ≡ₚ proposed_parents in
  ∃ versions b, walk_history store fuel head depth None = Some versions
    ∧ detect_oscillation store fuel proposed_root proposed_parents head depth = Some b
    ∧ (b = true ↔ ∃ v, v ∈ versions ∧ repeats v)
    ∧ ((length versions < depth)%nat → (b = true ↔ ∃ v, descends store head v ∧ repeats v)).
Proof.
  intros Hf repeats. destruct (walk_history_spec store fuel head depth None Hf) as (R & HR & HW & Hd & Hall).
  assert (Hsame : ∀ v, same_identity store proposed_root (sorted_parents proposed_parents) v = true ↔ repeats v).
  { intros v. unfold same_identity, repeats. destruct (entry_of store v) as [e|]; [|naive_solver].
    rewrite andb_true_iff, !bool_decide_eq_true. change (@sorted_parents) with (sort_by (cmp (K := Hash))). rewrite sort_by_cmp_perm. naive_solver. }
  assert (Hb : existsb (same_identity store proposed_root (sorted_parents proposed_parents)) R = true
               ↔ ∃ v, v ∈ R ∧ repeats v).
  { rewrite existsb_exists. setoid_rewrite <-list_elem_of_In. by setoid_rewrite Hsame. }
  exists R, (existsb (same_identity store proposed_root (sorted_parents proposed_parents)) R).
  unfold detect_oscillation. rewrite HR. split_and!; [done|done|done|]. intros Hlt. rewrite Hb.
  split; [intros (v & Hv & Hr); exists v; split; [by apply Hd|done]|]. intros (v & Hv & Hr). exists v. split; [|done].
  apply Hall; [done|done|done|]. destruct Hr as (e & -> & _). done.
Qed.

(** A revision entry with a well-formed root and parents is an entity under every supported
    format, and decodes to itself, its parents in their order. *)
Theorem revision_entry_round_trip `{HS : Sha2} `{!Sha2Ok} `{HC : Ciborium} `{!CiboriumDecodes} (home : Z) d :
  digest_len_for_format home ≠ None → revision_ok d →
  ∃ e, build_revision_entry home d = Ok e ∧ entity_type e = TYPE_REVISION_ENTRY ∧ algorithm (content_hash e) = home
    ∧ decode_revision_entry e = Some d.
Proof.
  intros Hhome Hd. unfold build_revision_entry. rewrite revision_fields_sorted.
  destruct (entity_new_encoded home TYPE_REVISION_ENTRY (revision_value d)) as (e & He & Ht & Hdata & _ & Ha); [done..|].
  exists e. split_and!; [done..|]. by apply decode_revision_value.
Qed.

(** * Witnesses *)

Section demo.
Let C := ref_ciborium.

(** A version [n] with the parents [ps], filed under a hash of its own. *)
Definition demo_version (n : Z) (ps : list Z) : Hash * Entity :=
  (demo_hash n, mkEntity TYPE_REVISION_ENTRY
     (to_ecf (revision_value (mkRevision (demo_hash (100 + n)) (map demo_hash ps)))) (demo_hash n)).

(** A root, two versions from it, and a merge of them. *)
Definition diamond : ContentMap := Eval vm_compute in
  [demo_version 1 []; demo_version 2 [1]; demo_version 3 [1]; demo_version 4 [2; 3]].

(** Versions 2 and 5 and 9 branch off 1; 6 merges 5 with the line 2, 3, 4 and 10 merges 9 with the
    line 2, 7, 8. *)
Definition criss_cross : ContentMap := Eval vm_compute in
  [demo_version 1 []; demo_version 2 [1]; demo_version 3 [2]; demo_version 4 [3]; demo_version 5 [1];
   demo_version 6 [4; 5]; demo_version 7 [2]; demo_version 8 [7]; demo_version 9 [1]; demo_version 10 [8; 9]].
End demo.

(** The merges 6 and 10 both contain version 2, a later common ancestor than version 1, which the
    search meets first because it lies fewer edges away. *)
Example criss_cross_not_lowest :
  let C := ref_ciborium in let s := criss_cross in let f := @dag_fuel C _ memory_store _ s in
  (find_common_ancestor s f (demo_hash 6) (demo_hash 10), is_ancestor s f (demo_hash 2) (demo_hash 6),
   is_ancestor s f (demo_hash 2) (demo_hash 10), is_ancestor s f (demo_hash 1) (demo_hash 2),
   is_ancestor s f (demo_hash 2) (demo_hash 1))
  = (Some (Some (demo_hash 1)), Some true, Some true, Some true, Some false).
Proof. vm_compute. reflexivity. Qed.

Example diamond_history :
  let C := ref_ciborium in let s := diamond in let f := @dag_fuel C _ memory_store _ s in
  (walk_history s f (demo_hash 4) 10 None, walk_history s f (demo_hash 4) 10 (Some (demo_hash 3)),
   check_relationship s f (demo_hash 2) (demo_hash 4), check_relationship s f (demo_hash 2) (demo_hash 3),
   detect_oscillation s f (demo_hash 102) [demo_hash 1] (demo_hash 4) 10,
   detect_oscillation s f (demo_hash 102) [] (demo_hash 4) 10)
  = (Some [demo_hash 4; demo_hash 2; demo_hash 3; demo_hash 1], Some [demo_hash 4; demo_hash 2],
     Some Behind, Some Diverged, Some true, Some false).
Proof. vm_compute. reflexivity. Qed.

Lemma walk_history_exact_witness :
  let C := ref_ciborium in let s := diamond in
  ∃ versions, walk_history s 50 (demo_hash 4) 10 None = Some versions ∧ NoDup versions
    ∧ child_first s (demo_hash 4) versions
    ∧ ∀ v, v ∈ versions ↔ descends s (demo_hash 4) v ∧ is_Some (entry_of s v).
Proof.
  intros C s. assert (Hf : (@dag_fuel C _ memory_store _ s ≤ 50)%nat) by (apply Nat.leb_le; vm_compute; reflexivity).
  destruct (@walk_history_exact C _ memory_store _ s 50 (demo_hash 4) 10 None Hf) as (R & HR & HN & _ & HO & _ & Hall).
  exists R. split; [exact HR|]. split; [exact HN|]. split; [exact HO|]. apply Hall; [|discriminate].
  assert (HR' : @walk_history C _ memory_store s 50 (demo_hash 4) 10 None
                = Some [demo_hash 4; demo_hash 2; demo_hash 3; demo_hash 1]) by (vm_compute; reflexivity).
  rewrite HR' in HR. injection HR as <-. cbn. lia.
Defined.

Lemma find_common_ancestor_exact_witness :
  let C := ref_ciborium in let s := diamond in
  ∃ r, find_common_ancestor s 50 (demo_hash 2) (demo_hash 3) = Some r
    ∧ (r = None ↔ ¬ ∃ x, descends s (demo_hash 2) x ∧ descends s (demo_hash 3) x).
Proof.
  intros C s. assert (Hf : (@dag_fuel C _ memory_store _ s ≤ 50)%nat) by (apply Nat.leb_le; vm_compute; reflexivity).
  destruct (@find_common_ancestor_exact C _ memory_store _ s 50 (demo_hash 2) (demo_hash 3) Hf) as (r & Hr & Hn & _).
  exists r. split; [exact Hr|exact Hn].
Defined.

Lemma check_relationship_exact_witness :
  let C := ref_ciborium in let s := diamond in
  check_relationship s 50 (demo_hash 2) (demo_hash 4) = Some Behind
  ∧ descends s (demo_hash 4) (demo_hash 2).
Proof.
  intros C s. assert (Hf : (@dag_fuel C _ memory_store _ s ≤ 50)%nat) by (apply Nat.leb_le; vm_compute; reflexivity).
  assert (Hb : @check_relationship C _ memory_store s 50 (demo_hash 2) (demo_hash 4) = Some Behind) by (vm_compute; reflexivity).
  split; [exact Hb|].
  destruct (@check_relationship_exact C _ memory_store _ s 50 (demo_hash 2) (demo_hash 4) Hf) as (r & Hr & Hd & _).
  rewrite Hb in Hr. injection Hr as <-. exact (proj2 Hd).
Defined.

Lemma detect_oscillation_exact_witness :
  let C := ref_ciborium in let s := diamond in
  ∃ v, descends s (demo_hash 4) v ∧ ∃ entry, entry_of s v = Some entry ∧ root entry = demo_hash 102
    ∧ parents entry ≡ₚ [demo_hash 1].
Proof.
  intros C s. assert (Hf : (@dag_fuel C _ memory_store _ s ≤ 50)%nat) by (apply Nat.leb_le; vm_compute; reflexivity).
  assert (Hb : @detect_oscillation C _ memory_store s 50 (demo_hash 102) [demo_hash 1] (demo_hash 4) 10 = Some true)
    by (vm_compute; reflexivity).
  assert (HR' : @walk_history C _ memory_store s 50 (demo_hash 4) 10 None
                = Some [demo_hash 4; demo_hash 2; demo_hash 3; demo_hash 1]) by (vm_compute; reflexivity).
  destruct (@detect_oscillation_exact C _ memory_store _ s 50 (demo_hash 102) [demo_hash 1] (demo_hash 4) 10 Hf)
    as (R & b & HR & Hd & _ & Hiff).
  rewrite Hb in Hd. injection Hd as <-. rewrite HR' in HR. injection HR as <-.
  apply Hiff; [cbn; lia|reflexivity].
Defined.

Lemma revision_entry_round_trip_witness :
  let C := ref_ciborium in let S := checksum_sha2 in
  let d := mkRevision (demo_hash 7) [demo_hash 2; demo_hash 1] in
  ∃ e, build_revision_entry 0 d = Ok e ∧ decode_revision_entry e = Some d.
Proof.
  intros C S d.
  destruct (@revision_entry_round_trip S checksum_sha2_ok C ref_ciborium_decodes 0 d) as (e & He & _ & _ & Hd).
  - discriminate.
  - split_and!; [apply demo_hash_ok; unfold byte_ok; lia| |reflexivity].
    repeat (apply Forall_cons_2 || apply Forall_nil_2); apply demo_hash_ok; unfold byte_ok; lia.
  - exists e. split; [exact He|exact Hd].
Defined.
