(* ===== verification/RevisionMerge.v ===== *)
(** Three-way merge of snapshots ([extensions/revision/src/merge.rs], and the pattern grammar
    of [engine.rs]).

    A merge goes path by path over two snapshots and their common ancestor; where both sides
    changed, merge configurations in the tree decide.  The tree is read through the interface
    [LocationIndex]; the order in which it lists the configurations is not to matter. *)
From S2P Require Import Prelude BTree Ecf Cbor ContentHash Entity Store Trie Index RevisionDag.

(** * Strategies *)

Inductive DeletionResolution := PreserveOnConflict | DeletionWins | ThreeWayFallthrough | Deterministic.

(** [#[default]] *)
Definition default_resolution : DeletionResolution := PreserveOnConflict.

Definition resolution_parse (s : list Z) : option DeletionResolution :=
  if bool_decide (s = lit "preserve-on-conflict") then Some PreserveOnConflict
  else if bool_decide (s = lit "deletion-wins") then Some DeletionWins
  else if bool_decide (s = lit "three-way-fallthrough") then Some ThreeWayFallthrough
  else if bool_decide (s = lit "deterministic") then Some Deterministic
  else None.

Definition is_rejected_at_config_write (s : list Z) : bool :=
  bool_decide (s = lit "lww") || bool_decide (s = lit "keep-both").

Definition STRATEGY_HANDLER_SENTINEL : list Z := lit "handler".

Inductive MergeStrategy :=
  | ThreeWay | SourceWins | TargetWins | Manual | KeepBoth
  | Handler (path : list Z)
  | Unresolvable (name : list Z).

#[export] Instance MergeStrategy_eq_dec : EqDecision MergeStrategy.
Proof. solve_decision. Defined.

(** [s.trim().is_empty()]: nothing but the UTF-8 of white space characters. *)
Fixpoint trims_to_empty (s : list Z) : bool :=
  match s with
  | [] => true
  | b :: s0 =>
      if ((9 <=? b) && (b <=? 13)) || (b =? 32) then trims_to_empty s0
      else match s0 with
      | [] => false
      | c :: s1 =>
          if (b =? 0xC2) && ((c =? 0x85) || (c =? 0xA0)) then trims_to_empty s1
          else match s1 with
          | [] => false
          | d :: s2 =>
              if ((b =? 0xE1) && (c =? 0x9A) && (d =? 0x80))
                 || ((b =? 0xE2) && (c =? 0x80)
                     && (((0x80 <=? d) && (d <=? 0x8A)) || (d =? 0xA8) || (d =? 0xA9) || (d =? 0xAF)))
                 || ((b =? 0xE2) && (c =? 0x81) && (d =? 0x9F))
                 || ((b =? 0xE3) && (c =? 0x80) && (d =? 0x80))
              then trims_to_empty s2
              else false
          end
      end
  end.

Definition strategy_parse (strategy : list Z) (handler : option (list Z)) : option MergeStrategy :=
  if bool_decide (strategy = lit "three-way") then Some ThreeWay
  else if bool_decide (strategy = lit "source-wins") then Some SourceWins
  else if bool_decide (strategy = lit "target-wins") then Some TargetWins
  else if bool_decide (strategy = lit "manual") then Some Manual
  else if bool_decide (strategy = lit "keep-both") then Some KeepBoth
  else if bool_decide (strategy = lit "lww") then Some (Unresolvable (lit "lww"))
  else if bool_decide (strategy = STRATEGY_HANDLER_SENTINEL) then
    match handler with
    | Some p => if trims_to_empty p then Some (Unresolvable STRATEGY_HANDLER_SENTINEL) else Some (Handler p)
    | None => Some (Unresolvable STRATEGY_HANDLER_SENTINEL)
    end
  else None.

Definition strategy_as_str (s : MergeStrategy) : list Z :=
  match s with
  | ThreeWay => lit "three-way"
  | SourceWins => lit "source-wins"
  | TargetWins => lit "target-wins"
  | Manual => lit "manual"
  | KeepBoth => lit "keep-both"
  | Handler _ => STRATEGY_HANDLER_SENTINEL
  | Unresolvable name => name
  end.

(** * Patterns *)

(** [s.ends_with(p)] *)
Definition ends_with (s p : list Z) : bool :=
  match strip_suffix p s with Some _ => true | None => false end.

(** All, below a prefix, with a suffix, or exactly. *)
Definition glob_match (pattern subject : list Z) : bool :=
  if bool_decide (pattern = [ch_star]) then true
  else if ends_with pattern [ch_slash; ch_star] then starts_with subject (take (length pattern - 1) pattern)
  else match strip_prefix [ch_star] pattern with
       | Some literal => ends_with subject literal
       | None => bool_decide (subject = pattern)
       end.

Definition valid_exclude_pattern (pattern : list Z) : bool :=
  match length (filter (λ b, b = ch_star) pattern) with
  | 0%nat => true
  | 1%nat => bool_decide (pattern = [ch_star]) || ends_with pattern [ch_slash; ch_star] || starts_with pattern [ch_star]
  | _ => false
  end.

Definition path_pattern_matches (pattern path : list Z) : bool := glob_match pattern path.

(** The rank of the form, and the length of the literal. *)
Definition pattern_specificity (pattern : list Z) : Z * Z :=
  if bool_decide (pattern = [ch_star]) then (0, 0)
  else match strip_suffix [ch_slash; ch_star] pattern with
       | Some literal => (2, Z.of_nat (length literal) + 1)
       | None =>
           match strip_prefix [ch_star] pattern with
           | Some literal => (1, Z.of_nat (length literal))
           | None => (3, Z.of_nat (length pattern))
           end
       end.

(** A configuration competes with its specificity, its pattern and its name. *)
Definition ConfigKey : Type := (Z * Z) * list Z * list Z.

Definition more_specific (cand best : ConfigKey) : bool :=
  let '(cand_key, cand_pattern, cand_name) := cand in
  let '(best_key, best_pattern, best_name) := best in
  match cmp cand_key best_key with
  | Gt => true
  | Lt => false
  | Eq =>
      match cmp cand_pattern best_pattern with
      | Lt => true
      | Gt => false
      | Eq => match cmp cand_name best_name with Lt => true | _ => false end
      end
  end.

(** [path.rsplit('/').next().unwrap_or("")] *)
Definition config_name_of (path : list Z) : list Z := default [] (last (split_on ch_slash path)).

(** * Configurations *)

Record DecodedMergeConfig := mkMergeConfig { mc_pattern : option (list Z); mc_strategy : option MergeStrategy }.

Definition merge_config_step (acc : option (list Z) * option (list Z) * option (list Z)) (kv : Value * Value)
    : option (list Z) * option (list Z) * option (list Z) :=
  let '(pattern, strategy_name, handler) := acc in
  match as_str kv.1 with
  | Some k =>
      if bool_decide (k = lit "pattern") then (as_str kv.2, strategy_name, handler)
      else if bool_decide (k = lit "strategy") then (pattern, as_str kv.2, handler)
      else if bool_decide (k = lit "handler") then (pattern, strategy_name, as_str kv.2)
      else acc
  | None => acc
  end.

Definition decode_merge_config `{Ciborium} (d : list Z) : DecodedMergeConfig :=
  let '(pattern, strategy_name, handler) :=
    match (val ← from_reader d; as_map val) with
    | Some m => foldl merge_config_step (None, None, None) m
    | None => (None, None, None)
    end in
  mkMergeConfig pattern (s ← strategy_name; strategy_parse s handler).

Definition deletion_step (acc : option (list Z) * option DeletionResolution) (kv : Value * Value)
    : option (list Z) * option DeletionResolution :=
  let '(pattern, dr) := acc in
  match as_str kv.1 with
  | Some k =>
      if bool_decide (k = lit "pattern") then (as_str kv.2, dr)
      else if bool_decide (k = lit "deletion_resolution") then (pattern, s ← as_str kv.2; resolution_parse s)
      else acc
  | None => acc
  end.

Definition decode_deletion_resolution_config `{Ciborium} (d : list Z) : option (list Z * DeletionResolution) :=
  val ← from_reader d;
  m ← as_map val;
  let '(pattern, dr) := foldl deletion_step (None, None) m in
  pattern ← pattern; dr ← dr;
  Some (pattern, dr).

(** One candidate against the best so far. *)
Definition keep_best {A} (best : option (ConfigKey * A)) (cand : ConfigKey * A) : option (ConfigKey * A) :=
  match best with
  | None => Some cand
  | Some b => if more_specific cand.1 b.1 then Some cand else best
  end.

(** * Merging *)

Record ConflictInfo := mkConflict {
  cf_path : list Z; cf_base : option Hash; cf_local : option Hash; cf_remote : option Hash; cf_strategy : list Z;
}.

Record MergeResult := mkMerged {
  merged_bindings : PathMap;
  deletions : list (list Z);
  conflicts : list ConflictInfo;
  additional_bindings : list (list Z * Hash);
}.

Definition merged_insert (path : list Z) (h : Hash) (r : MergeResult) : MergeResult :=
  mkMerged (bt_insert path h (merged_bindings r)) (deletions r) (conflicts r) (additional_bindings r).
Definition push_deletion (path : list Z) (r : MergeResult) : MergeResult :=
  mkMerged (merged_bindings r) (deletions r ++ [path]) (conflicts r) (additional_bindings r).
Definition push_conflict (c : ConflictInfo) (r : MergeResult) : MergeResult :=
  mkMerged (merged_bindings r) (deletions r) (conflicts r ++ [c]) (additional_bindings r).
Definition push_additional (path : list Z) (h : Hash) (r : MergeResult) : MergeResult :=
  mkMerged (merged_bindings r) (deletions r) (conflicts r) (additional_bindings r ++ [(path, h)]).

(** [format!("{}.keep-both-{}", path, hash_prefix)]; [None] is the panic of [r.digest()[0..4]]. *)
Definition keep_both_path (path : list Z) (r : Hash) : option (list Z) :=
  if (4 <=? length (digest r))%nat then Some (path ++ lit ".keep-both-" ++ hex_str (take 4 (digest r))) else None.

Definition normalize_merge_sides (local remote : PathMap) (local_version remote_version : Hash) (merge_order : list Z)
    : PathMap * PathMap * Hash * Hash :=
  if bool_decide (merge_order = lit "deterministic") && bool_decide (cmp remote_version local_version = Lt)
  then (remote, local, remote_version, local_version)
  else (local, remote, local_version, remote_version).

Definition merge_path_prefix (local_peer_id : list Z) : list Z :=
  lit "/" ++ local_peer_id ++ lit "/system/revision/config/merge/path/".
Definition merge_type_path (local_peer_id type_name : list Z) : list Z :=
  lit "/" ++ local_peer_id ++ lit "/system/revision/config/merge/type/" ++ type_name.
Definition conflict_path (local_peer_id prefix_hash path : list Z) : list Z :=
  lit "/" ++ local_peer_id ++ lit "/system/revision/" ++ prefix_hash ++ lit "/conflicts/" ++ path.

(** The paths of the three snapshots, each once, in order. *)
Definition collect_paths (base local remote : PathMap) : list (list Z) :=
  sort_by cmp (foldl (λ all_paths path, if bool_decide (path ∈ all_paths) then all_paths else all_paths ++ [path])
                 [] (map fst base ++ map fst local ++ map fst remote)).

Section merge.
Context `{HS : Sha2} `{HC : Ciborium} {St : Type} `{HT : ContentStore St} {L : Type} `{HL : LocationIndex L}.

(** One turn of the loop over the configurations below the prefix. *)
Definition candidate {A} (decode : list Z → option (list Z * A)) (path : list Z) (store : St) (entry : LocationEntry)
    : option (ConfigKey * A) :=
  config_entity ← store_get (le_hash entry) store;
  '(pattern, a) ← decode (data config_entity);
  if path_pattern_matches pattern path
  then Some ((pattern_specificity pattern, pattern, config_name_of (le_path entry)), a) else None.

Definition best_config {A} (decode : list Z → option (list Z * A)) (path : list Z) (index : L) (store : St)
    (local_peer_id : list Z) : option A :=
  let best := foldl (λ best entry, match candidate decode path store entry with
                                   | Some cand => keep_best best cand
                                   | None => best
                                   end) None (li_list (merge_path_prefix local_peer_id) index) in
  snd <$> best.

Definition find_deletion_resolution (path : list Z) (index : L) (store : St) (local_peer_id : list Z)
    : DeletionResolution :=
  default default_resolution
    (best_config decode_deletion_resolution_config path index store local_peer_id).

(** [if let (Some(pattern), Some(strategy)) = (config.pattern, config.strategy)] *)
Definition decode_path_config (d : list Z) : option (list Z * MergeStrategy) :=
  let config := decode_merge_config d in
  pattern ← mc_pattern config; strategy ← mc_strategy config;
  Some (pattern, strategy).

Definition types_to_check (local_hash remote_hash : option Hash) (store : St) : list (list Z) :=
  foldl (λ types h, match store_get h store with
                    | Some entity => if bool_decide (entity_type entity ∈ types) then types
                                     else types ++ [entity_type entity]
                    | None => types
                    end) [] (omap id [local_hash; remote_hash]).

Fixpoint type_strategy (types : list (list Z)) (index : L) (store : St) (local_peer_id : list Z)
    : option MergeStrategy :=
  match types with
  | [] => None
  | type_name :: types =>
      match (config_hash ← li_get (merge_type_path local_peer_id type_name) index;
             config_entity ← store_get config_hash store;
             mc_strategy (decode_merge_config (data config_entity))) with
      | Some strategy => Some strategy
      | None => type_strategy types index store local_peer_id
      end
  end.

Definition find_merge_strategy (path : list Z) (override_strategy : option (list Z)) (index : L) (store : St)
    (local_hash remote_hash : option Hash) (local_peer_id : list Z) : MergeStrategy :=
  match (s ← override_strategy; strategy_parse s None) with
  | Some strategy => strategy
  | None =>
      match type_strategy (types_to_check local_hash remote_hash store) index store local_peer_id with
      | Some strategy => strategy
      | None => default ThreeWay (best_config decode_path_config path index store local_peer_id)
      end
  end.

(** Both sides are bound and differ, one of them to the deletion marker. *)
Definition merge_deletion (path : list Z) (marker : Hash) (base_hash : option Hash) (l r : Hash)
    (dr : DeletionResolution) (acc : MergeResult) : MergeResult :=
  let l_marker := bool_decide (l = marker) in
  let r_marker := bool_decide (r = marker) in
  if bool_decide (base_hash = Some l) then
    let acc := merged_insert path r acc in if r_marker then push_deletion path acc else acc
  else if bool_decide (base_hash = Some r) then
    let acc := merged_insert path l acc in if l_marker then push_deletion path acc else acc
  else
    match dr with
    | PreserveOnConflict => merged_insert path (if l_marker then r else l) acc
    | DeletionWins => push_deletion path (merged_insert path marker acc)
    | ThreeWayFallthrough =>
        merged_insert path l
          (push_conflict (mkConflict path base_hash (Some l) (Some r) (lit "three-way-fallthrough")) acc)
    | Deterministic =>
        let winner := match cmp l r with Lt => l | _ => r end in
        let acc := merged_insert path winner acc in
        if bool_decide (winner = marker) then push_deletion path acc else acc
    end.

(** Both sides are bound and differ, both to entities. *)
Definition merge_edits (path : list Z) (base_hash : option Hash) (l r : Hash) (strategy : MergeStrategy)
    (acc : MergeResult) : option MergeResult :=
  let conflict name :=
    merged_insert path l (push_conflict (mkConflict path base_hash (Some l) (Some r) name) acc) in
  match strategy with
  | SourceWins => Some (merged_insert path r acc)
  | TargetWins => Some (merged_insert path l acc)
  | ThreeWay =>
      if bool_decide (base_hash = Some l) then Some (merged_insert path r acc)
      else if bool_decide (base_hash = Some r) then Some (merged_insert path l acc)
      else Some (conflict (lit "three-way"))
  | KeepBoth =>
      both ← keep_both_path path r;
      Some (push_additional both r (merged_insert path l acc))
  | Manual | Handler _ | Unresolvable _ => Some (conflict (strategy_as_str strategy))
  end.

Definition merge_path (base local remote : PathMap) (marker : Hash) (strategy_override : option (list Z))
    (store : St) (index : L) (local_peer_id : list Z) (acc : MergeResult) (path : list Z) : option MergeResult :=
  match bt_get path local, bt_get path remote with
  | None, None => Some acc
  | Some l, None => Some (merged_insert path l acc)
  | None, Some r => Some (merged_insert path r acc)
  | Some l, Some r =>
      if bool_decide (l = r) then Some (merged_insert path l acc)
      else if xorb (bool_decide (l = marker)) (bool_decide (r = marker)) then
        Some (merge_deletion path marker (bt_get path base) l r
                (find_deletion_resolution path index store local_peer_id) acc)
      else merge_edits path (bt_get path base) l r
             (find_merge_strategy path strategy_override index store (Some l) (Some r) local_peer_id) acc
  end.

(** [None] is a panic: of the marker's constructor, or of [merge_edits]. *)
Definition merge_snapshots (home : Z) (ancestor : option PathMap) (local remote : PathMap)
    (strategy_override : option (list Z)) (store : St) (index : L) (local_peer_id : list Z) : option MergeResult :=
  let base := default [] ancestor in
  marker ← canonical_deletion_marker_hash home;
  fold_opt (merge_path base local remote marker strategy_override store index local_peer_id)
    (mkMerged [] [] [] []) (collect_paths base local remote).

(** * Conflict entities *)

Definition hash_field (name : list Z) (h : option Hash) : list (Value * Value) :=
  match h with Some h => [(text name, VBytes (to_bytes h))] | None => [] end.

Definition conflict_fields (info : ConflictInfo) (supersedes : option Hash) (local_version remote_version : Hash)
    : list (Value * Value) :=
  hash_field (lit "base") (cf_base info) ++ hash_field (lit "local") (cf_local info)
  ++ [(text (lit "path"), text (cf_path info))]
  ++ hash_field (lit "remote") (cf_remote info)
  ++ [(text (lit "strategy"), text (cf_strategy info))]
  ++ hash_field (lit "supersedes") supersedes
  ++ hash_field (lit "version_local") (Some local_version)
  ++ hash_field (lit "version_remote") (Some remote_version).

Inductive ConflictError := ConflictEntity | ConflictStore.

Definition store_conflict (home : Z) (prefix_hash : list Z) (info : ConflictInfo) (local_version remote_version : Hash)
    (local_peer_id : list Z) (store : St) (index : L) : result ConflictError Hash * St * L :=
  let path := conflict_path local_peer_id prefix_hash (cf_path info) in
  let supersedes := li_get path index in
  let d := to_ecf (VMap (sort_by field_order (conflict_fields info supersedes local_version remote_version))) in
  match entity_new home (lit "system/revision/conflict") d with
  | Err _ => (Err ConflictEntity, store, index)
  | Ok entity =>
      match store_put entity store with
      | (Err _, store) => (Err ConflictStore, store, index)
      | (Ok hash, store) => (Ok hash, store, li_set path hash index)
      end
  end.
End merge.

(** * Lemmas *)

(** ** The forms of patterns *)

Lemma ends_with_true s p : ends_with s p = true ↔ ∃ r, s = r ++ p.
Proof.
  unfold ends_with. destruct (strip_suffix p s) as [r|] eqn:E.
  - apply strip_suffix_Some in E. split; [by exists r|done].
  - split; [done|]. intros [r Hr]. apply strip_suffix_Some in Hr. congruence.
Qed.

Inductive pattern_form (p : list Z) : Prop :=
  | FormAll : p = [ch_star] → pattern_specificity p = (0, 0) → pattern_form p
  | FormBelow lit : p = lit ++ [ch_slash; ch_star] → pattern_specificity p = (2, Z.of_nat (length lit) + 1) →
      (∀ s, glob_match p s = true ↔ lit ++ [ch_slash] `prefix_of` s) → pattern_form p
  | FormEnds lit : p = ch_star :: lit → pattern_specificity p = (1, Z.of_nat (length lit)) →
      (∀ s, glob_match p s = true ↔ ∃ r, s = r ++ lit) → pattern_form p
  | FormExact : pattern_specificity p = (3, Z.of_nat (length p)) →
      (∀ s, glob_match p s = true ↔ s = p) → pattern_form p.

Lemma pattern_form_of p : pattern_form p.
Proof.
  destruct (decide (p = [ch_star])) as [Hp|Hp].
  { apply FormAll; [done|]. unfold pattern_specificity. by rewrite bool_decide_eq_true_2. }
  assert (Hspec : pattern_specificity p = match strip_suffix [ch_slash; ch_star] p with
    | Some literal => (2, Z.of_nat (length literal) + 1)
    | None => match strip_prefix [ch_star] p with
              | Some literal => (1, Z.of_nat (length literal)) | None => (3, Z.of_nat (length p)) end end)
    by (unfold pattern_specificity; by rewrite bool_decide_eq_false_2).
  assert (Hglob : ∀ s, glob_match p s = if ends_with p [ch_slash; ch_star]
    then starts_with s (take (length p - 1) p)
    else match strip_prefix [ch_star] p with Some literal => ends_with s literal | None => bool_decide (s = p) end)
    by (intros s; unfold glob_match; by rewrite bool_decide_eq_false_2).
  unfold ends_with in Hglob at 1. destruct (strip_suffix [ch_slash; ch_star] p) as [lit|] eqn:Es.
  - apply strip_suffix_Some in Es as E. apply (FormBelow p lit E Hspec). intros s. rewrite Hglob, starts_with_true.
    replace (take (length p - 1) p) with (lit ++ [ch_slash]); [done|].
    rewrite E, length_app. cbn [length].
    replace (length lit + 2 - 1)%nat with (length (lit ++ [ch_slash])) by (rewrite length_app; cbn [length]; lia).
    change (lit ++ [ch_slash; ch_star]) with (lit ++ [ch_slash] ++ [ch_star]). by rewrite app_assoc, take_app_length.
  - destruct (strip_prefix [ch_star] p) as [lit|] eqn:Ep.
    + apply strip_prefix_Some in Ep. apply (FormEnds p lit); [done..|]. intros s. by rewrite Hglob, ends_with_true.
    + apply FormExact; [done|]. intros s. by rewrite Hglob, bool_decide_eq_true.
Qed.

(** Patterns of equal specificity that match a common subject are one pattern. *)
Lemma specificity_separates p q s :
  glob_match p s = true → glob_match q s = true → pattern_specificity p = pattern_specificity q → p = q.
Proof.
  intros Hp Hq Heq.
  destruct (pattern_form_of p) as [Ep Sp|lp Ep Sp Gp|lp Ep Sp Gp|Sp Gp],
    (pattern_form_of q) as [Eq Sq|lq Eq Sq Gq|lq Eq Sq Gq|Sq Gq]; rewrite Sp, Sq in Heq; try discriminate.
  - congruence.
  - apply Gp in Hp. apply Gq in Hq. destruct Hp as [a Ha], Hq as [b Hb]. rewrite Ha in Hb.
    destruct (app_inj_1 (lp ++ [ch_slash]) (lq ++ [ch_slash]) a b) as [Hl _]; [|done|].
    { rewrite !length_app. cbn [length]. injection Heq. lia. }
    apply app_inv_tail in Hl. by rewrite Ep, Eq, Hl.
  - apply Gp in Hp. apply Gq in Hq. destruct Hp as [a Ha], Hq as [b Hb]. rewrite Ha in Hb.
    destruct (app_inj_2 a b lp lq) as [_ Hl]; [|done|]; [injection Heq; lia|]. by rewrite Ep, Eq, Hl.
  - apply Gp in Hp. apply Gq in Hq. congruence.
Qed.

(** ** The order of configurations *)

Record Down (A : Type) := mkDown { up : A }.
Arguments mkDown {A} up.
Arguments up {A} d.

#[export] Program Instance down_ord `{Ord A} : Ord (Down A) := {| cmp x y := cmp (up y) (up x) |}.
Next Obligation. intros A HA [x] [y]. cbn. rewrite cmp_eq. naive_solver. Qed.
Next Obligation. intros A HA [x] [y]. cbn. apply cmp_antisym. Qed.
Next Obligation. intros A HA [x] [y] [z]. cbn. intros Hxy Hyz. by apply (cmp_lt_trans _ (y)). Qed.

Definition config_rank (k : ConfigKey) : Down (Z * Z) * (list Z * list Z) := (mkDown k.1.1, (k.1.2, k.2)).

Lemma config_rank_inj k k' : config_rank k = config_rank k' → k = k'.
Proof. destruct k as [[k p] n], k' as [[k' p'] n']. unfold config_rank. cbn. intros [= -> -> ->]. done. Qed.

Lemma more_specific_rank c b : more_specific c b = match cmp (config_rank c) (config_rank b) with Lt => true | _ => false end.
Proof.
  destruct c as [[k p] n], b as [[k' p'] n'].
  change (cmp (config_rank (k, p, n)) (config_rank (k', p', n')))
    with (then_with (cmp k' k) (then_with (cmp p p') (cmp n n'))).
  unfold more_specific. rewrite (cmp_antisym k' k). destruct (cmp k' k); cbn [CompOpp then_with]; try done. by destruct (cmp p p').
Qed.

(** Nothing beats [k]. *)
Definition unbeaten (k : ConfigKey) (ks : list ConfigKey) : Prop := ∀ k', k' ∈ ks → more_specific k' k = false.

#[export] Instance unbeaten_perm k : Proper ((≡ₚ) ==> iff) (unbeaten k).
Proof. intros ks ks' Hp. unfold unbeaten. by setoid_rewrite Hp. Qed.

Lemma unbeaten_le k k' : more_specific k' k = false ↔ cmp (config_rank k) (config_rank k') ≠ Gt.
Proof.
  rewrite more_specific_rank, (cmp_antisym (config_rank k')). by destruct (cmp (config_rank k') (config_rank k)).
Qed.

Lemma unbeaten_unique k k' : more_specific k' k = false → more_specific k k' = false → k = k'.
Proof. rewrite !unbeaten_le. intros H1 H2. apply config_rank_inj. by apply cmp_le_antisym. Qed.

Lemma keep_best_fold {A} (l : list (ConfigKey * A)) : ∀ b,
  ∃ b', foldl keep_best (Some b) l = Some b' ∧ b' ∈ b :: l ∧ unbeaten b'.1 (map fst (b :: l)).
Proof.
  induction l as [|c l IH]; intros b; cbn [foldl keep_best].
  - exists b. split_and!; [done|by left|]. intros k Hk%list_elem_of_singleton. subst. apply unbeaten_le. by rewrite cmp_refl.
  - destruct (more_specific c.1 b.1) eqn:E.
    + destruct (IH c) as (b' & -> & Hin & Hun). exists b'. split_and!; [done|by right|].
      intros k [->|Hk]%elem_of_cons; [|by apply Hun].
      assert (Hc : more_specific c.1 b'.1 = false) by (apply Hun; by left).
      apply unbeaten_le. apply unbeaten_le in Hc. eapply cmp_le_trans; [exact Hc|].
      rewrite more_specific_rank in E. by destruct (cmp (config_rank c.1) (config_rank b.1)).
    + destruct (IH b) as (b' & -> & Hin & Hun). exists b'. split_and!; [done| |].
      * apply elem_of_cons in Hin as [->|Hin]; [by left|by right; right].
      * intros k [->|[->|Hk]%elem_of_cons]%elem_of_cons; [by apply Hun; left| |by apply Hun; right].
        assert (Hb : more_specific b.1 b'.1 = false) by (apply Hun; by left).
        apply unbeaten_le. apply unbeaten_le in Hb, E. by eapply cmp_le_trans.
Qed.

Lemma foldl_omap {A B C} (f : C → B → C) (g : A → option B) (l : list A) : ∀ c,
  foldl (λ c x, match g x with Some y => f c y | None => c end) c l = foldl f c (omap g l).
Proof. induction l as [|x l IH]; intros c; cbn; [done|]. destruct (g x); apply IH. Qed.

(** The best of a list of candidates. *)
Definition best_of {A} (cands : list (ConfigKey * A)) : option A := snd <$> foldl keep_best None cands.

Lemma best_of_spec {A} (cands : list (ConfigKey * A)) :
  match best_of cands with
  | Some a => ∃ k, (k, a) ∈ cands ∧ unbeaten k (map fst cands)
  | None => cands = []
  end.
Proof.
  unfold best_of. destruct cands as [|c l]; [done|]. cbn [foldl keep_best].
  destruct (keep_best_fold l c) as ([k a] & -> & Hin & Hun). cbn. by exists k.
Qed.

(** The order of the candidates does not matter when their keys are distinct. *)
Lemma best_of_perm {A} (cands cands' : list (ConfigKey * A)) :
  NoDup (map fst cands) → cands ≡ₚ cands' → best_of cands = best_of cands'.
Proof.
  intros Hnd Hp. pose proof (best_of_spec cands) as H1. pose proof (best_of_spec cands') as H2.
  destruct (best_of cands) as [a|], (best_of cands') as [a'|].
  - destruct H1 as (k & Hk & Hun), H2 as (k' & Hk' & Hun'). rewrite <-Hp in Hk'. rewrite <-Hp in Hun'.
    assert (k = k').
    { apply unbeaten_unique.
      - apply Hun. apply (list_elem_of_fmap_2 fst _ (k', a')). done.
      - apply Hun'. apply (list_elem_of_fmap_2 fst _ (k, a)). done. }
    subst k'. f_equal. clear -Hnd Hk Hk'.
    induction cands as [|[k0 a0] l IH]; [by apply not_elem_of_nil in Hk|].
    cbn [map fst] in Hnd. apply NoDup_cons in Hnd as [Hn Hnd].
    rewrite elem_of_cons in Hk, Hk'. destruct Hk as [Hk|Hk], Hk' as [Hk'|Hk']; [congruence| | |by apply IH].
    + destruct Hn. injection Hk as <- <-. by apply (list_elem_of_fmap_2 fst _ (k, a')).
    + destruct Hn. injection Hk' as <- <-. by apply (list_elem_of_fmap_2 fst _ (k, a)).
  - destruct H1 as (k & Hk & _). rewrite Hp, H2 in Hk. by apply not_elem_of_nil in Hk.
  - destruct H2 as (k & Hk & _). rewrite <-Hp, H1 in Hk. by apply not_elem_of_nil in Hk.
  - done.
Qed.

(** ** What peers need in common to choose alike *)

Section choice.
Context `{HC : Ciborium} {St : Type} `{HT : ContentStore St} {L : Type} `{HL : LocationIndex L}.

Definition candidates {A} (decode : list Z → option (list Z * A)) (path : list Z) (index : L) (store : St)
    (local_peer_id : list Z) : list (ConfigKey * A) :=
  omap (candidate decode path store) (li_list (merge_path_prefix local_peer_id) index).

Lemma best_config_best {A} (decode : list Z → option (list Z * A)) path index store id :
  best_config decode path index store id = best_of (candidates decode path index store id).
Proof. unfold best_config, best_of, candidates. by rewrite foldl_omap. Qed.

(** What a listed configuration brings to the choice: its name and its data. *)
Definition named_config (store : St) (entry : LocationEntry) : list Z * option (list Z) :=
  (config_name_of (le_path entry), data <$> store_get (le_hash entry) store).

Definition candidate_of {A} (decode : list Z → option (list Z * A)) (path : list Z) (c : list Z * option (list Z))
    : option (ConfigKey * A) :=
  d ← c.2;
  '(pattern, a) ← decode d;
  if path_pattern_matches pattern path then Some ((pattern_specificity pattern, pattern, c.1), a) else None.

Lemma candidate_named {A} (decode : list Z → option (list Z * A)) path store entry :
  candidate decode path store entry = candidate_of decode path (named_config store entry).
Proof. unfold candidate, candidate_of, named_config. cbn [fst snd]. by destruct (store_get (le_hash entry) store). Qed.

Definition named_configs (index : L) (store : St) (local_peer_id : list Z) : list (list Z * option (list Z)) :=
  map (named_config store) (li_list (merge_path_prefix local_peer_id) index).

Lemma candidates_named {A} (decode : list Z → option (list Z * A)) path index store id :
  candidates decode path index store id = omap (candidate_of decode path) (named_configs index store id).
Proof.
  unfold candidates, named_configs. induction (li_list _ index) as [|e l IH]; [done|].
  cbn [omap list_omap map]. rewrite candidate_named. by rewrite IH.
Qed.

Lemma candidate_of_key {A} (decode : list Z → option (list Z * A)) path c k a :
  candidate_of decode path c = Some (k, a) →
  ∃ d pattern, c.2 = Some d ∧ decode d = Some (pattern, a) ∧ glob_match pattern path = true
    ∧ k = (pattern_specificity pattern, pattern, c.1).
Proof.
  unfold candidate_of. destruct c as [n [d|]]; [|done]. cbn [fst snd mbind option_bind].
  destruct (decode d) as [[pattern a']|] eqn:Ed; cbn [mbind option_bind]; [|done].
  destruct (path_pattern_matches pattern path) eqn:Em; [|done]. intros Heq. injection Heq as <- <-.
  exists d, pattern. split_and!; [done|done|exact Em|done].
Qed.

(** Configurations of different names compete under different keys. *)
Lemma candidates_NoDup {A} (decode : list Z → option (list Z * A)) path (cs : list (list Z * option (list Z))) :
  NoDup (map fst cs) → NoDup (map fst (omap (candidate_of decode path) cs)).
Proof.
  induction cs as [|c cs IH]; cbn [map]; [constructor|].
  intros [Hn Hnd]%NoDup_cons. cbn [omap list_omap].
  destruct (candidate_of decode path c) as [[k a]|] eqn:E; [|by apply IH].
  cbn [map fst]. apply NoDup_cons. split; [|by apply IH].
  intros ([k' a'] & -> & Hin)%list_elem_of_fmap. apply list_elem_of_omap in Hin as (c' & Hc' & Hk').
  apply candidate_of_key in E as (_ & p & _ & _ & _ & Hkey). apply candidate_of_key in Hk' as (_ & p' & _ & _ & _ & Hkey').
  cbn [fst] in Hkey. rewrite Hkey in Hkey'. injection Hkey' as _ _ Hname. destruct Hn. rewrite Hname.
  by apply (list_elem_of_fmap_2 fst).
Qed.

(** The strategy that the configuration of a type resolves to. *)
Definition type_config (index : L) (store : St) (local_peer_id type_name : list Z) : option MergeStrategy :=
  config_hash ← li_get (merge_type_path local_peer_id type_name) index;
  config_entity ← store_get config_hash store;
  mc_strategy (decode_merge_config (data config_entity)).

(** Two peers hold the same configurations, in whatever order they list them, with distinct
    names. *)
Record same_configs (id1 : list Z) (index1 : L) (store1 : St) (id2 : list Z) (index2 : L) (store2 : St) : Prop := {
  same_paths : named_configs index1 store1 id1 ≡ₚ named_configs index2 store2 id2;
  same_names : NoDup (map fst (named_configs index1 store1 id1));
  same_types : ∀ t, type_config index1 store1 id1 t = type_config index2 store2 id2 t;
}.

Section same.
Context (id1 : list Z) (index1 : L) (store1 : St) (id2 : list Z) (index2 : L) (store2 : St).
Hypothesis Hsame : same_configs id1 index1 store1 id2 index2 store2.

Lemma best_config_same {A} (decode : list Z → option (list Z * A)) path :
  best_config decode path index1 store1 id1 = best_config decode path index2 store2 id2.
Proof.
  rewrite !best_config_best, !candidates_named. apply best_of_perm.
  - apply candidates_NoDup, Hsame.
  - by rewrite (same_paths _ _ _ _ _ _ Hsame).
Qed.

Lemma find_deletion_resolution_same path :
  find_deletion_resolution path index1 store1 id1 = find_deletion_resolution path index2 store2 id2.
Proof. unfold find_deletion_resolution. by rewrite best_config_same. Qed.

Lemma type_strategy_same types :
  type_strategy types index1 store1 id1 = type_strategy types index2 store2 id2.
Proof.
  induction types as [|t types IH]; [done|]. cbn [type_strategy].
  pose proof (same_types _ _ _ _ _ _ Hsame t) as Ht. unfold type_config in Ht. rewrite Ht, IH. done.
Qed.

Definition same_type (h : Hash) : Prop := entity_type <$> store_get h store1 = entity_type <$> store_get h store2.

Lemma find_merge_strategy_same path override l r :
  same_type l → same_type r →
  find_merge_strategy path override index1 store1 (Some l) (Some r) id1
  = find_merge_strategy path override index2 store2 (Some l) (Some r) id2.
Proof.
  intros Hl Hr. unfold find_merge_strategy. rewrite best_config_same.
  assert (Ht : types_to_check (Some l) (Some r) store1 = types_to_check (Some l) (Some r) store2).
  { unfold types_to_check. cbn [omap list_omap id foldl]. unfold same_type in *.
    destruct (store_get l store1), (store_get l store2); try discriminate Hl; try injection Hl as Hl;
      destruct (store_get r store1), (store_get r store2); try discriminate Hr; try injection Hr as Hr;
      rewrite ?Hl, ?Hr; done. }
  by rewrite Ht, type_strategy_same.
Qed.
End same.
End choice.

(** ** What a merge makes of one path *)

(** The binding, the deletions and the conflicts of a path in a result. *)
Definition at_path (p : list Z) (r : MergeResult) : option Hash * list (list Z) * list ConflictInfo :=
  (bt_get p (merged_bindings r), filter (λ q, q = p) (deletions r), filter (λ c, cf_path c = p) (conflicts r)).

Inductive Verdict :=
  | Unbound
  | Bound (h : Hash)
  | Removed (marker : Hash)
  | InConflict (l r : Hash) (strategy : list Z).

(** The result at [p] says [v]. *)
Definition says (p : list Z) (base : option Hash) (v : Verdict) : option Hash * list (list Z) * list ConflictInfo :=
  match v with
  | Unbound => (None, [], [])
  | Bound h => (Some h, [], [])
  | Removed marker => (Some marker, [p], [])
  | InConflict l r strategy => (Some l, [], [mkConflict p base (Some l) (Some r) strategy])
  end.

(** The side that moved away from the base when the other stayed. *)
Definition one_side_changed (base : option Hash) (l r : Hash) : option Hash :=
  if bool_decide (base = Some l) then Some r
  else if bool_decide (base = Some r) then Some l
  else None.

Definition bound_or_removed (marker h : Hash) : Verdict :=
  if bool_decide (h = marker) then Removed marker else Bound h.

(** Three-way merging of one path: [base], [local] and [remote] are its bindings, [dr] and
    [strategy] what is configured for it. *)
Definition verdict (marker : Hash) (base local remote : option Hash) (dr : DeletionResolution) (strategy : MergeStrategy)
    : Verdict :=
  match local, remote with
  | None, None => Unbound
  | Some h, None | None, Some h => Bound h
  | Some l, Some r =>
      if bool_decide (l = r) then Bound l
      else if xorb (bool_decide (l = marker)) (bool_decide (r = marker)) then
        match one_side_changed base l r, dr with
        | Some h, _ => bound_or_removed marker h
        | None, PreserveOnConflict => Bound (if bool_decide (l = marker) then r else l)
        | None, DeletionWins => Removed marker
        | None, ThreeWayFallthrough => InConflict l r (lit "three-way-fallthrough")
        | None, Deterministic => bound_or_removed marker (match cmp l r with Lt => l | _ => r end)
        end
      else
        match strategy with
        | SourceWins => Bound r
        | TargetWins | KeepBoth => Bound l
        | ThreeWay => match one_side_changed base l r with Some h => Bound h | None => InConflict l r (lit "three-way") end
        | Manual | Handler _ | Unresolvable _ => InConflict l r (strategy_as_str strategy)
        end
  end.

Lemma at_path_insert p q h r :
  bt_ok (merged_bindings r) →
  at_path p (merged_insert q h r) = (if decide (p = q) then Some h else (at_path p r).1.1, (at_path p r).1.2, (at_path p r).2).
Proof.
  intros Hr. unfold at_path. cbn [merged_insert merged_bindings deletions conflicts fst snd]. f_equal. f_equal.
  case_decide as Hp; [subst; by apply bt_get_insert_eq|by apply bt_get_insert_ne].
Qed.

Lemma at_path_deletion p q r :
  at_path p (push_deletion q r) = ((at_path p r).1.1, (at_path p r).1.2 ++ (if decide (q = p) then [q] else []), (at_path p r).2).
Proof.
  unfold at_path. cbn [push_deletion merged_bindings deletions conflicts fst snd]. rewrite filter_app.
  cbn [filter list_filter]. by case_decide.
Qed.

Lemma at_path_conflict p c r :
  at_path p (push_conflict c r) = ((at_path p r).1, (at_path p r).2 ++ (if decide (cf_path c = p) then [c] else [])).
Proof.
  unfold at_path. cbn [push_conflict merged_bindings deletions conflicts fst snd]. rewrite filter_app.
  cbn [filter list_filter]. by case_decide.
Qed.

Lemma at_path_additional p q h r : at_path p (push_additional q h r) = at_path p r.
Proof. done. Qed.

(** [acc'] is [acc] with the verdict [v] on [q]. *)
Definition ruled (acc : MergeResult) (q : list Z) (base : option Hash) (v : Verdict) (acc' : MergeResult) : Prop :=
  bt_ok (merged_bindings acc) → at_path q acc = (None, [], []) →
  bt_ok (merged_bindings acc') ∧ at_path q acc' = says q base v ∧ ∀ p, p ≠ q → at_path p acc' = at_path p acc.

Section rulings.
Context (acc : MergeResult) (q : list Z) (base : option Hash).

Ltac rule :=
  let Hok := fresh "Hok" in let Hq := fresh "Hq" in let p := fresh "p" in let Hp := fresh "Hp" in
  intros Hok Hq; split; [by apply bt_insert_ok|];
  split; [|intros p Hp];
  rewrite ?at_path_additional, ?at_path_deletion, ?at_path_insert, ?at_path_conflict, ?at_path_deletion
    by (exact Hok || by apply bt_insert_ok);
  cbn [cf_path];
  [rewrite Hq; rewrite ?(decide_True (P := q = q)) by done; done
  |rewrite ?(decide_False (P := p = q)) by done; rewrite ?(decide_False (P := q = p)) by congruence;
   rewrite ?app_nil_r; by destruct (at_path p _) as [[? ?] ?]].

Lemma rule_bound h : ruled acc q base (Bound h) (merged_insert q h acc).
Proof. rule. Qed.

Lemma rule_removed m : ruled acc q base (Removed m) (push_deletion q (merged_insert q m acc)).
Proof. rule. Qed.

Lemma rule_conflict l r name :
  ruled acc q base (InConflict l r name)
    (merged_insert q l (push_conflict (mkConflict q base (Some l) (Some r) name) acc)).
Proof. rule. Qed.

Lemma rule_additional h b r : ruled acc q base (Bound h) (push_additional b r (merged_insert q h acc)).
Proof. rule. Qed.
End rulings.

Lemma rule_unbound acc q base : ruled acc q base Unbound acc.
Proof. done. Qed.

#[export] Hint Resolve rule_bound rule_removed rule_conflict rule_additional rule_unbound : entity.

Lemma merge_deletion_ruled q marker base l r dr acc :
  l ≠ r → xorb (bool_decide (l = marker)) (bool_decide (r = marker)) = true →
  ruled acc q base
    match one_side_changed base l r, dr with
    | Some h, _ => bound_or_removed marker h
    | None, PreserveOnConflict => Bound (if bool_decide (l = marker) then r else l)
    | None, DeletionWins => Removed marker
    | None, ThreeWayFallthrough => InConflict l r (lit "three-way-fallthrough")
    | None, Deterministic => bound_or_removed marker (match cmp l r with Lt => l | _ => r end)
    end (merge_deletion q marker base l r dr acc).
Proof.
  intros Hne Hx. unfold merge_deletion, one_side_changed, bound_or_removed.
  destruct (bool_decide (base = Some l)); [|destruct (bool_decide (base = Some r))].
  - destruct (bool_decide (r = marker)) eqn:E; [apply bool_decide_eq_true in E; rewrite E|]; cbn iota zeta; auto with entity.
  - destruct (bool_decide (l = marker)) eqn:E; [apply bool_decide_eq_true in E; rewrite E|]; cbn iota zeta; auto with entity.
  - destruct dr; auto with entity.
    destruct (bool_decide ((match cmp l r with Lt => l | _ => r end) = marker)) eqn:E; auto with entity.
    apply bool_decide_eq_true in E. rewrite E. auto with entity.
Qed.

Section loop.
Context `{HC : Ciborium} {St : Type} `{HT : ContentStore St} {L : Type} `{HL : LocationIndex L}.
Context (base local remote : PathMap) (marker : Hash) (override : option (list Z)) (store : St) (index : L) (id : list Z).

Notation step := (merge_path base local remote marker override store index id).

(** What is configured for a path. *)
Definition resolution_at (p : list Z) : DeletionResolution := find_deletion_resolution p index store id.
Definition strategy_at (p : list Z) : MergeStrategy :=
  find_merge_strategy p override index store (bt_get p local) (bt_get p remote) id.

Definition verdict_at (p : list Z) : Verdict :=
  verdict marker (bt_get p base) (bt_get p local) (bt_get p remote) (resolution_at p) (strategy_at p).

Lemma merge_path_ruled acc q acc' :
  step acc q = Some acc' → ruled acc q (bt_get q base) (verdict_at q) acc'.
Proof.
  unfold merge_path, verdict_at, verdict, strategy_at, resolution_at.
  destruct (bt_get q local) as [l|], (bt_get q remote) as [r|]; [|intros [= <-]; auto with entity..].
  case_bool_decide as Hlr; [subst; intros [= <-]; auto with entity|].
  destruct (xorb _ _) eqn:Hx; [intros [= <-]; by apply merge_deletion_ruled|].
  unfold merge_edits, one_side_changed.
  destruct (find_merge_strategy _ _ _ _ _ _ _); try (intros [= <-]; auto with entity; done).
  - destruct (bool_decide (bt_get q base = Some l)); [intros [= <-]; auto with entity|].
    destruct (bool_decide (bt_get q base = Some r)); intros [= <-]; auto with entity.
  - destruct (keep_both_path q r); [|done]. intros [= <-]. auto with entity.
Qed.

Lemma merge_path_returns acc q :
  (∀ h, bt_get q remote = Some h → (4 ≤ length (digest h))%nat) → is_Some (step acc q).
Proof.
  intros Hd. unfold merge_path. destruct (bt_get q local) as [l|], (bt_get q remote) as [r|]; [|by eexists..].
  specialize (Hd r eq_refl). apply Nat.leb_le in Hd. case_bool_decide; [by eexists|]. destruct (xorb _ _); [by eexists|].
  unfold merge_edits. destruct (find_merge_strategy _ _ _ _ _ _ _); try by eexists.
  - case_bool_decide; [by eexists|]. case_bool_decide; by eexists.
  - unfold keep_both_path. rewrite Hd. by eexists.
Qed.

Lemma merge_fold_spec paths : ∀ acc,
  (∀ p h, p ∈ paths → bt_get p remote = Some h → (4 ≤ length (digest h))%nat) →
  NoDup paths → bt_ok (merged_bindings acc) → (∀ p, p ∈ paths → at_path p acc = (None, [], [])) →
  ∃ R, fold_opt step acc paths = Some R ∧ bt_ok (merged_bindings R)
    ∧ (∀ p, p ∈ paths → at_path p R = says p (bt_get p base) (verdict_at p))
    ∧ (∀ p, p ∉ paths → at_path p R = at_path p acc).
Proof.
  induction paths as [|q paths IH]; intros acc Hd Hnd Hok Hfree.
  - exists acc. split_and!; [done|done| |done]. intros p Hp. by apply not_elem_of_nil in Hp.
  - apply NoDup_cons in Hnd as [Hq Hnd]. cbn [fold_opt].
    destruct (merge_path_returns acc q) as [acc' E]; [intros h; apply Hd; by left|]. rewrite E. cbn [mbind option_bind].
    destruct (merge_path_ruled acc q acc' E) as (Hok' & Hat & Hrest); [done|apply Hfree; by left|].
    destruct (IH acc') as (R & -> & HR & Hin & Hout); [|done|done| |].
    + intros p h Hp. apply Hd. by right.
    + intros p Hp. rewrite Hrest by (intros ->; contradiction). apply Hfree. by right.
    + exists R. split_and!; [done|done| |].
      * intros p [->|Hp]%elem_of_cons; [by rewrite Hout|by apply Hin].
      * intros p [Hpq Hp]%not_elem_of_cons. by rewrite Hout, Hrest.
Qed.
End loop.

Lemma elem_of_collect_paths base local remote p :
  p ∈ collect_paths base local remote ↔ p ∈ map fst base ++ map fst local ++ map fst remote.
Proof.
  unfold collect_paths. rewrite sort_by_Permutation.
  assert (Hf : ∀ (l acc : list (list Z)), p ∈ foldl (λ all_paths path, if bool_decide (path ∈ all_paths) then all_paths else all_paths ++ [path]) acc l
                 ↔ p ∈ acc ∨ p ∈ l).
  { induction l as [|x l IH]; intros acc; cbn [foldl]; [set_solver|]. rewrite IH. case_bool_decide; set_solver. }
  rewrite Hf. set_solver.
Qed.

Lemma NoDup_collect_paths base local remote : NoDup (collect_paths base local remote).
Proof.
  unfold collect_paths. rewrite sort_by_Permutation.
  assert (Hf : ∀ (l acc : list (list Z)), NoDup acc → NoDup (foldl (λ all_paths path, if bool_decide (path ∈ all_paths) then all_paths else all_paths ++ [path]) acc l)).
  { induction l as [|x l IH]; intros acc Hacc; cbn [foldl]; [done|]. apply IH. case_bool_decide as Hx; [done|].
    apply NoDup_app. split_and!; [done|set_solver|apply NoDup_singleton]. }
  apply Hf. constructor.
Qed.

(** The merged maps carry the verdict of every path. *)
Lemma merge_snapshots_spec `{HS : Sha2} `{HC : Ciborium} {St} `{HT : ContentStore St} {L} `{HL : LocationIndex L}
    home ancestor local remote override (store : St) (index : L) id marker :
  canonical_deletion_marker_hash home = Some marker →
  (∀ p h, bt_get p remote = Some h → (4 ≤ length (digest h))%nat) →
  ∃ R, merge_snapshots home ancestor local remote override store index id = Some R ∧ bt_ok (merged_bindings R)
    ∧ ∀ p, at_path p R = says p (bt_get p (default [] ancestor))
                              (verdict_at (default [] ancestor) local remote marker override store index id p).
Proof.
  intros Hm Hd. unfold merge_snapshots. rewrite Hm. cbn [mbind option_bind].
  set (base := default [] ancestor). set (paths := collect_paths base local remote).
  destruct (merge_fold_spec base local remote marker override store index id paths (mkMerged [] [] [] []))
    as (R & HR & Hok & Hin & Hout); [|apply NoDup_collect_paths|constructor|done|].
  { intros p h _. apply Hd. }
  exists R. split_and!; [done|done|]. intros p. destruct (decide (p ∈ paths)) as [Hp|Hp]; [by apply Hin|].
  rewrite (Hout p Hp). unfold paths in Hp. rewrite elem_of_collect_paths in Hp.
  assert (Hl : bt_get p local = None).
  { destruct (bt_get p local) as [h|] eqn:E; [|done]. apply bt_get_fst in E. set_solver. }
  assert (Hr : bt_get p remote = None).
  { destruct (bt_get p remote) as [h|] eqn:E; [|done]. apply bt_get_fst in E. set_solver. }
  unfold verdict_at. by rewrite Hl, Hr.
Qed.

(** ** Selection, spelled out *)

Section selection.
Context `{HC : Ciborium} {St : Type} `{HT : ContentStore St} {L : Type} `{HL : LocationIndex L}.
Context (index : L) (store : St) (pid : list Z).

Lemma type_strategy_head types : type_strategy types index store pid = head (omap (type_config index store pid) types).
Proof.
  induction types as [|t types IH]; [done|]. cbn [type_strategy omap list_omap]. unfold type_config in *.
  destruct (h ← _; _) as [s|]; [done|]. exact IH.
Qed.

(** The first type configuration that resolves, the local entity's before the remote one's. *)
Definition first_type_config (l r : Hash) : option MergeStrategy :=
  head (omap (λ h, e ← store_get h store; type_config index store pid (entity_type e)) [l; r]).

Lemma type_strategy_first l r :
  type_strategy (types_to_check (Some l) (Some r) store) index store pid = first_type_config l r.
Proof.
  rewrite type_strategy_head. unfold types_to_check, first_type_config. cbn [omap list_omap id foldl].
  destruct (store_get l store) as [el|], (store_get r store) as [er|]; cbn [mbind option_bind]; try done.
  - rewrite (bool_decide_eq_false_2 (entity_type el ∈ [])) by apply not_elem_of_nil. cbn [app].
    case_bool_decide as Hin.
    + apply list_elem_of_singleton in Hin. rewrite Hin. cbn. by destruct (type_config index store pid (entity_type el)).
    + done.
Qed.

(** A configuration under the prefix, with the path's pattern. *)
Definition configured {A} (decode : list Z → option (list Z * A)) (path pattern name : list Z) (a : A) : Prop :=
  ∃ entry e, entry ∈ li_list (merge_path_prefix pid) index ∧ store_get (le_hash entry) store = Some e
    ∧ decode (data e) = Some (pattern, a) ∧ glob_match pattern path = true ∧ name = config_name_of (le_path entry).

Lemma candidates_configured {A} (decode : list Z → option (list Z * A)) path k a :
  (k, a) ∈ candidates decode path index store pid
  ↔ ∃ pattern name, k = (pattern_specificity pattern, pattern, name) ∧ configured decode path pattern name a.
Proof.
  unfold candidates. rewrite list_elem_of_omap. split.
  - intros (entry & Hin & Hc). rewrite candidate_named in Hc.
    apply candidate_of_key in Hc as (d & p & Hd & Hdec & Hg & ->). exists p, (config_name_of (le_path entry)).
    split; [done|]. unfold named_config in Hd. cbn [snd] in Hd.
    destruct (store_get (le_hash entry) store) as [e|] eqn:Ee; [|done]. injection Hd as Hd. exists entry, e.
    split_and!; try done. by rewrite Hd.
  - intros (p & n & -> & entry & e & Hin & He & Hd & Hg & ->). exists entry. split; [done|].
    unfold candidate. rewrite He. cbn [mbind option_bind]. rewrite Hd. cbn [mbind option_bind].
    unfold path_pattern_matches. by rewrite Hg.
Qed.

(** A matching configuration wins over one that is less specific, and over one of the same pattern
    with a later name. *)
Definition outranks (pattern name pattern' name' : list Z) : Prop :=
  cmp (pattern_specificity pattern') (pattern_specificity pattern) = Lt
  ∨ (pattern' = pattern ∧ cmp name name' ≠ Gt).

Lemma unbeaten_outranks path pattern name pattern' name' :
  glob_match pattern path = true → glob_match pattern' path = true →
  more_specific (pattern_specificity pattern', pattern', name') (pattern_specificity pattern, pattern, name) = false →
  outranks pattern name pattern' name'.
Proof.
  intros Hp Hp'. unfold more_specific, outranks.
  destruct (cmp (pattern_specificity pattern') (pattern_specificity pattern)) eqn:E; [|by left|done].
  apply cmp_eq in E. apply (specificity_separates pattern' pattern path) in E as ->; [|done|done].
  rewrite cmp_refl. intros Hn. right. split; [done|]. rewrite (cmp_antisym name' name). by destruct (cmp name' name).
Qed.

Lemma best_config_spec {A} (decode : list Z → option (list Z * A)) path :
  match best_config decode path index store pid with
  | Some a => ∃ pattern name, configured decode path pattern name a
      ∧ ∀ pattern' name' a', configured decode path pattern' name' a' → outranks pattern name pattern' name'
  | None => ∀ pattern name a, ¬ configured decode path pattern name a
  end.
Proof.
  rewrite best_config_best. pose proof (best_of_spec (candidates decode path index store pid)) as Hb.
  destruct (best_of _) as [a|].
  - destruct Hb as (k & Hk & Hun). apply candidates_configured in Hk as (p & n & -> & Hc). exists p, n.
    split; [done|]. intros p' n' a' Hc'.
    assert (Hg : glob_match p path = true) by by destruct Hc as (? & ? & _ & _ & _ & ? & _).
    assert (Hg' : glob_match p' path = true) by by destruct Hc' as (? & ? & _ & _ & _ & ? & _).
    apply (unbeaten_outranks path); [done|done|]. apply Hun. apply list_elem_of_fmap.
    exists ((pattern_specificity p', p', n'), a'). split; [done|]. apply candidates_configured. by exists p', n'.
  - intros p n a Hc. assert (Hin : ((pattern_specificity p, p, n), a) ∈ candidates decode path index store pid).
    { apply candidates_configured. by exists p, n. }
    rewrite Hb in Hin. by apply not_elem_of_nil in Hin.
Qed.
End selection.

Lemma deletion_marker_exists `{Sha2Ok} home :
  digest_len_for_format home ≠ None → ∃ marker, canonical_deletion_marker_hash home = Some marker.
Proof.
  intros Hhome. destruct (entity_new_encoded home TYPE_DELETION_MARKER (VMap [])) as (e & He & _); [done..|].
  exists (content_hash e). unfold canonical_deletion_marker_hash, canonical_deletion_marker_entity.
  change [0xA0] with (to_ecf (VMap [])). by rewrite He.
Qed.

Lemma fold_opt_ext {A B} (f g : B → A → option B) l : (∀ acc x, f acc x = g acc x) → ∀ acc, fold_opt f acc l = fold_opt g acc l.
Proof.
  intros Hfg. induction l as [|x l IH]; intros acc; [done|]. cbn [fold_opt]. rewrite Hfg.
  destruct (g acc x); [|done]. cbn [mbind option_bind]. apply IH.
Qed.

(** Sides ordered by version are the same sides from either peer. *)
Lemma normalize_sym A B va vb :
  va ≠ vb → normalize_merge_sides B A vb va (lit "deterministic") = normalize_merge_sides A B va vb (lit "deterministic").
Proof.
  intros Hne. unfold normalize_merge_sides. rewrite (bool_decide_eq_true_2 (lit "deterministic" = _)) by done. cbn [andb].
  rewrite (cmp_antisym vb va). destruct (cmp vb va) eqn:E; cbn [CompOpp]; [by apply cmp_eq in E; congruence| |].
  - by rewrite bool_decide_eq_false_2, bool_decide_eq_true_2.
  - by rewrite bool_decide_eq_true_2, bool_decide_eq_false_2.
Qed.

Lemma normalize_sides A B va vb order :
  let '(l, r, vl, vr) := normalize_merge_sides A B va vb order in
  (l = A ∧ r = B ∧ vl = va ∧ vr = vb) ∨ (l = B ∧ r = A ∧ vl = vb ∧ vr = va).
Proof. unfold normalize_merge_sides. destruct (_ && _); auto. Qed.

(** * Properties *)

(** C12. A merge refines a verdict path by path.  For maps in any state of the tree, merging
    returns, its bindings are ordered, and at every path the merged binding, the deletions and the
    conflict entries are those of the three-way verdict on the path's three bindings and what is
    configured for it; a conflict entry holds exactly those three bindings, and local stays
    bound. *)
Theorem merge_refines_verdict `{HS : Sha2} `{HC : Ciborium} {St} `{HT : ContentStore St} {L} `{HL : LocationIndex L}
    home ancestor local remote override (store : St) (index : L) local_peer_id marker :
  canonical_deletion_marker_hash home = Some marker →
  (∀ p h, bt_get p remote = Some h → (4 ≤ length (digest h))%nat) →
  ∃ R, merge_snapshots home ancestor local remote override store index local_peer_id = Some R
    ∧ bt_ok (merged_bindings R)
    ∧ ∀ p, let base := bt_get p (default [] ancestor) in
           let l := bt_get p local in let r := bt_get p remote in
           at_path p R = says p base
             (verdict marker base l r (find_deletion_resolution p index store local_peer_id)
                (find_merge_strategy p override index store l r local_peer_id)).
Proof. intros Hm Hd. apply (merge_snapshots_spec home ancestor local remote override store index local_peer_id marker Hm Hd). Qed.

(** Nothing is configured: every path merges three ways, entities over deletions. *)
Definition unconfigured `{Ciborium} {St} `{ContentStore St} {L} `{LocationIndex L} (index : L) (store : St) (id : list Z)
    : Prop :=
  li_list (merge_path_prefix id) index = [] ∧ ∀ t, type_config index store id t = None.

Lemma unconfigured_defaults `{HC : Ciborium} {St} `{HT : ContentStore St} {L} `{HL : LocationIndex L} (index : L) (store : St) id p l r :
  unconfigured index store id →
  find_merge_strategy p None index store l r id = ThreeWay
  ∧ find_deletion_resolution p index store id = PreserveOnConflict.
Proof.
  intros [Hl Ht].
  assert (Hb : ∀ A (decode : list Z → option (list Z * A)), best_config decode p index store id = None)
    by (intros A decode; unfold best_config; by rewrite Hl).
  unfold find_merge_strategy, find_deletion_resolution. rewrite !Hb. split; [|done]. cbn [mbind option_bind].
  assert (Hs : ∀ types, type_strategy types index store id = None).
  { intros types. rewrite type_strategy_head. induction types as [|t types IH]; [done|]. cbn [omap list_omap]. by rewrite Ht. }
  by rewrite Hs.
Qed.

Definition no_conflict_at (p : list Z) (R : MergeResult) : Prop := filter (λ c, cf_path c = p) (conflicts R) = [].

Definition in_conflict (v : Verdict) : bool := match v with InConflict _ _ _ => true | _ => false end.
Definition bound_of (v : Verdict) : option Hash :=
  match v with Unbound => None | Bound h | Removed h | InConflict h _ _ => Some h end.

Lemma says_conflict p base v R : at_path p R = says p base v → (no_conflict_at p R ↔ in_conflict v = false).
Proof. unfold no_conflict_at. intros Ha. apply (f_equal snd) in Ha. cbn in Ha. rewrite Ha. by destruct v. Qed.

Lemma says_bound p base v R : at_path p R = says p base v → bt_get p (merged_bindings R) = bound_of v.
Proof. intros Ha. apply (f_equal (fst ∘ fst)) in Ha. cbn in Ha. rewrite Ha. by destruct v. Qed.

(** ** The default verdict *)

Section default_verdict.
Context (marker : Hash) (base : option Hash).
Notation judge l r := (verdict marker base l r PreserveOnConflict ThreeWay).

Lemma bound_or_removed_bound h :
  bound_of (bound_or_removed marker h) = Some h ∧ in_conflict (bound_or_removed marker h) = false.
Proof. unfold bound_or_removed. by case_bool_decide; subst. Qed.

Lemma judge_self a : bound_of (judge a a) = a ∧ in_conflict (judge a a) = false.
Proof. unfold verdict. destruct a as [h|]; [|done]. by rewrite bool_decide_eq_true_2. Qed.

Lemma judge_unchanged a b :
  base = a → bound_of (judge a b) = match b with Some h => Some h | None => a end ∧ in_conflict (judge a b) = false.
Proof.
  intros Hb. unfold verdict, one_side_changed. destruct a as [x|], b as [y|]; try done. rewrite Hb.
  case_bool_decide as Hxy; [by subst|]. rewrite (bool_decide_eq_true_2 (Some x = Some x)) by done.
  destruct (xorb _ _); [apply bound_or_removed_bound|done].
Qed.

Lemma judge_conflict a b :
  in_conflict (judge a b) = true ↔
  ∃ x y, a = Some x ∧ b = Some y ∧ x ≠ y ∧ x ≠ marker ∧ y ≠ marker ∧ base ≠ Some x ∧ base ≠ Some y.
Proof.
  unfold verdict, one_side_changed. destruct a as [x|], b as [y|]; try (split; [done|intros (? & ? & ? & ? & _); done]).
  transitivity (x ≠ y ∧ x ≠ marker ∧ y ≠ marker ∧ base ≠ Some x ∧ base ≠ Some y); [|naive_solver].
  case_bool_decide as Hxy; [naive_solver|].
  destruct (decide (base = Some x)) as [Bx|Bx].
  { rewrite (bool_decide_eq_true_2 (base = Some x)) by done. split; [|naive_solver].
    destruct (xorb _ _); [by rewrite (proj2 (bound_or_removed_bound _))|done]. }
  rewrite (bool_decide_eq_false_2 (base = Some x)) by done.
  destruct (decide (base = Some y)) as [By|By].
  { rewrite (bool_decide_eq_true_2 (base = Some y)) by done. split; [|naive_solver].
    destruct (xorb _ _); [by rewrite (proj2 (bound_or_removed_bound _))|done]. }
  rewrite (bool_decide_eq_false_2 (base = Some y)) by done.
  destruct (decide (x = marker)) as [Mx|Mx], (decide (y = marker)) as [My|My];
    rewrite ?(bool_decide_eq_true_2 _ Mx), ?(bool_decide_eq_false_2 _ Mx), ?(bool_decide_eq_true_2 _ My), ?(bool_decide_eq_false_2 _ My);
    cbn [xorb in_conflict]; [congruence|split; [done|intros (_ & ? & ? & _); congruence]..|by split].
Qed.

Lemma judge_sym a b :
  in_conflict (judge a b) = false →
  in_conflict (judge b a) = false ∧ bound_of (judge b a) = bound_of (judge a b).
Proof.
  intros Hc. split.
  - destruct (in_conflict (judge b a)) eqn:E; [|done]. apply judge_conflict in E as (x & y & Hx & Hy & ? & ? & ? & ? & ?).
    rewrite <-Hc. symmetry. apply judge_conflict. exists y, x. auto 10.
  - revert Hc. unfold verdict, one_side_changed. destruct a as [x|], b as [y|]; try done.
    rewrite (bool_decide_ext (y = x) (x = y)) by done. case_bool_decide as Hxy; [by subst|].
    rewrite (xorb_comm (bool_decide (y = marker))).
    destruct (bool_decide (base = Some x)) eqn:Ex, (bool_decide (base = Some y)) eqn:Ey;
      try (apply bool_decide_eq_true in Ex); try (apply bool_decide_eq_true in Ey); try congruence.
    all: destruct (bool_decide (x = marker)) eqn:Mx, (bool_decide (y = marker)) eqn:My; cbn [xorb]; try done.
Qed.
End default_verdict.

(** The laws of three-way merging, where nothing is configured.  Merging a snapshot with
    itself gives it back; against an unchanged side the other side wins and there is no conflict;
    a conflict is recorded exactly where both sides moved from the base to different entities; and
    elsewhere merging in the other direction comes to the same. *)
Theorem merge_three_way_laws `{HS : Sha2} `{HC : Ciborium} {St} `{HT : ContentStore St} {L} `{HL : LocationIndex L}
    home base A B (store : St) (index : L) id marker :
  canonical_deletion_marker_hash home = Some marker → unconfigured index store id →
  (∀ p h, bt_get p A = Some h ∨ bt_get p B = Some h → (4 ≤ length (digest h))%nat) →
  ∃ AA AB BA, merge_snapshots home (Some base) A A None store index id = Some AA
    ∧ merge_snapshots home (Some base) A B None store index id = Some AB
    ∧ merge_snapshots home (Some base) B A None store index id = Some BA
    ∧ ∀ p, (bt_get p (merged_bindings AA) = bt_get p A ∧ no_conflict_at p AA)
      ∧ (bt_get p base = bt_get p A →
           no_conflict_at p AB
           ∧ bt_get p (merged_bindings AB) = match bt_get p B with Some h => Some h | None => bt_get p A end)
      ∧ (¬ no_conflict_at p AB ↔ ∃ a b, bt_get p A = Some a ∧ bt_get p B = Some b ∧ a ≠ b ∧ a ≠ marker ∧ b ≠ marker
                                      ∧ bt_get p base ≠ Some a ∧ bt_get p base ≠ Some b)
      ∧ (no_conflict_at p AB → no_conflict_at p BA ∧ bt_get p (merged_bindings BA) = bt_get p (merged_bindings AB)).
Proof.
  intros Hm Hu Hd.
  destruct (merge_snapshots_spec home (Some base) A A None store index id marker Hm) as (AA & HAA & _ & SAA); [naive_solver|].
  destruct (merge_snapshots_spec home (Some base) A B None store index id marker Hm) as (AB & HAB & _ & SAB); [naive_solver|].
  destruct (merge_snapshots_spec home (Some base) B A None store index id marker Hm) as (BA & HBA & _ & SBA); [naive_solver|].
  exists AA, AB, BA. split; [done|]. split; [done|]. split; [done|]. intros p. specialize (SAA p). specialize (SAB p). specialize (SBA p).
  unfold verdict_at, strategy_at, resolution_at in SAA, SAB, SBA. change (default [] (Some base)) with base in SAA, SAB, SBA.
  destruct (unconfigured_defaults index store id p (bt_get p A) (bt_get p A) Hu) as [E1 E2]. rewrite E1, E2 in SAA.
  destruct (unconfigured_defaults index store id p (bt_get p A) (bt_get p B) Hu) as [E3 _]. rewrite E3, E2 in SAB.
  destruct (unconfigured_defaults index store id p (bt_get p B) (bt_get p A) Hu) as [E4 _]. rewrite E4, E2 in SBA.
  rewrite (says_conflict _ _ _ _ SAA), (says_bound _ _ _ _ SAA), (says_conflict _ _ _ _ SAB), (says_bound _ _ _ _ SAB),
    (says_conflict _ _ _ _ SBA), (says_bound _ _ _ _ SBA).
  split; [apply judge_self|]. split; [|split].
  - intros Hb. destruct (judge_unchanged marker _ _ (bt_get p B) Hb) as [H1 H2]. by rewrite H1, H2.
  - rewrite not_false_iff_true. apply judge_conflict.
  - intros Hc. by apply judge_sym.
Qed.

(** The strategy of a path is chosen in order: a known override; the first resolving
    configuration of the local entity's type, then of the remote's; a matching path configuration
    that every other matching one gives way to, by a lower specificity or by the same pattern
    under a later name; and three-way where there is none. *)
Theorem find_merge_strategy_exact `{HC : Ciborium} {St} `{HT : ContentStore St} {L} `{HL : LocationIndex L}
    path override (index : L) (store : St) l r id :
  let strategy := find_merge_strategy path override index store (Some l) (Some r) id in
  match (o ← override; strategy_parse o None), first_type_config index store id l r with
  | Some s, _ => strategy = s
  | None, Some s => strategy = s
  | None, None =>
      (∃ pattern name, configured index store id decode_path_config path pattern name strategy
         ∧ ∀ pattern' name' s', configured index store id decode_path_config path pattern' name' s' →
             cmp (pattern_specificity pattern') (pattern_specificity pattern) = Lt
             ∨ (pattern' = pattern ∧ cmp name name' ≠ Gt))
      ∨ (strategy = ThreeWay ∧ ∀ pattern name s, ¬ configured index store id decode_path_config path pattern name s)
  end.
Proof.
  cbn zeta. unfold find_merge_strategy. destruct (o ← override; strategy_parse o None) as [s|]; [done|].
  rewrite type_strategy_first. destruct (first_type_config index store id l r) as [s|]; [done|].
  pose proof (best_config_spec index store id decode_path_config path) as Hb.
  destruct (best_config decode_path_config path index store id) as [s|]; [left|right]; [exact Hb|by split].
Qed.

(** C33. Two peers that merge each other's version converge.  With the same ancestor and the
    deterministic order, whatever order their trees list the same configurations in, both arrive
    at the same sides, the same versions and the same result. *)
Theorem merge_converges `{HS : Sha2} `{!Sha2Ok} `{HC : Ciborium} {St} `{HT : ContentStore St} {L} `{HL : LocationIndex L}
    home ancestor A B va vb override id1 (index1 : L) (store1 : St) id2 (index2 : L) (store2 : St) :
  digest_len_for_format home ≠ None → va ≠ vb →
  same_configs id1 index1 store1 id2 index2 store2 →
  (∀ p h, bt_get p A = Some h ∨ bt_get p B = Some h → same_type store1 store2 h ∧ (4 ≤ length (digest h))%nat) →
  let '(l1, r1, vl1, vr1) := normalize_merge_sides A B va vb (lit "deterministic") in
  let '(l2, r2, vl2, vr2) := normalize_merge_sides B A vb va (lit "deterministic") in
  vl1 = vl2 ∧ vr1 = vr2 ∧
  ∃ R, merge_snapshots home ancestor l1 r1 override store1 index1 id1 = Some R
    ∧ merge_snapshots home ancestor l2 r2 override store2 index2 id2 = Some R.
Proof.
  intros Hhome Hne Hsame Hh. rewrite (normalize_sym A B va vb Hne).
  pose proof (normalize_sides A B va vb (lit "deterministic")) as Hn.
  destruct (normalize_merge_sides A B va vb (lit "deterministic")) as [[[l r] vl] vr].
  assert (Hlr : ∀ p h, bt_get p l = Some h ∨ bt_get p r = Some h → same_type store1 store2 h ∧ (4 ≤ length (digest h))%nat).
  { destruct Hn as [(-> & -> & _)|(-> & -> & _)]; [done|]. intros p h [Hp|Hp]; apply (Hh p); auto. }
  split; [done|]. split; [done|]. destruct (deletion_marker_exists home Hhome) as [marker Hm].
  destruct (merge_snapshots_spec home ancestor l r override store1 index1 id1 marker Hm) as (R & HR & _).
  { intros p h Hp. apply (Hlr p h). by right. }
  exists R. split; [done|]. rewrite <-HR. unfold merge_snapshots. rewrite Hm. cbn [mbind option_bind].
  apply fold_opt_ext. intros acc p. unfold merge_path.
  destruct (bt_get p l) as [x|] eqn:Ex, (bt_get p r) as [y|] eqn:Ey; try done.
  rewrite (find_deletion_resolution_same _ _ _ _ _ _ Hsame).
  by rewrite (find_merge_strategy_same _ _ _ _ _ _ Hsame) by (eapply Hlr; eauto).
Qed.

(** * Witnesses *)

Definition demo_config (pattern strategy : list Z) : list Z :=
  to_ecf (VMap [(text (lit "pattern"), text pattern); (text (lit "strategy"), text strategy)]).

Definition demo_configs : ContentMap := Eval vm_compute in
  [(demo_hash 1, mkEntity (lit "system/revision/merge-config") (demo_config (lit "docs/*") (lit "source-wins")) (demo_hash 1));
   (demo_hash 2, mkEntity (lit "system/revision/merge-config") (demo_config (lit "docs/*") (lit "target-wins")) (demo_hash 2));
   (demo_hash 3, mkEntity (lit "system/revision/merge-config") (demo_config (lit "*") (lit "manual")) (demo_hash 3))].

Definition config_at (id name : list Z) (h : Hash) : list Z * Hash := (merge_path_prefix id ++ name, h).

(** A tree that lists its entries backwards. *)
Definition reversed_index : LocationIndex PathMap :=
  {| li_get path m := index_get m path;
     li_list prefix m := reverse (index_list m prefix);
     li_set path h m := index_set m path h;
     li_remove path m := index_remove m path;
     li_set_ctx path h _ m := (empty_success, index_set m path h);
     li_remove_ctx path _ m := let '(removed, m) := index_remove m path in ((removed, empty_success), m);
     li_swap path e n _ m := compare_and_swap m path e n;
     li_create path n _ m := compare_and_create m path n;
     li_swap_ctx path e n _ m := quietly (compare_and_swap m path e n);
     li_cas_remove_ctx path e _ m := let '(r, m) := compare_and_remove m path e in (h ← r; Ok (h, empty_success), m);
     li_create_ctx path n _ m := quietly (compare_and_create m path n) |}.

(** The same pattern under two names is decided by the name, in whatever order the tree lists
    them. *)
Example names_break_ties :
  let C := ref_ciborium in let id := lit "me" in
  let tree := [config_at id (lit "a") (demo_hash 2); config_at id (lit "z") (demo_hash 1); config_at id (lit "zz") (demo_hash 3)] in
  (@find_merge_strategy C _ memory_store _ memory_index (lit "docs/x") None tree demo_configs None None id,
   @find_merge_strategy C _ memory_store _ reversed_index (lit "docs/x") None tree demo_configs None None id,
   @find_merge_strategy C _ memory_store _ memory_index (lit "notes") None tree demo_configs None None id)
  = (TargetWins, TargetWins, Manual).
Proof. vm_compute. reflexivity. Qed.

(** Names with slashes are compared by their last segment alone, so that two configurations can
    tie, and then the listing decides. *)
Example nested_names_tie :
  let C := ref_ciborium in let id := lit "me" in
  let tree := [config_at id (lit "x/rule") (demo_hash 1); config_at id (lit "y/rule") (demo_hash 2)] in
  (@find_merge_strategy C _ memory_store _ memory_index (lit "docs/x") None tree demo_configs None None id,
   @find_merge_strategy C _ memory_store _ reversed_index (lit "docs/x") None tree demo_configs None None id)
  = (SourceWins, TargetWins).
Proof. vm_compute. reflexivity. Qed.

(** The result of the search for a common ancestor, and with it the merge, can depend on which
    version comes first: 5 merges 1 with 3 on top of 2, and 6 merges 2 with 4 on top of 1. *)
Definition crossed : ContentMap := Eval vm_compute in
  [demo_version 1 [11]; demo_version 2 [12]; demo_version 3 [2]; demo_version 4 [1]; demo_version 5 [1; 3];
   demo_version 6 [2; 4]; demo_version 10 []; demo_version 11 [10]; demo_version 12 [10]].

Example ancestor_depends_on_side :
  let C := ref_ciborium in let s := crossed in
  (find_common_ancestor s 50 (demo_hash 5) (demo_hash 6), find_common_ancestor s 50 (demo_hash 6) (demo_hash 5))
  = (Some (Some (demo_hash 2)), Some (Some (demo_hash 1))).
Proof. vm_compute. reflexivity. Qed.

(** A base and two sides that both changed [a] and each changed one other path. *)
Definition demo_base : PathMap := [(lit "a", demo_hash 1); (lit "b", demo_hash 2); (lit "c", demo_hash 3)].
Definition demo_ours : PathMap := [(lit "a", demo_hash 4); (lit "b", demo_hash 5); (lit "c", demo_hash 3)].
Definition demo_theirs : PathMap := [(lit "a", demo_hash 6); (lit "b", demo_hash 2); (lit "c", demo_hash 7)].

Definition demo_marker : Hash := Eval vm_compute in default hash_zero (@canonical_deletion_marker_hash checksum_sha2 0).

Lemma demo_marker_ok : @canonical_deletion_marker_hash checksum_sha2 0 = Some demo_marker.
Proof. vm_compute. reflexivity. Qed.

Lemma demo_hashes_long (P : list Z → Hash → Prop) m :
  (∀ p h, P p h → (p, h) ∈ m) → forallb (λ kv, (4 <=? length (digest kv.2))%nat) m = true →
  ∀ p h, P p h → (4 ≤ length (digest h))%nat.
Proof.
  intros HP Hm p h Hp. rewrite forallb_elem in Hm. specialize (Hm _ (HP p h Hp)). by apply Nat.leb_le in Hm.
Qed.

Lemma merge_refines_verdict_witness :
  let S := checksum_sha2 in let C := ref_ciborium in
  ∃ R, @merge_snapshots S C ContentMap memory_store PathMap memory_index 0 (Some demo_base) demo_ours demo_theirs
         None [] [] (lit "me") = Some R
    ∧ at_path (lit "a") R = says (lit "a") (Some (demo_hash 1)) (InConflict (demo_hash 4) (demo_hash 6) (lit "three-way"))
    ∧ at_path (lit "b") R = says (lit "b") (Some (demo_hash 2)) (Bound (demo_hash 5)).
Proof.
  intros S C.
  destruct (@merge_refines_verdict S C ContentMap memory_store PathMap memory_index 0 (Some demo_base) demo_ours
              demo_theirs None [] [] (lit "me") demo_marker) as (R & HR & _ & Hat).
  - exact demo_marker_ok.
  - apply (demo_hashes_long _ demo_theirs); [|reflexivity]. intros p h Hp. apply bt_get_elem; [|exact Hp]. repeat constructor.
  - exists R. split; [exact HR|].
    split; [rewrite (Hat (lit "a"))|rewrite (Hat (lit "b"))]; vm_compute; reflexivity.
Defined.

Lemma merge_three_way_laws_witness :
  let S := checksum_sha2 in let C := ref_ciborium in
  ∃ AB BA, @merge_snapshots S C ContentMap memory_store PathMap memory_index 0 (Some demo_base) demo_ours demo_theirs
         None [] [] (lit "me") = Some AB
    ∧ @merge_snapshots S C ContentMap memory_store PathMap memory_index 0 (Some demo_base) demo_theirs demo_ours
         None [] [] (lit "me") = Some BA
    ∧ ¬ no_conflict_at (lit "a") AB
    ∧ ∀ p, no_conflict_at p AB → no_conflict_at p BA ∧ bt_get p (merged_bindings BA) = bt_get p (merged_bindings AB).
Proof.
  intros S C.
  destruct (@merge_three_way_laws S C ContentMap memory_store PathMap memory_index 0 demo_base demo_ours demo_theirs
              [] [] (lit "me") demo_marker) as (AA & AB & BA & _ & HAB & HBA & Hp).
  - exact demo_marker_ok.
  - split; reflexivity.
  - apply (demo_hashes_long _ (demo_ours ++ demo_theirs)); [|reflexivity]. intros p h [Hp|Hp]; apply elem_of_app;
      [left|right]; apply bt_get_elem; try exact Hp; repeat constructor.
  - exists AB, BA. split; [exact HAB|]. split; [exact HBA|]. split.
    + apply (proj2 (proj1 (proj2 (proj2 (Hp (lit "a")))))). exists (demo_hash 4), (demo_hash 6).
      split_and!; try reflexivity; discriminate.
    + intros p. exact (proj2 (proj2 (proj2 (Hp p)))).
Defined.

Lemma merge_converges_witness :
  let S := checksum_sha2 in let C := ref_ciborium in
  ∃ R, @merge_snapshots S C ContentMap memory_store PathMap memory_index 0 (Some demo_base) demo_ours demo_theirs
         None demo_configs [config_at (lit "me") (lit "rule") (demo_hash 1)] (lit "me") = Some R
    ∧ @merge_snapshots S C ContentMap memory_store PathMap memory_index 0 (Some demo_base) demo_ours demo_theirs
         None demo_configs [config_at (lit "you") (lit "rule") (demo_hash 1)] (lit "you") = Some R.
Proof.
  intros S C.
  assert (Hc := @merge_converges S checksum_sha2_ok C ContentMap memory_store PathMap memory_index 0 (Some demo_base) demo_ours
    demo_theirs (demo_hash 1) (demo_hash 2) None (lit "me") [config_at (lit "me") (lit "rule") (demo_hash 1)] demo_configs
    (lit "you") [config_at (lit "you") (lit "rule") (demo_hash 1)] demo_configs).
  assert (H1 : normalize_merge_sides demo_ours demo_theirs (demo_hash 1) (demo_hash 2) (lit "deterministic")
               = (demo_ours, demo_theirs, demo_hash 1, demo_hash 2)) by (vm_compute; reflexivity).
  assert (H2 : normalize_merge_sides demo_theirs demo_ours (demo_hash 2) (demo_hash 1) (lit "deterministic")
               = (demo_ours, demo_theirs, demo_hash 1, demo_hash 2)) by (vm_compute; reflexivity).
  rewrite H1, H2 in Hc. apply Hc.
  - discriminate.
  - discriminate.
  - split; [vm_compute; apply Permutation_refl|vm_compute; repeat constructor; set_solver|reflexivity].
  - intros p h Hp. split; [done|]. revert p h Hp.
    apply (demo_hashes_long _ (demo_ours ++ demo_theirs)); [|reflexivity]. intros p h [Hp|Hp]; apply elem_of_app;
      [left|right]; apply bt_get_elem; try exact Hp; repeat constructor.
Defined.
