(* ===== verification/Attestation.v ===== *)
(** Signed claims: the entity [system/attestation] and the index over its fields
    ([extensions/attestation]: data.rs, index.rs, hook.rs, and the rule on kinds of lib.rs).

    A [BTreeSet<Hash>] is the key list of an ordered map to [unit]; the lock around the index is
    left out. *)
From S2P Require Import Prelude BTree Ecf Cbor ContentHash Entity Capability CapabilityCodec Store Trie Index.

Definition TYPE_ATTESTATION : list Z := lit "system/attestation".
Definition KIND_REVOCATION : list Z := lit "revocation".
Definition DEFAULT_MAX_DEPTH : nat := 32.

Inductive AttestationError := AttDecode | AttEncode | AttInvalid.

(** * The entity *)

Record AttestationData := mkAttestation {
  attesting : Hash;
  attested : Hash;
  properties : list (Value * Value);
  supersedes : option Hash;
  att_not_before : option Z;
  att_expires_at : option Z;
}.

Definition decode_att_map `{Ciborium} (d : list Z) : result AttestationError (list (Value * Value)) :=
  value ← ok_or AttDecode (from_reader d); ok_or AttDecode (as_map value).

Definition get_field (map : list (Value * Value)) (key : string) : option Value := get_entry map (lit key).

Definition hash_of_value (v : Value) : result AttestationError Hash :=
  bytes ← ok_or AttDecode (as_bytes v); map_err (λ _, AttDecode) (from_bytes bytes).

Definition field_hash (map : list (Value * Value)) (key : string) : result AttestationError Hash :=
  v ← ok_or AttDecode (get_field map key); hash_of_value v.

(** [None | Some(Value::Null) => Ok(None)] *)
Definition optional_field {E A} (map : list (Value * Value)) (key : string) (f : Value → result E A) : result E (option A) :=
  match get_field map key with
  | None | Some VNull => Ok None
  | Some v => x ← f v; Ok (Some x)
  end.

Definition u64_of_value (v : Value) : result AttestationError Z :=
  n ← ok_or AttDecode (as_integer v); if n <? 0 then Err AttDecode else Ok (as_u64 n).

Definition field_hash_opt (map : list (Value * Value)) (key : string) : result AttestationError (option Hash) :=
  optional_field map key hash_of_value.
Definition field_u64_opt (map : list (Value * Value)) (key : string) : result AttestationError (option Z) :=
  optional_field map key u64_of_value.
Definition field_properties (map : list (Value * Value)) : result AttestationError (option (list (Value * Value))) :=
  optional_field map "properties" (λ v, ok_or AttDecode (as_map v)).

Definition attestation_from_entity `{Ciborium} (entity : Entity) : result AttestationError AttestationData :=
  if negb (bool_decide (entity_type entity = TYPE_ATTESTATION)) then Err AttDecode
  else
    map ← decode_att_map (data entity);
    attesting ← field_hash map "attesting";
    attested ← field_hash map "attested";
    properties ← field_properties map;
    supersedes ← field_hash_opt map "supersedes";
    not_before ← field_u64_opt map "not_before";
    expires_at ← field_u64_opt map "expires_at";
    Ok (mkAttestation attesting attested (default [] properties) supersedes not_before expires_at).

(** [if let Some(x) = o { fields.push((text(key), f(x))); }] *)
Definition push_field {A} (key : string) (f : A → Value) (o : option A) : list (Value * Value) :=
  match o with Some x => [(text (lit key), f x)] | None => [] end.

Definition attestation_fields (a : AttestationData) : list (Value * Value) :=
  [(text (lit "attested"), hash_value (attested a)); (text (lit "attesting"), hash_value (attesting a))]
  ++ push_field "expires_at" (λ v, integer (as_i64 v)) (att_expires_at a)
  ++ push_field "not_before" (λ v, integer (as_i64 v)) (att_not_before a)
  ++ (if bool_decide (properties a = []) then [] else [(text (lit "properties"), VMap (properties a))])
  ++ push_field "supersedes" hash_value (supersedes a).

Definition attestation_to_entity `{Sha2} (home : Z) (a : AttestationData) : result AttestationError Entity :=
  map_err (λ _, AttEncode) (entity_new home TYPE_ATTESTATION (to_ecf (VMap (attestation_fields a)))).

Definition kind (a : AttestationData) : option (list Z) := v ← get_field (properties a) "kind"; as_str v.

(** [kind.split_once('-')] with a prefix that is not empty, or the one kind without a domain. *)
Definition validate_kind (k : list Z) : result AttestationError unit :=
  if bool_decide (k = KIND_REVOCATION) then Ok tt
  else match find_byte 45 k with
       | Some (S _) => Ok tt
       | _ => Err AttInvalid
       end.

(** * The index *)

Definition HashSet := list (Hash * unit).
Definition Postings (K : Type) := list (K * HashSet).

Record AttestationIndex := mkIndex {
  by_hash : gmap Hash AttestationData;
  by_attesting : Postings Hash;
  by_attested : Postings Hash;
  by_kind : Postings (list Z);
  by_supersedes : Postings Hash;
}.

Definition att_index_new : AttestationIndex := mkIndex ∅ [] [] [] [].

(** [m.entry(k).or_default().insert(hash)] *)
Definition post {K} `{Ord K} (k : K) (h : Hash) (m : Postings K) : Postings K :=
  bt_insert k (bt_insert h tt (default [] (bt_get k m))) m.

(** [if let Some(set) = m.get_mut(k) { set.remove(hash); if set.is_empty() { m.remove(k); } }] *)
Definition unpost {K} `{Ord K} (k : K) (h : Hash) (m : Postings K) : Postings K :=
  match bt_get k m with
  | Some set => let set := bt_remove h set in if bool_decide (set = []) then bt_remove k m else bt_insert k set m
  | None => m
  end.

(** [if let Some(k) = field { .. }] *)
Definition post_opt {K} `{Ord K} (k : option K) (h : Hash) (m : Postings K) : Postings K :=
  match k with Some k => post k h m | None => m end.
Definition unpost_opt {K} `{Ord K} (k : option K) (h : Hash) (m : Postings K) : Postings K :=
  match k with Some k => unpost k h m | None => m end.

Definition att_index_insert (h : Hash) (a : AttestationData) (i : AttestationIndex) : AttestationIndex :=
  if bool_decide (is_Some (by_hash i !! h)) then i
  else mkIndex (<[h := a]> (by_hash i)) (post (attesting a) h (by_attesting i)) (post (attested a) h (by_attested i))
         (post_opt (kind a) h (by_kind i)) (post_opt (supersedes a) h (by_supersedes i)).

Definition att_index_remove (h : Hash) (i : AttestationIndex) : AttestationIndex :=
  match by_hash i !! h with
  | None => i
  | Some a =>
      mkIndex (delete h (by_hash i)) (unpost (attesting a) h (by_attesting i)) (unpost (attested a) h (by_attested i))
        (unpost_opt (kind a) h (by_kind i)) (unpost_opt (supersedes a) h (by_supersedes i))
  end.

Definition att_index_get (h : Hash) (i : AttestationIndex) : option AttestationData := by_hash i !! h.

Definition lookup_in {K} `{Ord K} (m : Postings K) (k : K) : list Hash := map fst (default [] (bt_get k m)).
Definition lookup_by_attested (h : Hash) (i : AttestationIndex) : list Hash := lookup_in (by_attested i) h.
Definition lookup_by_attesting (h : Hash) (i : AttestationIndex) : list Hash := lookup_in (by_attesting i) h.
Definition lookup_by_supersedes (h : Hash) (i : AttestationIndex) : list Hash := lookup_in (by_supersedes i) h.
Definition lookup_by_kind (k : list Z) (i : AttestationIndex) : list Hash := lookup_in (by_kind i) k.
Definition att_index_len (i : AttestationIndex) : nat := size (by_hash i).

(** What an entity bound at a hash adds: an attestation that decodes. *)
Definition index_bound `{Ciborium} {St} `{ContentStore St} (s : St) (i : AttestationIndex) (h : Hash) : AttestationIndex :=
  match store_get h s with
  | None => i
  | Some entity =>
      if negb (bool_decide (entity_type entity = TYPE_ATTESTATION)) then i
      else match attestation_from_entity entity with
           | Ok att => att_index_insert h att i
           | Err _ => i
           end
  end.

Definition att_index_load `{Ciborium} {St} `{ContentStore St} {L} `{LocationIndex L} (local_peer_id : list Z) (s : St) (t : L)
    (i : AttestationIndex) : AttestationIndex :=
  foldl (λ i entry, index_bound s i (le_hash entry)) i (li_list (lit "/" ++ local_peer_id ++ lit "/system/attestation/") t).

(** [AttestationIndexHook::on_tree_change] *)
Definition index_hook `{Ciborium} {St} `{ContentStore St} (s : St) (event : TreeChangeEvent) (i : AttestationIndex) : AttestationIndex :=
  match new_hash event with
  | None => i
  | Some h => index_bound s i h
  end.

(** * Postings *)

Section postings.
Context {K : Type} `{Ord K}.
Implicit Types (m : Postings K) (k : K) (h : Hash).

(** The sets that are kept are sorted and not empty. *)
Definition sets_ok m : Prop := bt_ok m ∧ ∀ k set, bt_get k m = Some set → bt_ok set ∧ set ≠ [].

(** Postings of a field: under each key, the hashes of the entries whose field it is. *)
Definition posted (field : AttestationData → option K) (entries : gmap Hash AttestationData) m : Prop :=
  sets_ok m ∧ ∀ k h, h ∈ lookup_in m k ↔ ∃ a, entries !! h = Some a ∧ field a = Some k.

Lemma bt_key_elem (set : HashSet) h : bt_ok set → h ∈ map fst set ↔ bt_get h set = Some tt.
Proof.
  intros Hs. rewrite (bt_get_elem set Hs), list_elem_of_fmap. split; [intros ([? []] & -> & ?); done|].
  intros Hin. by exists (h, tt).
Qed.

Lemma default_set_ok m k : sets_ok m → bt_ok (default [] (bt_get k m)).
Proof. intros [_ Hs]. destruct (bt_get k m) as [set|] eqn:E; [by apply (Hs k)|constructor]. Qed.

Lemma post_ok m k h : sets_ok m → sets_ok (post k h m).
Proof.
  intros Hm. pose proof (default_set_ok m k Hm) as Hd. destruct Hm as [Hok Hs].
  split; [by apply bt_insert_ok|]. intros k' set. unfold post. rewrite bt_get_insert by done. destruct (cmp k' k) eqn:E.
  - intros [= <-]. split; [by apply bt_insert_ok|]. intros Hnil.
    pose proof (bt_get_insert_eq _ h tt Hd) as Hg. by rewrite Hnil in Hg.
  - apply Hs.
  - apply Hs.
Qed.

Lemma post_lookup m k h k' h' : sets_ok m → h' ∈ lookup_in (post k h m) k' ↔ (k' = k ∧ h' = h) ∨ h' ∈ lookup_in m k'.
Proof.
  intros Hm. pose proof (default_set_ok m k Hm) as Hd. unfold lookup_in, post. rewrite bt_get_insert by apply Hm.
  destruct (cmp k' k) eqn:E; [|apply cmp_lt_ne in E; naive_solver|apply cmp_gt_lt, cmp_lt_ne in E; naive_solver].
  apply cmp_eq in E as ->. cbn [default from_option id]. rewrite !bt_key_elem, bt_get_insert by (done || by apply bt_insert_ok).
  destruct (cmp h' h) eqn:E; [apply cmp_eq in E as ->; naive_solver|apply cmp_lt_ne in E; naive_solver|apply cmp_gt_lt, cmp_lt_ne in E; naive_solver].
Qed.

Lemma unpost_ok m k h : sets_ok m → sets_ok (unpost k h m).
Proof.
  intros [Hok Hs]. unfold unpost. destruct (bt_get k m) as [set|] eqn:E; [|done]. destruct (Hs k set E) as [Hset _].
  case_bool_decide as Hnil; (split; [by first [apply bt_remove_ok|apply bt_insert_ok]|]); intros k' set'.
  - rewrite bt_get_remove by done. destruct (cmp k' k); [done|apply Hs|apply Hs].
  - rewrite bt_get_insert by done. destruct (cmp k' k); [|apply Hs|apply Hs]. intros [= <-]. split; [by apply bt_remove_ok|done].
Qed.

Lemma unpost_lookup m k h k' h' : sets_ok m → h' ∈ lookup_in (unpost k h m) k' ↔ h' ∈ lookup_in m k' ∧ ¬ (k' = k ∧ h' = h).
Proof.
  intros [Hok Hs]. unfold unpost. destruct (bt_get k m) as [set|] eqn:E.
  2:{ split; [|naive_solver]. intros Hin. split; [done|]. intros [-> ->]. unfold lookup_in in Hin. rewrite E in Hin. set_solver. }
  destruct (Hs k set E) as [Hset _].
  assert (Hrem : ∀ x, x ∈ map fst (bt_remove h set) ↔ x ∈ map fst set ∧ x ≠ h).
  { intros x. rewrite !bt_key_elem, bt_get_remove by (done || by apply bt_remove_ok).
    destruct (cmp x h) eqn:Ex; [apply cmp_eq in Ex as ->; naive_solver|apply cmp_lt_ne in Ex; naive_solver|apply cmp_gt_lt, cmp_lt_ne in Ex; naive_solver]. }
  unfold lookup_in. case_bool_decide as Hnil; [rewrite bt_get_remove by done|rewrite bt_get_insert by done];
    (destruct (cmp k' k) eqn:Ek; [apply cmp_eq in Ek as ->|apply cmp_lt_ne in Ek; naive_solver|apply cmp_gt_lt, cmp_lt_ne in Ek; naive_solver]);
    rewrite E; cbn [default from_option id]; specialize (Hrem h').
  - rewrite Hnil in Hrem. cbn [map] in *. naive_solver.
  - naive_solver.
Qed.

Lemma posted_insert field entries m h a :
  posted field entries m → entries !! h = None → posted field (<[h := a]> entries) (post_opt (field a) h m).
Proof.
  intros [Hm Hl] Hnew. split; [by destruct (field a); [apply post_ok|]|]. intros k h'.
  assert (Heq : h' ∈ lookup_in (post_opt (field a) h m) k ↔ (field a = Some k ∧ h' = h) ∨ h' ∈ lookup_in m k).
  { destruct (field a) as [k0|]; cbn [post_opt]; [rewrite post_lookup by done|]; naive_solver. }
  rewrite Heq, Hl. destruct (decide (h' = h)) as [->|Hne].
  - rewrite lookup_insert_eq, Hnew. naive_solver.
  - rewrite lookup_insert_ne by done. naive_solver.
Qed.

Lemma posted_remove field entries m h a :
  posted field entries m → entries !! h = Some a → posted field (delete h entries) (unpost_opt (field a) h m).
Proof.
  intros [Hm Hl] Hold. split; [by destruct (field a); [apply unpost_ok|]|]. intros k h'.
  assert (Heq : h' ∈ lookup_in (unpost_opt (field a) h m) k ↔ h' ∈ lookup_in m k ∧ ¬ (field a = Some k ∧ h' = h)).
  { destruct (field a) as [k0|]; cbn [unpost_opt]; [rewrite unpost_lookup by done|]; naive_solver. }
  rewrite Heq, Hl. destruct (decide (h' = h)) as [->|Hne].
  - rewrite lookup_delete_eq. naive_solver.
  - rewrite lookup_delete_ne by done. naive_solver.
Qed.

(** The answer of a lookup is in order and without repetition. *)
Lemma lookup_sorted m k : sets_ok m → StronglySorted (λ a b, cmp a b = Lt) (lookup_in m k).
Proof.
  intros Hm. pose proof (default_set_ok m k Hm) as Hs. unfold lookup_in. revert Hs.
  generalize (default [] (bt_get k m)). intros set Hs. induction Hs as [|[h []] set Hss IH Hall]; cbn; [constructor|].
  constructor; [done|]. by apply Forall_map.
Qed.
End postings.

(** ** The invariant of the index *)

Record index_ok (i : AttestationIndex) : Prop := {
  ix_attesting : posted (λ a, Some (attesting a)) (by_hash i) (by_attesting i);
  ix_attested : posted (λ a, Some (attested a)) (by_hash i) (by_attested i);
  ix_kind : posted kind (by_hash i) (by_kind i);
  ix_supersedes : posted supersedes (by_hash i) (by_supersedes i);
}.

Lemma posted_nil {K} `{Ord K} field : posted (K := K) field ∅ [].
Proof. split; [split; [constructor|done]|]. intros k h. unfold lookup_in. cbn. set_solver. Qed.

Lemma index_new_ok : index_ok att_index_new.
Proof. constructor; apply posted_nil. Qed.

Lemma index_insert_ok h a i : index_ok i → index_ok (att_index_insert h a i).
Proof.
  intros [H1 H2 H3 H4]. unfold att_index_insert. case_bool_decide as Hh; [done|].
  apply eq_None_not_Some in Hh. constructor; cbn [by_hash by_attesting by_attested by_kind by_supersedes].
  - by apply (posted_insert (λ a, Some (attesting a))).
  - by apply (posted_insert (λ a, Some (attested a))).
  - by apply posted_insert.
  - by apply posted_insert.
Qed.

Lemma index_remove_ok h i : index_ok i → index_ok (att_index_remove h i).
Proof.
  intros [H1 H2 H3 H4]. unfold att_index_remove. destruct (by_hash i !! h) as [a|] eqn:E; [|done].
  constructor; cbn [by_hash by_attesting by_attested by_kind by_supersedes].
  - by apply (posted_remove (λ a, Some (attesting a)) _ _ h a).
  - by apply (posted_remove (λ a, Some (attested a)) _ _ h a).
  - by apply posted_remove.
  - by apply posted_remove.
Qed.
#[export] Hint Resolve index_new_ok index_insert_ok index_remove_ok : core.

Lemma index_bound_ok `{Ciborium} {St} `{ContentStore St} (s : St) i h : index_ok i → index_ok (index_bound s i h).
Proof. intros Hi. unfold index_bound. repeat case_match; auto. Qed.

(** * The entity, read back *)

Definition att_ok (a : AttestationData) : Prop :=
  hash_ok (attesting a) ∧ hash_ok (attested a) ∧ opt_all hash_ok (supersedes a) ∧ opt_all i63_range (att_not_before a)
  ∧ opt_all i63_range (att_expires_at a) ∧ good 250 (VMap (properties a)).

(** The properties in normal form. *)
Definition norm_properties (p : list (Value * Value)) : list (Value * Value) := default [] (as_map (ecf_norm (VMap p))).

Definition norm_att (a : AttestationData) : AttestationData :=
  mkAttestation (attesting a) (attested a) (norm_properties (properties a)) (supersedes a) (att_not_before a) (att_expires_at a).

Lemma norm_properties_eq p : ecf_norm (VMap p) = VMap (norm_properties p).
Proof. done. Qed.

Lemma attestation_fields_norm a :
  ecf_norm (VMap (attestation_fields a)) = VMap (map (λ kv, (ecf_norm kv.1, ecf_norm kv.2)) (attestation_fields a)).
Proof.
  apply ecf_norm_fields. unfold attestation_fields, push_field.
  destruct (att_expires_at a), (att_not_before a), (supersedes a); case_bool_decide; vm_compute; reflexivity.
Qed.

Lemma attestation_fields_good a : att_ok a → good 252 (VMap (attestation_fields a)).
Proof.
  intros (H1 & H2 & H3 & H4 & H5 & H6). unfold attestation_fields. apply (good_map 251).
  { unfold len_ok, push_field. destruct (att_expires_at a), (att_not_before a), (supersedes a); case_bool_decide; reflexivity. }
  assert (Hopt : ∀ {A} (P : A → Prop) key (f : A → Value) o, str_ok (lit key) = true → opt_all P o → (∀ x, P x → good 251 (f x)) →
    Forall (good_pair 251) (push_field key f o)).
  { intros A P key f o Hk Ho Hf. destruct o as [x|]; [|constructor]. constructor; [|constructor]. apply good_field; [done|by apply Hf]. }
  rewrite !Forall_app. split_and!.
  - repeat constructor; cbn [fst snd]; try done; by apply (good_hash 250).
  - apply (Hopt _ i63_range); [done|done|]. intros. by apply good_i63.
  - apply (Hopt _ i63_range); [done|done|]. intros. by apply good_i63.
  - case_bool_decide; [constructor|]. constructor; [|constructor]. apply good_field; [done|]. eapply good_mono; [|exact H6]. lia.
  - apply (Hopt _ hash_ok); [done|done|]. intros. by apply good_hash.
Qed.

Lemma read_canonical `{CiboriumDecodes} v d : (d ≤ 256)%nat → good d v → from_reader (to_ecf v) = Some (ecf_norm v).
Proof.
  intros Hd [Hok Hdep]. rewrite <- (app_nil_r (to_ecf v)). apply from_reader_ecf; [done|]. unfold ciborium_recursion_limit. lia.
Qed.

Lemma hash_of_hash_value h : hash_ok h → hash_of_value (hash_value h) = Ok h.
Proof. intros Hh. unfold hash_of_value, hash_value. cbn [as_bytes ok_or mbind result_bind]. by rewrite from_bytes_to_bytes. Qed.

Lemma u64_of_i63 z : i63_range z → u64_of_value (VInteger (as_i64 z)) = Ok z.
Proof.
  unfold i63_range, i64_max. intros Hz. unfold u64_of_value. cbn [as_integer ok_or mbind result_bind].
  rewrite as_i64_id, (proj2 (Z.ltb_ge z 0)), as_u64_id by (unfold u64_max; lia). done.
Qed.

(** What the fields are, looked up among the encoded ones. *)
Lemma attestation_field_values a :
  let m := map (λ kv, (ecf_norm kv.1, ecf_norm kv.2)) (attestation_fields a) in
  get_field m "attesting" = Some (hash_value (attesting a)) ∧ get_field m "attested" = Some (hash_value (attested a))
  ∧ get_field m "properties" = (if bool_decide (properties a = []) then None else Some (VMap (norm_properties (properties a))))
  ∧ get_field m "supersedes" = hash_value <$> supersedes a
  ∧ get_field m "not_before" = (λ v, VInteger (as_i64 v)) <$> att_not_before a
  ∧ get_field m "expires_at" = (λ v, VInteger (as_i64 v)) <$> att_expires_at a.
Proof.
  unfold attestation_fields, push_field. destruct a as [ag ad ps su nb ex].
  cbn [attesting attested properties supersedes att_not_before att_expires_at].
  destruct su, nb, ex; case_bool_decide; split_and!; reflexivity.
Qed.

Lemma optional_read {E A B} m key (f : Value → result E A) (g : B → Value) (h : B → A) o :
  get_field m key = g <$> o → (∀ x, o = Some x → g x ≠ VNull ∧ f (g x) = Ok (h x)) → optional_field m key f = Ok (h <$> o).
Proof.
  unfold optional_field. intros -> Hf. destruct o as [x|]; [|done]. cbn. destruct (Hf x eq_refl) as [Hn Hx]. rewrite Hx. by destruct (g x).
Qed.

Lemma attestation_decodes `{CiboriumDecodes} a e :
  att_ok a → entity_type e = TYPE_ATTESTATION → data e = to_ecf (VMap (attestation_fields a)) →
  attestation_from_entity e = Ok (norm_att a).
Proof.
  intros Ha Hty Hd. unfold attestation_from_entity, decode_att_map. rewrite Hty, bool_decide_eq_true_2 by done. cbn [negb].
  rewrite Hd, (read_canonical _ 252) by (lia || by apply attestation_fields_good). rewrite attestation_fields_norm.
  pose proof (attestation_field_values a) as (G1 & G2 & G3 & G4 & G5 & G6).
  destruct Ha as (H1 & H2 & H3 & H4 & H5 & _). cbn [ok_or mbind result_bind as_map]. revert G1 G2 G3 G4 G5 G6.
  generalize (map (λ kv : Value * Value, (ecf_norm kv.1, ecf_norm kv.2)) (attestation_fields a)). intros m G1 G2 G3 G4 G5 G6.
  unfold field_hash. rewrite G1, G2. cbn [ok_or mbind result_bind]. rewrite !hash_of_hash_value by done. cbn [mbind result_bind].
  unfold field_properties, field_hash_opt, field_u64_opt.
  rewrite (optional_read m "properties" _ VMap id (if bool_decide (properties a = []) then None else Some (norm_properties (properties a))));
    [|by rewrite G3; case_bool_decide|done].
  rewrite (optional_read _ _ _ hash_value id (supersedes a)); [|done|intros x Hx; rewrite Hx in H3; split; [done|by apply hash_of_hash_value]].
  rewrite (optional_read _ _ _ _ id _ G5); [|intros x Hx; rewrite Hx in H4; split; [done|by apply u64_of_i63]].
  rewrite (optional_read _ _ _ _ id _ G6); [|intros x Hx; rewrite Hx in H5; split; [done|by apply u64_of_i63]].
  cbn [mbind result_bind]. rewrite !option_fmap_id. unfold norm_att. case_bool_decide as Hp; [rewrite Hp|]; done.
Qed.

(** * Restarting *)

Section restart.
Context `{Ciborium} {St : Type} `{ContentStore St} (s : St).

(** The attestation that a hash stands for. *)
Definition stored_attestation (h : Hash) : option AttestationData :=
  e ← store_get h s; ok (attestation_from_entity e).

Lemma index_bound_eq i h :
  index_bound s i h = match stored_attestation h with Some a => att_index_insert h a i | None => i end.
Proof.
  unfold index_bound, stored_attestation. destruct (store_get h s) as [e|]; [|done]. cbn [mbind option_bind].
  unfold attestation_from_entity at 2. destruct (negb _) eqn:E; [done|]. unfold attestation_from_entity. rewrite E.
  by destruct (_ ≫= _).
Qed.

Lemma insert_get h a i k : att_index_get k (att_index_insert h a i) = if decide (k = h) then Some (default a (att_index_get h i)) else att_index_get k i.
Proof.
  unfold att_index_get, att_index_insert. case_bool_decide as Hh.
  - destruct Hh as [b Hb]. case_decide as Hk; [subst; by rewrite Hb|done].
  - apply eq_None_not_Some in Hh. cbn [by_hash]. case_decide as Hk; [subst; rewrite lookup_insert_eq, Hh; done|by rewrite lookup_insert_ne].
Qed.

Lemma load_fold_get (l : list LocationEntry) k : ∀ i,
  att_index_get k (foldl (λ i e, index_bound s i (le_hash e)) i l)
  = match att_index_get k i with
    | Some a => Some a
    | None => if bool_decide (k ∈ map le_hash l) then stored_attestation k else None
    end.
Proof.
  induction l as [|e l IH]; intros i; cbn [foldl map]; [by destruct (att_index_get k i)|]. rewrite IH, index_bound_eq.
  assert (Hin : bool_decide (k ∈ le_hash e :: map le_hash l) = bool_decide (k = le_hash e) || bool_decide (k ∈ map le_hash l)).
  { repeat case_bool_decide; set_solver. }
  rewrite Hin. destruct (stored_attestation (le_hash e)) as [b|] eqn:Eb.
  - rewrite insert_get. destruct (decide (k = le_hash e)) as [->|Hk].
    + rewrite (bool_decide_eq_true_2 (le_hash e = le_hash e)), Eb by done. by destruct (att_index_get (le_hash e) i).
    + by rewrite (bool_decide_eq_false_2 (k = le_hash e)).
  - destruct (decide (k = le_hash e)) as [->|Hk]; [rewrite Eb; by repeat case_match|by rewrite (bool_decide_eq_false_2 (k = le_hash e))].
Qed.

Lemma load_fold_ok (l : list LocationEntry) : ∀ i, index_ok i → index_ok (foldl (λ i e, index_bound s i (le_hash e)) i l).
Proof. induction l as [|e l IH]; intros i Hi; [done|]. cbn [foldl]. by apply IH, index_bound_ok. Qed.
End restart.

(** * Properties *)

(** What can happen to an index. *)
Inductive IndexOp :=
  | OpIndex (h : Hash) (a : AttestationData)
  | OpForget (h : Hash)
  | OpWritten (event : TreeChangeEvent).

Definition index_step `{Ciborium} {St} `{ContentStore St} (s : St) (i : AttestationIndex) (op : IndexOp) : AttestationIndex :=
  match op with
  | OpIndex h a => att_index_insert h a i
  | OpForget h => att_index_remove h i
  | OpWritten event => index_hook s event i
  end.

(** What happens to the entry of one hash: what is there stays until it is forgotten, and what comes
    is what is indexed, or what the store decodes of what was written. *)
Definition entry_step `{Ciborium} {St} `{ContentStore St} (s : St) (h : Hash) (entry : option AttestationData) (op : IndexOp)
    : option AttestationData :=
  match op with
  | OpIndex k a => if decide (k = h) then Some (default a entry) else entry
  | OpForget k => if decide (k = h) then None else entry
  | OpWritten event =>
      if decide (new_hash event = Some h) then match entry with Some a => Some a | None => stored_attestation s h end else entry
  end.

Lemma index_step_get `{Ciborium} {St} `{ContentStore St} (s : St) h i op :
  att_index_get h (index_step s i op) = entry_step s h (att_index_get h i) op.
Proof.
  destruct op as [k a|k|event]; cbn [index_step entry_step].
  - rewrite insert_get. destruct (decide (h = k)) as [->|Hne]; [by rewrite decide_True|by rewrite decide_False].
  - unfold att_index_get, att_index_remove. destruct (by_hash i !! k) as [a|] eqn:E; cbn [by_hash].
    + destruct (decide (k = h)) as [->|Hne]; [by rewrite lookup_delete_eq|by rewrite lookup_delete_ne].
    + case_decide as Hk; [by subst|done].
  - unfold index_hook. destruct (new_hash event) as [k|]; [|by rewrite decide_False]. rewrite index_bound_eq.
    destruct (decide (k = h)) as [->|Hne].
    + rewrite decide_True by done. destruct (stored_attestation s h) as [a|]; [rewrite insert_get, decide_True by done|];
        by destruct (att_index_get h i).
    + rewrite decide_False by congruence. destruct (stored_attestation s k) as [a|]; [|done]. by rewrite insert_get, decide_False by done.
Qed.

Lemma index_steps_get `{Ciborium} {St} `{ContentStore St} (s : St) h ops : ∀ i,
  att_index_get h (foldl (index_step s) i ops) = foldl (entry_step s h) (att_index_get h i) ops.
Proof. induction ops as [|op ops IH]; intros i; [done|]. cbn [foldl]. by rewrite IH, index_step_get. Qed.

(** Where what is indexed directly is what the store decodes, so are all the entries. *)
Lemma entries_decoded `{Ciborium} {St} `{ContentStore St} (s : St) h ops : ∀ entry,
  (∀ a, OpIndex h a ∈ ops → stored_attestation s h = Some a) → (∀ a, entry = Some a → stored_attestation s h = Some a) →
  ∀ a, foldl (entry_step s h) entry ops = Some a → stored_attestation s h = Some a.
Proof.
  induction ops as [|op ops IH]; intros entry Hi He; [exact He|]. cbn [foldl]. apply IH; [intros a Ha; apply Hi; by right|].
  intros a. destruct op as [k b|k|event]; cbn [entry_step]; case_decide as Hk; auto; [|done|].
  - subst k. intros [= <-]. destruct entry as [c|]; [by apply He|]. apply Hi. by left.
  - destruct entry as [c|]; [auto|done].
Qed.

(** A lookup by a field answers, in the order of hashes, with the entries whose field it is. *)
Definition answers_field {K} (field : AttestationData → option K) (lookup : K → list Hash) (i : AttestationIndex) : Prop :=
  ∀ k, StronglySorted (λ a b, cmp a b = Lt) (lookup k)
    ∧ ∀ h, h ∈ lookup k ↔ ∃ a, att_index_get h i = Some a ∧ field a = Some k.

Lemma posted_answers {K} `{Ord K} (field : AttestationData → option K) m i :
  posted field (by_hash i) m → answers_field field (lookup_in m) i.
Proof. intros [Hs Hl] k. split; [by apply lookup_sorted|]. intros h. by rewrite Hl. Qed.

(** C25. Whatever is indexed, forgotten, written to the tree and loaded, in whatever order: the four
    indexes over the fields agree with the entries.  The entry of a hash is the first attestation
    that was indexed under it, directly or as what the store decodes of a binding written, since it
    was last forgotten; where what was indexed directly is what the store decodes, every entry is.
    Loading adds exactly the attestations that the store decodes of what is bound below the peer's
    own prefix, to what the index had. *)
Theorem attestation_index_exact `{Ciborium} {St} `{ContentStore St} (s : St) {L} `{LocationIndex L} (t : L) peer ops :
  let i := foldl (index_step s) att_index_new ops in
  let i' := att_index_load peer s t i in
  (∀ j, j ∈ [i; i'] →
     answers_field (λ a, Some (attesting a)) (λ k, lookup_by_attesting k j) j
     ∧ answers_field (λ a, Some (attested a)) (λ k, lookup_by_attested k j) j
     ∧ answers_field kind (λ k, lookup_by_kind k j) j
     ∧ answers_field supersedes (λ k, lookup_by_supersedes k j) j)
  ∧ (∀ h, att_index_get h i = foldl (entry_step s h) None ops)
  ∧ ((∀ h a, OpIndex h a ∈ ops → stored_attestation s h = Some a) → ∀ h a, att_index_get h i' = Some a → stored_attestation s h = Some a)
  ∧ ∀ h, att_index_get h i' =
      match att_index_get h i with
      | Some a => Some a
      | None =>
          if bool_decide (h ∈ map le_hash (li_list (lit "/" ++ peer ++ lit "/system/attestation/") t)) then stored_attestation s h
          else None
      end.
Proof.
  assert (Hrun : ∀ ops i, index_ok i → index_ok (foldl (index_step s) i ops)).
  { intros l. induction l as [|op l IH]; intros i Hi; [done|]. cbn [foldl]. apply IH. destruct op as [h a|h|event]; cbn [index_step]; auto.
    unfold index_hook. destruct (new_hash event); [by apply index_bound_ok|done]. }
  intros i i'. assert (Hi : index_ok i) by (by apply Hrun). assert (Hi' : index_ok i') by (by apply load_fold_ok).
  assert (Hload : ∀ h, att_index_get h i' = match att_index_get h i with
      | Some a => Some a
      | None => if bool_decide (h ∈ map le_hash (li_list (lit "/" ++ peer ++ lit "/system/attestation/") t)) then stored_attestation s h else None
      end) by (intros h; apply load_fold_get).
  assert (Hget : ∀ h, att_index_get h i = foldl (entry_step s h) None ops) by (intros h; apply index_steps_get).
  split_and!; [|exact Hget| |exact Hload].
  2:{ intros Hd h a. rewrite Hload, Hget. destruct (foldl (entry_step s h) None ops) as [b|] eqn:E; [|by case_bool_decide].
      intros [= <-]. by apply (entries_decoded s h ops None); [intros c Hc; by apply Hd| |]. }
  assert (Hall : ∀ j, index_ok j → answers_field (λ a, Some (attesting a)) (λ k, lookup_by_attesting k j) j
     ∧ answers_field (λ a, Some (attested a)) (λ k, lookup_by_attested k j) j
     ∧ answers_field kind (λ k, lookup_by_kind k j) j ∧ answers_field supersedes (λ k, lookup_by_supersedes k j) j).
  { intros j [? ? ? ?]. split_and!; by apply posted_answers. }
  intros j Hj. apply Hall. apply elem_of_cons in Hj as [Hj|Hj%list_elem_of_singleton]; by rewrite Hj.
Qed.

(** A well-formed attestation survives its entity, its properties in ECF normal form; a time of
    2^63 or more is written as a negative integer, which decoding refuses. *)
Theorem attestation_round_trip `{Sha2} `{CiboriumDecodes} home a e :
  att_ok a → attestation_to_entity home a = Ok e →
  attestation_from_entity e = Ok (norm_att a)
  ∧ (ecf_norm (VMap (properties a)) = VMap (properties a) → norm_att a = a)
  ∧ field_u64_opt [(text (lit "expires_at"), integer (as_i64 (2 ^ 63)))] "expires_at" = Err AttDecode.
Proof.
  intros Ha He. unfold attestation_to_entity in He. destruct (entity_new _ _ _) as [e'|] eqn:E; [|done]. injection He as ->.
  apply new_with_format_Ok in E as (_ & _ & Hty & Hd). split_and!; [by apply attestation_decodes| |by vm_compute].
  intros Hn. unfold norm_att, norm_properties. rewrite Hn. by destruct a.
Qed.

Lemma attestation_round_trip_witness :
  let S := checksum_sha2 in let C := ref_ciborium in
  let a := mkAttestation hash_zero hash_zero [(text (lit "kind"), text KIND_REVOCATION)] (Some hash_zero) None (Some 9) in
  ∃ e, attestation_to_entity 1 a = Ok e ∧ attestation_from_entity e = Ok (norm_att a)
    ∧ (ecf_norm (VMap (properties a)) = VMap (properties a) → norm_att a = a)
    ∧ field_u64_opt [(text (lit "expires_at"), integer (as_i64 (2 ^ 63)))] "expires_at" = Err AttDecode.
Proof.
  intros S C a. exists (match @attestation_to_entity S 1 a with Ok e => e | Err _ => mkEntity [] [] hash_zero end).
  split; [vm_compute; reflexivity|].
  apply (@attestation_round_trip checksum_sha2 ref_ciborium ref_ciborium_decodes 1 a).
  - assert (Hz : hash_ok hash_zero) by (apply (bool_decide_eq_true_1 _); vm_compute; reflexivity).
    unfold att_ok. split_and!; [exact Hz|exact Hz|exact Hz|exact I|vm_compute; split; discriminate|].
    split; [vm_compute; reflexivity|]. apply Nat.leb_le. vm_compute. reflexivity.
  - vm_compute. reflexivity.
Defined.
