(* ===== verification/AttestationGraph.v ===== *)
(** The graph of attestations ([extensions/attestation/helpers.rs], liveness and the walks).

    Every walk reads the index alone.  [None] stands for a run its fuel did not cover; the
    theorems show that the fuel given here is enough in an index whose references point back. *)
From S2P Require Import Prelude BTree Ecf Cbor ContentHash Entity Attestation.

Notation Indexed := (Hash * AttestationData)%type.

(** * Looking up *)

Definition with_data (i : AttestationIndex) (hashes : list Hash) : list Indexed :=
  omap (λ h, a ← att_index_get h i; Some (h, a)) hashes.

Definition find_attestations_targeting (entity_hash : Hash) (predicate : AttestationData → bool) (i : AttestationIndex) : list Indexed :=
  filter (λ ha, predicate ha.2 = true) (with_data i (lookup_by_attested entity_hash i)).
Definition find_attestations_by (peer_hash : Hash) (predicate : AttestationData → bool) (i : AttestationIndex) : list Indexed :=
  filter (λ ha, predicate ha.2 = true) (with_data i (lookup_by_attesting peer_hash i)).
Definition has_kind (k : list Z) (a : AttestationData) : bool := bool_decide (kind a = Some k).
Definition find_revocations_for (attestation_hash : Hash) (i : AttestationIndex) : list Indexed :=
  find_attestations_targeting attestation_hash (has_kind KIND_REVOCATION) i.
Definition find_attestations_with_supersedes (predecessor : Hash) (i : AttestationIndex) : list Indexed :=
  with_data i (lookup_by_supersedes predecessor i).
Definition find_attestations_with_kind (k : list Z) (i : AttestationIndex) : list Indexed := with_data i (lookup_by_kind k i).

(** * Liveness *)

(** [now >= exp] and [now < nb] fail it. *)
Definition is_self_valid_basic (a : AttestationData) (now : Z) : bool :=
  match att_expires_at a with Some exp => now <? exp | None => true end
  && match att_not_before a with Some nb => nb <=? now | None => true end.

(** [l.iter().any(f)], its predicate possibly out of fuel. *)
Fixpoint any_run {A} (f : A → option bool) (l : list A) : option bool :=
  match l with
  | [] => Some false
  | x :: l => b ← f x; if b : bool then Some true else any_run f l
  end.

Section liveness.
Context (i : AttestationIndex) (now : Z).

(** [r.attesting == a.attesting && is_attestation_live(r)] for some revocation [r]. *)
Definition self_revoked (live : Hash → AttestationData → option bool) (h : Hash) (a : AttestationData) : option bool :=
  any_run (λ r, if bool_decide (attesting r.2 = attesting a) then live r.1 r.2 else Some false) (find_revocations_for h i).

(** The successors of one link: [None] is the early return. *)
Fixpoint visit_successors (live : Hash → AttestationData → option bool) (l : list Indexed) (stack : list Hash)
    : option (option (list Hash)) :=
  match l with
  | [] => Some (Some stack)
  | (dh, d) :: l =>
      hit ← (if is_self_valid_basic d now then revoked ← self_revoked live dh d; Some (negb revoked) else Some false);
      if hit : bool then Some None else visit_successors live l (dh :: stack)
  end.

Fixpoint descendant_loop (fuel : nat) (live : Hash → AttestationData → option bool) (stack : list Hash) (visited : gset Hash)
    : option bool :=
  match fuel with
  | O => None
  | S fuel =>
      match stack with
      | [] => Some false
      | h :: stack =>
          if bool_decide (h ∈ visited) then descendant_loop fuel live stack visited
          else
            next ← visit_successors live (find_attestations_with_supersedes h i) stack;
            match next with
            | None => Some true
            | Some stack => descendant_loop fuel live stack ({[h]} ∪ visited)
            end
      end
  end.

(** Each link is popped once, and once more for the stack that is empty. *)
Definition walk_fuel : nat := 2 + size (by_hash i).

Definition has_valid_descendant (live : Hash → AttestationData → option bool) (h : Hash) : option bool :=
  descendant_loop walk_fuel live [h] ∅.

Fixpoint attestation_live (fuel : nat) (h : Hash) (a : AttestationData) : option bool :=
  match fuel with
  | O => None
  | S fuel =>
      if negb (is_self_valid_basic a now) then Some false
      else
        revoked ← self_revoked (attestation_live fuel) h a;
        if revoked : bool then Some false
        else superseded ← has_valid_descendant (attestation_live fuel) h; Some (negb superseded)
  end.

(** A revocation is looked at from what it revokes, so that each level leaves an entry behind. *)
Definition live_fuel : nat := S (size (by_hash i)).
Definition is_attestation_live (h : Hash) (a : AttestationData) : option bool := attestation_live live_fuel h a.
End liveness.

(** * Walks *)

(** [walk_supersedes_chain]: the loop, after its first link. *)
Fixpoint supersedes_loop (fuel : nat) (i : AttestationIndex) (current : option Hash) : option (list Indexed) :=
  match fuel with
  | O => None
  | S fuel =>
      match current with
      | None => Some []
      | Some prev =>
          match att_index_get prev i with
          | None => Some []
          | Some prev_att => rest ← supersedes_loop fuel i (supersedes prev_att); Some ((prev, prev_att) :: rest)
          end
      end
  end.

Definition walk_supersedes_chain (h : Hash) (a : AttestationData) (i : AttestationIndex) : option (list Indexed) :=
  rest ← supersedes_loop (walk_fuel i) i (supersedes a); Some ((h, a) :: rest).

(** The later [not_before], then the lower hash. *)
Definition head_order (x y : Indexed) : comparison :=
  then_with (Z.compare (default 0 (att_not_before x.2)) (default 0 (att_not_before y.2))) (cmp y.1 x.1).

Definition better_head (best : option Indexed) (x : Indexed) : option Indexed :=
  match best with
  | None => Some x
  | Some b => Some (match head_order x b with Gt => x | _ => b end)
  end.

(** [clock h] is the time at which the liveness of [h] is asked for. *)
Fixpoint head_loop (fuel : nat) (i : AttestationIndex) (clock : Hash → Z) (stack : list Indexed) (visited : gset Hash) (best : option Indexed)
    : option (option Indexed) :=
  match fuel with
  | O => None
  | S fuel =>
      match stack with
      | [] => Some best
      | (h, a) :: stack =>
          if bool_decide (h ∈ visited) then head_loop fuel i clock stack visited best
          else
            live ← is_attestation_live i (clock h) h a;
            head_loop fuel i clock (reverse (find_attestations_with_supersedes h i) ++ stack) ({[h]} ∪ visited)
              (if live : bool then better_head best (h, a) else best)
      end
  end.

Definition find_live_head (h : Hash) (a : AttestationData) (i : AttestationIndex) (clock : Hash → Z) : option (option Indexed) :=
  head_loop (walk_fuel i) i clock [(h, a)] ∅ None.

(** [l.into_iter().filter(f)], its predicate possibly out of fuel. *)
Fixpoint filter_run {A} (f : A → option bool) (l : list A) : option (list A) :=
  match l with
  | [] => Some []
  | x :: l => b ← f x; l ← filter_run f l; Some (if b : bool then x :: l else l)
  end.

Fixpoint live_heads (live : list Indexed) (i : AttestationIndex) (clock : Hash → Hash → Z) (heads : list Indexed) : option (list Indexed) :=
  match live with
  | [] => Some heads
  | (h, a) :: live =>
      head ← find_live_head h a i (clock h);
      live_heads live i clock (match head with
                               | Some x => if existsb (λ y, bool_decide (y.1 = x.1)) heads then heads else heads ++ [x]
                               | None => heads
                               end)
  end.

(** [min_by_key] keeps the first of the least. *)
Definition lowest (best : option Indexed) (x : Indexed) : option Indexed :=
  match best with
  | None => Some x
  | Some b => Some (match cmp x.1 b.1 with Lt => x | _ => b end)
  end.

(** [clock None] is read while the candidates are filtered, [clock (Some h)] while the head of
    [h] is looked for. *)
Definition default_find_authorizing (peer_hash : Hash) (i : AttestationIndex) (clock : option Hash → Hash → Z) : option (option Indexed) :=
  let candidates := find_attestations_targeting peer_hash (λ _, true) i in
  live ← filter_run (λ ha, is_attestation_live i (clock None ha.1) ha.1 ha.2) candidates;
  if bool_decide (live = []) then Some None
  else
    heads ← live_heads live i (λ h, clock (Some h)) [];
    Some (foldl lowest None heads).

(** [while depth < max_depth] *)
Fixpoint attesting_loop (depth : nat) (terminate : AttestationData → bool) (find_authorizing : Hash → option (option Indexed))
    (chain : list Indexed) (current : AttestationData) : option (option (list Indexed)) :=
  match depth with
  | O => Some None
  | S depth =>
      if terminate current then Some (Some chain)
      else
        parent ← find_authorizing (attesting current);
        match parent with
        | None => Some None
        | Some p => attesting_loop depth terminate find_authorizing (chain ++ [p]) p.2
        end
  end.

Definition walk_attesting_chain (max_depth : nat) (h : Hash) (a : AttestationData) (terminate : AttestationData → bool)
    (find_authorizing : Hash → option (option Indexed)) : option (option (list Indexed)) :=
  attesting_loop max_depth terminate find_authorizing [(h, a)] a.

(** [clock peer] is the clock of the search that authorizes [peer]. *)
Definition walk_attesting_chain_default (h : Hash) (a : AttestationData) (terminate : AttestationData → bool) (i : AttestationIndex)
    (clock : Hash → option Hash → Hash → Z) : option (option (list Indexed)) :=
  walk_attesting_chain DEFAULT_MAX_DEPTH h a terminate (λ peer, default_find_authorizing peer i (clock peer)).

(** * What the lookups find *)

(** [h] is superseded by [dh]. *)
Definition succeeds (i : AttestationIndex) (h dh : Hash) : Prop := ∃ d, att_index_get dh i = Some d ∧ supersedes d = Some h.
(** [dh] descends from [h] through one replacement or more. *)
Definition replaces (i : AttestationIndex) : Hash → Hash → Prop := tc (succeeds i).
(** [r] revokes [a], and comes from the same peer. *)
Definition self_revokes (i : AttestationIndex) (h : Hash) (a : AttestationData) (rh : Hash) (r : AttestationData) : Prop :=
  att_index_get rh i = Some r ∧ attested r = h ∧ kind r = Some KIND_REVOCATION ∧ attesting r = attesting a.

Lemma with_data_elem i hs h a : (h, a) ∈ with_data i hs ↔ h ∈ hs ∧ att_index_get h i = Some a.
Proof.
  unfold with_data. rewrite list_elem_of_omap. split.
  - intros (x & Hx & E). apply bind_Some in E as (b & Hb & [= -> ->]). done.
  - intros [Hh Ha]. exists h. rewrite Ha. done.
Qed.

Lemma sublist_omap_keys i hs : map fst (with_data i hs) `sublist_of` hs.
Proof.
  unfold with_data. induction hs as [|h hs IH]; [constructor|]. cbn. destruct (att_index_get h i); cbn; by constructor.
Qed.

Section lookups.
Context (i : AttestationIndex) (Hok : index_ok i).

Lemma targeting_elem e p h a :
  (h, a) ∈ find_attestations_targeting e p i ↔ att_index_get h i = Some a ∧ attested a = e ∧ p a = true.
Proof.
  unfold find_attestations_targeting. rewrite list_elem_of_filter, with_data_elem. cbn [snd].
  unfold lookup_by_attested. rewrite (proj2 (ix_attested i Hok)). unfold att_index_get. naive_solver.
Qed.

Lemma by_elem e p h a :
  (h, a) ∈ find_attestations_by e p i ↔ att_index_get h i = Some a ∧ attesting a = e ∧ p a = true.
Proof.
  unfold find_attestations_by. rewrite list_elem_of_filter, with_data_elem. cbn [snd].
  unfold lookup_by_attesting. rewrite (proj2 (ix_attesting i Hok)). unfold att_index_get. naive_solver.
Qed.

Lemma with_supersedes_elem p h a :
  (h, a) ∈ find_attestations_with_supersedes p i ↔ att_index_get h i = Some a ∧ supersedes a = Some p.
Proof.
  unfold find_attestations_with_supersedes. rewrite with_data_elem.
  unfold lookup_by_supersedes. rewrite (proj2 (ix_supersedes i Hok)). unfold att_index_get. naive_solver.
Qed.

Lemma with_kind_elem k h a : (h, a) ∈ find_attestations_with_kind k i ↔ att_index_get h i = Some a ∧ kind a = Some k.
Proof.
  unfold find_attestations_with_kind. rewrite with_data_elem.
  unfold lookup_by_kind. rewrite (proj2 (ix_kind i Hok)). unfold att_index_get. naive_solver.
Qed.

Lemma revocations_elem h a rh r : (rh, r) ∈ find_revocations_for h i ∧ attesting r = attesting a ↔ self_revokes i h a rh r.
Proof.
  unfold find_revocations_for, self_revokes. rewrite targeting_elem. unfold has_kind. rewrite bool_decide_eq_true. tauto.
Qed.

Lemma successor_keys h dh : dh ∈ map fst (find_attestations_with_supersedes h i) ↔ succeeds i h dh.
Proof.
  rewrite list_elem_of_fmap. split.
  - intros ([h' a] & -> & Hin). apply with_supersedes_elem in Hin. by exists a.
  - intros (a & Ha). exists (dh, a). split; [done|]. by apply with_supersedes_elem.
Qed.

Lemma sorted_NoDup (l : list Hash) : StronglySorted (λ a b, cmp a b = Lt) l → NoDup l.
Proof.
  induction 1 as [|x l Hl IH Hall]; constructor; [|done]. intros Hin. rewrite Forall_forall in Hall.
  specialize (Hall x Hin). by rewrite cmp_refl in Hall.
Qed.

Lemma successors_NoDup h : NoDup (map fst (find_attestations_with_supersedes h i)).
Proof.
  eapply sublist_NoDup; [|apply sublist_omap_keys]. apply sorted_NoDup, lookup_sorted, (ix_supersedes i Hok).
Qed.

(** ** How many links are left to visit *)

Definition awaits (visited : gset Hash) (a : AttestationData) : Prop :=
  match supersedes a with Some p => p ∉ visited | None => False end.
#[local] Instance awaits_dec visited a : Decision (awaits visited a).
Proof. unfold awaits. destruct (supersedes a); apply _. Defined.

Definition awaiting (visited : gset Hash) : gset Hash := dom (filter (λ ha, awaits visited ha.2) (by_hash i)).

Lemma awaiting_elem V dh : dh ∈ awaiting V ↔ ∃ p, succeeds i p dh ∧ p ∉ V.
Proof.
  unfold awaiting. rewrite elem_of_dom. unfold is_Some, succeeds, att_index_get. split.
  - intros (a & Ha). apply map_lookup_filter_Some in Ha as [Ha Hw]. unfold awaits in Hw. cbn [snd] in Hw.
    destruct (supersedes a) as [p|] eqn:E; [|done]. exists p. eauto.
  - intros (p & (d & Hd & Hs) & Hp). exists d. apply map_lookup_filter_Some. split; [done|]. unfold awaits. cbn [snd]. by rewrite Hs.
Qed.

Lemma awaiting_start : (size (awaiting ∅) ≤ size (by_hash i))%nat.
Proof.
  unfold awaiting. rewrite size_dom. rewrite <- !size_dom. apply subseteq_size. intros h.
  rewrite !elem_of_dom. intros [a [Ha _]%map_lookup_filter_Some]. by exists a.
Qed.

Lemma awaiting_visit V h :
  h ∉ V → (length (find_attestations_with_supersedes h i) + size (awaiting ({[h]} ∪ V)) ≤ size (awaiting V))%nat.
Proof.
  intros Hh. rewrite <- (length_map fst), <- (size_list_to_set (C := gset Hash)) by apply successors_NoDup.
  rewrite <- size_union.
  - apply subseteq_size. intros dh [Hin%elem_of_list_to_set|Hin]%elem_of_union.
    + apply successor_keys in Hin. apply awaiting_elem. by exists h.
    + apply awaiting_elem in Hin as (p & Hs & Hp). apply awaiting_elem. exists p. set_solver.
  - intros dh Hin%elem_of_list_to_set Hin2. apply successor_keys in Hin as (d & Hd & Hs).
    apply awaiting_elem in Hin2 as (p & (d' & Hd' & Hs') & Hp). assert (p = h) by congruence. set_solver.
Qed.
End lookups.

(** * The status of an attestation

    An attestation is withdrawn by a live revocation of its own peer's and kept when all of those
    are dead.  It is alive when it is in its time, kept, and every replacement of it that is in
    its time is withdrawn. *)
Inductive Verdict := Alive | Dead | Kept | Withdrawn.

Inductive status (i : AttestationIndex) (now : Z) : Hash → AttestationData → Verdict → Prop :=
  | status_withdrawn h a rh r : self_revokes i h a rh r → status i now rh r Alive → status i now h a Withdrawn
  | status_kept h a : (∀ rh r, self_revokes i h a rh r → status i now rh r Dead) → status i now h a Kept
  | status_out_of_time h a : is_self_valid_basic a now = false → status i now h a Dead
  | status_revoked h a : status i now h a Withdrawn → status i now h a Dead
  | status_replaced h a dh d : replaces i h dh → att_index_get dh i = Some d → is_self_valid_basic d now = true →
      status i now dh d Kept → status i now h a Dead
  | status_alive h a : is_self_valid_basic a now = true → status i now h a Kept →
      (∀ dh d, replaces i h dh → att_index_get dh i = Some d → is_self_valid_basic d now = true → status i now dh d Withdrawn) →
      status i now h a Alive.

Definition opposite (v : Verdict) : Verdict :=
  match v with Alive => Dead | Dead => Alive | Kept => Withdrawn | Withdrawn => Kept end.

Lemma status_exclusive i now h a v : status i now h a v → ¬ status i now h a (opposite v).
Proof.
  induction 1 as [h a rh r Hr Hs IH|h a Hall IH|h a Ht|h a Hw IH|h a dh d Hd Hg Ht Hk IH|h a Ht Hk IHk Hall IH]; cbn; intros Ho.
  - inversion Ho as [|? ? Hall| | | |]; subst. by apply IH, Hall.
  - inversion Ho as [? ? rh r Hr Hs| | | | |]; subst. by apply (IH rh r).
  - inversion Ho; congruence.
  - inversion Ho as [| | | | |? ? Ht' Hk Hall']; subst. by apply IH.
  - inversion Ho as [| | | | |? ? Ht' Hk' Hall']; subst. apply IH. by apply (Hall' dh d).
  - inversion Ho as [| |? ? Ht'|? ? Hw|? ? dh d Hd Hg Ht' Hk'|]; subst; [congruence|by apply IHk|by apply (IH dh d)].
Qed.

Lemma replaces_last i h dh : replaces i h dh → ∃ p, rtc (succeeds i) h p ∧ succeeds i p dh.
Proof.
  induction 1 as [x y Hxy|x y z Hxy _ (p & Hp & Hz)]; [by exists x; split; [constructor|]|]. exists p. split; [|done]. by eapply rtc_l.
Qed.

(** * The runs *)

Section any_run.
Context {A : Type} (f : A → option bool).

Lemma any_run_true l : any_run f l = Some true → ∃ x, x ∈ l ∧ f x = Some true.
Proof.
  induction l as [|x l IH]; cbn; [done|]. destruct (f x) as [[]|] eqn:E; cbn; [|intros (y & Hy & Hf)%IH|done].
  - intros _. exists x. split; [by left|done].
  - exists y. split; [by right|done].
Qed.

Lemma any_run_false l : any_run f l = Some false → ∀ x, x ∈ l → f x = Some false.
Proof.
  induction l as [|x l IH]; cbn; [set_solver|]. destruct (f x) as [[]|] eqn:E; cbn; [done| |done].
  intros Hl y [->|Hy]%elem_of_cons; [done|by apply IH].
Qed.

Lemma any_run_total l : (∀ x, x ∈ l → is_Some (f x)) → is_Some (any_run f l).
Proof.
  induction l as [|x l IH]; intros Hf; cbn; [by eexists|]. destruct (Hf x) as [[] ->]; [by left|by eexists|]. cbn. apply IH. set_solver.
Qed.
End any_run.

Section liveness_facts.
Context (i : AttestationIndex) (Hok : index_ok i) (now : Z).
Implicit Types (live : Hash → AttestationData → option bool) (V : gset Hash).

Lemma self_revoked_true live h a :
  self_revoked i live h a = Some true → ∃ rh r, self_revokes i h a rh r ∧ live rh r = Some true.
Proof.
  intros ([rh r] & Hin & Hf)%any_run_true. cbn [fst snd] in Hf. case_bool_decide as Ha; [|done].
  exists rh, r. split; [|done]. by apply revocations_elem.
Qed.

Lemma self_revoked_false live h a :
  self_revoked i live h a = Some false → ∀ rh r, self_revokes i h a rh r → live rh r = Some false.
Proof.
  intros Hf rh r [Hin Ha]%revocations_elem; [|done]. apply (any_run_false _ _ Hf) in Hin. cbn [fst snd] in Hin.
  by rewrite bool_decide_eq_true_2 in Hin.
Qed.

Lemma self_revoked_total live h a :
  (∀ rh r, self_revokes i h a rh r → is_Some (live rh r)) → is_Some (self_revoked i live h a).
Proof.
  intros Hl. apply any_run_total. intros [rh r] Hin. cbn [fst snd]. case_bool_decide; [|by eexists].
  apply Hl. by apply revocations_elem.
Qed.

(** A replacement that does not count: out of its time, or withdrawn. *)
Definition spent live (dh : Hash) : Prop :=
  ∀ d, att_index_get dh i = Some d → is_self_valid_basic d now = true → self_revoked i live dh d = Some true.
Definition standing live (dh : Hash) : Prop :=
  ∃ d, att_index_get dh i = Some d ∧ is_self_valid_basic d now = true ∧ self_revoked i live dh d = Some false.

Lemma visit_successors_spec live l : ∀ stack,
  (∀ dh d, (dh, d) ∈ l → att_index_get dh i = Some d) →
  match visit_successors i now live l stack with
  | Some None => ∃ dh, dh ∈ map fst l ∧ standing live dh
  | Some (Some stack') => stack' = reverse (map fst l) ++ stack ∧ ∀ dh, dh ∈ map fst l → spent live dh
  | None => ∃ dh d, (dh, d) ∈ l ∧ self_revoked i live dh d = None
  end.
Proof.
  induction l as [|[dh d] l IH]; intros stack Hl; cbn [visit_successors map fst].
  { split; [done|set_solver]. }
  assert (Hd : att_index_get dh i = Some d) by (apply Hl; by left).
  assert (Hrest : spent live dh → match visit_successors i now live l (dh :: stack) with
    | Some None => ∃ x, x ∈ dh :: map fst l ∧ standing live x
    | Some (Some stack') => stack' = reverse (dh :: map fst l) ++ stack ∧ ∀ x, x ∈ dh :: map fst l → spent live x
    | None => ∃ x y, (x, y) ∈ (dh, d) :: l ∧ self_revoked i live x y = None
    end).
  { intros Hsp. specialize (IH (dh :: stack) ltac:(set_solver)). destruct (visit_successors _ _ _ _ _) as [[stack'|]|].
    - destruct IH as [-> Hs]. split; [by rewrite reverse_cons, <- app_assoc|]. intros x [->|Hx]%elem_of_cons; [done|by apply Hs].
    - destruct IH as (x & Hx & ?). exists x. split; [by right|done].
    - destruct IH as (x & y & Hx & ?). exists x, y. split; [by right|done]. }
  destruct (is_self_valid_basic d now) eqn:Et; cbn [mbind option_bind].
  - destruct (self_revoked i live dh d) as [[]|] eqn:Er; cbn.
    + apply Hrest. intros d' Hd' _. assert (d' = d) as -> by congruence. done.
    + exists dh. split; [by left|]. by exists d.
    + exists dh, d. split; [by left|done].
  - apply Hrest. intros d' Hd'. assert (d' = d) as -> by congruence. by rewrite Et.
Qed.

(** What the walk from [h0] has seen is reached from it, and the replacements of what it has
    visited are spent and either visited or to be. *)
Record searching live (h0 : Hash) (stack : list Hash) V : Prop := {
  sr_start : h0 ∈ V ∨ h0 ∈ stack;
  sr_reached : ∀ h, h ∈ stack → rtc (succeeds i) h0 h;
  sr_closed : ∀ h dh, h ∈ V → succeeds i h dh → spent live dh ∧ (dh ∈ V ∨ dh ∈ stack);
}.

Lemma searched_all live h0 V : searching live h0 [] V → ∀ dh, replaces i h0 dh → spent live dh.
Proof.
  intros [Hs _ Hc]. assert (H0 : h0 ∈ V) by (destruct Hs; set_solver). clear Hs.
  assert (Hall : ∀ x, rtc (succeeds i) h0 x → x ∈ V).
  { apply (rtc_ind_r (λ x, x ∈ V) h0); [done|]. intros y z _ Hyz Hy. destruct (Hc y z Hy Hyz) as [_ [?|?]]; set_solver. }
  intros dh (y & Hy & Hd)%replaces_last. apply (Hc y dh); [by apply Hall|done].
Qed.

Lemma descendant_loop_spec live h0 fuel : ∀ stack V, searching live h0 stack V →
  match descendant_loop i now fuel live stack V with
  | Some true => ∃ dh, replaces i h0 dh ∧ standing live dh
  | Some false => ∀ dh, replaces i h0 dh → spent live dh
  | None => (∃ dh d, replaces i h0 dh ∧ att_index_get dh i = Some d ∧ self_revoked i live dh d = None)
      ∨ (fuel ≤ length stack + size (awaiting i V))%nat
  end.
Proof.
  induction fuel as [|fuel IH]; intros stack V Hse; cbn [descendant_loop]; [right; lia|].
  destruct stack as [|h stack]; [by apply (searched_all live h0 V)|]. pose proof Hse as [Hs Hr Hc]. case_bool_decide as Hv.
  { assert (Hse' : searching live h0 stack V).
    { constructor; [destruct Hs as [?|[->|?]%elem_of_cons]; auto|set_solver|].
      intros x dx Hx Hd; destruct (Hc x dx Hx Hd) as [Hsp [?|[->|?]%elem_of_cons]]; auto. }
    specialize (IH stack V Hse'). destruct (descendant_loop _ _ _ _ _ _) as [[]|]; [done|done|].
    destruct IH as [IH|IH]; [by left|right; cbn [length]; lia]. }
  assert (Hh0 : rtc (succeeds i) h0 h) by (apply Hr; by left).
  assert (Hrep : ∀ dh, succeeds i h dh → replaces i h0 dh) by (intros dh Hd; eapply tc_rtc_l; [exact Hh0|by apply tc_once]).
  pose proof (visit_successors_spec live (find_attestations_with_supersedes h i) stack) as Hvis.
  set (succs := find_attestations_with_supersedes h i) in *.
  assert (Hkeys : ∀ dh, dh ∈ map fst succs ↔ succeeds i h dh) by (intros; by apply successor_keys).
  specialize (Hvis ltac:(intros dh d [? _]%with_supersedes_elem; done)).
  destruct (visit_successors _ _ _ _ _) as [[stack'|]|]; cbn [mbind option_bind].
  - destruct Hvis as [-> Hsp]. pose proof (awaiting_visit i Hok V h Hv) as Hlen. fold succs in Hlen.
    assert (Hse' : searching live h0 (reverse (map fst succs) ++ stack) ({[h]} ∪ V)).
    { constructor.
      - destruct Hs as [?|[->|?]%elem_of_cons]; set_solver.
      - intros x [Hx%elem_of_reverse%Hkeys|Hx]%elem_of_app; [by eapply rtc_r|]. apply Hr. by right.
      - intros x dx [->%elem_of_singleton|Hx]%elem_of_union Hd.
        + apply Hkeys in Hd. split; [by apply Hsp|]. right. apply elem_of_app. left. by apply elem_of_reverse.
        + destruct (Hc x dx Hx Hd) as [? [?|[->|?]%elem_of_cons]]; set_solver. }
    specialize (IH _ _ Hse'). destruct (descendant_loop _ _ _ _ _ _) as [[]|]; [done|done|].
    destruct IH as [IH|IH]; [by left|right]. rewrite length_app, length_reverse, length_map in IH. cbn [length]. lia.
  - destruct Hvis as (dh & Hdh & Hst). exists dh. split; [|done]. by apply Hrep, Hkeys.
  - destruct Hvis as (dh & d & Hin & Hn). left. exists dh, d. apply with_supersedes_elem in Hin as [Hd Hsd]; [|done].
    split_and!; [|done|done]. apply Hrep. by exists d.
Qed.

Lemma has_valid_descendant_spec live h :
  match has_valid_descendant i now live h with
  | Some true => ∃ dh, replaces i h dh ∧ standing live dh
  | Some false => ∀ dh, replaces i h dh → spent live dh
  | None => ∃ dh d, replaces i h dh ∧ att_index_get dh i = Some d ∧ self_revoked i live dh d = None
  end.
Proof.
  unfold has_valid_descendant. pose proof (descendant_loop_spec live h (walk_fuel i) [h] ∅) as Hl.
  specialize (Hl ltac:(constructor; [right; by left|intros x ->%list_elem_of_singleton; constructor|set_solver])).
  destruct (descendant_loop _ _ _ _ _ _) as [[]|]; [done..|]. destruct Hl as [Hl|Hl]; [done|].
  pose proof (awaiting_start i). unfold walk_fuel in Hl. cbn [length] in Hl. lia.
Qed.

(** ** The status is what the code computes *)

Definition verdict (b : bool) : Verdict := if b then Alive else Dead.

Lemma attestation_live_sound fuel : ∀ h a b, attestation_live i now fuel h a = Some b → status i now h a (verdict b).
Proof.
  induction fuel as [|fuel IH]; intros h a b; cbn [attestation_live]; [done|].
  assert (Hw : ∀ x y, self_revoked i (attestation_live i now fuel) x y = Some true → status i now x y Withdrawn).
  { intros x y (rh & r & Hr & Hl)%self_revoked_true. apply (status_withdrawn _ _ _ _ rh r); [done|]. by apply (IH rh r true). }
  assert (Hk : ∀ x y, self_revoked i (attestation_live i now fuel) x y = Some false → status i now x y Kept).
  { intros x y Hf. apply status_kept. intros rh r Hr. apply (IH rh r false). by eapply self_revoked_false. }
  destruct (is_self_valid_basic a now) eqn:Et; cbn [negb]; [|intros [= <-]; by apply status_out_of_time].
  destruct (self_revoked i (attestation_live i now fuel) h a) as [[]|] eqn:Er; cbn [mbind option_bind]; [| |done].
  { intros [= <-]. apply status_revoked. by apply Hw. }
  pose proof (has_valid_descendant_spec (attestation_live i now fuel) h) as Hd.
  destruct (has_valid_descendant _ _ _ _) as [[]|]; cbn [mbind option_bind]; [| |done]; intros [= <-].
  - destruct Hd as (dh & Hrep & d & Hg & Htd & Hf). apply (status_replaced _ _ _ _ dh d); try done. by apply Hk.
  - apply status_alive; [done|by apply Hk|]. intros dh d Hrep Hg Htd. apply Hw. by apply (Hd dh Hrep d).
Qed.

(** References that point back: a rank that every replacement and every revocation raises. *)
Definition grounded (rank : Hash → nat) : Prop :=
  ∀ h a, att_index_get h i = Some a →
    (∀ p, supersedes a = Some p → (rank p < rank h)%nat) ∧ (kind a = Some KIND_REVOCATION → (rank (attested a) < rank h)%nat).

Definition above (rank : Hash → nat) (h : Hash) : nat := size (filter (λ k, (rank h < rank k)%nat) (dom (by_hash i))).

Lemma above_less rank h k a : att_index_get k i = Some a → (rank h < rank k)%nat → (above rank k < above rank h)%nat.
Proof.
  intros Hk Hlt. apply subset_size. split.
  - intros x. rewrite !elem_of_filter. intros [Hx Hin]. split; [lia|done].
  - intros Hsub. assert (Hin : k ∈ filter (λ x, (rank h < rank x)%nat) (dom (by_hash i))).
    { apply elem_of_filter. split; [done|]. apply elem_of_dom. by exists a. }
    apply Hsub in Hin. apply elem_of_filter in Hin. lia.
Qed.

Lemma replaces_rank rank h dh : grounded rank → replaces i h dh → (rank h < rank dh)%nat.
Proof.
  intros Hg. induction 1 as [x y (d & Hd & Hs)|x y z (d & Hd & Hs) _ IH]; [by eapply (proj1 (Hg y d Hd))|].
  etrans; [by eapply (proj1 (Hg y d Hd))|done].
Qed.

Lemma attestation_live_total rank : grounded rank → ∀ fuel h a, (above rank h < fuel)%nat → is_Some (attestation_live i now fuel h a).
Proof.
  intros Hg fuel. induction fuel as [|fuel IH]; intros h a Hf; [lia|]. cbn [attestation_live].
  assert (Hrev : ∀ dh d, (rank h ≤ rank dh)%nat → is_Some (self_revoked i (attestation_live i now fuel) dh d)).
  { intros dh d Hle. apply self_revoked_total. intros rh r (Hr & Ha & Hkd & _). apply IH.
    pose proof (proj2 (Hg rh r Hr) Hkd) as Hlt. rewrite Ha in Hlt. pose proof (above_less rank h rh r Hr ltac:(lia)). lia. }
  destruct (negb _); [by eexists|]. destruct (Hrev h a ltac:(lia)) as [[] ->]; cbn [mbind option_bind]; [by eexists|].
  pose proof (has_valid_descendant_spec (attestation_live i now fuel) h) as Hd.
  destruct (has_valid_descendant _ _ _ _) as [b|]; [by eexists|]. destruct Hd as (dh & d & Hrep & _ & Hn).
  apply (replaces_rank rank) in Hrep; [|done]. destruct (Hrev dh d ltac:(lia)) as [? ?]. congruence.
Qed.

Lemma is_attestation_live_total rank h a : grounded rank → is_Some (is_attestation_live i now h a).
Proof.
  intros Hg. apply (attestation_live_total rank); [done|]. unfold live_fuel, above.
  enough (size (filter (λ k, (rank h < rank k)%nat) (dom (by_hash i))) ≤ size (by_hash i))%nat by lia.
  rewrite <- size_dom. apply subseteq_size. intros x. rewrite elem_of_filter. naive_solver.
Qed.
End liveness_facts.

(** * Heads *)

Lemma head_order_trans x y z : head_order x y ≠ Gt → head_order y z ≠ Gt → head_order x z ≠ Gt.
Proof.
  unfold head_order, then_with. generalize (default 0 (att_not_before x.2)), (default 0 (att_not_before y.2)), (default 0 (att_not_before z.2)).
  intros a b c. destruct (Z.compare_spec a b), (Z.compare_spec b c), (Z.compare_spec a c); try done; try lia.
  intros Hxy Hyz. by apply (cmp_le_trans _ y.1).
Qed.

Lemma head_order_flip x y : head_order x y = Gt → head_order y x ≠ Gt.
Proof.
  unfold head_order, then_with. rewrite (Z.compare_antisym (default 0 (att_not_before x.2))).
  destruct (Z.compare _ _); [|done..]. apply cmp_flip.
Qed.

Lemma head_order_refl x : head_order x x ≠ Gt.
Proof. unfold head_order, then_with. by rewrite Z.compare_refl, cmp_refl. Qed.

Section heads.
Context (i : AttestationIndex) (Hok : index_ok i) (rank : Hash → nat) (Hg : grounded i rank) (clock : Hash → Z).

Definition is_live (h : Hash) (a : AttestationData) : Prop := status i (clock h) h a Alive.

Lemma live_decides h a : ∃ b, is_attestation_live i (clock h) h a = Some b ∧ (b = true ↔ is_live h a).
Proof.
  destruct (is_attestation_live_total i Hok (clock h) rank h a Hg) as [b Hb]. exists b. split; [done|].
  pose proof (attestation_live_sound i Hok _ _ _ _ _ Hb) as Hs. unfold is_live.
  destruct b; cbn in Hs; split; [done|done|done|]. intros Ha. by apply status_exclusive in Ha.
Qed.

(** The best of the live links that satisfy [P]. *)
Definition best_of (P : Hash → Prop) (best : option Indexed) : Prop :=
  match best with
  | None => ∀ h a, P h → att_index_get h i = Some a → ¬ is_live h a
  | Some (k, b) => P k ∧ att_index_get k i = Some b ∧ is_live k b
      ∧ ∀ h a, P h → att_index_get h i = Some a → is_live h a → head_order (h, a) (k, b) ≠ Gt
  end.

Lemma best_of_iff P Q best : (∀ h, P h ↔ Q h) → best_of P best → best_of Q best.
Proof.
  intros HPQ. destruct best as [[k b]|]; cbn; [|intros Hb h a Hh; by apply Hb, HPQ].
  intros (HP & ? & ? & Hall). split_and!; [by apply HPQ|done|done|]. intros h a Hh. by apply Hall, HPQ.
Qed.

Lemma best_of_visit (V : gset Hash) h a best (live : bool) :
  att_index_get h i = Some a → (live = true ↔ is_live h a) → best_of (.∈ V) best →
  best_of (.∈ {[h]} ∪ V) (if live then better_head best (h, a) else best).
Proof.
  intros Ha Hl Hb. destruct live.
  - assert (Hh : is_live h a) by (by apply Hl). destruct best as [[k b]|]; cbn [better_head best_of] in *.
    + destruct Hb as (Hk & Hkb & Hlk & Hall).
      destruct (head_order (h, a) (k, b)) eqn:E; (split_and!; [set_solver|done|done|]);
        intros x y [->%elem_of_singleton|Hx]%elem_of_union Hy Hly; try (by apply Hall);
        try (assert (y = a) as -> by congruence); try (by rewrite E); try apply head_order_refl.
      apply (head_order_trans _ (k, b)); [by apply Hall|by apply head_order_flip].
    + split_and!; [set_solver|done|done|]. intros x y [->%elem_of_singleton|Hx]%elem_of_union Hy Hly; [|by destruct (Hb x y)].
      assert (y = a) as -> by congruence. apply head_order_refl.
  - assert (Hh : ¬ is_live h a) by (intros Hla%Hl; done). destruct best as [[k b]|]; cbn [best_of] in *.
    + destruct Hb as (Hk & Hkb & Hlk & Hall). split_and!; [set_solver|done|done|].
      intros x y [->%elem_of_singleton|Hx]%elem_of_union Hy Hly; [|by apply Hall]. destruct Hh. by assert (y = a) as -> by congruence.
    + intros x y [->%elem_of_singleton|Hx]%elem_of_union Hy; [by assert (y = a) as -> by congruence|by apply Hb].
Qed.

Lemma map_reverse_keys (l : list Indexed) x : x ∈ map fst (reverse l) ↔ x ∈ map fst l.
Proof. unfold reverse. rewrite <- rev_alt, map_rev, rev_alt. apply elem_of_reverse. Qed.

Record climbing (h0 : Hash) (stack : list Indexed) (V : gset Hash) : Prop := {
  cl_start : h0 ∈ V ∨ h0 ∈ map fst stack;
  cl_data : ∀ h a, (h, a) ∈ stack → att_index_get h i = Some a;
  cl_reached : ∀ h, h ∈ V ∨ h ∈ map fst stack → rtc (succeeds i) h0 h;
  cl_closed : ∀ h dh, h ∈ V → succeeds i h dh → dh ∈ V ∨ dh ∈ map fst stack;
}.

Lemma head_loop_spec h0 fuel : ∀ stack V best,
  climbing h0 stack V → best_of (.∈ V) best → (length stack + size (awaiting i V) < fuel)%nat →
  ∃ r, head_loop fuel i clock stack V best = Some r ∧ best_of (rtc (succeeds i) h0) r.
Proof.
  induction fuel as [|fuel IH]; intros stack V best Hcl Hb Hf; [lia|]. cbn [head_loop]. destruct Hcl as [Hs Hd Hr Hc].
  destruct stack as [|[h a] stack]; cbn [map fst] in *.
  { exists best. split; [done|]. eapply best_of_iff; [|exact Hb]. intros x. split; [intros; apply Hr; by left|].
    revert x. apply (rtc_ind_r (λ x, x ∈ V) h0); [destruct Hs; set_solver|]. intros y z _ Hyz Hy. destruct (Hc y z Hy Hyz); set_solver. }
  cbn [length] in Hf. case_bool_decide as Hv.
  { apply IH; [|done|lia]. constructor; [set_solver|set_solver|intros x Hx; apply Hr; set_solver|].
    intros x dx Hx Hdx. destruct (Hc x dx Hx Hdx) as [?|[->|?]%elem_of_cons]; auto. }
  destruct (live_decides h a) as (b & -> & Hlb). cbn [mbind option_bind].
  set (succs := find_attestations_with_supersedes h i) in *.
  assert (Hkeys : ∀ dh, dh ∈ map fst succs ↔ succeeds i h dh) by (intros; by apply successor_keys).
  assert (Hkr : ∀ x, x ∈ map fst (reverse succs ++ stack) ↔ x ∈ map fst succs ∨ x ∈ map fst stack).
  { intros x. rewrite map_app, elem_of_app, map_reverse_keys. done. }
  apply IH.
  - constructor.
    + rewrite Hkr. set_solver.
    + intros x y [Hx|Hx]%elem_of_app; [|by apply Hd; right]. rewrite elem_of_reverse in Hx. by apply with_supersedes_elem in Hx as [? _].
    + intros x. rewrite Hkr. intros [[->%elem_of_singleton|Hx]%elem_of_union|[Hx%Hkeys|Hx]]; [apply Hr; right; by left|apply Hr; by left| |apply Hr; right; by right].
      eapply rtc_r; [apply Hr; right; by left|done].
    + intros x dx. rewrite Hkr. intros [->%elem_of_singleton|Hx]%elem_of_union Hdx; [right; left; by apply Hkeys|].
      destruct (Hc x dx Hx Hdx) as [?|[->|?]%elem_of_cons]; set_solver.
  - apply best_of_visit; [apply Hd; by left|done|done].
  - pose proof (awaiting_visit i Hok V h Hv) as Hlen. fold succs in Hlen. rewrite length_app, length_reverse. lia.
Qed.

Lemma find_live_head_spec h a :
  att_index_get h i = Some a → ∃ r, find_live_head h a i clock = Some r ∧ best_of (rtc (succeeds i) h) r.
Proof.
  intros Ha. apply head_loop_spec.
  - constructor; cbn [map fst]; [right; by left|intros x y [= -> ->]%list_elem_of_singleton; done| |set_solver].
    intros x [?| ->%list_elem_of_singleton]; [set_solver|constructor].
  - intros x y Hx. set_solver.
  - unfold walk_fuel. pose proof (awaiting_start i). cbn [length]. lia.
Qed.
End heads.

(** What a live attestation was replaced by is not live. *)
Lemma live_replaced i now h a dh d :
  status i now h a Alive → replaces i h dh → att_index_get dh i = Some d → ¬ status i now dh d Alive.
Proof.
  intros Ha Hr Hd Hda. inversion Ha as [| | | | |? ? _ _ Hall]; subst. inversion Hda as [| | | | |? ? Ht Hk _]; subst.
  by apply (status_exclusive _ _ _ _ _ (Hall dh d Hr Hd Ht)).
Qed.

(** * Authorizing *)

Lemma lowest_spec l : ∀ best,
  match foldl lowest best l with
  | None => best = None ∧ l = []
  | Some x => (x ∈ l ∨ best = Some x) ∧ (∀ y, y ∈ l ∨ best = Some y → cmp x.1 y.1 ≠ Gt)
  end.
Proof.
  induction l as [|y l IH]; intros best; cbn [foldl].
  { destruct best as [x|]; [|done]. split; [by right|]. intros z [Hz|[= <-]]; [set_solver|by rewrite cmp_refl]. }
  specialize (IH (lowest best y)). destruct (foldl lowest (lowest best y) l) as [x|]; [|by destruct IH, best].
  destruct IH as [Hx Hle]. destruct best as [b|]; cbn [lowest] in *.
  - destruct (cmp y.1 b.1) eqn:E.
    + split; [destruct Hx as [?|[= <-]]; [left; by right|by right]|]. intros z [[->|Hz]%elem_of_cons|[= <-]]; [|by apply Hle; left|by apply Hle; right].
      apply cmp_eq in E. rewrite E. apply Hle. by right.
    + split; [destruct Hx as [?|[= <-]]; left; [by right|by left]|]. intros z [[->|Hz]%elem_of_cons|[= <-]]; [by apply Hle; right|by apply Hle; left|].
      apply (cmp_le_trans _ y.1); [by apply Hle; right|by rewrite E].
    + split; [destruct Hx as [?|[= <-]]; [left; by right|by right]|]. intros z [[->|Hz]%elem_of_cons|[= <-]]; [|by apply Hle; left|by apply Hle; right].
      apply (cmp_le_trans _ b.1); [by apply Hle; right|by apply cmp_flip].
  - split; [destruct Hx as [?|[= <-]]; left; [by right|by left]|]. intros z [[->|Hz]%elem_of_cons|?]; [by apply Hle; right|by apply Hle; left|done].
Qed.
Section authorizing.
Context (i : AttestationIndex) (Hok : index_ok i) (rank : Hash → nat) (Hg : grounded i rank) (now : Z).

Lemma live_is_its_head h a :
  att_index_get h i = Some a → status i now h a Alive → find_live_head h a i (λ _, now) = Some (Some (h, a)).
Proof.
  intros Ha Hl. destruct (find_live_head_spec i Hok rank Hg (λ _, now) h a Ha) as (r & -> & Hb). do 2 f_equal.
  destruct r as [[k b]|]; cbn [best_of] in Hb; [|by destruct (Hb h a (rtc_refl _ _))].
  destruct Hb as (Hk & Hkb & Hlk & _). apply rtc_tc in Hk as [->|Hk]; [congruence|]. by destruct (live_replaced i now h a k b).
Qed.

Lemma filter_run_live l :
  ∃ live, filter_run (λ ha, is_attestation_live i now ha.1 ha.2) l = Some live
    ∧ ∀ h a, (h, a) ∈ live ↔ (h, a) ∈ l ∧ status i now h a Alive.
Proof.
  induction l as [|[h a] l (live & E & Hl)]; cbn [filter_run]; [exists []; split; [done|set_solver]|]. cbn [fst snd].
  destruct (live_decides i Hok rank Hg (λ _, now) h a) as (b & -> & Hb). cbn [mbind option_bind]. rewrite E. cbn [mbind option_bind].
  eexists. split; [done|]. intros x y. destruct b; rewrite ?elem_of_cons, Hl, ?elem_of_cons; unfold is_live in Hb; naive_solver.
Qed.

Lemma live_heads_spec live : ∀ heads,
  (∀ h a, (h, a) ∈ live → att_index_get h i = Some a ∧ status i now h a Alive) →
  (∀ h a, (h, a) ∈ heads → att_index_get h i = Some a) →
  ∃ heads', live_heads live i (λ _ _, now) heads = Some heads' ∧ ∀ h a, (h, a) ∈ heads' ↔ (h, a) ∈ live ∨ (h, a) ∈ heads.
Proof.
  induction live as [|[h a] live IH]; intros heads Hl Hh; cbn [live_heads]; [exists heads; split; [done|set_solver]|].
  destruct (Hl h a) as [Ha Hla]; [by left|]. rewrite live_is_its_head by done. cbn [mbind option_bind fst].
  destruct (existsb (λ y, bool_decide (y.1 = h)) heads) eqn:E.
  - apply existsb_exists in E as ([k b] & Hin & Hk). apply list_elem_of_In in Hin. apply bool_decide_eq_true in Hk. cbn [fst] in Hk. subst k.
    assert (Hin' : (h, a) ∈ heads) by (pose proof (Hh h b Hin); by assert (a = b) as -> by congruence).
    destruct (IH heads) as (heads' & E' & Hiff); [intros; apply Hl; by right|done|]. exists heads'. split; [done|]. intros x y. rewrite Hiff. set_solver.
  - destruct (IH (heads ++ [(h, a)])) as (heads' & E' & Hiff); [intros; apply Hl; by right| |].
    + intros x y [Hx|[= -> ->]%list_elem_of_singleton]%elem_of_app; [by apply Hh|done].
    + exists heads'. split; [done|]. intros x y. rewrite Hiff. set_solver.
Qed.

End authorizing.

(** ** Chains *)

(** The chain of what an attestation replaces ends, at the first or at one whose predecessor is not known. *)
Fixpoint replacing_chain (i : AttestationIndex) (a : AttestationData) (l : list Indexed) : Prop :=
  match l with
  | [] => ∀ p, supersedes a = Some p → att_index_get p i = None
  | (p, b) :: l => supersedes a = Some p ∧ att_index_get p i = Some b ∧ replacing_chain i b l
  end.

Lemma supersedes_loop_spec i rank (Hg : grounded i rank) fuel : ∀ a bound,
  (∀ p, supersedes a = Some p → ∀ b, att_index_get p i = Some b → (rank p < bound)%nat) →
  (size (filter (λ k, (rank k < bound)%nat) (dom (by_hash i))) < fuel)%nat →
  ∃ l, supersedes_loop fuel i (supersedes a) = Some l ∧ replacing_chain i a l.
Proof.
  induction fuel as [|fuel IH]; intros a bound Ha Hf; [lia|]. cbn [supersedes_loop].
  destruct (supersedes a) as [p|] eqn:Es; [|exists []; split; [done|]; cbn; by rewrite Es].
  destruct (att_index_get p i) as [b|] eqn:Ep; [|exists []; split; [done|]; cbn; rewrite Es; by intros ? [= <-]].
  specialize (Ha p eq_refl b Ep). destruct (IH b (rank p)) as (l & -> & Hl).
  - intros q Hq c Hc. by apply (Hg p b Ep).
  - eapply Nat.lt_le_trans; [|apply Nat.lt_succ_r, Hf]. apply subset_size. split.
    + intros x. rewrite !elem_of_filter. intros [Hx Hin]. split; [lia|done].
    + intros Hsub. assert (Hin : p ∈ filter (λ k, (rank k < bound)%nat) (dom (by_hash i))).
      { apply elem_of_filter. split; [done|]. apply elem_of_dom. by exists b. }
      apply Hsub in Hin. apply elem_of_filter in Hin. lia.
  - cbn [mbind option_bind]. eexists. split; [done|]. cbn. by rewrite Es.
Qed.

(** Every link but the last is authorized by the next, and only the last one ends the chain. *)
Fixpoint authorized_chain (terminate : AttestationData → bool) (find_authorizing : Hash → option (option Indexed)) (a : AttestationData)
    (l : list Indexed) : Prop :=
  match l with
  | [] => terminate a = true
  | p :: l => terminate a = false ∧ find_authorizing (attesting a) = Some (Some p) ∧ authorized_chain terminate find_authorizing p.2 l
  end.

Lemma attesting_loop_spec terminate f depth : ∀ chain a r,
  attesting_loop depth terminate f chain a = Some (Some r) →
  ∃ l, r = chain ++ l ∧ (length l < depth)%nat ∧ authorized_chain terminate f a l.
Proof.
  induction depth as [|depth IH]; intros chain a r; cbn [attesting_loop]; [done|].
  destruct (terminate a) eqn:Et.
  { intros [= <-]. exists []. rewrite app_nil_r. split_and!; [done|cbn; lia|done]. }
  destruct (f (attesting a)) as [[p|]|] eqn:Ef; cbn [mbind option_bind]; [|done..]. intros (l & -> & Hl & Ha)%IH.
  exists (p :: l). rewrite <- app_assoc. split_and!; [done|cbn; lia|]. by split_and!.
Qed.

(** * Properties *)

(** C15. Whether an attestation is live is decided, in an index whose references point back: the
    recursion through revocations and replacements ends, and its answer is the status that the
    rules give, of which there is one. *)
Theorem liveness_exact i rank now h a :
  index_ok i → grounded i rank →
  ∃ b, is_attestation_live i now h a = Some b ∧ (b = true ↔ status i now h a Alive) ∧ (b = false ↔ status i now h a Dead).
Proof.
  intros Hok Hg. destruct (is_attestation_live_total i Hok now rank h a Hg) as [b Hb]. exists b. split; [done|].
  pose proof (attestation_live_sound i Hok now _ _ _ _ Hb) as Hs. pose proof (status_exclusive _ _ _ _ _ Hs) as Hn.
  destruct b; cbn in *; split; split; naive_solver.
Qed.

(** The search for the attestation that authorizes a peer ends, and finds the live attestation of
    that peer with the lowest hash, or none when none is live. *)
Theorem default_find_authorizing_exact i rank now peer :
  index_ok i → grounded i rank →
  ∃ r, default_find_authorizing peer i (λ _ _, now) = Some r
    ∧ match r with
      | Some (h, a) => att_index_get h i = Some a ∧ attested a = peer ∧ status i now h a Alive
          ∧ ∀ k b, att_index_get k i = Some b → attested b = peer → status i now k b Alive → cmp h k ≠ Gt
      | None => ∀ k b, att_index_get k i = Some b → attested b = peer → ¬ status i now k b Alive
      end.
Proof.
  intros Hok Hg. unfold default_find_authorizing.
  destruct (filter_run_live i Hok rank Hg now (find_attestations_targeting peer (λ _, true) i)) as (live & -> & Hl).
  cbn [mbind option_bind].
  assert (Hlive : ∀ h a, (h, a) ∈ live ↔ att_index_get h i = Some a ∧ attested a = peer ∧ status i now h a Alive).
  { intros h a. rewrite Hl, targeting_elem by done. naive_solver. }
  case_bool_decide as Hnil.
  { exists None. split; [done|]. intros k b Hk Hp Hs. assert (Hin : (k, b) ∈ live) by (by apply Hlive). rewrite Hnil in Hin. set_solver. }
  destruct (live_heads_spec i Hok rank Hg now live []) as (heads & -> & Hh); [by intros h a (? & _ & ?)%Hlive|set_solver|].
  cbn [mbind option_bind]. eexists. split; [done|]. pose proof (lowest_spec heads None) as Hlow.
  assert (Hin : ∀ h a, (h, a) ∈ heads ↔ (h, a) ∈ live) by (intros h a; rewrite Hh; set_solver).
  destruct (foldl lowest None heads) as [[h a]|].
  - destruct Hlow as [[Hx|?] Hle]; [|done]. apply Hin, Hlive in Hx as (? & ? & ?). split_and!; [done..|].
    intros k b Hk Hp Hs. apply (Hle (k, b)). left. by apply Hin, Hlive.
  - destruct Hlow as [_ ->]. intros k b Hk Hp Hs. assert ((k, b) ∈ live) as Hkb by (by apply Hlive). apply Hin in Hkb. set_solver.
Qed.

(** * Samples *)

Definition grounded_check (i : AttestationIndex) (rank : Hash → nat) : bool :=
  forallb (λ ha : Indexed,
    match supersedes ha.2 with Some p => (rank p <? rank ha.1)%nat | None => true end
    && (if has_kind KIND_REVOCATION ha.2 then (rank (attested ha.2) <? rank ha.1)%nat else true)) (map_to_list (by_hash i)).

Lemma grounded_checked i rank : grounded_check i rank = true → grounded i rank.
Proof.
  unfold grounded_check. rewrite forallb_forall. intros Hall h a Ha.
  assert (Hin : In (h, a) (map_to_list (by_hash i))) by (by apply list_elem_of_In, elem_of_map_to_list).
  specialize (Hall _ Hin). cbn [fst snd] in Hall. apply andb_true_iff in Hall as [H1 H2]. split.
  - intros p Hp. rewrite Hp in H1. by apply Nat.ltb_lt.
  - intros Hk. unfold has_kind in H2. rewrite bool_decide_eq_true_2 in H2 by done. by apply Nat.ltb_lt.
Qed.

Definition claim_hash (n : Z) : Hash := mkHash 0 [n].
Definition claim_rank (h : Hash) : nat := Z.to_nat (hd 0 (digest h)).

Definition sample_claim (by_peer about : Z) (k : string) (prev : option Z) (until : option Z) : AttestationData :=
  mkAttestation (claim_hash by_peer) (claim_hash about) [(text (lit "kind"), text (lit k))] (claim_hash <$> prev) None until.

(** Claim 10 is replaced by 11, which its own peer revokes, and by 13, which expires at 50. *)
Definition sample_claims : AttestationIndex :=
  foldl (λ i c, att_index_insert (claim_hash c.1) c.2 i) att_index_new
    [(10, sample_claim 1 2 "app-claim" None None); (11, sample_claim 1 2 "app-claim" (Some 10) None);
     (12, sample_claim 1 11 "revocation" None None); (13, sample_claim 1 2 "app-claim" (Some 11) (Some 50))].

Lemma sample_claims_ok : index_ok sample_claims.
Proof. unfold sample_claims. cbn [foldl fst snd]. auto. Qed.

Lemma liveness_exact_witness :
  let live now n := a ← att_index_get (claim_hash n) sample_claims; is_attestation_live sample_claims now (claim_hash n) a in
  live 20 10 = Some false ∧ live 20 11 = Some false ∧ live 20 13 = Some true ∧ live 60 10 = Some true
  ∧ ∃ b, is_attestation_live sample_claims 60 (claim_hash 10) (sample_claim 1 2 "app-claim" None None) = Some b
     ∧ (b = true ↔ status sample_claims 60 (claim_hash 10) (sample_claim 1 2 "app-claim" None None) Alive)
     ∧ (b = false ↔ status sample_claims 60 (claim_hash 10) (sample_claim 1 2 "app-claim" None None) Dead).
Proof.
  cbv zeta. split; [vm_compute; reflexivity|]. split; [vm_compute; reflexivity|]. split; [vm_compute; reflexivity|].
  split; [vm_compute; reflexivity|]. apply (liveness_exact sample_claims claim_rank).
  - exact sample_claims_ok.
  - apply grounded_checked. vm_compute. reflexivity.
Defined.

Lemma default_find_authorizing_exact_witness :
  ∃ r, default_find_authorizing (claim_hash 2) sample_claims (λ _ _, 60) = Some r
    ∧ match r with
      | Some (h, a) => att_index_get h sample_claims = Some a ∧ attested a = claim_hash 2 ∧ status sample_claims 60 h a Alive
          ∧ ∀ k b, att_index_get k sample_claims = Some b → attested b = claim_hash 2 → status sample_claims 60 k b Alive → cmp h k ≠ Gt
      | None => ∀ k b, att_index_get k sample_claims = Some b → attested b = claim_hash 2 → ¬ status sample_claims 60 k b Alive
      end.
Proof.
  apply (default_find_authorizing_exact sample_claims claim_rank 60 (claim_hash 2)).
  - exact sample_claims_ok.
  - apply grounded_checked. vm_compute. reflexivity.
Defined.
