(* ===== verification/AttestationHandler.v ===== *)
(** Attestations on a peer ([extensions/attestation]: handler.rs, and the signature checks of
    helpers.rs): create, supersede, revoke and verify.

    A refusal that ends a handler early is thrown as its reply.  The state is the content store,
    the location index and the attestation index; the hook that indexes what others write is
    [index_hook].  [values] is the order in which a [HashMap] gives its values, which the standard
    library leaves open. *)
From S2P Require Import Prelude BTree Ecf Cbor ContentHash Entity Identity Capability CapabilityCodec Store Trie Index Handler.
From S2P Require Import RevisionMerge Attestation AttestationGraph.

Definition TYPE_PROTOCOL_STATUS : list Z := lit "system/protocol/status".

(** * Signatures *)

Section signatures.
Context `{Ciborium} `{SignatureSchemes} {St : Type} `{ContentStore St} {L : Type} `{LocationIndex L}.
Context (values : gmap Hash Entity → list Entity).

(** One entry of the scan: a signature of the signer's over the target at a path that ends so. *)
Definition signature_at (suffix : list Z) (target signer : Hash) (s : St) (entry : LocationEntry) : option SignatureData :=
  if negb (ends_with (le_path entry) suffix) then None
  else
    entity ← store_get (le_hash entry) s;
    if negb (bool_decide (entity_type entity = TYPE_SIGNATURE)) then None
    else
      sig ← ok (signature_from_entity entity);
      if bool_decide (sig_target sig = target) && bool_decide (sig_signer sig = signer) then Some sig else None.

Fixpoint first_some {A B} (f : A → option B) (l : list A) : option B :=
  match l with
  | [] => None
  | x :: l => match f x with Some y => Some y | None => first_some f l end
  end.

(** [find_signature_for]: what the request carries, then the tree. *)
Definition find_attestation_signature (target signer : Hash) (included : gmap Hash Entity) (s : St) (t : L) : option SignatureData :=
  match (entity ← find_signature_by_signer (values included) target signer; ok (signature_from_entity entity)) with
  | Some sig => Some sig
  | None => first_some (signature_at (lit "system/signature/" ++ to_hex target) target signer s) (li_list (lit "/") t)
  end.

(** [try_into] an array of 32 bytes *)
Definition resolve_peer_key (peer_hash : Hash) (s : St) : option (list Z) :=
  entity ← store_get peer_hash s;
  if negb (bool_decide (entity_type entity = TYPE_PEER)) then None
  else
    value ← from_reader (data entity);
    map ← as_map value;
    pk_bytes ← first_some (λ kv, if key_is "public_key" kv.1 then as_bytes kv.2 else None) map;
    if (length pk_bytes =? 32)%nat then Some pk_bytes else None.

Definition verify_specific_signer (att_hash expected_signer : Hash) (included : gmap Hash Entity) (s : St) (t : L) : bool :=
  match find_attestation_signature att_hash expected_signer included s t with
  | None => false
  | Some sig =>
      match resolve_peer_key expected_signer s with
      | None => false
      | Some public_key => is_ok (keypair_verify public_key (to_bytes att_hash) (sig_bytes sig))
      end
  end.

Definition verify_attestation_signature (att_hash : Hash) (att : AttestationData) (included : gmap Hash Entity) (s : St) (t : L) : bool :=
  verify_specific_signer att_hash (attesting att) included s t.
End signatures.

(** * The handler *)

(** A handler's early returns are its errors. *)
Definition answered {St L} (m : Code Reply St L Reply) : Code HandlerError St L Reply :=
  λ s t, match m s t with
         | Done (Ok r) s t | Done (Err r) s t => Done (Ok r) s t
         | Stuck => Stuck
         end.

(** [match e { Ok(x) => x, Err(_) => return Ok(error(BAD_REQUEST, code, ..)) }] *)
Definition or_refuse {E St L A} (code : string) (r : result E A) : Code Reply St L A :=
  tries (map_err (λ _, Refused STATUS_BAD_REQUEST (lit code)) r).

(** A step that fails under the client's name. *)
Definition recast {E F St L A} (f : E → F) (m : Code E St L A) : Code F St L A :=
  λ s t, match m s t with
         | Done r s t => Done (map_err f r) s t
         | Stuck => Stuck
         end.

(** A status entity; [unwrap] on it. *)
Definition status_reply `{Sha2} {St L} (home : Z) (fields : list (Value * Value)) : Code Reply St L Reply :=
  entity <~ unwraps (ok (entity_new home TYPE_PROTOCOL_STATUS (to_ecf (VMap fields))));;
  returns (Answered (handler_ok entity)).

Definition of_sum {A} (x : Reply + A) : result Reply A := match x with inl r => Err r | inr a => Ok a end.

Section handler.
Context `{Sha2} `{Ciborium} `{SignatureSchemes} {St : Type} `{ContentStore St} {L : Type} `{LocationIndex L}.
Context (home : Z) (local_peer_id : list Z) (values : gmap Hash Entity → list Entity).

Notation state := (L * AttestationIndex)%type.
Notation run := (Code Reply St state).


Definition persist_attestation (storage_path : list Z) (att : AttestationData) : Code AttestationError St state Hash :=
  entity <~ tries (attestation_to_entity home att);;
  _ <~ stores AttEncode entity;;
  _ <~ writes (λ ti, (li_set storage_path (content_hash entity) ti.1, ti.2));;
  _ <~ writes (λ ti, (ti.1, att_index_insert (content_hash entity) att ti.2));;
  returns (content_hash entity).

Definition resource_path (ctx : HandlerContext) : run (list Z) :=
  tries (of_sum (require_single_resource_path (hc_resource_target ctx) local_peer_id)).

Definition create_result (field : string) (h : Hash) : run Reply := status_reply home [(text (lit field), hash_value h)].
Definition verify_result (valid : bool) (reason : option string) : run Reply :=
  status_reply home ([(text (lit "valid"), VBool valid)] ++ match reason with Some r => [(text (lit "reason"), text (lit r))] | None => [] end).

Definition persist (resource : list Z) (att : AttestationData) : run Reply :=
  h <~ recast (λ _, Refused STATUS_BAD_REQUEST (lit "store_failed")) (persist_attestation resource att);;
  create_result "attestation_hash" h.

Definition att_params_map (ctx : HandlerContext) : run (list (Value * Value)) :=
  or_refuse "invalid_params" (decode_att_map (data (hc_params ctx))).

(** [att.to_entity()] is tried before anything is written. *)
Definition encodes (att : AttestationData) : run Entity := or_refuse "encode_failed" (attestation_to_entity home att).

Definition handle_create_attestation (ctx : HandlerContext) : run Reply :=
  resource <~ resource_path ctx;;
  map <~ att_params_map ctx;;
  attesting <~ or_refuse "invalid_params" (field_hash map "attesting");;
  attested <~ or_refuse "invalid_params" (field_hash map "attested");;
  properties <~ or_refuse "invalid_params" (field_properties map);;
  supersedes <~ or_refuse "invalid_params" (field_hash_opt map "supersedes");;
  not_before <~ or_refuse "invalid_params" (field_u64_opt map "not_before");;
  expires_at <~ or_refuse "invalid_params" (field_u64_opt map "expires_at");;
  let att := mkAttestation attesting attested (default [] properties) supersedes not_before expires_at in
  _ <~ match kind att with Some k => or_refuse "invalid_kind" (validate_kind k) | None => skip end;;
  _ <~ encodes att;;
  persist resource att.

(** [v.or(previous)] *)
Definition or_previous {A} (v previous : option A) : option A := match v with Some x => Some x | None => previous end.

Definition handle_supersede (ctx : HandlerContext) : run Reply :=
  resource <~ resource_path ctx;;
  map <~ att_params_map ctx;;
  previous_hash <~ or_refuse "invalid_params" (field_hash map "previous_hash");;
  known <~ asks (λ _ ti, att_index_get previous_hash ti.2);;
  previous <~ tries (ok_or (Refused STATUS_NOT_FOUND (lit "previous_not_found")) known);;
  properties' <~ or_refuse "invalid_params" (field_properties map);;
  not_before <~ or_refuse "invalid_params" (field_u64_opt map "not_before");;
  expires_at <~ or_refuse "invalid_params" (field_u64_opt map "expires_at");;
  let att := mkAttestation (attesting previous) (attested previous) (default (properties previous) properties') (Some previous_hash)
               (or_previous not_before (att_not_before previous)) (or_previous expires_at (att_expires_at previous)) in
  _ <~ encodes att;;
  persist resource att.

Definition revocation (attesting target_hash : Hash) (reason : option (list Z)) : AttestationData :=
  mkAttestation attesting target_hash ([(text (lit "kind"), text KIND_REVOCATION)] ++ push_field "reason" text reason) None None None.

Definition handle_revoke (ctx : HandlerContext) : run Reply :=
  resource <~ resource_path ctx;;
  map <~ att_params_map ctx;;
  target_hash <~ or_refuse "invalid_params" (field_hash map "target_hash");;
  attesting <~ or_refuse "invalid_params" (field_hash map "attesting");;
  let att := revocation attesting target_hash (v ← get_field map "reason"; as_str v) in
  _ <~ encodes att;;
  persist resource att.

(** [now] is the time when the request names none. *)
Definition handle_verify (ctx : HandlerContext) (now : Z) : run Reply :=
  map <~ att_params_map ctx;;
  attestation_hash <~ or_refuse "invalid_params" (field_hash map "attestation_hash");;
  as_of <~ or_refuse "invalid_params" (field_u64_opt map "as_of");;
  att <~ asks (λ _ ti, att_index_get attestation_hash ti.2);;
  match att with
  | None => verify_result false (Some "attestation_not_indexed"%string)
  | Some att =>
      signed <~ asks (λ s ti, verify_attestation_signature values attestation_hash att (hc_included ctx) s ti.1);;
      if negb signed then verify_result false (Some "invalid_signature"%string)
      else
        live <~ (λ s ti, unwraps (is_attestation_live ti.2 (default now as_of) attestation_hash att) s ti);;
        if negb live then verify_result false (Some "not_live"%string) else verify_result true None
  end.

Definition attestation_handle (ctx : HandlerContext) (now : Z) : Code HandlerError St state Reply :=
  answered (if bool_decide (hc_operation ctx = lit "create") then handle_create_attestation ctx
            else if bool_decide (hc_operation ctx = lit "supersede") then handle_supersede ctx
            else if bool_decide (hc_operation ctx = lit "revoke") then handle_revoke ctx
            else if bool_decide (hc_operation ctx = lit "verify") then handle_verify ctx now
            else throws (Refused STATUS_NOT_SUPPORTED (lit "unsupported_operation"))).
End handler.

(** * Runs with early returns *)

(** A run that ends, with a value or with a reply. *)
Definition ends {E St L A} (m : Code E St L A) (s : St) (t : L) (Q : result E A → St → L → Prop) : Prop :=
  ∃ r s' t', m s t = Done r s' t' ∧ Q r s' t'.

Section ends.
Context {E St L A B : Type}.
Implicit Types (s : St) (t : L).

Lemma ends_returns (a : A) s t (Q : result E A → St → L → Prop) : Q (Ok a) s t → ends (returns a) s t Q.
Proof. intros HQ. by exists (Ok a), s, t. Qed.

Lemma ends_tries (r : result E A) (f : A → Code E St L B) s t Q :
  (∀ e, r = Err e → Q (Err e) s t) → (∀ a, r = Ok a → ends (f a) s t Q) → ends (andthen (tries r) f) s t Q.
Proof.
  intros He Hf. destruct r as [a|e].
  - destruct (Hf a eq_refl) as (r' & s' & t' & E1 & HQ). by exists r', s', t'.
  - exists (Err e), s, t. split; [done|by apply He].
Qed.

Lemma ends_asks (g : St → L → A) (f : A → Code E St L B) s t Q : ends (f (g s t)) s t Q → ends (andthen (asks g) f) s t Q.
Proof. done. Qed.

Lemma ends_mono (m : Code E St L A) s t (Q R : result E A → St → L → Prop) :
  ends m s t Q → (∀ r s' t', Q r s' t' → R r s' t') → ends m s t R.
Proof. intros (r & s' & t' & Em & HQ) HR. exists r, s', t'. split; [done|by apply HR]. Qed.

Lemma ends_then (m : Code E St L A) (f : A → Code E St L B) s t a s' t' Q :
  m s t = Done (Ok a) s' t' → ends (f a) s' t' Q → ends (andthen m f) s t Q.
Proof. intros Em (r & s2 & t2 & Ef & HQ). exists r, s2, t2. split; [|done]. unfold andthen. by rewrite Em. Qed.
End ends.

Lemma ends_or_refuse {E St L A B} code (r : result E A) (f : A → Code Reply St L B) (s : St) (t : L) (Q : result Reply B → St → L → Prop) :
  (∀ e, r = Err e → Q (Err (Refused STATUS_BAD_REQUEST (lit code))) s t) → (∀ a, r = Ok a → ends (f a) s t Q) →
  ends (andthen (or_refuse code r) f) s t Q.
Proof.
  intros He Hf. apply ends_tries; destruct r as [a|e]; intros x; [done|intros [= <-]; by apply (He e)|intros [= <-]; by apply Hf|done].
Qed.

Lemma ends_answered {St L} (m : Code Reply St L Reply) (s : St) (t : L) (Q : Reply → St → L → Prop) :
  ends m s t (λ r, Q (match r with Ok r | Err r => r end)) → ∃ r s' t', answered m s t = Done (Ok r) s' t' ∧ Q r s' t'.
Proof. intros (r & s' & t' & Em & HQ). unfold answered. rewrite Em. destruct r; by eauto. Qed.

(** The reply of a status. *)
Definition is_status (fields : list (Value * Value)) (r : Reply) : Prop :=
  ∃ h, r = Answered (handler_ok (mkEntity TYPE_PROTOCOL_STATUS (to_ecf (VMap fields)) h)).

Lemma status_reply_run `{Sha2Ok} {St L} home fields (s : St) (t : L) :
  digest_len_for_format home ≠ None → ∃ r, status_reply home fields s t = Done (Ok r) s t ∧ is_status fields r.
Proof.
  intros Hhome. destruct (new_supported TYPE_PROTOCOL_STATUS (to_ecf (VMap fields)) home) as (e & He & Hty & Hd & _ & _).
  - done.
  - apply encode_value_ne.
  - done.
  - unfold supported. by destruct (digest_len_for_format home).
  - exists (Answered (handler_ok e)). unfold status_reply, unwraps, andthen, entity_new. rewrite He. split; [done|].
    exists (content_hash e). by destruct e; cbn in *; subst.
Qed.

(** * What the operations write *)

Section operations.
Context `{Sha2Ok} `{Ciborium} `{SignatureSchemes} {St : Type} `{ContentStore St} {L : Type} `{LocationIndex L}.
Context (home : Z) (local_peer_id : list Z) (values : gmap Hash Entity → list Entity).
Hypothesis Hhome : digest_len_for_format home ≠ None.

Notation state := (L * AttestationIndex)%type.

(** What an operation that writes the attestation [att] at [path] does to the state. *)
Definition persisted (path : list Z) (att : AttestationData) (s : St) (t : L) (i : AttestationIndex) (r : Reply) (s' : St) (t' : L)
    (i' : AttestationIndex) : Prop :=
  ∃ e, attestation_to_entity home att = Ok e ∧ s' = (store_put e s).2
    ∧ match (store_put e s).1 with
      | Ok _ => t' = li_set path (content_hash e) t ∧ i' = att_index_insert (content_hash e) att i
          ∧ is_status [(text (lit "attestation_hash"), hash_value (content_hash e))] r
      | Err _ => t' = t ∧ i' = i ∧ r = Refused STATUS_BAD_REQUEST (lit "store_failed")
      end.

(** A request that asks for an attestation at a path writes that one there; any other changes
    nothing and is refused. *)
Definition writes_asked (asked : list Z → AttestationData → Prop) (s : St) (t : L) (i : AttestationIndex) (r : Reply) (s' : St) (ti' : state) : Prop :=
  (∃ path att, asked path att ∧ persisted path att s t i r s' ti'.1 ti'.2)
  ∨ ((∀ path att, ¬ asked path att) ∧ s' = s ∧ ti' = (t, i) ∧ ∃ st code, r = Refused st code).

(** What a request to create asks for: the attestation of its fields, of a kind with a namespace. *)
Definition create_asks (ctx : HandlerContext) (att : AttestationData) : Prop :=
  ∃ map properties', decode_att_map (data (hc_params ctx)) = Ok map
    ∧ field_hash map "attesting" = Ok (attesting att) ∧ field_hash map "attested" = Ok (attested att)
    ∧ field_properties map = Ok properties' ∧ properties att = default [] properties'
    ∧ field_hash_opt map "supersedes" = Ok (supersedes att)
    ∧ field_u64_opt map "not_before" = Ok (att_not_before att) ∧ field_u64_opt map "expires_at" = Ok (att_expires_at att)
    ∧ ∀ k, kind att = Some k → validate_kind k = Ok tt.

(** What a request to supersede asks for: the indexed attestation that it names, but for what the
    request says, in the place of it. *)
Definition supersede_asks (ctx : HandlerContext) (i : AttestationIndex) (att : AttestationData) : Prop :=
  ∃ map previous_hash previous properties' not_before expires_at, decode_att_map (data (hc_params ctx)) = Ok map
    ∧ field_hash map "previous_hash" = Ok previous_hash ∧ att_index_get previous_hash i = Some previous
    ∧ field_properties map = Ok properties' ∧ field_u64_opt map "not_before" = Ok not_before
    ∧ field_u64_opt map "expires_at" = Ok expires_at
    ∧ attesting att = attesting previous ∧ attested att = attested previous
    ∧ properties att = match properties' with Some p => p | None => properties previous end
    ∧ supersedes att = Some previous_hash
    ∧ att_not_before att = match not_before with Some n => Some n | None => att_not_before previous end
    ∧ att_expires_at att = match expires_at with Some n => Some n | None => att_expires_at previous end.

(** What a request to revoke asks for: a revocation of its target by who it says, with its reason. *)
Definition revoke_asks (ctx : HandlerContext) (att : AttestationData) : Prop :=
  ∃ map, decode_att_map (data (hc_params ctx)) = Ok map
    ∧ field_hash map "target_hash" = Ok (attested att) ∧ field_hash map "attesting" = Ok (attesting att)
    ∧ properties att = [(text (lit "kind"), text (lit "revocation"))]
        ++ match (v ← get_field map "reason"; as_str v) with Some r => [(text (lit "reason"), text r)] | None => [] end
    ∧ supersedes att = None ∧ att_not_before att = None ∧ att_expires_at att = None.

Definition asked (ctx : HandlerContext) (i : AttestationIndex) (path : list Z) (att : AttestationData) : Prop :=
  require_single_resource_path (hc_resource_target ctx) local_peer_id = inr path
  ∧ ((hc_operation ctx = lit "create" ∧ create_asks ctx att) ∨ (hc_operation ctx = lit "supersede" ∧ supersede_asks ctx i att)
     ∨ (hc_operation ctx = lit "revoke" ∧ revoke_asks ctx att)).

Section asks.
Context (ctx : HandlerContext) (s : St) (t : L) (i : AttestationIndex).

(** A request for a path, with one of the three above. *)
Definition asks_at (asks : AttestationData → Prop) (path : list Z) (att : AttestationData) : Prop :=
  require_single_resource_path (hc_resource_target ctx) local_peer_id = inr path ∧ asks att.

Notation outcome asks := (λ r s' ti', writes_asked (asks_at asks) s t i (match r with Ok r | Err r => r end) s' ti').

Lemma refused_unasked asks st code : (∀ att, ¬ asks att) → outcome asks (Err (Refused st code)) s (t, i).
Proof. intros Ha. right. split_and!; [|done|done|by exists st, code]. intros path att [_ Hx]. by apply (Ha att). Qed.

(** The two steps at the end of every operation that writes. *)
Lemma encode_persist_run path att (asks : AttestationData → Prop) :
  require_single_resource_path (hc_resource_target ctx) local_peer_id = inr path → asks att →
  ends (andthen (encodes home att) (λ _, persist home path att)) s (t, i) (outcome asks).
Proof.
  intros Hpath Ha. destruct (entity_new_encoded home TYPE_ATTESTATION (VMap (attestation_fields att))) as (e & Hnew & _); [done..|].
  assert (He : attestation_to_entity home att = Ok e) by (unfold attestation_to_entity; by rewrite Hnew).
  apply ends_or_refuse; [intros x Hx; congruence|]. intros _ _.
  unfold ends, persist, persist_attestation, recast, andthen, stores. rewrite He. cbn [tries].
  destruct (store_put e s) as [[h|x] s1] eqn:Ep; cbn [map_err].
  - unfold create_result. cbn [writes returns fst snd].
    destruct (status_reply_run home [(text (lit "attestation_hash"), hash_value (content_hash e))] s1
      (li_set path (content_hash e) t, att_index_insert (content_hash e) att i) Hhome) as (r & Er & Hr).
    eexists _, _, _. split; [exact Er|]. left. exists path, att. split; [done|]. exists e. by rewrite Ep.
  - eexists _, _, _. split; [done|]. left. exists path, att. split; [done|]. exists e. by rewrite Ep.
Qed.

Lemma single_refused rt r : require_single_resource_path rt local_peer_id = inl r → ∃ st code, r = Refused st code.
Proof.
  unfold require_single_resource_path, optional_single_resource_path, single_effective_target, path_required, self_excluded_refusal.
  intros Hr. repeat (case_match; simplify_eq; eauto).
Qed.

Lemma resource_path_run (f : list Z → Code Reply St state Reply) asks :
  (∀ path, require_single_resource_path (hc_resource_target ctx) local_peer_id = inr path → ends (f path) s (t, i) (outcome asks)) →
  ends (andthen (resource_path local_peer_id ctx) f) s (t, i) (outcome asks).
Proof.
  intros Hf. destruct (require_single_resource_path (hc_resource_target ctx) local_peer_id) as [r|path] eqn:Hp.
  - destruct (single_refused _ _ Hp) as (st & code & ->). exists (Err (Refused st code)), s, (t, i).
    split; [unfold resource_path, andthen, tries; by rewrite Hp|]. right. split_and!; [|done|done|by exists st, code].
    intros path att [Hx _]. congruence.
  - destruct (Hf path eq_refl) as (r & s' & ti' & E & HQ). exists r, s', ti'. split; [|done].
    unfold resource_path, andthen, tries. by rewrite Hp.
Qed.

(** A field that is not what it should be: then nothing is asked for. *)
Ltac unasked := let att := fresh in intros att ?; unfold create_asks, supersede_asks, revoke_asks in *; naive_solver congruence.
Ltac next_field := apply ends_or_refuse; [intros ? ?; apply refused_unasked; unasked|intros ? ?].

Lemma attest_create_run : ends (handle_create_attestation home local_peer_id ctx) s (t, i) (outcome (create_asks ctx)).
Proof.
  apply resource_path_run. intros path Hpath. unfold att_params_map. do 7 next_field.
  match goal with |- context [mkAttestation ?a ?b ?c ?d ?e ?f] => set (att := mkAttestation a b c d e f) end.
  assert (Hasks : (∀ k, kind att = Some k → validate_kind k = Ok tt) → create_asks ctx att).
  { intros Hk. eexists _, _. split_and!; [done..|exact Hk]. }
  destruct (kind att) as [k|] eqn:Ek.
  - apply ends_or_refuse.
    + intros e He. apply refused_unasked. intros att' (map' & p' & E1 & E2 & E3 & E4 & E5 & E6 & E7 & E8 & Hk).
      assert (att' = att) as -> by (destruct att'; cbn in *; subst att; congruence). specialize (Hk k Ek). congruence.
    + intros [] Hk. apply encode_persist_run; [done|]. apply Hasks. congruence.
  - apply (ends_then _ _ _ _ tt s (t, i)); [done|]. apply encode_persist_run; [done|]. apply Hasks. congruence.
Qed.

Lemma supersede_run : ends (handle_supersede home local_peer_id ctx) s (t, i) (outcome (supersede_asks ctx i)).
Proof.
  apply resource_path_run. intros path Hpath. unfold att_params_map. do 2 next_field.
  apply ends_asks. cbn [snd]. apply ends_tries.
  { intros r Hr. destruct (att_index_get _ i) eqn:Eg; [done|]. injection Hr as <-. apply refused_unasked. unasked. }
  intros previous Hprev%ok_or_Ok. do 3 next_field. apply encode_persist_run; [done|].
  eexists _, _, _, _, _, _. cbn [attesting attested properties supersedes att_not_before att_expires_at]. split_and!; try done.
Qed.

Lemma revoke_run : ends (handle_revoke home local_peer_id ctx) s (t, i) (outcome (revoke_asks ctx)).
Proof.
  apply resource_path_run. intros path Hpath. unfold att_params_map. do 3 next_field. apply encode_persist_run; [done|].
  eexists. split_and!; done.
Qed.
End asks.

(** ** Verifying *)

(** What the signature of a named signer is. *)
Definition signature_holds (h signer : Hash) (included : gmap Hash Entity) (s : St) (t : L) : Prop :=
  ∃ sig pk, find_attestation_signature values h signer included s t = Some sig ∧ resolve_peer_key signer s = Some pk
    ∧ keypair_verify pk (to_bytes h) (sig_bytes sig) = Ok tt.

Lemma signature_exact h signer included (s : St) (t : L) :
  verify_specific_signer values h signer included s t = true ↔ signature_holds h signer included s t.
Proof.
  unfold verify_specific_signer, signature_holds.
  destruct (find_attestation_signature _ _ _ _ _ _) as [sig|]; [|split; [done|by intros (? & ? & ? & _)]].
  destruct (resolve_peer_key _ _) as [pk|]; [|split; [done|by intros (? & ? & _ & ? & _)]]. split.
  - intros Hv. exists sig, pk. split_and!; [done..|]. by destruct (keypair_verify _ _ _) as [[]|].
  - intros (? & ? & [= <-] & [= <-] & Hv). by rewrite Hv.
Qed.

(** The attestation is indexed, its own peer's signature over it is found, and it is alive. *)
Definition verifies (ctx : HandlerContext) (now : Z) (h : Hash) (s : St) (t : L) (i : AttestationIndex) : Prop :=
  ∃ a, att_index_get h i = Some a ∧ signature_holds h (attesting a) (hc_included ctx) s t ∧ status i now h a Alive.

Lemma verify_run ctx now rank s t i :
  index_ok i → grounded i rank →
  ends (handle_verify home values ctx now) s (t, i) (λ r s' ti',
    s' = s ∧ ti' = (t, i)
    ∧ ∀ map h as_of, decode_att_map (data (hc_params ctx)) = Ok map → field_hash map "attestation_hash" = Ok h →
        field_u64_opt map "as_of" = Ok as_of →
        ∃ valid reason, is_status ([(text (lit "valid"), VBool valid)] ++ reason) (match r with Ok r | Err r => r end)
          ∧ (valid = true ↔ verifies ctx (default now as_of) h s t i)).
Proof.
  intros Hok Hg. unfold handle_verify, att_params_map.
  apply ends_or_refuse; [intros x Ex; split_and!; [done|done|]; intros; congruence|]. intros map Em.
  apply ends_or_refuse; [intros x Ex; split_and!; [done|done|]; intros; congruence|]. intros h Eh.
  apply ends_or_refuse; [intros x Ex; split_and!; [done|done|]; intros; congruence|]. intros as_of Ea.
  apply ends_asks. cbn [snd].
  assert (Hanswer : ∀ valid reason, (valid = true ↔ verifies ctx (default now as_of) h s t i) →
    ends (verify_result home valid reason) s (t, i) (λ r s' ti', s' = s ∧ ti' = (t, i)
      ∧ ∀ map' h' as_of', decode_att_map (data (hc_params ctx)) = Ok map' → field_hash map' "attestation_hash" = Ok h' → field_u64_opt map' "as_of" = Ok as_of' →
        ∃ valid reason, is_status ([(text (lit "valid"), VBool valid)] ++ reason) (match r with Ok r | Err r => r end)
          ∧ (valid = true ↔ verifies ctx (default now as_of') h' s t i))).
  { intros valid reason Hv. destruct (status_reply_run home ([(text (lit "valid"), VBool valid)]
      ++ match reason with Some r => [(text (lit "reason"), text (lit r))] | None => [] end) s (t, i) Hhome) as (r & Er & Hr).
    eexists _, _, _. split; [exact Er|]. split_and!; [done|done|]. intros ? h' as_of'. rewrite Em. intros [= <-]. rewrite Eh, Ea. intros [= <-] [= <-].
    by exists valid, (match reason with Some r => [(text (lit "reason"), text (lit r))] | None => [] end). }
  destruct (att_index_get h i) as [a|] eqn:Eget.
  2:{ apply Hanswer. split; [done|]. intros (a & Hget & _). congruence. }
  apply ends_asks. cbn [fst]. unfold verify_attestation_signature.
  pose proof (signature_exact h (attesting a) (hc_included ctx) s t) as Hsig.
  destruct (verify_specific_signer values h (attesting a) (hc_included ctx) s t); cbn [negb].
  2:{ apply Hanswer. split; [done|]. intros (b & Hget & Hs & _). assert (b = a) as -> by congruence. by apply Hsig. }
  destruct (live_decides i Hok rank Hg (λ _, default now as_of) h a) as (live & El & Ht). unfold is_live in Ht.
  apply (ends_then _ _ _ _ live s (t, i)); [cbn [snd]; by rewrite El|]. destruct live; cbn [negb]; apply Hanswer.
  - split; [intros _|done]. exists a. split_and!; [done|by apply Hsig|by apply Ht].
  - split; [done|]. intros (b & Hget & _ & Hs). assert (b = a) as -> by congruence. by apply Ht.
Qed.
End operations.

(** * Properties *)

(** C14. Every request to the attestation handler ends in a reply, and writes exactly what it asks
    for.  A create asks for the attestation of the fields it carries, of a kind with a namespace; a
    supersede for the indexed attestation it names with the request's properties and times where it
    has them, in the place of that one; a revoke for a revocation of its target by who it says, with
    its reason.  What is asked for is stored, bound at the path of the request and indexed, and
    answered with its hash, unless the store refuses it; any other request changes nothing and is
    refused.  A verification changes nothing and answers with valid exactly when the attestation is
    indexed, signed by the key of the peer it names, and alive at the time asked for. *)
Theorem attestation_handler_exact `{Sha2Ok} `{Ciborium} `{SignatureSchemes} {St} `{ContentStore St} {L} `{LocationIndex L}
    home peer values rank (ctx : HandlerContext) now (s : St) (t : L) i :
  digest_len_for_format home ≠ None → index_ok i → grounded i rank →
  ∃ r s' ti', attestation_handle home peer values ctx now s (t, i) = Done (Ok r) s' ti'
    ∧ (hc_operation ctx ≠ lit "verify" → writes_asked home (asked peer ctx i) s t i r s' ti')
    ∧ (hc_operation ctx = lit "verify" → s' = s ∧ ti' = (t, i)
       ∧ ∀ map h as_of, decode_att_map (data (hc_params ctx)) = Ok map → field_hash map "attestation_hash" = Ok h →
           field_u64_opt map "as_of" = Ok as_of →
           ∃ valid reason, is_status ([(text (lit "valid"), VBool valid)] ++ reason) r
             ∧ (valid = true ↔ verifies values ctx (default now as_of) h s t i)).
Proof.
  intros Hhome Hok Hg. apply ends_answered. unfold attestation_handle.
  assert (Hwrites : ∀ (asks : AttestationData → Prop) m, hc_operation ctx ≠ lit "verify" →
    (∀ path att, asked peer ctx i path att ↔ asks_at peer ctx asks path att) →
    ends m s (t, i) (λ r s' ti', writes_asked home (asks_at peer ctx asks) s t i (match r with Ok r | Err r => r end) s' ti') →
    ends m s (t, i) (λ r s' ti', (hc_operation ctx ≠ lit "verify" → writes_asked home (asked peer ctx i) s t i (match r with Ok r | Err r => r end) s' ti')
      ∧ (hc_operation ctx = lit "verify" → s' = s ∧ ti' = (t, i) ∧ ∀ map h as_of, decode_att_map (data (hc_params ctx)) = Ok map →
           field_hash map "attestation_hash" = Ok h → field_u64_opt map "as_of" = Ok as_of →
           ∃ valid reason, is_status ([(text (lit "valid"), VBool valid)] ++ reason) (match r with Ok r | Err r => r end)
             ∧ (valid = true ↔ verifies values ctx (default now as_of) h s t i)))).
  { intros asks m Hv Hiff Hm. eapply ends_mono; [exact Hm|]. intros r s' ti' [(path & att & Ha & Hp)|(Hno & Hst)]; (split; [|done]); intros _.
    - left. exists path, att. split; [by apply Hiff|done].
    - right. split; [|done]. intros path att Ha. by apply (Hno path att), Hiff. }
  case_bool_decide as Hc; [|case_bool_decide as Hs; [|case_bool_decide as Hr]].
  - apply (Hwrites (create_asks ctx)); [by rewrite Hc| |by apply attest_create_run]. intros path att. unfold asked, asks_at. rewrite Hc.
    split; [intros [Hp [[_ Ha]|[[Hx _]|[Hx _]]]]; by first [split|discriminate Hx]|intros [Hp Ha]; split; [exact Hp|left; by split]].
  - apply (Hwrites (supersede_asks ctx i)); [by rewrite Hs| |by apply supersede_run]. intros path att. unfold asked, asks_at. rewrite Hs.
    split; [intros [Hp [[Hx _]|[[_ Ha]|[Hx _]]]]; by first [split|discriminate Hx]|intros [Hp Ha]; split; [exact Hp|right; left; by split]].
  - apply (Hwrites (revoke_asks ctx)); [by rewrite Hr| |by apply revoke_run]. intros path att. unfold asked, asks_at. rewrite Hr.
    split; [intros [Hp [[Hx _]|[[Hx _]|[_ Ha]]]]; by first [split|discriminate Hx]|intros [Hp Ha]; split; [exact Hp|right; right; by split]].
  - case_bool_decide as Hv.
    { eapply ends_mono; [by eapply verify_run|]. intros r s' ti' (-> & -> & Ha). split; [done|]. intros _. by split_and!. }
    exists (Err (Refused STATUS_NOT_SUPPORTED (lit "unsupported_operation"))), s, (t, i). split; [done|]. split; [|done]. intros _.
    right. split_and!; [|done|done|by eexists _, _]. intros path att [_ [[? _]|[[? _]|[? _]]]]; done.
Qed.

(** * Samples *)

Section samples.
#[local] Existing Instances checksum_sha2 checksum_sha2_ok ref_ciborium.

(** Signatures that repeat the first byte of the key. *)
Definition repeating_schemes : SignatureSchemes :=
  {| ed25519_key := λ _, true; ed25519_verify := λ pk _ s, bool_decide (s = replicate 64 (hd 0 pk));
     ed448_key := λ _, false; ed448_signature := λ _, false; ed448_verify := λ _ _ _, false |}.
#[local] Existing Instance repeating_schemes.

Definition map_values (m : gmap Hash Entity) : list Entity := map snd (map_to_list m).

Definition entity_or_empty {E} (r : result E Entity) : Entity := match r with Ok e => e | Err _ => mkEntity [] [] hash_zero end.

Definition claim_peer (b : Z) : Entity := entity_or_empty (peer_entity_from_components_with_key_type (b :: replicate 31 0) Ed25519).
Definition signature_by (b : Z) (signer target : Hash) : Entity :=
  entity_or_empty (signature_to_entity 0 (mkSignature target signer (lit "ed25519") (replicate 64 b))).

Definition claim_request (op : string) (params : Value) (included : list Entity) : HandlerContext :=
  mkHandlerContext None None (mkEntity [] [] hash_zero) (mkEntity (lit "params") (to_ecf params) hash_zero) (lit "/peer/system/attestation") []
    (Some (mkTarget [lit "/peer/system/attestation/one"] [])) None None (lit "r1") (lit op)
    (list_to_map (imap (λ n e, (claim_hash (Z.of_nat n), e)) included)) None None None None true false.

Definition claim_store : ContentMap := Eval vm_compute in (content_put [] (claim_peer 5)).2.

Definition create_request : HandlerContext :=
  claim_request "create" (VMap [(text (lit "attesting"), hash_value (content_hash (claim_peer 5))); (text (lit "attested"), hash_value hash_zero);
    (text (lit "properties"), VMap [(text (lit "kind"), text (lit "app-claim"))])]) [].

Notation claim_state := (result Reply Reply * ContentMap * (PathMap * AttestationIndex))%type.

Definition after (m : Outcome HandlerError ContentMap (PathMap * AttestationIndex) Reply)
    : option (Reply * ContentMap * (PathMap * AttestationIndex)) :=
  match m with Done (Ok r) s ti => Some (r, s, ti) | _ => None end.

(** A claim is created, and verified with the signature that comes along; with another's it is not. *)
Definition create_and_verify (b : Z) : option (list Z) :=
  '(_, s, ti) ← after (attestation_handle 0 (lit "peer") map_values create_request 7 claim_store ([], att_index_new));
  h ← index_get ti.1 (lit "/peer/system/attestation/one");
  let request := claim_request "verify" (VMap [(text (lit "attestation_hash"), hash_value h)]) [signature_by b (content_hash (claim_peer 5)) h] in
  '(r, _, _) ← after (attestation_handle 0 (lit "peer") map_values request 7 s ti);
  match r with Answered hr => Some (data (result_entity hr)) | Refused _ _ => None end.

(** What that request asks for. *)
Definition claim_made : AttestationData :=
  mkAttestation (content_hash (claim_peer 5)) hash_zero [(text (lit "kind"), text (lit "app-claim"))] None None None.

Lemma attestation_handler_exact_witness :
  create_and_verify 5 = Some (to_ecf (VMap [(text (lit "valid"), VBool true)]))
  ∧ create_and_verify 6 = Some (to_ecf (VMap [(text (lit "valid"), VBool false); (text (lit "reason"), text (lit "invalid_signature"))]))
  ∧ asked (lit "peer") create_request att_index_new (lit "/peer/system/attestation/one") claim_made
  ∧ ∃ r s' ti', attestation_handle 0 (lit "peer") map_values create_request 7 claim_store (([] : PathMap), att_index_new) = Done (Ok r) s' ti'
    ∧ writes_asked 0 (asked (lit "peer") create_request att_index_new) claim_store [] att_index_new r s' ti'.
Proof.
  split; [vm_compute; reflexivity|]. split; [vm_compute; reflexivity|]. split.
  { split; [vm_compute; reflexivity|]. left. split; [reflexivity|].
    exists (match decode_att_map (data (hc_params create_request)) with Ok m => m | Err _ => [] end), (Some [(text (lit "kind"), text (lit "app-claim"))]).
    split_and!; try (vm_compute; reflexivity). intros k. vm_compute. by intros [= <-]. }
  destruct (attestation_handler_exact 0 (lit "peer") map_values (λ _, 0%nat) create_request 7 claim_store ([] : PathMap) att_index_new)
    as (r & s' & ti' & E & Hw & _).
  - discriminate.
  - exact index_new_ok.
  - intros h a Ha. discriminate Ha.
  - exists r, s', ti'. split; [exact E|]. apply Hw. intros Hop. discriminate Hop.
Defined.

(** ** What the checks do not see *)

(** A request whose kind is inside a tag. *)
Definition tagged_kind_params : list Z :=
  [0xA3] ++ to_ecf (text (lit "attested")) ++ to_ecf (hash_value hash_zero)
  ++ to_ecf (text (lit "attesting")) ++ to_ecf (hash_value (content_hash (claim_peer 5)))
  ++ to_ecf (text (lit "properties")) ++ [0xA1] ++ to_ecf (text (lit "kind")) ++ [0xC0] ++ to_ecf (text (lit "admin")).

Definition tagged_kind_request : HandlerContext :=
  mkHandlerContext None None (mkEntity [] [] hash_zero) (mkEntity (lit "params") tagged_kind_params hash_zero) (lit "/peer/system/attestation") []
    (Some (mkTarget [lit "/peer/system/attestation/one"] [])) None None (lit "r1") (lit "create") ∅ None None None None true false.

(** The kind is checked as it was sent, and stored without its tag: what is indexed has no kind,
    what is stored has one that the check refuses. *)
Lemma tagged_kind_passes :
  match after (attestation_handle 0 (lit "peer") map_values tagged_kind_request 7 claim_store ([], att_index_new)) with
  | Some (Answered _, s, ti) =>
      (h ← index_get ti.1 (lit "/peer/system/attestation/one"); a ← att_index_get h ti.2; kind a) = None
      ∧ (h ← index_get ti.1 (lit "/peer/system/attestation/one"); a ← stored_attestation s h; kind a) = Some (lit "admin")
      ∧ validate_kind (lit "admin") = Err AttInvalid
  | _ => False
  end.
Proof. vm_compute. done. Qed.

(** A claim bound outside the peer's own prefix is indexed while the peer runs, and no more once
    it has restarted. *)
Lemma restart_forgets_elsewhere :
  let request := mkHandlerContext None None (mkEntity [] [] hash_zero) (hc_params create_request) (lit "/peer/system/attestation") []
    (Some (mkTarget [lit "/peer/system/quorum/one"] [])) None None (lit "r1") (lit "create") ∅ None None None None true false in
  match after (attestation_handle 0 (lit "peer") map_values request 7 claim_store ([], att_index_new)) with
  | Some (Answered _, s, ti) =>
      att_index_len ti.2 = 1%nat ∧ att_index_len (att_index_load (lit "peer") s ti.1 att_index_new) = 0%nat
  | _ => False
  end.
Proof. vm_compute. done. Qed.

(** What replaces a claim need not be of the same peers: here peer 9 makes a claim of peer 1's dead
    and takes its place as its head. *)
Lemma stranger_replaces :
  let mine := sample_claim 1 2 "app-claim" None None in
  let theirs := sample_claim 9 7 "app-other" (Some 10) None in
  let i := att_index_insert (claim_hash 11) theirs (att_index_insert (claim_hash 10) mine att_index_new) in
  is_attestation_live i 0 (claim_hash 10) mine = Some false
  ∧ find_live_head (claim_hash 10) mine i (λ _, 0) = Some (Some (claim_hash 11, theirs))
  ∧ default_find_authorizing (claim_hash 2) i (λ _ _, 0) = Some None.
Proof. vm_compute. done. Qed.
End samples.
