(* ===== verification/Quorum.v ===== *)
(** Quorums ([extensions/quorum]: data.rs, cache.rs, resolver.rs and helpers.rs): K signatures of N
    signers over an entity, and who the signers are.

    Resolvers are plugged in by other parts, so they are functions in the registry here; an [Arc]
    is told from another by its address. *)
From S2P Require Import Prelude BTree Ecf Cbor ContentHash Entity Identity Capability CapabilityCodec Store Trie Index RevisionMerge.
From S2P Require Import Attestation AttestationGraph AttestationHandler.

Definition TYPE_QUORUM : list Z := lit "system/quorum".
Definition KIND_QUORUM_UPDATE : list Z := lit "quorum-update".
Definition KIND_QUORUM_PUBLISH : list Z := lit "quorum-publish".
Definition RESOLUTION_CONCRETE : list Z := lit "concrete".
Definition QUORUM_STORAGE_PREFIX : list Z := lit "system/quorum/".
Definition QUORUM_EVENT_SEGMENT : list Z := lit "/event/".
Definition MAX_RESOLVER_DEPTH : nat := 8.

Inductive QuorumError := QDecode | QEncode | QInvalid | ResolverUnavailable | ResolverDepthExceeded | ResolverCycle (at_hash : Hash).

(** * The entity *)

Record QuorumData := mkQuorum {
  q_signers : list Hash;
  q_threshold : Z;
  q_resolution : option (list Z);
  q_name : option (list Z);
  q_metadata : option (list (Value * Value));
}.

Definition q_error {A} (r : result AttestationError A) : result QuorumError A := map_err (λ _, QDecode) r.

(** [data.rs] repeats the readers of the attestation codec, under its own error. *)
Definition decode_quorum_map `{Ciborium} (d : list Z) : result QuorumError (list (Value * Value)) := q_error (decode_att_map d).
Definition q_field_hash (map : list (Value * Value)) (key : string) : result QuorumError Hash := q_error (field_hash map key).
Definition q_field_hash_opt (map : list (Value * Value)) (key : string) : result QuorumError (option Hash) := q_error (field_hash_opt map key).

Definition field_hash_array (map : list (Value * Value)) (key : string) : result QuorumError (list Hash) :=
  v ← ok_or QDecode (get_field map key);
  arr ← ok_or QDecode (as_array v);
  mapR (λ item, q_error (hash_of_value item)) arr.

Definition field_u64 (map : list (Value * Value)) (key : string) : result QuorumError Z :=
  v ← ok_or QDecode (get_field map key); q_error (u64_of_value v).

Definition field_string_opt (map : list (Value * Value)) (key : string) : result QuorumError (option (list Z)) :=
  optional_field map key (λ v, ok_or QDecode (as_str v)).
Definition field_map_opt (map : list (Value * Value)) (key : string) : result QuorumError (option (list (Value * Value))) :=
  optional_field map key (λ v, ok_or QDecode (as_map v)).

Definition quorum_from_entity `{Ciborium} (entity : Entity) : result QuorumError QuorumData :=
  if negb (bool_decide (entity_type entity = TYPE_QUORUM)) then Err QDecode
  else
    map ← decode_quorum_map (data entity);
    signers ← field_hash_array map "signers";
    threshold ← field_u64 map "threshold";
    resolution ← field_string_opt map "signer_resolution";
    name ← field_string_opt map "name";
    metadata ← field_map_opt map "metadata";
    Ok (mkQuorum signers threshold resolution name metadata).

Definition quorum_fields (q : QuorumData) : list (Value * Value) :=
  push_field "metadata" VMap (q_metadata q) ++ push_field "name" text (q_name q) ++ push_field "signer_resolution" text (q_resolution q)
  ++ [(text (lit "signers"), VArray (map hash_value (q_signers q))); (text (lit "threshold"), integer (as_i64 (q_threshold q)))].

Definition quorum_to_entity `{Sha2} (home : Z) (q : QuorumData) : result QuorumError Entity :=
  map_err (λ _, QEncode) (entity_new home TYPE_QUORUM (to_ecf (VMap (quorum_fields q)))).

Definition resolution_mode (q : QuorumData) : list Z := default RESOLUTION_CONCRETE (q_resolution q).

Definition path_quorum (quorum_id : Hash) : list Z := QUORUM_STORAGE_PREFIX ++ to_hex quorum_id.
Definition path_quorum_event (quorum_id att_hash : Hash) : list Z := path_quorum quorum_id ++ QUORUM_EVENT_SEGMENT ++ to_hex att_hash.

(** * The cache *)

Record SignerSet := mkSignerSet { ss_signers : list Hash; ss_threshold : Z }.
Definition SignerSetCache := gmap Hash SignerSet.

Definition cache_get (quorum_id : Hash) (c : SignerSetCache) : option SignerSet := c !! quorum_id.
Definition cache_put (quorum_id : Hash) (set : SignerSet) (c : SignerSetCache) : SignerSetCache := <[quorum_id := set]> c.
Definition cache_invalidate (quorum_id : Hash) (c : SignerSetCache) : SignerSetCache := delete quorum_id c.

(** * Resolvers *)

Inductive ResolverError := Unresolved | MaxDepthExceeded | Cycle (h : Hash).

Record ResolverContext := mkResolverContext { rc_as_of : option Z; rc_depth : nat; rc_visited : gset Hash }.

Definition resolver_enter (next_ref : Hash) (c : ResolverContext) : result ResolverError unit * ResolverContext :=
  if (MAX_RESOLVER_DEPTH <=? rc_depth c)%nat then (Err MaxDepthExceeded, c)
  else if bool_decide (next_ref ∈ rc_visited c) then (Err (Cycle next_ref), c)
  else (Ok tt, mkResolverContext (rc_as_of c) (S (rc_depth c)) ({[next_ref]} ∪ rc_visited c)).

(** A resolver sees the stores; it leaves them as they are and may mark hashes as visited. *)
Record Resolver (St L : Type) := mkResolver {
  address : Z;
  resolve : Hash → ResolverContext → St → L → result ResolverError Hash * gset Hash;
}.
Arguments mkResolver {St L}.
Arguments address {St L}.
Arguments resolve {St L}.

Definition ResolverRegistry (St L : Type) := gmap (list Z) (Resolver St L).

(** [register]: the error is [AlreadyRegistered]. *)
Definition resolver_register {St L} (mode : list Z) (r : Resolver St L) (reg : ResolverRegistry St L) : bool * ResolverRegistry St L :=
  match reg !! mode with
  | Some existing => (address existing =? address r, reg)
  | None => (true, <[mode := r]> reg)
  end.
Definition resolver_lookup {St L} (mode : list Z) (reg : ResolverRegistry St L) : option (Resolver St L) := reg !! mode.

(** * Signers and signatures *)

Section quorum.
Context `{Ciborium} `{SignatureSchemes} {St : Type} `{ContentStore St} {L : Type} `{LocationIndex L}.

Definition names_quorum (quorum_id : Hash) (entry : LocationEntry) : bool :=
  ends_with (le_path entry) (path_quorum quorum_id) || bool_decide (le_path entry = path_quorum quorum_id).

Definition quorum_at (quorum_id : Hash) (s : St) (entry : LocationEntry) : option Entity :=
  if negb (names_quorum quorum_id entry) then None
  else
    entity ← store_get (le_hash entry) s;
    if negb (bool_decide (entity_type entity = TYPE_QUORUM)) then None else Some entity.

Definition is_quorum_id (quorum_id : Hash) (s : St) (t : L) : bool :=
  bool_decide (is_Some (first_some (quorum_at quorum_id s) (li_list (lit "/") t))).

Definition load_quorum (quorum_id : Hash) (s : St) (t : L) : result QuorumError QuorumData :=
  match first_some (quorum_at quorum_id s) (li_list (lit "/") t) with
  | Some entity => quorum_from_entity entity
  | None => Err QInvalid
  end.

(** The loop of [find_quorum_update_head_at] for a time in the past: backwards to the first that was
    in its time. *)
Fixpoint head_at_loop (fuel : nat) (i : AttestationIndex) (time : Z) (current : AttestationData) : option (option AttestationData) :=
  match fuel with
  | O => None
  | S fuel =>
      if is_self_valid_basic current time then Some (Some current)
      else
        match (prev_hash ← supersedes current; att_index_get prev_hash i) with
        | None => Some None
        | Some prev => head_at_loop fuel i time prev
        end
  end.

Definition find_quorum_update_head_at (start_hash : Hash) (start : AttestationData) (as_of : option Z) (i : AttestationIndex) (clock : Hash → Z)
    : option (option AttestationData) :=
  match as_of with
  | None => option_map (option_map snd) (find_live_head start_hash start i clock)
  | Some time => head_at_loop (walk_fuel i) i time start
  end.

Definition quorum_update_signers (att : AttestationData) : option (list Hash) :=
  v ← get_field (properties att) "new_signers";
  arr ← as_array v;
  mapO (λ item, bytes ← as_bytes item; ok (from_bytes bytes)) arr.

Definition quorum_update_threshold (att : AttestationData) : option Z :=
  v ← get_field (properties att) "new_threshold";
  n ← as_integer v;
  if n <? 0 then None else Some (as_u64 n).

(** The updates that no update replaces. *)
Definition chain_heads (updates : list Indexed) : list Indexed :=
  let supersedes_set := omap (λ ha : Indexed, supersedes ha.2) updates in
  filter (λ ha, ha.1 ∉ supersedes_set) updates.

(** The first chain head with a head in force, and that head. *)
Fixpoint update_in_force (heads : list Indexed) (as_of : option Z) (i : AttestationIndex) (clock : Hash → Hash → Z)
    : option (option AttestationData) :=
  match heads with
  | [] => Some None
  | (h, a) :: heads =>
      head ← find_quorum_update_head_at h a as_of i (clock h);
      match head with
      | Some att => Some (Some att)
      | None => update_in_force heads as_of i clock
      end
  end.

Definition resolver_error (e : ResolverError) : QuorumError :=
  match e with
  | MaxDepthExceeded => ResolverDepthExceeded
  | Cycle h => ResolverCycle h
  | Unresolved => ResolverUnavailable
  end.

(** Each signer in a context of depth 0 with the hashes that were visited so far. *)
Fixpoint resolve_all (r : Resolver St L) (as_of : option Z) (signers : list Hash) (visited : gset Hash) (s : St) (t : L)
    : result QuorumError (list Hash) :=
  match signers with
  | [] => Ok []
  | h :: signers =>
      let '(res, visited) := resolve r h (mkResolverContext as_of 0 visited) s t in
      x ← map_err resolver_error res;
      xs ← resolve_all r as_of signers visited s t;
      Ok (x :: xs)
  end.

Definition resolve_signers (registry : ResolverRegistry St L) (mode : list Z) (as_of : option Z) (signers : list Hash) (s : St) (t : L)
    : result QuorumError (list Hash) :=
  if bool_decide (mode = RESOLUTION_CONCRETE) then Ok signers
  else
    r ← ok_or ResolverUnavailable (resolver_lookup mode registry);
    resolve_all r as_of signers ∅ s t.

(** What a signer set is computed to be, the cache aside; [None] is out of fuel. *)
Definition compute_signer_set (registry : ResolverRegistry St L) (quorum_id : Hash) (as_of : option Z) (s : St) (t : L) (i : AttestationIndex)
    (clock : Hash → Hash → Z) : option (result QuorumError SignerSet) :=
  match load_quorum quorum_id s t with
  | Err e => Some (Err e)
  | Ok quorum =>
      let updates := find_attestations_targeting quorum_id (has_kind KIND_QUORUM_UPDATE) i in
      update ← update_in_force (chain_heads updates) as_of i clock;
      let signers := default (q_signers quorum) (att ← update; quorum_update_signers att) in
      let threshold := default (q_threshold quorum) (att ← update; quorum_update_threshold att) in
      Some (signers ← resolve_signers registry (resolution_mode quorum) as_of signers s t;
            Ok (mkSignerSet signers threshold))
  end.

Definition current_signer_set_as_of (registry : ResolverRegistry St L) (quorum_id : Hash) (as_of : option Z) (s : St) (t : L)
    (i : AttestationIndex) (c : SignerSetCache) (clock : Hash → Hash → Z) : option (result QuorumError SignerSet * SignerSetCache) :=
  match as_of, cache_get quorum_id c with
  | None, Some cached => Some (Ok cached, c)
  | _, _ =>
      r ← compute_signer_set registry quorum_id as_of s t i clock;
      Some (r, match r, as_of with Ok set, None => cache_put quorum_id set c | _, _ => c end)
  end.

Definition current_signer_set (registry : ResolverRegistry St L) (quorum_id : Hash) (s : St) (t : L) (i : AttestationIndex) (c : SignerSetCache)
    (clock : Hash → Hash → Z) : option (result QuorumError SignerSet * SignerSetCache) :=
  current_signer_set_as_of registry quorum_id None s t i c clock.

(** The body of the counting loop for one candidate that has not been counted. *)
Definition k_of_n_signed (values : gmap Hash Entity → list Entity) (entity_hash candidate : Hash) (included : gmap Hash Entity) (s : St) (t : L) : bool :=
  match find_attestation_signature values entity_hash candidate included s t with
  | None => false
  | Some sig =>
      match resolve_peer_key candidate s with
      | None => false
      | Some public_key => is_ok (keypair_verify public_key (to_bytes entity_hash) (sig_bytes sig))
      end
  end.

Fixpoint count_signatures (signs : Hash → bool) (threshold : Z) (candidates : list Hash) (signed : gset Hash) : bool :=
  match candidates with
  | [] => threshold <=? Z.of_nat (size signed)
  | candidate :: candidates =>
      if bool_decide (candidate ∈ signed) then count_signatures signs threshold candidates signed
      else if signs candidate then
        let signed := {[candidate]} ∪ signed in
        if threshold <=? Z.of_nat (size signed) then true else count_signatures signs threshold candidates signed
      else count_signatures signs threshold candidates signed
  end.

Definition verify_k_of_n_signatures (values : gmap Hash Entity → list Entity) (entity_hash : Hash) (signer_set : list Hash) (threshold : Z)
    (included : gmap Hash Entity) (s : St) (t : L) : bool :=
  if threshold =? 0 then true
  else count_signatures (λ c, k_of_n_signed values entity_hash c included s t) threshold signer_set ∅.
End quorum.

(** * Counting *)

(** The distinct members of a signer set that signed. *)
Definition signers_of (signs : Hash → bool) (candidates : list Hash) : gset Hash :=
  list_to_set (filter (λ c, signs c = true) candidates).

Lemma signers_of_elem signs cs c : c ∈ signers_of signs cs ↔ c ∈ cs ∧ signs c = true.
Proof. unfold signers_of. rewrite elem_of_list_to_set, list_elem_of_filter. tauto. Qed.

Lemma count_signatures_spec signs threshold cs : ∀ signed,
  count_signatures signs threshold cs signed = bool_decide (threshold ≤ Z.of_nat (size (signed ∪ signers_of signs cs))).
Proof.
  induction cs as [|c cs IH]; intros signed; cbn [count_signatures].
  { replace (signed ∪ signers_of signs []) with signed by (unfold signers_of; set_solver).
    destruct (Z.leb_spec threshold (Z.of_nat (size signed))); [by rewrite bool_decide_eq_true_2|rewrite bool_decide_eq_false_2; [done|lia]]. }
  assert (Hs : signed ∪ signers_of signs (c :: cs) = (if signs c then {[c]} ∪ signed else signed) ∪ signers_of signs cs).
  { apply set_eq. intros x. rewrite !elem_of_union, !signers_of_elem, elem_of_cons.
    destruct (signs c) eqn:E; [rewrite elem_of_union, elem_of_singleton|]; split.
    - intros [?|[[->|?] ?]]; auto.
    - intros [[->|?]|[? ?]]; auto.
    - intros [?|[[->|?] ?]]; auto. congruence.
    - intros [?|[? ?]]; auto. }
  rewrite Hs. case_bool_decide as Hc.
  { rewrite IH. destruct (signs c); [|done]. by replace ({[c]} ∪ signed) with signed by set_solver. }
  destruct (signs c); [|by apply IH]. destruct (Z.leb_spec threshold (Z.of_nat (size ({[c]} ∪ signed)))) as [Hle|]; [|by apply IH].
  rewrite bool_decide_eq_true_2; [done|]. etrans; [exact Hle|]. apply inj_le, subseteq_size. set_solver.
Qed.

(** Counting decides whether as many distinct signers signed as asked for. *)
Lemma count_exact signs threshold cs :
  0 ≤ threshold →
  count_signatures signs threshold cs ∅ = true ↔
  ∃ l, NoDup l ∧ Z.of_nat (length l) = threshold ∧ ∀ c, c ∈ l → c ∈ cs ∧ signs c = true.
Proof.
  intros H0. rewrite count_signatures_spec, bool_decide_eq_true, (left_id_L ∅ (∪)). split.
  - intros Hle. exists (take (Z.to_nat threshold) (elements (signers_of signs cs))). split_and!.
    + eapply sublist_NoDup; [apply (NoDup_elements (signers_of signs cs))|]. apply sublist_take.
    + rewrite length_take. change (length (elements (signers_of signs cs))) with (size (signers_of signs cs)). lia.
    + intros c Hc. apply elem_of_take in Hc as (n & Hn & _). apply list_elem_of_lookup_2 in Hn. by apply elem_of_elements, signers_of_elem in Hn.
  - intros (l & Hnd & <- & Hl). apply inj_le. rewrite <- (size_list_to_set (C := gset Hash)) by done.
    apply subseteq_size. intros c Hc%elem_of_list_to_set. by apply signers_of_elem, Hl.
Qed.

(** As many distinct members of a set as [threshold] have signed. *)
Definition enough_signed `{Ciborium} `{SignatureSchemes} {St} `{ContentStore St} {L} `{LocationIndex L}
    (values : gmap Hash Entity → list Entity) (entity_hash : Hash) (signer_set : list Hash) (threshold : Z) (included : gmap Hash Entity)
    (s : St) (t : L) : Prop :=
  ∃ l, NoDup l ∧ Z.of_nat (length l) = threshold ∧ ∀ c, c ∈ l → c ∈ signer_set ∧ signature_holds values entity_hash c included s t.

Lemma k_of_n_counted `{Ciborium} `{SignatureSchemes} {St} `{ContentStore St} {L} `{LocationIndex L}
    values entity_hash signer_set threshold included (s : St) (t : L) :
  0 ≤ threshold →
  verify_k_of_n_signatures values entity_hash signer_set threshold included s t = true ↔
  enough_signed values entity_hash signer_set threshold included s t.
Proof.
  intros Hpos. unfold verify_k_of_n_signatures.
  transitivity (count_signatures (λ c, k_of_n_signed values entity_hash c included s t) threshold signer_set ∅ = true).
  { destruct (Z.eqb_spec threshold 0) as [->|]; [|done]. split; [intros _|done]. apply count_exact; [done|].
    exists []. split_and!; [constructor|done|set_solver]. }
  rewrite count_exact by done. split; intros (l & Hnd & Hlen & Hl); exists l; (split_and!; [done|done|]); intros c Hc;
    destruct (Hl c Hc) as [Hin Hs]; (split; [done|]); by apply (signature_exact values entity_hash c included s t).
Qed.

(** * Properties *)

(** C13. K of N is what is counted: a verification succeeds exactly when [threshold] distinct members of
    the signer set have a signature over the entity that is found and that their own key verifies,
    however often a member is listed. *)
Theorem verify_k_of_n_exact `{Ciborium} `{SignatureSchemes} {St} `{ContentStore St} {L} `{LocationIndex L}
    values entity_hash signer_set threshold included (s : St) (t : L) :
  0 ≤ threshold →
  verify_k_of_n_signatures values entity_hash signer_set threshold included s t = true ↔
  ∃ l, NoDup l ∧ Z.of_nat (length l) = threshold
    ∧ ∀ c, c ∈ l → c ∈ signer_set ∧ signature_holds values entity_hash c included s t.
Proof. apply k_of_n_counted. Qed.
