(* ===== verification/QuorumHandler.v ===== *)
(** The quorum handler ([extensions/quorum/handler.rs]): create, update, publish and verify.

    The state is that of the attestation handler and the cache of signer sets. *)
From S2P Require Import Prelude BTree Ecf Cbor ContentHash Entity Identity Capability CapabilityCodec Store Trie Index Handler RevisionMerge.
From S2P Require Import Attestation AttestationGraph AttestationHandler Quorum.

(** [a.0.as_text().unwrap_or("")] *)
Definition prop_order (a b : Value * Value) : comparison := cmp (default [] (as_str a.1)) (default [] (as_str b.1)).

Definition hashes_value (hs : list Hash) : Value := VArray (map hash_value hs).

Definition update_attestation (quorum_id : Hash) (new_signers : list Hash) (new_threshold : Z) (supersedes : option Hash) : AttestationData :=
  mkAttestation quorum_id quorum_id
    (sort_by prop_order [(text (lit "kind"), text KIND_QUORUM_UPDATE); (text (lit "new_signers"), hashes_value new_signers);
                         (text (lit "new_threshold"), integer (as_i64 new_threshold))])
    supersedes None None.

(** The caller's own properties, less the names that the event has itself. *)
Definition extra_property (kv : Value * Value) : option (Value * Value) :=
  ks ← as_str kv.1;
  if bool_decide (ks ∈ map lit ["kind"; "signers"; "threshold"; "published_handle"]%string) then None else Some (text ks, kv.2).

Definition publish_attestation (quorum_id : Hash) (signers : list Hash) (threshold : Z) (published_handle supersedes : option Hash)
    (extra : list (Value * Value)) : AttestationData :=
  mkAttestation quorum_id quorum_id
    (sort_by prop_order ([(text (lit "kind"), text KIND_QUORUM_PUBLISH); (text (lit "signers"), hashes_value signers);
                          (text (lit "threshold"), integer (as_i64 threshold))]
                         ++ push_field "published_handle" hash_value published_handle ++ omap extra_property extra))
    supersedes None None.

Section handler.
Context `{Sha2} `{Ciborium} `{SignatureSchemes} {St : Type} `{ContentStore St} {L : Type} `{LocationIndex L}.
Context (home : Z) (local_peer_id : list Z) (values : gmap Hash Entity → list Entity) (registry : ResolverRegistry St L).

Notation state := (L * AttestationIndex * SignerSetCache)%type.
Notation run := (Code Reply St state).

Definition q_create_result (field : string) (h : Hash) : run Reply := status_reply home [(text (lit field), hash_value h)].
Definition q_verify_result (valid : bool) : run Reply := status_reply home [(text (lit "valid"), VBool valid)].

Definition q_params_map (ctx : HandlerContext) : run (list (Value * Value)) :=
  or_refuse "invalid_params" (decode_quorum_map (data (hc_params ctx))).

Definition q_resource_path (ctx : HandlerContext) : run (list Z) :=
  tries (of_sum (require_single_resource_path (hc_resource_target ctx) local_peer_id)).

(** [content_store.put] and [location_index.set] *)
Definition put_at (path : list Z) (entity : Entity) : run unit :=
  _ <~ stores (Refused STATUS_BAD_REQUEST (lit "store_failed")) entity;;
  writes (λ st, (li_set path (content_hash entity) st.1.1, st.1.2, st.2)).

(** 1 ≤ K ≤ |signers| *)
Definition threshold_ok (threshold : Z) (signers : list Hash) : bool :=
  negb ((threshold =? 0) || (Z.of_nat (length signers) <? threshold)).

Definition check_threshold (threshold : Z) (signers : list Hash) : run unit :=
  if threshold_ok threshold signers then skip else throws (Refused STATUS_BAD_REQUEST (lit "invalid_threshold")).

Definition handle_create_quorum (ctx : HandlerContext) : run Reply :=
  map <~ q_params_map ctx;;
  signers <~ or_refuse "invalid_params" (field_hash_array map "signers");;
  threshold <~ or_refuse "invalid_params" (field_u64 map "threshold");;
  _ <~ check_threshold threshold signers;;
  resolution <~ or_refuse "invalid_params" (field_string_opt map "signer_resolution");;
  name <~ or_refuse "invalid_params" (field_string_opt map "name");;
  metadata <~ or_refuse "invalid_params" (field_map_opt map "metadata");;
  entity <~ or_refuse "encode_failed" (quorum_to_entity home (mkQuorum signers threshold resolution name metadata));;
  path <~ q_resource_path ctx;;
  _ <~ put_at path entity;;
  q_create_result "quorum_id" (content_hash entity).

(** The attestation of an event is stored, bound and indexed, and the quorum's signer set is
    computed anew when it is next asked for. *)
Definition record_event (ctx : HandlerContext) (quorum_id : Hash) (att : AttestationData) (field : string) : run Reply :=
  att_entity <~ or_refuse "encode_failed" (attestation_to_entity home att);;
  path <~ q_resource_path ctx;;
  _ <~ put_at path att_entity;;
  _ <~ writes (λ st, (st.1.1, att_index_insert (content_hash att_entity) att st.1.2, st.2));;
  _ <~ writes (λ st, (st.1, cache_invalidate quorum_id st.2));;
  q_create_result field (content_hash att_entity).

Definition handle_update (ctx : HandlerContext) : run Reply :=
  map <~ q_params_map ctx;;
  quorum_id <~ or_refuse "invalid_params" (q_field_hash map "quorum_id");;
  new_signers <~ or_refuse "invalid_params" (field_hash_array map "new_signers");;
  new_threshold <~ or_refuse "invalid_params" (field_u64 map "new_threshold");;
  _ <~ check_threshold new_threshold new_signers;;
  supersedes <~ or_refuse "invalid_params" (q_field_hash_opt map "supersedes");;
  record_event ctx quorum_id (update_attestation quorum_id new_signers new_threshold supersedes) "update_hash".

Definition handle_publish (ctx : HandlerContext) : run Reply :=
  map <~ q_params_map ctx;;
  quorum_id <~ or_refuse "invalid_params" (q_field_hash map "quorum_id");;
  signers <~ or_refuse "invalid_params" (field_hash_array map "signers");;
  threshold <~ or_refuse "invalid_params" (field_u64 map "threshold");;
  published_handle <~ or_refuse "invalid_params" (q_field_hash_opt map "published_handle");;
  supersedes <~ or_refuse "invalid_params" (q_field_hash_opt map "supersedes");;
  let extra := default [] (v ← get_field map "properties"; as_map v) in
  record_event ctx quorum_id (publish_attestation quorum_id signers threshold published_handle supersedes extra) "publish_hash".

Definition handle_verify_quorum (ctx : HandlerContext) (clock : Hash → Hash → Z) : run Reply :=
  map <~ q_params_map ctx;;
  entity_hash <~ or_refuse "invalid_params" (q_field_hash map "entity_hash");;
  quorum_id <~ or_refuse "invalid_params" (q_field_hash map "quorum_id");;
  found <~ (λ s st, unwraps (current_signer_set registry quorum_id s st.1.1 st.1.2 st.2 clock) s st);;
  _ <~ writes (λ st, (st.1, found.2));;
  set <~ or_refuse "signer_set_failed" found.1;;
  valid <~ asks (λ s st, verify_k_of_n_signatures values entity_hash (ss_signers set) (ss_threshold set) (hc_included ctx) s st.1.1);;
  q_verify_result valid.

Definition quorum_handle (ctx : HandlerContext) (clock : Hash → Hash → Z) : Code HandlerError St state Reply :=
  answered (if bool_decide (hc_operation ctx = lit "create") then handle_create_quorum ctx
            else if bool_decide (hc_operation ctx = lit "update") then handle_update ctx
            else if bool_decide (hc_operation ctx = lit "publish") then handle_publish ctx
            else if bool_decide (hc_operation ctx = lit "verify") then handle_verify_quorum ctx clock
            else throws (Refused STATUS_NOT_SUPPORTED (lit "unsupported_operation"))).
End handler.

(** * The signers after an update *)

Lemma update_kind q ss k o : kind (update_attestation q ss k o) = Some KIND_QUORUM_UPDATE.
Proof. reflexivity. Qed.

Lemma update_new_threshold q ss k o : 0 ≤ k ≤ i64_max → quorum_update_threshold (update_attestation q ss k o) = Some k.
Proof.
  intros Hk. unfold quorum_update_threshold.
  change (get_field (properties (update_attestation q ss k o)) "new_threshold") with (Some (VInteger (as_i64 k))). cbn [mbind option_bind as_integer].
  unfold i64_max in Hk. rewrite as_i64_id, (proj2 (Z.ltb_ge k 0)), as_u64_id by (unfold u64_max; lia). done.
Qed.

Lemma mapO_hashes ss : Forall hash_ok ss → mapO (λ item, bytes ← as_bytes item; ok (from_bytes bytes)) (map hash_value ss) = Some ss.
Proof.
  induction 1 as [|h ss Hh Hss IH]; [done|]. cbn [map mapO]. change (as_bytes (hash_value h)) with (Some (to_bytes h)).
  cbn [mbind option_bind]. rewrite from_bytes_to_bytes by done. cbn [ok mbind option_bind]. by rewrite IH.
Qed.

Lemma update_new_signers q ss k o : Forall hash_ok ss → quorum_update_signers (update_attestation q ss k o) = Some ss.
Proof.
  intros Hss. unfold quorum_update_signers.
  change (get_field (properties (update_attestation q ss k o)) "new_signers") with (Some (VArray (map hash_value ss))). cbn [mbind option_bind as_array].
  by apply mapO_hashes.
Qed.

(** An update of a quorum. *)
Definition updates_quorum (i : AttestationIndex) (q x : Hash) (a : AttestationData) : Prop :=
  att_index_get x i = Some a ∧ attested a = q ∧ kind a = Some KIND_QUORUM_UPDATE.

(** The only update of [q] that no update of [q] replaces, to which nothing refers. *)
Record latest_update (i : AttestationIndex) (q h : Hash) (att : AttestationData) : Prop := {
  lu_update : updates_quorum i q h att;
  lu_timeless : att_not_before att = None ∧ att_expires_at att = None;
  lu_unreferred : ∀ x a, att_index_get x i = Some a → supersedes a ≠ Some h ∧ attested a ≠ h;
  lu_others : ∀ x a, updates_quorum i q x a → x = h ∨ ∃ y b, updates_quorum i q y b ∧ supersedes b = Some x;
}.

Section in_force.
Context (i : AttestationIndex) (Hok : index_ok i) (rank : Hash → nat) (Hg : grounded i rank).
Context (q h : Hash) (att : AttestationData) (Hl : latest_update i q h att).

Lemma latest_alive now : status i now h att Alive.
Proof.
  destruct (lu_timeless _ _ _ _ Hl) as [Hnb Hex]. apply status_alive.
  - unfold is_self_valid_basic. by rewrite Hnb, Hex.
  - apply status_kept. intros rh r (Hr & Ha & _). by destruct (lu_unreferred _ _ _ _ Hl rh r Hr).
  - intros dh d Hrep. exfalso. assert (Hs : ∀ x y, succeeds i x y → x ≠ h).
    { intros x y (b & Hb & Hsb) ->. by destruct (lu_unreferred _ _ _ _ Hl y b Hb). }
    by destruct Hrep as [x y Hxy|x y z Hxy _]; apply Hs in Hxy.
Qed.

Lemma latest_is_its_head clock : find_live_head h att i clock = Some (Some (h, att)).
Proof.
  destruct (lu_update _ _ _ _ Hl) as (Hget & _ & _).
  destruct (find_live_head_spec i Hok rank Hg clock h att Hget) as (r & -> & Hb). do 2 f_equal.
  assert (Hr : ∀ k, rtc (succeeds i) h k → k = h).
  { intros k Hk. inversion Hk as [|? y ? (b & Hb' & Hsb)]; subst; [done|]. by destruct (lu_unreferred _ _ _ _ Hl y b Hb'). }
  destruct r as [[k b]|]; cbn [best_of] in Hb.
  - destruct Hb as (Hk & Hkb & _). apply Hr in Hk as ->. congruence.
  - destruct (Hb h att (rtc_refl _ _) Hget). apply latest_alive.
Qed.

Lemma updates_elem x a : (x, a) ∈ find_attestations_targeting q (has_kind KIND_QUORUM_UPDATE) i ↔ updates_quorum i q x a.
Proof. rewrite targeting_elem by done. unfold has_kind, updates_quorum. by rewrite bool_decide_eq_true. Qed.

Lemma chain_heads_elem x a :
  (x, a) ∈ chain_heads (find_attestations_targeting q (has_kind KIND_QUORUM_UPDATE) i) ↔
  updates_quorum i q x a ∧ ∀ y b, updates_quorum i q y b → supersedes b ≠ Some x.
Proof.
  unfold chain_heads. rewrite list_elem_of_filter, updates_elem, list_elem_of_omap. cbn [fst]. split.
  - intros [Hn Hu]. split; [done|]. intros y b Hy Hs. apply Hn. exists (y, b). by rewrite updates_elem.
  - intros [Hu Hn]. split; [|done]. intros ([y b] & Hy%updates_elem & Hs). by destruct (Hn y b).
Qed.

Lemma latest_in_force clock :
  update_in_force (chain_heads (find_attestations_targeting q (has_kind KIND_QUORUM_UPDATE) i)) None i clock = Some (Some att).
Proof.
  assert (Hin : (h, att) ∈ chain_heads (find_attestations_targeting q (has_kind KIND_QUORUM_UPDATE) i)).
  { apply chain_heads_elem. split; [apply Hl|]. intros y b (Hy & _ & _). by destruct (lu_unreferred _ _ _ _ Hl y b Hy). }
  assert (Hall : ∀ x a, (x, a) ∈ chain_heads (find_attestations_targeting q (has_kind KIND_QUORUM_UPDATE) i) → x = h ∧ a = att).
  { intros x a [Hu Hn]%chain_heads_elem. destruct (lu_others _ _ _ _ Hl x a Hu) as [->|(y & b & Hy & Hs)]; [|by destruct (Hn y b)].
    destruct Hu as (Ha & _), (lu_update _ _ _ _ Hl) as (Ha' & _). split; [done|congruence]. }
  revert Hin Hall. generalize (chain_heads (find_attestations_targeting q (has_kind KIND_QUORUM_UPDATE) i)). intros [|[x a] l] Hin Hall; [set_solver|].
  destruct (Hall x a) as [-> ->]; [by left|]. cbn [update_in_force find_quorum_update_head_at]. by rewrite latest_is_its_head.
Qed.

Lemma latest_signer_set `{Ciborium} {St} `{ContentStore St} {L} `{LocationIndex L} (registry : ResolverRegistry St L) (s : St) (t : L) clock
    quorum ss k :
  load_quorum q s t = Ok quorum → resolution_mode quorum = RESOLUTION_CONCRETE →
  quorum_update_signers att = Some ss → quorum_update_threshold att = Some k →
  compute_signer_set registry q None s t i clock = Some (Ok (mkSignerSet ss k)).
Proof.
  intros Hq Hm Hs Hk. unfold compute_signer_set. rewrite Hq, latest_in_force. cbn [mbind option_bind].
  rewrite Hs, Hk. unfold resolve_signers. by rewrite Hm, bool_decide_eq_true_2.
Qed.
End in_force.

(** * Updating, then verifying *)

Lemma cache_invalidated q c : cache_get q (cache_invalidate q c) = None.
Proof. apply lookup_delete_eq. Qed.

Lemma cache_filled q set c : cache_get q (cache_put q set c) = Some set.
Proof. apply lookup_insert_eq. Qed.

(** What the cache holds for a quorum, if anything. *)
Definition caches (q : Hash) (set : SignerSet) (c : SignerSetCache) : Prop := ∀ set', cache_get q c = Some set' → set' = set.

Section update.
Context `{Sha2Ok} `{Ciborium} `{SignatureSchemes} {St : Type} `{ContentStore St} {L : Type} `{LocationIndex L}.
Context (home : Z) (local_peer_id : list Z) (values : gmap Hash Entity → list Entity) (registry : ResolverRegistry St L).
Hypothesis Hhome : digest_len_for_format home ≠ None.

(** A request that updates quorum [q] to [k] of [ss], bound at [path], in place of [o]. *)
Record update_asked (ctx : HandlerContext) (q : Hash) (ss : list Hash) (k : Z) (o : option Hash) (path : list Z) : Prop := {
  ur_operation : hc_operation ctx = lit "update";
  ur_fields : ∃ map, decode_quorum_map (data (hc_params ctx)) = Ok map ∧ q_field_hash map "quorum_id" = Ok q
    ∧ field_hash_array map "new_signers" = Ok ss ∧ field_u64 map "new_threshold" = Ok k ∧ q_field_hash_opt map "supersedes" = Ok o;
  ur_threshold : threshold_ok k ss = true;
  ur_signers : Forall hash_ok ss ∧ Z.of_nat (length ss) ≤ i64_max ∧ 0 ≤ k;
  ur_path : require_single_resource_path (hc_resource_target ctx) local_peer_id = inr path;
}.

(** A request that asks whether quorum [q] signed the entity [eh]. *)
Record verify_asked (ctx : HandlerContext) (q eh : Hash) : Prop := {
  vr_operation : hc_operation ctx = lit "verify";
  vr_fields : ∃ map, decode_quorum_map (data (hc_params ctx)) = Ok map ∧ q_field_hash map "entity_hash" = Ok eh
    ∧ q_field_hash map "quorum_id" = Ok q;
}.

(** Nothing refers to [h] yet, and [o] is the last update of the quorum there was. *)
Record follows (i : AttestationIndex) (q h : Hash) (o : option Hash) : Prop := {
  fo_fresh : att_index_get h i = None;
  fo_self : o ≠ Some h ∧ q ≠ h;
  fo_unreferred : ∀ x a, att_index_get x i = Some a → supersedes a ≠ Some h ∧ attested a ≠ h;
  fo_last : ∀ x a, updates_quorum i q x a → o = Some x ∨ ∃ y b, updates_quorum i q y b ∧ supersedes b = Some x;
}.

Lemma follows_latest i q ss k o h :
  follows i q h o → latest_update (att_index_insert h (update_attestation q ss k o) i) q h (update_attestation q ss k o).
Proof.
  intros [Hf [Ho Hq] Hu Hlast]. set (att := update_attestation q ss k o).
  assert (Hget : ∀ x, att_index_get x (att_index_insert h att i) = if decide (x = h) then Some att else att_index_get x i).
  { intros x. rewrite insert_get, Hf. done. }
  assert (Hup : updates_quorum (att_index_insert h att i) q h att) by (split_and!; [rewrite Hget, decide_True; done|done|done]).
  assert (Hold : ∀ x a, updates_quorum i q x a → x ≠ h ∧ updates_quorum (att_index_insert h att i) q x a).
  { intros x a (Hx & ? & ?). assert (x ≠ h) by congruence. split; [done|]. split_and!; [rewrite Hget, decide_False; done|done|done]. }
  constructor.
  - done.
  - done.
  - intros x a. rewrite Hget. case_decide as Hx; [intros [= <-]; done|apply Hu].
  - intros x a (Hx & Ha & Hk). rewrite Hget in Hx. case_decide as Hxh; [by left|]. right.
    destruct (Hlast x a) as [->|(y & b & Hy & Hb)]; [done|by exists h, att|]. exists y, b. split; [by apply Hold|done].
Qed.

Lemma threshold_bounds k ss : 0 ≤ k → threshold_ok k ss = true → 1 ≤ k ≤ Z.of_nat (length ss).
Proof.
  unfold threshold_ok. intros Hk Ht. apply negb_true_iff, orb_false_iff in Ht as [Hz%Z.eqb_neq Hl%Z.ltb_ge]. lia.
Qed.

(** The state after an update. *)
Lemma update_run ctx q ss k o path e h0 s s1 t i c clock :
  update_asked ctx q ss k o path → attestation_to_entity home (update_attestation q ss k o) = Ok e → store_put e s = (Ok h0, s1) →
  ∃ r, quorum_handle home local_peer_id values registry ctx clock s (t, i, c)
       = Done (Ok r) s1 (li_set path (content_hash e) t, att_index_insert (content_hash e) (update_attestation q ss k o) i, cache_invalidate q c)
     ∧ is_status [(text (lit "update_hash"), hash_value (content_hash e))] r.
Proof.
  intros [Hop (map & Hm & Hq & Hss & Hk & Ho) Hth _ Hpath] He Hput.
  destruct (status_reply_run (L := L * AttestationIndex * SignerSetCache) home [(text (lit "update_hash"), hash_value (content_hash e))] s1
    (li_set path (content_hash e) t, att_index_insert (content_hash e) (update_attestation q ss k o) i, cache_invalidate q c) Hhome) as (r & Er & Hr).
  exists r. split; [|done]. unfold quorum_handle. rewrite Hop.
  rewrite bool_decide_eq_false_2 by (vm_compute; congruence). rewrite bool_decide_eq_true_2 by done.
  unfold answered, handle_update, q_params_map. rewrite Hm. unfold or_refuse.
  rewrite (andthen_run _ _ s (t, i, c) map s (t, i, c)) by done. rewrite Hq, Hss, Hk, Ho.
  rewrite (andthen_run _ _ s (t, i, c) q s (t, i, c)) by done. rewrite (andthen_run _ _ s (t, i, c) ss s (t, i, c)) by done.
  rewrite (andthen_run _ _ s (t, i, c) k s (t, i, c)) by done. unfold check_threshold. rewrite Hth.
  rewrite (andthen_run skip _ s (t, i, c) tt s (t, i, c)) by done. rewrite (andthen_run _ _ s (t, i, c) o s (t, i, c)) by done.
  unfold record_event, or_refuse. rewrite He. rewrite (andthen_run _ _ s (t, i, c) e s (t, i, c)) by done.
  unfold q_resource_path. rewrite Hpath. rewrite (andthen_run _ _ s (t, i, c) path s (t, i, c)) by done.
  rewrite (andthen_run (put_at path e) _ s (t, i, c) tt s1 (li_set path (content_hash e) t, i, c)).
  2:{ unfold put_at, andthen, stores. by rewrite Hput. }
  rewrite (andthen_run _ _ s1 (li_set path (content_hash e) t, i, c) tt s1
    (li_set path (content_hash e) t, att_index_insert (content_hash e) (update_attestation q ss k o) i, c)) by done.
  rewrite (andthen_run _ _ s1 (li_set path (content_hash e) t, att_index_insert (content_hash e) (update_attestation q ss k o) i, c) tt s1
    (li_set path (content_hash e) t, att_index_insert (content_hash e) (update_attestation q ss k o) i, cache_invalidate q c)) by done.
  unfold q_create_result. by rewrite Er.
Qed.

(** The answer of a verification whose signer set is known. *)
Lemma verify_quorum_run ctx q eh s t i c c' clock ss k :
  verify_asked ctx q eh → current_signer_set registry q s t i c clock = Some (Ok (mkSignerSet ss k), c') → 0 ≤ k →
  ∃ r valid, quorum_handle home local_peer_id values registry ctx clock s (t, i, c) = Done (Ok r) s (t, i, c')
    ∧ is_status [(text (lit "valid"), VBool valid)] r ∧ (valid = true ↔ enough_signed values eh ss k (hc_included ctx) s t).
Proof.
  intros [Hop (map & Hm & Heh & Hq)] Hset Hk. set (valid := verify_k_of_n_signatures values eh ss k (hc_included ctx) s t).
  destruct (status_reply_run (L := L * AttestationIndex * SignerSetCache) home [(text (lit "valid"), VBool valid)] s (t, i, c') Hhome) as (r & Er & Hr).
  exists r, valid. split; [|split; [done|by apply k_of_n_counted]]. unfold quorum_handle. rewrite Hop.
  rewrite !bool_decide_eq_false_2 by (vm_compute; congruence). rewrite bool_decide_eq_true_2 by done.
  unfold answered, handle_verify_quorum, q_params_map. rewrite Hm. unfold or_refuse.
  rewrite (andthen_run _ _ s (t, i, c) map s (t, i, c)) by done. rewrite Heh, Hq.
  rewrite (andthen_run _ _ s (t, i, c) eh s (t, i, c)) by done. rewrite (andthen_run _ _ s (t, i, c) q s (t, i, c)) by done.
  rewrite (andthen_run _ _ s (t, i, c) (Ok (mkSignerSet ss k), c') s (t, i, c)) by (cbn [fst snd]; by rewrite Hset).
  rewrite (andthen_run _ _ s (t, i, c) tt s (t, i, c')) by done.
  rewrite (andthen_run _ _ s (t, i, c') (mkSignerSet ss k) s (t, i, c')) by done.
  rewrite (andthen_run _ _ s (t, i, c') valid s (t, i, c')) by done. unfold q_verify_result. by rewrite Er.
Qed.
End update.

(** * Properties *)

(** C20. An update of a quorum takes effect: once a request to make it [k] of [ss], in place of the
    last update there was, has been answered, a verification asks for exactly [k] distinct
    signatures of [ss], whatever signer set the cache held before; and so does every verification
    after that one, at whatever time. *)
Theorem update_takes_effect `{Sha2Ok} `{Ciborium} `{SignatureSchemes} {St} `{ContentStore St} {L} `{LocationIndex L}
    home peer values registry rank ctx q ss k o path e h0 (s s1 : St) (t : L) i c clock quorum :
  digest_len_for_format home ≠ None → update_asked peer ctx q ss k o path →
  attestation_to_entity home (update_attestation q ss k o) = Ok e → store_put e s = (Ok h0, s1) →
  let t1 := li_set path (content_hash e) t in
  let i1 := att_index_insert (content_hash e) (update_attestation q ss k o) i in
  index_ok i → follows i q (content_hash e) o → grounded i1 rank →
  load_quorum q s1 t1 = Ok quorum → resolution_mode quorum = RESOLUTION_CONCRETE →
  ∃ r c1, quorum_handle home peer values registry ctx clock s (t, i, c) = Done (Ok r) s1 (t1, i1, c1)
    ∧ is_status [(text (lit "update_hash"), hash_value (content_hash e))] r
    ∧ caches q (mkSignerSet ss k) c1
    ∧ ∀ verify eh clock' c', verify_asked verify q eh → caches q (mkSignerSet ss k) c' →
        ∃ r' c2 valid, quorum_handle home peer values registry verify clock' s1 (t1, i1, c') = Done (Ok r') s1 (t1, i1, c2)
          ∧ is_status [(text (lit "valid"), VBool valid)] r'
          ∧ (valid = true ↔ enough_signed values eh ss k (hc_included verify) s1 t1)
          ∧ caches q (mkSignerSet ss k) c2.
Proof.
  intros Hhome Hreq He Hput t1 i1 Hok Hfo Hg Hq Hm.
  destruct (update_run home peer values registry Hhome ctx q ss k o path e h0 s s1 t i c clock Hreq He Hput) as (r & Er & Hr).
  exists r, (cache_invalidate q c). split; [exact Er|]. split; [exact Hr|].
  split; [by intros set'; rewrite cache_invalidated|]. intros verify eh clock' c' Hv Hc.
  destruct Hreq as [_ _ Hth (Hss & Hlen & Hk) _]. pose proof (threshold_bounds k ss Hk Hth) as Hb.
  assert (Hset : ∃ c2, current_signer_set registry q s1 t1 i1 c' clock' = Some (Ok (mkSignerSet ss k), c2) ∧ caches q (mkSignerSet ss k) c2).
  { unfold current_signer_set, current_signer_set_as_of. destruct (cache_get q c') as [set|] eqn:Ec.
    { exists c'. by rewrite (Hc set Ec). }
    assert (Hi1 : index_ok i1) by (by apply index_insert_ok).
    rewrite (latest_signer_set i1 Hi1 rank Hg q _ _ (follows_latest i q ss k o _ Hfo) registry s1 t1 clock' quorum ss k);
      [|done|done|by apply update_new_signers|apply update_new_threshold; lia].
    eexists. split; [done|]. intros set'. rewrite cache_filled. by intros [= <-]. }
  destruct Hset as (c2 & Hset & Hc2).
  destruct (verify_quorum_run home peer values registry Hhome verify q eh s1 t1 i1 _ _ clock' ss k Hv Hset Hk) as (r' & valid & Er' & Hr' & Hval).
  exists r', c2, valid. split; [exact Er'|]. split; [exact Hr'|]. split; [exact Hval|exact Hc2].
Qed.

(** * Samples *)

Section samples.
#[local] Existing Instances checksum_sha2 checksum_sha2_ok ref_ciborium repeating_schemes.

Definition q_request (op : string) (path : list Z) (params : Value) (included : list Entity) : HandlerContext :=
  mkHandlerContext None None (mkEntity [] [] hash_zero) (mkEntity (lit "params") (to_ecf params) hash_zero) (lit "/peer/system/quorum") []
    (Some (mkTarget [path] [])) None None (lit "r1") (lit op)
    (list_to_map (imap (λ n e, (claim_hash (Z.of_nat n), e)) included)) None None None None true false.

Definition q_peer (b : Z) : Hash := content_hash (claim_peer b).

(** A quorum of the peers 5 and 6, both of whom sign; its entity is bound where it belongs. *)
Definition q_entity : Entity := Eval vm_compute in entity_or_empty (quorum_to_entity 0 (mkQuorum [q_peer 5; q_peer 6] 2 None None None)).
Definition q_id : Hash := Eval vm_compute in content_hash q_entity.
Definition q_store : ContentMap := Eval vm_compute in
  foldl (λ m e, (content_put m e).2) [] [claim_peer 5; claim_peer 6; claim_peer 7; q_entity].
Definition q_tree : PathMap := Eval vm_compute in [(lit "/peer/" ++ path_quorum q_id, q_id)].

Definition q_update_request : HandlerContext := Eval vm_compute in
  q_request "update" (lit "/peer/system/attestation/u1") (VMap [(text (lit "quorum_id"), hash_value q_id);
    (text (lit "new_signers"), hashes_value [q_peer 6]); (text (lit "new_threshold"), integer 1)]) [].
Definition q_update_entity : Entity := Eval vm_compute in
  entity_or_empty (attestation_to_entity 0 (update_attestation q_id [q_peer 6] 1 None)).
Definition q_stored : ContentMap := Eval vm_compute in (content_put q_store q_update_entity).2.

Notation q_state := (ContentMap * (PathMap * AttestationIndex * SignerSetCache))%type.

Definition q_after (m : Outcome HandlerError ContentMap (PathMap * AttestationIndex * SignerSetCache) Reply) : option (Reply * q_state) :=
  match m with Done (Ok r) s st => Some (r, (s, st)) | _ => None end.

Definition q_run (ctx : HandlerContext) (now : Z) (st : q_state) : option (Reply * q_state) :=
  q_after (quorum_handle 0 (lit "peer") map_values ∅ ctx (λ _ _, now) st.1 st.2).

(** Whether the quorum is found to have signed the entity 0, given the signatures of some peers. *)
Definition q_verifies (by_peers : list Z) (now : Z) (st : q_state) : option bool :=
  let request := q_request "verify" (lit "/peer/system/quorum/v") (VMap [(text (lit "entity_hash"), hash_value hash_zero);
    (text (lit "quorum_id"), hash_value q_id)]) (map (λ b, signature_by b (q_peer b) hash_zero) by_peers) in
  '(r, _) ← q_run request now st;
  match r with
  | Answered hr => v ← from_reader (data (result_entity hr)); x ← value_get v (lit "valid"); as_bool_val x
  | Refused _ _ => None
  end.

Definition q_start : q_state := (q_store, (q_tree, att_index_new, ∅)).

Lemma verify_k_of_n_exact_witness :
  verify_k_of_n_signatures map_values hash_zero [q_peer 5; q_peer 5; q_peer 6] 2
    (list_to_map [(claim_hash 0, signature_by 5 (q_peer 5) hash_zero)]) q_store q_tree = false
  ∧ (verify_k_of_n_signatures map_values hash_zero [q_peer 5; q_peer 5; q_peer 6] 2 ∅ q_store q_tree = true ↔
     ∃ l, NoDup l ∧ Z.of_nat (length l) = 2
       ∧ ∀ c, c ∈ l → c ∈ [q_peer 5; q_peer 5; q_peer 6] ∧ signature_holds map_values hash_zero c ∅ q_store q_tree).
Proof. split; [vm_compute; reflexivity|]. apply verify_k_of_n_exact. lia. Defined.

Lemma q_follows : follows att_index_new q_id (content_hash q_update_entity) None.
Proof.
  constructor; [done|split; [done|]|intros x a Ha; discriminate Ha|intros x a (Ha & _); discriminate Ha].
  apply (bool_decide_eq_false_1 _). vm_compute. reflexivity.
Qed.

Lemma q_update_requested : update_asked (lit "peer") q_update_request q_id [q_peer 6] 1 None (lit "/peer/system/attestation/u1").
Proof.
  constructor; [reflexivity| |vm_compute; reflexivity| |vm_compute; reflexivity].
  - exists (match decode_quorum_map (data (hc_params q_update_request)) with Ok m => m | Err _ => [] end).
    split_and!; vm_compute; reflexivity.
  - split_and!; [|vm_compute; discriminate|lia]. apply (bool_decide_eq_true_1 _). vm_compute. reflexivity.
Qed.

Lemma update_takes_effect_witness :
  q_verifies [5; 6] 7 q_start = Some true ∧ q_verifies [6] 7 q_start = Some false
  ∧ ('(_, st) ← q_run q_update_request 7 q_start; q_verifies [6] 7 st) = Some true
  ∧ ('(_, st) ← q_run q_update_request 7 q_start; q_verifies [5] 7 st) = Some false
  ∧ let t1 := li_set (lit "/peer/system/attestation/u1") (content_hash q_update_entity) q_tree in
    let i1 := att_index_insert (content_hash q_update_entity) (update_attestation q_id [q_peer 6] 1 None) att_index_new in
    ∃ r c1, quorum_handle 0 (lit "peer") map_values ∅ q_update_request (λ _ _, 7) q_store (q_tree, att_index_new, ∅)
        = Done (Ok r) q_stored (t1, i1, c1)
    ∧ is_status [(text (lit "update_hash"), hash_value (content_hash q_update_entity))] r
    ∧ caches q_id (mkSignerSet [q_peer 6] 1) c1
    ∧ ∀ verify eh clock' c', verify_asked verify q_id eh → caches q_id (mkSignerSet [q_peer 6] 1) c' →
        ∃ r' c2 valid, quorum_handle 0 (lit "peer") map_values ∅ verify clock' q_stored (t1, i1, c') = Done (Ok r') q_stored (t1, i1, c2)
          ∧ is_status [(text (lit "valid"), VBool valid)] r'
          ∧ (valid = true ↔ enough_signed map_values eh [q_peer 6] 1 (hc_included verify) q_stored t1)
          ∧ caches q_id (mkSignerSet [q_peer 6] 1) c2.
Proof.
  split; [vm_compute; reflexivity|]. split; [vm_compute; reflexivity|]. split; [vm_compute; reflexivity|]. split; [vm_compute; reflexivity|].
  apply (update_takes_effect 0 (lit "peer") map_values ∅ (λ _, 0%nat) q_update_request q_id [q_peer 6] 1 None
    (lit "/peer/system/attestation/u1") q_update_entity (content_hash q_update_entity) q_store q_stored q_tree att_index_new ∅ (λ _ _, 7)
    (mkQuorum [q_peer 5; q_peer 6] 2 None None None)).
  - discriminate.
  - exact q_update_requested.
  - vm_compute. reflexivity.
  - vm_compute. reflexivity.
  - exact index_new_ok.
  - exact q_follows.
  - apply grounded_checked. vm_compute. reflexivity.
  - vm_compute. reflexivity.
  - reflexivity.
Defined.

(** ** What the signer set trusts *)

Definition q_update_to (quorum : Hash) (signers : list Hash) (supersedes : option Hash) (path : list Z) : HandlerContext :=
  q_request "update" path (VMap ([(text (lit "quorum_id"), hash_value quorum); (text (lit "new_signers"), hashes_value signers);
    (text (lit "new_threshold"), integer 1)] ++ push_field "supersedes" hash_value supersedes)) [].

(** The head of a quorum's updates is looked for through whatever replaces it: an update of another
    quorum that names it as what it replaces takes the quorum over. *)
Lemma other_quorum_takes_over :
  ('(_, st) ← q_run q_update_request 7 q_start; q_verifies [7] 7 st) = Some false
  ∧ ('(_, st) ← q_run q_update_request 7 q_start;
     '(_, st) ← q_run (q_update_to (q_peer 6) [q_peer 7] (Some (content_hash q_update_entity)) (lit "/peer/system/attestation/u2")) 7 st;
     q_verifies [7] 7 st) = Some true.
Proof. vm_compute. done. Qed.

(** The entity of a quorum is looked for by the end of its path, in every peer's part of the tree, and
    its hash is not compared: another quorum bound at such a path stands for it. *)
Lemma planted_quorum_stands_in :
  let planted := entity_or_empty (quorum_to_entity 0 (mkQuorum [q_peer 7] 1 None None None)) in
  q_verifies [7] 7 ((content_put q_store planted).2,
    (bt_insert (lit "/elsewhere/" ++ path_quorum q_id) (content_hash planted) q_tree, att_index_new, ∅)) = Some true.
Proof. vm_compute. done. Qed.

(** The first entity of the type ends the search, also when it cannot be decoded. *)
Lemma broken_quorum_hides :
  let broken := entity_or_empty (entity_new 0 TYPE_QUORUM (to_ecf (VMap []))) in
  load_quorum q_id (content_put q_store broken).2 (bt_insert (lit "/elsewhere/" ++ path_quorum q_id) (content_hash broken) q_tree) = Err QDecode
  ∧ is_ok (load_quorum q_id (content_put q_store broken).2 q_tree) = true.
Proof. vm_compute. done. Qed.

(** A threshold of zero is refused when a quorum is created, and taken when it is read. *)
Lemma zero_threshold_needs_none :
  let open := entity_or_empty (quorum_to_entity 0 (mkQuorum [q_peer 5] 0 None None None)) in
  q_verifies [] 7 ((content_put q_store open).2, ([(lit "/peer/" ++ path_quorum q_id, content_hash open)], att_index_new, ∅)) = Some true.
Proof. vm_compute. done. Qed.

(** A revoked update goes on while it is in the cache, and for good when it is asked about the past. *)
Lemma revoked_update_goes_on :
  let revoke := claim_request "revoke" (VMap [(text (lit "target_hash"), hash_value (content_hash q_update_entity));
    (text (lit "attesting"), hash_value q_id)]) [] in
  ('(_, st) ← q_run q_update_request 7 q_start;
   '(_, st) ← q_run (q_request "verify" (lit "/peer/system/quorum/v") (VMap [(text (lit "entity_hash"), hash_value hash_zero);
      (text (lit "quorum_id"), hash_value q_id)]) []) 7 st;
   '(_, s, ti) ← after (attestation_handle 0 (lit "peer") map_values revoke 7 st.1 st.2.1);
   past ← current_signer_set_as_of ∅ q_id (Some 7) s ti.1 ti.2 ∅ (λ _ _, 7);
   with_cache ← q_verifies [6] 7 (s, (ti, st.2.2));
   without ← q_verifies [6] 7 (s, (ti, ∅));
   Some (with_cache, without, past.1)) = Some (true, false, Ok (mkSignerSet [q_peer 6] 1)).
Proof. vm_compute. done. Qed.
End samples.
