(* ===== verification/RevisionConfig.v ===== *)
(** Revision configurations ([extensions/revision/src/engine.rs], configuration decoding and
    validation).

    A configuration names a prefix to version, what to leave out of it, and how to merge.  A
    configuration that versions automatically must leave out the subtrees that versioning itself
    writes; [validate_revision_config] enforces it when the configuration is written. *)
From S2P Require Import Prelude BTree Ecf Cbor ContentHash Entity Store Trie Index TrieSpec RootTracker RevisionDag.
From S2P Require Import RevisionMerge.

Definition DEFAULT_MERGE_ORDER : list Z := lit "deterministic".
Definition DEFAULT_CHECKOUT_POLICY : list Z := lit "warn".

Definition REQUIRED_EXCLUDES : list (list Z) :=
  [lit "system/revision"; lit "system/tree/root"; lit "system/tree/tracking-config"; lit "system/history";
   lit "system/clock"].

Record RevisionConfig := mkRevisionConfig {
  rc_prefix : list Z;
  auto_version : bool;
  merge_order : list Z;
  oscillation_depth : option Z;
  exclude : list (list Z);
  exclude_types : list (list Z);
  checkout_under_auto_version : list Z;
}.

(** What has been read of a configuration so far. *)
Record ConfigFields := mkConfigFields {
  f_prefix : option (list Z); f_auto : bool; f_order : option (list Z); f_depth : option Z;
  f_exclude : list (list Z); f_types : list (list Z); f_policy : option (list Z);
}.

(** The texts of an array, appended. *)
Definition push_texts (acc : list (list Z)) (v : Value) : list (list Z) :=
  match as_array v with Some arr => acc ++ omap as_str arr | None => acc end.

Definition config_step (c : ConfigFields) (kv : Value * Value) : option ConfigFields :=
  let v := kv.2 in
  k ← as_str kv.1;
  Some (
    if bool_decide (k = lit "prefix") then
      mkConfigFields (as_str v) (f_auto c) (f_order c) (f_depth c) (f_exclude c) (f_types c) (f_policy c)
    else if bool_decide (k = lit "auto_version") then
      mkConfigFields (f_prefix c) (default false (as_bool_val v)) (f_order c) (f_depth c) (f_exclude c) (f_types c) (f_policy c)
    else if bool_decide (k = lit "merge_order") then
      mkConfigFields (f_prefix c) (f_auto c) (as_str v) (f_depth c) (f_exclude c) (f_types c) (f_policy c)
    else if bool_decide (k = lit "oscillation_depth") then
      mkConfigFields (f_prefix c) (f_auto c) (f_order c) (as_u64 <$> as_integer v) (f_exclude c) (f_types c) (f_policy c)
    else if bool_decide (k = lit "exclude") then
      mkConfigFields (f_prefix c) (f_auto c) (f_order c) (f_depth c) (push_texts (f_exclude c) v) (f_types c) (f_policy c)
    else if bool_decide (k = lit "exclude_types") then
      mkConfigFields (f_prefix c) (f_auto c) (f_order c) (f_depth c) (f_exclude c) (push_texts (f_types c) v) (f_policy c)
    else if bool_decide (k = lit "checkout_under_auto_version") then
      mkConfigFields (f_prefix c) (f_auto c) (f_order c) (f_depth c) (f_exclude c) (f_types c) (as_str v)
    else c).

Definition decode_revision_config `{Ciborium} (d : list Z) : option RevisionConfig :=
  val ← from_reader d;
  m ← as_map val;
  c ← fold_opt config_step (mkConfigFields None false None None [] [] None) m;
  prefix ← f_prefix c;
  Some (mkRevisionConfig prefix (f_auto c) (default DEFAULT_MERGE_ORDER (f_order c)) (f_depth c) (f_exclude c) (f_types c)
          (default DEFAULT_CHECKOUT_POLICY (f_policy c))).

Definition canonicalize_prefix (prefix : list Z) : list Z := trim_matches ch_slash prefix.

(** * Validation *)

Definition prefix_encompasses (canonical target : list Z) : bool :=
  if bool_decide (canonical = []) then true
  else bool_decide (target = canonical) || starts_with target (canonical ++ [ch_slash]).

Definition exclude_list_covers (excludes : list (list Z)) (canonical target : list Z) : bool :=
  let target_relative :=
    if bool_decide (canonical = []) then target
    else if bool_decide (target = canonical) then []
    else default target (strip_prefix (canonical ++ [ch_slash]) target) in
  let target_subtree := if bool_decide (target_relative = []) then [] else target_relative ++ [ch_slash] in
  existsb (λ pattern,
    if bool_decide (pattern = [ch_star]) then true
    else match strip_suffix [ch_star] pattern with
         | Some literal => if ends_with literal [ch_slash] then starts_with target_subtree literal else false
         | None => false
         end) excludes.

(** The code of each refusal; all have the status 400. *)
Inductive ConfigError :=
  | InvalidPrefix
  | InvalidExcludePattern
  | InvalidMergeOrder
  | OscillationDepthBelowMinimum
  | InvalidCheckoutPolicy
  | MissingRequiredExclude (required : list Z).

Definition validate_revision_config (config : RevisionConfig) : result ConfigError unit :=
  if bool_decide (rc_prefix config = []) then Err InvalidPrefix
  else if negb (forallb valid_exclude_pattern (exclude config ++ exclude_types config)) then Err InvalidExcludePattern
  else if negb (bool_decide (merge_order config = lit "deterministic")
                || bool_decide (merge_order config = lit "caller-perspective")) then Err InvalidMergeOrder
  else if match oscillation_depth config with Some depth => depth <? 2 | None => false end
    then Err OscillationDepthBelowMinimum
  else if negb (bool_decide (checkout_under_auto_version config = lit "allow")
                || bool_decide (checkout_under_auto_version config = lit "warn")
                || bool_decide (checkout_under_auto_version config = lit "deny")) then Err InvalidCheckoutPolicy
  else if negb (auto_version config) then Ok tt
  else
    let canonical := canonicalize_prefix (rc_prefix config) in
    match find_first (λ required, prefix_encompasses canonical required
                                  && negb (exclude_list_covers (exclude config) canonical required)) REQUIRED_EXCLUDES with
    | Some required => Err (MissingRequiredExclude required)
    | None => Ok tt
    end.

(** * Matching *)

(** A path relative to the configured prefix; [None] outside of it. *)
Definition config_relative (config : RevisionConfig) (event_bare_path : list Z) : option (list Z) :=
  let canonical := canonicalize_prefix (rc_prefix config) in
  if bool_decide (canonical = []) then Some event_bare_path
  else match strip_prefix (canonical ++ [ch_slash]) event_bare_path with
       | Some r => Some r
       | None => if bool_decide (event_bare_path = canonical) then Some [] else None
       end.

Definition config_matches (event_bare_path : list Z) (config : RevisionConfig) : bool :=
  match config_relative config event_bare_path with
  | Some relative => negb (existsb (λ pat, glob_match pat relative) (exclude config))
  | None => false
  end.

Definition is_ascii_hexdigit (c : Z) : bool :=
  ((48 <=? c) && (c <=? 57)) || ((65 <=? c) && (c <=? 70)) || ((97 <=? c) && (c <=? 102)).

(** [u8::from_str_radix(&hex[0..2], 16)] of two hexadecimal digits *)
Definition hex_width_matches_its_format_byte (hex : list Z) : bool :=
  match hex with
  | a :: b :: _ =>
      match hex_value a, hex_value b with
      | Some x, Some y =>
          match digest_len_for_format (16 * x + y) with
          | Some digest => (length hex =? 2 + digest * 2)%nat
          | None => false
          end
      | _, _ => false
      end
  | _ => false
  end.

Definition is_prefix_config_path (path revision_prefix : list Z) : bool :=
  match strip_prefix revision_prefix path with
  | None => false
  | Some rest =>
      match strip_suffix (lit "/config") rest with
      | None => false
      | Some hash_part => forallb is_ascii_hexdigit hash_part && hex_width_matches_its_format_byte hash_part
      end
  end.

(** * Coordination with the root tracker *)

Definition tracking_prefix_field (canonical : list Z) : list Z :=
  if bool_decide (canonical = []) then lit "/" else canonical ++ lit "/".

Definition build_tracking_config_entity `{Sha2} (home : Z) (canonical : list Z) (enabled : bool) : option Entity :=
  tracking_config_entity home (tracking_prefix_field canonical) enabled.

Definition tracking_config_path (local_peer_id canonical : list Z) : list Z :=
  if bool_decide (canonical = []) then config_path_prefix local_peer_id ++ lit "root"
  else config_path_prefix local_peer_id ++ canonical.

(** * Where revisions are kept ([lib.rs]) *)

Definition resolve_prefix (prefix local_peer_id : list Z) : list Z :=
  if starts_with prefix [ch_slash] then prefix else lit "/" ++ local_peer_id ++ lit "/" ++ prefix.

Definition prefix_hash `{Sha2} (absolute_prefix : list Z) : list Z :=
  hex_str (to_bytes (compute (lit "system/tree/path") (to_ecf (text absolute_prefix)))).

Definition revision_path (pid ph rest : list Z) : list Z :=
  lit "/" ++ pid ++ lit "/system/revision/" ++ ph ++ rest.
Definition rev_head_path (pid ph : list Z) : list Z := revision_path pid ph (lit "/head").
Definition rev_active_branch_path (pid ph : list Z) : list Z := revision_path pid ph (lit "/active-branch").
Definition rev_branch_path (pid ph name : list Z) : list Z := revision_path pid ph (lit "/branches/" ++ name).
Definition rev_tag_path (pid ph name : list Z) : list Z := revision_path pid ph (lit "/tags/" ++ name).
Definition rev_conflict_path (pid ph path : list Z) : list Z := revision_path pid ph (lit "/conflicts/" ++ path).
Definition rev_conflicts_prefix (pid ph : list Z) : list Z := revision_path pid ph (lit "/conflicts/").
Definition rev_config_path (pid ph : list Z) : list Z := revision_path pid ph (lit "/config").

(** The first field called [name], when it is a text. *)
Fixpoint name_field (m : list (Value * Value)) : option (list Z) :=
  match m with
  | [] => None
  | (k, v) :: m => if bool_decide (as_str k = Some (lit "name")) then as_str v else name_field m
  end.

Definition decode_active_branch_name `{Ciborium} (entity : Entity) : option (list Z) :=
  val ← from_reader (data entity);
  m ← as_map val;
  name_field m.

(** * Lemmas *)

Lemma glob_match_below x s : glob_match (x ++ [ch_slash; ch_star]) s = true ↔ x ++ [ch_slash] `prefix_of` s.
Proof.
  unfold glob_match. rewrite bool_decide_eq_false_2.
  - assert (He : ends_with (x ++ [ch_slash; ch_star]) [ch_slash; ch_star] = true) by (apply ends_with_true; by exists x).
    rewrite He, starts_with_true. rewrite length_app. cbn [length].
    replace (length x + 2 - 1)%nat with (length (x ++ [ch_slash])) by (rewrite length_app; cbn [length]; lia).
    change (x ++ [ch_slash; ch_star]) with (x ++ [ch_slash] ++ [ch_star]). by rewrite app_assoc, take_app_length.
  - intros Heq. apply (f_equal length) in Heq. rewrite length_app in Heq. cbn [length] in Heq. lia.
Qed.

(** A covering exclude list matches everything below the target. *)
Lemma covers_below excludes canonical target rest :
  prefix_encompasses canonical target = true → exclude_list_covers excludes canonical target = true →
  target ≠ [] →
  ∀ relative,
    (if bool_decide (canonical = []) then relative = target ++ ch_slash :: rest
     else target ++ ch_slash :: rest = canonical ++ ch_slash :: relative) →
    existsb (λ pat, glob_match pat relative) excludes = true.
Proof.
  intros Henc Hcov Hne relative Hrel. unfold exclude_list_covers in Hcov.
  set (target_relative := if bool_decide (canonical = []) then target else if bool_decide (target = canonical) then []
    else default target (strip_prefix (canonical ++ [ch_slash]) target)) in Hcov.
  assert (Hsub : target_relative ≠ [] → target_relative ++ [ch_slash] `prefix_of` relative).
  { unfold target_relative, prefix_encompasses in *. destruct (bool_decide (canonical = [])) eqn:Ec.
    - subst relative. intros _. exists rest. by rewrite <-app_assoc.
    - destruct (bool_decide (target = canonical)) eqn:Et; [done|]. cbn [orb] in Henc. intros Htr.
      apply starts_with_true in Henc as [x Hx]. rewrite Hx, strip_prefix_app in *. cbn [default from_option id] in *.
      rewrite <-!app_assoc in Hrel. apply app_inv_head in Hrel. cbn [app] in Hrel. injection Hrel as <-.
      exists rest. by rewrite <-app_assoc. }
  rewrite existsb_exists in Hcov |- *. destruct Hcov as (pat & Hin & Hpat). exists pat. split; [done|].
  destruct (decide (pat = [ch_star])) as [Hstar|Hstar].
  { unfold glob_match. by rewrite bool_decide_eq_true_2. }
  rewrite bool_decide_eq_false_2 in Hpat by done.
  destruct (strip_suffix [ch_star] pat) as [lit0|] eqn:Es; [|done]. apply strip_suffix_Some in Es.
  destruct (ends_with lit0 [ch_slash]) eqn:Ee; [|done]. apply ends_with_true in Ee as [x Hx].
  assert (Hlit : lit0 `prefix_of` relative).
  { apply starts_with_true in Hpat. destruct (decide (target_relative = [])) as [Htr|Htr].
    - rewrite bool_decide_eq_true_2 in Hpat by done. apply prefix_nil_inv in Hpat. rewrite Hpat in Hx. by destruct x.
    - rewrite bool_decide_eq_false_2 in Hpat by done. etrans; [exact Hpat|by apply Hsub]. }
  rewrite Es, Hx, <-app_assoc. apply glob_match_below. by rewrite <-Hx.
Qed.

(** What is left of a path below [required], relative to a configuration whose prefix
    encompasses it. *)
Lemma relative_below config required rest :
  prefix_encompasses (canonicalize_prefix (rc_prefix config)) required = true →
  ∃ relative, config_relative config (required ++ ch_slash :: rest) = Some relative
    ∧ if bool_decide (canonicalize_prefix (rc_prefix config) = []) then relative = required ++ ch_slash :: rest
      else required ++ ch_slash :: rest = canonicalize_prefix (rc_prefix config) ++ ch_slash :: relative.
Proof.
  unfold config_relative, prefix_encompasses. set (c := canonicalize_prefix (rc_prefix config)).
  destruct (bool_decide (c = [])); [by eexists|]. intros Henc.
  assert (Hx : ∃ x, required ++ ch_slash :: rest = (c ++ [ch_slash]) ++ x).
  { apply orb_true_iff in Henc as [Heq%bool_decide_eq_true|[x Hx]%starts_with_true].
    - subst required. exists rest. by rewrite <-app_assoc.
    - exists (x ++ ch_slash :: rest). by rewrite Hx, <-!app_assoc. }
  destruct Hx as [x Hx]. exists x. rewrite Hx, strip_prefix_app, <-app_assoc. done.
Qed.

(** * Properties *)

(** A configuration that validates has a prefix, patterns of the four forms only, one of the
    two merge orders, a depth of at least two and a known policy; and if it versions automatically
    a prefix that encompasses a reserved subtree, no write inside that subtree is versioned, so
    that versioning does not set itself off. *)
Theorem valid_config_spares_reserved config :
  validate_revision_config config = Ok tt →
  rc_prefix config ≠ []
  ∧ (∀ p, p ∈ exclude config ++ exclude_types config → valid_exclude_pattern p = true)
  ∧ (merge_order config = lit "deterministic" ∨ merge_order config = lit "caller-perspective")
  ∧ (∀ depth, oscillation_depth config = Some depth → 2 ≤ depth)
  ∧ (auto_version config = true →
     ∀ required rest, required ∈ REQUIRED_EXCLUDES →
       prefix_encompasses (canonicalize_prefix (rc_prefix config)) required = true →
       config_matches (required ++ ch_slash :: rest) config = false).
Proof.
  unfold validate_revision_config. case_bool_decide as Hp; [done|].
  destruct (forallb valid_exclude_pattern _) eqn:Hpat; cbn [negb]; [|done].
  destruct (bool_decide (merge_order config = lit "deterministic") || bool_decide (merge_order config = lit "caller-perspective"))
    eqn:Ho; cbn [negb]; [|done].
  destruct (match oscillation_depth config with Some depth => depth <? 2 | None => false end) eqn:Hd; [done|].
  destruct (bool_decide (checkout_under_auto_version config = lit "allow") || _ || _); cbn [negb]; [|done].
  intros Hok. split_and!; [done|by apply forallb_elem| | |].
  - apply orb_true_iff in Ho as [Ho|Ho]; apply bool_decide_eq_true in Ho; auto.
  - intros depth Hdep. rewrite Hdep in Hd. apply Z.ltb_ge in Hd. done.
  - intros Hauto required rest Hreq Henc. rewrite Hauto in Hok. cbn [negb] in Hok.
    destruct (find_first _ REQUIRED_EXCLUDES) as [r|] eqn:Ef; [done|].
    rewrite find_first_None, Forall_forall in Ef. specialize (Ef required Hreq). cbn beta in Ef.
    rewrite Henc in Ef. cbn [andb] in Ef. apply negb_false_iff in Ef.
    destruct (relative_below config required rest Henc) as (relative & Hr & Hshape).
    unfold config_matches. rewrite Hr. apply negb_false_iff.
    apply (covers_below (exclude config) _ required rest Henc Ef); [|exact Hshape].
    intros ->. clear -Hreq. by repeat (apply elem_of_cons in Hreq as [Hreq|Hreq]; [discriminate Hreq|]); apply elem_of_nil in Hreq.
Qed.

(** * Witnesses *)

Definition whole_tree : RevisionConfig :=
  mkRevisionConfig (lit "/") true (lit "deterministic") (Some 4)
    [lit "system/*"; lit "*.tmp"] [] (lit "warn").

Lemma valid_config_spares_reserved_witness :
  validate_revision_config whole_tree = Ok tt
  ∧ config_matches (lit "docs/a") whole_tree = true
  ∧ ∀ rest, config_matches (lit "system/revision" ++ ch_slash :: rest) whole_tree = false.
Proof.
  assert (Hv : validate_revision_config whole_tree = Ok tt) by (vm_compute; reflexivity).
  split; [exact Hv|]. split; [vm_compute; reflexivity|]. intros rest.
  destruct (valid_config_spares_reserved whole_tree Hv) as (_ & _ & _ & _ & Hres).
  apply Hres; [reflexivity|left|vm_compute; reflexivity].
Defined.

(** Without the exclusions the configuration is refused; and a prefix inside a reserved subtree
    encompasses nothing reserved, and passes. *)
Example reserved_prefixes :
  let bare prefix := mkRevisionConfig prefix true (lit "deterministic") None [] [] (lit "warn") in
  (validate_revision_config (bare (lit "/")), validate_revision_config (bare (lit "system/")),
   validate_revision_config (bare (lit "system/history/")), validate_revision_config (bare (lit "system/history/x/")))
  = (Err (MissingRequiredExclude (lit "system/revision")), Err (MissingRequiredExclude (lit "system/revision")),
     Err (MissingRequiredExclude (lit "system/history")), Ok tt).
Proof. vm_compute. reflexivity. Qed.
