(* ===== verification/AutoVersion.v ===== *)
(** Automatic versioning ([extensions/revision/src/engine.rs]) and its interleavings.

    On every change of the tree the engine puts the tracked root, without what the configuration
    excludes, under a new version and moves the head there by compare-and-set.  Writers run on
    threads of their own, so the root tracker's and the engine's loops interleave: the second half
    of this file is the step relation of any number of writers over the shared index, tracked
    root and head. *)
From S2P Require Import Prelude BTree Ecf Cbor ContentHash Entity Store Trie Index TrieSpec RootTracker RevisionDag.
From S2P Require Import RevisionMerge RevisionConfig.

(** * One attempt *)

Definition MAX_HEAD_CAS_RETRIES : nat := 64.

Inductive EmitOutcome := SettledEmit | Contended.

Inductive EmitError := TrackingMissing | BuildFailed | PutFailed | LostHeadRaces.

Section engine.
Context `{Sha2} `{Ciborium} {St : Type} `{ContentStore St} {L : Type} `{LocationIndex L}.
Context (home : Z) (local_peer_id : list Z) (fuel : nat).

Notation run := (Code EmitError St L).

Definition tracked_root_path (canonical : list Z) : list Z :=
  if bool_decide (canonical = []) then root_path_exact local_peer_id
  else root_path_prefix local_peer_id ++ canonical.

(** Whether the configuration leaves a binding out. *)
Definition excluded (config : RevisionConfig) (s : St) (relative : list Z) (h : Hash) : bool :=
  if existsb (λ p, glob_match p relative) (exclude config) then true
  else if bool_decide (exclude_types config = []) then false
  else match store_get h s with
       | Some entity => existsb (λ p, glob_match p (entity_type entity)) (exclude_types config)
       | None => false
       end.

Definition filter_bindings (config : RevisionConfig) (s : St) (bindings : PathMap) : PathMap :=
  foldl (λ filtered kv, if excluded config s kv.1 kv.2 then filtered else bt_insert kv.1 kv.2 filtered) [] bindings.

Definition filtered_root (tracked_root : Hash) (config : RevisionConfig) : run Hash :=
  if bool_decide (exclude config = []) && bool_decide (exclude_types config = []) then returns tracked_root
  else
    collected <~ asks (λ s _, collect_all_bindings fuel tracked_root s);;
    bindings <~ unwraps collected;;
    filtered <~ asks (λ s _, filter_bindings config s bindings);;
    in_store (λ _, BuildFailed) (build_trie home filtered).

(** [content_store.put(entry)] of a version *)
Definition put_version {E} (build put : E) (d : RevisionEntryData) : Code E St L Hash :=
  entity <~ tries (map_err (λ _, build) (build_revision_entry home d));;
  λ s t, match store_put entity s with
         | (Ok hash, s) => Done (Ok hash) s t
         | (Err _, s) => Done (Err put) s t
         end.

Definition try_emit_once (config : RevisionConfig) (ctx : ExecutionContext) (head_path ph : list Z)
    (current_head : option Hash) (tracked_root : Hash) : run EmitOutcome :=
  version_root <~ filtered_root tracked_root config;;
  head_entry <~ asks (λ s _, h ← current_head; entry_of s h);;
  if match head_entry with Some entry => bool_decide (root entry = version_root) | None => false end
  then returns SettledEmit
  else
    entry_hash <~ put_version BuildFailed PutFailed
      (mkRevision version_root (sorted_parents (match current_head with Some h => [h] | None => [] end)));;
    cas <~ updates match current_head with
                   | Some expected => li_swap head_path expected entry_hash (Some ctx)
                   | None => li_create head_path entry_hash (Some ctx)
                   end;;
    match cas with
    | Err _ => returns Contended
    | Ok _ =>
        branch <~ asks (λ s t, ab_hash ← li_get (rev_active_branch_path local_peer_id ph) t;
                               ab_entity ← store_get ab_hash s;
                               decode_active_branch_name ab_entity);;
        _ <~ match branch with
             | Some name => writes (λ t, (li_set_ctx (rev_branch_path local_peer_id ph name) entry_hash ctx t).2)
             | None => skip
             end;;
        returns SettledEmit
    end.

Fixpoint emit_loop (attempts : nat) (config : RevisionConfig) (ctx : ExecutionContext) (tracked_path head_path ph : list Z)
    : run unit :=
  match attempts with
  | O => throws LostHeadRaces
  | S attempts =>
      current_head <~ asks (λ _ t, li_get head_path t);;
      tracked <~ asks (λ _ t, li_get tracked_path t);;
      tracked_root <~ tries (ok_or TrackingMissing tracked);;
      outcome <~ try_emit_once config ctx head_path ph current_head tracked_root;;
      match outcome with
      | SettledEmit => skip
      | Contended => emit_loop attempts config ctx tracked_path head_path ph
      end
  end.

Definition auto_version_once (config : RevisionConfig) (ctx : ExecutionContext) : run unit :=
  let canonical := canonicalize_prefix (rc_prefix config) in
  let ph := prefix_hash (resolve_prefix (rc_prefix config) local_peer_id) in
  emit_loop MAX_HEAD_CAS_RETRIES config ctx (tracked_root_path canonical) (rev_head_path local_peer_id ph) ph.

(** * The engine as a hook *)

Definition revision_path_prefix : list Z := lit "/" ++ local_peer_id ++ lit "/system/revision/".

Definition load_auto_version_configs (s : St) (t : L) : list RevisionConfig :=
  omap (λ entry,
    if negb (is_prefix_config_path (le_path entry) revision_path_prefix) then None
    else
      entity ← store_get (le_hash entry) s;
      if negb (bool_decide (entity_type entity = lit "system/revision/config")) then None
      else config ← decode_revision_config (data entity); if auto_version config then Some config else None)
    (li_list revision_path_prefix t).

(** Read through the cache, which is handed on. *)
Definition cached_auto_version_configs (cache : option (list RevisionConfig)) (s : St) (t : L) : list RevisionConfig :=
  match cache with Some cached => cached | None => load_auto_version_configs s t end.

Definition matching_configs (bare_path : list Z) (configs : list RevisionConfig) : list RevisionConfig :=
  filter (λ c, config_matches bare_path c = true) configs.

Fixpoint version_each (configs : list RevisionConfig) (ctx : ExecutionContext) : run unit :=
  match configs with
  | [] => skip
  | config :: configs => _ <~ auto_version_once config ctx;; version_each configs ctx
  end.

(** Returns the cache; an error halts the cascade. *)
Definition on_tree_change (cache : option (list RevisionConfig)) (event : TreeChangeEvent) (ctx : ExecutionContext)
    : run (option (list RevisionConfig)) :=
  if starts_with (ev_path event) revision_path_prefix then
    returns (if is_prefix_config_path (ev_path event) revision_path_prefix then None else cache)
  else
    match strip_prefix (lit "/" ++ local_peer_id ++ lit "/") (ev_path event) with
    | None => returns cache
    | Some bare_path =>
        cached <~ asks (λ s t, cached_auto_version_configs cache s t);;
        _ <~ version_each (matching_configs bare_path cached) ctx;;
        returns (Some cached)
    end.
End engine.
