(* ===== verification/RevisionOps.v ===== *)
(** What the operations of the revision handler share ([extensions/revision/src/lib.rs]):
    snapshots of the live tree and of versions, applying a snapshot to the tree, deletion markers,
    and the commit.  A handler holds its prefix's lock, so here it runs alone. *)
From S2P Require Import Prelude BTree Ecf Cbor ContentHash Entity Store Trie Index Handler TrieSpec RootTracker RevisionDag.
From S2P Require Import RevisionMerge RevisionConfig AutoVersion.

(** * Errors and warnings *)

Record CascadeWarning := mkWarning { cw_path : list Z; consumer_halted : list Z; cw_error_code : Z }.

Definition collect_cascade_warnings (cascade : CascadeResult) (path : list Z) (warnings : list CascadeWarning)
    : result (list Z) (list CascadeWarning) :=
  if negb (binding_committed cascade) then Err path
  else Ok (warnings ++ map (λ halt, mkWarning path (consumer_name halt) (error_code halt)) (consumers_halted cascade)).

(** * Snapshots *)

Definition qualify_tree_prefix (prefix local_peer_id : list Z) : list Z :=
  if starts_with prefix (lit "/" ++ local_peer_id ++ lit "/") then prefix
  else lit "/" ++ local_peer_id ++ lit "/" ++ prefix.

Definition is_revision_path (local_peer_id path : list Z) : bool :=
  starts_with path (lit "/" ++ local_peer_id ++ lit "/system/revision/").

Definition snapshot_bindings_from_tree {L} `{LocationIndex L} (t : L) (prefix local_peer_id : list Z) : PathMap :=
  let tree_prefix := qualify_tree_prefix prefix local_peer_id in
  foldl (λ bindings entry,
    if is_revision_path local_peer_id (le_path entry) then bindings
    else
      let relative := default (le_path entry) (strip_prefix tree_prefix (le_path entry)) in
      if bool_decide (relative = []) then bindings else bt_insert relative (le_hash entry) bindings)
    [] (li_list tree_prefix t).

(** A failure under another name. *)
Definition mapped {E F St L A} (f : E → F) (m : Code E St L A) : Code F St L A :=
  λ s t, match m s t with
         | Done r s t => Done (map_err f r) s t
         | Stuck => Stuck
         end.

Section ops.
Context `{Sha2} `{Ciborium} {St : Type} `{ContentStore St} {L : Type} `{LocationIndex L}.
Context (home : Z) (local_peer_id : list Z) (fuel : nat).

Notation run := (Code HandlerError St L).

(** The trie of a version, flattened; a node that is not in the store is passed over. *)
Definition get_version_bindings (version_hash : Hash) : run PathMap :=
  version_entity <~ asks (λ s _, store_get version_hash s);;
  entry <~ tries (ok_or Internal (e ← version_entity; decode_revision_entry e));;
  collected <~ asks (λ s _, collect_all_bindings fuel (root entry) s);;
  unwraps collected.

(** * Applying a snapshot to the tree *)

Definition unbind (full_path : list Z) (warnings : list CascadeWarning) : Code (list Z) St L (list CascadeWarning) :=
  removed <~ updates (li_remove_ctx full_path default_context);;
  tries (collect_cascade_warnings removed.2 full_path warnings).

Definition bind_path (full_path : list Z) (h : Hash) (warnings : list CascadeWarning) : Code (list Z) St L (list CascadeWarning) :=
  cascade <~ updates (li_set_ctx full_path h default_context);;
  tries (collect_cascade_warnings cascade full_path warnings).

(** [Err] is the path of a write that the index refused. *)
Definition apply_snapshot_diff (prefix : list Z) (current target : PathMap) : Code (list Z) St L (list CascadeWarning) :=
  let tree_prefix := qualify_tree_prefix prefix local_peer_id in
  marker_hash <~ unwraps (canonical_deletion_marker_hash home);;
  warnings <~ fold_run (λ warnings rel_path,
      let in_target := bt_get rel_path target in
      if bool_decide (in_target = None) || bool_decide (in_target = Some marker_hash)
      then unbind (tree_prefix ++ rel_path) warnings
      else returns warnings)
    [] (map fst current);;
  fold_run (λ warnings '(rel_path, hash),
      if bool_decide (hash = marker_hash) then returns warnings
      else bind_path (tree_prefix ++ rel_path) hash warnings)
    warnings target.

(** * Deletion markers *)

(** [augmented.entry(path).or_insert(marker_hash)] over the paths *)
Definition mark_missing (marker_hash : Hash) (paths : list (list Z)) (target : PathMap) : PathMap :=
  foldl (λ augmented path, if bool_decide (is_Some (bt_get path augmented)) then augmented
                           else bt_insert path marker_hash augmented) target paths.

(** A marker that the store refuses is passed over. *)
Definition augment_bindings_with_markers {E} (target added_relative_to : PathMap) : Code E St L PathMap :=
  if negb (existsb (λ p, negb (bool_decide (is_Some (bt_get p target)))) (map fst added_relative_to)) then returns target
  else
    marker <~ unwraps (canonical_deletion_marker_entity home);;
    _ <~ (λ s t, Done (Ok tt) (store_put marker s).2 t);;
    marker_hash <~ unwraps (canonical_deletion_marker_hash home);;
    returns (mark_missing marker_hash (map fst added_relative_to) target).

(** * The prefix's own records *)

Definition read_active_branch (ph : list Z) (s : St) (t : L) : option (list Z) :=
  hash ← li_get (rev_active_branch_path local_peer_id ph) t;
  entity ← store_get hash s;
  decode_active_branch_name entity.

Definition load_prefix_config (ph : list Z) (s : St) (t : L) : option RevisionConfig :=
  hash ← li_get (rev_config_path local_peer_id ph) t;
  entity ← store_get hash s;
  decode_revision_config (data entity).

Definition prefix_hash_of (prefix : list Z) : list Z := prefix_hash (resolve_prefix prefix local_peer_id).

Definition auto_version_policy_for (prefix : list Z) (s : St) (t : L) : bool * list Z :=
  match load_prefix_config (prefix_hash_of prefix) s t with
  | Some cfg => (auto_version cfg, checkout_under_auto_version cfg)
  | None => (false, DEFAULT_CHECKOUT_POLICY)
  end.

(** An entity that cannot be built or stored leaves the branch as it was. *)
Definition set_active_branch (ph name : list Z) : run unit :=
  λ s t,
    match entity_new home (lit "system/revision/active-branch") (to_ecf (VMap [(text (lit "name"), text name)])) with
    | Err _ => Done (Ok tt) s t
    | Ok entity =>
        match store_put entity s with
        | (Ok hash, s) => Done (Ok tt) s (li_set (rev_active_branch_path local_peer_id ph) hash t)
        | (Err _, s) => Done (Ok tt) s t
        end
    end.

(** * Commit *)

(** Every entry called [name] that is a text is the name of a branch to move. *)
Definition names_in (m : list (Value * Value)) : list (list Z) :=
  omap (λ kv, if bool_decide (as_str kv.1 = Some (lit "name")) then as_str kv.2 else None) m.

Definition active_branches (ph : list Z) (s : St) (t : L) : list (list Z) :=
  default [] (ab_hash ← li_get (rev_active_branch_path local_peer_id ph) t;
              ab_entity ← store_get ab_hash s;
              val ← from_reader (data ab_entity);
              m ← as_map val;
              Some (names_in m)).

Definition perform_commit (prefix : list Z) : run (Hash * Hash * option Hash) :=
  let ph := prefix_hash_of prefix in
  raw_bindings <~ asks (λ _ t, snapshot_bindings_from_tree t prefix local_peer_id);;
  bindings <~ asks (λ s t, match load_prefix_config ph s t with
                           | Some cfg => filter_bindings cfg s raw_bindings
                           | None => raw_bindings
                           end);;
  let head_path := rev_head_path local_peer_id ph in
  current_head <~ asks (λ _ t, li_get head_path t);;
  head_entry <~ asks (λ s _, h ← current_head; entry_of s h);;
  bindings <~ match head_entry with
              | Some entry =>
                  parent_bindings <~ asks (λ s _, collect_all_bindings fuel (root entry) s);;
                  parent_bindings <~ unwraps parent_bindings;;
                  augment_bindings_with_markers bindings parent_bindings
              | None => returns bindings
              end;;
  root_hash <~ in_store (λ _, Internal) (build_trie home bindings);;
  head_entry <~ asks (λ s _, h ← current_head; entry_of s h);;
  match (head_hash ← current_head; entry ← head_entry;
         if bool_decide (root entry = root_hash) then Some (head_hash, hd_error (parents entry)) else None) with
  | Some (head_hash, parent) => returns (head_hash, root_hash, parent)
  | None =>
      version_hash <~ put_version home Internal Internal
        (mkRevision root_hash (sorted_parents (match current_head with Some h => [h] | None => [] end)));;
      _ <~ writes (li_set head_path version_hash);;
      names <~ asks (active_branches ph);;
      _ <~ writes (λ t, foldl (λ t name, li_set (rev_branch_path local_peer_id ph name) version_hash t) t names);;
      returns (version_hash, root_hash, current_head)
  end.
End ops.

(** * Lemmas *)

(** ** Filters and markers *)

Lemma filter_bindings_filter `{ContentStore St} config (s : St) M :
  bt_ok M → filter_bindings config s M = filter (λ kv, excluded config s kv.1 kv.2 = false) M.
Proof.
  intros HM. unfold filter_bindings.
  assert (Hf : ∀ (l : PathMap) acc,
    foldl (λ filtered kv, if excluded config s kv.1 kv.2 then filtered else bt_insert kv.1 kv.2 filtered) acc l
    = foldl (λ acc p, bt_insert p.1 p.2 acc) acc (filter (λ kv, excluded config s kv.1 kv.2 = false) l)).
  { unfold PathMap. induction l as [|kv l IH]; intros acc; [done|]. cbn [foldl]. rewrite IH, filter_cons.
    destruct (excluded config s kv.1 kv.2) eqn:E; [by rewrite decide_False|by rewrite decide_True]. }
  rewrite Hf. apply (bt_fold_insert _ []). by apply bt_filter_ok.
Qed.

Lemma filter_bindings_ok `{ContentStore St} config (s : St) M : bindings_ok M → bindings_ok (filter_bindings config s M).
Proof.
  intros [HM Hb]. rewrite filter_bindings_filter by done. split; [by apply bt_filter_ok|].
  rewrite Forall_forall in Hb |- *. intros kv [_ Hin]%list_elem_of_filter. by apply Hb.
Qed.

(** A configuration without exclusions keeps everything. *)
Lemma filter_bindings_id `{ContentStore St} config (s : St) M :
  bt_ok M → exclude config = [] → exclude_types config = [] → filter_bindings config s M = M.
Proof.
  intros HM He Ht. unfold filter_bindings, excluded. rewrite He, Ht. by apply (bt_fold_insert M []).
Qed.

Lemma mark_missing_get marker paths : ∀ target,
  bt_ok target →
  bt_ok (mark_missing marker paths target)
  ∧ ∀ p, bt_get p (mark_missing marker paths target)
         = match bt_get p target with Some h => Some h | None => if decide (p ∈ paths) then Some marker else None end.
Proof.
  unfold mark_missing. induction paths as [|q paths IH]; intros target Ht; cbn [foldl].
  { split; [done|]. intros p. by destruct (bt_get p target). }
  destruct (decide (is_Some (bt_get q target))) as [Hq|Hq].
  - rewrite (bool_decide_eq_true_2 _ Hq). destruct (IH target Ht) as [Hok Hg]. split; [done|]. intros p. rewrite Hg.
    destruct (bt_get p target) eqn:E; [done|]. assert (p ≠ q) by (intros ->; rewrite E in Hq; by destruct Hq).
    destruct (decide (p ∈ paths)), (decide (p ∈ q :: paths)); set_solver.
  - rewrite (bool_decide_eq_false_2 _ Hq). destruct (IH (bt_insert q marker target)) as [Hok Hg]; [by apply bt_insert_ok|].
    split; [done|]. intros p. rewrite Hg. destruct (decide (p = q)) as [->|Hne].
    + rewrite bt_get_insert_eq by done. destruct (bt_get q target) eqn:E; [by destruct Hq|].
      rewrite decide_True by by left. done.
    + rewrite bt_get_insert_ne by done. destruct (bt_get p target); [done|].
      destruct (decide (p ∈ paths)), (decide (p ∈ q :: paths)); set_solver.
Qed.

(** Where nothing is missing there is nothing to mark. *)
Lemma augment_same `{Sha2} {E St L} `{ContentStore St} home target (added : PathMap) (s : St) (t : L) :
  (∀ p, p ∈ map fst added → is_Some (bt_get p target)) →
  augment_bindings_with_markers (E := E) home target added s t = Done (Ok target) s t.
Proof.
  intros Hall. unfold augment_bindings_with_markers.
  replace (existsb _ (map fst added)) with false; [done|]. symmetry. apply not_true_iff_false.
  intros (p & Hp%list_elem_of_In & Hn)%existsb_exists. specialize (Hall p Hp).
  by rewrite (bool_decide_eq_true_2 _ Hall) in Hn.
Qed.

Lemma bt_get_is_Some_key {V} (m : list (list Z * V)) p : bt_ok m → p ∈ map fst m → is_Some (bt_get p m).
Proof.
  intros Hm ([k v] & -> & Hin)%list_elem_of_fmap. exists v. by apply bt_get_elem.
Qed.
