(* ===== verification/CommitSpec.v ===== *)
(** Commits and automatic versions agree ([perform_commit] of [extensions/revision/src/lib.rs],
    [auto_version_once] of [extensions/revision/src/engine.rs]): from one state they make the same
    version, so long as nothing has been unbound since the head. *)
From S2P Require Import Prelude BTree Ecf Cbor ContentHash Entity Store Trie Index Handler TrieSpec RootTracker RevisionDag.
From S2P Require Import RevisionMerge RevisionConfig AutoVersion RevisionOps.

(** The hash that the entity of a version has. *)
Definition version_entities `{Sha2} (home : Z) (d : RevisionEntryData) : list Entity :=
  match build_revision_entry home d with Ok e => [e] | Err _ => [] end.

Definition version_hash `{Sha2} (home : Z) (d : RevisionEntryData) : Hash :=
  match build_revision_entry home d with Ok e => content_hash e | Err _ => hash_zero end.

Section versions.
Context {St : Type} `{HT : ContentStore St} (wf : St → Prop) `{!ContentStoreOk St wf}.
Context `{HS : Sha2} `{!Sha2Ok} `{HC : Ciborium} `{!CiboriumDecodes} (home : Z).
Hypothesis Hhome : digest_len_for_format home ≠ None.
Context {L : Type} `{HL : LocationIndex L}.

Lemma store_run_lands {E A} En (e : TrieError → E) (m : Trie St A) s (t : L) Q :
  run_to wf En m s Q → lands (in_store e m) s t (λ a s' t', t' = t ∧ wf s' ∧ grows En s s' ∧ Q a s').
Proof. intros (a & s' & Em & Hw & Hg & HQ). exists a, s', t. unfold in_store. rewrite Em. done. Qed.

Lemma put_version_lands {E} (build put : E) d s (t : L) En :
  wf s → revision_ok d → fresh_for En s → (∀ e, e ∈ version_entities home d → e ∈ En) →
  lands (put_version home build put d) s t
    (λ v s' t', t' = t ∧ wf s' ∧ grows En s s' ∧ v = version_hash home d ∧ entry_of s' v = Some d).
Proof.
  intros Hw Hd Hf HE. unfold version_entities in HE.
  destruct (entity_new_encoded home TYPE_REVISION_ENTRY (revision_value d)) as (e & He & _ & Hdata & _ & _); [done..|].
  assert (Hb : build_revision_entry home d = Ok e) by (unfold build_revision_entry; by rewrite revision_fields_sorted).
  rewrite Hb in HE. assert (Hin : e ∈ En) by (apply HE; by left).
  destruct (store_put_get s e Hw (proj1 Hf e Hin)) as (s' & Hput & Hw' & Hget).
  exists (content_hash e), s', t. split.
  - unfold put_version. rewrite Hb. unfold andthen, tries, map_err. by rewrite Hput.
  - split_and!; [done|done| | |].
    + split; intros h e0; rewrite Hget; case_decide as Hh; auto.
      * subst h. intros Hs. f_equal. symmetry. by apply (proj1 Hf e Hin).
      * intros [= <-]. by right.
    + unfold version_hash. by rewrite Hb.
    + unfold entry_of. rewrite Hget, decide_True by done. cbn [mbind option_bind]. by apply decode_revision_value.
Qed.

Lemma entry_of_grows En s s' h e : grows En s s' → entry_of s h = Some e → entry_of s' h = Some e.
Proof.
  intros [Hg _]. unfold entry_of. destruct (store_get h s) as [x|] eqn:E; [|done]. by rewrite (Hg h x E).
Qed.
End versions.

(** * Where the head is *)

Lemma branch_is_not_head pid ph name : rev_branch_path pid ph name ≠ rev_head_path pid ph.
Proof.
  unfold rev_branch_path, rev_head_path, revision_path. intros Heq. by repeat apply app_inv_head in Heq.
Qed.

Lemma index_set_get_ne (t : PathMap) p q h : bt_ok t → p ≠ q → index_get (index_set t p h) q = index_get t q.
Proof.
  intros Ht Hne. unfold index_get, index_set. destruct (path_is_storable p); [|done]. cbn [negb].
  by apply bt_get_insert_ne.
Qed.

Lemma index_set_get_eq (t : PathMap) p h : bt_ok t → path_is_storable p = true → index_get (index_set t p h) p = Some h.
Proof. intros Ht Hp. unfold index_get, index_set. rewrite Hp. by apply bt_get_insert_eq. Qed.

(** What the branches that follow the head do to the index. *)
Lemma branches_get pid ph names h : ∀ t : PathMap,
  bt_ok t →
  let t' := foldl (λ t name, index_set t (rev_branch_path pid ph name) h) t names in
  bt_ok t' ∧ ∀ q, index_get t' q =
    if decide (path_is_storable q = true ∧ q ∈ map (rev_branch_path pid ph) names) then Some h else index_get t q.
Proof.
  induction names as [|name names IH]; intros t Ht; cbn [foldl map].
  { split; [done|]. intros q. by rewrite decide_False by (intros [_ []%elem_of_nil]). }
  destruct (IH (index_set t (rev_branch_path pid ph name) h)) as [Hok Hg]; [by apply index_set_ok|].
  split; [done|]. intros q. rewrite Hg. destruct (decide (q = rev_branch_path pid ph name)) as [->|Hne].
  - destruct (path_is_storable (rev_branch_path pid ph name)) eqn:Es.
    + rewrite (index_set_get_eq t) by done. rewrite (decide_True (P := _ ∧ _ ∈ _ :: _)) by (split; [done|by left]). by case_decide.
    + rewrite !decide_False by naive_solver. unfold index_set. by rewrite Es.
  - rewrite (index_set_get_ne t) by (done || congruence).
    rewrite (decide_ext (_ ∧ q ∈ map _ names) (path_is_storable q = true ∧ q ∈ rev_branch_path pid ph name :: map (rev_branch_path pid ph) names));
      [done|]. rewrite elem_of_cons. tauto.
Qed.

Lemma active_is_not_head pid ph : rev_active_branch_path pid ph ≠ rev_head_path pid ph.
Proof. unfold rev_active_branch_path, rev_head_path, revision_path. intros Heq. by repeat apply app_inv_head in Heq. Qed.

(** The first name is among the names. *)
Lemma name_field_in m name : name_field m = Some name → name ∈ names_in m.
Proof.
  induction m as [|[k v] m IH]; [done|]. cbn [name_field]. unfold names_in. cbn [omap list_omap fst snd].
  case_bool_decide; [intros ->; by left|]. exact IH.
Qed.

(** The active branch, once the head has moved and entities have come. *)
Section active.
Context `{HT : ContentStore St} `{HC : Ciborium}.

Lemma active_stays En pid ph (s s' : St) (t t' : PathMap) name :
  grows En s s' → index_get t' (rev_active_branch_path pid ph) = index_get t (rev_active_branch_path pid ph) →
  read_active_branch pid ph s t = Some name →
  read_active_branch pid ph s' t' = Some name ∧ name ∈ active_branches pid ph s' t'.
Proof.
  intros [Hg _] Ht. unfold read_active_branch, active_branches. change (li_get ?q ?u) with (index_get u q). rewrite Ht.
  destruct (index_get t _) as [h|]; [|done]. cbn [mbind option_bind]. destruct (store_get h s) as [e|] eqn:E; [|done].
  rewrite (Hg h e E). cbn [mbind option_bind]. intros Hd. split; [done|]. unfold decode_active_branch_name in Hd.
  destruct (from_reader (data e)) as [val|]; [|done]. cbn [mbind option_bind] in Hd |- *.
  destruct (as_map val) as [m|]; [|done]. cbn [mbind option_bind default] in Hd |- *. by apply name_field_in.
Qed.
End active.

Section agree.
Context {St : Type} `{HT : ContentStore St} (wf : St → Prop) `{!ContentStoreOk St wf}.
Context `{HS : Sha2} `{!Sha2Ok} `{HC : Ciborium} `{!CiboriumDecodes} (home : Z).
Hypothesis Hhome : digest_len_for_format home ≠ None.

(** The version that follows the head [current] when the root is [r]. *)
Definition next_entry (current : option Hash) (r : Hash) : RevisionEntryData :=
  mkRevision r (match current with Some h => [h] | None => [] end).

Definition next_version (s : St) (current : option Hash) (r : Hash) : Hash :=
  match current with
  | Some h =>
      if decide (root <$> entry_of s h = Some r) then h else version_hash home (next_entry current r)
  | None => version_hash home (next_entry current r)
  end.

(** The head is a version whose trie is in the store, and [B] still binds all that it bound. *)
Definition nothing_unbound (s : St) (current : option Hash) (B : PathMap) : Prop :=
  match current with
  | None => True
  | Some h => hash_ok h ∧ ∃ e MP, entry_of s h = Some e ∧ trie_at home s (root e) MP
                ∧ ∀ p, p ∈ map fst MP → is_Some (bt_get p B)
  end.

(** The entities that versioning the bindings [B] may put into the store. *)
Definition versioning_entities (current : option Hash) (B : PathMap) : list Entity :=
  build_nodes home B ++ version_entities home (next_entry current (trie_root home B)).

(** The head has the root already. *)
Definition settled (s : St) (current : option Hash) (r : Hash) : Prop := root <$> (current ≫= entry_of s) = Some r.

(** The head is at the version, the version has the root, and its trie is the bindings.  Unless the
    head had the root already, where nothing is written, the active branch is at the version too; no
    path but the head and the prefix's branches has moved. *)
Definition version_landed (id ph : list Z) (s : St) (t : PathMap) (B : PathMap) (s' : St) (t' : PathMap) : Prop :=
  let hp := rev_head_path id ph in
  let current := index_get t hp in
  let v := next_version s current (trie_root home B) in
  index_get t' hp = Some v ∧ (∃ e, entry_of s' v = Some e ∧ root e = trie_root home B)
  ∧ trie_at home s' (trie_root home B) B
  ∧ (settled s current (trie_root home B) → t' = t)
  ∧ (¬ settled s current (trie_root home B) → ∀ name, read_active_branch id ph s t = Some name →
       path_is_storable (rev_branch_path id ph name) = true → index_get t' (rev_branch_path id ph name) = Some v)
  ∧ ∀ q, q ≠ hp → (∀ name, q ≠ rev_branch_path id ph name) → index_get t' q = index_get t q.

Lemma next_entry_ok s s1 current B h :
  nothing_unbound s current B → trie_at home s1 h B → revision_ok (next_entry current h).
Proof.
  intros Hn Ha. split_and!; [by eapply (trie_root_ok home Hhome)| |].
  - destruct current as [c|]; [|constructor]. apply Forall_cons_2; [apply Hn|apply Forall_nil_2].
  - by destruct current.
Qed.

Lemma sorted_single (current : option Hash) :
  sorted_parents (match current with Some h => [h] | None => [] end) = match current with Some h => [h] | None => [] end.
Proof. by destruct current. Qed.

(** Marking what has been unbound changes nothing. *)
Lemma mark_nothing {E} fuel current B (s : St) (t : PathMap) :
  nothing_unbound s current B → (MAX_LEVELS < fuel)%nat →
  (match h ← current; entry_of s h with
   | Some entry =>
       parent_bindings <~ asks (λ s _, collect_all_bindings fuel (root entry) s);;
       parent_bindings <~ unwraps parent_bindings;;
       augment_bindings_with_markers home B parent_bindings
   | None => returns B
   end : Code E St PathMap PathMap) s t = Done (Ok B) s t.
Proof.
  intros Hun Hfuel. destruct current as [c|]; [|done]. destruct Hun as (_ & e & MP & He & Ha & Hall).
  cbn [mbind option_bind]. rewrite He. unfold andthen, asks, unwraps.
  rewrite (trie_at_collect home Hhome _ _ _ _ Ha Hfuel). by apply augment_same.
Qed.

(** The root is at the head already, or a version with that root is to be made. *)
Lemma next_version_cases En s s1 current B :
  nothing_unbound s current B → grows En s s1 →
  (∃ c e, current = Some c ∧ entry_of s1 c = Some e ∧ root e = trie_root home B
     ∧ next_version s current (trie_root home B) = c ∧ settled s current (trie_root home B))
  ∨ ¬ settled s current (trie_root home B) ∧ next_version s current (trie_root home B) = version_hash home (next_entry current (trie_root home B))
    ∧ ∀ c e, current = Some c → entry_of s1 c = Some e → root e ≠ trie_root home B.
Proof.
  intros Hun Hg. unfold settled. destruct current as [c|]; [|by right]. destruct Hun as (_ & e & MP & He & _ & _).
  pose proof (entry_of_grows _ _ _ _ _ Hg He) as He1. unfold next_version. cbn [mbind option_bind]. rewrite He. cbn [fmap option_fmap option_map].
  destruct (decide (Some (root e) = Some (trie_root home B))) as [Heq|Hne].
  - left. exists c, e. split_and!; [done|done|congruence|done|done].
  - right. split_and!; [done|done|]. intros c' e' [= <-]. rewrite He1. intros [= <-] Heq. congruence.
Qed.

(** Where nothing is to be done. *)
Lemma settled_landed id ph s t B s' c e :
  let current := index_get t (rev_head_path id ph) in
  current = Some c → entry_of s' c = Some e → root e = trie_root home B →
  next_version s current (trie_root home B) = c → settled s current (trie_root home B) → trie_at home s' (trie_root home B) B →
  version_landed id ph s t B s' t.
Proof.
  intros current Ec He Hr Hv Hset Ha. unfold version_landed. fold current. rewrite Hv. split_and!; [done|by exists e|done|done|done|done].
Qed.

(** Where the head has been moved, and then the branches. *)
Lemma moved_landed id ph s t B s' (t1 t' : PathMap) :
  let hp := rev_head_path id ph in
  let current := index_get t hp in
  let v := next_version s current (trie_root home B) in
  ¬ settled s current (trie_root home B) → index_get t1 hp = Some v →
  (∃ e, entry_of s' v = Some e ∧ root e = trie_root home B) → trie_at home s' (trie_root home B) B →
  (∀ name, read_active_branch id ph s t = Some name → path_is_storable (rev_branch_path id ph name) = true →
     index_get t' (rev_branch_path id ph name) = Some v) →
  (∀ q, (∀ name, q ≠ rev_branch_path id ph name) → index_get t' q = index_get t1 q) →
  (∀ q, q ≠ hp → index_get t1 q = index_get t q) →
  version_landed id ph s t B s' t'.
Proof.
  intros hp current v Hset Hh He Ha Hb Hq Ht. unfold version_landed. fold hp current v. split_and!; [|done|done|done|done|].
  - rewrite Hq; [done|]. intros name Heq. symmetry in Heq. by apply branch_is_not_head in Heq.
  - intros q Hne Hn. rewrite Hq, Ht; done.
Qed.

Section commit.
Context (id : list Z) (fuel : nat) (prefix : list Z) (s : St) (t : PathMap).
Let ph := prefix_hash_of id prefix.
Let hp := rev_head_path id ph.
Let current := index_get t hp.
Let M := snapshot_bindings_from_tree t prefix id.
Let B := match load_prefix_config id ph s t with Some cfg => filter_bindings cfg s M | None => M end.

Lemma commit_lands :
  wf s → bt_ok t → (MAX_LEVELS < fuel)%nat → path_is_storable hp = true → bindings_ok B →
  separable MAX_LEVELS 0 B = true → nothing_unbound s current B → fresh_for (versioning_entities current B) s →
  lands (perform_commit home id fuel prefix) s t (λ r s' t',
    r.1 = (next_version s current (trie_root home B), trie_root home B) ∧ version_landed id ph s t B s' t').
Proof.
  intros Hw Ht Hfuel Hsto HB Hsep Hun Hf. unfold perform_commit. fold ph hp.
  run_step. run_step. fold M. fold B. run_step. run_step. change (li_get hp t) with current.
  eapply lands_then; [by apply mark_nothing|].
  eapply lands_bind.
  { apply (store_run_lands wf (versioning_entities current B)), (build_canon wf home Hhome); [done|done|done|done|].
    intros a b e HM He. apply elem_of_app. left. by eapply build_nodes_prefix. }
  intros r s1 t1 (-> & Hw1 & Hg1 & Ha1). pose proof Ha1 as [-> _]. run_step.
  destruct (next_version_cases _ s s1 current B Hun Hg1) as [(c & e & Ec & He & Hr & Hv & Hset)|(Hset & Hv & Hne)].
  - rewrite Ec. cbn [mbind option_bind]. rewrite He. cbn [mbind option_bind]. rewrite bool_decide_eq_true_2 by done.
    apply lands_returns. rewrite <-Ec, Hv. split; [done|]. eapply settled_landed; [exact Ec|exact He|exact Hr|exact Hv|exact Hset|done].
  - assert (Hnone : (head_hash ← current; entry ← (h ← current; entry_of s1 h);
                     if bool_decide (root entry = trie_root home B) then Some (head_hash, hd_error (parents entry)) else None) = None).
    { destruct current as [c|]; [|done]. cbn [mbind option_bind]. destruct (entry_of s1 c) as [e|] eqn:He; [|done].
      cbn [mbind option_bind]. rewrite bool_decide_eq_false_2 by eauto. done. }
    rewrite Hnone.
    rewrite sorted_single. eapply lands_bind.
    { apply (put_version_lands wf home Hhome _ _ _ _ _ (versioning_entities current B)); [done|by eapply next_entry_ok|by eapply fresh_grows|].
      intros e He. apply elem_of_app. by right. }
    intros v s2 t2 (-> & Hw2 & Hg2 & -> & He2). run_step. run_step. run_step. apply lands_returns. cbn [fst snd].
    split; [by rewrite Hv|]. set (v := version_hash home (next_entry current (trie_root home B))) in *.
    assert (Ht1 : bt_ok (index_set t hp v)) by by apply index_set_ok.
    destruct (branches_get id ph (active_branches id ph s2 (li_set hp v t)) v _ Ht1) as [_ Hb].
    eapply (moved_landed id ph s t B s2 (index_set t hp v)); fold hp current; [exact Hset|rewrite Hv; fold v; by apply (index_set_get_eq t)| | | | |].
    + rewrite Hv. fold v. by eexists.
    + by eapply trie_at_grows.
    + intros name Hn Hs. etrans; [exact (Hb _)|]. rewrite Hv. fold v. apply decide_True. split; [done|]. apply list_elem_of_fmap. eexists. split; [done|].
      eapply (active_stays (versioning_entities current B)); [| |exact Hn].
      * by eapply grows_trans.
      * apply (index_set_get_ne t); [done|]. by apply not_eq_sym, active_is_not_head.
    + intros q Hq. etrans; [exact (Hb _)|]. rewrite decide_False; [done|]. intros [_ (name & -> & _)%list_elem_of_fmap]. by apply (Hq name).
    + intros q Hq. by apply (index_set_get_ne t).
Qed.
End commit.

Section emit.
Context (id : list Z) (fuel : nat) (config : RevisionConfig) (ctx : ExecutionContext) (s : St) (t : PathMap).
Context (ph : list Z) (r : Hash) (M : PathMap).
Let hp := rev_head_path id ph.
Let current := index_get t hp.
Let B := filter_bindings config s M.

Lemma filtered_root_lands :
  wf s → trie_at home s r M → (MAX_LEVELS < fuel)%nat → separable MAX_LEVELS 0 B = true →
  fresh_for (versioning_entities current B) s →
  lands (filtered_root home fuel r config) s t (λ r' s' t',
    r' = trie_root home B ∧ t' = t ∧ wf s' ∧ grows (versioning_entities current B) s s' ∧ trie_at home s' (trie_root home B) B).
Proof.
  intros Hw Ha Hfuel Hsep Hf. unfold filtered_root.
  pose proof Ha as (_ & HM & _ & _). destruct (decide (exclude config = [] ∧ exclude_types config = [])) as [[He Ht]|Hne].
  - rewrite !bool_decide_eq_true_2 by done. cbn [andb]. apply lands_returns.
    assert (HB : B = M) by (apply filter_bindings_id; [apply HM|done|done]). rewrite HB.
    pose proof Ha as [-> _]. split_and!; [done|done|done|apply grows_refl|done].
  - replace (bool_decide _ && bool_decide _) with false.
    2: { symmetry. apply andb_false_iff. rewrite !bool_decide_eq_false. destruct (decide (exclude config = [])); [right|by left].
         intros Ht. by apply Hne. }
    run_step. rewrite (trie_at_collect home Hhome _ _ _ _ Ha Hfuel). run_step. run_step. fold B. eapply lands_mono.
    { apply (store_run_lands wf (versioning_entities current B)), (build_canon wf home Hhome);
        [by apply filter_bindings_ok|done|done|done|].
      intros a b e HB He. apply elem_of_app. left. by eapply build_nodes_prefix. }
    intros r' s' t' (-> & Hw' & Hg & Ha'). pose proof Ha' as [-> _]. done.
Qed.

Lemma emit_lands attempts tracked_path :
  wf s → bt_ok t → (MAX_LEVELS < fuel)%nat → separable MAX_LEVELS 0 B = true →
  index_get t tracked_path = Some r → trie_at home s r M →
  nothing_unbound s current B → fresh_for (versioning_entities current B) s →
  lands (emit_loop home id fuel (S attempts) config ctx tracked_path hp ph) s t (λ _ s' t', version_landed id ph s t B s' t').
Proof.
  intros Hw Ht Hfuel Hsep Htr Ha Hun Hf. cbn [emit_loop]. run_step. run_step.
  change (li_get tracked_path t) with (index_get t tracked_path). rewrite Htr. run_step.
  change (li_get hp t) with current. unfold try_emit_once.
  eapply lands_bind with (Q := λ o s' t', o = SettledEmit ∧ version_landed id ph s t B s' t').
  2: { intros o s' t' [-> Hv]. by apply lands_returns. }
  eapply lands_bind; [by apply filtered_root_lands|]. intros ? s1 ? (-> & -> & Hw1 & Hg1 & Ha1). run_step.
  destruct (next_version_cases _ s s1 current B Hun Hg1) as [(c & e & Ec & He & Hr & Hv & Hset)|(Hset & Hv & Hne)].
  - rewrite Ec. cbn [mbind option_bind]. rewrite He. rewrite bool_decide_eq_true_2 by done.
    apply lands_returns. split; [done|]. eapply settled_landed; [exact Ec|exact He|exact Hr|exact Hv|exact Hset|done].
  - replace (match (h ← current; entry_of s1 h) with Some entry => bool_decide (root entry = trie_root home B) | None => false end) with false.
    2: { symmetry. destruct current as [c|]; [|done]. cbn [mbind option_bind]. destruct (entry_of s1 c) as [e|] eqn:He; [|done].
         apply bool_decide_eq_false_2. eauto. }
    rewrite sorted_single. fold (next_entry current (trie_root home B)). eapply lands_bind.
    { apply (put_version_lands wf home Hhome _ _ _ _ _ (versioning_entities current B)); [done|by eapply next_entry_ok|by eapply fresh_grows|].
      intros e He. apply elem_of_app. by right. }
    intros v s2 ? (-> & Hw2 & Hg2 & -> & He2).
    set (v := version_hash home (next_entry current (trie_root home B))) in *.
    assert (Hcas : ∃ t', (match current with
                          | Some expected => li_swap hp expected v (Some ctx)
                          | None => li_create hp v (Some ctx) end : PathMap → _) t = (Ok tt, t') ∧ bt_ok t' ∧ ∀ q, index_get t' q = if decide (q = hp) then Some v else index_get t q).
    { destruct current as [c|] eqn:Ec.
      - pose proof (li_swap_get hp c v (Some ctx) t Ht) as Hs. change (li_get hp t) with current in Hs. rewrite Ec, decide_True in Hs by done.
        destruct Hs as (t' & Es & Ht' & Hg'). exists t'. split; [exact Es|]. split; [done|]. exact Hg'.
      - pose proof (li_create_get hp v (Some ctx) t Ht) as Hs. change (li_get hp t) with current in Hs. rewrite Ec in Hs.
        destruct Hs as (t' & Es & Ht' & Hg'). exists t'. split; [exact Es|]. split; [done|]. exact Hg'. }
    destruct Hcas as (t' & Ecas & Ht' & Hhp).
    eapply lands_then; [unfold updates; by rewrite Ecas|]. cbv beta. run_step.
    assert (Hact : index_get t' (rev_active_branch_path id ph) = index_get t (rev_active_branch_path id ph)).
    { rewrite Hhp. apply decide_False. apply active_is_not_head. }
    assert (Hgs : grows (versioning_entities current B) s s2) by by eapply grows_trans.
    eapply lands_bind with (Q := λ _ s' t3, s' = s2 ∧ (∀ name, read_active_branch id ph s2 t' = Some name →
        path_is_storable (rev_branch_path id ph name) = true → index_get t3 (rev_branch_path id ph name) = Some v)
      ∧ ∀ q, (∀ name, q ≠ rev_branch_path id ph name) → index_get t3 q = index_get t' q).
    + change (ab_hash ← _; _) with (read_active_branch id ph s2 t'). destruct (read_active_branch id ph s2 t') as [name|].
      * eexists _, _, _. split; [reflexivity|]. split_and!; [done|intros ? [= <-] Hs; by apply (index_set_get_eq t')|].
        intros q Hq. apply (index_set_get_ne t'); [done|]. intros <-. by apply (Hq name).
      * by eexists _, _, _.
    + intros _ s' t3 (-> & Hbr & Hq). apply lands_returns. split; [done|].
      eapply (moved_landed id ph s t B s2 t'); fold hp current; [exact Hset| | | |rewrite Hv|exact Hq|].
      * rewrite Hv, Hhp. by apply decide_True.
      * rewrite Hv. by eexists.
      * by refine (trie_at_grows _ _ _ _ _ _ Hg2 Ha1).
      * intros name Hn. apply Hbr. by eapply active_stays.
      * intros q Hx. rewrite Hhp. by apply decide_False.
Qed.
End emit.
End agree.

(** * Properties *)

(** C34. A commit and an automatic version agree.  When the tracked root is that of the live
    bindings and the head's bindings are still bound, both make the same version of the same
    state: that of the bindings that the configuration keeps, or the head itself if it has their
    root already.  Both leave the head there.  If it was there already, neither writes anything;
    otherwise both move the active branch to the version, where it has a name and a path that the
    index takes, and no path but the head and the prefix's branches has moved. *)
Theorem commit_and_auto_version_agree {St} `{HT : ContentStore St} (wf : St → Prop) `{!ContentStoreOk St wf}
    `{HS : Sha2} `{!Sha2Ok} `{HC : Ciborium} `{!CiboriumDecodes} (home : Z) id fuel config ctx (s : St) (t : PathMap) r :
  let prefix := rc_prefix config in
  let ph := prefix_hash_of id prefix in
  let hp := rev_head_path id ph in
  let current := index_get t hp in
  let M := snapshot_bindings_from_tree t prefix id in
  let B := filter_bindings config s M in
  digest_len_for_format home ≠ None → wf s → bt_ok t → (MAX_LEVELS < fuel)%nat → path_is_storable hp = true →
  load_prefix_config id ph s t = Some config →
  index_get t (tracked_root_path id (canonicalize_prefix prefix)) = Some r → trie_at home s r M →
  separable MAX_LEVELS 0 B = true → nothing_unbound home s current B → fresh_for (versioning_entities home current B) s →
  ∃ v parent s1 t1 s2 t2,
    perform_commit home id fuel prefix s t = Done (Ok (v, trie_root home B, parent)) s1 t1
    ∧ auto_version_once home id fuel config ctx s t = Done (Ok tt) s2 t2
    ∧ index_get t1 hp = Some v ∧ index_get t2 hp = Some v
    ∧ (∃ e, entry_of s1 v = Some e ∧ root e = trie_root home B) ∧ (∃ e, entry_of s2 v = Some e ∧ root e = trie_root home B)
    ∧ (settled s current (trie_root home B) → t1 = t ∧ t2 = t)
    ∧ (¬ settled s current (trie_root home B) → ∀ name, read_active_branch id ph s t = Some name →
         path_is_storable (rev_branch_path id ph name) = true →
         index_get t1 (rev_branch_path id ph name) = Some v ∧ index_get t2 (rev_branch_path id ph name) = Some v)
    ∧ ∀ q, q ≠ hp → (∀ name, q ≠ rev_branch_path id ph name) → index_get t1 q = index_get t q ∧ index_get t2 q = index_get t q.
Proof.
  intros prefix ph hp current M B Hhome Hw Ht Hfuel Hsto Hcfg Htr Ha Hsep Hun Hf.
  assert (HB : bindings_ok B) by (apply filter_bindings_ok, Ha).
  destruct (commit_lands wf home Hhome id fuel prefix s t) as ([[v r'] parent] & s1 & t1 & Ec & Hr & H1); fold ph hp current M;
    rewrite ?Hcfg; try done.
  fold ph hp current M in Hr, H1. rewrite Hcfg in Hr, H1. fold B in Hr, H1. cbn [fst] in Hr. injection Hr as -> ->.
  destruct (emit_lands wf home Hhome id fuel config ctx s t ph r M (pred MAX_HEAD_CAS_RETRIES)
    (tracked_root_path id (canonicalize_prefix prefix))) as ([] & s2 & t2 & Ee & H2); [done..|].
  fold hp current B in H2. destruct H1 as (Hh1 & He1 & _ & Hs1 & Hb1 & Hq1), H2 as (Hh2 & He2 & _ & Hs2 & Hb2 & Hq2).
  fold hp current in Hs1, Hb1, Hs2, Hb2.
  eexists _, parent, s1, t1, s2, t2. split; [exact Ec|]. split; [exact Ee|]. split_and!; [exact Hh1|exact Hh2|exact He1|exact He2|auto|auto|].
  intros q Hq Hn. split; [by apply Hq1|by apply Hq2].
Qed.

(** * Witnesses *)

Definition docs_config : RevisionConfig := mkRevisionConfig (lit "docs/") true DEFAULT_MERGE_ORDER None [lit "tmp/*"] [] DEFAULT_CHECKOUT_POLICY.

Definition docs_config_value : Value :=
  VMap [(text (lit "auto_version"), bool_val true); (text (lit "exclude"), VArray [text (lit "tmp/*")]);
        (text (lit "prefix"), text (lit "docs/"))].

(** A tree with a configuration, an active branch and two documents, of which one is excluded, and
    its tracked root. *)
Definition docs_state : ContentMap * PathMap := Eval vm_compute in
  let S := sum_sha2 in let C := ref_ciborium in
  match entity_new 0 (lit "system/revision/config") (to_ecf docs_config_value),
        entity_new 0 (lit "system/revision/active-branch") (to_ecf (VMap [(text (lit "name"), text (lit "main"))])) with
  | Ok e, Ok b =>
      let '(h, s) := content_put [] e in
      let '(hb, s) := content_put s b in
      let t := index_set [] (rev_config_path demo_id (prefix_hash_of demo_id (lit "docs/"))) h in
      let t := index_set t (rev_active_branch_path demo_id (prefix_hash_of demo_id (lit "docs/"))) hb in
      let t := index_set t (lit "/" ++ demo_id ++ lit "/docs/a") (demo_hash 1) in
      let t := index_set t (lit "/" ++ demo_id ++ lit "/docs/tmp/b") (demo_hash 2) in
      match rebuild_prefix (St := ContentMap) 0 demo_id (lit "docs/") s t with
      | Done (Ok tt) s t => (s, t)
      | _ => ([], [])
      end
  | _, _ => ([], [])
  end.

Lemma commit_and_auto_version_agree_witness :
  let S := sum_sha2 in let C := ref_ciborium in
  let '(s, t) := docs_state in
  let hp := rev_head_path demo_id (prefix_hash_of demo_id (lit "docs/")) in
  let main := rev_branch_path demo_id (prefix_hash_of demo_id (lit "docs/")) (lit "main") in
  ∃ v parent s1 t1 s2 t2,
    perform_commit 0 demo_id 60 (lit "docs/") s t = Done (Ok (v, trie_root 0 [(lit "a", demo_hash 1)], parent)) s1 t1
    ∧ auto_version_once 0 demo_id 60 docs_config default_context s t = Done (Ok tt) s2 t2
    ∧ index_get t1 hp = Some v ∧ index_get t2 hp = Some v
    ∧ index_get t1 main = Some v ∧ index_get t2 main = Some v.
Proof.
  intros S C. cbv beta iota delta [docs_state]. intros hp main.
  destruct (@commit_and_auto_version_agree ContentMap memory_store bt_ok memory_store_ok S sum_sha2_ok C ref_ciborium_decodes 0
    demo_id 60 docs_config default_context docs_state.1 docs_state.2
    (default hash_zero (index_get docs_state.2 (tracked_root_path demo_id (lit "docs")))))
    as (v & parent & s1 & t1 & s2 & t2 & Ec & Ee & H1 & H2 & _ & _ & _ & Hb & _).
  - discriminate.
  - apply (bool_decide_eq_true_1 _). vm_compute. reflexivity.
  - apply (bool_decide_eq_true_1 _). vm_compute. reflexivity.
  - apply Nat.leb_le. reflexivity.
  - vm_compute. reflexivity.
  - vm_compute. reflexivity.
  - vm_compute. reflexivity.
  - apply trie_stored_sound; [|vm_compute; reflexivity].
    assert (Hm : snapshot_bindings_from_tree docs_state.2 (lit "docs/") demo_id = [(lit "a", demo_hash 1); (lit "tmp/b", demo_hash 2)])
      by (vm_compute; reflexivity).
    cbn [docs_config rc_prefix]. rewrite Hm. split; [repeat constructor|].
    repeat (apply Forall_cons_2 || apply Forall_nil_2);
      (split; [apply key_ok_check; reflexivity|apply demo_hash_ok; unfold byte_ok; lia]).
  - vm_compute. reflexivity.
  - exact I.
  - apply no_clash_fresh. vm_compute. reflexivity.
  - exists v, parent, s1, t1, s2, t2.
    assert (Hr : trie_root 0 (filter_bindings docs_config docs_state.1 (snapshot_bindings_from_tree docs_state.2 (lit "docs/") demo_id))
                 = trie_root 0 [(lit "a", demo_hash 1)]) by (vm_compute; reflexivity).
    cbn [docs_config rc_prefix] in Ec. rewrite Hr in Ec. split; [exact Ec|]. split; [exact Ee|]. split; [exact H1|]. split; [exact H2|].
    apply Hb; [vm_compute; discriminate|vm_compute; reflexivity|vm_compute; reflexivity].
Defined.

(** The versions that a commit and the engine make of one state, where both make one. *)
Definition both_versions (prefix : list Z) (config : RevisionConfig) (s : ContentMap) (t : PathMap)
    : option (Hash * option Hash) :=
  let S := sum_sha2 in let C := ref_ciborium in
  match perform_commit 0 demo_id 60 prefix s t, auto_version_once 0 demo_id 60 config default_context s t with
  | Done (Ok (v, _, _)) _ _, Done (Ok tt) _ t' => Some (v, index_get t' (rev_head_path demo_id (prefix_hash_of demo_id prefix)))
  | _, _ => None
  end.

Definition agree (o : option (Hash * option Hash)) : option bool :=
  '(v, w) ← o; Some (bool_decide (w = Some v)).

(** Once something has been unbound the two part: a commit marks it as deleted, the engine does
    not. *)
Example deletion_divides :
  let S := sum_sha2 in let C := ref_ciborium in
  let '(s, t) := docs_state in
  match perform_commit 0 demo_id 60 (lit "docs/") s t with
  | Done (Ok _) s t =>
      match rebuild_prefix 0 demo_id (lit "docs/") s (index_remove t (lit "/" ++ demo_id ++ lit "/docs/a")).2 with
      | Done (Ok tt) s t' => (agree (both_versions (lit "docs/") docs_config s t), agree (both_versions (lit "docs/") docs_config s t'))
      | _ => (None, None)
      end
  | _ => (None, None)
  end = (Some true, Some false).
Proof. vm_compute. reflexivity. Qed.

(** A prefix without its slash names other relative paths to the commit than to the tracker. *)
Example slashless_prefix_divides :
  let S := sum_sha2 in let C := ref_ciborium in
  let config := mkRevisionConfig (lit "docs") true DEFAULT_MERGE_ORDER None [] [] DEFAULT_CHECKOUT_POLICY in
  let '(s, t) := docs_state in
  (is_ok (validate_revision_config config), agree (both_versions (lit "docs") config s t)) = (true, Some false).
Proof. vm_compute. reflexivity. Qed.

(** A path that the configuration comes to exclude is marked as deleted though it is bound. *)
Example excluded_marked_deleted :
  let S := sum_sha2 in let C := ref_ciborium in
  let '(s, t) := docs_state in
  let cfg := rev_config_path demo_id (prefix_hash_of demo_id (lit "docs/")) in
  match perform_commit 0 demo_id 60 (lit "docs/") s (index_remove t cfg).2 with
  | Done (Ok _) s t' =>
      match perform_commit 0 demo_id 60 (lit "docs/") s (index_set t' cfg (default hash_zero (index_get t cfg))) with
      | Done (Ok (_, r, _)) s t => (b ← collect_all_bindings 60 r s; bt_get (lit "tmp/b") b) = canonical_deletion_marker_hash 0
                                 ∧ is_Some (index_get t (lit "/" ++ demo_id ++ lit "/docs/tmp/b"))
      | _ => False
      end
  | _ => False
  end.
Proof. vm_compute. split; [reflexivity|by eexists]. Qed.
