(* ===== verification/RevisionHandler.v ===== *)
(** The operations of the revision handler that move the head: commit, checkout, merge, resolve,
    cherry-pick and revert ([extensions/revision/src/lib.rs]), with their parameters and results.

    [params] are the data of the request's parameter entity.  Locks are not modelled: a handler
    holds the lock of its prefix from the first read to the last write. *)
From stdpp Require Import pretty.
From S2P Require Import Prelude BTree Ecf Cbor ContentHash Entity Store Trie Index Handler TrieSpec RootTracker RevisionDag.
From S2P Require Import RevisionMerge RevisionConfig AutoVersion RevisionOps.

(** * Parameters *)

Definition params_map `{Ciborium} (d : list Z) : result HandlerError (list (Value * Value)) :=
  match from_reader d with
  | Some val => ok_or InvalidParams (as_map val)
  | None => Err InvalidParams
  end.

(** The loops over the parameters: of repeated keys the last counts, and bytes that are no hash
    take back the one before. *)
Definition last_text (name : list Z) (m : list (Value * Value)) : option (list Z) :=
  foldl (λ acc kv, if bool_decide (as_str kv.1 = Some name) then as_str kv.2 else acc) None m.
Definition last_hash (name : list Z) (m : list (Value * Value)) : option Hash :=
  foldl (λ acc kv, if bool_decide (as_str kv.1 = Some name) then
                     match kv.2 with VBytes b => ok (from_bytes b) | _ => acc end
                   else acc) None m.
Definition last_flag (name : list Z) (m : list (Value * Value)) : bool :=
  foldl (λ acc kv, if bool_decide (as_str kv.1 = Some name) then default false (as_bool_val kv.2) else acc) false m.

Definition required {A} (o : option A) : result HandlerError A := ok_or InvalidParams o.

Definition decode_commit_params `{Ciborium} (d : list Z) : result HandlerError (list Z) :=
  m ← params_map d; required (last_text (lit "prefix") m).

Record CheckoutParams := mkCheckout { co_prefix : list Z; co_branch : option (list Z); co_version : option Hash }.

Definition decode_checkout_params `{Ciborium} (d : list Z) : result HandlerError CheckoutParams :=
  m ← params_map d;
  prefix ← required (last_text (lit "prefix") m);
  Ok (mkCheckout prefix (last_text (lit "branch") m) (last_hash (lit "version") m)).

Record MergeParams := mkMergeParams {
  mp_prefix : list Z; remote_version : Hash; mp_strategy : option (list Z); dry_run : bool;
  mp_merge_order : option (list Z);
}.

Definition decode_merge_params `{Ciborium} (d : list Z) : result HandlerError MergeParams :=
  m ← params_map d;
  prefix ← required (last_text (lit "prefix") m);
  remote_version ← required (last_hash (lit "remote_version") m);
  Ok (mkMergeParams prefix remote_version (last_text (lit "strategy") m) (last_flag (lit "dry_run") m)
        (last_text (lit "merge_order") m)).

Record ResolveParams := mkResolve { rs_prefix : list Z; rs_path : list Z; resolved : option Hash }.

Definition decode_resolve_params `{Ciborium} (d : list Z) : result HandlerError ResolveParams :=
  m ← params_map d;
  prefix ← required (last_text (lit "prefix") m);
  path ← required (last_text (lit "path") m);
  Ok (mkResolve prefix path (last_hash (lit "resolved") m)).

Record VersionOpParams := mkVersionOp { vop_prefix : list Z; vop_version : Hash; vop_parent : option Hash }.

Definition decode_version_op_params `{Ciborium} (d : list Z) : result HandlerError VersionOpParams :=
  m ← params_map d;
  prefix ← required (last_text (lit "prefix") m);
  version ← required (last_hash (lit "version") m);
  Ok (mkVersionOp prefix version (last_hash (lit "parent") m)).

(** * Results *)

(** [to_string] of an unsigned integer *)
Definition decimal (n : Z) : list Z := lit (pretty (Z.to_N n)).

Definition encode_cascade_warnings (warnings : list CascadeWarning) : option Value :=
  if bool_decide (length warnings = 0)%nat then None
  else Some (VArray (map (λ w, VMap [(text (lit "consumer_halted"), text (consumer_halted w));
                                     (text (lit "error_code"), text (decimal (cw_error_code w)));
                                     (text (lit "path"), text (cw_path w))]) warnings)).

Definition field (name : list Z) (v : option Value) : list (Value * Value) :=
  match v with Some v => [(text name, v)] | None => [] end.
Definition count_field (name : list Z) (n : nat) : list (Value * Value) :=
  if (n =? 0)%nat then [] else [(text name, integer (Z.of_nat n))].

Section handler.
Context `{Sha2} `{Ciborium} {St : Type} `{ContentStore St} {L : Type} `{LocationIndex L}.
Context (home : Z) (local_peer_id : list Z) (fuel dfuel : nat).

Notation run := (Code HandlerError St L).

(** A result entity with its fields in the order of ECF; [Entity::new(..)?]. *)
Definition sorted_result (ty : list Z) (fields : list (Value * Value)) : run HandlerResult :=
  entity <~ tries (map_err (λ _, Internal) (entity_new home ty (to_ecf (VMap (sort_by field_order fields)))));;
  returns (handler_ok entity).

(** [Entity::new(..).unwrap()] *)
Definition error_result (st : Z) (code message : list Z) : run HandlerResult :=
  entity <~ unwraps (ok (entity_new home (lit "system/protocol/error")
                           (to_ecf (VMap [(text (lit "code"), text code); (text (lit "message"), text message)]))));;
  returns (handler_error st entity).

Definition merge_status_result (st : list Z) (version : option Hash) (conflict_paths : list (list Z))
    (merged_count deleted_count : nat) (warnings : list CascadeWarning) : run HandlerResult :=
  let fields :=
    field (lit "cascade_warnings") (encode_cascade_warnings warnings)
    ++ field (lit "conflicts") (if bool_decide (conflict_paths = []) then None else Some (VArray (map text conflict_paths)))
    ++ count_field (lit "deleted_count") deleted_count
    ++ count_field (lit "merged_count") merged_count
    ++ [(text (lit "status"), text st)]
    ++ hash_field (lit "version") version in
  entity <~ unwraps (ok (entity_new home (lit "system/revision/merge-result")
                           (to_ecf (VMap (sort_by field_order fields)))));;
  returns (handler_ok entity).

(** * Commit *)

Definition handle_commit (params : list Z) : run HandlerResult :=
  prefix <~ tries (decode_commit_params params);;
  committed <~ perform_commit home local_peer_id fuel prefix;;
  let '(version_hash, root_hash, _) := committed in
  entity <~ tries (map_err (λ _, Internal)
    (entity_new home (lit "system/revision/commit-result")
       (to_ecf (VMap [(text (lit "root"), VBytes (to_bytes root_hash)); (text (lit "version"), VBytes (to_bytes version_hash))]))));;
  returns (handler_ok entity).

(** * Checkout *)

(** The version to check out, and the branch when it is one's head. *)
Definition checkout_target (ph : list Z) (p : CheckoutParams) : run (Hash * option (list Z)) :=
  match co_branch p, co_version p with
  | Some name, _ =>
      vh <~ asks (λ _ t, li_get (rev_branch_path local_peer_id ph name) t);;
      vh <~ tries (ok_or InvalidParams vh);;
      returns (vh, Some name)
  | None, Some vh => returns (vh, None)
  | None, None => throws InvalidParams
  end.

(** [self.get_version_bindings(h).ok()], empty where there is none *)
Definition head_bindings (head : option Hash) : run PathMap :=
  match head with
  | None => returns []
  | Some h => λ s t, match get_version_bindings fuel h s t with
                     | Done (Ok b) s t => Done (Ok b) s t
                     | Done (Err _) s t => Done (Ok []) s t
                     | Stuck => Stuck
                     end
  end.

Definition handle_checkout (params : list Z) : run HandlerResult :=
  p <~ tries (decode_checkout_params params);;
  let prefix := co_prefix p in
  let ph := prefix_hash_of local_peer_id prefix in
  target <~ checkout_target ph p;;
  let '(target_version, target_branch) := target in
  policy <~ asks (auto_version_policy_for local_peer_id prefix);;
  if policy.1 && bool_decide (policy.2 = lit "deny") then
    error_result STATUS_BAD_REQUEST (lit "checkout_denied_under_auto_version")
      (lit "checkout is denied while auto_version is enabled for this prefix (checkout_under_auto_version="
       ++ [34] ++ lit "deny" ++ [34] ++ lit "); use revision/diff, revision/log, or revision/fetch for read-only inspection")
  else
    target_snap_bindings <~ get_version_bindings fuel target_version;;
    let head_path := rev_head_path local_peer_id ph in
    live_tree_bindings <~ asks (λ _ t, snapshot_bindings_from_tree t prefix local_peer_id);;
    head <~ asks (λ _ t, li_get head_path t);;
    committed_head_bindings <~ head_bindings head;;
    let has_uncommitted := negb (bool_decide (committed_head_bindings = live_tree_bindings)) in
    _ <~ writes (li_set head_path target_version);;
    _ <~ match target_branch with
         | Some name => set_active_branch home local_peer_id ph name
         | None => writes (λ t, (li_remove (rev_active_branch_path local_peer_id ph) t).2)
         end;;
    cascade_warnings <~ mapped (λ _, Internal)
      (apply_snapshot_diff home local_peer_id prefix committed_head_bindings target_snap_bindings);;
    final_head <~ asks (λ _ t, default target_version (li_get head_path t));;
    sorted_result (lit "system/revision/checkout-result")
      ([(text (lit "head"), VBytes (to_bytes final_head)); (text (lit "status"), text (lit "checked_out"));
        (text (lit "target_version"), VBytes (to_bytes target_version));
        (text (lit "version"), VBytes (to_bytes target_version))]
       ++ field (lit "note")
            (if policy.1 && bool_decide (policy.2 = lit "warn") && negb (bool_decide (final_head = target_version))
             then Some (text (lit "auto_version produced intermediate versions; head differs from target_version")) else None)
       ++ field (lit "branch") (text <$> target_branch)
       ++ field (lit "cascade_warnings") (encode_cascade_warnings cascade_warnings)
       ++ (if has_uncommitted
           then [(text (lit "uncommitted_changes"), bool_val true);
                 (text (lit "warning"), text (lit "tree has uncommitted changes that will be overwritten by checkout"))]
           else [])).

(** * Merge *)

(** The active branch follows the head. *)
Definition move_active_branch (ph : list Z) (version : Hash) : run unit :=
  branch_name <~ asks (read_active_branch local_peer_id ph);;
  match branch_name with
  | Some name => writes (li_set (rev_branch_path local_peer_id ph name) version)
  | None => skip
  end.

Definition fast_forward (prefix ph head_path : list Z) (local_head remote_version : Hash) : run HandlerResult :=
  local_head_bindings <~ get_version_bindings fuel local_head;;
  _ <~ writes (li_set head_path remote_version);;
  _ <~ move_active_branch ph remote_version;;
  remote_bindings <~ get_version_bindings fuel remote_version;;
  ff_warnings <~ mapped (λ _, Internal)
    (apply_snapshot_diff home local_peer_id prefix local_head_bindings remote_bindings);;
  merge_status_result (lit "fast_forward") (Some remote_version) [] 0 0 ff_warnings.

(** The additional bindings are folded into the merged ones. *)
Definition fold_additional (r : MergeResult) : PathMap :=
  foldl (λ m kv, bt_insert kv.1 kv.2 m) (merged_bindings r) (additional_bindings r).

(** A version in the store that becomes the head, before the tree is touched. *)
Definition land_version (ph head_path : list Z) (d : RevisionEntryData) : run Hash :=
  version_hash <~ put_version home Internal Internal d;;
  _ <~ writes (li_set head_path version_hash);;
  _ <~ move_active_branch ph version_hash;;
  returns version_hash.

(** The merged bindings into the tree, the deletions out of it, the conflicts on record. *)
Definition land_bindings (prefix ph : list Z) (merged : PathMap) (r : MergeResult) (local_head other : Hash)
    : run (list CascadeWarning) :=
  current_bindings <~ asks (λ _ t, snapshot_bindings_from_tree t prefix local_peer_id);;
  cascade_warnings <~ mapped (λ _, Internal) (apply_snapshot_diff home local_peer_id prefix current_bindings merged);;
  cascade_warnings <~ mapped (λ _, Internal)
    (fold_run (λ warnings path, unbind (qualify_tree_prefix prefix local_peer_id ++ path) warnings)
       cascade_warnings (deletions r));;
  _ <~ fold_run (λ _ conflict s t,
         let '(stored, s, t) := store_conflict home ph conflict local_head other local_peer_id s t in
         Done (map_err (λ _, Internal) (h ← stored; Ok tt)) s t) tt (conflicts r);;
  returns cascade_warnings.

Definition conflict_paths (r : MergeResult) : list (list Z) := map cf_path (conflicts r).

(** [max(2, d as usize)], eight where nothing is configured *)
Definition oscillation_limit (config : option RevisionConfig) : nat :=
  match (c ← config; oscillation_depth c) with Some d => Nat.max 2 (Z.to_nat d) | None => 8 end.

Definition same_root (a b : option RevisionEntryData) : bool :=
  match a, b with Some a, Some b => bool_decide (root a = root b) | _, _ => false end.

(** The part of [handle_merge] for heads that have diverged. *)
Definition merge_diverged (p : MergeParams) (ph head_path merge_order : list Z) (config : option RevisionConfig)
    (local_head : Hash) : run HandlerResult :=
  let prefix := mp_prefix p in
  let remote_version := remote_version p in
  local_entry <~ asks (λ s _, entry_of s local_head);;
  remote_entry <~ asks (λ s _, entry_of s remote_version);;
  if same_root local_entry remote_entry then merge_status_result (lit "converged_identical") None [] 0 0 []
  else
    ancestor_hash <~ asks (λ s _, find_common_ancestor s dfuel local_head remote_version);;
    ancestor_hash <~ unwraps ancestor_hash;;
    local_bindings <~ get_version_bindings fuel local_head;;
    remote_bindings <~ get_version_bindings fuel remote_version;;
    ancestor_bindings <~ match ancestor_hash with
                         | Some ah => b <~ get_version_bindings fuel ah;; returns (Some b)
                         | None => returns None
                         end;;
    let '(norm_local, norm_remote, _, _) :=
      normalize_merge_sides local_bindings remote_bindings local_head remote_version merge_order in
    merged <~ asks (λ s t, merge_snapshots home ancestor_bindings norm_local norm_remote (mp_strategy p) s t local_peer_id);;
    merge_result <~ unwraps merged;;
    let merged_bindings := fold_additional merge_result in
    if dry_run p then
      merge_status_result (if bool_decide (conflict_paths merge_result = []) then lit "would_merge" else lit "would_conflict")
        None (conflict_paths merge_result) (length merged_bindings) (length (deletions merge_result)) []
    else
      merged_root <~ in_store (λ _, Internal) (build_trie home merged_bindings);;
      let parents := sorted_parents [local_head; remote_version] in
      oscillates <~ asks (λ s _, detect_oscillation s dfuel merged_root parents local_head (oscillation_limit config));;
      oscillates <~ unwraps oscillates;;
      if oscillates : bool then merge_status_result (lit "oscillation_detected") None [] 0 0 []
      else
        version_hash <~ land_version ph head_path (mkRevision merged_root parents);;
        cascade_warnings <~ land_bindings prefix ph merged_bindings merge_result local_head remote_version;;
        merge_status_result (if bool_decide (conflict_paths merge_result = []) then lit "merged" else lit "merged_with_conflicts")
          (Some version_hash) (conflict_paths merge_result) (length merged_bindings) (length (deletions merge_result))
          cascade_warnings.

Definition handle_merge (params : list Z) : run HandlerResult :=
  p <~ tries (decode_merge_params params);;
  let ph := prefix_hash_of local_peer_id (mp_prefix p) in
  config <~ asks (load_prefix_config local_peer_id ph);;
  let order := match mp_merge_order p, config with
               | Some order, _ => order
               | None, Some c => merge_order c
               | None, None => DEFAULT_MERGE_ORDER
               end in
  let head_path := rev_head_path local_peer_id ph in
  head <~ asks (λ _ t, li_get head_path t);;
  match head with
  | None => error_result STATUS_BAD_REQUEST (lit "no_head") (lit "no versions exist for this prefix")
  | Some local_head =>
      rel <~ asks (λ s _, check_relationship s dfuel local_head (remote_version p));;
      rel <~ unwraps rel;;
      match rel with
      | InSync => merge_status_result (lit "already_in_sync") None [] 0 0 []
      | Ahead => merge_status_result (lit "already_ahead") None [] 0 0 []
      | Behind =>
          if dry_run p then merge_status_result (lit "would_merge") (Some (remote_version p)) [] 0 0 []
          else fast_forward (mp_prefix p) ph head_path local_head (remote_version p)
      | Diverged => merge_diverged p ph head_path order config local_head
      end
  end.

(** * Resolve *)

Definition handle_resolve (params : list Z) : run HandlerResult :=
  p <~ tries (decode_resolve_params params);;
  let ph := prefix_hash_of local_peer_id (rs_prefix p) in
  let conflict_path := rev_conflict_path local_peer_id ph (rs_path p) in
  conflict <~ asks (λ _ t, li_get conflict_path t);;
  if bool_decide (conflict = None) then
    error_result STATUS_NOT_FOUND (lit "no_conflict") (lit "no conflict at path '" ++ rs_path p ++ lit "'")
  else
    let full_path := qualify_tree_prefix (rs_prefix p) local_peer_id ++ rs_path p in
    known <~ asks (λ s _, match resolved p with Some hash => bool_decide (is_Some (store_get hash s)) | None => true end);;
    if negb known then
      error_result STATUS_NOT_FOUND (lit "resolved_not_found") (lit "resolved entity hash not found in content store")
    else
      _ <~ writes (λ t, match resolved p with
                        | Some hash => li_set full_path hash t
                        | None => (li_remove full_path t).2
                        end);;
      _ <~ writes (λ t, (li_remove conflict_path t).2);;
      remaining_conflicts <~ asks (λ _ t, length (li_list (rev_conflicts_prefix local_peer_id ph) t));;
      sorted_result (lit "system/revision/resolve-result")
        ([(text (lit "path"), text (rs_path p));
          (text (lit "remaining_conflicts"), integer (Z.of_nat remaining_conflicts))]
         ++ hash_field (lit "resolved") (resolved p)).

(** * Cherry-pick and revert *)

(** The parent that the version is compared with, or the code and message of the refusal. *)
Definition select_parent (verb : list Z) (entry : RevisionEntryData) (specified : option Hash)
    : result (list Z * list Z) Hash :=
  match parents entry with
  | [] => Err (lit "no_parent", lit "cannot " ++ verb ++ lit " initial version (no parents)")
  | first :: others =>
      match specified with
      | Some p =>
          if bool_decide (p ∈ parents entry) then Ok p
          else Err (lit "invalid_parent", lit "specified parent is not in version's parent list")
      | None =>
          if bool_decide (others = []) then Ok first
          else Err (lit "ambiguous_parent",
                    lit "merge version has multiple parents — specify which parent to diff against")
      end
  end.

(** Merging [theirs] into the head over [base], as a version with the head for its parent. *)
Definition replay (prefix ph head_path : list Z) (base ours theirs : PathMap) (local_head version_hash : Hash)
    : run (Hash * list CascadeWarning * MergeResult) :=
  merged <~ asks (λ s t, merge_snapshots home (Some base) ours theirs None s t local_peer_id);;
  merge_result <~ unwraps merged;;
  let merged_bindings := fold_additional merge_result in
  merged_root <~ in_store (λ _, Internal) (build_trie home merged_bindings);;
  new_vh <~ land_version ph head_path (mkRevision merged_root (sorted_parents [local_head]));;
  cascade_warnings <~ land_bindings prefix ph merged_bindings merge_result local_head version_hash;;
  returns (new_vh, cascade_warnings, merge_result).

Definition replay_result (ty source done : list Z) (version_hash new_vh : Hash) (warnings : list CascadeWarning)
    (r : MergeResult) : run HandlerResult :=
  let clean := bool_decide (conflict_paths r = []) in
  sorted_result ty
    ([(text source, VBytes (to_bytes version_hash));
      (text (lit "status"), text (if clean then done else done ++ lit "_with_conflicts"));
      (text (lit "version"), VBytes (to_bytes new_vh))]
     ++ field (lit "cascade_warnings") (encode_cascade_warnings warnings)
     ++ count_field (lit "conflicts") (length (conflicts r))).

(** The version of the request and the parent selected for it, the head, and what is refused. *)
Definition version_op (verb : list Z) (p : VersionOpParams) : run (result (list Z * list Z) (Hash * Hash)) :=
  version_entity <~ asks (λ s _, store_get (vop_version p) s);;
  version_entity <~ tries (ok_or InvalidParams version_entity);;
  entry <~ tries (ok_or InvalidParams (decode_revision_entry version_entity));;
  match select_parent verb entry (vop_parent p) with
  | Err e => returns (Err e)
  | Ok parent_hash =>
      head <~ asks (λ _ t, li_get (rev_head_path local_peer_id (prefix_hash_of local_peer_id (vop_prefix p))) t);;
      local_head <~ tries (ok_or InvalidParams head);;
      returns (Ok (parent_hash, local_head))
  end.

Definition handle_cherry_pick (params : list Z) : run HandlerResult :=
  p <~ tries (decode_version_op_params params);;
  let ph := prefix_hash_of local_peer_id (vop_prefix p) in
  selected <~ version_op (lit "cherry-pick") p;;
  match selected with
  | Err (code, message) => error_result STATUS_BAD_REQUEST code message
  | Ok (parent_hash, local_head) =>
      ancestor_bindings <~ get_version_bindings fuel parent_hash;;
      local_bindings <~ get_version_bindings fuel local_head;;
      version_bindings <~ get_version_bindings fuel (vop_version p);;
      done <~ replay (vop_prefix p) ph (rev_head_path local_peer_id ph) ancestor_bindings local_bindings
        version_bindings local_head (vop_version p);;
      let '(new_vh, warnings, r) := done in
      replay_result (lit "system/revision/cherry-pick-result") (lit "source") (lit "cherry_picked") (vop_version p) new_vh warnings r
  end.

Definition handle_revert (params : list Z) : run HandlerResult :=
  p <~ tries (decode_version_op_params params);;
  let ph := prefix_hash_of local_peer_id (vop_prefix p) in
  selected <~ version_op (lit "revert") p;;
  match selected with
  | Err (code, message) => error_result STATUS_BAD_REQUEST code message
  | Ok (parent_hash, local_head) =>
      ancestor_bindings <~ get_version_bindings fuel (vop_version p);;
      local_bindings <~ get_version_bindings fuel local_head;;
      parent_bindings_raw <~ get_version_bindings fuel parent_hash;;
      parent_bindings <~ augment_bindings_with_markers home parent_bindings_raw ancestor_bindings;;
      done <~ replay (vop_prefix p) ph (rev_head_path local_peer_id ph) ancestor_bindings local_bindings
        parent_bindings local_head (vop_version p);;
      let '(new_vh, warnings, r) := done in
      replay_result (lit "system/revision/revert-result") (lit "reverted") (lit "reverted") (vop_version p) new_vh warnings r
  end.
End handler.
