(* ===== verification/SnapshotSpec.v ===== *)
(** What checkout and fast-forward do to the tree ([extensions/revision/src/lib.rs]): at every
    path of the committed or the target version the tree ends with the target's binding, and every
    other binding of the live tree is preserved. *)
From S2P Require Import Prelude BTree Ecf Cbor ContentHash Entity Store Trie Index Handler TrieSpec RootTracker RevisionDag.
From S2P Require Import RevisionMerge RevisionConfig AutoVersion RevisionOps CommitSpec RevisionHandler.

(** The binding of a path after the target version has been applied over the current one: markers
    and what only the current version has are unbound, the rest of the live tree stays. *)
Definition applied (marker : Hash) (current target : PathMap) (rel : list Z) (live : option Hash) : option Hash :=
  match bt_get rel target with
  | Some h => if decide (h = marker) then (if decide (rel ∈ map fst current) then None else live) else Some h
  | None => if decide (rel ∈ map fst current) then None else live
  end.

(** Running over the in-memory index. *)
Lemma unbind_run {St} path w (s : St) (t : PathMap) : unbind path w s t = Done (Ok w) s (index_remove t path).2.
Proof. unfold unbind, andthen, updates, tries. cbn. by rewrite app_nil_r. Qed.

Lemma bind_path_run {St} path h w (s : St) (t : PathMap) : bind_path path h w s t = Done (Ok w) s (index_set t path h).
Proof. unfold bind_path, andthen, updates, tries. cbn. by rewrite app_nil_r. Qed.

Lemma index_remove_get (t : PathMap) p q : bt_ok t → bt_get q (index_remove t p).2 = if decide (q = p) then None else bt_get q t.
Proof.
  intros Ht. cbn. rewrite bt_get_remove by done. case_decide as Hq.
  - subst. by rewrite cmp_refl.
  - destruct (cmp q p) eqn:E; [|done..]. by apply cmp_eq in E.
Qed.

(** Changes below the tree prefix only. *)
Definition outside (tp : list Z) (t t' : PathMap) : Prop := ∀ p, ¬ tp `prefix_of` p → bt_get p t' = bt_get p t.

Section diff.
Context {St : Type} (s : St) (tp : list Z) (marker : Hash) (target : PathMap).

Lemma remove_loop_lands keys : ∀ w (t : PathMap),
  bt_ok t →
  lands (fold_run (λ warnings rel_path,
      if bool_decide (bt_get rel_path target = None) || bool_decide (bt_get rel_path target = Some marker)
      then unbind (tp ++ rel_path) warnings else returns warnings) w keys) s t
    (λ w' s' t', w' = w ∧ s' = s ∧ bt_ok t' ∧ outside tp t t'
       ∧ ∀ rel, bt_get (tp ++ rel) t' =
           if decide (rel ∈ keys ∧ (bt_get rel target = None ∨ bt_get rel target = Some marker)) then None else bt_get (tp ++ rel) t).
Proof.
  induction keys as [|k keys IH]; intros w t Ht; cbn [fold_run].
  { by apply lands_returns. }
  set (go := bool_decide _ || bool_decide _).
  assert (Hgo : go = true ↔ bt_get k target = None ∨ bt_get k target = Some marker).
  { unfold go. rewrite orb_true_iff, !bool_decide_eq_true. done. }
  destruct go.
  - eapply lands_then; [apply unbind_run|]. assert (Ht1 : bt_ok (index_remove t (tp ++ k)).2) by by apply bt_remove_ok.
    eapply lands_mono; [by apply IH|]. intros w' s' t' (-> & -> & Ht' & Hout & Hg). split_and!; [done|done|done| |].
    + intros p Hp. rewrite (Hout p Hp), index_remove_get by done. rewrite decide_False; [done|]. intros ->. apply Hp. by eexists.
    + intros rel. rewrite Hg, index_remove_get by done. destruct Hgo as [Hgo _]. specialize (Hgo eq_refl).
      destruct (decide (rel = k)) as [->|Hne].
      * rewrite (decide_True (P := tp ++ k = tp ++ k)) by done. rewrite (decide_True (P := k ∈ k :: keys ∧ _)) by (split; [by left|done]).
        by case_decide.
      * rewrite (decide_False (P := tp ++ rel = tp ++ k)) by (by intros ?%app_inv_head).
        rewrite (decide_ext (rel ∈ keys ∧ _) (rel ∈ k :: keys ∧ (bt_get rel target = None ∨ bt_get rel target = Some marker))); [done|].
        rewrite elem_of_cons. tauto.
  - eapply lands_then; [reflexivity|]. eapply lands_mono; [by apply IH|]. intros w' s' t' (-> & -> & Ht' & Hout & Hg).
    split_and!; [done..|]. intros rel. rewrite Hg. destruct Hgo as [_ Hgo].
    rewrite (decide_ext (rel ∈ keys ∧ _) (rel ∈ k :: keys ∧ (bt_get rel target = None ∨ bt_get rel target = Some marker))); [done|].
    rewrite elem_of_cons. split; [tauto|]. intros [[->|?] Hx]; [|done]. specialize (Hgo Hx). done.
Qed.

Lemma set_loop_lands (l : PathMap) : ∀ w (t : PathMap),
  bt_ok t → NoDup (map fst l) → (∀ rel h, (rel, h) ∈ l → h ≠ marker → path_is_storable (tp ++ rel) = true) →
  lands (fold_run (λ warnings '(rel_path, hash),
      if bool_decide (hash = marker) then returns warnings else bind_path (tp ++ rel_path) hash warnings) w l) s t
    (λ w' s' t', w' = w ∧ s' = s ∧ bt_ok t' ∧ outside tp t t'
       ∧ (∀ rel h, (rel, h) ∈ l → h ≠ marker → bt_get (tp ++ rel) t' = Some h)
       ∧ ∀ rel, (∀ h, (rel, h) ∈ l → h = marker) → bt_get (tp ++ rel) t' = bt_get (tp ++ rel) t).
Proof.
  induction l as [|[k v] l IH]; intros w t Ht Hnd Hsto; cbn [fold_run].
  { apply lands_returns. split_and!; try done. by intros ? ? ?%elem_of_nil. }
  cbn [map fst] in Hnd. apply NoDup_cons in Hnd as [Hk Hnd].
  assert (Hsto' : ∀ rel h, (rel, h) ∈ l → h ≠ marker → path_is_storable (tp ++ rel) = true) by (intros; eapply Hsto; [by right|done]).
  case_bool_decide as Hv.
  - eapply lands_then; [reflexivity|]. eapply lands_mono; [by apply IH|]. intros w' s' t' (-> & -> & Ht' & Hout & Hset & Hkeep).
    split_and!; [done..| |].
    + intros rel h [[= -> ->]|Hin]%elem_of_cons; [done|]. by apply Hset.
    + intros rel Hall. apply Hkeep. intros h Hin. apply Hall. by right.
  - eapply lands_then; [apply bind_path_run|].
    assert (Hp : path_is_storable (tp ++ k) = true) by (eapply Hsto; [by left|done]).
    eapply lands_mono; [apply IH; [by apply index_set_ok|done|done]|]. intros w' s' t' (-> & -> & Ht' & Hout & Hset & Hkeep).
    assert (Hk1 : ∀ h, (k, h) ∈ l → h = marker).
    { intros h Hin. destruct Hk. by apply (list_elem_of_fmap_2 fst l (k, h)). }
    split_and!; [done|done|done| | |].
    + intros p Hp'. rewrite (Hout p Hp'). apply (index_set_get_ne t); [done|]. intros <-. apply Hp'. by eexists.
    + intros rel h [[= -> ->]|Hin]%elem_of_cons Hne; [|by apply Hset]. rewrite (Hkeep k Hk1). by apply (index_set_get_eq t).
    + intros rel Hall. rewrite Hkeep by (intros h Hin; apply Hall; by right). apply (index_set_get_ne t); [done|].
      intros <-%app_inv_head. apply Hv, Hall. by left.
Qed.
End diff.

Lemma apply_snapshot_diff_lands {St} `{Sha2} home id prefix (current target : PathMap) marker (s : St) (t : PathMap) :
  let tp := qualify_tree_prefix prefix id in
  canonical_deletion_marker_hash home = Some marker → bt_ok t → bt_ok target →
  (∀ rel h, bt_get rel target = Some h → h ≠ marker → path_is_storable (tp ++ rel) = true) →
  lands (apply_snapshot_diff home id prefix current target) s t
    (λ w s' t', w = [] ∧ s' = s ∧ bt_ok t' ∧ outside tp t t'
       ∧ ∀ rel, bt_get (tp ++ rel) t' = applied marker current target rel (bt_get (tp ++ rel) t)).
Proof.
  intros tp Hm Ht Htg Hsto. unfold apply_snapshot_diff. rewrite Hm. run_step. fold tp.
  eapply lands_bind; [by apply remove_loop_lands|]. intros w s1 t1 (-> & -> & Ht1 & Hout1 & Hg1).
  eapply lands_mono; [apply (set_loop_lands s tp marker target); [done|by apply bt_keys_NoDup|]|].
  { intros rel h Hin Hne. apply bt_get_elem in Hin; [|done]. by apply (Hsto rel h). }
  intros w s2 t2 (-> & -> & Ht2 & Hout2 & Hset & Hkeep). split_and!; [done..| |].
  - intros p Hp. by rewrite (Hout2 p Hp), (Hout1 p Hp).
  - intros rel. unfold applied. destruct (bt_get rel target) as [h|] eqn:E.
    + pose proof (proj1 (bt_get_elem target Htg rel h) E) as Hin. case_decide as Hh.
      * subst h. rewrite Hkeep, Hg1, E.
        { destruct (decide (rel ∈ map fst current)); [rewrite decide_True by auto|rewrite decide_False by naive_solver]; done. }
        intros h Hin'. apply bt_get_elem in Hin'; [|done]. congruence.
      * by apply Hset.
    + rewrite Hkeep, Hg1, E.
      { destruct (decide (rel ∈ map fst current)); [rewrite decide_True by auto|rewrite decide_False by naive_solver]; done. }
      intros h Hin'. apply bt_get_elem in Hin'; [|done]. congruence.
Qed.

(** * The handlers *)

Lemma revision_path_is_revision id ph rest : is_revision_path id (revision_path id ph rest) = true.
Proof.
  unfold is_revision_path, revision_path. apply starts_with_true. exists (ph ++ rest).
  rewrite <-!app_assoc. done.
Qed.

Lemma applied_neither marker current target rel live :
  rel ∉ map fst current → rel ∉ map fst target → bt_ok target → applied marker current target rel live = live.
Proof.
  intros Hc Ht Hok. unfold applied. destruct (bt_get rel target) as [h|] eqn:E; [|by rewrite decide_False].
  destruct Ht. apply (list_elem_of_fmap_2 fst target (rel, h)), bt_get_elem; done.
Qed.

(** Paths of the tree, as opposed to the engine's own. *)
Definition tree_paths (id tp : list Z) (M : PathMap) : Prop := ∀ rel, rel ∈ map fst M → is_revision_path id (tp ++ rel) = false.

Definition storable_below (tp : list Z) (M : PathMap) : Prop := ∀ rel, rel ∈ map fst M → path_is_storable (tp ++ rel) = true.

(** Every path but those that are moved: below the prefix it has the target's binding over the
    current version's, elsewhere the one it had. *)
Definition restored (moved : list Z → Prop) (tp : list Z) (marker : Hash) (current target : PathMap) (t t' : PathMap) : Prop :=
  ∀ q, ¬ moved q →
    index_get t' q = match strip_prefix tp q with
                     | Some rel => applied marker current target rel (index_get t q)
                     | None => index_get t q
                     end.

Lemma restored_from moved tp marker current target t0 t t' :
  (∀ q, ¬ moved q → index_get t q = index_get t0 q) →
  restored (λ _, False) tp marker current target t t' → restored moved tp marker current target t0 t'.
Proof. intros Hq Hr q Hm. rewrite <- (Hq q Hm). apply Hr. naive_solver. Qed.

(** The entity that names the active branch. *)
Definition branch_value (name : list Z) : Value := VMap [(text (lit "name"), text name)].

Definition branch_entities `{Sha2} (home : Z) (branch : option (list Z)) : list Entity :=
  match branch with
  | Some name => match entity_new home (lit "system/revision/active-branch") (to_ecf (branch_value name)) with Ok e => [e] | Err _ => [] end
  | None => []
  end.

Lemma decode_branch_value `{CiboriumDecodes} name e :
  value_ok (text name) = true → data e = to_ecf (branch_value name) → decode_active_branch_name e = Some name.
Proof.
  intros Hv He. unfold decode_active_branch_name. rewrite He, <-(app_nil_r (to_ecf _)), from_reader_ecf; [done| |cbn; unfold ciborium_recursion_limit; lia].
  change (value_ok (branch_value name)) with (true && ((true && value_ok (text name)) && true)). by rewrite Hv.
Qed.

Section handlers.
Context {St : Type} `{HT : ContentStore St}.
Context `{HS : Sha2} `{!Sha2Ok} `{HC : Ciborium} `{!CiboriumDecodes} (home : Z).
Hypothesis Hhome : digest_len_for_format home ≠ None.
Context (id : list Z) (fuel dfuel : nat) (marker : Hash).
Hypothesis Hmarker : canonical_deletion_marker_hash home = Some marker.
Hypothesis Hfuel : (MAX_LEVELS < fuel)%nat.

Definition version_of (s : St) (v : Hash) (M : PathMap) : Prop :=
  ∃ e, entry_of s v = Some e ∧ trie_at home s (root e) M.

Lemma version_bindings_run {L} v M (s : St) (t : L) :
  version_of s v M → get_version_bindings fuel v s t = Done (Ok M) s t.
Proof.
  intros (e & He & Ha). unfold get_version_bindings, andthen, asks, tries, unwraps. unfold entry_of in He. rewrite He.
  cbn [ok_or]. by rewrite (trie_at_collect home Hhome _ _ _ _ Ha Hfuel).
Qed.

Lemma merge_result_lands {L} st version paths n d w (s : St) (t : L) :
  lands (merge_status_result home st version paths n d w) s t (λ r s' t', status r = 200 ∧ s' = s ∧ t' = t).
Proof.
  unfold merge_status_result. destruct (entity_new_encoded home (lit "system/revision/merge-result")
    (VMap (sort_by field_order (field (lit "cascade_warnings") (encode_cascade_warnings w)
      ++ field (lit "conflicts") (if bool_decide (paths = []) then None else Some (VArray (map text paths)))
      ++ count_field (lit "deleted_count") d ++ count_field (lit "merged_count") n
      ++ [(text (lit "status"), text st)] ++ RevisionMerge.hash_field (lit "version") version)))) as (e & He & _); [done..|].
  rewrite He. cbn [ok]. run_step. by apply lands_returns.
Qed.

Lemma sorted_result_lands {L} ty fields (s : St) (t : L) :
  ty ≠ [] → ty ≠ TYPE_PEER →
  lands (sorted_result home ty fields) s t (λ r s' t', status r = 200 ∧ s' = s ∧ t' = t).
Proof.
  intros H1 H2. unfold sorted_result.
  destruct (entity_new_encoded home ty (VMap (sort_by field_order fields))) as (e & He & _); [done..|].
  rewrite He. run_step. by apply lands_returns.
Qed.

(** Applying versions moves tree paths only. *)
Lemma restore_lands prefix current target (s : St) (t : PathMap) :
  let tp := qualify_tree_prefix prefix id in
  bt_ok t → bt_ok target → tree_paths id tp current → tree_paths id tp target → storable_below tp target →
  lands (apply_snapshot_diff home id prefix current target) s t (λ w s' t',
    w = [] ∧ s' = s ∧ bt_ok t' ∧ restored (λ _, False) tp marker current target t t'
    ∧ ∀ q, is_revision_path id q = true → index_get t' q = index_get t q).
Proof.
  intros tp Ht Htg Hc Hp Hsto. eapply lands_mono.
  { apply (apply_snapshot_diff_lands home id prefix current target marker s t Hmarker Ht Htg).
    intros rel h Hg _. apply Hsto, (list_elem_of_fmap_2 fst target (rel, h)), bt_get_elem; done. }
  fold tp. intros w s' t' (-> & -> & Ht' & Hout & Hg). split_and!; [done..| |].
  - intros q _. destruct (strip_prefix tp q) as [rel|] eqn:E.
    + apply strip_prefix_Some in E as ->. apply Hg.
    + apply strip_prefix_None in E. by apply Hout.
  - intros q Hq. destruct (decide (tp `prefix_of` q)) as [[rel ->]|Hn]; [|by apply Hout].
    unfold index_get. rewrite Hg. apply applied_neither; [intros Hin; specialize (Hc rel Hin); congruence|intros Hin; specialize (Hp rel Hin); congruence|done].
Qed.

Lemma move_branch_lands ph v (s : St) (t : PathMap) :
  bt_ok t →
  lands (move_active_branch id ph v) s t (λ _ s' t', s' = s ∧ bt_ok t'
    ∧ ∀ q, (∀ name, q ≠ rev_branch_path id ph name) → index_get t' q = index_get t q).
Proof.
  intros Ht. unfold move_active_branch. run_step. destruct (read_active_branch id ph s t) as [name|].
  - eexists _, _, _. split; [reflexivity|]. split_and!; [done|by apply index_set_ok|].
    intros q Hq. apply (index_set_get_ne t); [done|]. intros <-. by apply (Hq name).
  - eexists _, _, _. split; [reflexivity|]. done.
Qed.

Lemma checkout_target_run ph p target (s : St) (t : PathMap) :
  (match co_branch p with Some name => index_get t (rev_branch_path id ph name) | None => co_version p end) = Some target →
  checkout_target id ph p s t = Done (Ok (target, co_branch p)) s t.
Proof.
  unfold checkout_target. destruct (co_branch p) as [name|].
  - intros Hb. unfold andthen, asks, tries. change (li_get ?q t) with (index_get t q). by rewrite Hb.
  - by intros ->.
Qed.

(** The active branch is set or cleared. *)
Lemma point_branch_lands (wf : St → Prop) `{!ContentStoreOk St wf} ph branch (s : St) (t : PathMap) :
  wf s → fresh_for (branch_entities home branch) s → bt_ok t →
  lands (match branch with
         | Some name => set_active_branch home id ph name
         | None => writes (λ t, (li_remove (rev_active_branch_path id ph) t).2)
         end) s t (λ _ s' t', bt_ok t'
    ∧ (∀ q, q ≠ rev_active_branch_path id ph → index_get t' q = index_get t q)
    ∧ grows (branch_entities home branch) s s'
    ∧ match branch with
      | Some name =>
          value_ok (text name) = true → path_is_storable (rev_active_branch_path id ph) = true → read_active_branch id ph s' t' = Some name
      | None => index_get t' (rev_active_branch_path id ph) = None
      end).
Proof.
  intros Hw Hf Ht. set (ap := rev_active_branch_path id ph). destruct branch as [name|].
  - destruct (entity_new_encoded home (lit "system/revision/active-branch") (branch_value name)) as (e & He & _ & Hd & _); [done..|].
    unfold branch_entities in Hf |- *. rewrite He in Hf |- *.
    destruct (store_put_get s e Hw (proj1 Hf e ltac:(by left))) as (s' & Hput & _ & Hget).
    eexists _, _, _. split; [unfold set_active_branch, branch_value in *; by rewrite He, Hput|]. fold ap. split_and!.
    + by apply index_set_ok.
    + intros q Hq. apply (index_set_get_ne t); [done|congruence].
    + split; intros h e0; rewrite Hget; case_decide as Hh; auto.
      * subst h. intros Hs. f_equal. symmetry. by apply (proj1 Hf e ltac:(by left)).
      * intros [= <-]. right. split; [by left|done].
    + intros Hv Hs. unfold read_active_branch. fold ap. change (li_get ?q ?u) with (index_get u q).
      assert (E : index_get (li_set ap (content_hash e) t) ap = Some (content_hash e)) by by apply (index_set_get_eq t).
      rewrite E. cbn [mbind option_bind]. rewrite Hget, decide_True by done. by apply decode_branch_value.
  - eexists _, _, _. split; [reflexivity|]. fold ap. split_and!; [by apply bt_remove_ok| |apply grows_refl|].
    + intros q Hq. unfold index_get. etrans; [by apply (index_remove_get t)|]. by rewrite decide_False.
    + unfold index_get. etrans; [by apply (index_remove_get t)|]. by rewrite decide_True.
Qed.
End handlers.

(** * Properties *)

(** Merging a version that is ahead fast-forwards.  The head becomes that version, each
    path that either version binds gets the new version's binding, or none where that has a
    marker or nothing, and every other path of the live tree keeps its binding, so that what
    has not been committed is preserved. *)
Theorem merge_fast_forwards {St} `{HT : ContentStore St} `{HS : Sha2} `{!Sha2Ok} `{HC : Ciborium} `{!CiboriumDecodes}
    (home : Z) id fuel dfuel marker params p (s : St) (t : PathMap) local ML MR :
  let tp := qualify_tree_prefix (mp_prefix p) id in
  let hp := rev_head_path id (prefix_hash_of id (mp_prefix p)) in
  digest_len_for_format home ≠ None → canonical_deletion_marker_hash home = Some marker → (MAX_LEVELS < fuel)%nat →
  bt_ok t → decode_merge_params params = Ok p → dry_run p = false →
  index_get t hp = Some local → path_is_storable hp = true →
  check_relationship s dfuel local (remote_version p) = Some Behind →
  version_of home s local ML → version_of home s (remote_version p) MR →
  tree_paths id tp ML → tree_paths id tp MR → storable_below tp MR →
  ∃ r t', handle_merge home id fuel dfuel params s t = Done (Ok r) s t' ∧ status r = 200
    ∧ index_get t' hp = Some (remote_version p)
    ∧ restored (λ q, q = hp ∨ ∃ name, q = rev_branch_path id (prefix_hash_of id (mp_prefix p)) name) tp marker ML MR t t'.
Proof.
  intros tp hp Hhome Hm Hfuel Ht Hp Hdry Hhead Hsto Hrel HL HR HtL HtR HsR.
  set (moved := λ q, q = hp ∨ _).
  enough (lands (handle_merge home id fuel dfuel params) s t (λ r s' t',
    s' = s ∧ status r = 200 ∧ index_get t' hp = Some (remote_version p) ∧ restored moved tp marker ML MR t t')) as (r & s' & t' & E & -> & H3).
  { exists r, t'. done. }
  unfold handle_merge. rewrite Hp. run_step. run_step. run_step. fold hp. change (li_get hp t) with (index_get t hp). rewrite Hhead.
  run_step. rewrite Hrel. run_step. rewrite Hdry. unfold fast_forward.
  eapply lands_then; [by apply (version_bindings_run home Hhome fuel Hfuel)|]. run_step.
  set (t1 := index_set t hp (remote_version p)). change (li_set hp (remote_version p) t) with t1.
  assert (Ht1 : bt_ok t1) by by apply index_set_ok.
  eapply lands_bind; [by apply move_branch_lands|]. intros _ s2 t2 (-> & Ht2 & Hq2).
  eapply lands_then; [by apply (version_bindings_run home Hhome fuel Hfuel)|].
  eapply lands_bind with (Q := λ _ s' t', s' = s ∧ index_get t' hp = Some (remote_version p) ∧ restored moved tp marker ML MR t t').
  - destruct (restore_lands home id marker Hm (mp_prefix p) ML MR s t2 Ht2) as (w & s3 & t3 & E & -> & -> & Ht3 & Hr & Hq);
      [by destruct HR as (e & _ & _ & [? _] & _)|done..|].
    eexists _, _, _. split; [unfold mapped; by rewrite E|]. split; [done|]. split.
    + rewrite Hq by apply revision_path_is_revision. rewrite Hq2 by (intros name Heq; symmetry in Heq; by apply branch_is_not_head in Heq).
      by apply (index_set_get_eq t).
    + eapply restored_from; [|exact Hr]. intros q Hm'. unfold moved in Hm'.
      rewrite Hq2 by (intros name Heq; apply Hm'; right; by exists name).
      apply (index_set_get_ne t); [done|]. intros Heq. apply Hm'. by left.
  - intros w s3 t3 (-> & Hh & Hr). eapply lands_mono; [by apply merge_result_lands|]. by intros r s' t' (? & -> & ->).
Qed.

(** C35. A checkout restores a version, where the prefix is not versioned automatically (then each
    of its writes would make a version of its own and the head would be the last of them) and no
    other consumer of the index writes.  It leaves the head at the version, named or by its
    branch; below the prefix it leaves the tree with the version's bindings over those of the
    committed head, whose other paths are unbound, and every path of neither as it was; every path
    outside the prefix keeps its binding, the head and the active branch apart.  The active branch
    is the one named, or none.  The store keeps what it had and gains the branch's entity alone. *)
Theorem checkout_restores {St} `{HT : ContentStore St} (wf : St → Prop) `{!ContentStoreOk St wf}
    `{HS : Sha2} `{!Sha2Ok} `{HC : Ciborium} `{!CiboriumDecodes}
    (home : Z) id fuel marker params p (s : St) (t : PathMap) target MT MH :
  let tp := qualify_tree_prefix (co_prefix p) id in
  let ph := prefix_hash_of id (co_prefix p) in
  let hp := rev_head_path id ph in
  let ap := rev_active_branch_path id ph in
  digest_len_for_format home ≠ None → canonical_deletion_marker_hash home = Some marker → (MAX_LEVELS < fuel)%nat →
  bt_ok t → wf s → fresh_for (branch_entities home (co_branch p)) s → decode_checkout_params params = Ok p →
  (match co_branch p with Some name => index_get t (rev_branch_path id ph name) | None => co_version p end) = Some target →
  (auto_version_policy_for id (co_prefix p) s t).1 = false →
  path_is_storable hp = true →
  (match index_get t hp with Some current => version_of home s current MH | None => MH = [] end) → version_of home s target MT →
  tree_paths id tp MH → tree_paths id tp MT → storable_below tp MT →
  ∃ r s' t', handle_checkout home id fuel params s t = Done (Ok r) s' t' ∧ status r = 200
    ∧ index_get t' hp = Some target
    ∧ restored (λ q, q = hp ∨ q = ap) tp marker MH MT t t'
    ∧ match co_branch p with
      | Some name => value_ok (text name) = true → path_is_storable ap = true → read_active_branch id ph s' t' = Some name
      | None => index_get t' ap = None
      end
    ∧ grows (branch_entities home (co_branch p)) s s'.
Proof.
  intros tp ph hp ap Hhome Hm Hfuel Ht Hw Hf Hp Htarget Hpol Hsto HH HTv HtH HtT HsT.
  enough (lands (handle_checkout home id fuel params) s t (λ r s' t', status r = 200 ∧ index_get t' hp = Some target
    ∧ restored (λ q, q = hp ∨ q = ap) tp marker MH MT t t'
    ∧ match co_branch p with
      | Some name => value_ok (text name) = true → path_is_storable ap = true → read_active_branch id ph s' t' = Some name
      | None => index_get t' ap = None
      end ∧ grows (branch_entities home (co_branch p)) s s'))
    as (r & s' & t' & E & H3) by (by exists r, s', t').
  unfold handle_checkout. rewrite Hp. run_step. fold ph hp.
  eapply lands_then with (a := (target, co_branch p)); [by apply checkout_target_run|]. run_step. rewrite Hpol. cbn [andb].
  eapply lands_then; [by apply (version_bindings_run home Hhome fuel Hfuel)|]. run_step. run_step.
  change (li_get hp t) with (index_get t hp).
  eapply lands_then with (a := MH).
  { unfold head_bindings. destruct (index_get t hp) as [current|]; [|by rewrite HH].
    by rewrite (version_bindings_run home Hhome fuel Hfuel current MH). }
  run_step. set (t1 := index_set t hp target). change (li_set hp target t) with t1.
  assert (Ht1 : bt_ok t1) by by apply index_set_ok.
  eapply lands_bind; [by apply (point_branch_lands home Hhome id wf ph (co_branch p))|]. intros _ s2 t2 (Ht2 & Hq2 & Hg2 & Hbranch).
  destruct (restore_lands home id marker Hm (co_prefix p) MH MT s2 t2 Ht2) as (w & s3 & t3 & E & -> & -> & Ht3 & Hr & Hq);
    [by destruct HTv as (e & _ & _ & [? _] & _)|done..|].
  eapply lands_then; [unfold mapped; by rewrite E|]. run_step.
  eapply lands_mono; [by apply sorted_result_lands|]. intros r s' t' (Hst & -> & ->). split_and!; [done| | | |done].
  - rewrite Hq by apply revision_path_is_revision. rewrite Hq2 by (apply not_eq_sym, active_is_not_head). by apply (index_set_get_eq t).
  - eapply restored_from; [|exact Hr]. intros q Hmv. rewrite Hq2 by (intros Heq; apply Hmv; by right).
    apply (index_set_get_ne t); [done|]. intros Heq. apply Hmv. by left.
  - assert (Hap : index_get t3 ap = index_get t2 ap) by (apply Hq, revision_path_is_revision).
    destruct (co_branch p) as [name|]; [|by rewrite Hap]. intros Hv Hs. specialize (Hbranch Hv Hs).
    revert Hbranch. unfold read_active_branch. fold ap. change (li_get ?q ?u) with (index_get u q). by rewrite Hap.
Qed.

(** * Witnesses *)

Section demo.
#[local] Existing Instances sum_sha2 ref_ciborium.

Definition docs_head : list Z := rev_head_path demo_id (prefix_hash_of demo_id (lit "docs/")).
Definition docs_path (name : list Z) : list Z := lit "/" ++ demo_id ++ lit "/docs/" ++ name.

(** The stores after a commit, and the version. *)
Definition committed (s : ContentMap) (t : PathMap) : ContentMap * PathMap * Hash :=
  match perform_commit 0 demo_id 60 (lit "docs/") s t with
  | Done (Ok (v, _, _)) s t => (s, t, v)
  | _ => ([], [], hash_zero)
  end.

(** A version with [a], its successor with [b] too, and a tree at the first of them in which [z]
    is bound but not committed. *)
Definition docs_history : ContentMap * PathMap * Hash * Hash := Eval vm_compute in
  let t := index_set [] (docs_path (lit "a")) (demo_hash 1) in
  let '(s, t, v1) := committed [] t in
  let '(s, t', v2) := committed s (index_set t (docs_path (lit "b")) (demo_hash 2)) in
  (s, index_set t (docs_path (lit "z")) (demo_hash 3), v1, v2).

Definition demo_marker0 : Hash := Eval vm_compute in default hash_zero (canonical_deletion_marker_hash 0).

Definition merge_params (v : Hash) : list Z :=
  to_ecf (VMap [(text (lit "prefix"), text (lit "docs/")); (text (lit "remote_version"), VBytes (to_bytes v))]).

Definition checkout_params (v : Hash) : list Z :=
  to_ecf (VMap [(text (lit "prefix"), text (lit "docs/")); (text (lit "version"), VBytes (to_bytes v))]).

(** The bindings of the two versions and of the tree, as the history above has them. *)
Definition docs_bindings (names : list (list Z * Z)) : PathMap := map (λ '(n, k), (n, demo_hash k)) names.

Lemma docs_version_of (v : Hash) (e : RevisionEntryData) M :
  entry_of docs_history.1.1.1 v = Some e → bindings_ok M → trie_stored 0 docs_history.1.1.1 (root e) M = true →
  version_of 0 docs_history.1.1.1 v M.
Proof. intros He Hm Ht. exists e. split; [exact He|]. by apply trie_stored_sound. Qed.

Definition below_ok (tp : list Z) (rel : list Z) : bool := negb (is_revision_path demo_id (tp ++ rel)) && path_is_storable (tp ++ rel).

Lemma below_ok_sound tp (M : PathMap) :
  forallb (λ p, below_ok tp p.1) M = true → tree_paths demo_id tp M ∧ storable_below tp M.
Proof.
  intros Ha. assert (Hb : ∀ rel, rel ∈ map fst M → below_ok tp rel = true).
  { intros rel ([? h] & -> & Hin)%list_elem_of_fmap. rewrite forallb_forall in Ha. by apply (Ha (_, h)), list_elem_of_In. }
  split; intros rel Hin; specialize (Hb rel Hin); apply andb_true_iff in Hb as [Hr Hs]; [by apply negb_true_iff in Hr|done].
Qed.
Lemma docs_bindings_ok names : bool_decide (bt_ok (docs_bindings names)) = true →
  Forall (λ '(n, k), key_ok n ∧ byte_ok k) names → bindings_ok (docs_bindings names).
Proof.
  intros Ht%bool_decide_eq_true_1 Hn. split; [done|]. apply Forall_map. eapply Forall_impl; [exact Hn|].
  intros [n k] [? ?]. split; [done|by apply demo_hash_ok].
Qed.

Definition names_a : list (list Z * Z) := [(lit "a", 1)].
Definition names_ab : list (list Z * Z) := [(lit "a", 1); (lit "b", 2)].

Lemma docs_bindings_a_ok : bindings_ok (docs_bindings names_a).
Proof. apply docs_bindings_ok; [vm_compute; reflexivity|]. repeat constructor; try apply key_ok_check; unfold byte_ok; done || lia. Qed.

Lemma docs_bindings_ab_ok : bindings_ok (docs_bindings names_ab).
Proof. apply docs_bindings_ok; [vm_compute; reflexivity|]. repeat constructor; try apply key_ok_check; unfold byte_ok; done || lia. Qed.

Definition docs_prefix : list Z := Eval vm_compute in qualify_tree_prefix (lit "docs/") demo_id.
Definition docs_store : ContentMap := docs_history.1.1.1.
Definition docs_tree : PathMap := docs_history.1.1.2.
Definition docs_v1 : Hash := docs_history.1.2.
Definition docs_v2 : Hash := docs_history.2.

Definition entry_stored (v : Hash) : RevisionEntryData := default (mkRevision hash_zero []) (entry_of docs_store v).

Lemma version_v1 : version_of 0 docs_store docs_v1 (docs_bindings names_a).
Proof.
  apply docs_version_of with (e := entry_stored docs_v1); [vm_compute; reflexivity|exact docs_bindings_a_ok|vm_compute; reflexivity].
Qed.

Lemma version_v2 : version_of 0 docs_store docs_v2 (docs_bindings names_ab).
Proof.
  apply docs_version_of with (e := entry_stored docs_v2); [vm_compute; reflexivity|exact docs_bindings_ab_ok|vm_compute; reflexivity].
Qed.

Lemma unmoved (q a b : list Z) : bool_decide (q = a) || bool_decide (q = b) = false → ¬ (q = a ∨ q = b).
Proof. rewrite orb_false_iff, !bool_decide_eq_false. tauto. Qed.

Lemma unmoved_branch (q a : list Z) id ph :
  bool_decide (q = a) || is_revision_path id q = false → ¬ (q = a ∨ ∃ name, q = rev_branch_path id ph name).
Proof.
  rewrite orb_false_iff, bool_decide_eq_false. intros [Hq Hr] [?|[name ->]]; [done|].
  unfold rev_branch_path in Hr. by rewrite revision_path_is_revision in Hr.
Qed.

(** The tree at the first version, and moved on to the second: [b] comes, [z] stays. *)
Lemma merge_fast_forwards_witness :
  index_get docs_tree docs_head = Some docs_v1 ∧
  ∃ r t', handle_merge 0 demo_id 60 60 (merge_params docs_v2) docs_store docs_tree = Done (Ok r) docs_store t'
    ∧ index_get t' docs_head = Some docs_v2
    ∧ index_get docs_tree (docs_path (lit "b")) = None ∧ index_get t' (docs_path (lit "b")) = Some (demo_hash 2)
    ∧ index_get t' (docs_path (lit "z")) = Some (demo_hash 3).
Proof.
  split; [vm_compute; reflexivity|].
  destruct (@below_ok_sound docs_prefix (docs_bindings names_a)) as [Ha _]; [vm_compute; reflexivity|].
  destruct (@below_ok_sound docs_prefix (docs_bindings names_ab)) as [Hb Hs]; [vm_compute; reflexivity|].
  destruct (@merge_fast_forwards ContentMap memory_store sum_sha2 sum_sha2_ok ref_ciborium ref_ciborium_decodes 0 demo_id 60 60
    demo_marker0 (merge_params docs_v2) (mkMergeParams (lit "docs/") docs_v2 None false None) docs_store docs_tree docs_v1
    (docs_bindings names_a) (docs_bindings names_ab)) as (r & t' & E & _ & Hh & Hr).
  - discriminate.
  - vm_compute. reflexivity.
  - apply Nat.leb_le. reflexivity.
  - apply (bool_decide_eq_true_1 _). vm_compute. reflexivity.
  - vm_compute. reflexivity.
  - reflexivity.
  - vm_compute. reflexivity.
  - vm_compute. reflexivity.
  - vm_compute. reflexivity.
  - exact version_v1.
  - exact version_v2.
  - exact Ha.
  - exact Hb.
  - exact Hs.
  - exists r, t'. split; [exact E|]. split; [exact Hh|]. split; [vm_compute; reflexivity|]. split.
    + etrans; [apply (Hr (docs_path (lit "b"))); apply unmoved_branch; vm_compute; reflexivity|]. vm_compute. reflexivity.
    + etrans; [apply (Hr (docs_path (lit "z"))); apply unmoved_branch; vm_compute; reflexivity|]. vm_compute. reflexivity.
Defined.

(** A tree at the second version and back to the first: [b] goes, [z] stays, and so does what is
    bound elsewhere. *)
Lemma checkout_restores_witness :
  let elsewhere := lit "/" ++ demo_id ++ lit "/elsewhere" in
  let t := index_set (index_set (index_set docs_tree docs_head docs_v2) (docs_path (lit "b")) (demo_hash 2)) elsewhere (demo_hash 5) in
  ∃ r s' t', handle_checkout 0 demo_id 60 (checkout_params docs_v1) docs_store t = Done (Ok r) s' t'
    ∧ index_get t' docs_head = Some docs_v1
    ∧ index_get t' (docs_path (lit "a")) = Some (demo_hash 1) ∧ index_get t' (docs_path (lit "b")) = None
    ∧ index_get t' (docs_path (lit "z")) = Some (demo_hash 3) ∧ index_get t' elsewhere = Some (demo_hash 5).
Proof.
  intros elsewhere t.
  destruct (@below_ok_sound docs_prefix (docs_bindings names_a)) as [Ha Hs]; [vm_compute; reflexivity|].
  destruct (@below_ok_sound docs_prefix (docs_bindings names_ab)) as [Hb _]; [vm_compute; reflexivity|].
  destruct (@checkout_restores ContentMap memory_store bt_ok memory_store_ok sum_sha2 sum_sha2_ok ref_ciborium ref_ciborium_decodes 0 demo_id 60
    demo_marker0 (checkout_params docs_v1) (mkCheckout (lit "docs/") None (Some docs_v1)) docs_store t docs_v1
    (docs_bindings names_a) (docs_bindings names_ab)) as (r & s' & t' & E & _ & Hh & Hr & _).
  - discriminate.
  - vm_compute. reflexivity.
  - apply Nat.leb_le. reflexivity.
  - apply (bool_decide_eq_true_1 _). vm_compute. reflexivity.
  - apply (bool_decide_eq_true_1 _). vm_compute. reflexivity.
  - apply no_clash_fresh. vm_compute. reflexivity.
  - vm_compute. reflexivity.
  - vm_compute. reflexivity.
  - vm_compute. reflexivity.
  - vm_compute. reflexivity.
  - assert (Hg : index_get t docs_head = Some docs_v2) by (vm_compute; reflexivity).
    cbn [co_prefix]. fold docs_head. rewrite Hg. exact version_v2.
  - exact version_v1.
  - exact Hb.
  - exact Ha.
  - exact Hs.
  - exists r, s', t'. split; [exact E|]. split; [exact Hh|]. split; [|split; [|split]].
    + etrans; [apply (Hr (docs_path (lit "a"))); apply unmoved; vm_compute; reflexivity|]. vm_compute. reflexivity.
    + etrans; [apply (Hr (docs_path (lit "b"))); apply unmoved; vm_compute; reflexivity|]. vm_compute. reflexivity.
    + etrans; [apply (Hr (docs_path (lit "z"))); apply unmoved; vm_compute; reflexivity|]. vm_compute. reflexivity.
    + etrans; [apply (Hr elsewhere); apply unmoved; vm_compute; reflexivity|]. vm_compute. reflexivity.
Defined.

(** The warning of a checkout that what is not committed "will be overwritten" holds only of the
    paths of the two versions. *)
Example uncommitted_outlives_warning :
  match handle_checkout 0 demo_id 60 (checkout_params docs_v2) docs_store docs_tree with
  | Done (Ok r) _ t' =>
      (contains_sub (lit "will be overwritten by checkout") (data (result_entity r)), index_get t' (docs_path (lit "z")))
  | _ => (false, None)
  end = (true, Some (demo_hash 3)).
Proof. vm_compute. reflexivity. Qed.

(** Two successors of the first version, the tree at the second of them, and [z] not committed. *)
Definition docs_diverged : ContentMap * PathMap := Eval vm_compute in
  let t := index_set docs_tree (docs_path (lit "c")) (demo_hash 4) in
  let '(s, t, _) := committed docs_store (index_remove t (docs_path (lit "z"))).2 in
  (s, index_set t (docs_path (lit "z")) (demo_hash 3)).

(** A merge of versions that have diverged diffs against the live tree: [b] comes, [c] stays,
    and [z], which was bound and in neither version, is gone. *)
Example diverged_merge_unbinds_uncommitted :
  let '(s, t) := docs_diverged in
  match handle_merge 0 demo_id 60 60 (merge_params docs_v2) s t with
  | Done (Ok r) _ t' =>
      (status r, map (λ n, index_get t' (docs_path n)) [lit "a"; lit "b"; lit "c"; lit "z"])
  | _ => (0, [])
  end = (200, [Some (demo_hash 1); Some (demo_hash 2); Some (demo_hash 4); None]).
Proof. vm_compute. reflexivity. Qed.

(** A version whose trie nodes never arrived merges with success, and unbinds what it should
    have kept. *)
Definition version_without_trie : Hash * ContentMap := Eval vm_compute in
  match build_revision_entry 0 (mkRevision (demo_hash 9) [docs_v1]) with
  | Ok e => content_put docs_store e
  | Err _ => (hash_zero, [])
  end.

Example missing_trie_unbinds :
  match handle_merge 0 demo_id 60 60 (merge_params version_without_trie.1) version_without_trie.2 docs_tree with
  | Done (Ok r) _ t' => (status r, index_get docs_tree (docs_path (lit "a")), index_get t' (docs_path (lit "a")))
  | _ => (0, None, None)
  end = (200, Some (demo_hash 1), None).
Proof. vm_compute. reflexivity. Qed.
End demo.
