(* ===== verification/Writers.v ===== *)
(** Concurrent writers to one tracked and automatically versioned prefix
    ([apply_event] of [core/tree/src/root_tracker.rs], [auto_version_once] and [try_emit_once] of
    [extensions/revision/src/engine.rs], run by cascades on threads of their own).

    No lock is held while hooks run, so a step of the relation is one access to the shared stores.
    A trie's root is a function of its bindings (TrieSpec.v) and the identity of a version is its
    root and its parent's, so here a root is its bindings and a version the roots of its history,
    newest first; [[]] stands for no head.  The prefix holds neither the tracker's nor the
    engine's own paths, and the entities bound below it do not change. *)
From S2P Require Import Prelude BTree ContentHash Entity Store Trie Index RootTracker RevisionMerge RevisionConfig.
From S2P Require Import AutoVersion.

Abbreviation Bindings := (gmap (list Z) Hash).

(** What the writers share. *)
Record Tree := mkTree { live : Bindings; tracked : option Bindings; head : list Bindings; branch : list Bindings }.

(** Where a writer's cascade is; the loops count the attempts they have left. *)
Inductive Pc :=
  | Writing
  | Tracking (attempts : nat)
  | Swapping (attempts : nat) (current_root : option Bindings)
  | Emitting (attempts : nat)
  | Rooting (attempts : nat) (current_head : list Bindings)
  | Advancing (attempts : nat) (current_head : list Bindings) (tracked_root : Bindings)
  | Branching (entry : list Bindings)
  | Finished
  | Halted.

#[export] Instance pc_eq_dec : EqDecision Pc.
Proof. solve_decision. Defined.

Record Writer := mkWriter { w_path : list Z; w_new : option Hash; w_pc : Pc }.

Definition at_pc (w : Writer) (pc : Pc) : Writer := mkWriter (w_path w) (w_new w) pc.

(** [trie_put] or [trie_remove] of the event's binding *)
Definition rebound (root : option Bindings) (w : Writer) : Bindings :=
  partial_alter (λ _, w_new w) (w_path w) (default ∅ root).

Section writers.
Context {St : Type} `{ContentStore St} (config : RevisionConfig) (s : St) (active_branch : bool).

(** The gate of [config_matches] for a path below the prefix. *)
Definition versioned (relative : list Z) : bool := negb (existsb (λ pat, glob_match pat relative) (exclude config)).

(** [filtered_root] *)
Definition kept (root : Bindings) : Bindings := filter (λ kv, excluded config s kv.1 kv.2 = false) root.

Definition after_tracking (w : Writer) : Pc :=
  if versioned (w_path w) then Emitting MAX_HEAD_CAS_RETRIES else Finished.

(** One access of a writer to the stores. *)
Definition writer_step (t : Tree) (w : Writer) : Tree * Pc :=
  match w_pc w with
  | Writing =>
      if bool_decide (live t !! w_path w = w_new w) then (t, Finished)
      else (mkTree (rebound (Some (live t)) w) (tracked t) (head t) (branch t), Tracking MAX_ROOT_CAS_RETRIES)
  | Tracking 0 => (t, Halted)
  | Tracking (S attempts) =>
      if bool_decide (tracked t = Some (rebound (tracked t) w)) then (t, after_tracking w)
      else (t, Swapping attempts (tracked t))
  | Swapping attempts current_root =>
      if bool_decide (tracked t = current_root) then
        (mkTree (live t) (Some (rebound current_root w)) (head t) (branch t), after_tracking w)
      else (t, Tracking attempts)
  | Emitting 0 => (t, Halted)
  | Emitting (S attempts) => (t, Rooting attempts (head t))
  | Rooting attempts current_head =>
      match tracked t with
      | None => (t, Halted)
      | Some tracked_root =>
          if bool_decide (hd_error current_head = Some (kept tracked_root)) then (t, Finished)
          else (t, Advancing attempts current_head tracked_root)
      end
  | Advancing attempts current_head tracked_root =>
      if bool_decide (head t = current_head) then
        let entry := kept tracked_root :: current_head in
        (mkTree (live t) (tracked t) entry (branch t), if active_branch then Branching entry else Finished)
      else (t, Emitting attempts)
  | Branching entry => (mkTree (live t) (tracked t) (head t) entry, Finished)
  | Finished | Halted => (t, w_pc w)
  end.

Definition stopped (w : Writer) : Prop := w_pc w = Finished ∨ w_pc w = Halted.

(** Some writer that has not stopped makes a step. *)
Inductive step : Tree * list Writer → Tree * list Writer → Prop :=
  | step_at t ws i w :
      ws !! i = Some w → ¬ stopped w →
      step (t, ws) ((writer_step t w).1, <[i := at_pc w (writer_step t w).2]> ws).

(** A schedule names the writers in the order of their steps. *)
Fixpoint run_schedule (schedule : list nat) (c : Tree * list Writer) : Tree * list Writer :=
  match schedule with
  | [] => c
  | i :: schedule =>
      match c.2 !! i with
      | Some w => run_schedule schedule ((writer_step c.1 w).1, <[i := at_pc w (writer_step c.1 w).2]> c.2)
      | None => run_schedule schedule c
      end
  end.
End writers.

(** * Nothing is lost

    Every path goes at most once from what was bound before to what its writer bound.  The
    invariant says who has seen that, and is stable under what the other writers do. *)

Section lossless.
Context {St : Type} `{ContentStore St} (config : RevisionConfig) (s : St) (active_branch : bool).
Context (old new : Bindings).

Notation keep p v := (x ← (v : option Hash); if excluded config s p x then None else Some x).
Notation root t := (default ∅ (tracked t)).

Lemma kept_lookup (m : Bindings) p : kept config s m !! p = keep p (m !! p).
Proof.
  unfold kept. apply option_eq. intros x. rewrite map_lookup_filter_Some. cbn [fst snd].
  destruct (m !! p) as [y|]; cbn [mbind option_bind]; [|split; [by intros [? _]|done]].
  destruct (excluded config s p y) eqn:E; split; [intros [[= ->] ?]; congruence|done|by intros [[= ->] _]|].
  by intros [= ->].
Qed.

Definition root_behind (t : Tree) (r : Bindings) : Prop :=
  ∀ p, r !! p = keep p (old !! p) ∨ (root t !! p = new !! p ∧ r !! p = keep p (new !! p)).

Definition head_ok (t : Tree) (h : list Bindings) : Prop := ∀ r, hd_error h = Some r → root_behind t r.

(** What the version [h] has of the new bindings, [v] has. *)
Definition behind (h v : list Bindings) : Prop :=
  ∀ r, hd_error h = Some r →
    ∃ r', hd_error v = Some r' ∧ ∀ p, r !! p = keep p (old !! p) ∨ r' !! p = keep p (new !! p).

Definition in_head (t : Tree) (w : Writer) : Prop :=
  versioned config (w_path w) = true → old !! w_path w ≠ new !! w_path w →
  ∃ r, hd_error (head t) = Some r ∧ r !! w_path w = keep (w_path w) (new !! w_path w).

Definition root_read (t : Tree) (h : list Bindings) (r : Bindings) (p : list Z) : Prop :=
  (r !! p = new !! p ∧ root t !! p = new !! p)
  ∨ (r !! p = old !! p ∧ ∀ r', hd_error h = Some r' → r' !! p = keep p (old !! p)).

Definition writer_ok (t : Tree) (w : Writer) : Prop :=
  new !! w_path w = w_new w ∧
  match w_pc w with
  | Writing => live t !! w_path w = old !! w_path w
  | _ => live t !! w_path w = w_new w
  end ∧
  match w_pc w with
  | Writing | Tracking _ | Swapping _ _ | Halted => True
  | Emitting _ => root t !! w_path w = w_new w
  | Rooting _ h => root t !! w_path w = w_new w ∧ head_ok t h ∧ behind h (head t)
  | Advancing _ h r =>
      root t !! w_path w = w_new w ∧ head_ok t h ∧ behind h (head t) ∧ r !! w_path w = w_new w
      ∧ ∀ p, root_read t h r p
  | Branching _ | Finished => root t !! w_path w = w_new w ∧ in_head t w
  end.

Definition tree_ok (t : Tree) : Prop :=
  (∀ p, root t !! p = old !! p ∨ root t !! p = new !! p) ∧ head_ok t (head t).

(** What a step at the path [q] may do to the tree. *)
Record evolves (q : list Z) (t t' : Tree) : Prop := {
  ev_live p : p ≠ q → live t' !! p = live t !! p;
  ev_root p : root t !! p = new !! p → root t' !! p = new !! p;
  ev_head : behind (head t) (head t');
  ev_suffix : head t `suffix_of` head t';
}.

Lemma behind_refl t h : head_ok t h → behind h h.
Proof. intros Hh r Hr. exists r. split; [done|]. intros p. destruct (Hh r Hr p) as [?|[_ ?]]; auto. Qed.

Lemma head_ok_mono q t t' h : evolves q t t' → head_ok t h → head_ok t' h.
Proof. intros He Hh r Hr p. destruct (Hh r Hr p) as [?|[? ?]]; [by left|right]. split; [by eapply ev_root|done]. Qed.

(** A root that is neither old nor new where those agree. *)
Lemma same_kept t r p : root_behind t r → keep p (old !! p) = keep p (new !! p) → r !! p = keep p (new !! p).
Proof. intros Hr Heq. destruct (Hr p) as [->|[_ ?]]; done. Qed.

Lemma behind_trans t h v v' : head_ok t v' → behind h v → behind v v' → behind h v'.
Proof.
  intros Hv' H1 H2 r Hr. destruct (H1 r Hr) as (r1 & Hr1 & E1). destruct (H2 r1 Hr1) as (r2 & Hr2 & E2).
  exists r2. split; [done|]. intros p. destruct (E1 p) as [?|Ha]; [by left|right].
  destruct (E2 p) as [Hb|?]; [|done]. apply (same_kept t); [by apply Hv'|congruence].
Qed.

Lemma evolves_refl q t : head_ok t (head t) → evolves q t t.
Proof. intros Hh. constructor; [done|done|by eapply behind_refl|done]. Qed.

Lemma in_head_mono q t t' w : evolves q t t' → head_ok t' (head t') → in_head t w → in_head t' w.
Proof.
  intros He Hh Hw Hv Hne. destruct (Hw Hv Hne) as (r & Hr & Hp). destruct (ev_head _ _ _ He r Hr) as (r' & Hr' & E).
  exists r'. split; [done|]. destruct (E (w_path w)) as [Ho|?]; [|done].
  apply (same_kept t'); [by apply Hh|congruence].
Qed.

(** The other writers keep what they have. *)
Lemma writer_ok_mono q t t' w : evolves q t t' → tree_ok t' → w_path w ≠ q → writer_ok t w → writer_ok t' w.
Proof.
  intros He [Ht' Hh'] Hq (Hn & Hl & Hpc). pose proof (ev_live _ _ _ He _ Hq) as Hlive.
  pose proof (ev_root _ _ _ He (w_path w)) as Hroot. rewrite Hn in Hroot.
  assert (Hbh : ∀ h, behind h (head t) → behind h (head t')).
  { intros h Hb. eapply behind_trans; [exact Hh'|exact Hb|by eapply ev_head]. }
  pose proof (λ h, head_ok_mono q t t' h He) as Hmono.
  split; [done|]. split; [by destruct (w_pc w); rewrite Hlive|].
  destruct (w_pc w) as [|n|n h|n|n h|n h r|e| |]; auto.
  - destruct Hpc as (? & ? & ?). auto.
  - destruct Hpc as (? & ? & ? & ? & Hr). split_and!; auto. intros p.
    destruct (Hr p) as [[? Hp]|?]; [left|by right]. split; [done|by eapply ev_root].
  - destruct Hpc as [? ?]. split; [auto|by eapply in_head_mono].
  - destruct Hpc as [? ?]. split; [auto|by eapply in_head_mono].
Qed.

Lemma rebound_lookup r w p : rebound r w !! p = if decide (p = w_path w) then w_new w else default ∅ r !! p.
Proof. unfold rebound. case_decide as Hp; [subst; apply lookup_partial_alter_eq|by apply lookup_partial_alter_ne]. Qed.

Definition step_good (t : Tree) (w : Writer) (o : Tree * Pc) : Prop :=
  tree_ok o.1 ∧ evolves (w_path w) t o.1 ∧ writer_ok o.1 (at_pc w o.2).

(** Moving on without touching the tree. *)
Lemma stay_good t w pc : tree_ok t → writer_ok t (at_pc w pc) → step_good t w (t, pc).
Proof. intros Ht Hw. split; [done|]. split; [apply evolves_refl, Ht|done]. Qed.

Lemma after_tracking_ok t w :
  new !! w_path w = w_new w → live t !! w_path w = w_new w → root t !! w_path w = w_new w →
  writer_ok t (at_pc w (after_tracking config w)).
Proof.
  intros Hn Hl Hr. unfold after_tracking. destruct (versioned config (w_path w)) eqn:E;
    (split; [done|]; split; [done|]); [done|]. split; [done|]. intros Hv. cbn [at_pc w_path] in Hv. congruence.
Qed.

Lemma writing_good t w : tree_ok t → writer_ok t w → w_pc w = Writing → step_good t w (writer_step config s active_branch t w).
Proof.
  intros Ht (Hn & Hl & _) Hpc. unfold writer_step. rewrite Hpc in *. case_bool_decide as Hsame.
  - apply stay_good; [done|]. split; [done|]. split; [done|]. cbn. split.
    + destruct (proj1 Ht (w_path w)); congruence.
    + intros _ Hne. cbn [at_pc w_path] in Hne. congruence.
  - split; [done|]. split; [|split; [done|split; [|done]]].
    + constructor; [|done|by eapply behind_refl, Ht|done]. intros p Hp. cbn [live fst]. by rewrite rebound_lookup, decide_False.
    + cbn. by rewrite rebound_lookup, decide_True.
Qed.

(** Storing the rebound root is the one step that changes it. *)
Lemma swap_good t w : tree_ok t → new !! w_path w = w_new w → live t !! w_path w = w_new w →
  step_good t w (mkTree (live t) (Some (rebound (tracked t) w)) (head t) (branch t), after_tracking config w).
Proof.
  intros [Ht Hh] Hn Hl. set (t' := mkTree _ _ _ _).
  assert (Hr : ∀ p, root t' !! p = if decide (p = w_path w) then w_new w else root t !! p) by apply rebound_lookup.
  assert (Hroot : ∀ p, root t !! p = new !! p → root t' !! p = new !! p).
  { intros p Hp. rewrite Hr. case_decide; [by subst|done]. }
  assert (He : evolves (w_path w) t t') by (constructor; [done|exact Hroot|by eapply behind_refl|done]).
  split; [|split; [done|]].
  - split; [|by eapply head_ok_mono]. intros p. cbn [fst]. rewrite Hr. case_decide; [subst; by right|apply Ht].
  - apply after_tracking_ok; [done|done|]. cbn [fst]. by rewrite Hr, decide_True.
Qed.

Lemma tracking_good t w : tree_ok t → writer_ok t w →
  match w_pc w with Tracking _ | Swapping _ _ => True | _ => False end →
  step_good t w (writer_step config s active_branch t w).
Proof.
  intros Ht (Hn & Hl & _) Hpc. unfold writer_step.
  destruct (w_pc w) as [|[|n]|n h| | | | | |] eqn:E; try done; clear Hpc.
  - by apply stay_good.
  - case_bool_decide as Hsame; [|by apply stay_good]. apply stay_good; [done|]. apply after_tracking_ok; [done|done|].
    rewrite Hsame. cbn. by rewrite rebound_lookup, decide_True.
  - case_bool_decide as Hsame; [subst h; by apply swap_good|by apply stay_good].
Qed.

(** The head read before the root: the root is at least as new. *)
Lemma rooting_good t w n h r : tree_ok t → writer_ok t w → w_pc w = Rooting n h → tracked t = Some r →
  step_good t w (if bool_decide (hd_error h = Some (kept config s r)) then (t, Finished) else (t, Advancing n h r)).
Proof.
  intros Ht (Hn & Hl & Hp) Hpc Hr. rewrite Hpc in *. destruct Hp as (Hroot & Hh & Hb).
  assert (Hrw : r !! w_path w = w_new w) by (by rewrite Hr in Hroot).
  case_bool_decide as Hd; (apply stay_good; [done|]; split; [done|]; split; [done|]).
  - split; [done|]. intros _ _. cbn [at_pc w_path].
    destruct (Hb _ Hd) as (r' & Hr' & E). exists r'. split; [done|].
    assert (Hk : kept config s r !! w_path w = keep (w_path w) (new !! w_path w)) by (rewrite kept_lookup, Hrw; by rewrite Hn).
    destruct (E (w_path w)) as [Ho|?]; [|done]. apply (same_kept t); [by apply Ht|congruence].
  - cbn. split_and!; try done. intros p. destruct (decide (r !! p = new !! p)) as [Hnew|Hnew].
    + left. by rewrite Hr.
    + right. pose proof (proj1 Ht p) as Hor. rewrite Hr in Hor. cbn [default from_option id] in Hor.
      destruct Hor as [Hold|?]; [|done]. split; [done|]. intros r' Hr'.
      destruct (Hh r' Hr' p) as [?|[Hx _]]; [done|]. rewrite Hr in Hx. done.
Qed.

(** Advancing the head past the one read. *)
Lemma advance_good t w h r pc : tree_ok t → new !! w_path w = w_new w → live t !! w_path w = w_new w →
  root t !! w_path w = w_new w → r !! w_path w = w_new w → (∀ p, root_read t h r p) → head t = h →
  (∃ e, pc = Branching e) ∨ pc = Finished →
  step_good t w (mkTree (live t) (tracked t) (kept config s r :: h) (branch t), pc).
Proof.
  intros [Ht Hh] Hn Hl Hroot Hr Hread <- Hpc.
  set (t' := mkTree _ _ _ _).
  assert (Hnew : root_behind t' (kept config s r)).
  { intros p. rewrite kept_lookup. destruct (Hread p) as [[-> ?]|[-> _]]; auto. }
  assert (Hh' : head_ok t' (head t')) by (intros ? [= <-]; exact Hnew).
  assert (He : evolves (w_path w) t t').
  { constructor; [done|done| |by eexists [_]]. intros r0 Hr0. eexists. split; [done|]. intros p.
    destruct (Hh r0 Hr0 p) as [?|[_ Hk]]; [by left|]. rewrite kept_lookup.
    destruct (Hread p) as [[-> _]|[-> Ho]]; [by right|left]. by apply Ho. }
  split; [done|]. split; [done|].
  assert (Hin : in_head t' w).
  { intros _ _. eexists. split; [done|]. by rewrite kept_lookup, Hr, Hn. }
  destruct Hpc as [[e ->]| ->]; (split; [done|]; split; [done|]); by split.
Qed.

Lemma emitting_good t w : tree_ok t → writer_ok t w →
  match w_pc w with Emitting _ | Rooting _ _ | Advancing _ _ _ | Branching _ => True | _ => False end →
  step_good t w (writer_step config s active_branch t w).
Proof.
  intros Ht Hw Hpc. pose proof Hw as (Hn & Hl & Hp). unfold writer_step.
  destruct (w_pc w) as [| | |[|n]|n h|n h r|e| |] eqn:E; try done; clear Hpc.
  - by apply stay_good.
  - apply stay_good; [done|]. split; [done|]. split; [done|]. cbn. split_and!; [done|apply Ht|eapply behind_refl, Ht].
  - destruct (tracked t) as [r|] eqn:Er; [|by apply stay_good].
    by apply rooting_good.
  - destruct Hp as (Hroot & Hh & Hb & Hr & Hread). case_bool_decide as Hd; [|by apply stay_good].
    apply advance_good; try done. destruct active_branch; eauto.
  - split; [done|]. split; [|done]. constructor; [done|done|eapply behind_refl, Ht|done].
Qed.

Lemma step_good_any t w : tree_ok t → writer_ok t w → ¬ stopped w → step_good t w (writer_step config s active_branch t w).
Proof.
  intros Ht Hw Hs. destruct (w_pc w) eqn:E; first [by apply writing_good|apply tracking_good; [done|done|by rewrite E]|
    apply emitting_good; [done|done|by rewrite E]|destruct Hs; by (left + right)].
Qed.

(** The whole configuration. *)
Definition config_ok (c : Tree * list Writer) : Prop :=
  tree_ok c.1 ∧ NoDup (map w_path c.2) ∧ (∀ w, w ∈ c.2 → writer_ok c.1 w)
  ∧ ∀ p, p ∉ map w_path c.2 → live c.1 !! p = new !! p.

Lemma insert_same_paths (ws : list Writer) i w pc :
  ws !! i = Some w → map w_path (<[i := at_pc w pc]> ws) = map w_path ws.
Proof.
  intros Hi. rewrite list_fmap_insert. apply list_insert_id. by rewrite list_lookup_fmap, Hi.
Qed.

Lemma step_config_ok c c' : config_ok c → step config s active_branch c c' → config_ok c' ∧ head c.1 `suffix_of` head c'.1.
Proof.
  intros (Ht & Hnd & Hws & Hlive) Hstep. destruct Hstep as [t ws i w Hi Hs]. cbn [fst snd] in *.
  destruct (step_good_any t w Ht (Hws w (list_elem_of_lookup_2 _ _ _ Hi)) Hs) as (Ht' & He & Hw').
  set (t' := (writer_step config s active_branch t w).1) in *. split; [|apply He].
  unfold config_ok. cbn [fst snd]. rewrite insert_same_paths by done. split_and!; [done|done| |].
  - intros w2 (j & Hj)%list_elem_of_lookup. destruct (decide (i = j)) as [<-|Hij].
    + rewrite list_lookup_insert_eq in Hj by (by eapply lookup_lt_Some). by injection Hj as <-.
    + rewrite list_lookup_insert_ne in Hj by done. eapply writer_ok_mono; [exact He|exact Ht'| |by eapply Hws, list_elem_of_lookup_2].
      intros Heq. apply Hij. eapply (NoDup_lookup (map w_path ws)); [exact Hnd|by rewrite list_lookup_fmap, Hi|].
      by rewrite list_lookup_fmap, Hj; cbn; rewrite Heq.
  - intros p Hp. rewrite (ev_live _ _ _ He); [by apply Hlive|]. intros ->. apply Hp.
    apply list_elem_of_fmap. exists w. split; [done|by eapply list_elem_of_lookup_2].
Qed.

Lemma steps_config_ok c c' : config_ok c → rtc (step config s active_branch) c c' → config_ok c' ∧ head c.1 `suffix_of` head c'.1.
Proof.
  intros Hc Hr. induction Hr as [c|c c1 c2 Hstep _ IH]; [done|].
  destruct (step_config_ok _ _ Hc Hstep) as [Hc1 Hs]. destruct (IH Hc1) as [? ?]. split; [done|by etrans].
Qed.
End lossless.

(** * Everybody finishes

    A compare-and-set is lost to another writer's, and every writer wins one only. *)

Definition past_tracking (pc : Pc) : bool :=
  match pc with Writing | Tracking _ | Swapping _ _ => false | _ => true end.
Definition past_emitting (pc : Pc) : bool :=
  match pc with Branching _ | Finished => true | _ => false end.

Definition total (g : Pc → nat) (ws : list Writer) : nat := sum_list_with (λ w, g (w_pc w)) ws.
Definition count (f : Pc → bool) : list Writer → nat := total (λ pc, Nat.b2n (f pc)).

(** More than the steps that a writer at [pc] can still make. *)
Definition steps_left (pc : Pc) : nat :=
  match pc with
  | Writing => 329
  | Tracking n => 2 * n + 200
  | Swapping n _ => 2 * n + 201
  | Emitting n => 3 * n + 2
  | Rooting n _ => 3 * n + 4
  | Advancing n _ _ => 3 * n + 3
  | Branching _ => 1
  | Finished | Halted => 0
  end.

Section finishing.
Context {St : Type} `{ContentStore St} (config : RevisionConfig) (s : St) (active_branch : bool).
Local Open Scope nat_scope.

(** With [c] writers past tracking and [d] past emitting, as many attempts are left as can fail. *)
Definition attempts_ok (t : Tree) (c d : nat) (pc : Pc) : Prop :=
  match pc with
  | Tracking n => 64 ≤ n + c
  | Swapping n r => 63 ≤ n + c ∧ (tracked t ≠ r → 64 ≤ n + c)
  | Emitting n => 64 ≤ n + d ∧ is_Some (tracked t)
  | Rooting n h | Advancing n h _ => 63 ≤ n + d ∧ (head t ≠ h → 64 ≤ n + d) ∧ is_Some (tracked t)
  | Halted => False
  | _ => True
  end.

Lemma total_insert g ws i w w' :
  ws !! i = Some w → total g (<[i := w']> ws) + g (w_pc w) = total g ws + g (w_pc w').
Proof.
  unfold total. revert i. induction ws as [|x ws IH]; intros [|i] Hi; [done|done| |].
  - injection Hi as ->. cbn. lia.
  - specialize (IH i Hi). change (<[S i := w']> (x :: ws)) with (x :: <[i := w']> ws). cbn [sum_list_with]. lia.
Qed.

Lemma count_bound f ws i w : ws !! i = Some w → f (w_pc w) = false → count f ws < length ws.
Proof.
  unfold count, total. revert i. induction ws as [|x ws IH]; intros [|i] Hi Hf; [done|done| |]; cbn in *.
  - injection Hi as ->. rewrite Hf. cbn.
    assert (Hle : sum_list_with (λ w, Nat.b2n (f (w_pc w))) ws ≤ length ws); [|lia].
    clear. induction ws as [|y ws IH]; cbn; [lia|]. destruct (f (w_pc y)); cbn; lia.
  - specialize (IH i Hi Hf). destruct (f (w_pc x)); cbn; lia.
Qed.

Lemma attempts_mono t t' c c' d d' pc :
  attempts_ok t c d pc → c ≤ c' → d ≤ d' → (tracked t' = tracked t ∨ c < c') → (head t' = head t ∨ d < d') →
  (is_Some (tracked t) → is_Some (tracked t')) → attempts_ok t' c' d' pc.
Proof.
  intros Hpc Hc Hd Ht Hh Hm.
  assert (Hhead : ∀ n h, (head t ≠ h → 64 ≤ n + d) → 63 ≤ n + d → head t' ≠ h → 64 ≤ n + d').
  { intros n h Hn Hn'. destruct Hh as [->|?]; [|lia]. intros Hne. specialize (Hn Hne). lia. }
  destruct pc as [|n|n r|n|n h|n h r|e| |]; cbn in *; auto; [lia| |intuition lia|..].
  - destruct Hpc as [H1 H2]. split; [lia|]. destruct Ht as [->|?]; [|lia]. intros Hne. specialize (H2 Hne). lia.
  - destruct Hpc as (? & ? & ?). split_and!; [lia|by apply Hhead|auto].
  - destruct Hpc as (? & ? & ?). split_and!; [lia|by apply Hhead|auto].
Qed.

(** What a step does to the counts. *)
Record advances (t : Tree) (c d : nat) (pc : Pc) (o : Tree * Pc) (c' d' : nat) : Prop := {
  adv_c : c ≤ c';
  adv_d : d ≤ d';
  adv_tracked : tracked o.1 = tracked t ∨ c < c';
  adv_head : head o.1 = head t ∨ d < d';
  adv_some : is_Some (tracked t) → is_Some (tracked o.1);
  adv_ok : attempts_ok o.1 c' d' o.2;
  adv_left : steps_left o.2 < steps_left pc;
}.

Lemma stay_advances t c d pc pc' :
  past_tracking pc = past_tracking pc' → past_emitting pc = past_emitting pc' → attempts_ok t c d pc' →
  steps_left pc' < steps_left pc →
  ∀ c' d', c' + Nat.b2n (past_tracking pc) = c + Nat.b2n (past_tracking pc') →
    d' + Nat.b2n (past_emitting pc) = d + Nat.b2n (past_emitting pc') → advances t c d pc (t, pc') c' d'.
Proof.
  intros Hpt Hpe Hok Hl c' d'. rewrite Hpt, Hpe. intros Hc Hd. assert (c' = c) as -> by lia. assert (d' = d) as -> by lia.
  constructor; auto.
Qed.

Lemma track_advances t t' w c d pc :
  past_tracking pc = false → past_emitting pc = false → head t' = head t → is_Some (tracked t') → 200 ≤ steps_left pc →
  ∀ c' d', c' + Nat.b2n (past_tracking pc) = c + Nat.b2n (past_tracking (after_tracking config w)) →
    d' + Nat.b2n (past_emitting pc) = d + Nat.b2n (past_emitting (after_tracking config w)) →
    advances t c d pc (t', after_tracking config w) c' d'.
Proof.
  intros -> -> Hh Hs Hl c' d' Hc Hd.
  assert (Hp : past_tracking (after_tracking config w) = true) by (unfold after_tracking; by destruct (versioned config (w_path w))).
  rewrite Hp in Hc. cbn in Hc, Hd.
  constructor; cbn [fst snd]; [lia|lia|right; lia|by left|done| |].
  - unfold after_tracking. destruct (versioned config (w_path w)); [|done]. split; [unfold MAX_HEAD_CAS_RETRIES; lia|done].
  - unfold after_tracking. destruct (versioned config (w_path w)); cbn [steps_left]; unfold MAX_HEAD_CAS_RETRIES; lia.
Qed.

Lemma step_advances t w c d :
  attempts_ok t c d (w_pc w) → ¬ stopped w →
  (past_tracking (w_pc w) = false → c < 64) → (past_emitting (w_pc w) = false → d < 64) →
  let o := writer_step config s active_branch t w in
  ∀ c' d', c' + Nat.b2n (past_tracking (w_pc w)) = c + Nat.b2n (past_tracking o.2) →
    d' + Nat.b2n (past_emitting (w_pc w)) = d + Nat.b2n (past_emitting o.2) →
    advances t c d (w_pc w) o c' d'.
Proof.
  intros Hok Hs Hc Hd o. subst o. unfold writer_step.
  destruct (w_pc w) as [|[|n]|n r|[|n]|n h|n h r|e| |] eqn:E; try (by destruct Hs; (left + right)); cbn in Hok.
  - case_bool_decide; cbn; intros c' d' Hc' Hd'; (constructor; cbn; [lia|lia|by left|by left|done| |lia]); [done|].
    unfold MAX_ROOT_CAS_RETRIES. lia.
  - specialize (Hc eq_refl). lia.
  - case_bool_decide as Hd0.
    + apply track_advances; [done..|rewrite Hd0; by eexists|cbn; lia].
    + apply stay_advances; [done|done| |cbn; lia]. cbn. split; [lia|done].
  - case_bool_decide as Hd0.
    + apply track_advances; [done..|by eexists|cbn; lia].
    + apply stay_advances; [done|done| |cbn; lia]. cbn. by apply Hok.
  - specialize (Hd eq_refl). lia.
  - apply stay_advances; [done|done| |cbn; lia]. cbn. split_and!; [lia|done|apply Hok].
  - destruct Hok as (Hn & Hne & r & Hr). rewrite Hr. case_bool_decide as Hd0.
    + cbn. intros c' d' Hc' Hd'. constructor; cbn; [lia|lia|by left|by left|done|done|lia].
    + apply stay_advances; [done|done| |cbn; lia]. cbn. rewrite Hr. split_and!; [done|done|by eexists].
  - destruct Hok as (Hn & Hne & Hr). case_bool_decide as Hd0.
    + destruct active_branch; cbn; intros c' d' Hc' Hd'; (constructor; cbn; [lia|lia|by left|right; lia|done|done|lia]).
    + apply stay_advances; [done|done| |cbn; lia]. cbn. split; [by apply Hne|done].
  - cbn. intros c' d' Hc' Hd'. constructor; cbn; [lia|lia|by left|by left|done|done|lia].
Qed.

Definition all_attempts_ok (c : Tree * list Writer) : Prop :=
  length c.2 ≤ 64 ∧
  ∀ w, w ∈ c.2 → attempts_ok c.1 (count past_tracking c.2) (count past_emitting c.2) (w_pc w).

Lemma step_attempts_ok c c' :
  all_attempts_ok c → step config s active_branch c c' → all_attempts_ok c' ∧ total steps_left c'.2 < total steps_left c.2.
Proof.
  intros [Hlen Hws] Hstep. destruct Hstep as [t ws i w Hi Hs]. cbn [fst snd] in *.
  destruct (writer_step config s active_branch t w) as [t' pc'] eqn:Eo. cbn [fst snd].
  pose proof (total_insert (λ pc, Nat.b2n (past_tracking pc)) ws i w (at_pc w pc') Hi) as Hc.
  pose proof (total_insert (λ pc, Nat.b2n (past_emitting pc)) ws i w (at_pc w pc') Hi) as Hd.
  pose proof (total_insert steps_left ws i w (at_pc w pc') Hi) as Hl. cbn [at_pc w_pc] in Hc, Hd, Hl.
  destruct (step_advances t w _ _ (Hws w (list_elem_of_lookup_2 _ _ _ Hi)) Hs) with
    (c' := count past_tracking (<[i:=at_pc w pc']> ws)) (d' := count past_emitting (<[i:=at_pc w pc']> ws))
    as [Hc1 Hd1 Ht1 Hh1 Hs1 Hok1 Hl1].
  - intros Hp. pose proof (count_bound _ _ _ _ Hi Hp). lia.
  - intros Hp. pose proof (count_bound _ _ _ _ Hi Hp). lia.
  - by rewrite Eo.
  - by rewrite Eo.
  - rewrite Eo in *. cbn [fst snd] in *. split; [|lia].
    unfold all_attempts_ok. cbn [fst snd]. split; [by rewrite length_insert|].
    intros w2 (j & Hj)%list_elem_of_lookup. destruct (decide (i = j)) as [<-|Hij].
    + rewrite list_lookup_insert_eq in Hj by (by eapply lookup_lt_Some). by injection Hj as <-.
    + rewrite list_lookup_insert_ne in Hj by done. eapply attempts_mono; [by eapply Hws, list_elem_of_lookup_2|done..].
Qed.

Lemma steps_attempts_ok k c c' :
  all_attempts_ok c → nsteps (step config s active_branch) k c c' →
  all_attempts_ok c' ∧ k + total steps_left c'.2 ≤ total steps_left c.2.
Proof.
  intros Hc Hr. induction Hr as [c|k c c1 c2 Hstep _ IH]; [done|].
  destruct (step_attempts_ok _ _ Hc Hstep) as [Hc1 Hl]. destruct (IH Hc1) as [? ?]. split; [done|lia].
Qed.
End finishing.

(** * Properties *)

(** The tree with what every writer of [ws] has written. *)
Definition all_written (t : Tree) (ws : list Writer) : Bindings := foldr (λ w m, rebound (Some m) w) (live t) ws.

Lemma all_written_other t ws p : p ∉ map w_path ws → all_written t ws !! p = live t !! p.
Proof.
  induction ws as [|w ws IH]; cbn; [done|]. intros [Hp Hn]%not_elem_of_cons. rewrite rebound_lookup, decide_False by done.
  by apply IH.
Qed.

Lemma all_written_path t ws w : NoDup (map w_path ws) → w ∈ ws → all_written t ws !! w_path w = w_new w.
Proof.
  induction ws as [|x ws IH]; cbn; [by intros _ ?%elem_of_nil|]. intros [Hx Hnd]%NoDup_cons Hw. rewrite rebound_lookup.
  apply elem_of_cons in Hw as [->|Hw]; [by rewrite decide_True|]. rewrite decide_False; [by apply IH|].
  cbn [default from_option id]. intros Heq. apply Hx. rewrite <-Heq. by apply list_elem_of_fmap_2.
Qed.

Section theorems.
Context {St : Type} `{ContentStore St} (config : RevisionConfig) (s : St) (active_branch : bool).

Lemma not_versioned_left_out p h : versioned config p = false → excluded config s p h = true.
Proof. unfold versioned, excluded. intros Hv%negb_false_iff. by rewrite Hv. Qed.

Lemma steps_paths c c' : rtc (step config s active_branch) c c' → map w_path c'.2 = map w_path c.2.
Proof.
  induction 1 as [|c c1 c2 Hstep _ IH]; [done|]. rewrite IH. destruct Hstep as [t ws i w Hi _]. by apply insert_same_paths.
Qed.

(** Where everybody has finished. *)
Lemma config_ok_finished (t0 t : Tree) ws ws' :
  let all := all_written t0 ws in
  config_ok config s (live t0) all (t, ws') → (∀ w, w ∈ ws' → w_pc w = Finished) → map w_path ws' = map w_path ws →
  live t = all ∧ default ∅ (tracked t) = all ∧ (∀ r, hd_error (head t) = Some r → r = kept config s all).
Proof.
  intros all ([Hroot Hhead] & _ & Hws & Hlive) Hfin Hpaths. cbn [fst snd] in *.
  assert (Hcase : ∀ p, (∃ w, w ∈ ws' ∧ w_path w = p) ∨ live t0 !! p = all !! p ∧ live t !! p = all !! p).
  { intros p. destruct (decide (p ∈ map w_path ws')) as [(w & -> & Hw)%list_elem_of_fmap|Hp]; [left; eauto|].
    right. split; [|by apply Hlive]. symmetry. apply all_written_other. by rewrite <-Hpaths. }
  assert (Hdone : ∀ w, w ∈ ws' → all !! w_path w = w_new w ∧ live t !! w_path w = w_new w
    ∧ default ∅ (tracked t) !! w_path w = w_new w ∧ in_head config s (live t0) all t w).
  { intros w Hw. pose proof (Hws w Hw) as (? & Hl & Hpc). rewrite (Hfin w Hw) in *. tauto. }
  split_and!.
  - apply map_eq. intros p. destruct (Hcase p) as [(w & Hw & <-)|[_ ?]]; [|done].
    destruct (Hdone w Hw) as (? & ? & _). congruence.
  - apply map_eq. intros p. destruct (Hcase p) as [(w & Hw & <-)|[Heq _]].
    + destruct (Hdone w Hw) as (? & _ & ? & _). congruence.
    + destruct (Hroot p); congruence.
  - intros r Hr. apply map_eq. intros p. rewrite kept_lookup. destruct (Hhead r Hr p) as [Ho|[_ ?]]; [|done].
    destruct (decide (live t0 !! p = all !! p)) as [<-|Hne]; [done|].
    destruct (Hcase p) as [(w & Hw & <-)|[? _]]; [|done].
    destruct (versioned config (w_path w)) eqn:Hv.
    + destruct (Hdone w Hw) as (_ & _ & _ & Hin). destruct (Hin Hv Hne) as (r' & Hr' & ?). congruence.
    + rewrite Ho. destruct (live t0 !! w_path w), (all !! w_path w); cbn; by rewrite ?not_versioned_left_out.
Qed.

(** C4. Concurrent writers of different paths lose nothing.  When each of them has finished,
    however their accesses interleaved, the tree and the tracked root have the bindings of all,
    the head is a version of exactly those that the configuration keeps, and it descends from
    every version that was ever the head. *)
Theorem writers_lose_nothing t0 ws t ws' :
  (∀ w, w ∈ ws → w_pc w = Writing) → NoDup (map w_path ws) →
  (∀ p, default ∅ (tracked t0) !! p = live t0 !! p) →
  (∀ r, hd_error (head t0) = Some r → r = kept config s (live t0)) →
  rtc (step config s active_branch) (t0, ws) (t, ws') → (∀ w, w ∈ ws' → w_pc w = Finished) →
  let all := all_written t0 ws in
  live t = all ∧ default ∅ (tracked t) = all
  ∧ (∀ r, hd_error (head t) = Some r → r = kept config s all)
  ∧ (∀ w, w ∈ ws → versioned config (w_path w) = true → live t0 !! w_path w ≠ w_new w → head t ≠ [])
  ∧ (∀ c, rtc (step config s active_branch) (t0, ws) c → rtc (step config s active_branch) c (t, ws') →
       head c.1 `suffix_of` head t).
Proof.
  intros Hw Hnd Htr Hhead Hrun Hfin all.
  assert (Hinit : config_ok config s (live t0) all (t0, ws)).
  { split_and!; cbn [fst snd]; [|done| |].
    - split; [intros p; left; by rewrite Htr|]. intros r Hr p. left. rewrite (Hhead r Hr). apply kept_lookup.
    - intros w Hin. split; [by apply all_written_path|]. by rewrite (Hw w Hin).
    - intros p Hp. symmetry. by apply all_written_other. }
  destruct (steps_config_ok _ _ _ _ _ _ _ Hinit Hrun) as [Hc _]. pose proof (steps_paths _ _ Hrun) as Hpaths. cbn [snd] in Hpaths.
  destruct (config_ok_finished _ _ _ _ Hc Hfin Hpaths) as (? & ? & ?). split_and!; [done..| |].
  - intros w Hin Hv Hne Hnil. destruct Hc as (_ & _ & Hws & _).
    assert (Hin' : w_path w ∈ map w_path ws') by (rewrite Hpaths; by apply list_elem_of_fmap_2).
    apply list_elem_of_fmap in Hin' as (w' & Heq & Hw'). pose proof (Hws w' Hw') as (_ & _ & Hpc). cbn [fst snd] in Hpc.
    rewrite (Hfin w' Hw') in Hpc. destruct Hpc as [_ Hh]. unfold in_head in Hh. rewrite <-Heq in Hh.
    destruct (Hh Hv) as (r & Hr & _); [unfold all; by rewrite all_written_path|]. by rewrite Hnil in Hr.
  - intros c R1 R2. destruct (steps_config_ok _ _ _ _ _ _ _ Hinit R1) as [Hc1 _].
    apply (steps_config_ok _ _ _ _ _ _ _ Hc1 R2).
Qed.

(** C28. Up to sixty-four writers always finish.  No writer runs out of attempts, whatever the
    interleaving; no run is longer than 329 steps a writer; and where no step is possible all
    have finished. *)
Theorem writers_finish t0 ws k t ws' :
  (length ws ≤ MAX_ROOT_CAS_RETRIES)%nat → (∀ w, w ∈ ws → w_pc w = Writing) →
  nsteps (step config s active_branch) k (t0, ws) (t, ws') →
  (∀ w, w ∈ ws' → w_pc w ≠ Halted) ∧ (k ≤ 329 * length ws)%nat
  ∧ ((∀ c, ¬ step config s active_branch (t, ws') c) → ∀ w, w ∈ ws' → w_pc w = Finished).
Proof.
  intros Hlen Hw Hrun.
  destruct (steps_attempts_ok config s active_branch k (t0, ws) (t, ws')) as [[_ Hok] Hk]; [|done|].
  { split; [done|]. intros w Hin. by rewrite (Hw w Hin). }
  cbn [fst snd] in *. assert (Hno : ∀ w, w ∈ ws' → w_pc w ≠ Halted).
  { intros w Hin Hh. specialize (Hok w Hin). by rewrite Hh in Hok. }
  split; [done|]. split.
  - enough (total steps_left ws = 329 * length ws)%nat by lia. clear -Hw. unfold total. induction ws as [|w ws IH]; [done|].
    cbn [sum_list_with length]. rewrite IH, (Hw w) by (intros; try apply Hw; by constructor). cbn [steps_left]. lia.
  - intros Hstuck w Hin. pose proof (Hno w Hin) as Hn. destruct (decide (w_pc w = Finished)) as [|Hne]; [done|].
    apply list_elem_of_lookup in Hin as [i Hi]. edestruct Hstuck. eapply step_at; [exact Hi|]. by intros [|].
Qed.
End theorems.

Lemma run_schedule_steps {St} `{ContentStore St} config (s : St) ab schedule c :
  rtc (step config s ab) c (run_schedule config s ab schedule c).
Proof.
  revert c. induction schedule as [|i schedule IH]; intros [t ws]; [done|]. cbn [run_schedule fst snd].
  destruct (ws !! i) as [w|] eqn:Hi; [|apply IH]. destruct (decide (w_pc w = Finished ∨ w_pc w = Halted)) as [Hs|Hs].
  - replace (writer_step config s ab t w) with (t, w_pc w) by (unfold writer_step; by destruct Hs as [-> | ->]).
    cbn [fst snd]. replace (at_pc w (w_pc w)) with w by (by destruct w). rewrite list_insert_id by done. apply IH.
  - eapply rtc_l; [by apply (step_at config s ab t ws i w)|]. apply IH.
Qed.

(** * Witnesses *)

Definition demo_writer (name : list Z) (new : option Hash) : Writer := mkWriter name new Writing.
Definition empty_tree : Tree := mkTree ∅ (Some ∅) [] [].
Definition demo_auto : RevisionConfig := mkRevisionConfig (lit "docs") true (lit "deterministic") None [lit "tmp/*"] [] (lit "allow").
Definition demo_writers : list Writer :=
  [demo_writer (lit "a") (Some (demo_hash 1)); demo_writer (lit "b") (Some (demo_hash 2));
   demo_writer (lit "tmp/c") (Some (demo_hash 3))].

Notation demo_run schedule c := (run_schedule demo_auto ([] : ContentMap) true schedule c).

(** The first two read the same root and the same head; the third's path is excluded. *)
Definition contended : list nat := [0; 1; 2; 0; 1; 0; 1; 1; 1; 2; 2; 0; 1; 0; 1; 0; 1; 1; 1; 1; 0; 1]%nat.

Definition all_finished (ws : list Writer) : bool := forallb (λ w, bool_decide (w_pc w = Finished)) ws.

Lemma all_finished_sound ws : all_finished ws = true → ∀ w, w ∈ ws → w_pc w = Finished.
Proof. unfold all_finished. rewrite forallb_forall. intros Hf w Hw%list_elem_of_In. specialize (Hf w Hw). by apply bool_decide_eq_true in Hf. Qed.

Lemma writers_lose_nothing_witness :
  let c := demo_run contended (empty_tree, demo_writers) in
  default ∅ (tracked c.1) = live c.1 ∧ head c.1 ≠ [].
Proof.
  intros c.
  destruct (writers_lose_nothing demo_auto ([] : ContentMap) true empty_tree demo_writers c.1 c.2)
    as (Hl & Ht & _ & Hne & _).
  - intros w Hw. by repeat (apply elem_of_cons in Hw as [->|Hw]; [done|]); apply elem_of_nil in Hw.
  - apply (bool_decide_eq_true_1 _). vm_compute. reflexivity.
  - done.
  - done.
  - replace (c.1, c.2) with c by (by destruct c). apply run_schedule_steps.
  - apply all_finished_sound. vm_compute. reflexivity.
  - split; [by rewrite Ht|]. apply (Hne (demo_writer (lit "a") (Some (demo_hash 1)))); [left|vm_compute; reflexivity|].
    cbn. intros Hd. discriminate Hd.
Defined.

Lemma writers_finish_witness :
  let c := demo_run contended (empty_tree, demo_writers) in
  ∃ k, nsteps (step demo_auto ([] : ContentMap) true) k (empty_tree, demo_writers) (c.1, c.2) ∧ (k ≤ 987)%nat.
Proof.
  intros c.
  assert (Hr : rtc (step demo_auto ([] : ContentMap) true) (empty_tree, demo_writers) (c.1, c.2)).
  { replace (c.1, c.2) with c by (by destruct c). apply run_schedule_steps. }
  apply rtc_nsteps in Hr as [k Hk]. exists k. split; [exact Hk|].
  destruct (writers_finish demo_auto ([] : ContentMap) true empty_tree demo_writers k c.1 c.2) as (_ & Hb & _); [| |exact Hk|].
  - cbn. unfold MAX_ROOT_CAS_RETRIES. lia.
  - intros w Hw. by repeat (apply elem_of_cons in Hw as [->|Hw]; [done|]); apply elem_of_nil in Hw.
  - exact Hb.
Defined.

(** Writers of one path: the later value is bound in the tree, but its cascade overtakes the
    earlier one's, which then puts its value into the root. *)
Example same_path_overtaken :
  let ws := [demo_writer (lit "a") (Some (demo_hash 1)); demo_writer (lit "a") (Some (demo_hash 2))] in
  let c := demo_run [0; 1; 1; 1; 1; 1; 1; 1; 0; 0; 0; 0; 0; 0]%nat (empty_tree, ws) in
  (all_finished c.2, live c.1 !! lit "a", default ∅ (tracked c.1) !! lit "a", (h ← hd_error (head c.1); h !! lit "a"))
  = (true, Some (demo_hash 2), Some (demo_hash 1), Some (demo_hash 1)).
Proof. vm_compute. reflexivity. Qed.

(** The pointer of the active branch is set without a guard and stays behind the head. *)
Example branch_left_behind :
  let c := demo_run [0; 0; 0; 0; 0; 0; 1; 1; 1; 1; 1; 1; 1; 0]%nat (empty_tree, take 2 demo_writers) in
  (all_finished c.2, length (head c.1), length (branch c.1)) = (true, 2%nat, 1%nat).
Proof. vm_compute. reflexivity. Qed.

(** Sixty-five writers are too many: each of the others wins once against the last. *)
Example one_writer_too_many :
  let ws := map (λ i, demo_writer [Z.of_nat i] (Some (demo_hash 1))) (seq 0 65) in
  let c := demo_run (seq 0 65 ++ concat (map (λ i, [64; i; i; 64]) (seq 0 64)) ++ [64])%nat (empty_tree, ws) in
  (w_pc <$> c.2 !! 64%nat, default ∅ (tracked c.1) !! [64], live c.1 !! [64]) = (Some Halted, None, Some (demo_hash 1)).
Proof. vm_compute. reflexivity. Qed.

